(* ===== verification/_CoqProject ===== *)
-Q . S2P
Prelude.v
BTree.v
Task.v
ChannelTypes.v
FlagLock.v
LocalMutex.v
SmartMutex.v
LocalRWLock.v
SharedRWLock.v
TaskVec.v
LocalWaitGroup.v
WaitGroup.v
Once.v
LocalCondVar.v
CondVar.v
LocalScope.v
SharedScope.v
LocalValue.v
Pointers.v
LocalPools.v
Buffer.v
IoTypes.v
IoOps.v
BufferViews.v
OpenOptions.v
Files.v
DirTree.v
UnixAddr.v
IoStreams.v
Datagrams.v
Sockets.v
Descriptors.v
Utils.v
Config.v
IoUring.v
IoUringSystem.v
Fallback.v
FallbackWorker.v
FallbackSystem.v
FallbackPool.v
FallbackPoolSystem.v
Interactor.v
GlobalState.v
ThreadPool.v
Executor.v
ExecutorLoop.v
IoExecutor.v
ExecutorApi.v
ExecutorPool.v
Launch.v
WithBuffer.v
ExecutorMachine.v
LocalChannel.v
SharedChannel.v
Cancellation.v
