(* ===== verification/Prelude.v ===== *)
(** * A verification development for the orengine runtime

    orengine is an asynchronous runtime. Every thread has an executor that
    polls tasks (pinned futures with a tag that says whether they may leave
    their thread: shared tasks may, local ones may not). Futures park their
    task in the queue of a synchronisation primitive, ask the executor by a
    [Call] to do so after the poll has returned, or put it to sleep; the
    primitives hand the task back with [exec_task] (poll it now, inside the
    current poll) or [spawn_task] (queue it). Executors share work through
    lists of shared tasks, send tasks to each other through an interactor,
    learn of each other from a global register, and give blocking functions to
    a thread pool. IO futures make a request of the IO worker of their thread
    and park; the executor polls the worker, which hands the task back when
    the request is finished.

    ** Files, and the sources they model (under [src/src/])

    - [Prelude]: outcomes, machine integers, lists, tactics, hints. [BTree]:
      the ordered maps of deadlines.
    - [Task]: [runtime/task/], [sync_task_queue.rs], [runtime/call/call.rs].
      A tagged pointer is a 128-bit number, an address is a [Z].
    - [FlagLock]: [utils/spin_lock.rs], [utils/never_wait_lock.rs],
      [sync/mutexes/naive_shared.rs], through the interface class [FlagLock].
    - [LocalMutex], [SmartMutex]: [sync/mutexes/local.rs], [smart_shared.rs].
    - [LocalRWLock], [SharedRWLock]: [sync/rw_locks/local.rs],
      [naive_shared.rs].
    - [TaskVec]: [Vec<Task>] with its buffer, for loops that drain it while
      tasks run. [LocalWaitGroup], [WaitGroup]: [sync/wait_groups/].
    - [Once]: [sync/onces/], through the interface class [OnceCell].
    - [LocalCondVar], [CondVar]: [sync/cond_vars/].
    - [LocalScope], [SharedScope]: [sync/scopes/].
    - [ChannelTypes], [LocalChannel], [SharedChannel]: [sync/channels/]. A
      waiting future is an object in memory that the queues point to.
    - [Utils]: [utils/vec_map.rs], [utils/progressive_timeout.rs].
    - [Config]: [runtime/executor/config.rs], [io/config.rs],
      [io/sys/worker_configs/], the configurations of [run.rs].
    - [LocalValue]: [local.rs]. [Pointers]: [utils/ptr.rs]. [LocalPools]:
      [local_pool.rs], [utils/task_structures_pool.rs].
    - [OpenOptions]: [fs/open_options.rs]. [Files]: [fs/file.rs],
      [fs/dir_builder.rs], [fs/shortcuts.rs], [io/sys/linux/os_path.rs];
      [DirTree]: a tree of directories, and what [Files] does to it.
    - [UnixAddr]: [net/unix/addr.rs], the unix part of [net/addr/],
      [io/sys/linux/os_message_header.rs].
    - [Buffer]: [io/buf/], with the memory that buffers point to.
      [BufferViews]: [io/buf/fixed_io_buffer.rs], [sendable_buffer.rs]: how
      the methods of [IoOps] get buffers and slices.
    - [IoTypes]: [io/io_request_data.rs], [io/time_bounded_io_task.rs],
      [io/worker.rs] (the interface class [IoWorker]) and the two macros of
      [orengine-macros/src/lib.rs] that IO futures are made with.
    - [IoOps], [IoStreams]: the futures of [io/net/], [io/fs/] and
      [io/close.rs], the methods that transfer a whole buffer, and
      [utils/each_addr.rs]; what they do to a stream or a file.
    - [Datagrams]: [io/net/recv_from.rs], [peek_from.rs], [send_to.rs] and
      [accept.rs], with the headers and addresses they give to the kernel.
    - [Sockets]: [io/net/bind.rs], [io/net/connect.rs], the types of sockets
      under [net/], and the closing of sockets and files. [Descriptors]: the
      descriptors that these types and files own, their conversions, and
      [io/sys/sockets_and_files/].
    - [IoUring], [IoUringSystem]: [io/sys/linux/io_uring.rs], and the worker
      with its ring, the kernel and the futures.
    - [Fallback]: [io/sys/fallback/io_call.rs], [operations.rs] and
      [mio_poller.rs]. [FallbackWorker], [FallbackSystem]:
      [io/sys/fallback/worker.rs]. [FallbackPool], [FallbackPoolSystem]:
      [io/sys/fallback/with_thread_pool/].
    - [IoExecutor]: what the actions of the workers do to the executor.
      [WithBuffer]: [io/buf/with_buffer.rs], buffers for shared tasks.
    - [Interactor]: [runtime/interaction_between_executors/].
    - [GlobalState]: [runtime/global_state/].
    - [ThreadPool]: [runtime/local_thread_pool/], [runtime/asyncify/].
    - [Executor], [ExecutorLoop], [ExecutorMachine]:
      [runtime/executor/executor.rs], [sleep.rs], [yield_now.rs]: the
      operations, the parts of the loop, and their composition with the code
      of tasks and of other threads. [ExecutorApi]: the functions of
      [executor.rs] that take futures, [runtime/waker/waker.rs] and
      [end_local_thread_and_write_into_ptr.rs].
    - [Launch]: [run.rs], [runtime/executor/executors_on_cores_table.rs],
      [test/runner.rs]. [ExecutorPool]: [test/executor_pool.rs].
    - [Cancellation]: what the models of the local channel, the local mutex
      and the ring do when a future is dropped before it is ready.

    ** How code is modelled

    A function of the source is a function on the state it changes; its result
    is an [outcome]: a value, a panic, or undefined behaviour. Debug and
    release builds differ by the argument [profile]: it decides about
    [debug_assert!] and about overflow, which panics in a debug build and
    wraps in a release build. A [usize] is a [Z] below [usize_modulus].

    Code of one thread that cannot be interrupted is one function. Where the
    source calls back into the executor in the middle of a loop, so that any
    task may run before the loop goes on, the loop is split into turns. Where
    threads share memory, every atomic access or locked region is a step of
    its own, and the step relation interleaves them in any order (sequentially
    consistent: reorderings that weaker memory orders would allow are not
    covered). A lock held by somebody else is an argument, so that every
    theorem holds for each way the attempts may fail.

    Code outside of the repository is an argument: the size of a future
    ([size_of]), the clock ([now]), the random generator ([rng]), the answers
    of the system ([sys], [await_op]), the result of polling the user's
    futures. The ring of the crate [io_uring] is a class of operations with
    laws ([RingOps], [RingLaws]), and so are the system calls on streams and
    files ([DeviceLaws]), those on directories ([QuietFs]), those that carry
    addresses ([KernelLaws]) and those that make and bind sockets
    ([SocketLaws]); each has an executable instance. The state of a step
    relation has, beside the fields of the source, a history (what was sent,
    created, woken) that only the theorems look at.

    The guards of the steps are conditions of the theorems about them, and the
    comment of each theorem names them. Some that matter: executors may start,
    stop and register again ([GlobalState.step]), and a sender that learns of
    it drops its batches ([Interactor.net_refresh]); a task woken by [close]
    of a local channel may call [close] again, which lets the first call go on
    with stale entries ([LocalChannel.step] with [nested]); a job of the
    thread pool may panic and end its worker ([ThreadPool.step] without
    [calm]); tasks may subscribe to a mutex without locking it
    ([SmartMutex.quiet_step] says when); the future that sends the result of a
    job may be polled at once or queued ([ExecutorPool.poll_job]); a poll of
    the system may fail ([FallbackWorker.poll_unwrap]); calls of [mkdir] may
    fail, and the mode of a directory is cut by the umask ([DirTree.QuietFs]).
    A value that is consumed is dropped at the end of the scope unless it is
    wrapped in [ManuallyDrop] ([Descriptors.Local]).

    ** What the theorems show

    - Safety of memory and absence of panics: [local_channel_safe],
      [local_rw_lock_safe], [executor_safe], [local_scope_joins]: in every
      reachable state the operations that each theorem names do not read a
      dead object, break an [assert_unchecked], or panic.
    - Exclusion: at most one owner of [NaiveMutex], [SpinLock], [LocalMutex],
      [Mutex]; readers or one writer for both readers-writer locks; one run of
      a [Once].
    - Conservation: a task is never lost or copied by the executor
      ([executor_conserves_tasks], an equation between multisets), by the
      interactor ([interactor_delivery], a refinement of ordered queues; what
      a change of the register drops is counted, [check_refreshes_net]), by
      the thread pool as long as no job panics ([thread_pool_delivery]), by
      the taking of work. A request is never lost by the
      IO workers ([io_uring_conserves], [fallback_conserves],
      [pool_conserves]), and its task reaches the executor
      ([io_uring_completion_wakes]). Buffers do not share memory
      ([buffers_own_their_memory]), a pooled value is in one place
      ([local_pool_exclusive]), and a value behind a raw pointer is dropped or
      returned once ([ptr_owns]). A descriptor has one owner, through all
      conversions, until it is closed ([descriptors_owned]); an executor of
      the pool has one job ([executor_pool_safe]).
      A sleeping task is woken from its own deadline on ([sleep_spec]).
    - Delivery: the local channel refines a queue in order of offers
      ([local_channel_fifo]), the shared channel does what the local one does
      ([shared_channel_refines_local]); waiting tasks are woken
      ([local_channel_recv_unblocks], [wait_group_no_lost_wakeup],
      [smart_mutex_no_lost_wakeup]). A future becomes a task in the right
      queue ([futures_reach_executor], [sent_task_arrives]), and its value is
      what blocking on it returns ([block_on_returns]). A shared task gets a
      buffer of its thread for as long as it stays there
      ([with_buffer_returns], [with_buffer_becomes_local]). Executors start on
      all cores with their futures ([all_cores_start],
      [all_cores_start_default], [executors_spread_over_cores]), and a test
      starts alone on its executor ([test_runs_alone]).
    - Transfers: [recv_exact_fills], [send_all_sends],
      [positioned_transfers]: the loops move exactly the bytes of the buffer.
      [io_stays_in_buffer]: the kernel is asked only for memory of the buffer
      or slice that was given, under the index it is registered with.
      [buffer_from_vec]: buffers made of vectors.
      [recv_from_receives], [accept_accepts], [send_to_sends]: datagrams and
      connections come with the address of their sender, as the kernel gave
      it. [bind_sockets]: which calls a socket gets.
    - Names: [create_dir_all_creates] (all of a path and nothing else is
      created, the parents with 0o777), [unix_addr_roundtrip] and [unix_addr_wf] (names survive the
      way into the bytes of an address, which are always well-formed).
    - Deadlines: [io_uring_deadlines], [io_uring_must_poll],
      [pool_must_poll_time].
    - Agreement: the two fallback workers do the same with an operation,
      except for a file that would block ([fallback_workers_agree]), and the options of a file mean the same to
      all workers where the standard library accepts them
      ([open_options_agree]); executors that share work have the same features
      ([config_agreement]); after its check an executor knows exactly the ones
      that are alive ([global_state_check]).
    - Defects: where the code does not do what it means to, a theorem exhibits
      the run: [shared_scope_outlived], [smart_mutex_stale_expected_count],
      [local_wait_group_reentrant_wait], [local_cond_var_lost_wakeup],
      [cond_var_late_subscription], [version_change_drops_batches],
      [late_executor_panics], [asyncify_local_task_lost],
      [panicking_job_loses_tasks], [local_channel_nested_close_dangles],
      [config_refusal_leaks], [run_on_all_cores_ignores_config],
      [take_work_underflow], [check_sleeping_spec], [exec_series_not_depth],
      [locality_change_after_move_panics]; of IO, [io_uring_single_entry_loses],
      [io_uring_stale_deadline], [io_uring_moved_task_deadline],
      [io_uring_socket_shared_task], [fallback_error_counted_twice],
      [fallback_deadline_clash], [fallback_shared_task_lost],
      [poller_socket_twice], [pool_count_leaks], [recv_exact_end_of_stream],
      [exact_4gib_stuck], [peek_exact_repeats], [buffer_slice],
      [buffer_unchecked_sizes], [buf_pool_drop]; of names and sockets,
      [create_dir_all_short_name], [create_dir_all_races],
      [create_dir_all_not_utf8], [unnamed_sender_panics], [bind_sockets],
      [unix_listener_abstract], [with_std_file_closes_twice]; of the interface,
      [waker_outlived], [with_buffer_false_alarm], [spawn_shared_after_local],
      [block_on_returns], [ptr_new_zero_sized], [pooled_vec_keeps_capacity],
      [close_then_drop], [job_report_dangles]; of futures that are dropped
      while they wait, [channel_futures_dropped], [mutex_wait_dropped],
      [io_future_dropped].

    ** Fuel and bounds

    Loops that are not structural have fuel, and the theorems show how much is
    enough. [insert_first_free] and [sleep_loop] try successive deadlines: one
    more than there are deadlines or sleeping tasks ([insert_first_free_spec],
    [sleep_spec]).
    [retry_interrupted] repeats a call until the system answers it
    ([retry_interrupted_first]). [transfer] takes at most one turn per byte
    and one more ([recv_exact_fills]), and [must_poll] one per 16 microseconds
    ([pool_must_poll_time]). [tv_drain_all] takes one more turn than the
    vector has tasks ([local_wait_group_done]). [notify_all] takes one more
    turn than there are waiting tasks ([local_cond_var_notify_all]).
    [close_run] takes [close_fuel] turns, which counts the waiting futures
    ([local_channel_close]). [create_dir_all_loop] takes at most two turns
    for every byte of the path and one more ([create_dir_all_creates]), and
    [send_all_to_loop] two, because a datagram is sent as a whole
    ([send_to_sends]).
    Guards of steps keep in range the
    counters that could only overflow after 2^63 operations.

    ** What is not modelled

    Addresses of the internet, which the crate socket2 makes and reads.
    [Debug] output, comparing and indexing of bytes, and the code for Windows.
    Pinning threads to cores (the crate core_affinity), and the other
    procedural macros. Futures dropped while they wait are in [Cancellation]
    only: the other theorems are about futures that are polled until they are
    ready. The contents of futures: the code of tasks is any sequence of the
    operations it can call. *)

From Stdlib Require Import ZArith Lia.
From stdpp Require Export prelude gmap list relations.

(** ** Outcomes

    A Rust operation either returns a value, panics (an [assert!], an
    [expect], an arithmetic overflow in a build with overflow checks), or
    has undefined behaviour (an [unwrap_unchecked] on [None], a read of a
    cell that holds no value, a dereference of a dead pointer). *)
Inductive outcome (A : Type) : Type :=
| Val (a : A)
| Panicked
| Undefined.
Arguments Val {A} a.
Arguments Panicked {A}.
Arguments Undefined {A}.

Global Instance outcome_ret : MRet outcome := λ A a, Val a.
Global Instance outcome_bind : MBind outcome := λ A B f m,
  match m with
  | Val a => f a
  | Panicked => Panicked
  | Undefined => Undefined
  end.

(** [unwrap_unchecked], and any other access the compiler is told cannot fail. *)
Definition unchecked {A} (o : option A) : outcome A :=
  match o with Some a => Val a | None => Undefined end.

(** [expect], [unwrap]. *)
Definition expect {A} (o : option A) : outcome A :=
  match o with Some a => Val a | None => Panicked end.

(** [assert!]. *)
Definition rassert (b : bool) : outcome () :=
  if b then Val () else Panicked.

(** ** Build profiles and machine integers

    [debug_assertions] and overflow checks come together in the default
    Cargo profiles: [Debug] has both, [Release] has neither. *)
Inductive profile := Debug | Release.

Global Instance profile_eq_dec : EqDecision profile.
Proof. solve_decision. Defined.

(** [debug_assert!]. *)
Definition debug_assert (p : profile) (b : bool) : outcome () :=
  match p with Debug => rassert b | Release => Val () end.

(** [usize] on a 64-bit target: an integer in [0, 2^64). *)
Definition usize_modulus : Z := 2 ^ 64.
Definition usize_MAX : Z := usize_modulus - 1.
Definition in_usize (x : Z) : Prop := (0 ≤ x < usize_modulus)%Z.
Definition usize_wrap (x : Z) : Z := x `mod` usize_modulus.

Definition usize_add (p : profile) (a b : Z) : outcome Z :=
  if (a + b <? usize_modulus)%Z then Val (a + b)%Z
  else match p with Debug => Panicked | Release => Val (usize_wrap (a + b)) end.

Definition usize_sub (p : profile) (a b : Z) : outcome Z :=
  if (b <=? a)%Z then Val (a - b)%Z
  else match p with Debug => Panicked | Release => Val (usize_wrap (a - b)) end.

(** [u32]. *)
Definition u32_modulus : Z := 2 ^ 32.
Definition in_u32 (x : Z) : Prop := (0 ≤ x < u32_modulus)%Z.
Definition u32_wrap (x : Z) : Z := x `mod` u32_modulus.

Definition u32_add (p : profile) (a b : Z) : outcome Z :=
  if (a + b <? u32_modulus)%Z then Val (a + b)%Z
  else match p with Debug => Panicked | Release => Val (u32_wrap (a + b)) end.

Definition u32_sub (p : profile) (a b : Z) : outcome Z :=
  if (b <=? a)%Z then Val (a - b)%Z
  else match p with Debug => Panicked | Release => Val (u32_wrap (a - b)) end.

(** ** Futures *)
Inductive Poll (A : Type) : Type :=
| Ready (a : A)
| Pending.
Arguments Ready {A} a.
Arguments Pending {A}.

(** ** [Vec] and [VecDeque] as lists

    The front of a deque is the head of the list; [Vec::push], [Vec::pop]
    and [VecDeque::push_back], [VecDeque::pop_back] work at its end. *)
Definition push_back {A} (l : list A) (x : A) : list A := l ++ [x].
Definition push_front {A} (l : list A) (x : A) : list A := x :: l.
Definition pop_front {A} (l : list A) : option (A * list A) :=
  match l with [] => None | x :: l' => Some (x, l') end.
Definition pop_back {A} (l : list A) : option (A * list A) :=
  match rev l with [] => None | x :: l' => Some (x, rev l') end.

Lemma pop_back_snoc {A} (l : list A) x : pop_back (l ++ [x]) = Some (x, l).
Proof. unfold pop_back. rewrite rev_app_distr. simpl. by rewrite rev_involutive. Qed.

Lemma pop_back_nil {A} : pop_back (@nil A) = None.
Proof. done. Qed.

Lemma pop_back_Some {A} (l l' : list A) x : pop_back l = Some (x, l') ↔ l = l' ++ [x].
Proof.
  split; [|intros ->; apply pop_back_snoc].
  destruct l as [|y l _] using rev_ind; [done|].
  rewrite pop_back_snoc. by intros [= -> ->].
Qed.

Lemma pop_back_None {A} (l : list A) : pop_back l = None ↔ l = [].
Proof.
  split; [|by intros ->].
  destruct l as [|y l _] using rev_ind; [done|]. by rewrite pop_back_snoc.
Qed.

Lemma pop_front_Some {A} (l l' : list A) x : pop_front l = Some (x, l') ↔ l = x :: l'.
Proof. destruct l; simpl; naive_solver. Qed.

Lemma pop_front_None {A} (l : list A) : pop_front l = None ↔ l = [].
Proof. destruct l; naive_solver. Qed.

(** ** Lemmas on outcomes *)
Lemma outcome_bind_Val {A B} (m : outcome A) (f : A → outcome B) b :
  m ≫= f = Val b ↔ ∃ a, m = Val a ∧ f a = Val b.
Proof. destruct m; naive_solver. Qed.

Lemma unchecked_Val {A} (o : option A) a : unchecked o = Val a ↔ o = Some a.
Proof. destruct o; naive_solver. Qed.

Lemma expect_Val {A} (o : option A) a : expect o = Val a ↔ o = Some a.
Proof. destruct o; naive_solver. Qed.

Lemma rassert_Val b u : rassert b = Val u ↔ b = true.
Proof. destruct b, u; naive_solver. Qed.

Lemma debug_assert_true p : debug_assert p true = Val ().
Proof. by destruct p. Qed.

Lemma usize_add_Val p a b :
  (a + b < usize_modulus)%Z → usize_add p a b = Val (a + b)%Z.
Proof. intros H. unfold usize_add. by rewrite (proj2 (Z.ltb_lt _ _) H). Qed.

Lemma usize_sub_Val p a b : (b ≤ a)%Z → usize_sub p a b = Val (a - b)%Z.
Proof. intros H. unfold usize_sub. by rewrite (proj2 (Z.leb_le _ _) H). Qed.

Lemma usize_sub_underflow_Debug a b : (a < b)%Z → usize_sub Debug a b = Panicked.
Proof. intros H. unfold usize_sub. by rewrite (proj2 (Z.leb_gt _ _) H). Qed.

Lemma usize_wrap_small x : (0 ≤ x < usize_modulus)%Z → usize_wrap x = x.
Proof. apply Z.mod_small. Qed.

Lemma usize_wrap_in_usize x : in_usize (usize_wrap x).
Proof. apply Z.mod_pos_bound. done. Qed.

Lemma usize_add_in_usize p a b c :
  in_usize a → in_usize b → usize_add p a b = Val c → in_usize c.
Proof.
  unfold usize_add, in_usize. intros Ha Hb. destruct (Z.ltb_spec (a + b) usize_modulus).
  - intros [= <-]. lia.
  - destruct p; [done|]. intros [= <-]. apply usize_wrap_in_usize.
Qed.

Lemma usize_sub_in_usize p a b c :
  in_usize a → in_usize b → usize_sub p a b = Val c → in_usize c.
Proof.
  unfold usize_sub, in_usize. intros Ha Hb. destruct (Z.leb_spec b a).
  - intros [= <-]. lia.
  - destruct p; [done|]. intros [= <-]. apply usize_wrap_in_usize.
Qed.

Lemma u32_add_Val p a b : (a + b < u32_modulus)%Z → u32_add p a b = Val (a + b)%Z.
Proof. intros H. unfold u32_add. by rewrite (proj2 (Z.ltb_lt _ _) H). Qed.

Lemma u32_sub_Val p a b : (b ≤ a)%Z → u32_sub p a b = Val (a - b)%Z.
Proof. intros H. unfold u32_sub. by rewrite (proj2 (Z.leb_le _ _) H). Qed.

Lemma u32_wrap_small x : in_u32 x → u32_wrap x = x.
Proof. apply Z.mod_small. Qed.

(** ** Invariants of step relations *)
Section steps.
Context {A : Type} (R : relation A) (I : A → Prop).

(** An inductive invariant holds in every reachable state. *)
Lemma rtc_invariant x y :
  (∀ a b, I a → R a b → I b) → I x → rtc R x y → I y.
Proof. intros Hstep Hx. induction 1; eauto. Qed.

End steps.

(** ** Tactics and hints *)

(** Split the binds of an operation that returned a value. *)
Ltac outcome_step :=
  match goal with
  | H : mbind _ _ = Val _ |- _ => apply outcome_bind_Val in H as (? & ? & ?)
  | H : unchecked _ = Val _ |- _ => apply unchecked_Val in H
  | H : expect _ = Val _ |- _ => apply expect_Val in H
  | H : rassert _ = Val _ |- _ => apply rassert_Val in H
  | H : Val _ = Val _ |- _ => injection H as H; simplify_eq
  | H : Panicked = Val _ |- _ => discriminate H
  | H : Undefined = Val _ |- _ => discriminate H
  end.
Ltac outcome_inv := repeat (outcome_step; simplify_eq).

(** Runs on concrete states: take a step, then evaluate the state reached. *)
Ltac eval_state :=
  lazymatch goal with
  | |- rtc _ ?s _ => let s' := eval vm_compute in s in change s with s'
  end.

Tactic Notation "run_step" uconstr(H) :=
  eapply rtc_l; [eapply H; vm_compute; first [reflexivity | intros; discriminate]|]; eval_state.

(** Conjunctions about concrete states, each of which may determine a term that
    the next ones mention. *)
Ltac eval_conj :=
  lazymatch goal with
  | |- _ ∧ _ => split; [vm_compute; reflexivity|eval_conj]
  | |- _ => vm_compute; reflexivity
  end.

Create HintDb orengine.
#[export] Hint Resolve pop_back_snoc usize_wrap_in_usize debug_assert_true : orengine.
