(* ===== verification/BTree.v ===== *)
(** * Ordered maps

    The part of [BTreeMap] and [BTreeSet] that the executor uses for sleeping
    tasks and the IO workers use for deadlines. A map is its list of entries
    in key order. A [BTreeSet] of values that compare by a key is a map from
    the key; its [insert] differs in leaving a value that is there. *)

From Stdlib Require Import ZArith Lia Sorting.Sorted.
From S2P Require Import Prelude.

Local Open Scope Z_scope.

Section filter.
Context {A : Type} (P : A → Prop) `{!∀ x, Decision (P x)}.

Lemma filter_all (l : list A) : Forall P l → filter P l = l.
Proof. induction 1 as [|x l Hx _ IH]; [done|]. rewrite filter_cons_True by done. by rewrite IH. Qed.

Lemma filter_none (l : list A) : Forall (λ x, ¬ P x) l → filter P l = [].
Proof. induction 1 as [|x l Hx _ IH]; [done|]. by rewrite filter_cons_False by done. Qed.

Lemma filter_sublist (l : list A) : sublist (filter P l) l.
Proof. induction l as [|x l IH]; [done|]. rewrite filter_cons. case_decide; by constructor. Qed.

End filter.

Section btree.
Context {V : Type}.
Implicit Types (k u : Z) (v : V) (l : list (Z * V)).

(** [BTreeMap::insert] *)
Fixpoint btree_insert (k : Z) (v : V) (l : list (Z * V)) : list (Z * V) :=
  match l with
  | [] => [(k, v)]
  | (k', v') :: l =>
      if k <? k' then (k, v) :: (k', v') :: l
      else if k =? k' then (k, v) :: l
      else (k', v') :: btree_insert k v l
  end.

(** [BTreeMap::contains_key] *)
Definition btree_mem (k : Z) (l : list (Z * V)) : bool := existsb (λ x, x.1 =? k) l.

(** [BTreeSet::remove] *)
Definition btree_remove (k : Z) (l : list (Z * V)) : list (Z * V) := filter (λ x, x.1 ≠ k) l.

(** [BTreeSet::insert]: whether the value was inserted *)
Definition btree_set_insert (k : Z) (v : V) (l : list (Z * V)) : bool * list (Z * V) :=
  if btree_mem k l then (false, l) else (true, btree_insert k v l).

(** Insertion under the first free key from [u] on, as the IO workers do with
    deadlines: on a collision they add a nanosecond and try again. (The
    addition panics past the last [Instant], some 10^11 years away, which is
    left out here; [Executor.sleep_loop] has it.) *)
Fixpoint insert_first_free (fuel : nat) (u : Z) (v : V) (l : list (Z * V))
    : option (Z * list (Z * V)) :=
  match fuel with
  | O => None
  | S fuel =>
      match btree_set_insert u v l with
      | (true, l) => Some (u, l)
      | (false, _) => insert_first_free fuel (u + 1) v l
      end
  end.

Definition keys_sorted (l : list (Z * V)) : Prop := StronglySorted Z.lt l.*1.

Lemma keys_sorted_cons k v l :
  keys_sorted ((k, v) :: l) ↔ Forall (λ x, k < x.1) l ∧ keys_sorted l.
Proof.
  unfold keys_sorted. rewrite fmap_cons. simpl. split.
  - intros [? Hf]%StronglySorted_inv. by rewrite Forall_fmap in Hf.
  - intros [Hf ?]. constructor; [done|]. by rewrite Forall_fmap.
Qed.

Lemma btree_mem_elem k l : btree_mem k l = true ↔ k ∈ l.*1.
Proof.
  unfold btree_mem. rewrite existsb_exists, list_elem_of_fmap. split.
  - intros (x & Hin & Hk%Z.eqb_eq). exists x. split; [done|]. by apply list_elem_of_In.
  - intros (x & -> & Hin). exists x. split; [by apply list_elem_of_In|]. apply Z.eqb_refl.
Qed.

Lemma btree_insert_Permutation k v l :
  k ∉ l.*1 → btree_insert k v l ≡ₚ (k, v) :: l.
Proof.
  induction l as [|[k' v'] l IH]; intros Hk; [done|]. simpl in *.
  apply not_elem_of_cons in Hk as [Hne Hk]. destruct (k <? k'); [done|].
  rewrite (proj2 (Z.eqb_neq _ _)) by done. rewrite (IH Hk). constructor.
Qed.

Lemma btree_insert_sorted k v l :
  k ∉ l.*1 → keys_sorted l → keys_sorted (btree_insert k v l).
Proof.
  unfold keys_sorted. induction l as [|[k' v'] l IH]; intros Hk Hs; simpl in *; [repeat constructor|].
  apply not_elem_of_cons in Hk as [Hne Hk]. apply StronglySorted_inv in Hs as [Hs Hf].
  destruct (Z.ltb_spec k k').
  - simpl. constructor; [by constructor|]. constructor; [done|]. eapply Forall_impl; [done|]. simpl. lia.
  - rewrite (proj2 (Z.eqb_neq _ _)) by done. simpl. constructor; [by apply IH|].
    rewrite (fmap_Permutation fst _ _ (btree_insert_Permutation k v l Hk)). simpl.
    constructor; [lia|done].
Qed.

(** Re-inserting the first entry. *)
Lemma btree_insert_first k v l : keys_sorted ((k, v) :: l) → btree_insert k v l = (k, v) :: l.
Proof.
  unfold keys_sorted. simpl. intros [_ Hf]%StronglySorted_inv. destruct l as [|[k' v'] l]; [done|].
  simpl in *. apply Forall_cons in Hf as [Hlt _]. by rewrite (proj2 (Z.ltb_lt _ _)).
Qed.

Lemma keys_sorted_unique k v v' l : keys_sorted l → (k, v) ∈ l → (k, v') ∈ l → v = v'.
Proof.
  induction l as [|[k0 v0] l IH]; [by intros _ ?%elem_of_nil|]. intros [Hf Hs]%keys_sorted_cons.
  rewrite Forall_forall in Hf. rewrite !elem_of_cons. intros [?|Hv] [?|Hv']; simplify_eq; try done.
  - specialize (Hf _ Hv'). simpl in Hf. lia.
  - specialize (Hf _ Hv). simpl in Hf. lia.
  - by apply IH.
Qed.

Lemma keys_sorted_sublist l l' : sublist l l' → keys_sorted l' → keys_sorted l.
Proof.
  unfold keys_sorted. induction 1 as [|[k v] l l' Hs IH|[k v] l l' Hs IH]; [done|..]; simpl;
    intros [H1 H2]%StronglySorted_inv; [|by apply IH].
  constructor; [by apply IH|]. rewrite Forall_forall in *. intros x Hx. apply H2.
  apply list_elem_of_fmap in Hx as (y & -> & Hy). apply list_elem_of_fmap.
  exists y. split; [done|]. eapply elem_of_submseteq; [done|]. by apply sublist_submseteq.
Qed.

Definition at_least (u : Z) (l : list (Z * V)) : nat := length (filter (λ x, u ≤ x.1) l).

Lemma at_least_succ u l : u ∈ l.*1 → (at_least (u + 1) l < at_least u l)%nat.
Proof.
  assert (∀ l, (at_least (u + 1) l ≤ at_least u l)%nat) as Hle.
  { intros l'. unfold at_least. induction l' as [|x l' IH]; [done|]. rewrite !filter_cons.
    repeat case_decide; simpl; lia. }
  unfold at_least in *. induction l as [|x l IH]; [by intros ?%elem_of_nil|].
  intros [->|Hin]%elem_of_cons; rewrite !filter_cons.
  - rewrite decide_False, decide_True by lia. simpl. specialize (Hle l). lia.
  - specialize (IH Hin). repeat case_decide; simpl; lia.
Qed.

Lemma insert_first_free_loop fuel u v l :
  (at_least u l < fuel)%nat →
  ∃ k, insert_first_free fuel u v l = Some (k, btree_insert k v l) ∧ u ≤ k ∧ (k ∉ l.*1) ∧
    ∀ j, u ≤ j < k → j ∈ l.*1.
Proof.
  revert u. induction fuel as [|fuel IH]; intros u Hf; [lia|]. simpl.
  unfold btree_set_insert. destruct (btree_mem u l) eqn:Hm.
  - apply btree_mem_elem in Hm. pose proof (at_least_succ u l Hm).
    destruct (IH (u + 1)) as (k & -> & Hle & Hk & Hj); [lia|]. exists k. split_and!; [done|lia|done|].
    intros j Hju. destruct (decide (j = u)) as [->|?]; [done|]. apply Hj. lia.
  - exists u. split_and!; [done|lia| |lia]. intros Hin%btree_mem_elem. congruence.
Qed.

(** One turn more than there are entries is enough. *)
Lemma insert_first_free_spec u v l :
  ∃ k, insert_first_free (S (length l)) u v l = Some (k, btree_insert k v l) ∧ u ≤ k ∧ (k ∉ l.*1) ∧
    ∀ j, u ≤ j < k → j ∈ l.*1.
Proof.
  apply insert_first_free_loop. unfold at_least.
  pose proof (length_filter (λ x : Z * V, u ≤ x.1) l). lia.
Qed.

End btree.
