(* ===== verification/Task.v ===== *)
(** * Tasks

    Models [src/src/runtime/task/]: [locality.rs] (the locality flag),
    [task_data.rs] (a future pointer tagged with the locality in its top
    bit), [task.rs] (the task and its debug checks), [task_pool.rs] (the
    pool of finished tasks that [Task::from_future] reuses),
    [shared_task_list.rs] (the work-sharing list of an executor) and
    [src/src/sync_task_queue.rs] (the list of parked shared tasks). *)

From Stdlib Require Import ZArith Lia.
From S2P Require Import Prelude.

Local Open Scope Z_scope.

(** ** [locality.rs], on a 64-bit target *)

(** An [i128] result: the representative of [x] in [-2^127, 2^127). *)
Definition i128_wrap (x : Z) : Z :=
  let m := x `mod` 2 ^ 128 in if m <? 2 ^ 127 then m else m - 2 ^ 128.

Definition IS_LOCAL_SHIFT : Z := 127.
Definition TASK_MASK : Z := Z.lnot (i128_wrap (Z.shiftl 1 IS_LOCAL_SHIFT)).
Definition IS_LOCAL_MASK : Z := i128_wrap (Z.shiftl 1 IS_LOCAL_SHIFT).

Record Locality := mkLocality { Locality_value : Z }.
Definition Locality_local : Locality := mkLocality IS_LOCAL_MASK.
Definition Locality_shared : Locality := mkLocality 0.
Definition Locality_is_local (l : Locality) : bool := negb (Locality_value l =? 0).

(** ** [task_data.rs]

    [*mut dyn Future] is a pair of a data address and a vtable address;
    transmuted to [i128] on a little-endian target the data address is the
    low half. *)
Definition fat_ptr (addr vtable : Z) : Z := i128_wrap (addr + Z.shiftl vtable 64).

Record TaskData := mkTaskData { future_tagged_ptr : Z }.

Definition TaskData_new (future : Z) (locality : Locality) : TaskData :=
  mkTaskData (Z.lor future (Locality_value locality)).

Definition TaskData_future_ptr (d : TaskData) : Z :=
  Z.land (future_tagged_ptr d) TASK_MASK.

Definition TaskData_is_local (d : TaskData) : bool :=
  negb (Z.land (future_tagged_ptr d) IS_LOCAL_MASK =? 0).

Definition TaskData_set_locality (d : TaskData) (locality : Locality) : TaskData :=
  let tagged_ptr := Z.land (future_tagged_ptr d) (Z.lnot IS_LOCAL_MASK) in
  mkTaskData (Z.lor tagged_ptr (Locality_value locality)).

(** ** [task.rs]

    [executor_id] and [is_executing] exist under [debug_assertions] only;
    [is_executing] is the address of the task's [AtomicBool]. *)
Record Task := mkTask {
  data : TaskData;
  executor_id : Z;
  is_executing : Z;
}.

Global Instance Task_eq_dec : EqDecision Task.
Proof.
  assert (EqDecision TaskData) by solve_decision. solve_decision.
Defined.

Definition Task_future_ptr (t : Task) : Z := TaskData_future_ptr (data t).
Definition Task_is_local (t : Task) : bool := TaskData_is_local (data t).

(** [check_safety], run by [exec_task_now] under [debug_assertions]:
    [executing] is the flag behind [is_executing], [local_id] the id of the
    current executor and [cfg_test] whether the crate is built for tests. *)
Definition Task_check_safety (cfg_test executing : bool) (local_id : Z) (t : Task)
    : outcome Task :=
  if executing then Panicked
  else if Task_is_local t && negb (executor_id t =? local_id) then
    if cfg_test && (executor_id t =? usize_MAX)
    then Val (mkTask (data t) local_id (is_executing t))
    else Panicked
  else Val t.

(** [panic_if_local_in_future!]: a shared structure refuses local tasks. *)
Definition panic_if_local_in_future (p : profile) (t : Task) : outcome () :=
  match p with
  | Debug => if Task_is_local t then Panicked else Val ()
  | Release => Val ()
  end.

(** ** [call.rs]: what a future asks the executor to do with its task after it
    returned [Pending]. Pointers are addresses. *)
Inductive Call :=
| Call_None
| PushCurrentTaskAtTheStartOfLIFOSharedQueue
| PushCurrentTaskTo (list : Z)
| PushCurrentTaskToAndRemoveItIfCounterIsZero (list counter : Z)
| ReleaseAtomicBool (flag : Z)
| PushFnToThreadPool (f : Z)
| ChangeCurrentTaskLocality (l : Locality).

Definition Call_is_none (c : Call) : bool :=
  match c with Call_None => true | _ => false end.

(** ** [sync_task_queue.rs]: each operation runs under the list's spin lock *)
Definition SyncTaskList_push (p : profile) (inner : list Task) (t : Task)
    : outcome (list Task) :=
  debug_assert p (negb (Task_is_local t));; Val (push_back inner t).

Definition SyncTaskList_pop (inner : list Task) : option Task * list Task :=
  match pop_back inner with
  | Some (t, inner') => (Some t, inner')
  | None => (None, inner)
  end.

(** Returns the emptied list and [tasks] extended with its tasks. *)
Definition SyncTaskList_pop_all_in (inner tasks : list Task) : list Task * list Task :=
  ([], tasks ++ inner).

Definition SyncTaskList_pop_all_in_deque (inner other_list : list Task)
    : list Task * list Task :=
  ([], foldl push_back other_list inner).

(** ** [shared_task_list.rs] *)
Record ExecutorSharedTaskList := mkExecutorSharedTaskList {
  list_executor_id : Z;
  list_tasks : list Task;
}.

Definition ExecutorSharedTaskList_new (executor_id : Z) : ExecutorSharedTaskList :=
  mkExecutorSharedTaskList executor_id [].

(** The copying loop of [take_batch]: [n] counts [guard.len() - first_index]. *)
Fixpoint take_batch_loop (guard : list Task) (first_index n : nat)
    (other_list : list Task) : outcome (list Task) :=
  match n with
  | O => Val other_list
  | S n' =>
      t ← unchecked (guard !! first_index);
      take_batch_loop guard (S first_index) n' (push_back other_list t)
  end.

(** [locked]: another thread holds the list's lock, so [try_lock] fails. *)
Definition take_batch (locked : bool) (l : ExecutorSharedTaskList)
    (other_list : list Task) (limit : nat)
    : outcome (ExecutorSharedTaskList * list Task) :=
  if locked then Val (l, other_list) else
  let guard := list_tasks l in
  let number_of_elems := (length guard `min` limit)%nat in
  let new_len := (length guard - number_of_elems)%nat in
  other_list' ← take_batch_loop guard new_len (length guard - new_len) other_list;
  Val (mkExecutorSharedTaskList (list_executor_id l) (take new_len guard), other_list').

(** ** [task_pool.rs]

    A future of a given type is its vtable; the vtable gives its size. The
    heap says which type of future the bytes at an address hold. *)
Record TaskPool := mkTaskPool { pool_storage : gmap Z (list Task) }.

Section task_pool.
Context (size_of : Z → Z).

Definition pool_bucket (pool : TaskPool) (size : Z) : list Task :=
  default [] (pool_storage pool !! size).

Definition task_addr (t : Task) : Z := Task_future_ptr t `mod` 2 ^ 64.
Definition task_vtable (t : Task) : Z := Task_future_ptr t `div` 2 ^ 64.

(** [acquire]: [fresh] is the address [Box::new] returns when the pool has
    no task of that size, [flag] that of the new [AtomicBool]. *)
Definition TaskPool_acquire (cfg_test : bool) (local_id fresh flag : Z)
    (pool : TaskPool) (heap : gmap Z Z) (future : Z) (locality : Locality)
    : Task * TaskPool * gmap Z Z :=
  let size := size_of future in
  let executor_id := if cfg_test then usize_MAX else local_id in
  match pop_back (pool_bucket pool size) with
  | Some (t, rest) =>
      (t, mkTaskPool (<[size := rest]> (pool_storage pool)), <[task_addr t := future]> heap)
  | None =>
      (mkTask (TaskData_new (fat_ptr fresh future) locality) executor_id flag,
       mkTaskPool (<[size := []]> (pool_storage pool)), <[fresh := future]> heap)
  end.

(** [put]: [size_of_val] reads the size from the task's own vtable. *)
Definition TaskPool_put (pool : TaskPool) (t : Task) : TaskPool :=
  let size := size_of (task_vtable t) in
  match pool_storage pool !! size with
  | Some l => mkTaskPool (<[size := push_back l t]> (pool_storage pool))
  | None => mkTaskPool (<[size := [t]]> (pool_storage pool))
  end.

End task_pool.

(** ** Lemmas on the tagged pointer *)

(** A future pointer whose vtable address has a clear top bit. *)
Definition untagged (future : Z) : Prop := 0 ≤ future < 2 ^ 127.

Definition is_locality (l : Locality) : Prop := l = Locality_local ∨ l = Locality_shared.

Lemma IS_LOCAL_MASK_eq : IS_LOCAL_MASK = Z.lnot (Z.ones 127).
Proof. by vm_compute. Qed.

Lemma TASK_MASK_eq : TASK_MASK = Z.ones 127.
Proof. by vm_compute. Qed.

Lemma land_TASK_MASK x : Z.land x TASK_MASK = x `mod` 2 ^ 127.
Proof. rewrite TASK_MASK_eq. by apply Z.land_ones. Qed.

Lemma untagged_land_TASK_MASK x : untagged x → Z.land x TASK_MASK = x.
Proof. intros H. rewrite land_TASK_MASK. by apply Z.mod_small. Qed.

Lemma untagged_land_IS_LOCAL_MASK x : untagged x → Z.land x IS_LOCAL_MASK = 0.
Proof.
  intros [H0 H1]. rewrite IS_LOCAL_MASK_eq, <- Z.ldiff_land, Z.ldiff_ones_r by lia.
  rewrite Z.shiftr_div_pow2, Z.div_small by lia. done.
Qed.

Lemma land_TASK_MASK_untagged x : untagged (Z.land x TASK_MASK).
Proof. rewrite land_TASK_MASK. by apply Z.mod_pos_bound. Qed.

#[export] Hint Resolve untagged_land_TASK_MASK land_TASK_MASK_untagged : orengine.

Lemma tag_future_ptr x l :
  untagged x → is_locality l → Z.land (Z.lor x (Locality_value l)) TASK_MASK = x.
Proof.
  intros Hx Hl. rewrite Z.land_lor_distr_l, untagged_land_TASK_MASK by done.
  destruct Hl as [-> | ->]; simpl; by rewrite Z.lor_0_r.
Qed.

Lemma tag_is_local x l :
  untagged x → is_locality l →
  negb (Z.land (Z.lor x (Locality_value l)) IS_LOCAL_MASK =? 0) = Locality_is_local l.
Proof.
  intros Hx Hl. rewrite Z.land_lor_distr_l, untagged_land_IS_LOCAL_MASK by done.
  destruct Hl as [-> | ->]; by vm_compute.
Qed.

Lemma lnot_IS_LOCAL_MASK : Z.lnot IS_LOCAL_MASK = TASK_MASK.
Proof. by vm_compute. Qed.

(** The pointer and the locality stored in a [TaskData] are both recovered:
    tagging loses nothing when the pointer's top bit is clear. *)
Theorem TaskData_roundtrip (future : Z) (l : Locality) :
  untagged future → is_locality l →
  TaskData_future_ptr (TaskData_new future l) = future ∧
  TaskData_is_local (TaskData_new future l) = Locality_is_local l.
Proof. intros Hf Hl. split; [by apply tag_future_ptr | by apply tag_is_local]. Qed.

Lemma TaskData_roundtrip_witness :
  untagged 4096 ∧ TaskData_is_local (TaskData_new 4096 Locality_local) = true.
Proof.
  assert (untagged 4096) as H by (unfold untagged; lia).
  split; [exact H|].
  exact (proj2 (TaskData_roundtrip 4096 Locality_local H (or_introl eq_refl))).
Defined.

(** [set_locality] changes the locality of any task data and nothing else. *)
Theorem TaskData_set_locality_spec (d : TaskData) (l : Locality) :
  is_locality l →
  TaskData_future_ptr (TaskData_set_locality d l) = TaskData_future_ptr d ∧
  TaskData_is_local (TaskData_set_locality d l) = Locality_is_local l.
Proof.
  intros Hl. unfold TaskData_set_locality, TaskData_future_ptr, TaskData_is_local. simpl.
  rewrite lnot_IS_LOCAL_MASK.
  split; [by apply tag_future_ptr; auto with orengine | by apply tag_is_local; auto with orengine].
Qed.

(** ** Lemmas on the task lists *)
Lemma foldl_push_back {A} (l other : list A) : foldl push_back other l = other ++ l.
Proof.
  revert other. induction l as [|x l IH]; intros other; simpl.
  - by rewrite app_nil_r.
  - rewrite IH. unfold push_back. by rewrite <- app_assoc.
Qed.

Lemma take_batch_loop_drop guard n other i :
  (i + n = length guard)%nat →
  take_batch_loop guard i n other = Val (other ++ drop i guard).
Proof.
  revert i other. induction n as [|n IH]; intros i other Hi; simpl.
  - rewrite drop_ge, app_nil_r by lia. done.
  - destruct (lookup_lt_is_Some_2 guard i ltac:(lia)) as [t Ht].
    rewrite Ht. simpl. rewrite IH by lia. unfold push_back.
    rewrite <- app_assoc. by rewrite (drop_S guard t i Ht).
Qed.

(** [take_batch] moves the last [min len limit] tasks of an unlocked list to
    the end of [other_list] in order, and never reads past the list; on a
    locked list it moves nothing. *)
Lemma take_batch_moves (locked : bool) (l : ExecutorSharedTaskList)
    (other_list : list Task) (limit : nat) :
  ∃ kept taken,
    list_tasks l = kept ++ taken ∧
    take_batch locked l other_list limit =
      Val (mkExecutorSharedTaskList (list_executor_id l) kept, other_list ++ taken) ∧
    length taken = if locked then 0%nat else (length (list_tasks l) `min` limit)%nat.
Proof.
  unfold take_batch. destruct locked.
  - exists (list_tasks l), []. rewrite !app_nil_r. destruct l; naive_solver.
  - set (n := (length (list_tasks l) - length (list_tasks l) `min` limit)%nat).
    exists (take n (list_tasks l)), (drop n (list_tasks l)).
    rewrite take_drop, take_batch_loop_drop by lia.
    split_and!; [done | done | rewrite length_drop; lia].
Qed.

(** ** Lemmas on the task pool *)
Lemma fat_ptr_small addr vtable :
  0 ≤ addr < 2 ^ 64 → 0 ≤ vtable < 2 ^ 63 →
  fat_ptr addr vtable = addr + vtable * 2 ^ 64 ∧ untagged (fat_ptr addr vtable).
Proof.
  intros Ha Hv. unfold fat_ptr, i128_wrap, untagged.
  rewrite Z.shiftl_mul_pow2 by lia.
  rewrite Z.mod_small by lia.
  destruct (Z.ltb_spec (addr + vtable * 2 ^ 64) (2 ^ 127)); lia.
Qed.

Section task_pool_lemmas.
Context (size_of : Z → Z) (cfg_test : bool) (local_id flag : Z).

Abbreviation acquire := (TaskPool_acquire size_of cfg_test local_id).
Abbreviation put := (TaskPool_put size_of).

Lemma pool_bucket_put pool t :
  pool_bucket (put pool t) (size_of (task_vtable t)) =
  pool_bucket pool (size_of (task_vtable t)) ++ [t].
Proof.
  unfold TaskPool_put, pool_bucket.
  destruct (pool_storage pool !! _); simpl; by rewrite lookup_insert_eq.
Qed.

Lemma pool_bucket_put_ne pool t size :
  size ≠ size_of (task_vtable t) → pool_bucket (put pool t) size = pool_bucket pool size.
Proof.
  intros Hne. unfold TaskPool_put, pool_bucket.
  destruct (pool_storage pool !! size_of _); simpl; by rewrite lookup_insert_ne.
Qed.

(** With no pooled task of the future's size, [Task::from_future] allocates a
    task that has the requested locality, whose pointer leads to the future
    and whose vtable is the future's own. *)
Theorem TaskPool_acquire_fresh (fresh : Z) (pool : TaskPool) (heap : gmap Z Z)
    (future : Z) (l : Locality) :
  pool_bucket pool (size_of future) = [] →
  0 ≤ fresh < 2 ^ 64 → 0 ≤ future < 2 ^ 63 → is_locality l →
  ∃ t pool' heap',
    acquire fresh flag pool heap future l = (t, pool', heap') ∧
    Task_is_local t = Locality_is_local l ∧
    task_addr t = fresh ∧ task_vtable t = future ∧ heap' !! task_addr t = Some future.
Proof.
  intros Hpool Hfresh Hfut Hl. unfold TaskPool_acquire. rewrite Hpool. simpl.
  destruct (fat_ptr_small fresh future Hfresh Hfut) as [Heq Hun].
  eexists _, _, _. split; [done|].
  unfold Task_is_local, task_addr, task_vtable, Task_future_ptr.
  unfold TaskData_is_local, TaskData_future_ptr. simpl.
  pose proof (tag_future_ptr _ _ Hun Hl) as Hptr.
  pose proof (tag_is_local _ _ Hun Hl) as Hloc.
  rewrite Hptr, Hloc, Heq, Z.mod_add, Z.div_add, Z.mod_small, Z.div_small by lia.
  rewrite lookup_insert_eq. naive_solver.
Qed.

(** A released task is handed out again as it was: [acquire] writes the new
    future's bytes into the old task's allocation and leaves the old locality
    and the old vtable in place, whatever locality and future were asked for. *)
Theorem TaskPool_acquire_put (fresh : Z) (pool : TaskPool) (heap : gmap Z Z)
    (t : Task) (future : Z) (l : Locality) :
  size_of future = size_of (task_vtable t) →
  ∃ pool' heap',
    acquire fresh flag (put pool t) heap future l = (t, pool', heap') ∧
    heap' !! task_addr t = Some future ∧
    pool_bucket pool' (size_of future) = pool_bucket pool (size_of future).
Proof.
  intros Hsize. unfold TaskPool_acquire. rewrite Hsize, pool_bucket_put, pop_back_snoc.
  eexists _, _. split_and!; [done | by rewrite lookup_insert_eq |].
  unfold pool_bucket at 1. simpl. by rewrite lookup_insert_eq.
Qed.

End task_pool_lemmas.

(** Two future types of the same size: the pooled local task of type 4096 is
    reused for a shared future of type 8192. *)
Lemma TaskPool_acquire_put_witness :
  let t := mkTask (TaskData_new (fat_ptr 64 4096) Locality_local) 1 7 in
  let pool := TaskPool_put (λ _, 16) (mkTaskPool ∅) t in
  ∃ t' pool' heap',
    TaskPool_acquire (λ _, 16) false 1 128 9 pool ∅ 8192 Locality_shared = (t', pool', heap') ∧
    Task_is_local t' = true ∧ task_vtable t' = 4096 ∧ heap' !! task_addr t' = Some 8192.
Proof.
  intros t pool.
  destruct (TaskPool_acquire_put (λ _, 16) false 1 9 128 (mkTaskPool ∅) ∅ t 8192
    Locality_shared eq_refl) as (pool' & heap' & Hacq & Hheap & _).
  exists t, pool', heap'. split; [exact Hacq|].
  split; [vm_compute; reflexivity|]. split; [vm_compute; reflexivity|exact Hheap].
Defined.

(** Example tasks: a local and a shared one for each number. *)
Definition ex_task (n : Z) : Task :=
  mkTask (TaskData_new (fat_ptr (64 * n) 0) Locality_local) 1 n.
Definition ex_shared_task (n : Z) : Task :=
  mkTask (TaskData_new (fat_ptr (64 * n) 0) Locality_shared) 1 n.
