(* ===== verification/ChannelTypes.v ===== *)
(** * What the two channels share

    Models [src/src/sync/channels/]: [states.rs] (the states of a waiting
    future), [async_trait.rs] (result types and the provided methods of
    [AsyncReceiver]), [pools.rs] (the queues of waiting tasks and their
    pool), and the [Inner] structs of [local.rs] and [shared.rs], which have
    the same fields.

    A waiting future is an object in memory: the queues hold raw pointers to
    its [call_state] and to its value (a sender) or to its slot (a receiver).
    The model keeps these objects in finite maps from addresses, so that a
    write through a dangling pointer or a read of a moved-out value is
    [Undefined]. *)

From Stdlib Require Import ZArith Lia.
From S2P Require Import Prelude Task.

(** ** [states.rs] *)
Inductive SendCallState :=
| Send_FirstCall
| Send_WokenToReturnReady
| Send_WokenByClose.

Inductive RecvCallState :=
| Recv_FirstCall
| Recv_WokenToReturnReady
| Recv_WokenByClose.

(** ** Results, from [async_trait.rs] *)
Inductive SendResult (T : Type) := Send_Ok | Send_Closed (v : T).
Arguments Send_Ok {T}.
Arguments Send_Closed {T} v.

Inductive TrySendResult (T : Type) :=
| TrySend_Ok
| TrySend_Full (v : T)
| TrySend_Locked (v : T)
| TrySend_Closed (v : T).
Arguments TrySend_Ok {T}.
Arguments TrySend_Full {T} v.
Arguments TrySend_Locked {T} v.
Arguments TrySend_Closed {T} v.

Inductive RecvInResult := RecvIn_Ok | RecvIn_Closed.

Inductive TryRecvInResult :=
| TryRecvIn_Ok
| TryRecvIn_Empty
| TryRecvIn_Locked
| TryRecvIn_Closed.

Inductive RecvResult (T : Type) := Recv_Ok (v : T) | Recv_Closed.
Arguments Recv_Ok {T} v.
Arguments Recv_Closed {T}.

Inductive TryRecvResult (T : Type) :=
| TryRecv_Ok (v : T)
| TryRecv_Empty
| TryRecv_Locked
| TryRecv_Closed.
Arguments TryRecv_Ok {T} v.
Arguments TryRecv_Empty {T}.
Arguments TryRecv_Locked {T}.
Arguments TryRecv_Closed {T}.

(** The [unwrap] methods of the results. *)
Definition SendResult_unwrap {T} (r : SendResult T) : outcome () :=
  match r with Send_Closed _ => Panicked | Send_Ok => Val () end.

Definition TrySendResult_unwrap {T} (r : TrySendResult T) : outcome () :=
  match r with TrySend_Ok => Val () | _ => Panicked end.

Definition RecvInResult_unwrap (r : RecvInResult) : outcome () :=
  match r with RecvIn_Closed => Panicked | RecvIn_Ok => Val () end.

Definition TryRecvInResult_unwrap (r : TryRecvInResult) : outcome () :=
  match r with TryRecvIn_Ok => Val () | _ => Panicked end.

Definition RecvResult_unwrap {T} (r : RecvResult T) : outcome T :=
  match r with Recv_Ok v => Val v | Recv_Closed => Panicked end.

Definition TryRecvResult_unwrap {T} (r : TryRecvResult T) : outcome T :=
  match r with TryRecv_Ok v => Val v | _ => Panicked end.

(** ** Memory *)
Abbreviation loc := positive.

Section channel_types.
Context {T : Type}.

(** The sending future: [ws_value] is [None] once the value was moved out. *)
Record WaitSend := mkWaitSend {
  ws_call_state : SendCallState;
  ws_value : option T;
}.

(** The receiving future. *)
Record WaitRecv := mkWaitRecv {
  wr_call_state : RecvCallState;
  wr_slot : loc;
}.

(** [slots]: live slots, [None] while uninitialised. *)
Record Mem := mkMem {
  sends : gmap loc WaitSend;
  recvs : gmap loc WaitRecv;
  slots : gmap loc (option T);
}.

Definition set_sends (f : gmap loc WaitSend → gmap loc WaitSend) (m : Mem) : Mem :=
  mkMem (f (sends m)) (recvs m) (slots m).
Definition set_recvs (f : gmap loc WaitRecv → gmap loc WaitRecv) (m : Mem) : Mem :=
  mkMem (sends m) (f (recvs m)) (slots m).
Definition set_slots (f : gmap loc (option T) → gmap loc (option T)) (m : Mem) : Mem :=
  mkMem (sends m) (recvs m) (f (slots m)).

(** [call_state.write(_)] through a pointer from a queue. *)
Definition write_send_state (m : Mem) (p : loc) (s : SendCallState) : outcome Mem :=
  f ← unchecked (sends m !! p);
  Val (set_sends <[p := mkWaitSend s (ws_value f)]> m).

Definition write_recv_state (m : Mem) (p : loc) (s : RecvCallState) : outcome Mem :=
  f ← unchecked (recvs m !! p);
  Val (set_recvs <[p := mkWaitRecv s (wr_slot f)]> m).

(** [ManuallyDrop::take(&mut this.value)], [ptr::read(value)]: moves the
    value out of a sending future. *)
Definition take_value (m : Mem) (p : loc) : outcome (T * Mem) :=
  f ← unchecked (sends m !! p);
  v ← unchecked (ws_value f);
  Val (v, set_sends <[p := mkWaitSend (ws_call_state f) None]> m).

(** [slot.write(value)]. *)
Definition write_slot (m : Mem) (slot : loc) (v : T) : outcome Mem :=
  _ ← unchecked (slots m !! slot);
  Val (set_slots <[slot := Some v]> m).

(** [MaybeUninit::assume_init] on a slot. *)
Definition take_slot (m : Mem) (slot : loc) : outcome (T * Mem) :=
  o ← unchecked (slots m !! slot);
  v ← unchecked o;
  Val (v, set_slots <[slot := None]> m).

(** [ptr::drop_in_place(slot)]: the slot holds no value any more. *)
Definition drop_slot (m : Mem) (slot : loc) : outcome Mem :=
  '(_, m') ← take_slot m slot; Val m'.

(** ** [pools.rs] and [Inner] *)

(** A waiting sender: its task, the address of its call state, the address
    of its value. *)
Definition SendEntry : Type := Task * loc * loc.
(** A waiting receiver: its task, the address of its call state, its slot. *)
Definition RecvEntry : Type := Task * loc * loc.

Record Deques := mkDeques { senders : list SendEntry; receivers : list RecvEntry }.

Definition Deques_new : Deques := mkDeques [] [].

(** The pool keeps unused queues by the size of the channel's values. *)
Record ChannelInnerVecDequePool := mkDequePool { dp_storage : gmap Z (list Deques) }.

Definition DequePool_get (size_of_T : Z) (pool : ChannelInnerVecDequePool)
    : Deques * ChannelInnerVecDequePool :=
  let l := default [] (dp_storage pool !! size_of_T) in
  match pop_back l with
  | Some (d, l') => (d, mkDequePool (<[size_of_T := l']> (dp_storage pool)))
  | None => (Deques_new, mkDequePool (<[size_of_T := l]> (dp_storage pool)))
  end.

Definition DequePool_put (size_of_T : Z) (pool : ChannelInnerVecDequePool) (d : Deques)
    : ChannelInnerVecDequePool :=
  let l := default [] (dp_storage pool !! size_of_T) in
  mkDequePool (<[size_of_T := push_back l d]> (dp_storage pool)).

Record Inner := mkInner {
  storage : list T;
  is_closed : bool;
  capacity : Z;
  deques : Deques;
}.

Definition set_storage (l : list T) (i : Inner) : Inner :=
  mkInner l (is_closed i) (capacity i) (deques i).
Definition set_is_closed (b : bool) (i : Inner) : Inner :=
  mkInner (storage i) b (capacity i) (deques i).
Definition set_senders (l : list SendEntry) (i : Inner) : Inner :=
  mkInner (storage i) (is_closed i) (capacity i) (mkDeques l (receivers (deques i))).
Definition set_receivers (l : list RecvEntry) (i : Inner) : Inner :=
  mkInner (storage i) (is_closed i) (capacity i) (mkDeques (senders (deques i)) l).

(** The channel, the memory it points into, and the tasks its operations
    have handed to the executor so far, oldest first. *)
Record Chan := mkChan {
  inner : Inner;
  mem : Mem;
  woken : list Task;
}.

Definition set_inner (f : Inner → Inner) (c : Chan) : Chan :=
  mkChan (f (inner c)) (mem c) (woken c).
Definition set_mem (m : Mem) (c : Chan) : Chan := mkChan (inner c) m (woken c).

(** [local_executor().exec_task(task)], or [spawn_shared_task(task)]. *)
Definition wake (t : Task) (c : Chan) : Chan :=
  mkChan (inner c) (mem c) (woken c ++ [t]).

Definition chan_senders (c : Chan) : list SendEntry := senders (deques (inner c)).
Definition chan_receivers (c : Chan) : list RecvEntry := receivers (deques (inner c)).

(** ** The provided methods of [AsyncReceiver] *)

(** The continuation of [recv] after its [recv_in_ptr] future is ready. *)
Definition recv_finish (r : RecvInResult) (m : Mem) (slot : loc)
    : outcome (RecvResult T * Mem) :=
  match r with
  | RecvIn_Ok => '(v, m') ← take_slot m slot; Val (Recv_Ok v, m')
  | RecvIn_Closed => Val (Recv_Closed, m)
  end.

(** The end of [try_recv], after [try_recv_in_ptr] returned. *)
Definition try_recv_finish (r : TryRecvInResult) (m : Mem) (slot : loc)
    : outcome (TryRecvResult T * Mem) :=
  match r with
  | TryRecvIn_Ok => '(v, m') ← take_slot m slot; Val (TryRecv_Ok v, m')
  | TryRecvIn_Empty => Val (TryRecv_Empty, m)
  | TryRecvIn_Locked => Val (TryRecv_Locked, m)
  | TryRecvIn_Closed => Val (TryRecv_Closed, m)
  end.

End channel_types.

Arguments WaitSend : clear implicits.
Arguments Mem : clear implicits.
Arguments Inner : clear implicits.
Arguments Chan : clear implicits.

Global Instance SendCallState_eq_dec : EqDecision SendCallState.
Proof. solve_decision. Defined.
Global Instance RecvCallState_eq_dec : EqDecision RecvCallState.
Proof. solve_decision. Defined.
Global Instance WaitSend_eq_dec `{EqDecision T} : EqDecision (WaitSend T).
Proof. solve_decision. Defined.
Global Instance WaitRecv_eq_dec : EqDecision WaitRecv.
Proof. solve_decision. Defined.
