(* ===== verification/FlagLock.v ===== *)
(** * Locks made of one atomic flag

    Models [SpinLock] ([src/src/utils/spin_lock.rs]), [NeverWaitLock]
    ([src/src/utils/never_wait_lock.rs]) and [NaiveMutex]
    ([src/src/sync/mutexes/naive_shared.rs]). They differ in what a thread does
    after a failed attempt: a [SpinLock] tries again for ever, a
    [NaiveMutex] yields its task after seven attempts, a [NeverWaitLock] has
    only [try_lock].

    [FlagLock] is the interface that the users of these locks rely on; the
    critical sections of the other files are atomic steps because of
    [flag_lock_atomic]. *)

From Stdlib Require Import ZArith Lia.
From S2P Require Import Prelude.

(** ** The interface *)
Class FlagLock (L : Type) (V : Type) := {
  fl_new : V → L;
  fl_locked : L → bool;
  fl_value : L → V;
  fl_write : L → V → L;
  (** [compare_exchange_weak] may fail although the flag is down: the first
      argument says that it does. *)
  fl_try_lock : bool → L → L * option ();
  fl_unlock : profile → L → outcome L;
  (** The number of the next attempt after a failed one; [None]: the task
      yields to the executor and starts anew. *)
  fl_next : nat → option nat;
}.

Class FlagLockLaws (L : Type) (V : Type) `{FlagLock L V} := {
  fl_new_locked v : fl_locked (fl_new v) = false;
  fl_new_value v : fl_value (fl_new v) = v;
  fl_write_locked l v : fl_locked (fl_write l v) = fl_locked l;
  fl_write_value l v : fl_value (fl_write l v) = v;
  fl_try_lock_fail weak l :
    fl_locked l || weak = true → fl_try_lock weak l = (l, None);
  fl_try_lock_ok l : fl_locked l = false →
    ∃ l', fl_try_lock false l = (l', Some ()) ∧ fl_locked l' = true ∧ fl_value l' = fl_value l;
  fl_unlock_ok p l : fl_locked l = true →
    ∃ l', fl_unlock p l = Val l' ∧ fl_locked l' = false ∧ fl_value l' = fl_value l;
}.

(** ** [SpinLock] *)
Record SpinLock (V : Type) := mkSpinLock { sl_is_locked : bool; sl_value : V }.
Arguments mkSpinLock {V} _ _.
Arguments sl_is_locked {V} _.
Arguments sl_value {V} _.

Definition SpinLock_new {V} (value : V) : SpinLock V := mkSpinLock false value.

Definition SpinLock_try_lock {V} (weak : bool) (l : SpinLock V) : SpinLock V * option () :=
  if sl_is_locked l || weak then (l, None) else (mkSpinLock true (sl_value l), Some ()).

Definition SpinLock_unlock {V} (p : profile) (l : SpinLock V) : outcome (SpinLock V) :=
  debug_assert p (sl_is_locked l);; Val (mkSpinLock false (sl_value l)).

Definition SpinLock_get_locked {V} (p : profile) (l : SpinLock V) : outcome V :=
  debug_assert p (sl_is_locked l);; Val (sl_value l).

(** The guard's [deref_mut]. *)
Definition SpinLock_write {V} (l : SpinLock V) (v : V) : SpinLock V :=
  mkSpinLock (sl_is_locked l) v.

(** [lock] loops until an attempt succeeds. *)
Definition SpinLock_next (attempt : nat) : option nat := Some (S attempt).

Global Instance SpinLock_FlagLock V : FlagLock (SpinLock V) V := {|
  fl_new := SpinLock_new; fl_locked := sl_is_locked; fl_value := sl_value;
  fl_write := SpinLock_write; fl_try_lock := SpinLock_try_lock;
  fl_unlock := SpinLock_unlock; fl_next := SpinLock_next |}.

Global Instance SpinLock_laws V : FlagLockLaws (SpinLock V) V.
Proof.
  split; try done.
  - intros weak l Hl. simpl. unfold SpinLock_try_lock. simpl in Hl. by rewrite Hl.
  - intros l Hl. simpl in *. unfold SpinLock_try_lock. rewrite Hl. simpl. by eexists.
  - intros p l Hl. simpl in *. unfold SpinLock_unlock. rewrite Hl, debug_assert_true.
    simpl. by eexists.
Qed.

(** ** [NeverWaitLock] *)
Record NeverWaitLock (V : Type) := mkNeverWaitLock { nw_inner : SpinLock V }.
Arguments mkNeverWaitLock {V} _.
Arguments nw_inner {V} _.

Definition NeverWaitLock_new {V} (value : V) : NeverWaitLock V :=
  mkNeverWaitLock (SpinLock_new value).

Definition NeverWaitLock_try_lock {V} (weak : bool) (l : NeverWaitLock V)
    : NeverWaitLock V * option () :=
  let '(l', r) := SpinLock_try_lock weak (nw_inner l) in (mkNeverWaitLock l', r).

(** ** [NaiveMutex] *)
Record NaiveMutex (V : Type) := mkNaiveMutex { nm_is_locked : bool; nm_value : V }.
Arguments mkNaiveMutex {V} _ _.
Arguments nm_is_locked {V} _.
Arguments nm_value {V} _.

Definition NaiveMutex_new {V} (value : V) : NaiveMutex V := mkNaiveMutex false value.

Definition NaiveMutex_try_lock {V} (weak : bool) (m : NaiveMutex V) : NaiveMutex V * option () :=
  if nm_is_locked m || weak then (m, None) else (mkNaiveMutex true (nm_value m), Some ()).

Definition NaiveMutex_unlock {V} (p : profile) (m : NaiveMutex V) : outcome (NaiveMutex V) :=
  debug_assert p (nm_is_locked m);; Val (mkNaiveMutex false (nm_value m)).

Definition NaiveMutex_get_locked {V} (p : profile) (m : NaiveMutex V) : outcome () :=
  debug_assert p (nm_is_locked m).

Definition NaiveMutex_write {V} (m : NaiveMutex V) (v : V) : NaiveMutex V :=
  mkNaiveMutex (nm_is_locked m) v.

(** [for step in 0..=6] of [lock], then [yield_now]. *)
Definition NaiveMutex_next (step : nat) : option nat :=
  if (step <? 6)%nat then Some (S step) else None.

Global Instance NaiveMutex_FlagLock V : FlagLock (NaiveMutex V) V := {|
  fl_new := NaiveMutex_new; fl_locked := nm_is_locked; fl_value := nm_value;
  fl_write := NaiveMutex_write; fl_try_lock := NaiveMutex_try_lock;
  fl_unlock := NaiveMutex_unlock; fl_next := NaiveMutex_next |}.

Global Instance NaiveMutex_laws V : FlagLockLaws (NaiveMutex V) V.
Proof.
  split; try done.
  - intros weak l Hl. simpl. unfold NaiveMutex_try_lock. simpl in Hl. by rewrite Hl.
  - intros l Hl. simpl in *. unfold NaiveMutex_try_lock. rewrite Hl. simpl. by eexists.
  - intros p l Hl. simpl in *. unfold NaiveMutex_unlock. rewrite Hl, debug_assert_true.
    simpl. by eexists.
Qed.

(** ** Threads that use a flag lock

    Each thread runs critical sections [f]: it locks, reads the value, writes
    [f] of what it read, and unlocks. Every access is a step of its own. *)
Section flag_lock.
Context {L V : Type} `{FlagLockLaws L V}.

Inductive Pc :=
| Trying (f : V → V) (attempt : nat)
| Yielded (f : V → V)
| Locked (f : V → V)
| HasRead (f : V → V) (v : V)
| HasWritten.

Record Sys := mkSys {
  lock : L;
  threads : gmap positive Pc;
  sections : list (V → V);   (** the critical sections done, oldest first *)
}.

Definition init (v : V) : Sys := mkSys (fl_new v) ∅ [].

Inductive step (p : profile) : Sys → Sys → Prop :=
| step_start s t f :
    threads s !! t = None →
    step p s (mkSys (lock s) (<[t := Trying f 0]> (threads s)) (sections s))
| step_attempt s t f n weak l' r :
    threads s !! t = Some (Trying f n) →
    fl_try_lock weak (lock s) = (l', r) →
    step p s (mkSys l'
      (<[t := match r with
              | Some _ => Locked f
              | None => match fl_next n with Some n' => Trying f n' | None => Yielded f end
              end]> (threads s)) (sections s))
| step_resume s t f :
    threads s !! t = Some (Yielded f) →
    step p s (mkSys (lock s) (<[t := Trying f 0]> (threads s)) (sections s))
| step_read s t f :
    threads s !! t = Some (Locked f) →
    step p s (mkSys (lock s) (<[t := HasRead f (fl_value (lock s))]> (threads s)) (sections s))
| step_write s t f v :
    threads s !! t = Some (HasRead f v) →
    step p s (mkSys (fl_write (lock s) (f v)) (<[t := HasWritten]> (threads s))
                (sections s ++ [f]))
| step_unlock s t l' :
    threads s !! t = Some HasWritten →
    fl_unlock p (lock s) = Val l' →
    step p s (mkSys l' (delete t (threads s)) (sections s)).

Definition in_section (pc : Pc) : bool :=
  match pc with Locked _ | HasRead _ _ | HasWritten => true | _ => false end.

(** A thread in its section has the lock to itself, and what it read is
    still the value. *)
Record Inv (v0 : V) (s : Sys) : Prop := {
  inv_locked t pc : threads s !! t = Some pc → in_section pc = true → fl_locked (lock s) = true;
  inv_one t1 t2 pc1 pc2 :
    threads s !! t1 = Some pc1 → threads s !! t2 = Some pc2 →
    in_section pc1 = true → in_section pc2 = true → t1 = t2;
  inv_read t f v : threads s !! t = Some (HasRead f v) → fl_value (lock s) = v;
  inv_value : fl_value (lock s) = foldl (λ v f, f v) v0 (sections s);
}.

Lemma fl_inv_init v : Inv v (init v).
Proof. split; simpl; try done. by rewrite fl_new_value. Qed.

(** A thread that is not in its section, or leaves it, may move freely. *)
Lemma inv_outside v s t pc :
  Inv v s → in_section pc = false →
  Inv v (mkSys (lock s) (<[t := pc]> (threads s)) (sections s)).
Proof.
  intros [Hl Ho Hr Hv] Hpc. split; simpl; [| | |done].
  - intros t' pc' [[-> <-]|[_ Ht]]%lookup_insert_Some; [congruence|]. by eapply Hl.
  - intros t1 t2 pc1 pc2 [[-> <-]|[_ H1]]%lookup_insert_Some
      [[-> <-]|[_ H2]]%lookup_insert_Some; try congruence. by eapply Ho.
  - intros t' f w [[-> ->]|[_ Ht]]%lookup_insert_Some; [done|]. by eapply Hr.
Qed.

(** A thread in its section moves within it; the others are outside. *)
Lemma inv_inside v s t pc pc' l' secs :
  Inv v s → threads s !! t = Some pc → in_section pc = true →
  fl_locked l' = fl_locked (lock s) →
  (∀ f w, pc' = HasRead f w → fl_value l' = w) →
  fl_value l' = foldl (λ v f, f v) v secs →
  Inv v (mkSys l' (<[t := pc']> (threads s)) secs).
Proof.
  intros [Hl Ho Hr Hv] Ht Hpc Hlock Hread Hval. split; simpl; [| | |done].
  - intros t' pc2 _ _. rewrite Hlock. by apply (Hl t pc).
  - intros t1 t2 pc1 pc2 [[<- <-]|[_ H1]]%lookup_insert_Some
      [[<- <-]|[_ H2]]%lookup_insert_Some P1 P2; eauto.
  - intros t' f w [[<- ->]|[Hne Ht']]%lookup_insert_Some; [by eapply Hread|].
    exfalso. by eapply Hne, (Ho t t').
Qed.

Lemma fl_inv_step p v s s' : Inv v s → step p s s' → Inv v s'.
Proof.
  intros HI Hs. destruct Hs as [s t f Ht|s t f n weak l' r Ht Hl|s t f Ht|s t f Ht
    |s t f w Ht|s t l' Ht Hu].
  - by apply inv_outside.
  - destruct (fl_locked (lock s) || weak) eqn:Hw.
    + rewrite fl_try_lock_fail in Hl by done. simplify_eq.
      apply inv_outside; [done|]. by destruct (fl_next n).
    + apply orb_false_iff in Hw as [Hf ->].
      destruct (fl_try_lock_ok _ Hf) as (l2 & Hl2 & Hl2l & Hl2v).
      rewrite Hl in Hl2. simplify_eq. destruct HI as [Hk Ho Hr Hv].
      split; simpl; [done| | |by rewrite Hl2v].
      * intros t1 t2 pc1 pc2 [[<- <-]|[_ H1]]%lookup_insert_Some
          [[<- <-]|[_ H2]]%lookup_insert_Some P1 P2; [done| | |by eapply Ho];
          exfalso; [eapply Hk in H2|eapply Hk in H1]; congruence.
      * intros t' g w [[? ?]|[_ Ht']]%lookup_insert_Some; [done|]. rewrite Hl2v. by eapply Hr.
  - by apply inv_outside.
  - eapply inv_inside; try done; [by intros g w [= _ <-]|]. apply (inv_value _ _ HI).
  - eapply inv_inside; try done.
    + by rewrite fl_write_locked.
    + rewrite fl_write_value, foldl_app. simpl. f_equal.
      rewrite <-(inv_value _ _ HI). symmetry. by eapply inv_read.
  - destruct HI as [Hk Ho Hr Hv].
    destruct (fl_unlock_ok p (lock s)) as (l2 & Hl2 & Hl2l & Hl2v); [by eapply Hk|].
    rewrite Hu in Hl2. simplify_eq.
    assert (∀ t' pc, delete t (threads s) !! t' = Some pc → in_section pc = false) as Hout.
    { intros t' pc [Hne Ht']%lookup_delete_Some. destruct (in_section pc) eqn:Hpc; [|done].
      exfalso. by eapply Hne, (Ho t t'). }
    split; simpl.
    + intros t' pc Ht' Hpc. apply Hout in Ht'. congruence.
    + intros t1 t2 pc1 pc2 H1 _ P1. apply Hout in H1. congruence.
    + intros t' f w Ht'. by apply Hout in Ht'.
    + by rewrite Hl2v.
Qed.

Lemma fl_inv_reachable p v s : rtc (step p) (init v) s → Inv v s.
Proof.
  apply (rtc_invariant (step p) (Inv v)); [|apply fl_inv_init]. intros. by eapply fl_inv_step.
Qed.

(** Any lock that keeps the interface excludes: at most one thread is in its
    section, it can unlock, and the value is what the sections done so far
    give one after the other, as if each had been one step. *)
Lemma flag_lock_atomic p v s :
  rtc (step p) (init v) s →
  (∀ t1 t2 pc1 pc2, threads s !! t1 = Some pc1 → threads s !! t2 = Some pc2 →
    in_section pc1 = true → in_section pc2 = true → t1 = t2) ∧
  (∀ t pc, threads s !! t = Some pc → in_section pc = true →
    ∃ l', fl_unlock p (lock s) = Val l') ∧
  fl_value (lock s) = foldl (λ v f, f v) v (sections s).
Proof.
  intros Hr. apply fl_inv_reachable in Hr as [Hk Ho _ Hv]. split_and!; [done| |done].
  intros t pc Ht Hpc. destruct (fl_unlock_ok p (lock s)) as (l' & Hl' & _); [by eapply Hk|].
  by exists l'.
Qed.

End flag_lock.

Arguments Sys : clear implicits.
Arguments Pc : clear implicits.

(** ** Theorems *)

(** [NaiveMutex] excludes and makes critical sections atomic, in every
    interleaving of the single accesses to the flag and to the value, with
    spuriously failing exchanges, retries and yields. *)
Theorem naive_mutex_atomic {V} (p : profile) (v : V) (s : Sys (NaiveMutex V) V) :
  rtc (step p) (init v) s →
  (∀ t1 t2 pc1 pc2, threads s !! t1 = Some pc1 → threads s !! t2 = Some pc2 →
    in_section pc1 = true → in_section pc2 = true → t1 = t2) ∧
  (∀ t pc, threads s !! t = Some pc → in_section pc = true →
    ∃ m', NaiveMutex_unlock p (lock s) = Val m') ∧
  nm_value (lock s) = foldl (λ v f, f v) v (sections s).
Proof. intros Hr. exact (flag_lock_atomic (L:=NaiveMutex V) (V:=V) p v s Hr). Qed.

(** [SpinLock] excludes and makes critical sections atomic in the same way. *)
Theorem spin_lock_atomic {V} (p : profile) (v : V) (s : Sys (SpinLock V) V) :
  rtc (step p) (init v) s →
  (∀ t1 t2 pc1 pc2, threads s !! t1 = Some pc1 → threads s !! t2 = Some pc2 →
    in_section pc1 = true → in_section pc2 = true → t1 = t2) ∧
  (∀ t pc, threads s !! t = Some pc → in_section pc = true →
    ∃ l', SpinLock_unlock p (lock s) = Val l') ∧
  sl_value (lock s) = foldl (λ v f, f v) v (sections s).
Proof. intros Hr. exact (flag_lock_atomic (L:=SpinLock V) (V:=V) p v s Hr). Qed.

(** ** Witnesses: one thread is in its section while another one tries. *)
Lemma naive_mutex_atomic_witness :
  ∃ s : Sys (NaiveMutex Z) Z, rtc (step Debug) (init 0%Z) s ∧
    threads s !! 1%positive = Some HasWritten ∧ nm_value (lock s) = 1%Z ∧
    ∃ m', NaiveMutex_unlock Debug (lock s) = Val m'.
Proof.
  assert (∃ s : Sys (NaiveMutex Z) Z, rtc (step Debug) (init 0%Z) s ∧
    threads s !! 1%positive = Some HasWritten ∧ sections s = [Z.succ]) as (s & Hr & Ht & Hs).
  { eexists. split.
    - eapply rtc_l; [by apply (step_start _ _ 1%positive Z.succ)|].
      eapply rtc_l; [by apply (step_start _ _ 2%positive Z.succ)|].
      eapply rtc_l; [by apply (step_attempt _ _ 1%positive Z.succ 0 false)|].
      eapply rtc_l; [by apply (step_attempt _ _ 2%positive Z.succ 0 false)|].
      eapply rtc_l; [by apply (step_read _ _ 1%positive Z.succ)|].
      eapply rtc_l; [by apply (step_write _ _ 1%positive Z.succ 0%Z)|].
      apply rtc_refl.
    - split; [vm_compute; reflexivity|reflexivity]. }
  exists s. destruct (naive_mutex_atomic Debug 0%Z s Hr) as (_ & Hu & Hv).
  split; [exact Hr|]. split; [exact Ht|]. split; [rewrite Hv, Hs; reflexivity|].
  exact (Hu 1%positive HasWritten Ht eq_refl).
Defined.

Lemma spin_lock_atomic_witness :
  ∃ s : Sys (SpinLock Z) Z, rtc (step Release) (init 5%Z) s ∧
    threads s !! 1%positive = Some (Locked Z.pred) ∧ sl_value (lock s) = 5%Z.
Proof.
  assert (∃ s : Sys (SpinLock Z) Z, rtc (step Release) (init 5%Z) s ∧
    threads s !! 1%positive = Some (Locked Z.pred) ∧ sections s = []) as (s & Hr & Ht & Hs).
  { eexists. split.
    - eapply rtc_l; [by apply (step_start _ _ 1%positive Z.pred)|].
      eapply rtc_l; [by apply (step_attempt _ _ 1%positive Z.pred 0 true)|].
      eapply rtc_l; [by apply (step_attempt _ _ 1%positive Z.pred 1 false)|].
      apply rtc_refl.
    - split; [vm_compute; reflexivity|reflexivity]. }
  exists s. destruct (spin_lock_atomic Release 5%Z s Hr) as (_ & _ & Hv).
  split; [exact Hr|]. split; [exact Ht|]. rewrite Hv, Hs. reflexivity.
Defined.
