(* ===== verification/LocalMutex.v ===== *)
(** * The local mutex

    Models [src/src/sync/mutexes/local.rs] and the subscription future of
    [subscribable_trait.rs]. A mutex that is unlocked while tasks wait stays
    locked: [unlock] hands it to the task it wakes. *)

From Stdlib Require Import ZArith Lia.
From S2P Require Import Prelude Task.

Record LocalMutex := mkLocalMutex {
  is_locked : bool;
  wait_queue : list Task;
}.

Definition LocalMutex_new : LocalMutex := mkLocalMutex false [].

(** [lock] up to its [await]: [true] when it returns a guard at once. *)
Definition LocalMutex_lock (m : LocalMutex) : LocalMutex * bool :=
  if negb (is_locked m) then (mkLocalMutex true (wait_queue m), true) else (m, false).

(** [LocalMutexWait::poll]; the flag is [was_called], [Ready] carries the guard. *)
Definition LocalMutexWait_poll (cx : Task) (was_called : bool) (m : LocalMutex)
    : LocalMutex * bool * Poll () :=
  if negb was_called then
    (mkLocalMutex (is_locked m) (push_back (wait_queue m) cx), true, Pending)
  else (m, was_called, Ready ()).

Definition LocalMutex_try_lock (m : LocalMutex) : LocalMutex * option () :=
  if negb (is_locked m) then (mkLocalMutex true (wait_queue m), Some ()) else (m, None).

(** [unlock]: the task it hands to the executor, if any. Its last action is
    [exec_task], so it is one step of the mutex even if that task runs at
    once. *)
Definition LocalMutex_unlock (p : profile) (m : LocalMutex)
    : outcome (LocalMutex * option Task) :=
  debug_assert p (is_locked m);;
  match pop_back (wait_queue m) with
  | Some (next, q) => Val (mkLocalMutex (is_locked m) q, Some next)
  | None => Val (mkLocalMutex false (wait_queue m), None)
  end.

Definition LocalMutex_get_locked (p : profile) (m : LocalMutex) : outcome () :=
  debug_assert p (is_locked m).

Definition LocalMutex_low_level_subscribe (cx : Task) (m : LocalMutex) : LocalMutex :=
  mkLocalMutex (is_locked m) (push_back (wait_queue m) cx).

(** [WaitLockOfSubscribableMutex::poll]. *)
Definition WaitLockOfSubscribableMutex_poll (p : profile) (cx : Task) (was_called : bool)
    (m : LocalMutex) : outcome (LocalMutex * bool * Poll ()) :=
  if negb was_called then Val (LocalMutex_low_level_subscribe cx m, true, Pending)
  else LocalMutex_get_locked p m;; Val (m, was_called, Ready ()).

(** ** The mutex and its users

    [guards] are the guards alive; [woken] the tasks that [unlock] handed to
    the executor and that have not been polled yet. A task that waits by
    [lock] and one that waits by [subscribe] look the same to the mutex. *)
Record Sys := mkSys { mutex : LocalMutex; guards : nat; woken : list Task }.

Definition init : Sys := mkSys LocalMutex_new 0 [].

Inductive step (p : profile) : Sys → Sys → Prop :=
| step_lock s m' :
    LocalMutex_lock (mutex s) = (m', true) →
    step p s (mkSys m' (S (guards s)) (woken s))
| step_lock_wait s t m1 m2 b :
    LocalMutex_lock (mutex s) = (m1, false) →
    LocalMutexWait_poll t false m1 = (m2, b, Pending) →
    step p s (mkSys m2 (guards s) (woken s))
| step_subscribe s t m' b :
    is_locked (mutex s) = true →
    WaitLockOfSubscribableMutex_poll p t false (mutex s) = Val (m', b, Pending) →
    step p s (mkSys m' (guards s) (woken s))
| step_woken s t l1 l2 m' b :
    woken s = l1 ++ t :: l2 →
    LocalMutexWait_poll t true (mutex s) = (m', b, Ready ()) →
    step p s (mkSys m' (S (guards s)) (l1 ++ l2))
| step_woken_subscriber s t l1 l2 m' b :
    woken s = l1 ++ t :: l2 →
    WaitLockOfSubscribableMutex_poll p t true (mutex s) = Val (m', b, Ready ()) →
    step p s (mkSys m' (S (guards s)) (l1 ++ l2))
| step_try_lock s m' r :
    LocalMutex_try_lock (mutex s) = (m', r) →
    step p s (mkSys m' (match r with Some _ => S (guards s) | None => guards s end) (woken s))
| step_unlock s n m' r :
    guards s = S n →
    LocalMutex_unlock p (mutex s) = Val (m', r) →
    step p s (mkSys m' n (woken s ++ option_list r)).

(** One owner of a locked mutex, a guard or a woken task, none of an unlocked
    one; tasks wait only for a locked mutex. *)
Record Inv (s : Sys) : Prop := {
  inv_owner : guards s + length (woken s) = if is_locked (mutex s) then 1 else 0;
  inv_waiters : wait_queue (mutex s) ≠ [] → is_locked (mutex s) = true;
}.

Lemma lm_inv_init : Inv init.
Proof. by split. Qed.

Lemma lm_inv_step p s s' : Inv s → step p s s' → Inv s'.
Proof.
  intros [Ho Hw] Hs.
  destruct Hs as [s m' Hl|s t m1 m2 b Hl Hp|s t m' b Hk Hp|s t l1 l2 m' b Ht Hp
    |s t l1 l2 m' b Ht Hp|s m' r Hl|s n m' r Hg Hu].
  - unfold LocalMutex_lock in Hl. destruct (is_locked (mutex s)); simplify_eq/=.
    split; simpl; [lia|done].
  - unfold LocalMutex_lock in Hl. destruct (is_locked (mutex s)) eqn:Hk; simplify_eq/=.
    unfold LocalMutexWait_poll in Hp. simplify_eq/=. split; simpl; rewrite Hk; done.
  - unfold WaitLockOfSubscribableMutex_poll in Hp. simplify_eq/=. rewrite Hk in Ho. split; simpl; by rewrite Hk.
  - unfold LocalMutexWait_poll in Hp. simplify_eq/=. rewrite Ht, length_app in Ho. simpl in Ho.
    split; simpl; [rewrite length_app; destruct (is_locked (mutex s)); lia|done].
  - unfold WaitLockOfSubscribableMutex_poll in Hp. simpl in Hp. outcome_inv. rewrite Ht, length_app in Ho. simpl in Ho.
    split; simpl; [rewrite length_app; destruct (is_locked (mutex s)); lia|done].
  - unfold LocalMutex_try_lock in Hl.
    destruct (is_locked (mutex s)) eqn:Hk; simplify_eq/=; split; simpl; rewrite ?Hk; done || lia.
  - unfold LocalMutex_unlock in Hu. outcome_inv.
    assert (is_locked (mutex s) = true) as Hk by (destruct (is_locked (mutex s)); [done|lia]).
    rewrite Hk in *. destruct (pop_back _) as [[t q]|] eqn:Hq; simplify_eq.
    + split; simpl; [|done]. rewrite length_app. simpl. lia.
    + apply pop_back_None in Hq. split; simpl; [|by rewrite Hq]. rewrite app_nil_r. lia.
Qed.

Lemma lm_inv_reachable p s : rtc (step p) init s → Inv s.
Proof. apply (rtc_invariant (step p) Inv); [|apply lm_inv_init]. intros. by eapply lm_inv_step. Qed.

(** The unlocking that follows when each woken task unlocks in turn. *)
Fixpoint unlock_all (p : profile) (fuel : nat) (m : LocalMutex)
    : outcome (LocalMutex * list Task) :=
  match fuel with
  | O => Val (m, [])
  | S fuel =>
      '(m, r) ← LocalMutex_unlock p m;
      match r with
      | Some t => '(m, l) ← unlock_all p fuel m; Val (m, t :: l)
      | None => Val (m, [])
      end
  end.

(** ** Theorems *)

(** Mutual exclusion: in every reachable state a locked mutex has exactly
    one owner, which is a guard or the task that the last [unlock] woke, an
    unlocked mutex has none, so two guards never coexist. No task waits for
    an unlocked mutex, and a step by the owner does not fail its debug
    assertion. *)
Theorem local_mutex_exclusion (p : profile) (s : Sys) :
  rtc (step p) init s →
  guards s + length (woken s) = (if is_locked (mutex s) then 1 else 0) ∧
  guards s ≤ 1 ∧
  (wait_queue (mutex s) ≠ [] → is_locked (mutex s) = true) ∧
  (guards s ≠ 0 → ∃ x, LocalMutex_unlock p (mutex s) = Val x) ∧
  (woken s ≠ [] → LocalMutex_get_locked p (mutex s) = Val ()).
Proof.
  intros Hr. destruct (lm_inv_reachable _ _ Hr) as [Ho Hw].
  split_and!; [done|destruct (is_locked _); lia|done| |].
  - intros Hg. unfold LocalMutex_unlock. destruct (is_locked (mutex s)) eqn:Hk; [|lia].
    rewrite debug_assert_true. simpl. destruct (pop_back _) as [[]|]; by eexists.
  - intros Hg. unfold LocalMutex_get_locked. destruct (is_locked (mutex s)) eqn:Hk.
    + by rewrite debug_assert_true.
    + destruct (woken s); simpl in Ho; [done|lia].
Qed.

(** No waiter is left behind: from any reachable state with a guard, when each
    woken task in turn drops its guard, all the waiting tasks get the mutex,
    the latest first, and then it is unlocked. *)
Theorem local_mutex_drain (p : profile) (s : Sys) (fuel : nat) :
  rtc (step p) init s → guards s = 1 → length (wait_queue (mutex s)) < fuel →
  unlock_all p fuel (mutex s) = Val (LocalMutex_new, rev (wait_queue (mutex s))).
Proof.
  intros Hr Hg. destruct (lm_inv_reachable _ _ Hr) as [Ho _].
  assert (is_locked (mutex s) = true) as Hk by (destruct (is_locked (mutex s)); [done|lia]).
  clear Hr Ho Hg. destruct (mutex s) as [b q]. simpl in *. subst b.
  revert fuel. induction q as [|t q IH] using rev_ind; intros fuel Hf.
  - destruct fuel as [|fuel]; [simpl in Hf; lia|]. simpl. unfold LocalMutex_unlock.
    by rewrite debug_assert_true.
  - rewrite length_app in Hf. simpl in Hf. destruct fuel as [|fuel]; [lia|].
    simpl. unfold LocalMutex_unlock. simpl. rewrite debug_assert_true. simpl.
    rewrite pop_back_snoc. simpl. rewrite IH by lia. simpl. by rewrite rev_app_distr.
Qed.

(** ** Witnesses: a guard and two waiting tasks. *)
Definition ex_contended : Sys :=
  mkSys (mkLocalMutex true [ex_task 1; ex_task 2]) 1 [].

Lemma ex_contended_reachable p : rtc (step p) init ex_contended.
Proof.
  eapply rtc_l; [by eapply step_lock|]. eapply rtc_l; [by eapply (step_lock_wait _ _ (ex_task 1))|].
  eapply rtc_l; [by eapply (step_lock_wait _ _ (ex_task 2))|]. apply rtc_refl.
Qed.

Lemma local_mutex_exclusion_witness :
  guards ex_contended ≤ 1 ∧ ∃ x, LocalMutex_unlock Debug (mutex ex_contended) = Val x.
Proof.
  destruct (local_mutex_exclusion Debug ex_contended (ex_contended_reachable Debug))
    as (_ & Hg & _ & Hu & _).
  split; [exact Hg|apply Hu; discriminate].
Defined.

Lemma local_mutex_drain_witness :
  unlock_all Debug 3 (mutex ex_contended) = Val (LocalMutex_new, [ex_task 2; ex_task 1]).
Proof.
  apply (local_mutex_drain Debug ex_contended 3 (ex_contended_reachable Debug));
    [reflexivity|simpl; lia].
Defined.
