(* ===== verification/SmartMutex.v ===== *)
(** * The shared mutex

    Models [src/src/sync/mutexes/smart_shared.rs]. The mutex is a [counter]
    of lockers, a list of waiting tasks, and [expected_count], the value of
    the counter when only the owner is left: each hand-over leaves the
    counter as it is and raises [expected_count] instead.

    Every access to [counter], [expected_count] and the list is a step of its
    own, so the steps of different threads interleave as they do in the
    program. A locker that finds the mutex taken counts itself in one step and
    gets into the list in a later one: the executor pushes it after its
    future has returned [Pending] ([Call::PushCurrentTaskTo]).

    The arithmetic on [expected_count] wraps, as in a release build; a debug
    build panics where it would wrap, and takes the other steps. *)

From Stdlib Require Import ZArith Lia.
From S2P Require Import Prelude Task.

Local Open Scope Z_scope.

(** ** Where an owner of the mutex is *)
Inductive Owner :=
| Guard                   (** a [MutexGuard] is alive *)
| AtCas (expected : Z)    (** [unlock] has read [expected_count] *)
| AtIncrement             (** the exchange failed *)
| AtSet (v : Z)           (** [expected_count] is about to become [v] *)
| AtPop                   (** looking for the next task *)
| Woken (t : Task).       (** the task was handed the mutex and has not run yet *)

Record Sys := mkSys {
  counter : Z;
  expected_count : Z;
  wait_queue : list Task;
  pushing : list Task;      (** counted, not in the list yet *)
  subscribing : list Task;  (** in [low_level_subscribe], between its two accesses *)
  owners : list Owner;
  resetting : nat;          (** unlockers that have yet to set [expected_count] to 1 *)
}.

Definition Mutex_new : Sys := mkSys 0 1 [] [] [] [] 0.

(** ** The operations on the shared words *)

(** [compare_exchange(e, v)] on the counter. *)
Definition counter_cas (c e v : Z) : Z * bool :=
  if c =? e then (v, true) else (c, false).

(** [try_lock_with_spinning]: [seen k] is the counter at attempt [k]. The
    result is the attempt that succeeded. A counter that is neither 0 nor 1
    shows that others wait, and ends the attempts. *)
Fixpoint try_lock_with_spinning_from (seen : nat → Z) (n step : nat) : option nat :=
  match n with
  | O => None
  | S n =>
      if (counter_cas (seen step) 0 1).2 then Some step
      else if seen step =? 1 then try_lock_with_spinning_from seen n (S step)
      else None
  end.

Definition try_lock_with_spinning (seen : nat → Z) : option nat :=
  try_lock_with_spinning_from seen 7 0.

(** The part of [MutexWait::poll] that touches the counter after the attempts:
    [fetch_add(1)]; [true] when the mutex was free. *)
Definition MutexWait_count (c : Z) : Z * bool := (c + 1, c =? 0).

(** The list is a [SyncTaskList]: one access under its own spin lock. *)
Definition pop_waiter (q : list Task) : option Task * list Task := SyncTaskList_pop q.

Definition set_owner (l1 : list Owner) (o : Owner) (l2 : list Owner) (s : Sys) : Sys :=
  mkSys (counter s) (expected_count s) (wait_queue s) (pushing s) (subscribing s)
    (l1 ++ o :: l2) (resetting s).

(** ** Steps *)
Inductive step : Sys → Sys → Prop :=
(** [try_lock], or an attempt of [try_lock_with_spinning], that succeeds;
    one that fails changes nothing. *)
| step_try_lock s c' :
    counter_cas (counter s) 0 1 = (c', true) →
    step s (mkSys c' (expected_count s) (wait_queue s) (pushing s) (subscribing s)
              (owners s ++ [Guard]) (resetting s))
(** [counter.fetch_add(1)] in [MutexWait::poll]; the number of lockers stays
    far below [usize::MAX]. *)
| step_count_lock s c' :
    counter s < usize_MAX → MutexWait_count (counter s) = (c', true) →
    step s (mkSys c' (expected_count s) (wait_queue s) (pushing s) (subscribing s)
              (owners s ++ [Guard]) (resetting s))
| step_count_wait s t c' :
    counter s < usize_MAX → MutexWait_count (counter s) = (c', false) →
    step s (mkSys c' (expected_count s) (wait_queue s) (pushing s ++ [t]) (subscribing s)
              (owners s) (resetting s))
| step_push s t l1 l2 :
    pushing s = l1 ++ t :: l2 →
    step s (mkSys (counter s) (expected_count s) (push_back (wait_queue s) t) (l1 ++ l2)
              (subscribing s) (owners s) (resetting s))
(** [low_level_subscribe]: the decrement, then the push. *)
| step_subscribe_count s t :
    step s (mkSys (counter s) (usize_wrap (expected_count s - 1)) (wait_queue s) (pushing s)
              (subscribing s ++ [t]) (owners s) (resetting s))
| step_subscribe_push s t l1 l2 :
    subscribing s = l1 ++ t :: l2 →
    step s (mkSys (counter s) (expected_count s) (push_back (wait_queue s) t) (pushing s)
              (l1 ++ l2) (owners s) (resetting s))
(** [unlock]. *)
| step_unlock s l1 l2 :
    owners s = l1 ++ Guard :: l2 →
    step s (set_owner l1 (AtCas (expected_count s)) l2 s)
| step_cas_ok s l1 l2 e c' :
    owners s = l1 ++ AtCas e :: l2 → counter_cas (counter s) e 0 = (c', true) →
    step s (mkSys c' (expected_count s) (wait_queue s) (pushing s) (subscribing s)
              (l1 ++ l2) (S (resetting s)))
| step_reset s n :
    resetting s = S n →
    step s (mkSys (counter s) 1 (wait_queue s) (pushing s) (subscribing s) (owners s) n)
| step_cas_fail s l1 l2 e c' :
    owners s = l1 ++ AtCas e :: l2 → counter_cas (counter s) e 0 = (c', false) →
    step s (set_owner l1 AtIncrement l2 s)
| step_read_expected s l1 l2 :
    owners s = l1 ++ AtIncrement :: l2 →
    step s (set_owner l1 (AtSet (usize_wrap (expected_count s + 1))) l2 s)
| step_set_expected s l1 l2 v :
    owners s = l1 ++ AtSet v :: l2 →
    step s (mkSys (counter s) v (wait_queue s) (pushing s) (subscribing s)
              (l1 ++ AtPop :: l2) (resetting s))
| step_pop s l1 l2 t q :
    owners s = l1 ++ AtPop :: l2 → pop_waiter (wait_queue s) = (Some t, q) →
    step s (mkSys (counter s) (expected_count s) q (pushing s) (subscribing s)
              (l1 ++ Woken t :: l2) (resetting s))
(** The woken task polls its future again and has the guard. *)
| step_woken s l1 l2 t :
    owners s = l1 ++ Woken t :: l2 →
    step s (set_owner l1 Guard l2 s).

(** ** Exclusion *)

(** The counter is 0 exactly when nobody owns the mutex. *)
Definition owned (s : Sys) : Prop :=
  0 ≤ counter s ∧ Z.of_nat (length (owners s)) = if counter s =? 0 then 0 else 1.

Lemma owners_middle (l1 l2 : list Owner) o :
  length (l1 ++ o :: l2) = S (length (l1 ++ l2)).
Proof. rewrite !length_app. simpl. lia. Qed.

Lemma owners_swap (l1 l2 : list Owner) o o' :
  length (l1 ++ o' :: l2) = length (l1 ++ o :: l2).
Proof. by rewrite !owners_middle. Qed.

Lemma counter_cas_true c e v c' : counter_cas c e v = (c', true) ↔ c = e ∧ c' = v.
Proof. unfold counter_cas. destruct (Z.eqb_spec c e); naive_solver. Qed.

Lemma counter_cas_false c e v c' : counter_cas c e v = (c', false) ↔ c ≠ e ∧ c' = c.
Proof. unfold counter_cas. destruct (Z.eqb_spec c e); naive_solver. Qed.

Lemma owned_step s s' : owned s → step s s' → owned s'.
Proof.
  intros [Hc Ho] Hs. destruct Hs; unfold owned; simpl in *;
    repeat match goal with
    | H : counter_cas _ _ _ = (_, true) |- _ => apply counter_cas_true in H as [? ->]
    | H : MutexWait_count _ = _ |- _ => unfold MutexWait_count in H; injection H as <- ?
    | H : owners s = _ |- _ => rewrite H in Ho; clear H
    end; rewrite ?owners_middle, ?length_app in *; simpl in *;
    repeat case_match; rewrite ?Z.eqb_eq, ?Z.eqb_neq in *; try done; try lia.
Qed.

Lemma owned_reachable s : rtc step Mutex_new s → owned s.
Proof. apply (rtc_invariant step owned); [|done]. intros. by eapply owned_step. Qed.

(** ** Waiters

    [expected_count] is set back to 1 only after the counter was released.
    A quiet run is one in which no other thread gets between these two writes,
    a task subscribes only while the mutex is owned and its owner is not
    between a read of [expected_count] and the write that follows it, and
    fewer than 2^64 tasks wait at once. *)
Definition may_subscribe (o : Owner) : bool :=
  match o with
  | AtCas _ | AtSet _ => false
  | Guard | AtIncrement | AtPop | Woken _ => true
  end.

(** The tasks that wait: in the list, or on their way there. *)
Definition waiters (s : Sys) : Z :=
  Z.of_nat (length (wait_queue s) + length (pushing s) + length (subscribing s)).

Definition quiet_step (s s' : Sys) : Prop :=
  step s s' ∧ (resetting s = 0%nat ∨ (resetting s' < resetting s)%nat) ∧
  (length (subscribing s) < length (subscribing s') → ∃ o, owners s = [o] ∧ may_subscribe o = true)%nat ∧
  waiters s' < usize_modulus.

(** How the counter relates to [expected_count] at each place of the owner;
    [expected_count] may have wrapped. *)
Definition agree (c e w : Z) : Prop := ∃ k, c = e + w + k * usize_modulus.

Definition owner_ok (o : Owner) (c e w : Z) : Prop :=
  match o with
  | Guard | Woken _ => agree c e w
  | AtCas e' => e' = e ∧ agree c e w
  | AtIncrement => agree c e w ∧ 1 ≤ w
  | AtSet v => v = usize_wrap (e + 1) ∧ agree c e w ∧ 1 ≤ w
  | AtPop => agree c (e - 1) w ∧ 1 ≤ w
  end.

Record quiet (s : Sys) : Prop := {
  quiet_owned : owned s;
  quiet_range : in_usize (counter s) ∧ in_usize (expected_count s) ∧ waiters s < usize_modulus;
  quiet_owner :
    match resetting s, owners s with
    | 0%nat, [] => expected_count s = 1 ∧ waiters s = 0
    | 0%nat, [o] => owner_ok o (counter s) (expected_count s) (waiters s)
    | 1%nat, [] => waiters s = 0
    | _, _ => False
    end;
}.

Lemma quiet_new : quiet Mutex_new.
Proof. split; done. Qed.

(** The single owner, when there is one. *)
Lemma quiet_one_owner s l1 l2 o :
  quiet s → owners s = l1 ++ o :: l2 →
  l1 = [] ∧ l2 = [] ∧ resetting s = 0%nat ∧
  owner_ok o (counter s) (expected_count s) (waiters s).
Proof.
  intros [_ _ Hq] Ho. rewrite Ho in Hq.
  destruct (resetting s) as [|[|n]]; destruct l1 as [|o1 [|o2 l1]], l2 as [|o' l2]; done.
Qed.

Lemma pop_waiter_Some q t q' : pop_waiter q = (Some t, q') → q = q' ++ [t].
Proof.
  unfold pop_waiter, SyncTaskList_pop. destruct (pop_back q) as [[t2 q2]|] eqn:Hq; [|done].
  intros [= -> ->]. by apply pop_back_Some.
Qed.

(** The counter is 0 exactly when there is no owner. *)
Lemma owned_free s : owned s → counter s = 0 → owners s = [].
Proof. intros [_ Ho] Hc. rewrite Hc in Ho. by destruct (owners s). Qed.

Lemma quiet_free s :
  quiet s → counter s = 0 →
  owners s = [] ∧ waiters s = 0 ∧ (resetting s = 0%nat → expected_count s = 1).
Proof.
  intros [Ho _ Hq] Hc. apply owned_free in Ho; [|done]. rewrite Ho in Hq.
  destruct (resetting s) as [|[|]]; naive_solver.
Qed.

Lemma quiet_busy s :
  quiet s → counter s ≠ 0 →
  ∃ o, owners s = [o] ∧ resetting s = 0%nat ∧
    owner_ok o (counter s) (expected_count s) (waiters s).
Proof.
  intros [[_ Ho] _ Hq] Hc. apply Z.eqb_neq in Hc. rewrite Hc in Ho.
  destruct (resetting s) as [|[|]], (owners s) as [|o [|]]; simpl in Ho; try done; try lia; eauto.
Qed.

(** [usize] arithmetic on either side keeps the agreement. *)
Lemma agree_wrap c e e' w : e = usize_wrap e' → agree c e w ↔ agree c e' w.
Proof.
  intros ->. unfold agree, usize_wrap.
  pose proof (Z.div_mod e' usize_modulus ltac:(done)) as Hd. set (q := e' / usize_modulus) in *.
  split; intros [k Hk]; [exists (k - q)|exists (k + q)]; lia.
Qed.

Lemma agree_ext c c' e e' w w' : c - e - w = c' - e' - w' → agree c e w → agree c' e' w'.
Proof. intros H [k Hk]. exists k. lia. Qed.

(** The exchange of [unlock] succeeds exactly when nobody waits. *)
Lemma agree_equal c w : agree c c w → 0 ≤ w < usize_modulus → w = 0.
Proof. intros [k Hk]. unfold usize_modulus in *. lia. Qed.

Lemma agree_differ c e w : agree c e w → c ≠ e → in_usize c → in_usize e → 0 ≤ w → 1 ≤ w.
Proof. intros [k Hk]. unfold in_usize, usize_MAX, usize_modulus in *. lia. Qed.

(** One more waiter: counted, or subscribed. *)
Lemma owner_ok_count o c e w : owner_ok o c e w → owner_ok o (c + 1) e (w + 1).
Proof.
  assert (∀ e, agree c e w → agree (c + 1) e (w + 1)) as Ha by (intros e1; apply agree_ext; lia).
  destruct o; simpl; intuition auto with lia.
Qed.

Lemma owner_ok_subscribe o c e w :
  may_subscribe o = true → owner_ok o c e w → owner_ok o c (usize_wrap (e - 1)) (w + 1).
Proof.
  assert (∀ e, agree c e w → agree c (usize_wrap (e - 1)) (w + 1)) as Ha.
  { intros e1 H. rewrite agree_wrap by done. by apply (agree_ext c c e1 _ w); [lia|]. }
  assert (agree c (e - 1) w → agree c (usize_wrap (e - 1) - 1) (w + 1)) as Hb.
  { intros H%Ha. revert H. unfold agree, usize_wrap. intros [k Hk].
    pose proof (Z.div_mod (e - 1) usize_modulus ltac:(done)).
    pose proof (Z.div_mod (e - 1 - 1) usize_modulus ltac:(done)).
    exists (k + (e - 1) / usize_modulus - (e - 1 - 1) / usize_modulus). lia. }
  destruct o; simpl; intuition auto with lia.
Qed.

Ltac quiet_case :=
  repeat match goal with
  | H : counter_cas _ _ _ = (_, true) |- _ => apply counter_cas_true in H as [? ->]
  | H : counter_cas _ _ _ = (_, false) |- _ => apply counter_cas_false in H as [? ->]
  | H : MutexWait_count _ = _ |- _ => unfold MutexWait_count in H; injection H as <- ?
  | H : owners ?s = _ ++ _ :: _, Hq : quiet ?s |- _ =>
      destruct (quiet_one_owner _ _ _ _ Hq H) as (-> & -> & Hres & Hok); clear H
  | H : (_ =? _) = true |- _ => apply Z.eqb_eq in H
  | H : (_ =? _) = false |- _ => apply Z.eqb_neq in H
  end.

(** Locking a free mutex. *)
Lemma quiet_acquire s c' :
  quiet s → counter s = 0 → resetting s = 0%nat → c' = 1 →
  quiet (mkSys c' (expected_count s) (wait_queue s) (pushing s) (subscribing s)
           (owners s ++ [Guard]) (resetting s)).
Proof.
  intros Hq Hc Hr ->. destruct (quiet_free _ Hq Hc) as (Ho & Hw & He).
  pose proof (quiet_range s Hq) as (_ & Hu & Hm). specialize (He Hr).
  split; simpl; [by rewrite Ho|by split_and!|].
  rewrite Hr, Ho. simpl. exists 0. unfold waiters in *. simpl. lia.
Qed.

(** A task that gets from its way into the list. *)
Lemma quiet_ext s s' :
  quiet s → counter s' = counter s → expected_count s' = expected_count s → owners s' = owners s →
  resetting s' = resetting s → waiters s' = waiters s → quiet s'.
Proof. intros [H1 H2 H3] Hc He Ho Hr Hw. split; unfold owned in *; by rewrite ?Hc, ?He, ?Ho, ?Hr, ?Hw. Qed.

Lemma waiters_nonneg s : 0 ≤ waiters s.
Proof. unfold waiters. lia. Qed.

Lemma quiet_preserved s s' : quiet s → quiet_step s s' → quiet s'.
Proof.
  intros Hq (Hs & Hquiet & Hsub & Hmax). pose proof Hq as [Hown (Hc & He & Hw) Ho].
  pose proof (owned_step _ _ Hown Hs) as Hown'. pose proof (waiters_nonneg s) as Hw0.
  destruct Hs; simpl in Hquiet, Hsub; quiet_case.
  - apply quiet_acquire; lia || done.
  - apply quiet_acquire; lia || done.
  - destruct (quiet_busy _ Hq) as (o & Hone & Hr & Hok); [lia|].
    split; [done|split_and!; [|done|done]; simpl; unfold in_usize, usize_MAX in *; lia|]. simpl. rewrite Hone, Hr.
    apply owner_ok_count in Hok. unfold waiters in *. simpl in *. rewrite length_app. simpl.
    eapply eq_ind; [exact Hok|f_equal; lia].
  - apply (quiet_ext s); [done..|]. unfold waiters, push_back. simpl. rewrite H, !length_app. simpl. lia.
  - destruct Hsub as (o & Hone & Hmay); [rewrite length_app; simpl; lia|].
    destruct (quiet_one_owner _ [] [] o Hq Hone) as (_ & _ & Hr & Hok).
    split; [done|split_and!; [done|apply usize_wrap_in_usize|done]|]. simpl. rewrite Hone, Hr.
    apply owner_ok_subscribe in Hok; [|done]. unfold waiters in *. simpl in *. rewrite length_app. simpl.
    eapply eq_ind; [exact Hok|f_equal; lia].
  - apply (quiet_ext s); [done..|]. unfold waiters, push_back. simpl. rewrite H, !length_app. simpl. lia.
  - split; [done|done|]. simpl. rewrite Hres. by split.
  - destruct Hok as [-> Hok]. rewrite H0 in Hok. apply agree_equal in Hok; [|done].
    split; [done|by split_and!|]. simpl. by rewrite Hres.
  - rewrite H in Ho. destruct n as [|n]; [|done]. destruct (owners s) eqn:Hown2; [|done].
    split; [done|by split_and!|]. done.
  - destruct Hok as [-> Hok]. split; [done|done|]. simpl. rewrite Hres. split; [done|].
    by eapply agree_differ.
  - destruct Hok as [Hok Hw1]. split; [done|done|]. simpl. by rewrite Hres.
  - destruct Hok as (-> & Hok & Hw1). split; [done|split_and!; [done|apply usize_wrap_in_usize|done]|].
    simpl. rewrite Hres. split; [|done]. change (agree (counter s) (usize_wrap (expected_count s + 1) - 1) (waiters s)).
    apply (agree_ext (counter s + 1) _ (usize_wrap (expected_count s + 1)) _ (waiters s)); [lia|].
    apply (agree_wrap _ _ (expected_count s + 1)); [done|].
    by apply (agree_ext (counter s) _ (expected_count s) _ (waiters s)); [lia|].
  - apply pop_waiter_Some in H0. destruct Hok as [Hok Hw1]. split; [done|done|].
    simpl. rewrite Hres. unfold waiters in *. simpl in *. rewrite H0, length_app in *. simpl in *.
    eapply agree_ext; [|exact Hok]. lia.
  - split; [done|done|]. simpl. by rewrite Hres.
Qed.

Lemma quiet_reachable s : rtc quiet_step Mutex_new s → quiet s.
Proof. apply (rtc_invariant quiet_step quiet); [|apply quiet_new]. intros. by eapply quiet_preserved. Qed.

(** What the attempts of [lock] do: at most seven, on a free mutex, and none
    after one that saw a waiting task. *)
Lemma try_lock_with_spinning_Some seen k :
  try_lock_with_spinning seen = Some k →
  (k ≤ 6)%nat ∧ seen k = 0 ∧ ∀ j, (j < k)%nat → seen j = 1.
Proof.
  unfold try_lock_with_spinning.
  assert (∀ n i, try_lock_with_spinning_from seen n i = Some k →
    (i ≤ k < i + n)%nat ∧ seen k = 0 ∧ ∀ j, (i ≤ j < k)%nat → seen j = 1) as Hgen.
  { induction n as [|n IH]; intros i Hi; [done|]. simpl in Hi. unfold counter_cas in Hi.
    destruct (Z.eqb_spec (seen i) 0) as [H0|_]; simpl in Hi; [injection Hi as <-; repeat split; lia|].
    destruct (Z.eqb_spec (seen i) 1) as [H1|_]; [|done].
    destruct (IH _ Hi) as (Hk & Hs & Hj). split_and!; [lia|lia|done|].
    intros j Hj'. destruct (decide (j = i)) as [->|]; [done|]. apply Hj. lia. }
  intros Hk. destruct (Hgen _ _ Hk) as (? & ? & Hj). split_and!; [lia|done|].
  intros j ?. apply Hj. lia.
Qed.

(** ** Theorems *)

(** C4: mutual exclusion: whatever the interleaving of the single accesses, with
    spinning, queueing, subscribing and racing resets, a mutex whose counter
    is 0 has no owner and one whose counter is not 0 has exactly one: a
    guard, an unlocker on its way, or the task that was handed the mutex. In
    particular the debug assertions of [unlock] and [get_locked] hold. *)
Theorem smart_mutex_exclusion (s : Sys) :
  rtc step Mutex_new s →
  (counter s = 0 → owners s = []) ∧ (counter s ≠ 0 → ∃ o, owners s = [o]).
Proof.
  intros Hr. destruct (owned_reachable _ Hr) as [Hc Ho].
  destruct (Z.eqb_spec (counter s) 0); (split; [intros ?|intros ?]); try done.
  - by destruct (owners s).
  - destruct (owners s) as [|o [|]]; [done|by exists o|]. simpl in Ho. lia.
Qed.


(** The two writes of the fast path of [unlock] race: another thread may lock
    and unlock between the release of the counter and the reset of
    [expected_count]. It then compares with the stale value, takes the slow
    path, and spins in search of a waiter when there is none: the mutex stays
    locked without a guard, although nobody holds it and nobody waits. *)
Theorem smart_mutex_stale_expected_count :
  ∃ s, rtc step Mutex_new s ∧
    counter s = 1 ∧ owners s = [AtPop] ∧
    wait_queue s = [] ∧ pushing s = [] ∧ subscribing s = [] ∧ resetting s = 0%nat.
Proof.
  pose (t := ex_shared_task 1). clearbody t. eexists. split.
  { (* the first owner, and a task that waits for it *)
    run_step step_try_lock.
    run_step (step_count_wait _ t).
    run_step (step_push _ t [] []).
    run_step (step_unlock _ [] []).
    run_step (step_cas_fail _ [] [] 1).
    run_step (step_read_expected _ [] []).
    run_step (step_set_expected _ [] [] 2).
    run_step (step_pop _ [] [] t []).
    (* the second owner releases the counter *)
    run_step (step_woken _ [] [] t).
    run_step (step_unlock _ [] []).
    run_step (step_cas_ok _ [] [] 2).
    (* a third one locks and unlocks before the reset *)
    run_step step_try_lock.
    run_step (step_unlock _ [] []).
    run_step (step_cas_fail _ [] [] 2).
    run_step (step_read_expected _ [] []).
    run_step (step_set_expected _ [] [] 3).
    run_step (step_reset _ 0). apply rtc_refl. }
  vm_compute. split_and!; reflexivity.
Qed.

(** ** Witnesses: an unlocker with a task that has subscribed, and one that is
    counted but not queued. *)
Tactic Notation "quiet_run" uconstr(H) :=
  eapply rtc_l;
  [split_and!; [eapply H; vm_compute; reflexivity|left; reflexivity
    |simpl; intros; solve [lia|by eexists]|vm_compute; reflexivity]|];
  eval_state.

Lemma ex_unlocking : ∃ s, rtc quiet_step Mutex_new s ∧
  owners s = [AtPop] ∧ length (wait_queue s) = 1%nat ∧ counter s = 2 ∧ length (pushing s) = 1%nat.
Proof.
  pose (t := ex_shared_task 1). clearbody t. eexists. split.
  { quiet_run step_try_lock. quiet_run (step_count_wait _ t).
    quiet_run (step_subscribe_count _ t). quiet_run (step_subscribe_push _ t [] []).
    quiet_run (step_unlock _ [] []).
    quiet_run (step_cas_fail _ [] [] 0). quiet_run (step_read_expected _ [] []).
    quiet_run (step_set_expected _ [] [] 1). apply rtc_refl. }
  vm_compute. split_and!; reflexivity.
Qed.

Lemma smart_mutex_exclusion_witness :
  ∃ s, rtc step Mutex_new s ∧ counter s = 1 ∧ ∃ o, owners s = [o].
Proof.
  exists (mkSys 1 1 [] [] [] [Guard] 0).
  assert (rtc step Mutex_new (mkSys 1 1 [] [] [] [Guard] 0)) as Hr.
  { eapply rtc_l; [by apply step_try_lock|apply rtc_refl]. }
  split; [exact Hr|]. split; [reflexivity|].
  apply (smart_mutex_exclusion _ Hr). discriminate.
Defined.

