(* ===== verification/LocalRWLock.v ===== *)
(** * The local readers-writer lock

    Models [src/src/sync/rw_locks/local.rs] and [lock_status.rs].
    [number_of_readers] is -1 while a writer has the lock. When a writer
    leaves and no other writer waits, [write_unlock] counts the waiting
    readers as readers at once and then wakes them one by one; a reader it
    wakes may run, unlock and even let a writer in before the loop goes on,
    so the loop is a sequence of steps. *)

From Stdlib Require Import ZArith Lia.
From S2P Require Import Prelude Task.

Local Open Scope Z_scope.

Record LocalRWLock := mkLocalRWLock {
  wait_queue_read : list Task;
  wait_queue_write : list Task;
  number_of_readers : Z;
}.

Definition LocalRWLock_new : LocalRWLock := mkLocalRWLock [] [] 0.

Definition set_readers (n : Z) (l : LocalRWLock) : LocalRWLock :=
  mkLocalRWLock (wait_queue_read l) (wait_queue_write l) n.

Inductive LockStatus := Unlocked | WriteLocked | ReadLocked (n : Z).

Definition get_lock_status (l : LocalRWLock) : LockStatus :=
  if number_of_readers l =? 0 then Unlocked
  else if 0 <? number_of_readers l then ReadLocked (number_of_readers l)
  else WriteLocked.

Definition is_empty {A} (l : list A) : bool := match l with [] => true | _ => false end.

(** [write] and [try_write]; [true]: they return a guard. *)
Definition try_write (p : profile) (l : LocalRWLock) : outcome (LocalRWLock * bool) :=
  if number_of_readers l =? 0 then
    debug_assert p (is_empty (wait_queue_read l));;
    Val (set_readers (-1) l, true)
  else Val (l, false).

Definition WriteLockWait_poll (cx : Task) (was_called : bool) (l : LocalRWLock)
    : LocalRWLock * bool * Poll () :=
  if negb was_called then
    (mkLocalRWLock (wait_queue_read l) (push_back (wait_queue_write l) cx) (number_of_readers l),
     true, Pending)
  else (l, was_called, Ready ()).

Definition write (p : profile) (cx : Task) (l : LocalRWLock) : outcome (LocalRWLock * Poll ()) :=
  '(l, ok) ← try_write p l;
  if ok : bool then Val (l, Ready ())
  else let '(l, _, r) := WriteLockWait_poll cx false l in Val (l, r).

(** [read] and [try_read]. *)
Definition try_read (l : LocalRWLock) : LocalRWLock * bool :=
  if -1 <? number_of_readers l then (set_readers (number_of_readers l + 1) l, true)
  else (l, false).

Definition ReadLockWait_poll (cx : Task) (was_called : bool) (l : LocalRWLock)
    : LocalRWLock * bool * Poll () :=
  if negb was_called then
    (mkLocalRWLock (push_back (wait_queue_read l) cx) (wait_queue_write l) (number_of_readers l),
     true, Pending)
  else (l, was_called, Ready ()).

Definition read (cx : Task) (l : LocalRWLock) : LocalRWLock * Poll () :=
  let '(l, ok) := try_read l in
  if ok : bool then (l, Ready ())
  else let '(l, _, r) := ReadLockWait_poll cx false l in (l, r).

(** [read_unlock], with the writer it wakes. *)
Definition read_unlock (p : profile) (l : LocalRWLock) : outcome (LocalRWLock * option Task) :=
  debug_assert p (negb (number_of_readers l =? -1));;
  debug_assert p (negb (number_of_readers l =? 0));;
  let l := set_readers (number_of_readers l - 1) l in
  if number_of_readers l =? 0 then
    debug_assert p (is_empty (wait_queue_read l));;
    match pop_back (wait_queue_write l) with
    | Some (task, q) => Val (mkLocalRWLock (wait_queue_read l) q (-1), Some task)
    | None => Val (l, None)
    end
  else Val (l, None).

(** [write_unlock] up to its loop: it hands the lock to a writer, or starts to
    wake as many readers as wait. *)
Inductive Unlocking := WakeWriter (t : Task) | WakeReaders (readers_count : nat).

Definition write_unlock (p : profile) (l : LocalRWLock) : outcome (LocalRWLock * Unlocking) :=
  debug_assert p (negb (number_of_readers l =? 0));;
  debug_assert p (number_of_readers l <=? 0);;
  match pop_back (wait_queue_write l) with
  | Some (task, q) =>
      Val (mkLocalRWLock (wait_queue_read l) q (number_of_readers l), WakeWriter task)
  | None =>
      let readers_count := length (wait_queue_read l) in
      Val (set_readers (Z.of_nat readers_count) l, WakeReaders readers_count)
  end.

(** A turn of the loop. *)
Definition wake_reader (l : LocalRWLock) : outcome (LocalRWLock * Task) :=
  '(task, q) ← unchecked (pop_back (wait_queue_read l));
  Val (mkLocalRWLock q (wait_queue_write l) (number_of_readers l), task).

Definition get_read_locked (p : profile) (l : LocalRWLock) : outcome () :=
  debug_assert p (negb (number_of_readers l =? -1));;
  debug_assert p (negb (number_of_readers l =? 0)).

Definition get_write_locked (p : profile) (l : LocalRWLock) : outcome () :=
  debug_assert p (negb (number_of_readers l =? 0));;
  debug_assert p (number_of_readers l <=? 0).

(** ** The lock and its users: live guards, tasks woken but not polled yet,
    and the readers that the loops under way have yet to wake. *)
Record Sys := mkSys {
  lock : LocalRWLock;
  read_guards : nat;
  write_guards : nat;
  woken_readers : list Task;
  woken_writers : list Task;
  loops : list nat;
}.

Definition init : Sys := mkSys LocalRWLock_new 0 0 [] [] [].

Inductive step (p : profile) : Sys → Sys → Prop :=
| step_read s t l' r :
    read t (lock s) = (l', r) →
    step p s (mkSys l' (match r with Ready _ => S (read_guards s) | Pending => read_guards s end)
                (write_guards s) (woken_readers s) (woken_writers s) (loops s))
| step_write s t l' r :
    write p t (lock s) = Val (l', r) →
    step p s (mkSys l' (read_guards s)
                (match r with Ready _ => S (write_guards s) | Pending => write_guards s end)
                (woken_readers s) (woken_writers s) (loops s))
| step_try_read s l' ok :
    try_read (lock s) = (l', ok) →
    step p s (mkSys l' (if ok then S (read_guards s) else read_guards s)
                (write_guards s) (woken_readers s) (woken_writers s) (loops s))
| step_try_write s l' ok :
    try_write p (lock s) = Val (l', ok) →
    step p s (mkSys l' (read_guards s) (if ok then S (write_guards s) else write_guards s)
                (woken_readers s) (woken_writers s) (loops s))
| step_woken_reader s t l1 l2 l' b :
    woken_readers s = l1 ++ t :: l2 →
    ReadLockWait_poll t true (lock s) = (l', b, Ready ()) →
    step p s (mkSys l' (S (read_guards s)) (write_guards s) (l1 ++ l2) (woken_writers s) (loops s))
| step_woken_writer s t l1 l2 l' b :
    woken_writers s = l1 ++ t :: l2 →
    WriteLockWait_poll t true (lock s) = (l', b, Ready ()) →
    step p s (mkSys l' (read_guards s) (S (write_guards s)) (woken_readers s) (l1 ++ l2) (loops s))
| step_read_unlock s n l' r :
    read_guards s = S n → read_unlock p (lock s) = Val (l', r) →
    step p s (mkSys l' n (write_guards s) (woken_readers s)
                (woken_writers s ++ option_list r) (loops s))
| step_write_unlock_writer s n l' t :
    write_guards s = S n → write_unlock p (lock s) = Val (l', WakeWriter t) →
    step p s (mkSys l' (read_guards s) n (woken_readers s) (woken_writers s ++ [t]) (loops s))
| step_write_unlock_readers s n l' k :
    write_guards s = S n → write_unlock p (lock s) = Val (l', WakeReaders k) →
    step p s (mkSys l' (read_guards s) n (woken_readers s) (woken_writers s) (k :: loops s))
| step_wake_reader s l1 l2 k l' t :
    loops s = l1 ++ S k :: l2 → wake_reader (lock s) = Val (l', t) →
    step p s (mkSys l' (read_guards s) (write_guards s) (woken_readers s ++ [t])
                (woken_writers s) (l1 ++ k :: l2))
| step_loop_end s l1 l2 :
    loops s = l1 ++ O :: l2 →
    step p s (mkSys (lock s) (read_guards s) (write_guards s) (woken_readers s)
                (woken_writers s) (l1 ++ l2)).

(** Readers that are counted but not woken yet. *)
Definition unwoken (s : Sys) : nat := sum_list (loops s).

Record Inv (s : Sys) : Prop := {
  inv_owners :
    let n := number_of_readers (lock s) in
    let r := Z.of_nat (read_guards s + length (woken_readers s) + unwoken s) in
    let w := (write_guards s + length (woken_writers s))%nat in
    (n = -1 ∧ r = 0 ∧ w = 1%nat) ∨
    (0 ≤ n ∧ r = n ∧ w = 0%nat ∧ length (wait_queue_read (lock s)) = unwoken s);
  inv_waiting_writers : number_of_readers (lock s) = 0 → wait_queue_write (lock s) = [];
}.

Lemma sum_list_middle l1 k l2 : sum_list (l1 ++ k :: l2) = (sum_list l1 + k + sum_list l2)%nat.
Proof. induction l1 as [|x l1 IH]; simpl; [done|]. rewrite IH. lia. Qed.

Lemma sum_list_join l1 l2 : sum_list (l1 ++ l2) = (sum_list l1 + sum_list l2)%nat.
Proof. induction l1 as [|x l1 IH]; simpl; [done|]. rewrite IH. lia. Qed.

Lemma debug_assert_Val p b u : debug_assert p b = Val u → p = Debug → b = true.
Proof. intros H ->. by apply rassert_Val in H. Qed.

(** An unlocked lock has no waiting reader. *)
Lemma inv_idle s : Inv s → number_of_readers (lock s) = 0 → wait_queue_read (lock s) = [].
Proof.
  intros [Ho _] Hn. apply length_zero_iff_nil. cbv zeta in Ho. lia.
Qed.

Lemma lrw_inv_init : Inv init.
Proof. split; [right; unfold unwoken; simpl; lia|done]. Qed.

Lemma inv_read s t l' r :
  Inv s → read t (lock s) = (l', r) →
  Inv (mkSys l' (match r with Ready _ => S (read_guards s) | Pending => read_guards s end)
         (write_guards s) (woken_readers s) (woken_writers s) (loops s)).
Proof.
  intros [Ho Hw] Hr. unfold read, try_read in Hr.
  destruct (Z.ltb_spec (-1) (number_of_readers (lock s))); simpl in Hr; simplify_eq/=.
  - split; simpl; [|lia]. unfold unwoken in *. simpl. lia.
  - split; simpl; [|lia]. unfold unwoken in *. simpl. lia.
Qed.

Lemma inv_try_read s l' ok :
  Inv s → try_read (lock s) = (l', ok) →
  Inv (mkSys l' (if ok then S (read_guards s) else read_guards s)
         (write_guards s) (woken_readers s) (woken_writers s) (loops s)).
Proof.
  intros [Ho Hw] Hr. unfold try_read in Hr.
  destruct (Z.ltb_spec (-1) (number_of_readers (lock s))); simplify_eq/=.
  - split; simpl; [|lia]. unfold unwoken in *. simpl. lia.
  - split; simpl; [|done]. unfold unwoken in *. simpl. lia.
Qed.

Lemma inv_try_write p s l' ok :
  Inv s → try_write p (lock s) = Val (l', ok) →
  Inv (mkSys l' (read_guards s) (if ok then S (write_guards s) else write_guards s)
         (woken_readers s) (woken_writers s) (loops s)).
Proof.
  intros [Ho Hw] Hr. unfold try_write in Hr.
  destruct (Z.eqb_spec (number_of_readers (lock s)) 0); outcome_inv.
  - split; simpl; [|lia]. unfold unwoken in *. simpl. lia.
  - split; simpl; [|done]. unfold unwoken in *. simpl. lia.
Qed.

Lemma inv_write p s t l' r :
  Inv s → write p t (lock s) = Val (l', r) →
  Inv (mkSys l' (read_guards s)
         (match r with Ready _ => S (write_guards s) | Pending => write_guards s end)
         (woken_readers s) (woken_writers s) (loops s)).
Proof.
  intros HI Hr. unfold write in Hr. outcome_inv. destruct x as [l ok].
  pose proof (inv_try_write _ _ _ _ HI H) as HI'. destruct ok.
  - by simplify_eq.
  - unfold try_write in H. destruct (Z.eqb_spec (number_of_readers (lock s)) 0); outcome_inv.
    simpl in *. simplify_eq/=. destruct HI as [Ho Hw]. split; simpl; [|lia]. unfold unwoken in *. simpl. lia.
Qed.

Lemma inv_read_unlock p s n l' r :
  Inv s → read_guards s = S n → read_unlock p (lock s) = Val (l', r) →
  Inv (mkSys l' n (write_guards s) (woken_readers s) (woken_writers s ++ option_list r) (loops s)).
Proof.
  intros [Ho Hw] Hg Hr. unfold read_unlock in Hr. outcome_inv. simpl in *.
  destruct (Z.eqb_spec (number_of_readers (lock s) - 1) 0); outcome_inv.
  - destruct (pop_back _) as [[t q]|] eqn:Hq; outcome_inv.
    + split; simpl; [|lia]. rewrite length_app. unfold unwoken in *. simpl. lia.
    + apply pop_back_None in Hq. split; simpl; [|done]. rewrite app_nil_r. unfold unwoken in *.
      simpl. lia.
  - split; simpl; [|lia]. rewrite app_nil_r. unfold unwoken in *. simpl. lia.
Qed.

Lemma inv_write_unlock p s n l' u :
  Inv s → write_guards s = S n → write_unlock p (lock s) = Val (l', u) →
  Inv (match u with
       | WakeWriter t =>
           mkSys l' (read_guards s) n (woken_readers s) (woken_writers s ++ [t]) (loops s)
       | WakeReaders k =>
           mkSys l' (read_guards s) n (woken_readers s) (woken_writers s) (k :: loops s)
       end).
Proof.
  intros [Ho Hw] Hg Hr. cbv zeta in Ho. unfold write_unlock in Hr. outcome_inv.
  destruct (pop_back _) as [[t q]|] eqn:Hq; outcome_inv.
  - split; simpl; [|lia]. rewrite length_app. unfold unwoken in *. simpl. lia.
  - apply pop_back_None in Hq. split; simpl; [|done]. unfold unwoken in *. simpl. lia.
Qed.

Lemma inv_wake_reader s l1 l2 k l' t :
  Inv s → loops s = l1 ++ S k :: l2 → wake_reader (lock s) = Val (l', t) →
  Inv (mkSys l' (read_guards s) (write_guards s) (woken_readers s ++ [t])
         (woken_writers s) (l1 ++ k :: l2)).
Proof.
  intros [Ho Hw] Hl Hr. unfold wake_reader in Hr. outcome_inv. destruct x as [t' q].
  apply pop_back_Some in H. outcome_inv. simpl in *. unfold unwoken in *. simpl in *.
  rewrite Hl, sum_list_middle, H, length_app in Ho. simpl in Ho.
  split; simpl; [|done]. unfold unwoken. simpl. rewrite sum_list_middle, length_app. simpl. lia.
Qed.

Lemma lrw_inv_step p s s' : Inv s → step p s s' → Inv s'.
Proof.
  intros HI Hs. destruct Hs.
  - by eapply inv_read.
  - by eapply inv_write.
  - by eapply inv_try_read.
  - by eapply inv_try_write.
  - unfold ReadLockWait_poll in *. simplify_eq/=. destruct HI as [Ho Hw]. split; simpl; [|done].
    unfold unwoken in *. simpl. rewrite H, length_app in Ho. simpl in Ho. rewrite length_app. lia.
  - unfold WriteLockWait_poll in *. simplify_eq/=. destruct HI as [Ho Hw]. split; simpl; [|done].
    unfold unwoken in *. simpl. rewrite H, length_app in Ho. simpl in Ho. rewrite length_app. lia.
  - by eapply inv_read_unlock.
  - by eapply (inv_write_unlock _ _ _ _ (WakeWriter t)).
  - by eapply (inv_write_unlock _ _ _ _ (WakeReaders k)).
  - by eapply inv_wake_reader.
  - destruct HI as [Ho Hw]. split; simpl; [|done]. unfold unwoken in *. simpl.
    rewrite H, sum_list_middle in Ho. rewrite sum_list_join. lia.
Qed.

Lemma lrw_inv_reachable p s : rtc (step p) init s → Inv s.
Proof. apply (rtc_invariant (step p) Inv); [|apply lrw_inv_init]. intros. by eapply lrw_inv_step. Qed.

(** ** Theorems *)

(** Exclusion: in every reachable state, also between the turns of loops that
    wake readers, at most one write guard is alive, and no read guard beside
    it; nobody waits for an unlocked lock, and a reader waits for a
    read-locked one only while the loop that counted it is on its way. *)
Theorem local_rw_lock_exclusion (p : profile) (s : Sys) :
  rtc (step p) init s →
  (write_guards s ≤ 1)%nat ∧ (write_guards s = 1%nat → read_guards s = 0%nat) ∧
  (get_lock_status (lock s) = Unlocked →
    read_guards s = 0%nat ∧ write_guards s = 0%nat ∧
    wait_queue_read (lock s) = [] ∧ wait_queue_write (lock s) = []) ∧
  (∀ n, get_lock_status (lock s) = ReadLocked n →
    length (wait_queue_read (lock s)) = unwoken s).
Proof.
  intros Hr. apply lrw_inv_reachable in Hr as HI. pose proof (inv_idle _ HI) as Hidle.
  destruct HI as [Ho Hw]. cbv zeta in Ho. unfold get_lock_status.
  destruct (Z.eqb_spec (number_of_readers (lock s)) 0) as [Hz|Hz].
  { specialize (Hidle Hz). specialize (Hw Hz). split_and!; [lia|lia| |by intros].
    intros _. split_and!; lia || done. }
  destruct (Z.ltb_spec 0 (number_of_readers (lock s))); split_and!; try lia; intros; try done; lia.
Qed.

(** C17: no operation panics or has undefined behaviour in a reachable state: the
    debug assertions of the unlock functions hold, the state that a woken
    task relies on is there, and the loop of [write_unlock] finds as many
    waiting readers as it counted. *)
Theorem local_rw_lock_safe (p : profile) (s : Sys) :
  rtc (step p) init s →
  (∀ t, ∃ x, write p t (lock s) = Val x) ∧ (∃ x, try_write p (lock s) = Val x) ∧
  (read_guards s ≠ 0%nat → ∃ x, read_unlock p (lock s) = Val x) ∧
  (write_guards s ≠ 0%nat → ∃ x, write_unlock p (lock s) = Val x) ∧
  (∀ k, S k ∈ loops s → ∃ x, wake_reader (lock s) = Val x) ∧
  (woken_readers s ≠ [] → get_read_locked p (lock s) = Val ()) ∧
  (woken_writers s ≠ [] → get_write_locked p (lock s) = Val ()).
Proof.
  intros Hr. apply lrw_inv_reachable in Hr as HI. pose proof (inv_idle _ HI) as Hidle.
  destruct HI as [Ho Hw]. cbv zeta in Ho.
  assert (∃ x, try_write p (lock s) = Val x) as [[l ok] Htw].
  { unfold try_write. destruct (Z.eqb_spec (number_of_readers (lock s)) 0) as [Hz|]; [|by eexists].
    rewrite Hidle by done. rewrite debug_assert_true. by eexists. }
  split_and!; [|by eexists|..].
  - intros t. unfold write. rewrite Htw. simpl. destruct ok; by eexists.
  - intros Hg. unfold read_unlock. rewrite (proj2 (Z.eqb_neq (number_of_readers (lock s)) (-1))) by lia.
    rewrite (proj2 (Z.eqb_neq (number_of_readers (lock s)) 0)) by lia.
    rewrite !debug_assert_true. simpl.
    destruct (Z.eqb_spec (number_of_readers (lock s) - 1) 0); [|by eexists].
    destruct (wait_queue_read (lock s)) eqn:Hq; [|simpl in *; lia]. rewrite debug_assert_true.
    simpl. destruct (pop_back _) as [[]|]; by eexists.
  - intros Hg. unfold write_unlock. rewrite (proj2 (Z.eqb_neq _ _)) by lia.
    rewrite (proj2 (Z.leb_le _ _)) by lia. rewrite !debug_assert_true. simpl.
    destruct (pop_back _) as [[]|]; by eexists.
  - intros k (l1 & l2 & Hl)%list_elem_of_split. unfold wake_reader. unfold unwoken in Ho.
    rewrite Hl, sum_list_middle in Ho.
    destruct (pop_back (wait_queue_read (lock s))) as [[t q]|] eqn:Hq; [by eexists|].
    apply pop_back_None in Hq. rewrite Hq in Ho. simpl in Ho. lia.
  - intros Hg. destruct (woken_readers s); [done|]. simpl in Ho. unfold get_read_locked.
    rewrite (proj2 (Z.eqb_neq (number_of_readers (lock s)) (-1))) by lia.
    rewrite (proj2 (Z.eqb_neq (number_of_readers (lock s)) 0)) by lia. by rewrite !debug_assert_true.
  - intros Hg. destruct (woken_writers s); [done|]. simpl in Ho. unfold get_write_locked.
    rewrite (proj2 (Z.eqb_neq _ _)) by lia. rewrite (proj2 (Z.leb_le _ _)) by lia.
    by rewrite !debug_assert_true.
Qed.

(** ** Witnesses: two readers wait for a writer, which then unlocks; the loop
    has woken one of them. *)
Lemma ex_waking : ∃ s, rtc (step Debug) init s ∧
  loops s = [1%nat] ∧ woken_readers s = [ex_task 2] ∧ length (wait_queue_read (lock s)) = 1%nat.
Proof.
  eexists. split.
  { eapply rtc_l; [by apply (step_write _ _ (ex_task 0))|].
    eapply rtc_l; [by apply (step_read _ _ (ex_task 1))|].
    eapply rtc_l; [by apply (step_read _ _ (ex_task 2))|].
    eapply rtc_l; [by apply (step_write_unlock_readers _ _ 0)|].
    eapply rtc_l; [by apply (step_wake_reader _ _ [] [] 1)|]. apply rtc_refl. }
  by split_and!.
Qed.

Lemma local_rw_lock_exclusion_witness :
  ∃ s, rtc (step Debug) init s ∧ loops s = [1%nat] ∧ (write_guards s ≤ 1)%nat.
Proof.
  destruct ex_waking as (s & Hr & Hl & _). exists s. split; [exact Hr|]. split; [exact Hl|].
  apply (local_rw_lock_exclusion Debug s Hr).
Defined.

Lemma local_rw_lock_safe_witness :
  ∃ s, rtc (step Debug) init s ∧ loops s = [1%nat] ∧ ∃ x, wake_reader (lock s) = Val x.
Proof.
  destruct ex_waking as (s & Hr & Hl & _). exists s. split; [exact Hr|]. split; [exact Hl|].
  destruct (local_rw_lock_safe Debug s Hr) as (_ & _ & _ & _ & Hwake & _).
  apply (Hwake 0%nat). rewrite Hl. apply list_elem_of_singleton. reflexivity.
Defined.
