(* ===== verification/SharedRWLock.v ===== *)
(** * The shared readers-writer lock

    Models [src/src/sync/rw_locks/naive_shared.rs]: one atomic integer, -1 for
    a writer and the number of readers otherwise. Each access to it is a step
    of its own; between the load and the exchange of [try_read] other threads
    may do anything. The number of guards stays far below [isize::MAX]. *)

From Stdlib Require Import ZArith Lia.
From S2P Require Import Prelude LocalRWLock.

Local Open Scope Z_scope.

Record RWLock := mkRWLock { rw_readers : Z }.

Definition RWLock_new : RWLock := mkRWLock 0.

Definition RWLock_get_lock_status (l : RWLock) : LockStatus :=
  if rw_readers l =? 0 then Unlocked
  else if 0 <? rw_readers l then ReadLocked (rw_readers l)
  else WriteLocked.

(** [compare_exchange(e, v)] on the integer. *)
Definition rw_cas (l : RWLock) (e v : Z) : RWLock * bool :=
  if rw_readers l =? e then (mkRWLock v, true) else (l, false).

Definition RWLock_try_write (l : RWLock) : RWLock * option () :=
  let '(l, was_swapped) := rw_cas l 0 (-1) in
  if negb was_swapped then (l, None) else (l, Some ()).

(** The two accesses of a round of [try_read]: the load, which says what to
    compare with or that a writer has the lock, and the exchange. *)
Definition RWLock_try_read_load (l : RWLock) : option Z :=
  if 0 <=? rw_readers l then Some (rw_readers l) else None.

Definition RWLock_try_read_cas (l : RWLock) (n : Z) : RWLock * bool := rw_cas l n (n + 1).

Definition RWLock_read_unlock (p : profile) (l : RWLock) : outcome RWLock :=
  debug_assert p (negb (rw_readers l =? 0));;
  debug_assert p (0 <? rw_readers l);;
  Val (mkRWLock (rw_readers l - 1)).

Definition RWLock_write_unlock (p : profile) (l : RWLock) : outcome RWLock :=
  debug_assert p (negb (rw_readers l =? 0));;
  debug_assert p (rw_readers l <? 0);;
  Val (mkRWLock 0).

Definition RWLock_get_read_locked (p : profile) (l : RWLock) : outcome () :=
  debug_assert p (negb (rw_readers l =? 0));;
  debug_assert p (0 <? rw_readers l).

Definition RWLock_get_write_locked (p : profile) (l : RWLock) : outcome () :=
  debug_assert p (negb (rw_readers l =? 0));;
  debug_assert p (rw_readers l <? 0).

(** [reading]: what the threads between the two accesses of [try_read] have
    loaded. [read] and [write] repeat the attempts and yield in between. *)
Record Sys := mkSys {
  lock : RWLock;
  reading : list Z;
  read_guards : nat;
  write_guards : nat;
}.

Definition init : Sys := mkSys RWLock_new [] 0 0.

Inductive step (p : profile) : Sys → Sys → Prop :=
| step_try_write s l' r :
    RWLock_try_write (lock s) = (l', r) →
    step p s (mkSys l' (reading s) (read_guards s)
                (match r with Some _ => S (write_guards s) | None => write_guards s end))
| step_read_load s n :
    RWLock_try_read_load (lock s) = Some n →
    step p s (mkSys (lock s) (n :: reading s) (read_guards s) (write_guards s))
| step_read_cas s l1 l2 n l' ok :
    reading s = l1 ++ n :: l2 → RWLock_try_read_cas (lock s) n = (l', ok) →
    step p s (mkSys l' (l1 ++ l2) (if ok then S (read_guards s) else read_guards s)
                (write_guards s))
| step_read_unlock s n l' :
    read_guards s = S n → RWLock_read_unlock p (lock s) = Val l' →
    step p s (mkSys l' (reading s) n (write_guards s))
| step_write_unlock s n l' :
    write_guards s = S n → RWLock_write_unlock p (lock s) = Val l' →
    step p s (mkSys l' (reading s) (read_guards s) n).

(** The integer counts the guards, and what was loaded was not a writer's mark. *)
Record Inv (s : Sys) : Prop := {
  inv_guards :
    (rw_readers (lock s) = -1 ∧ read_guards s = 0%nat ∧ write_guards s = 1%nat) ∨
    (rw_readers (lock s) = Z.of_nat (read_guards s) ∧ write_guards s = 0%nat);
  inv_reading : Forall (λ n, 0 ≤ n) (reading s);
}.

Lemma srw_inv_init : Inv init.
Proof. split; [by right|constructor]. Qed.

Lemma srw_inv_step p s s' : Inv s → step p s s' → Inv s'.
Proof.
  intros [Hg Hl] Hs. destruct Hs as [s l' r Hw|s n Hr|s l1 l2 n l' ok Hr Hc|s n l' Hn Hu|s n l' Hn Hu].
  - unfold RWLock_try_write, rw_cas in Hw. destruct (Z.eqb_spec (rw_readers (lock s)) 0);
      simplify_eq/=; split; simpl; try done; lia.
  - unfold RWLock_try_read_load in Hr. destruct (Z.leb_spec 0 (rw_readers (lock s))); simplify_eq.
    split; [done|]. by constructor.
  - rewrite Hr, Forall_app, Forall_cons in Hl. destruct Hl as (Hl1 & Hn & Hl2).
    unfold RWLock_try_read_cas, rw_cas in Hc. destruct (Z.eqb_spec (rw_readers (lock s)) n);
      simplify_eq/=; (split; simpl; [lia|by apply Forall_app]).
  - unfold RWLock_read_unlock in Hu. outcome_inv. split; simpl; [lia|done].
  - unfold RWLock_write_unlock in Hu. outcome_inv. split; simpl; [lia|done].
Qed.

Lemma srw_inv_reachable p s : rtc (step p) init s → Inv s.
Proof. apply (rtc_invariant (step p) Inv); [|apply srw_inv_init]. intros. by eapply srw_inv_step. Qed.

(** ** Theorem *)

(** C16: exclusion under all interleavings of the single accesses: at most one
    write guard, and no read guard beside it; the status that
    [get_lock_status] reports is the number of guards; and dropping a live
    guard fails no debug assertion. *)
Theorem shared_rw_lock_exclusion (p : profile) (s : Sys) :
  rtc (step p) init s →
  (write_guards s ≤ 1)%nat ∧ (write_guards s = 1%nat → read_guards s = 0%nat) ∧
  (match RWLock_get_lock_status (lock s) with
   | Unlocked => read_guards s = 0%nat ∧ write_guards s = 0%nat
   | ReadLocked n => Z.of_nat (read_guards s) = n ∧ write_guards s = 0%nat
   | WriteLocked => write_guards s = 1%nat
   end) ∧
  (read_guards s ≠ 0%nat → ∃ l', RWLock_read_unlock p (lock s) = Val l') ∧
  (write_guards s ≠ 0%nat → ∃ l', RWLock_write_unlock p (lock s) = Val l').
Proof.
  intros Hr. apply srw_inv_reachable in Hr as [Hg _]. split_and!; [lia|lia| | |].
  - unfold RWLock_get_lock_status. destruct (Z.eqb_spec (rw_readers (lock s)) 0); [lia|].
    destruct (Z.ltb_spec 0 (rw_readers (lock s))); lia.
  - intros Hn. unfold RWLock_read_unlock. rewrite (proj2 (Z.eqb_neq _ _)) by lia.
    rewrite (proj2 (Z.ltb_lt _ _)) by lia. rewrite !debug_assert_true. by eexists.
  - intros Hn. unfold RWLock_write_unlock. rewrite (proj2 (Z.eqb_neq _ _)) by lia.
    rewrite (proj2 (Z.ltb_lt _ _)) by lia. rewrite !debug_assert_true. by eexists.
Qed.

Lemma shared_rw_lock_exclusion_witness :
  ∃ s, rtc (step Debug) init s ∧ read_guards s = 1%nat ∧ reading s = [0] ∧
    ∃ l', RWLock_read_unlock Debug (lock s) = Val l'.
Proof.
  exists (mkSys (mkRWLock 1) [0] 1 0).
  assert (rtc (step Debug) init (mkSys (mkRWLock 1) [0] 1 0)) as Hr.
  { eapply rtc_l; [by apply step_read_load|]. eapply rtc_l; [by apply step_read_load|].
    eapply rtc_l; [by eapply (step_read_cas _ _ [] [0] 0)|]. apply rtc_refl. }
  split; [exact Hr|]. split; [reflexivity|]. split; [reflexivity|].
  apply (shared_rw_lock_exclusion Debug _ Hr). discriminate.
Defined.
