(* ===== verification/TaskVec.v ===== *)
(** * [Vec<Task>] with its capacity and its draining iterator

    The task lists of [src/src/utils/task_structures_pool.rs] are vectors; most
    users only push and pop, and the other files model them as lists. A
    [drain(..)] whose loop runs tasks is different: the vector is empty from
    the start, its buffer still holds the tasks to come, and a task that runs
    in the loop may push to the vector or make it grow. So here a vector is
    its buffer: [buffer] names the allocation, [cells] are its contents, and
    an iterator into a buffer that was replaced reads freed memory. *)

From Stdlib Require Import ZArith Lia.
From S2P Require Import Prelude Task.

Record TaskVec := mkTaskVec {
  buffer : nat;
  cells : list (option Task);   (** [capacity()] many *)
  len : nat;
}.

Definition tv_capacity (v : TaskVec) : nat := length (cells v).

(** [Vec::with_capacity(2)], what a pool without a spare vector creates. *)
Definition TaskVec_new : TaskVec := mkTaskVec 0 (replicate 2 None) 0.

(** [reserve]: the standard library at least doubles a buffer that is too small. *)
Definition tv_reserve (additional : nat) (v : TaskVec) : TaskVec :=
  let required := len v + additional in
  if decide (required ≤ tv_capacity v) then v else
  let cap := (4 `max` (2 * tv_capacity v)) `max` required in
  mkTaskVec (S (buffer v)) (take (len v) (cells v) ++ replicate (cap - len v) None) (len v).

Definition tv_push (t : Task) (v : TaskVec) : TaskVec :=
  let v := tv_reserve 1 v in
  mkTaskVec (buffer v) (<[len v := Some t]> (cells v)) (S (len v)).

(** The tasks of the vector. *)
Definition tv_list (v : TaskVec) : list Task := omap id (take (len v) (cells v)).

(** [drain(..)]: the vector is emptied, the iterator keeps the range. *)
Record Drain := mkDrain { d_buffer : nat; d_pos : nat; d_end : nat }.

Definition tv_drain (v : TaskVec) : TaskVec * Drain :=
  (mkTaskVec (buffer v) (cells v) 0, mkDrain (buffer v) 0 (len v)).

Definition tv_drain_next (d : Drain) (v : TaskVec) : outcome (option (Task * Drain)) :=
  if (d_pos d =? d_end d)%nat then Val None
  else if (d_buffer d =? buffer v)%nat then
    cell ← unchecked (cells v !! d_pos d);
    t ← unchecked cell;
    Val (Some (t, mkDrain (d_buffer d) (S (d_pos d)) (d_end d)))
  else Undefined.

(** ** Vectors that hold what their length says *)
Record tv_ok (v : TaskVec) : Prop := {
  tv_ok_len : len v ≤ tv_capacity v;
  tv_ok_cells : ∀ i, i < len v → ∃ t, cells v !! i = Some (Some t);
}.

Lemma tv_ok_new : tv_ok TaskVec_new.
Proof. split; simpl; [unfold tv_capacity; simpl; lia|lia]. Qed.

Lemma tv_cells_list v : tv_ok v → take (len v) (cells v) = Some <$> tv_list v.
Proof.
  intros [Hlen Hok]. unfold tv_list, tv_capacity in *.
  assert (∀ l : list (option Task), (∀ i, i < length l → ∃ t, l !! i = Some (Some t)) →
    l = Some <$> omap id l) as Hl.
  { induction l as [|o l IH]; intros Hl; [done|]. destruct (Hl 0) as [t Ht]; simpl; [lia|].
    simpl in Ht. simplify_eq. csimpl. f_equal. apply IH. intros i Hi.
    apply (Hl (S i)). simpl. lia. }
  apply Hl. intros i Hi. rewrite length_take in Hi.
  destruct (Hok i) as [t Ht]; [lia|]. exists t. by rewrite lookup_take_lt by lia.
Qed.

Lemma tv_list_length v : tv_ok v → length (tv_list v) = len v.
Proof.
  intros Hok. rewrite <-(length_fmap Some), <-tv_cells_list, length_take by done.
  destruct Hok. unfold tv_capacity in *. lia.
Qed.

Lemma tv_list_lookup v i :
  tv_ok v → i < len v → ∃ t, tv_list v !! i = Some t ∧ cells v !! i = Some (Some t).
Proof.
  intros Hok Hi. destruct (tv_ok_cells _ Hok i Hi) as [t Ht]. exists t. split; [|done].
  assert ((Some <$> tv_list v) !! i = Some (Some t)) as Hl.
  { rewrite <-tv_cells_list by done. by rewrite lookup_take_lt by lia. }
  rewrite list_lookup_fmap in Hl. destruct (tv_list v !! i); by simplify_eq/=.
Qed.

Lemma tv_reserve_ok n v :
  tv_ok v → tv_ok (tv_reserve n v) ∧ len (tv_reserve n v) = len v ∧
  tv_list (tv_reserve n v) = tv_list v ∧ len v + n ≤ tv_capacity (tv_reserve n v).
Proof.
  intros Hok. pose proof (tv_ok_len _ Hok) as Hlen. unfold tv_reserve.
  destruct (decide _) as [|Hn]; [done|]. unfold tv_list, tv_capacity in *. simpl.
  split_and!; [|done| |].
  - split; unfold tv_capacity; simpl.
    + rewrite length_app, length_take, length_replicate. lia.
    + intros i Hi. rewrite lookup_app_l by (rewrite length_take; lia).
      rewrite lookup_take_lt by lia. by apply (tv_ok_cells _ Hok).
  - f_equal. rewrite take_app_le by (rewrite length_take; lia). by rewrite take_take, Nat.min_id.
  - rewrite length_app, length_take, length_replicate. lia.
Qed.

Lemma tv_push_ok t v : tv_ok v → tv_ok (tv_push t v) ∧ tv_list (tv_push t v) = tv_list v ++ [t].
Proof.
  intros Hok. destruct (tv_reserve_ok 1 v Hok) as (Hok' & Hl & Hlist & Hcap).
  unfold tv_push. rewrite <-Hlist, <-Hl in *. set (w := tv_reserve 1 v) in *. clearbody w.
  unfold tv_capacity in *. split.
  - split; unfold tv_capacity; simpl; [rewrite length_insert; lia|].
    intros i Hi. destruct (decide (i = len w)) as [->|].
    + exists t. apply list_lookup_insert_eq. lia.
    + rewrite list_lookup_insert_ne by done. apply (tv_ok_cells _ Hok'). lia.
  - unfold tv_list. simpl.
    rewrite (take_S_r _ _ (Some t)) by (apply list_lookup_insert_eq; lia).
    rewrite take_insert_ge by lia. by rewrite omap_app.
Qed.

(** ** A drain that nothing disturbs *)
Fixpoint tv_drain_all (fuel : nat) (d : Drain) (v : TaskVec) : outcome (list Task) :=
  match fuel with
  | O => Val []
  | S fuel =>
      o ← tv_drain_next d v;
      match o with
      | Some (t, d) => l ← tv_drain_all fuel d v; Val (t :: l)
      | None => Val []
      end
  end.

Lemma tv_drain_next_ok v i :
  tv_ok v → i < len v →
  ∃ t, tv_list v !! i = Some t ∧
    tv_drain_next (mkDrain (buffer v) i (len v)) (tv_drain v).1 =
      Val (Some (t, mkDrain (buffer v) (S i) (len v))).
Proof.
  intros Hok Hi. destruct (tv_list_lookup v i Hok Hi) as (t & Ht & Hc). exists t.
  split; [done|]. unfold tv_drain_next. simpl. rewrite (proj2 (Nat.eqb_neq i (len v))) by lia.
  rewrite Nat.eqb_refl, Hc. done.
Qed.

(** The tasks come out in order, and the vector is left empty. *)
Lemma tv_drain_all_ok v fuel :
  tv_ok v → len v < fuel →
  tv_drain_all fuel (tv_drain v).2 (tv_drain v).1 = Val (tv_list v) ∧ tv_list (tv_drain v).1 = [].
Proof.
  intros Hok Hf. split; [|done].
  assert (∀ n i, i + n = len v → n < fuel →
    tv_drain_all fuel (mkDrain (buffer v) i (len v)) (tv_drain v).1 = Val (drop i (tv_list v))) as Hgen.
  { clear Hf. revert fuel. intros fuel n. revert fuel.
    induction n as [|n IH]; intros fuel i Hi Hf; (destruct fuel as [|fuel]; [lia|]); simpl.
    - unfold tv_drain_next. simpl. rewrite (proj2 (Nat.eqb_eq i (len v))) by lia. simpl.
      rewrite drop_ge; [done|]. rewrite tv_list_length by done. lia.
    - destruct (tv_drain_next_ok v i Hok) as (t & Ht & Hn); [lia|].
      simpl in Hn. rewrite Hn. simpl. rewrite IH by lia. simpl. by rewrite (drop_S _ t i). }
  specialize (Hgen (len v) 0 ltac:(lia) Hf). rewrite drop_0 in Hgen. exact Hgen.
Qed.
