(* ===== verification/LocalWaitGroup.v ===== *)
(** * The local wait group

    Models [src/src/sync/wait_groups/local.rs]. [done] that reaches 0 drains
    the waiting tasks and runs them one by one; a task it runs may use the
    group again before the loop goes on, so the loop is [done_begin] followed
    by turns, and [done] is the loop that nothing disturbs. *)

From Stdlib Require Import ZArith Lia.
From S2P Require Import Prelude Task TaskVec.

Local Open Scope Z_scope.

Record LocalWaitGroup := mkLocalWaitGroup {
  count : Z;
  waited_tasks : TaskVec;
}.

Definition LocalWaitGroup_new : LocalWaitGroup := mkLocalWaitGroup 0 TaskVec_new.

Definition add (p : profile) (n : Z) (g : LocalWaitGroup) : outcome LocalWaitGroup :=
  c ← usize_add p (count g) n;
  let v := waited_tasks g in
  Val (mkLocalWaitGroup c
    (if Z.of_nat (tv_capacity v) <? c then tv_reserve (Z.to_nat c) v else v)).

(** [WaitLocalWaitGroup::poll]; a woken task polls it again. *)
Definition WaitLocalWaitGroup_poll (cx : Task) (g : LocalWaitGroup) : LocalWaitGroup * Poll () :=
  if negb (count g =? 0) then
    (mkLocalWaitGroup (count g) (tv_push cx (waited_tasks g)), Pending)
  else (g, Ready ()).

(** [done] up to its loop. *)
Definition done_begin (p : profile) (g : LocalWaitGroup)
    : outcome (LocalWaitGroup * option Drain) :=
  c ← usize_sub p (count g) 1;
  if c =? 0 then
    let '(v, d) := tv_drain (waited_tasks g) in Val (mkLocalWaitGroup c v, Some d)
  else Val (mkLocalWaitGroup c (waited_tasks g), None).

(** A turn: the next task to run, with the rest of the loop. *)
Definition done_turn (d : Drain) (g : LocalWaitGroup) : outcome (option (Task * Drain)) :=
  tv_drain_next d (waited_tasks g).

(** [done] when the tasks it runs leave the group alone, with the tasks that
    were run. *)
Definition done (p : profile) (g : LocalWaitGroup) : outcome (LocalWaitGroup * list Task * Z) :=
  '(g', od) ← done_begin p g;
  woken ← match od with
          | Some d => tv_drain_all (S (len (waited_tasks g))) d (waited_tasks g')
          | None => Val []
          end;
  Val (g', woken, count g').

(** ** The group without disturbance *)
Record Inv (g : LocalWaitGroup) : Prop := {
  inv_count : in_usize (count g);
  inv_tasks : tv_ok (waited_tasks g);
  inv_waiting : count g = 0 → tv_list (waited_tasks g) = [];
}.

Inductive step (p : profile) : LocalWaitGroup → LocalWaitGroup → Prop :=
| step_add n g g' : in_usize n → count g + n < usize_modulus → add p n g = Val g' → step p g g'
| step_wait t g g' r : WaitLocalWaitGroup_poll t g = (g', r) → step p g g'
| step_done g g' l n : 1 ≤ count g → done p g = Val (g', l, n) → step p g g'.

Lemma add_ok p n g :
  Inv g → in_usize n → count g + n < usize_modulus →
  ∃ g', add p n g = Val g' ∧ Inv g' ∧ count g' = count g + n ∧
    tv_list (waited_tasks g') = tv_list (waited_tasks g).
Proof.
  intros [Hc Ht Hw] Hn Hlt. unfold add. rewrite usize_add_Val by done. simpl.
  eexists. split; [done|].
  set (v := if _ <? _ then _ else _).
  assert (tv_ok v ∧ tv_list v = tv_list (waited_tasks g)) as [Hv Hl].
  { unfold v. destruct (_ <? _); [|done].
    by destruct (tv_reserve_ok (Z.to_nat (count g + n)) _ Ht) as (? & _ & ? & _). }
  split_and!; [split; simpl| |]; try done.
  - unfold in_usize in *. lia.
  - intros Hz. rewrite Hl. apply Hw. unfold in_usize in *. lia.
Qed.

Lemma done_ok p g :
  Inv g → 1 ≤ count g →
  ∃ g', done p g = Val (g', (if count g =? 1 then tv_list (waited_tasks g) else []), count g - 1) ∧
    Inv g' ∧ count g' = count g - 1 ∧
    tv_list (waited_tasks g') = (if count g =? 1 then [] else tv_list (waited_tasks g)).
Proof.
  intros [Hc Ht Hw] H1. unfold done, done_begin. rewrite usize_sub_Val by done. simpl.
  destruct (Z.eqb_spec (count g) 1) as [H|H]; simpl.
  - rewrite H. simpl.
    destruct (tv_drain_all_ok _ (S (len (waited_tasks g))) Ht) as [Hd Hl]; [lia|].
    simpl in Hd. rewrite Hd. simpl. eexists. split; [done|]. split_and!; try done.
    split; simpl; [done| |done].
    destruct Ht as [Hlen _]. split; simpl; [unfold tv_capacity; simpl; lia|lia].
  - rewrite (proj2 (Z.eqb_neq _ _)) by lia. simpl. eexists. split; [done|].
    split_and!; try done. split; simpl; [unfold in_usize in *; lia|done|lia].
Qed.

Lemma wait_ok t g :
  Inv g → Inv (WaitLocalWaitGroup_poll t g).1 ∧
    (count g ≠ 0 → tv_list (waited_tasks (WaitLocalWaitGroup_poll t g).1) =
      tv_list (waited_tasks g) ++ [t]).
Proof.
  intros [Hc Ht Hw]. unfold WaitLocalWaitGroup_poll.
  destruct (Z.eqb_spec (count g) 0) as [Hz|Hz]; simpl; [by split|].
  destruct (tv_push_ok t _ Ht) as [Ht' Hl]. split; [|done]. by split.
Qed.

Lemma lwg_inv_step p g g' : Inv g → step p g g' → Inv g'.
Proof.
  intros HI Hs. destruct Hs as [n g g' Hn Hlt Ha|t g g' r Hw|g g' l n H1 Hd].
  - destruct (add_ok p n g HI Hn Hlt) as (g2 & Ha2 & HI' & _). rewrite Ha in Ha2. by simplify_eq.
  - destruct (wait_ok t g HI) as [HI' _]. by rewrite Hw in HI'.
  - destruct (done_ok p g HI H1) as (g2 & Hd2 & HI' & _). rewrite Hd in Hd2. by simplify_eq.
Qed.

Lemma lwg_inv_reachable p g : rtc (step p) LocalWaitGroup_new g → Inv g.
Proof.
  apply (rtc_invariant (step p) Inv); [intros; by eapply lwg_inv_step|].
  split; [done|apply tv_ok_new|done].
Qed.

(** ** Theorems *)

(** When the tasks it runs leave the group alone, [done] counts down and
    returns the new count; the one that reaches 0 runs every waiting task
    once, in the order they came, and leaves none behind. Nobody waits for a
    group whose count is 0. *)
Theorem local_wait_group_done (p : profile) (g : LocalWaitGroup) :
  rtc (step p) LocalWaitGroup_new g → 1 ≤ count g →
  ∃ g', count g' = count g - 1 ∧
    (count g = 1 → done p g = Val (g', tv_list (waited_tasks g), 0) ∧
       tv_list (waited_tasks g') = []) ∧
    (count g ≠ 1 → done p g = Val (g', [], count g - 1) ∧
       tv_list (waited_tasks g') = tv_list (waited_tasks g)) ∧
    (count g' = 0 → tv_list (waited_tasks g') = []).
Proof.
  intros Hr H1. apply lwg_inv_reachable in Hr.
  destruct (done_ok p g Hr H1) as (g' & Hd & HI & Hc & Hl). exists g'.
  split; [done|]. destruct (Z.eqb_spec (count g) 1) as [H|H].
  - rewrite H in *. split_and!; [by intros _|done|by intros _].
  - split_and!; [done|by intros _|]. intros Hz. by apply (inv_waiting _ HI).
Qed.

(** A task that [done] runs and that adds more work than the vector has room
    for makes it grow; the loop of [done] then reads the next waiting task
    from the freed buffer. *)
Theorem local_wait_group_reentrant_add (p : profile) (g : LocalWaitGroup) (n : Z) :
  tv_ok (waited_tasks g) → (2 ≤ len (waited_tasks g))%nat → count g = 1 →
  Z.of_nat (tv_capacity (waited_tasks g)) < n < usize_modulus →
  ∃ g1 d t d' g2,
    done_begin p g = Val (g1, Some d) ∧ done_turn d g1 = Val (Some (t, d')) ∧
    add p n g1 = Val g2 ∧ done_turn d' g2 = Undefined.
Proof.
  intros Hok Hl Hc Hn. unfold done_begin. rewrite Hc, usize_sub_Val by lia. simpl.
  destruct (tv_drain_next_ok _ 0 Hok) as (t & _ & Ht); [lia|].
  eexists _, _, t, _, _. split; [done|]. unfold done_turn. simpl. split; [exact Ht|].
  unfold add. simpl. rewrite usize_add_Val by lia. simpl. split; [done|].
  unfold tv_capacity in *. simpl. rewrite (proj2 (Z.ltb_lt _ _)) by lia.
  unfold tv_reserve, tv_drain_next, tv_capacity. cbn [cells len].
  destruct (decide _) as [Hd|_]; [lia|].
  cbn [d_pos d_end d_buffer buffer]. rewrite (proj2 (Nat.eqb_neq _ (len (waited_tasks g)))) by lia.
  by rewrite (proj2 (Nat.eqb_neq _ _)) by lia.
Qed.

(** The first of three waiting tasks adds work, and two more tasks come to
    wait while the loop of [done] is under way: their entries overwrite those
    the loop has not read. The second task [b] is never run, and [e] is run
    although the group is not done. *)
Theorem local_wait_group_reentrant_wait (a b c d e : Task) :
  let wait t g := (WaitLocalWaitGroup_poll t g).1 in
  ∃ g0 g1 d0 d1 g2 d2 d3,
    add Release 1 LocalWaitGroup_new = Val g0 ∧
    done_begin Release (wait c (wait b (wait a g0))) = Val (g1, Some d0) ∧
    done_turn d0 g1 = Val (Some (a, d1)) ∧
    add Release 1 g1 = Val g2 ∧
    (let g3 := wait e (wait d g2) in
     done_turn d1 g3 = Val (Some (e, d2)) ∧ done_turn d2 g3 = Val (Some (c, d3)) ∧
     done_turn d3 g3 = Val None ∧ tv_list (waited_tasks g3) = [d; e] ∧ count g3 = 1).
Proof. repeat eexists. Qed.

(** ** Witnesses *)
Definition ex_two_waiting : LocalWaitGroup :=
  mkLocalWaitGroup 1 (mkTaskVec 0 [Some (ex_task 1); Some (ex_task 2)] 2).

Lemma ex_two_waiting_reachable p : rtc (step p) LocalWaitGroup_new ex_two_waiting.
Proof.
  eapply rtc_l; [by apply (step_add _ 1)|]. eapply rtc_l; [by eapply (step_wait _ (ex_task 1))|].
  eapply rtc_l; [by eapply (step_wait _ (ex_task 2))|]. apply rtc_refl.
Qed.

Lemma local_wait_group_done_witness :
  ∃ g', done Debug ex_two_waiting = Val (g', [ex_task 1; ex_task 2], 0).
Proof.
  destruct (local_wait_group_done Debug ex_two_waiting (ex_two_waiting_reachable Debug))
    as (g' & _ & Hd & _); [simpl; lia|].
  exists g'. apply Hd. reflexivity.
Defined.

Lemma local_wait_group_reentrant_add_witness :
  ∃ g1 d t d' g2,
    done_begin Release ex_two_waiting = Val (g1, Some d) ∧ done_turn d g1 = Val (Some (t, d')) ∧
    add Release 3 g1 = Val g2 ∧ done_turn d' g2 = Undefined.
Proof.
  apply (local_wait_group_reentrant_add Release ex_two_waiting 3).
  - split; [vm_compute; lia|]. intros [|[|i]] Hi; simpl in *; [eexists; reflexivity..|lia].
  - simpl. lia.
  - reflexivity.
  - vm_compute. split; reflexivity.
Defined.
