(* ===== verification/WaitGroup.v ===== *)
(** * The shared wait group

    Models [src/src/sync/wait_groups/shared.rs] and the executor's handling of
    [Call::PushCurrentTaskToAndRemoveItIfCounterIsZero]. A waiter is pushed to
    the list first and looks at the counter afterwards; the [done] that brings
    the counter to 0 takes the whole list. Each access to the counter or to
    the list is a step of its own. *)

From Stdlib Require Import ZArith Lia.
From S2P Require Import Prelude Task.

Local Open Scope Z_scope.

(** [add]: [fetch_add]; the count stays below [usize::MAX]. *)
Definition WaitGroup_add (counter n : Z) : Z := usize_wrap (counter + n).

(** [done] up to its loop: [fetch_sub] and the check of the previous value;
    [true]: the list is to be taken. *)
Definition WaitGroup_done (p : profile) (counter : Z) : Z * outcome bool :=
  (usize_wrap (counter - 1),
   debug_assert p (0 <? counter);; Val (counter =? 1)).

(** [WaitSharedWaitGroup::poll]; [list] and [counter] are addresses. *)
Definition WaitSharedWaitGroup_poll (p : profile) (list counter : Z) (cx : Task) (was_called : bool)
    : outcome (bool * Poll () * Call) :=
  panic_if_local_in_future p cx;;
  if negb was_called then
    Val (true, Pending, PushCurrentTaskToAndRemoveItIfCounterIsZero list counter)
  else Val (was_called, Ready (), Call_None).

Record Sys := mkSys {
  counter : Z;
  waited_tasks : list Task;
  pushed : list Task;      (** everything ever pushed *)
  woken : list Task;       (** everything handed to an executor *)
  checking : nat;          (** waiters about to look at the counter *)
  popping : nat;           (** waiters that saw 0 and are about to pop *)
  taking : nat;            (** [done] calls about to take the list *)
}.

Definition init : Sys := mkSys 0 [] [] [] 0 0 0.

Inductive step (p : profile) : Sys → Sys → Prop :=
| step_add s n :
    0 ≤ n → counter s + n < usize_modulus →
    step p s (mkSys (WaitGroup_add (counter s) n) (waited_tasks s) (pushed s) (woken s)
                (checking s) (popping s) (taking s))
| step_done s c' b :
    0 < counter s → WaitGroup_done p (counter s) = (c', Val b) →
    step p s (mkSys c' (waited_tasks s) (pushed s) (woken s) (checking s) (popping s)
                (if b then S (taking s) else taking s))
| step_take s n q tasks :
    taking s = S n → SyncTaskList_pop_all_in (waited_tasks s) [] = (q, tasks) →
    step p s (mkSys (counter s) q (pushed s) (woken s ++ tasks) (checking s) (popping s) n)
(** The executor, after the first poll of a waiter returned [Pending]. *)
| step_push s t q :
    SyncTaskList_push p (waited_tasks s) t = Val q →
    step p s (mkSys (counter s) q (pushed s ++ [t]) (woken s) (S (checking s)) (popping s)
                (taking s))
| step_check s n :
    checking s = S n →
    step p s (mkSys (counter s) (waited_tasks s) (pushed s) (woken s) n
                (if counter s =? 0 then S (popping s) else popping s) (taking s))
| step_pop s n q o :
    popping s = S n → SyncTaskList_pop (waited_tasks s) = (o, q) →
    step p s (mkSys (counter s) q (pushed s) (woken s ++ option_list o) (checking s) n (taking s)).

(** While the counter is 0, every task in the list is about to be woken: by a
    [done] that takes them all, or by one waiter each. *)
Record Inv (s : Sys) : Prop := {
  inv_range : in_usize (counter s);
  inv_zero : counter s = 0 → (0 < taking s)%nat ∨
    (length (waited_tasks s) ≤ checking s + popping s)%nat;
  inv_tasks : pushed s ≡ₚ woken s ++ waited_tasks s;
}.

Lemma wg_inv_init : Inv init.
Proof. split; simpl; [done|right; lia|done]. Qed.

Lemma wg_inv_step p s s' : Inv s → step p s s' → Inv s'.
Proof.
  intros [Hr Hz Hp] Hs.
  destruct Hs as [s n Hn Hlt|s c' b Hc Hd|s n q tasks Ht Hq|s t q Hq|s n Hc|s n q o Hn Hq].
  - unfold WaitGroup_add, usize_wrap, in_usize in *. rewrite Z.mod_small by lia.
    split; simpl; [unfold in_usize; lia| |done]. intros. apply Hz. lia.
  - unfold WaitGroup_done in Hd. injection Hd as <- Hb. outcome_inv.
    unfold usize_wrap, in_usize in *. rewrite Z.mod_small by lia.
    split; simpl; [unfold in_usize; lia| |done].
    intros H0. rewrite (proj2 (Z.eqb_eq _ _)) by lia. left. lia.
  - unfold SyncTaskList_pop_all_in in Hq. simplify_eq/=. split; simpl; [done|right; lia|].
    by rewrite app_nil_r.
  - unfold SyncTaskList_push in Hq. outcome_inv. unfold push_back. split; simpl; [done| |].
    + intros H0. destruct (Hz H0); [by left|right]. rewrite length_app. simpl. lia.
    + by rewrite app_assoc, Hp.
  - split; simpl; [done| |done]. intros H0. rewrite H0. simpl.
    destruct (Hz H0); [by left|right; lia].
  - unfold SyncTaskList_pop in Hq. destruct (pop_back _) as [[t q']|] eqn:Hpop; simplify_eq/=.
    + apply pop_back_Some in Hpop. split; simpl; [done| |].
      * intros H0. destruct (Hz H0) as [?|Hl]; [by left|right].
        rewrite Hpop, length_app in Hl. simpl in Hl. lia.
      * rewrite Hp, Hpop, <-app_assoc. simpl. f_equiv. apply Permutation_app_comm.
    + apply pop_back_None in Hpop. rewrite Hpop in *. split; simpl; [done|right; lia|].
      by rewrite app_nil_r.
Qed.

Lemma wg_inv_reachable p s : rtc (step p) init s → Inv s.
Proof. apply (rtc_invariant (step p) Inv); [|apply wg_inv_init]. intros. by eapply wg_inv_step. Qed.

(** ** Theorem *)

(** C20: no lost wake-up: whatever the interleaving of [add], [done] and [wait],
    every task that came to wait is either woken, once, or still in the list;
    and when the counter is 0 and no operation is under way the list is
    empty, so all of them were woken. *)
Theorem wait_group_no_lost_wakeup (p : profile) (s : Sys) :
  rtc (step p) init s →
  pushed s ≡ₚ woken s ++ waited_tasks s ∧
  (counter s = 0 → taking s = 0%nat → checking s = 0%nat → popping s = 0%nat →
    waited_tasks s = [] ∧ woken s ≡ₚ pushed s).
Proof.
  intros Hr. apply wg_inv_reachable in Hr as [_ Hz Hp]. split; [done|].
  intros H0 Ht Hc Hpo. assert (waited_tasks s = []) as Hnil.
  { destruct (Hz H0) as [?|Hl]; [lia|]. apply length_zero_iff_nil. lia. }
  split; [done|]. by rewrite Hp, Hnil, app_nil_r.
Qed.

(** A task waits, the last [done] wakes it. *)
Lemma ex_done (t : Task) : Task_is_local t = false →
  ∃ s, rtc (step Release) init s ∧ pushed s = [t] ∧ counter s = 0 ∧
    taking s = 0%nat ∧ checking s = 0%nat ∧ popping s = 0%nat.
Proof.
  intros Ht. eexists. split.
  { run_step (step_add _ _ 1). run_step (step_push _ _ t). run_step (step_check _ _ 0).
    run_step (step_done _ _). run_step (step_take _ _ 0). apply rtc_refl. }
  by split_and!.
Qed.

Lemma wait_group_no_lost_wakeup_witness :
  ∃ s, rtc (step Release) init s ∧ waited_tasks s = [] ∧ woken s ≡ₚ [ex_shared_task 1].
Proof.
  destruct (ex_done (ex_shared_task 1)) as (s & Hr & Hp & H0 & Ht & Hc & Hpo); [reflexivity|].
  exists s. split; [exact Hr|]. rewrite <-Hp.
  apply (wait_group_no_lost_wakeup Release s Hr); assumption.
Defined.
