(* ===== verification/Once.v ===== *)
(** * Once

    Models [src/src/sync/onces/]: [state.rs], [local.rs] and [shared.rs].
    [call_once] runs its future after it has marked the cell, and other calls
    may come and go while that future is pending; [call_once_sync] runs its
    function at once. *)

From Stdlib Require Import ZArith Lia.
From S2P Require Import Prelude.

Local Open Scope Z_scope.

(** ** [state.rs] *)
Inductive OnceState := NotCalled | Called.

Global Instance OnceState_eq_dec : EqDecision OnceState.
Proof. solve_decision. Defined.

Definition OnceState_not_called : Z := 0.
Definition OnceState_called : Z := 1.

Definition OnceState_into_isize (s : OnceState) : Z :=
  match s with NotCalled => 0 | Called => 1 end.

Definition OnceState_try_from (v : Z) : option OnceState :=
  if v =? 0 then Some NotCalled else if v =? 1 then Some Called else None.

Inductive CallOnceResult := WasCalled | WasAlreadyCompleted.

Global Instance CallOnceResult_eq_dec : EqDecision CallOnceResult.
Proof. solve_decision. Defined.

(** ** [LocalOnce] *)
Definition LocalOnce_new : OnceState := NotCalled.
Definition LocalOnce_is_completed (s : OnceState) : bool := bool_decide (s = Called).

(** [call_once], [call_once_sync] up to the run of [f]; [true]: [f] is run. *)
Definition LocalOnce_call_once (s : OnceState) : OnceState * bool :=
  if LocalOnce_is_completed s then (s, false) else (Called, true).

(** ** [Once]: the state is an atomic integer, the call one exchange. *)
Definition Once_new : Z := OnceState_not_called.

Definition Once_call_once (s : Z) : Z * bool :=
  if s =? OnceState_into_isize NotCalled then (OnceState_into_isize Called, true)
  else (s, false).

(** [state]: [expect] in debug builds, [unwrap_unchecked] in the others. *)
Definition Once_state (p : profile) (s : Z) : outcome OnceState :=
  match p with
  | Debug => expect (OnceState_try_from s)
  | Release => unchecked (OnceState_try_from s)
  end.

(** ** What both cells promise *)
Class OnceCell (S : Type) := {
  once_new : S;
  once_call : S → S * bool;
  once_state : profile → S → outcome OnceState;
}.

Class OnceCellLaws (S : Type) `{OnceCell S} := {
  once_valid : S → Prop;
  once_new_valid : once_valid once_new;
  once_new_state p : once_state p once_new = Val NotCalled;
  once_call_spec s : once_valid s →
    once_valid (once_call s).1 ∧
    ∃ st, (∀ p, once_state p s = Val st) ∧ (∀ p, once_state p (once_call s).1 = Val Called) ∧
      (once_call s).2 = bool_decide (st = NotCalled);
}.

Global Instance LocalOnce_cell : OnceCell OnceState := {|
  once_new := LocalOnce_new; once_call := LocalOnce_call_once; once_state := λ _ s, Val s |}.

Global Instance LocalOnce_laws : OnceCellLaws OnceState.
Proof.
  refine {| once_valid := λ _, True |}; try done.
  intros [] _; (split; [done|]); by eexists.
Qed.

Global Instance Once_cell : OnceCell Z := {|
  once_new := Once_new; once_call := Once_call_once; once_state := Once_state |}.

Global Instance Once_laws : OnceCellLaws Z.
Proof.
  refine {| once_valid := λ s, s = 0 ∨ s = 1 |}; [by left|by intros []|].
  intros s [->| ->]; (split; [by right|]); eexists; split_and!; by try intros [].
Qed.

(** ** Callers *)
Section once.
Context {S : Type} `{OnceCellLaws S}.

(** [started]: how often [f] was run; [pending]: runs that have not ended;
    [results]: what the calls returned. *)
Record Sys := mkSys {
  cell : S;
  started : nat;
  pending : nat;
  results : list CallOnceResult;
}.

Definition init : Sys := mkSys once_new 0 0 [].

Inductive step : Sys → Sys → Prop :=
| step_call s c' b :
    once_call (cell s) = (c', b) →
    step s (if b : bool then mkSys c' (started s + 1) (pending s + 1) (results s)
            else mkSys c' (started s) (pending s) (results s ++ [WasAlreadyCompleted]))
| step_finish s n :
    pending s = (1 + n)%nat →
    step s (mkSys (cell s) (started s) n (results s ++ [WasCalled])).

Definition called_results (l : list CallOnceResult) : nat :=
  length (filter (λ r, r = WasCalled) l).

Record Inv (s : Sys) : Prop := {
  inv_valid : once_valid (cell s);
  inv_state : ∃ st, (∀ p, once_state p (cell s) = Val st) ∧
    started s = match st with Called => 1%nat | NotCalled => 0%nat end;
  inv_results : (called_results (results s) + pending s)%nat = started s;
  inv_already : WasAlreadyCompleted ∈ results s → started s = 1%nat;
}.

Lemma called_results_snoc l r :
  called_results (l ++ [r]) =
    (called_results l + match r with WasCalled => 1 | _ => 0 end)%nat.
Proof.
  unfold called_results. rewrite filter_app, length_app. f_equal. by destruct r.
Qed.

Lemma once_inv_init : Inv init.
Proof.
  split; simpl; [apply once_new_valid| |done|by intros ?%elem_of_nil].
  exists NotCalled. split; [|done]. intros p. apply once_new_state.
Qed.

Lemma once_inv_step s s' : Inv s → step s s' → Inv s'.
Proof.
  intros [Hv (st & Hst & Hn) Hr Ha] Hs. destruct Hs as [s c' b Hc|s n Hn'].
  - destruct (once_call_spec _ Hv) as (Hv' & st' & Hst' & Hcalled & Hb).
    rewrite Hc in *. simpl in *.
    assert (st' = st) as -> by (specialize (Hst Debug); specialize (Hst' Debug); congruence).
    subst b. destruct st; simpl.
    + split; simpl; [done| |lia|intros Hin; apply Ha in Hin; lia].
      exists Called. split; [done|lia].
    + split; simpl; [done| | |done].
      * by exists Called.
      * rewrite called_results_snoc. lia.
  - split; simpl; [done|by exists st| |].
    + rewrite called_results_snoc. lia.
    + intros [Hin|Hin]%elem_of_app; [by apply Ha|]. by apply list_elem_of_singleton in Hin.
Qed.

Lemma once_inv_reachable s : rtc step init s → Inv s.
Proof. apply (rtc_invariant step Inv); [|apply once_inv_init]. intros. by eapply once_inv_step. Qed.

(** The function is run at most once, and it is run as soon as anybody calls;
    exactly its caller is told [Called], and the state tells whether it was
    started. *)
Lemma once_at_most_once s :
  rtc step init s →
  (started s ≤ 1)%nat ∧ (called_results (results s) + pending s)%nat = started s ∧
  (results s ≠ [] → started s = 1%nat) ∧
  ∀ p, once_state p (cell s) = Val (if (started s =? 0)%nat then NotCalled else Called).
Proof.
  intros Hr. apply once_inv_reachable in Hr as [_ (st & Hst & Hn) Hr Ha].
  split_and!; [destruct st; lia|done| |].
  - intros Hne. destruct (results s) as [|r l] eqn:Hres; [done|]. destruct r.
    + unfold called_results in Hr. simpl in Hr. destruct st; lia.
    + apply Ha. by left.
  - intros p. rewrite Hst, Hn. by destruct st.
Qed.

End once.

Arguments Sys : clear implicits.

(** ** Theorems *)

(** [LocalOnce] runs at most one of the functions it is given, and exactly one
    once it is called, however the calls overlap with the run. *)
Theorem local_once (s : Sys OnceState) :
  rtc step init s →
  (started s ≤ 1)%nat ∧ (called_results (results s) + pending s)%nat = started s ∧
  (results s ≠ [] → started s = 1%nat) ∧
  cell s = (if (started s =? 0)%nat then NotCalled else Called).
Proof.
  intros Hr. destruct (once_at_most_once s Hr) as (H1 & H2 & H3 & H4).
  split_and!; try done. specialize (H4 Debug). by injection H4.
Qed.

(** [Once] promises the same, and the conversion in [state] never fails. *)
Theorem shared_once (s : Sys Z) :
  rtc step init s →
  (started s ≤ 1)%nat ∧ (called_results (results s) + pending s)%nat = started s ∧
  (results s ≠ [] → started s = 1%nat) ∧
  ∀ p, Once_state p (cell s) = Val (if (started s =? 0)%nat then NotCalled else Called).
Proof. intros Hr. exact (once_at_most_once s Hr). Qed.

(** ** Witnesses: a second call comes while the first is still running. *)
Lemma local_once_witness :
  ∃ s : Sys OnceState, rtc step init s ∧ pending s = 1%nat ∧
    results s = [WasAlreadyCompleted] ∧ cell s = Called.
Proof.
  exists (mkSys Called 1 1 [WasAlreadyCompleted]).
  assert (rtc step (init (S:=OnceState)) (mkSys Called 1 1 [WasAlreadyCompleted])) as Hr.
  { eapply rtc_l; [by apply (step_call _ Called true)|].
    eapply rtc_l; [by apply (step_call _ Called false)|]. apply rtc_refl. }
  split; [exact Hr|]. split; [reflexivity|]. split; [reflexivity|].
  apply (local_once _ Hr).
Defined.

Lemma shared_once_witness :
  ∃ s : Sys Z, rtc step init s ∧ pending s = 1%nat ∧
    results s = [WasAlreadyCompleted] ∧ Once_state Debug (cell s) = Val Called.
Proof.
  exists (mkSys 1 1 1 [WasAlreadyCompleted]).
  assert (rtc step (init (S:=Z)) (mkSys 1 1 1 [WasAlreadyCompleted])) as Hr.
  { eapply rtc_l; [by apply (step_call _ 1 true)|].
    eapply rtc_l; [by apply (step_call _ 1 false)|]. apply rtc_refl. }
  split; [exact Hr|]. split; [reflexivity|]. split; [reflexivity|].
  apply (shared_once _ Hr).
Defined.
