(* ===== verification/LocalCondVar.v ===== *)
(** * The local condition variable

    Models [src/src/sync/cond_vars/local.rs] on top of the local mutex. [wait]
    drops the guard it is given when it is called; the task gets into the
    queue of the condition variable when the future is first polled. *)

From Stdlib Require Import ZArith Lia.
From S2P Require Import Prelude Task LocalMutex.

Inductive WaitState := Sleep | Wake | Lock.

(** [WaitLocalCondVar::poll] on the mutex and the queue. *)
Definition WaitLocalCondVar_poll (p : profile) (cx : Task) (state : WaitState)
    (m : LocalMutex) (q : list Task)
    : outcome (LocalMutex * list Task * WaitState * Poll ()) :=
  match state with
  | Sleep => Val (m, push_back q cx, Wake, Pending)
  | Wake =>
      let '(m', guard) := LocalMutex_try_lock m in
      match guard with
      | Some _ => Val (m', q, Wake, Ready ())
      | None => Val (LocalMutex_low_level_subscribe cx m', q, Lock, Pending)
      end
  | Lock => LocalMutex_get_locked p m;; Val (m, q, Lock, Ready ())
  end.

(** The call of [wait]: a future in state [Sleep]; the guard is dropped. *)
Definition LocalCondVar_wait (p : profile) (m : LocalMutex)
    : outcome (LocalMutex * option Task * WaitState) :=
  '(m, next) ← LocalMutex_unlock p m;
  Val (m, next, Sleep).

Definition LocalCondVar_notify_one (q : list Task) : list Task * option Task :=
  match pop_back q with
  | Some (task, q) => (q, Some task)
  | None => (q, None)
  end.

(** [notify_all]: a loop of pops. The tasks it runs may wait again, so the
    loop need not end; this is the loop when they do not. *)
Fixpoint LocalCondVar_notify_all (fuel : nat) (q : list Task) : list Task * list Task :=
  match fuel with
  | O => (q, [])
  | S fuel =>
      match LocalCondVar_notify_one q with
      | (q, Some task) => let '(q, l) := LocalCondVar_notify_all fuel q in (q, task :: l)
      | (q, None) => (q, [])
      end
  end.

(** ** The condition variable with its mutex and its users

    [entering]: tasks that called [wait] and have not been polled since;
    [notified]: tasks handed to the executor and not polled since. *)
Record CvSys := mkCvSys {
  ms : LocalMutex.Sys;
  cv_queue : list Task;
  entering : list Task;
  notified : list Task;
}.

Definition cv_init : CvSys := mkCvSys LocalMutex.init [] [] [].

Inductive cv_step (p : profile) : CvSys → CvSys → Prop :=
| cv_mutex s ms' :
    LocalMutex.step p (ms s) ms' →
    cv_step p s (mkCvSys ms' (cv_queue s) (entering s) (notified s))
| cv_wait s t n m' next st :
    guards (ms s) = S n → LocalCondVar_wait p (mutex (ms s)) = Val (m', next, st) →
    cv_step p s (mkCvSys (mkSys m' n (woken (ms s) ++ option_list next))
                   (cv_queue s) (entering s ++ [t]) (notified s))
| cv_sleep s t l1 l2 m' q' st :
    entering s = l1 ++ t :: l2 →
    WaitLocalCondVar_poll p t Sleep (mutex (ms s)) (cv_queue s) = Val (m', q', st, Pending) →
    cv_step p s (mkCvSys (mkSys m' (guards (ms s)) (woken (ms s))) q' (l1 ++ l2) (notified s))
(** [notify_one], and each turn of [notify_all]. *)
| cv_notify s q' o :
    LocalCondVar_notify_one (cv_queue s) = (q', o) →
    cv_step p s (mkCvSys (ms s) q' (entering s) (notified s ++ option_list o))
| cv_wake s t l1 l2 m' q' st r :
    notified s = l1 ++ t :: l2 →
    WaitLocalCondVar_poll p t Wake (mutex (ms s)) (cv_queue s) = Val (m', q', st, r) →
    cv_step p s (mkCvSys
      (mkSys m' (match r with Ready _ => S (guards (ms s)) | Pending => guards (ms s) end)
         (woken (ms s))) q' (entering s) (l1 ++ l2))
| cv_lock s t l1 l2 m' q' st :
    woken (ms s) = l1 ++ t :: l2 →
    WaitLocalCondVar_poll p t Lock (mutex (ms s)) (cv_queue s) = Val (m', q', st, Ready ()) →
    cv_step p s (mkCvSys (mkSys m' (S (guards (ms s))) (l1 ++ l2))
                   q' (entering s) (notified s)).

(** Every step of the condition variable is, on the mutex, a step of the
    mutex's own users or none at all. *)
Lemma lcv_step_mutex p s s' :
  cv_step p s s' → rtc (LocalMutex.step p) (ms s) (ms s').
Proof.
  intros Hs. destruct Hs as [s ms' Hm|s t n m' next st Hg Hw|s t l1 l2 m' q' st He Hp|s q' o Hq
    |s t l1 l2 m' q' st r Hn Hp|s t l1 l2 m' q' st Hw Hp]; simpl in *.
  - by apply rtc_once.
  - unfold LocalCondVar_wait in Hw. outcome_inv. destruct x as [m next']. outcome_inv.
    apply rtc_once. by eapply step_unlock.
  - outcome_inv. destruct s as [[] ? ? ?]. done.
  - done.
  - destruct (LocalMutex_try_lock (mutex (ms s))) as [m1 [[]|]] eqn:Ht; outcome_inv.
    + apply rtc_once. by apply (step_try_lock _ _ m' (Some ())).
    + unfold LocalMutex_try_lock in Ht. destruct (is_locked (mutex (ms s))) eqn:Hk; simplify_eq/=.
      apply rtc_once. by eapply (step_subscribe _ _ t).
  - outcome_inv. apply rtc_once. eapply (step_woken_subscriber _ _ t l1 l2); [done|].
    unfold WaitLockOfSubscribableMutex_poll. simpl. by rewrite H.
Qed.

Lemma cv_reachable_inv p s : rtc (cv_step p) cv_init s → LocalMutex.Inv (ms s).
Proof.
  apply (rtc_invariant (cv_step p) (λ s, LocalMutex.Inv (ms s))); [|apply LocalMutex.lm_inv_init].
  intros s1 s2 HI Hs. apply lcv_step_mutex in Hs.
  by eapply (rtc_invariant (LocalMutex.step p)); [intros; by eapply LocalMutex.lm_inv_step|..].
Qed.

(** ** Theorems *)

(** Waiting, notifying and re-locking keep the mutex exclusive: at most one
    guard exists in every reachable state, the assertion of a woken waiter
    holds, and a waiter that cannot lock at once subscribes only to a mutex
    whose owner will wake it. *)
Theorem local_cond_var_exclusion (p : profile) (s : CvSys) :
  rtc (cv_step p) cv_init s →
  guards (ms s) + length (woken (ms s)) = (if is_locked (mutex (ms s)) then 1 else 0) ∧
  (wait_queue (mutex (ms s)) ≠ [] → is_locked (mutex (ms s)) = true) ∧
  (∀ t, woken (ms s) ≠ [] →
    WaitLocalCondVar_poll p t Lock (mutex (ms s)) (cv_queue s) =
      Val (mutex (ms s), cv_queue s, Lock, Ready ())).
Proof.
  intros Hr. apply cv_reachable_inv in Hr as [Ho Hw]. split_and!; [done|done|].
  intros t Hn. simpl. unfold LocalMutex_get_locked.
  destruct (is_locked (mutex (ms s))); [by rewrite debug_assert_true|].
  destruct (woken (ms s)); simpl in Ho; [done|lia].
Qed.

(** [notify_all] hands every waiting task to the executor, the latest first,
    and ends after as many turns as tasks wait, plus one. *)
Theorem local_cond_var_notify_all (q : list Task) (fuel : nat) :
  length q < fuel → LocalCondVar_notify_all fuel q = ([], rev q).
Proof.
  revert fuel. induction q as [|t q IH] using rev_ind; intros fuel Hf.
  - by destruct fuel.
  - rewrite length_app in Hf. simpl in Hf. destruct fuel as [|fuel]; [lia|]. simpl.
    unfold LocalCondVar_notify_one. rewrite pop_back_snoc, IH by lia.
    by rewrite rev_app_distr.
Qed.

(** A wake-up is lost. The task [w] holds the mutex, for which [n] waits, and
    calls [wait]: dropping the guard runs [n], which locks, notifies nobody,
    and unlocks, before [w] is in the queue. From then on [w] sleeps, the
    mutex is free, and no notification is pending, although [n] notified
    after [w] had released the mutex. *)
Theorem local_cond_var_lost_wakeup (p : profile) (w n : Task) :
  let s0 := mkCvSys (mkSys (mkLocalMutex true [n]) 1 []) [] [] [] in
  let s1 := mkCvSys (mkSys (mkLocalMutex true []) 0 [n]) [] [w] [] in
  let s2 := mkCvSys (mkSys (mkLocalMutex true []) 1 []) [] [w] [] in
  let s4 := mkCvSys (mkSys (mkLocalMutex false []) 0 []) [] [w] [] in
  let s5 := mkCvSys (mkSys (mkLocalMutex false []) 0 []) [w] [] [] in
  rtc (cv_step p) cv_init s0 ∧
  cv_step p s0 s1 ∧ (* [w] calls [wait] *)
  cv_step p s1 s2 ∧ (* [n] has the guard *)
  LocalCondVar_notify_one (cv_queue s2) = ([], None) ∧ (* [n] notifies *)
  cv_step p s2 s4 ∧ (* [n] unlocks *)
  cv_step p s4 s5. (* [w] falls asleep *)
Proof.
  intros s0 s1 s2 s4 s5. split_and!.
  - eapply rtc_l; [apply cv_mutex; by apply step_lock|].
    eapply rtc_l; [apply cv_mutex; by eapply (step_lock_wait _ _ n)|]. apply rtc_refl.
  - apply (cv_wait p s0 w 0 _ (Some n) Sleep); [done|]. unfold LocalCondVar_wait, LocalMutex_unlock.
    simpl. by rewrite debug_assert_true.
  - apply cv_mutex. by apply (step_woken p (ms s1) n [] [] _ true).
  - done.
  - apply cv_mutex. apply (step_unlock p (ms s2) 0 _ None); [done|]. unfold LocalMutex_unlock.
    simpl. by rewrite debug_assert_true.
  - by apply (cv_sleep p s4 w [] [] _ _ Wake).
Qed.

(** ** Witnesses *)
Lemma local_cond_var_exclusion_witness :
  ∃ s, rtc (cv_step Debug) cv_init s ∧ cv_queue s = [ex_task 1] ∧
    guards (ms s) + length (woken (ms s)) = 0.
Proof.
  assert (∃ s, rtc (cv_step Debug) cv_init s ∧ cv_queue s = [ex_task 1] ∧
    is_locked (mutex (ms s)) = false) as (s & Hr & Hq & Hk).
  { eexists. split.
    - eapply rtc_l; [apply cv_mutex; by apply step_lock|].
      eapply rtc_l; [by eapply (cv_wait _ _ (ex_task 1) 0)|].
      eapply rtc_l; [by eapply (cv_sleep _ _ (ex_task 1) [] [])|]. apply rtc_refl.
    - by split. }
  exists s. split; [exact Hr|]. split; [exact Hq|].
  destruct (local_cond_var_exclusion Debug s Hr) as (Ho & _). rewrite Hk in Ho. exact Ho.
Defined.

Lemma local_cond_var_notify_all_witness :
  LocalCondVar_notify_all 3 [ex_task 1; ex_task 2] = ([], [ex_task 2; ex_task 1]).
Proof. apply (local_cond_var_notify_all [ex_task 1; ex_task 2] 3). simpl. lia. Defined.
