(* ===== verification/CondVar.v ===== *)
(** * The shared condition variable

    Models [src/src/sync/cond_vars/shared.rs] on top of the shared mutex. A
    waiter that was notified tries to lock and, if that fails, subscribes;
    the mutex may be unlocked by another thread in between. *)

From Stdlib Require Import ZArith Lia.
From S2P Require Import Prelude Task SmartMutex LocalCondVar.

Local Open Scope Z_scope.

(** [WaitCondVar::poll]; [queue] is the address of the condition variable's
    list and [c] the mutex's counter. The flag says that the poll goes on to
    subscribe to the mutex. *)
Definition WaitCondVar_poll (p : profile) (queue : Z) (cx : Task) (state : WaitState) (c : Z)
    : outcome (WaitState * Z * Poll () * Call * bool) :=
  panic_if_local_in_future p cx;;
  match state with
  | Sleep => Val (Wake, c, Pending, PushCurrentTaskTo queue, false)
  | Wake =>
      let '(c', ok) := counter_cas c 0 1 in
      if ok : bool then Val (Wake, c', Ready (), Call_None, false)
      else Val (Lock, c', Pending, Call_None, true)
  | Lock => debug_assert p (negb (c =? 0));; Val (Lock, c, Ready (), Call_None, false)
  end.

Definition CondVar_notify_one (q : list Task) : option Task * list Task := SyncTaskList_pop q.

Fixpoint CondVar_notify_all (fuel : nat) (q : list Task) : list Task * list Task :=
  match fuel with
  | O => (q, [])
  | S fuel =>
      match CondVar_notify_one q with
      | (Some task, q) => let '(q, l) := CondVar_notify_all fuel q in (q, task :: l)
      | (None, q) => (q, [])
      end
  end.

(** ** The condition variable with its mutex

    [entering]: tasks whose guard was dropped by [wait] and that are not in
    the list yet; [notified]: spawned and not polled since; [failed]: tasks
    whose [try_lock] failed and that are about to subscribe. *)
Record CvSys := mkCvSys {
  sm : SmartMutex.Sys;
  cv_queue : list Task;
  entering : list Task;
  notified : list Task;
  failed : list Task;
}.

Definition cv_init : CvSys := mkCvSys Mutex_new [] [] [] [].

Inductive cv_step (p : profile) (queue : Z) : CvSys → CvSys → Prop :=
| cv_mutex s sm' :
    SmartMutex.step (sm s) sm' →
    cv_step p queue s (mkCvSys sm' (cv_queue s) (entering s) (notified s) (failed s))
(** [wait] starts to drop its guard. *)
| cv_wait s t l1 l2 :
    owners (sm s) = l1 ++ Guard :: l2 →
    cv_step p queue s (mkCvSys (set_owner l1 (AtCas (expected_count (sm s))) l2 (sm s))
                         (cv_queue s) (entering s ++ [t]) (notified s) (failed s))
| cv_sleep s t l1 l2 c st r q :
    entering s = l1 ++ t :: l2 →
    WaitCondVar_poll p queue t Sleep (counter (sm s)) =
      Val (st, c, r, PushCurrentTaskTo queue, false) →
    SyncTaskList_push p (cv_queue s) t = Val q →
    cv_step p queue s (mkCvSys (sm s) q (l1 ++ l2) (notified s) (failed s))
| cv_notify s o q :
    CondVar_notify_one (cv_queue s) = (o, q) →
    cv_step p queue s (mkCvSys (sm s) q (entering s) (notified s ++ option_list o) (failed s))
| cv_wake s t l1 l2 c st r k b :
    notified s = l1 ++ t :: l2 →
    WaitCondVar_poll p queue t Wake (counter (sm s)) = Val (st, c, r, k, b) →
    cv_step p queue s (mkCvSys
      (if b then sm s else
       mkSys c (expected_count (sm s)) (wait_queue (sm s)) (pushing (sm s)) (subscribing (sm s))
         (owners (sm s) ++ [Guard]) (resetting (sm s)))
      (cv_queue s) (entering s) (l1 ++ l2) (if b then failed s ++ [t] else failed s))
| cv_subscribe s t l1 l2 :
    failed s = l1 ++ t :: l2 →
    cv_step p queue s (mkCvSys
      (mkSys (counter (sm s)) (usize_wrap (expected_count (sm s) - 1)) (wait_queue (sm s))
         (pushing (sm s)) (subscribing (sm s) ++ [t]) (owners (sm s)) (resetting (sm s)))
      (cv_queue s) (entering s) (notified s) (l1 ++ l2)).

(** On the mutex, every step is one of the mutex's own, or none. *)
Lemma cv_step_mutex p queue s s' :
  cv_step p queue s s' → SmartMutex.step (sm s) (sm s') ∨ sm s' = sm s.
Proof.
  intros Hs. destruct Hs as [| |s t l1 l2 c st r q He Hp Hq| |s t l1 l2 c st r k b Hn Hp|];
    simpl; try by right.
  - by left.
  - left. by apply step_unlock.
  - unfold WaitCondVar_poll in Hp. outcome_inv.
    destruct (counter_cas (counter (sm s)) 0 1) as [c' [|]] eqn:Hc; outcome_inv; [|by right].
    left. by apply step_try_lock.
  - left. apply step_subscribe_count.
Qed.

Lemma cv_owned p queue s : rtc (cv_step p queue) cv_init s → owned (sm s).
Proof.
  apply (rtc_invariant (cv_step p queue) (λ s, owned (sm s))); [|done].
  intros s1 s2 HI [Hs| ->]%cv_step_mutex; [|done]. by eapply owned_step.
Qed.

(** ** Theorems *)

(** Waiting, notifying, re-locking and subscribing keep the mutex exclusive,
    in every interleaving; in particular the state a subscribed waiter relies
    on is there when it was handed the mutex. *)
Theorem cond_var_exclusion (p : profile) (queue : Z) (s : CvSys) :
  rtc (cv_step p queue) cv_init s →
  (counter (sm s) = 0 → owners (sm s) = []) ∧
  (counter (sm s) ≠ 0 → ∃ o, owners (sm s) = [o]) ∧
  (∀ t, owners (sm s) = [Woken t] → panic_if_local_in_future p t = Val () →
    WaitCondVar_poll p queue t Lock (counter (sm s)) =
      Val (Lock, counter (sm s), Ready (), Call_None, false)).
Proof.
  intros Hr. destruct (cv_owned _ _ _ Hr) as [_ Ho].
  destruct (Z.eqb_spec (counter (sm s)) 0) as [Hc|Hc]; split_and!; try done.
  - intros _. by destruct (owners (sm s)).
  - intros t Hw. rewrite Hw in Ho. done.
  - intros _. destruct (owners (sm s)) as [|o [|]]; [done|by exists o|]. simpl in Ho. lia.
  - intros t _ Hp. unfold WaitCondVar_poll. rewrite Hp. simpl.
    rewrite (proj2 (Z.eqb_neq _ _)) by done. by rewrite debug_assert_true.
Qed.

(** A notified waiter can sleep on a free mutex: it finds the mutex locked,
    the owner unlocks, and only then does the waiter subscribe. Afterwards
    the mutex is unlocked, nobody owns it or is about to unlock it, and the
    waiter is in its queue; what [unlock] compares the counter with has
    become 0. *)
Theorem cond_var_late_subscription (t : Task) :
  Task_is_local t = false →
  ∃ s, rtc (cv_step Debug 0) cv_init s ∧
    cv_queue s = [] ∧ notified s = [] ∧ failed s = [] ∧ entering s = [] ∧
    counter (sm s) = 0 ∧ expected_count (sm s) = 0 ∧ owners (sm s) = [] ∧
    wait_queue (sm s) = [t] ∧ pushing (sm s) = [] ∧ subscribing (sm s) = [].
Proof.
  intros Ht. eexists. split.
  { (* the waiter goes to sleep *)
    eapply rtc_l; [apply cv_mutex; by apply step_try_lock|]. eval_state.
    eapply rtc_l; [by apply (cv_wait _ _ _ t [] [])|]. eval_state.
    eapply rtc_l; [apply (cv_sleep _ _ _ t [] [] 1 Wake Pending [t]); [done| |]|].
    { unfold WaitCondVar_poll. simpl. by rewrite Ht. }
    { unfold SyncTaskList_push. by rewrite Ht. }
    eval_state.
    eapply rtc_l; [apply cv_mutex; by apply (step_cas_ok _ [] [] 1 0)|]. eval_state.
    eapply rtc_l; [apply cv_mutex; by apply (step_reset _ 0)|]. eval_state.
    (* another task locks and notifies; the waiter finds the mutex taken *)
    eapply rtc_l; [apply cv_mutex; by apply step_try_lock|]. eval_state.
    eapply rtc_l; [by apply (cv_notify _ _ _ (Some t) [])|]. eval_state.
    eapply rtc_l; [apply (cv_wake _ _ _ t [] [] 1 Lock Pending Call_None true); [done|]|].
    { unfold WaitCondVar_poll. simpl. by rewrite Ht. }
    eval_state.
    (* the owner unlocks, then the waiter subscribes *)
    eapply rtc_l; [apply cv_mutex; by apply (step_unlock _ [] [])|]. eval_state.
    eapply rtc_l; [apply cv_mutex; by apply (step_cas_ok _ [] [] 1 0)|]. eval_state.
    eapply rtc_l; [apply cv_mutex; by apply (step_reset _ 0)|]. eval_state.
    eapply rtc_l; [by apply (cv_subscribe _ _ _ t [] [])|]. eval_state.
    eapply rtc_l; [apply cv_mutex; by apply (step_subscribe_push _ t [] [])|]. eval_state.
    apply rtc_refl. }
  by split_and!.
Qed.

(** ** Witnesses *)
Lemma cond_var_exclusion_witness :
  ∃ s, rtc (cv_step Debug 0) cv_init s ∧ counter (sm s) = 1 ∧ ∃ o, owners (sm s) = [o].
Proof.
  exists (mkCvSys (mkSys 1 1 [] [] [] [Guard] 0) [] [] [] []).
  assert (rtc (cv_step Debug 0) cv_init (mkCvSys (mkSys 1 1 [] [] [] [Guard] 0) [] [] [] []))
    as Hr.
  { eapply rtc_l; [apply cv_mutex; by apply step_try_lock|]. apply rtc_refl. }
  split; [exact Hr|]. split; [reflexivity|].
  destruct (cond_var_exclusion Debug 0 _ Hr) as (_ & Ho & _). apply Ho. discriminate.
Defined.

Lemma cond_var_late_subscription_witness :
  Task_is_local (ex_shared_task 1) = false ∧
  ∃ s, rtc (cv_step Debug 0) cv_init s ∧ counter (sm s) = 0 ∧
    wait_queue (sm s) = [ex_shared_task 1].
Proof.
  assert (Task_is_local (ex_shared_task 1) = false) as Ht by reflexivity.
  split; [exact Ht|].
  destruct (cond_var_late_subscription (ex_shared_task 1) Ht)
    as (s & Hr & _ & _ & _ & _ & Hc & _ & _ & Hq & _).
  exists s. split; [exact Hr|]. split; [exact Hc|exact Hq].
Defined.
