(* ===== verification/LocalScope.v ===== *)
(** * The local scope

    Models [src/src/sync/scopes/local.rs] over the local wait group. The scope
    lives in the future of the task that called [local_scope]; the handles of
    the scoped tasks keep a reference to it that no lifetime protects. A step
    is one poll or one turn of the loop of [LocalWaitGroup::done]; during that
    loop no task runs but the ones it wakes. *)

From Stdlib Require Import ZArith Lia.
From S2P Require Import Prelude Task TaskVec LocalWaitGroup.

Local Open Scope Z_scope.

(** How a scoped task starts: at once, or from the queue of the executor. *)
Inductive Launch := LaunchExec (l : Locality) | LaunchSpawn (l : Locality).

Definition LocalScope_exec (p : profile) (wg : LocalWaitGroup) : outcome (LocalWaitGroup * Launch) :=
  wg ← add p 1 wg; Val (wg, LaunchExec Locality_local).

Definition LocalScope_spawn (p : profile) (wg : LocalWaitGroup) : outcome (LocalWaitGroup * Launch) :=
  wg ← add p 1 wg; Val (wg, LaunchSpawn Locality_local).

(** [LocalScopedHandle::poll], given what the inner future returned; the loop
    of [done] is left to its turns. *)
Definition LocalScopedHandle_poll (p : profile) (fut : Poll ()) (wg : LocalWaitGroup)
    : outcome (LocalWaitGroup * option Drain * Poll ()) :=
  match fut with
  | Pending => Val (wg, None, Pending)
  | Ready _ => '(wg, od) ← done_begin p wg; Val (wg, od, Ready ())
  end.

(** Where the future of [local_scope] stopped. *)
Inductive ScopeFuture := InBody | InWait | InYield | Returned.

#[global] Instance ScopeFuture_eq_dec : EqDecision ScopeFuture.
Proof. solve_decision. Defined.

(** The code from [static_scope.wg.wait().await] on. *)
Definition local_scope_wait (cx : Task) (wg : LocalWaitGroup)
    : LocalWaitGroup * ScopeFuture * Poll () :=
  match WaitLocalWaitGroup_poll cx wg with
  | (wg, Pending) => (wg, InWait, Pending)
  | (wg, Ready _) => (wg, InYield, Pending)
  end.

(** A poll of the future of [local_scope]; [f] is what the poll of the user's
    future returns. The first poll of [yield_now] queues the task. *)
Definition local_scope_poll (cx : Task) (f : Poll ()) (st : ScopeFuture) (wg : LocalWaitGroup)
    : LocalWaitGroup * ScopeFuture * Poll () :=
  match st with
  | InBody => match f with
              | Pending => (wg, InBody, Pending)
              | Ready _ => local_scope_wait cx wg
              end
  | InWait => local_scope_wait cx wg
  | InYield | Returned => (wg, Returned, Ready ())
  end.

(** ** The scope and its handles *)
Record Scope := mkScope {
  wg : LocalWaitGroup;
  owner : ScopeFuture;
  woken : bool;               (** the owner was taken from the wait group and not polled since *)
  live : nat;                 (** handles whose future has not finished *)
  draining : option Drain;    (** the loop of [done] under way *)
}.

Definition init : Scope := mkScope LocalWaitGroup_new InBody false 0 None.

Section scope.
Context (p : profile) (cx : Task).

Inductive step : Scope → Scope → Prop :=
(** [exec] and [spawn], by the user's future or by a scoped task. *)
| step_exec s g l :
    draining s = None → (owner s = InBody ∨ 0 < live s)%nat →
    count (wg s) + 1 < usize_modulus →
    (LocalScope_exec p (wg s) = Val (g, l) ∨ LocalScope_spawn p (wg s) = Val (g, l)) →
    step s (mkScope g (owner s) (woken s) (S (live s)) None)
| step_handle s n g od :
    draining s = None → live s = S n →
    LocalScopedHandle_poll p (Ready ()) (wg s) = Val (g, od, Ready ()) →
    step s (mkScope g (owner s) (woken s) n od)
(** The loop of [done] executes a task, or is over. *)
| step_turn s d t d' :
    draining s = Some d → done_turn d (wg s) = Val (Some (t, d')) →
    step s (mkScope (wg s) (owner s) true (live s) (Some d'))
| step_turn_end s d :
    draining s = Some d → done_turn d (wg s) = Val None →
    step s (mkScope (wg s) (owner s) (woken s) (live s) None)
(** The owner is polled: from the loop of the executor, or by [done] right
    after it took the owner from the wait group. *)
| step_owner s f g st r :
    (draining s = None ∨ woken s = true) → (owner s = InWait → woken s = true) →
    owner s ≠ Returned →
    local_scope_poll cx f (owner s) (wg s) = (g, st, r) →
    step s (mkScope g st false (live s) (draining s)).

(** What the loop of [done] has left is the owner, once. *)
Definition drain_inv (s : Scope) (d : Drain) : Prop :=
  live s = 0%nat ∧ owner s ≠ Returned ∧
  d_buffer d = buffer (waited_tasks (wg s)) ∧
  (d_pos d = d_end d ∧ (owner s = InWait → woken s = true) ∨
   S (d_pos d) = d_end d ∧ owner s = InWait ∧ woken s = false ∧
     cells (waited_tasks (wg s)) !! d_pos d = Some (Some cx)).

Record Inv (s : Scope) : Prop := {
  inv_wg : LocalWaitGroup.Inv (wg s);
  inv_live : count (wg s) = Z.of_nat (live s);
  inv_wait : owner s = InWait → woken s = false → draining s = None →
    (0 < live s)%nat ∧ tv_list (waited_tasks (wg s)) = [cx];
  inv_free : owner s ≠ InWait ∨ woken s = true → tv_list (waited_tasks (wg s)) = [];
  inv_woken : woken s = true → owner s = InWait ∧ live s = 0%nat;
  inv_done : owner s = InYield ∨ owner s = Returned → live s = 0%nat;
  inv_drain : ∀ d, draining s = Some d → drain_inv s d;
}.

Lemma ls_inv_init : Inv init.
Proof.
  split; simpl; try done; [split; [done|apply tv_ok_new|done]].
Qed.

Lemma tv_list_singleton v t :
  tv_ok v → tv_list v = [t] → len v = 1%nat ∧ cells v !! 0%nat = Some (Some t).
Proof.
  intros Hok Hl. pose proof (tv_list_length v Hok) as Hn. rewrite Hl in Hn. simpl in Hn.
  split; [done|]. destruct (tv_list_lookup v 0 Hok) as (t' & Ht & Hc); [lia|].
  rewrite Hl in Ht. simpl in Ht. by simplify_eq.
Qed.

Lemma tv_list_empty v : tv_ok v → tv_list v = [] → len v = 0%nat.
Proof. intros Hok Hl. rewrite <-tv_list_length by done. by rewrite Hl. Qed.

Lemma ls_exec_inv s g :
  Inv s → draining s = None → (owner s = InBody ∨ 0 < live s)%nat →
  count (wg s) + 1 < usize_modulus → add p 1 (wg s) = Val g →
  Inv (mkScope g (owner s) (woken s) (S (live s)) None).
Proof.
  intros [Hwg Hl Hw Hf Hk Hd _] Hdr Hg Hlt Ha.
  destruct (add_ok p 1 (wg s) Hwg) as (g' & Ha' & HI & Hc & Ht); [done|done|].
  rewrite Ha in Ha'. simplify_eq. split; simpl; try done.
  - lia.
  - intros Ho Hwk _. destruct (Hw Ho Hwk Hdr). by rewrite Ht; split; [lia|].
  - intros H. rewrite Ht. by apply Hf.
  - intros Hwk. destruct (Hk Hwk), Hg; [congruence|lia].
  - intros [Ho|Ho]; (destruct Hg; [congruence|]); [specialize (Hd (or_introl Ho))|
      specialize (Hd (or_intror Ho))]; lia.
Qed.

(** The loop of [done] starts with the owner to wake, if it waits. *)
Lemma ls_drain_inv s :
  Inv s → draining s = None → live s = 1%nat →
  drain_inv (mkScope (mkLocalWaitGroup 0 (tv_drain (waited_tasks (wg s))).1) (owner s) (woken s) 0
    (Some (tv_drain (waited_tasks (wg s))).2)) (tv_drain (waited_tasks (wg s))).2.
Proof.
  intros [[Hc Ht Hz] Hl Hw Hf Hk Hd _] Hdr Hn. unfold drain_inv. simpl.
  split_and!; [done| |done|].
  - intros Ho. specialize (Hd (or_intror Ho)). lia.
  - destruct (decide (owner s = InWait)) as [Ho|Ho].
    + destruct (woken s) eqn:Hwk; [destruct Hk; [done|lia]|].
      destruct (Hw Ho eq_refl Hdr) as [_ Hcx]. apply tv_list_singleton in Hcx as [? ?]; [|done].
      right. split_and!; [lia|done..].
    + left. split; [|done]. symmetry. apply tv_list_empty; auto.
Qed.

Lemma ls_done_begin s n :
  Inv s → draining s = None → live s = S n →
  ∃ g od, done_begin p (wg s) = Val (g, od) ∧ Inv (mkScope g (owner s) (woken s) n od).
Proof.
  intros HI Hdr Hn. pose proof HI as [[Hc Ht Hz] Hl Hw Hf Hk Hd _].
  unfold done_begin. rewrite usize_sub_Val by (done || lia). simpl.
  assert (woken s = false) as Hwk.
  { destruct (woken s); [|done]. destruct Hk; [done|lia]. }
  assert (owner s = InYield ∨ owner s = Returned → False) as Hr by (intros Ho; apply Hd in Ho; lia).
  destruct (Z.eqb_spec (count (wg s) - 1) 0) as [H0|H0]; do 2 eexists; (split; [done|]).
  - assert (n = 0)%nat as -> by lia. rewrite H0. split; simpl; try done; [| |].
    + split; simpl; [done| |done].
      destruct Ht as [Hlen _]. split; simpl; [unfold tv_capacity; simpl; lia|lia].
    + by rewrite Hwk.
    + intros ? [= <-]. by apply ls_drain_inv.
  - split; simpl; try done.
    + split; simpl; [unfold in_usize in *; lia|done|lia].
    + lia.
    + intros Ho _ _. destruct (Hw Ho Hwk Hdr). split; [lia|done].
    + by rewrite Hwk.
Qed.

Lemma ls_turn s d :
  Inv s → draining s = Some d →
  (d_pos d = d_end d ∧ done_turn d (wg s) = Val None) ∨
  (owner s = InWait ∧ woken s = false ∧ S (d_pos d) = d_end d ∧
   done_turn d (wg s) = Val (Some (cx, mkDrain (d_buffer d) (S (d_pos d)) (d_end d)))).
Proof.
  intros HI Hd. destruct (inv_drain _ HI d Hd) as (_ & _ & Hb & Hcase).
  unfold done_turn, tv_drain_next. destruct Hcase as [[He _]|(He & Ho & Hw & Hc)].
  - left. by rewrite He, Nat.eqb_refl.
  - right. rewrite (proj2 (Nat.eqb_neq _ _)) by lia. rewrite Hb, Nat.eqb_refl, Hc. by split_and!.
Qed.

Lemma ls_wait_inv s g st r :
  Inv s → (draining s = None ∨ woken s = true) → owner s = InBody ∨ owner s = InWait ∧ woken s = true →
  local_scope_wait cx (wg s) = (g, st, r) → Inv (mkScope g st false (live s) (draining s)).
Proof.
  intros HI Hrun Ho Hp. pose proof HI as [Hwg Hl Hw Hf Hk Hd Hdr].
  assert (tv_list (waited_tasks (wg s)) = []) as Hnil.
  { apply Hf. destruct Ho as [->|[_ ?]]; [by left|by right]. }
  unfold local_scope_wait, WaitLocalWaitGroup_poll in Hp.
  destruct (Z.eqb_spec (count (wg s)) 0) as [H0|H0]; simplify_eq/=.
  - split; simpl; try done; [lia|]. intros d Hds. destruct (Hdr d Hds) as (? & _ & ? & Hc).
    destruct Hrun as [|Hwk]; [congruence|]. unfold drain_inv. simpl. split_and!; [done..|].
    destruct Hc as [[? _]|(_ & _ & ? & _)]; [by left|congruence].
  - assert (woken s = false) as Hwk.
    { destruct (woken s); [|done]. destruct Hk; [done|lia]. }
    destruct Hrun as [Hnone|]; [|congruence]. destruct (tv_push_ok cx _ (LocalWaitGroup.inv_tasks _ Hwg)) as [Hok Hpl].
    rewrite Hnil in Hpl. split; simpl; try done.
    + destruct Hwg. by split.
    + intros _ _ _. split; [lia|done].
    + by intros [|].
    + by intros [|].
    + congruence.
Qed.

Lemma ls_owner_inv s f g st r :
  Inv s → (draining s = None ∨ woken s = true) → (owner s = InWait → woken s = true) →
  owner s ≠ Returned → local_scope_poll cx f (owner s) (wg s) = (g, st, r) →
  Inv (mkScope g st false (live s) (draining s)).
Proof.
  intros HI Hrun Hwk Hret Hp. unfold local_scope_poll in Hp.
  assert (owner s ≠ InWait → woken s = false ∧ draining s = None) as Hn.
  { intros Ho. destruct (woken s) eqn:E; [by destruct (inv_woken _ HI E)|].
    split; [done|]. by destruct Hrun. }
  destruct (owner s) eqn:Ho; [|eapply ls_wait_inv; eauto| |done].
  - destruct f; [eapply ls_wait_inv; eauto|]. simplify_eq. destruct Hn as [Hf Hd]; [done|].
    destruct HI. rewrite <-Ho, <-Hf. by split.
  - simplify_eq. destruct Hn as [Hf Hd]; [done|]. destruct HI as [? ? ? Hfr ? Hdo ?].
    split; simpl; try done.
    + intros _. apply Hfr. left. congruence.
    + intros _. apply Hdo. by left.
    + congruence.
Qed.

Lemma ls_inv_step s s' : Inv s → step s s' → Inv s'.
Proof.
  intros HI Hs. destruct Hs as [s g l Hd Ho Hlt He|s n g od Hd Hn Hp|s d t d' Hd Ht|s d Hd Ht|
    s f g st r Hrun Hwk Hret Hp].
  - eapply ls_exec_inv; [done..|]. unfold LocalScope_exec, LocalScope_spawn in He.
    by destruct He; outcome_inv.
  - destruct (ls_done_begin s n HI Hd Hn) as (g' & od' & Hb & HI').
    unfold LocalScopedHandle_poll in Hp. rewrite Hb in Hp. simpl in Hp. by simplify_eq.
  - destruct (ls_turn s d HI Hd) as [[_ Hn]|(Ho & Hw & He & Hn)]; rewrite Ht in Hn; simplify_eq.
    destruct (inv_drain _ HI d Hd) as (Hl & Hr & Hb & Hc). pose proof HI as [Hg ? ? ? ? ? ?].
    split; simpl; try done.
    + intros _. apply (LocalWaitGroup.inv_waiting _ Hg). lia.
    + intros ? [= <-]. split_and!; simpl; try done. by left.
  - destruct (ls_turn s d HI Hd) as [[He _]|(_ & _ & _ & Hn)]; [|congruence].
    destruct (inv_drain _ HI d Hd) as (Hl & Hr & Hb & Hc). destruct HI. split; simpl; try done.
    intros Ho Hw. exfalso. destruct Hc as [[_ Hc]|(? & _)]; [|lia]. apply Hc in Ho. congruence.
  - by eapply ls_owner_inv.
Qed.

Lemma ls_inv_reachable s : rtc step init s → Inv s.
Proof. apply (rtc_invariant step Inv); [apply ls_inv_step|apply ls_inv_init]. Qed.

End scope.

(** ** Theorem *)

(** C18: the future of [local_scope] returns only after every scoped future has
    finished and no [done] is using the wait group inside the scope any more,
    so no reference to the scope outlives it. Until then a finishing handle
    never underflows the counter, the loop of [done] never reads outside of
    the vector, and an owner that waits is waited for: a handle is still
    alive, or the loop under way has it as its next task. *)
Theorem local_scope_joins (p : profile) (cx : Task) (s : Scope) :
  rtc (step p cx) init s →
  (owner s = Returned → live s = 0%nat ∧ draining s = None) ∧
  (∀ n, draining s = None → live s = S n →
    ∃ g od, LocalScopedHandle_poll p (Ready ()) (wg s) = Val (g, od, Ready ())) ∧
  (∀ d, draining s = Some d → ∃ o, done_turn d (wg s) = Val o) ∧
  (owner s = InWait → woken s = false → (0 < live s)%nat ∨
    ∃ d d', draining s = Some d ∧ done_turn d (wg s) = Val (Some (cx, d'))).
Proof.
  intros Hr. apply ls_inv_reachable in Hr as HI. split_and!.
  - intros Ho. split; [apply (inv_done _ _ HI); by right|].
    destruct (draining s) as [d|] eqn:Hd; [|done]. by destruct (inv_drain _ _ HI d Hd) as (_ & ? & _).
  - intros n Hd Hn. destruct (ls_done_begin p cx s n HI Hd Hn) as (g & od & Hb & _).
    exists g, od. unfold LocalScopedHandle_poll. by rewrite Hb.
  - intros d Hd. destruct (ls_turn cx s d HI Hd) as [[_ ->]|(_ & _ & _ & ->)]; eauto.
  - intros Ho Hw. destruct (draining s) as [d|] eqn:Hd.
    + right. destruct (inv_drain _ _ HI d Hd) as (_ & _ & _ & [[_ Hc]|(He & _)]).
      * apply Hc in Ho. congruence.
      * destruct (ls_turn cx s d HI Hd) as [[? _]|(_ & _ & _ & Hn)]; [lia|]. eauto.
    + left. by destruct (inv_wait _ _ HI Ho Hw Hd).
Qed.

Tactic Notation "scope_step" uconstr(H) :=
  eapply rtc_l; [eapply H; vm_compute; first
    [reflexivity | intros; discriminate | by left | left; reflexivity | right; reflexivity]|]; eval_state.

(** The body spawns two tasks and ends; the second of them to finish wakes the
    owner from inside its [done], and the owner returns in a later poll. *)
Lemma ex_local_scope (cx : Task) : ∃ s, rtc (step Debug cx) init s ∧ owner s = Returned.
Proof.
  eexists. split.
  { scope_step (step_exec Debug cx). scope_step (step_exec Debug cx).
    scope_step (step_owner Debug cx _ (Ready ())).
    scope_step (step_handle Debug cx). scope_step (step_handle Debug cx).
    scope_step (step_turn Debug cx). scope_step (step_owner Debug cx _ Pending).
    scope_step (step_turn_end Debug cx). scope_step (step_owner Debug cx _ Pending). apply rtc_refl. }
  done.
Qed.

Lemma local_scope_joins_witness :
  ∃ s, rtc (step Debug (ex_task 1)) init s ∧ owner s = Returned ∧ live s = 0%nat.
Proof.
  destruct (ex_local_scope (ex_task 1)) as (s & Hr & Ho). exists s. split_and!; [done..|].
  by apply (local_scope_joins Debug (ex_task 1) s Hr).
Defined.
