(* ===== verification/SharedScope.v ===== *)
(** * The shared scope

    Models [src/src/sync/scopes/shared.rs] over the shared wait group, whose
    accesses from several executors interleave: [done] counts down and takes
    the waiting list in two steps, and the executor that polled the owner
    pushes it to the list, looks at the counter and takes it back in three. *)

From Stdlib Require Import ZArith Lia.
From S2P Require Import Prelude Task WaitGroup.

Local Open Scope Z_scope.

(** How a scoped task starts: at once, or from the queue of the executor. *)
Inductive Launch := LaunchExec (l : Locality) | LaunchSpawn (l : Locality).

Definition Scope_exec (counter : Z) : Z * Launch :=
  (WaitGroup_add counter 1, LaunchExec Locality_shared).

Definition Scope_spawn (counter : Z) : Z * Launch :=
  (WaitGroup_add counter 1, LaunchSpawn Locality_shared).

(** [ScopedHandle::poll], given what the inner future returned; [true]: the
    waiting list is to be taken. *)
Definition ScopedHandle_poll (p : profile) (cx : Task) (fut : Poll ()) (counter : Z)
    : Z * outcome (bool * Poll ()) :=
  match panic_if_local_in_future p cx, fut with
  | Val _, Pending => (counter, Val (false, Pending))
  | Val _, Ready _ =>
      let '(c, b) := WaitGroup_done p counter in (c, b ← b; Val (b, Ready ()))
  | Panicked, _ => (counter, Panicked)
  | Undefined, _ => (counter, Undefined)
  end.

(** Where the future of [shared_scope] stopped; [InWait] carries the
    [was_called] of the future of [wait]. *)
Inductive ScopeFuture := InBody | InWait (was_called : bool) | InYield | Returned.

(** The code from [scope.wg.wait().await] on. *)
Definition shared_scope_wait (p : profile) (list counter : Z) (cx : Task) (was_called : bool)
    : outcome (ScopeFuture * Poll () * Call) :=
  '(was_called, r, call) ← WaitSharedWaitGroup_poll p list counter cx was_called;
  match r with
  | Pending => Val (InWait was_called, Pending, call)
  | Ready _ => Val (InYield, Pending, call)
  end.

(** A poll of the future of [shared_scope]; [f] is what the poll of the user's
    future returns. The first poll of [yield_now] queues the task. *)
Definition shared_scope_poll (p : profile) (list counter : Z) (cx : Task) (f : Poll ())
    (st : ScopeFuture) : outcome (ScopeFuture * Poll () * Call) :=
  match st with
  | InBody => match f with
              | Pending => Val (InBody, Pending, Call_None)
              | Ready _ => shared_scope_wait p list counter cx false
              end
  | InWait was_called => shared_scope_wait p list counter cx was_called
  | InYield | Returned => Val (Returned, Ready (), Call_None)
  end.

(** ** The scope, its handles and the executors that work on it *)

(** Where the owner's task is: in the hands of an executor or of a queue, with
    the call its executor has to handle, in the waiting list. *)
Inductive Place := Runnable | Calling | Listed.

Record Scope := mkScope {
  counter : Z;
  waited_tasks : list Task;
  owner : ScopeFuture;
  place : Place;
  live : nat;        (** handles whose future has not finished *)
  checking : nat;    (** executors about to look at the counter *)
  popping : nat;     (** executors that saw 0 and are about to pop *)
  taking : nat;      (** [done] calls about to take the list *)
}.

Definition init : Scope := mkScope 0 [] InBody Runnable 0 0 0 0.

Definition is_push_call (c : Call) : bool :=
  match c with PushCurrentTaskToAndRemoveItIfCounterIsZero _ _ => true | _ => false end.

Section scope.
Context (p : profile) (list_addr counter_addr : Z) (cx : Task).

Inductive step : Scope → Scope → Prop :=
| step_exec s c l :
    (owner s = InBody ∧ place s = Runnable ∨ 0 < live s)%nat → counter s + 1 < usize_modulus →
    (Scope_exec (counter s) = (c, l) ∨ Scope_spawn (counter s) = (c, l)) →
    step s (mkScope c (waited_tasks s) (owner s) (place s) (S (live s))
              (checking s) (popping s) (taking s))
| step_handle s n t c b :
    live s = S n → ScopedHandle_poll p t (Ready ()) (counter s) = (c, Val (b, Ready ())) →
    step s (mkScope c (waited_tasks s) (owner s) (place s) n (checking s) (popping s)
              (if b then S (taking s) else taking s))
| step_take s n q tasks :
    taking s = S n → SyncTaskList_pop_all_in (waited_tasks s) [] = (q, tasks) →
    step s (mkScope (counter s) q (owner s) (if tasks is [] then place s else Runnable) (live s)
              (checking s) (popping s) n)
| step_owner s f st r call :
    place s = Runnable → owner s ≠ Returned →
    shared_scope_poll p list_addr counter_addr cx f (owner s) = Val (st, r, call) →
    step s (mkScope (counter s) (waited_tasks s) st (if is_push_call call then Calling else Runnable)
              (live s) (checking s) (popping s) (taking s))
(** The executor handles the call of the owner. *)
| step_push s q :
    place s = Calling → SyncTaskList_push p (waited_tasks s) cx = Val q →
    step s (mkScope (counter s) q (owner s) Listed (live s) (S (checking s)) (popping s) (taking s))
| step_check s n :
    checking s = S n →
    step s (mkScope (counter s) (waited_tasks s) (owner s) (place s) (live s) n
              (if counter s =? 0 then S (popping s) else popping s) (taking s))
| step_pop s n q o :
    popping s = S n → SyncTaskList_pop (waited_tasks s) = (o, q) →
    step s (mkScope (counter s) q (owner s) (if o is Some _ then Runnable else place s) (live s)
              (checking s) n (taking s)).

(** A run in which no task is started while a [done] is between its count down
    to 0 and its taking of the list. *)
Definition calm_step (s s' : Scope) : Prop :=
  step s s' ∧ ((live s < live s')%nat → taking s = 0%nat).

Record Inv (s : Scope) : Prop := {
  inv_live : counter s = Z.of_nat (live s) ∧ in_usize (counter s);
  inv_list : waited_tasks s = (if place s is Listed then [cx] else []);
  inv_place : place s ≠ Runnable → owner s = InWait true;
  inv_zero : place s = Listed → live s = 0%nat → (0 < checking s + popping s + taking s)%nat;
}.

Record CalmInv (s : Scope) : Prop := {
  calm_taking : (0 < taking s)%nat → live s = 0%nat;
  calm_checking : (0 < checking s)%nat → owner s ≠ InBody;
  calm_popping : (0 < popping s)%nat → owner s ≠ InBody ∧ live s = 0%nat;
  calm_woken : place s = Runnable → owner s ≠ InBody → live s = 0%nat;
}.

Lemma ss_handle c n t c' b :
  c = Z.of_nat n + 1 → in_usize c → ScopedHandle_poll p t (Ready ()) c = (c', Val (b, Ready ())) →
  c' = Z.of_nat n ∧ in_usize c' ∧ b = (n =? 0)%nat.
Proof.
  intros Hc Hr Hp. unfold ScopedHandle_poll in Hp.
  destruct (panic_if_local_in_future p t); [|done..]. unfold WaitGroup_done in Hp.
  destruct (debug_assert _ _); cbn in Hp; [|done..]. injection Hp as <- <-. unfold usize_wrap, in_usize in *.
  rewrite Z.mod_small by lia. split_and!; [lia..|].
  destruct (Nat.eqb_spec n 0); [apply Z.eqb_eq; lia|apply Z.eqb_neq; lia].
Qed.

Lemma ss_owner s f st r call :
  Inv s → place s = Runnable → shared_scope_poll p list_addr counter_addr cx f (owner s) = Val (st, r, call) →
  (owner s = InBody ∧ st = InBody ∧ is_push_call call = false) ∨
  (st = InWait true ∧ is_push_call call = true ∧ (owner s = InBody ∨ owner s = InWait false)) ∨
  (st ≠ InBody ∧ owner s ≠ InBody ∧ is_push_call call = false).
Proof.
  intros HI Hpl Hp. unfold shared_scope_poll, shared_scope_wait, WaitSharedWaitGroup_poll in Hp.
  destruct (owner s) as [|[]| |] eqn:Ho; [destruct f| | | |]; simplify_eq/=; auto;
    destruct (panic_if_local_in_future p cx); simplify_eq/=; naive_solver.
Qed.

Lemma ss_inv_step s s' : Inv s → step s s' → Inv s'.
Proof.
  intros HI Hs. pose proof HI as [[Hl Hr] Hq Hp Hz].
  destruct Hs as [s c l Ho Hlt He|s n t c b Hn Hh|s n q tasks Ht Ha|s f st r call Hpl Hnr Hpoll|
    s q Hpl Ha|s n Hc|s n q o Hn Ha].
  - assert (c = counter s + 1) as ->.
    { unfold Scope_exec, Scope_spawn, WaitGroup_add, usize_wrap, in_usize in *.
      destruct He; simplify_eq; rewrite Z.mod_small by lia; done. }
    split; simpl; try done. unfold in_usize in *. lia.
  - apply (ss_handle _ n) in Hh as (-> & ? & ->); [|lia|done]. split; simpl; try done.
    intros ? ->. simpl. lia.
  - unfold SyncTaskList_pop_all_in in Ha. simplify_eq/=. rewrite Hq. 
    destruct (place s) eqn:E; split; simpl; rewrite ?E; try done.
  - pose proof (ss_owner s f st r call HI Hpl Hpoll) as [(_ & -> & ->)|[(-> & -> & _)|(_ & _ & ->)]];
      rewrite Hpl in Hq; by split; simpl.
  - unfold SyncTaskList_push in Ha. outcome_inv. rewrite Hpl in *. unfold push_back.
    rewrite Hq. split; simpl; try done; [by intros _; apply Hp|lia].
  - split; simpl; try done. intros HL H0. specialize (Hz HL H0). rewrite Hl, H0. simpl. lia.
  - unfold SyncTaskList_pop in Ha. rewrite Hq in Ha.
    destruct (place s) eqn:E; simplify_eq/=; split; simpl; rewrite ?E; try done.
Qed.

Lemma ss_calm_step s s' : Inv s → CalmInv s → calm_step s s' → CalmInv s'.
Proof.
  intros HI [Ht Hc Hp Hw] [Hs Hcalm]. pose proof HI as [[Hl Hr] Hq Hpl Hz].
  destruct Hs as [s c l Ho Hlt He|s n t c b Hn Hh|s n q tasks Htk Ha|s f st r call Hrun Hnr Hpoll|
    s q Hcall Ha|s n Hck|s n q o Hn Ha]; simpl in *.
  - assert (taking s = 0%nat) by (apply Hcalm; lia). split; simpl; [lia|done| |].
    + intros Hpo. apply Hp in Hpo as [? ?]. destruct Ho as [[??]|?]; [done|lia].
    + intros Hr' Hb. specialize (Hw Hr' Hb). destruct Ho as [[??]|?]; [done|lia].
  - apply (ss_handle _ n) in Hh as (-> & ? & ->); [|lia|done]. split; simpl; [|done| |].
    + destruct n; simpl; [done|]. intros H1. specialize (Ht H1). lia.
    + intros H1. destruct (Hp H1). lia.
    + intros Hr' Hb. specialize (Hw Hr' Hb). lia.
  - split; simpl; [lia|done..|]. intros. apply Ht. lia.
  - pose proof (ss_owner s f st r call HI Hrun Hpoll)
      as [(Ho & -> & ->)|[(-> & -> & Ho)|(Hb & Hb' & ->)]]; split; simpl; naive_solver.
  - assert (owner s = InWait true) as Ho by (apply Hpl; congruence).
    split; simpl; try done. by rewrite Ho.
  - split; simpl; try done; [intros; apply Hc; lia|].
    intros H1. split; [apply Hc; lia|]. destruct (Z.eqb_spec (counter s) 0); [lia|]. by apply Hp.
  - split; simpl; try done; intros; apply Hp; lia.
Qed.

Lemma ss_inv_reachable s : rtc step init s → Inv s.
Proof. apply (rtc_invariant step Inv); [apply ss_inv_step|by split]. Qed.

Lemma ss_calm_reachable s : rtc calm_step init s → Inv s ∧ CalmInv s.
Proof.
  apply (rtc_invariant calm_step (λ s, Inv s ∧ CalmInv s)).
  - intros a b [HI HC] Hs. split; [by eapply ss_inv_step, Hs|by eapply ss_calm_step].
  - split; split; simpl; try done; lia.
Qed.

End scope.

(** ** Theorems *)

(** C19: whatever the interleaving, the counter of a shared scope is the number of
    scoped futures that have not finished, so a finishing handle never
    underflows it; and an owner in the waiting list is not forgotten: a handle
    is alive, or an executor is about to take it out. When moreover no task is
    started while a [done] is between its count down to 0 and its taking of the
    list, the owner leaves [wait], and [shared_scope] returns, only after every
    scoped future has finished. *)
Theorem shared_scope_joins (p : profile) (la ca : Z) (cx : Task) (s : Scope) :
  (rtc (step p la ca cx) init s →
    counter s = Z.of_nat (live s) ∧
    (place s = Listed → (0 < live s + checking s + popping s + taking s)%nat)) ∧
  (rtc (calm_step p la ca cx) init s → owner s = InYield ∨ owner s = Returned → live s = 0%nat).
Proof.
  split.
  - intros Hr. apply ss_inv_reachable in Hr as [[Hl _] _ _ Hz]. split; [done|].
    intros HL. destruct (live s); [|lia]. specialize (Hz HL eq_refl). lia.
  - intros Hr Ho. apply ss_calm_reachable in Hr as [HI HC]. apply (calm_woken _ HC).
    + destruct (place s) eqn:E; [done|..]; (rewrite (inv_place _ _ HI) in Ho by congruence);
        naive_solver.
    + intros Hb. naive_solver congruence.
Qed.


Tactic Notation "scope_step" uconstr(H) :=
  eapply rtc_l; [eapply H; vm_compute; first
    [reflexivity | intros; discriminate | left; reflexivity | left; split; reflexivity
    | right; reflexivity]|]; eval_state.
Tactic Notation "calm_scope_step" uconstr(H) :=
  eapply rtc_l; [split; [eapply H; vm_compute; first
    [reflexivity | intros; discriminate | left; reflexivity | left; split; reflexivity
    | right; reflexivity]|vm_compute; first [reflexivity | lia]]|]; eval_state.

(** One scoped task; the owner waits, is woken by its [done], and returns. *)
Lemma ex_shared_scope (la ca : Z) :
  ∃ s, rtc (calm_step Debug la ca (ex_shared_task 1)) init s ∧ owner s = Returned.
Proof.
  eexists. split.
  { calm_scope_step (step_exec Debug la ca _ _).
    calm_scope_step (step_owner Debug la ca _ _ (Ready ())).
    calm_scope_step (step_push Debug la ca). calm_scope_step (step_check Debug la ca).
    calm_scope_step (step_handle Debug la ca _ _ _ (ex_shared_task 2)).
    calm_scope_step (step_take Debug la ca).
    calm_scope_step (step_owner Debug la ca _ _ Pending).
    calm_scope_step (step_owner Debug la ca _ _ Pending). apply rtc_refl. }
  done.
Qed.

Lemma shared_scope_joins_witness :
  ∃ s, rtc (calm_step Debug 8 16 (ex_shared_task 1)) init s ∧ owner s = Returned ∧ live s = 0%nat.
Proof.
  destruct (ex_shared_scope 8 16) as (s & Hr & Ho). exists s. split_and!; [done..|].
  apply (proj2 (shared_scope_joins Debug 8 16 (ex_shared_task 1) s) Hr). by right.
Defined.

(** A shared scope can return too early, and can be freed under a [done]. In
    the first run a task finishes on another executor and its [done] reaches 0;
    before that [done] takes the list, the body starts a second task, ends and
    waits; the late [done] wakes the owner, the second poll of [wait] does not
    look at the counter again, and the scope returns while the second task is
    running. In the second run every scoped future has finished, but the owner
    saw the 0 by itself and returned before [done] takes the list, which lives
    inside the scope. *)
Theorem shared_scope_outlived (p : profile) (la ca : Z) :
  (∃ s, rtc (step p la ca (ex_shared_task 1)) init s ∧ owner s = Returned ∧ live s = 1%nat) ∧
  (∃ s, rtc (calm_step p la ca (ex_shared_task 1)) init s ∧ owner s = Returned ∧ taking s = 1%nat).
Proof.
  split; eexists.
  - split.
    { destruct p;
      (scope_step (step_exec _ la ca _ _);
       scope_step (step_handle _ la ca _ _ _ (ex_shared_task 2));
       scope_step (step_exec _ la ca _ _);
       scope_step (step_owner _ la ca _ _ (Ready ()));
       scope_step (step_push _ la ca); scope_step (step_check _ la ca);
       scope_step (step_take _ la ca);
       scope_step (step_owner _ la ca _ _ Pending);
       scope_step (step_owner _ la ca _ _ Pending); apply rtc_refl). }
    done.
  - split.
    { destruct p;
      (calm_scope_step (step_exec _ la ca _ _);
       calm_scope_step (step_owner _ la ca _ _ (Ready ()));
       calm_scope_step (step_push _ la ca);
       calm_scope_step (step_handle _ la ca _ _ _ (ex_shared_task 2));
       calm_scope_step (step_check _ la ca);
       calm_scope_step (step_pop _ la ca);
       calm_scope_step (step_owner _ la ca _ _ Pending);
       calm_scope_step (step_owner _ la ca _ _ Pending); apply rtc_refl). }
    done.
Qed.
