(* ===== verification/LocalValue.v ===== *)
(** * Values shared by the tasks of one thread

    Models [src/src/local.rs]: [Local], a reference-counted cell whose borrows
    are checked in a debug build only, with its guards [LocalRef] and
    [LocalRefMut], as a step relation over what a thread does with the handles
    and the guards of one value. *)

From Stdlib Require Import ZArith Lia.
From S2P Require Import Prelude.

Local Open Scope Z_scope.

Inductive BorrowingState :=
| NotBorrowed
| Shared (n : Z)
| Exclusive.

(** [borrowing_state] exists under [debug_assertions] only. The allocation is
    [None] once it is freed. *)
Record Inner := mkInner { counter : Z; borrowing_state : BorrowingState }.

Abbreviation Cell := (option Inner).

(** [debug_check_parent_executor_id!] *)
Definition debug_check_parent_executor_id (p : profile) (parent_executor_id id : Z) : outcome () :=
  match p with Debug => rassert (parent_executor_id =? id) | Release => Val () end.

Definition Local_new : Cell := Some (mkInner 1 NotBorrowed).

Section local.
Context (p : profile) (parent_executor_id id : Z).

Definition inc_counter (c : Cell) : outcome Cell :=
  debug_check_parent_executor_id p parent_executor_id id;;
  i ← unchecked c;
  n ← usize_add p (counter i) 1;
  Val (Some (mkInner n (borrowing_state i))).

Definition dec_counter (c : Cell) : outcome (Z * Cell) :=
  debug_check_parent_executor_id p parent_executor_id id;;
  i ← unchecked c;
  n ← usize_sub p (counter i) 1;
  Val (n, Some (mkInner n (borrowing_state i))).

Definition Local_clone (c : Cell) : outcome Cell := inc_counter c.

Definition Local_drop (c : Cell) : outcome Cell :=
  debug_check_parent_executor_id p parent_executor_id id;;
  '(n, c) ← dec_counter c;
  if n =? 0 then Val None else Val c.

Definition set_borrowing (b : BorrowingState) (c : Cell) : outcome Cell :=
  i ← unchecked c; Val (Some (mkInner (counter i) b)).

Definition Local_borrow (c : Cell) : outcome Cell :=
  debug_check_parent_executor_id p parent_executor_id id;;
  i ← unchecked c;
  match p with
  | Release => Val c
  | Debug =>
      match borrowing_state i with
      | NotBorrowed => set_borrowing (Shared 1) c
      | Shared n => n ← usize_add p n 1; set_borrowing (Shared n) c
      | Exclusive => Panicked
      end
  end.

Definition Local_borrow_mut (c : Cell) : outcome Cell :=
  debug_check_parent_executor_id p parent_executor_id id;;
  i ← unchecked c;
  match p with
  | Release => Val c
  | Debug =>
      match borrowing_state i with
      | NotBorrowed => set_borrowing Exclusive c
      | Shared _ | Exclusive => Panicked
      end
  end.

(** [Drop] of the guards. *)
Definition LocalRef_drop (c : Cell) : outcome Cell :=
  match p with
  | Release => Val c
  | Debug =>
      i ← unchecked c;
      match borrowing_state i with
      | Shared n => if n =? 1 then set_borrowing NotBorrowed c else n ← usize_sub p n 1; set_borrowing (Shared n) c
      | _ => Panicked
      end
  end.

Definition LocalRefMut_drop (c : Cell) : outcome Cell :=
  match p with
  | Release => Val c
  | Debug =>
      i ← unchecked c;
      match borrowing_state i with Exclusive => set_borrowing NotBorrowed c | _ => Panicked end
  end.

End local.

(** ** What a thread does with a value

    [handles] counts the [Local]s, [refs] and [ref_muts] the guards. A guard
    keeps the handle it was made from alive. *)
Record LSys := mkLSys { cell : Cell; handles : Z; refs : Z; ref_muts : Z }.

Definition local_init : LSys := mkLSys Local_new 1 0 0.

Section steps.
Context (p : profile) (id : Z).

Inductive local_step : LSys → LSys → Prop :=
| lstep_clone s c : 0 < handles s → handles s + 1 < usize_modulus →
    Local_clone p id id (cell s) = Val c →
    local_step s (mkLSys c (handles s + 1) (refs s) (ref_muts s))
| lstep_drop s c : 0 < handles s → (0 < refs s + ref_muts s → 1 < handles s) →
    Local_drop p id id (cell s) = Val c →
    local_step s (mkLSys c (handles s - 1) (refs s) (ref_muts s))
| lstep_borrow s c : 0 < handles s → refs s + 1 < usize_modulus →
    Local_borrow p id id (cell s) = Val c →
    local_step s (mkLSys c (handles s) (refs s + 1) (ref_muts s))
| lstep_borrow_mut s c : 0 < handles s → Local_borrow_mut p id id (cell s) = Val c →
    local_step s (mkLSys c (handles s) (refs s) (ref_muts s + 1))
| lstep_ref_drop s c : 0 < refs s → LocalRef_drop p (cell s) = Val c →
    local_step s (mkLSys c (handles s) (refs s - 1) (ref_muts s))
| lstep_ref_mut_drop s c : 0 < ref_muts s → LocalRefMut_drop p (cell s) = Val c →
    local_step s (mkLSys c (handles s) (refs s) (ref_muts s - 1)).

(** The state of borrowing counts the guards in a debug build. *)
Definition borrow_ok (b : BorrowingState) (r m : Z) : Prop :=
  p = Debug → match b with
    | NotBorrowed => r = 0 ∧ m = 0
    | Shared n => r = n ∧ 0 < n ∧ m = 0
    | Exclusive => r = 0 ∧ m = 1
    end.

Record LInv (s : LSys) : Prop := {
  l_refs : 0 ≤ refs s;
  l_ref_muts : 0 ≤ ref_muts s;
  l_cell : match cell s with
    | Some i => counter i = handles s ∧ 0 < handles s < usize_modulus ∧
        borrow_ok (borrowing_state i) (refs s) (ref_muts s)
    | None => handles s = 0 ∧ refs s = 0 ∧ ref_muts s = 0
    end;
}.

Lemma check_same_executor : debug_check_parent_executor_id p id id = Val ().
Proof. unfold debug_check_parent_executor_id. rewrite Z.eqb_refl. by destruct p. Qed.

Lemma local_inv_init : LInv local_init.
Proof. split; simpl; [done|done|]. split; [done|]. split; [done|]. by intros _. Qed.

(** What each operation does when its caller has a handle or a guard. *)
Lemma local_counter_ok s :
  LInv s → 0 < handles s →
  (handles s + 1 < usize_modulus → ∃ c, Local_clone p id id (cell s) = Val c ∧
    LInv (mkLSys c (handles s + 1) (refs s) (ref_muts s))) ∧
  ((0 < refs s + ref_muts s → 1 < handles s) → ∃ c, Local_drop p id id (cell s) = Val c ∧
    LInv (mkLSys c (handles s - 1) (refs s) (ref_muts s))).
Proof.
  intros [Hr Hm Hc] Hh. unfold Local_clone, Local_drop, inc_counter, dec_counter. rewrite check_same_executor.
  destruct (cell s) as [[n b]|]; [|lia]. destruct Hc as (Hn & Hlt & Hb). simpl in *. subst n.
  split; [intros Hlt'; rewrite usize_add_Val by lia|intros Hg; rewrite usize_sub_Val by lia]; simpl.
  - eexists. split; [done|]. split; simpl; try done. split; [done|]. split; [lia|done].
  - destruct (Z.eqb_spec (handles s - 1) 0) as [Hz|Hz]; eexists; (split; [done|]); split; simpl; try done.
    + lia.
    + split; [done|]. split; [lia|done].
Qed.

Lemma local_guard_ok s :
  LInv s → p = Debug → 0 < handles s →
  (refs s + 1 < usize_modulus → ref_muts s = 0 → ∃ c, Local_borrow p id id (cell s) = Val c ∧
    LInv (mkLSys c (handles s) (refs s + 1) (ref_muts s))) ∧
  (ref_muts s ≠ 0 → Local_borrow p id id (cell s) = Panicked) ∧
  (refs s = 0 → ref_muts s = 0 → ∃ c, Local_borrow_mut p id id (cell s) = Val c ∧
    LInv (mkLSys c (handles s) (refs s) (ref_muts s + 1))) ∧
  (refs s ≠ 0 ∨ ref_muts s ≠ 0 → Local_borrow_mut p id id (cell s) = Panicked).
Proof.
  intros [Hr Hm Hc] Hp Hh. unfold Local_borrow, Local_borrow_mut. rewrite check_same_executor.
  destruct (cell s) as [[n b]|]; [|lia]. destruct Hc as (Hn & Hlt & Hb). specialize (Hb Hp). simpl in *.
  rewrite Hp in *.
  split_and!; intros; destruct b as [|k|]; simpl; try done; try lia; rewrite ?usize_add_Val by lia; simpl;
    (eexists; split; [done|]); split; simpl; try lia; (split; [done|]); (split; [done|]); intros _; lia.
Qed.

Lemma local_release_ok s :
  LInv s → (0 < refs s → ∃ c, LocalRef_drop p (cell s) = Val c ∧
    LInv (mkLSys c (handles s) (refs s - 1) (ref_muts s))) ∧
  (0 < ref_muts s → ∃ c, LocalRefMut_drop p (cell s) = Val c ∧
    LInv (mkLSys c (handles s) (refs s) (ref_muts s - 1))).
Proof.
  intros [Hr Hm Hc]. unfold LocalRef_drop, LocalRefMut_drop.
  destruct (cell s) as [[n b]|]; [|lia]. destruct Hc as (Hn & Hlt & Hb).
  destruct p eqn:Hp; [specialize (Hb Hp)|];
    (split; intros Hpos; [destruct b as [|k|]|destruct b as [|k|]]); simpl in *; try lia;
    try (destruct (Z.eqb_spec k 1)); rewrite ?usize_sub_Val by lia; simpl;
    (eexists; split; [done|]); split; simpl; try lia; (split; [done|]); (split; [done|]); unfold borrow_ok; intros; first [lia | congruence].
Qed.

Lemma local_inv_step s s' : LInv s → local_step s s' → LInv s'.
Proof.
  intros HI Hst. pose proof (local_release_ok s HI) as [Hrel1 Hrel2].
  destruct Hst as [s c Hh Hlt Heq|s c Hh Hg Heq|s c Hh Hlt Heq|s c Hh Heq|s c Hrf Heq|s c Hrm Heq].
  - destruct (local_counter_ok s HI Hh) as [Hok _]. destruct (Hok Hlt) as (c' & Heq' & ?). congruence.
  - destruct (local_counter_ok s HI Hh) as [_ Hok]. destruct (Hok Hg) as (c' & Heq' & ?). congruence.
  - destruct (decide (p = Debug)) as [Hp|Hp].
    + destruct (local_guard_ok s HI Hp Hh) as (Hok & Hno & _).
      destruct (decide (ref_muts s = 0)) as [Hz|Hz]; [|rewrite Hno in Heq by done; done].
      destruct (Hok Hlt Hz) as (c' & Heq' & ?). congruence.
    + unfold Local_borrow in Heq. rewrite check_same_executor in Heq. destruct HI as [Hr Hm Hc].
      destruct (cell s) as [[n b]|] eqn:Hcell; [|lia]. destruct p eqn:Hrel; [done|]. simplify_eq/=.
      split; simpl; [lia|done|]. destruct Hc as (? & ? & _). split; [done|]. split; [done|]. intros ?. congruence.
  - destruct (decide (p = Debug)) as [Hp|Hp].
    + destruct (local_guard_ok s HI Hp Hh) as (_ & _ & Hok & Hno).
      destruct (decide (refs s = 0)) as [Hz|Hz]; [|rewrite Hno in Heq by auto; done].
      destruct (decide (ref_muts s = 0)) as [Hz'|Hz']; [|rewrite Hno in Heq by auto; done].
      destruct (Hok Hz Hz') as (c' & Heq' & ?). congruence.
    + unfold Local_borrow_mut in Heq. rewrite check_same_executor in Heq. destruct HI as [Hr Hm Hc].
      destruct (cell s) as [[n b]|] eqn:Hcell; [|lia]. destruct p eqn:Hrel; [done|]. simplify_eq/=.
      split; simpl; [done|lia|]. destruct Hc as (? & ? & _). split; [done|]. split; [done|]. intros ?. congruence.
  - destruct (Hrel1 Hrf) as (c' & Heq' & ?). congruence.
  - destruct (Hrel2 Hrm) as (c' & Heq' & ?). congruence.
Qed.

End steps.

(** A [Local] on its own thread: the value is freed exactly when the last
    handle is dropped, and no guard is left then; cloning, dropping and
    releasing never panic; in a debug build there is one [LocalRefMut] or any
    number of [LocalRef]s, and a borrow returns exactly when it keeps that. *)
Theorem local_value_safe (p : profile) (id : Z) (s : LSys) :
  rtc (local_step p id) local_init s →
  (cell s = None ↔ handles s = 0) ∧ (cell s = None → refs s = 0 ∧ ref_muts s = 0) ∧
  (0 < handles s → handles s + 1 < usize_modulus → ∃ c, Local_clone p id id (cell s) = Val c) ∧
  (0 < handles s → (0 < refs s + ref_muts s → 1 < handles s) → ∃ c, Local_drop p id id (cell s) = Val c) ∧
  (0 < refs s → ∃ c, LocalRef_drop p (cell s) = Val c) ∧
  (0 < ref_muts s → ∃ c, LocalRefMut_drop p (cell s) = Val c) ∧
  (p = Debug → ref_muts s ≤ 1 ∧ (0 < ref_muts s → refs s = 0) ∧
    (0 < handles s → refs s + 1 < usize_modulus →
      ((∃ c, Local_borrow p id id (cell s) = Val c) ↔ ref_muts s = 0) ∧
      ((∃ c, Local_borrow_mut p id id (cell s) = Val c) ↔ refs s = 0 ∧ ref_muts s = 0))).
Proof.
  intros Hs. assert (LInv p s) as HI.
  { revert Hs. apply (rtc_invariant (local_step p id) (LInv p)); [by intros; eapply local_inv_step|apply local_inv_init]. }
  pose proof (local_release_ok p s HI) as [Hrel1 Hrel2]. pose proof (l_cell _ _ HI) as Hc.
  split_and!.
  - destruct (cell s); [|naive_solver]. split; [done|lia].
  - intros Hn. rewrite Hn in Hc. by destruct Hc as (_ & ? & ?).
  - intros Hh Hlt. destruct (local_counter_ok p id s HI Hh) as [Hok _]. destruct (Hok Hlt) as (c & ? & _). eauto.
  - intros Hh Hg. destruct (local_counter_ok p id s HI Hh) as [_ Hok]. destruct (Hok Hg) as (c & ? & _). eauto.
  - intros Hr. destruct (Hrel1 Hr) as (c & ? & _). eauto.
  - intros Hr. destruct (Hrel2 Hr) as (c & ? & _). eauto.
  - intros Hp. split; [|split].
    + destruct (cell s) as [[n b]|]; [|lia]. destruct Hc as (_ & _ & Hb). specialize (Hb Hp). destruct b; simpl in Hb; lia.
    + destruct (cell s) as [[n b]|]; [|lia]. destruct Hc as (_ & _ & Hb). specialize (Hb Hp). destruct b; simpl in Hb; lia.
    + intros Hh Hlt. destruct (local_guard_ok p id s HI Hp Hh) as (H1 & H2 & H3 & H4). split; split.
      * intros [c Hc']. destruct (decide (ref_muts s = 0)); [done|]. by rewrite H2 in Hc'.
      * intros Hz. destruct (H1 Hlt Hz) as (c & ? & _). eauto.
      * intros [c Hc']. destruct (decide (refs s = 0)), (decide (ref_muts s = 0)); try done; rewrite H4 in Hc' by auto; done.
      * intros [Hz Hz']. destruct (H3 Hz Hz') as (c & ? & _). eauto.
Qed.

(** A release build checks no borrow: two [LocalRefMut]s of one value can be
    alive at the same time. *)
Theorem local_value_unchecked :
  ∃ s, rtc (local_step Release 1) local_init s ∧ ref_muts s = 2.
Proof.
  eexists. split.
  - eapply rtc_l; [eapply lstep_borrow_mut; [done|reflexivity]|].
    eapply rtc_l; [eapply lstep_borrow_mut; [done|reflexivity]|]. apply rtc_refl.
  - reflexivity.
Qed.

Lemma local_value_safe_witness :
  ∃ c, LocalRefMut_drop Debug (cell (mkLSys (Some (mkInner 1 Exclusive)) 1 0 1)) = Val c.
Proof.
  apply (local_value_safe Debug 1 (mkLSys (Some (mkInner 1 Exclusive)) 1 0 1)); [|done].
  eapply rtc_l; [eapply lstep_borrow_mut; [done|reflexivity]|]. apply rtc_refl.
Defined.
