(* ===== verification/Pointers.v ===== *)
(** * Raw pointers

    Models [Ptr] of [src/src/utils/ptr.rs]: a pointer whose memory the program
    allocates, reads, overwrites and frees by hand. Memory that is allocated
    has a value ([Live]) or has lost it ([Moved]); [dropped] are the values
    whose destructors have run, in order. *)

From Stdlib Require Import ZArith Lia.
From S2P Require Import Prelude.
Open Scope Z_scope.

Section ptr.
Context {T : Type}.

Record Ptr := mkPtr { ptr : Z }.

Inductive cell := Live (value : T) | Moved.

Record Heap := mkHeap { cells : gmap Z cell; dropped : list T }.

Definition set_cells (c : gmap Z cell) (h : Heap) : Heap := mkHeap c (dropped h).

(** [alloc] returned [addr], null if there is no memory; asking it for no
    bytes at all is undefined, and so is writing to null. *)
Definition Ptr_new (size addr : Z) (value : T) (h : Heap) : outcome (Ptr * Heap) :=
  if size =? 0 then Undefined
  else if addr =? 0 then Undefined
  else Val (mkPtr addr, set_cells (<[addr := Live value]> (cells h)) h).

Definition Ptr_null : Ptr := mkPtr 0.

Definition Ptr_is_null (self : Ptr) : bool := ptr self =? 0.

Definition Ptr_as_ptr (self : Ptr) : Z := ptr self.

Definition as_u64 (self : Ptr) : Z := ptr self.

Definition Ptr_from_u64 (x : Z) : Ptr := mkPtr x.

(** The value behind a pointer that is dereferenced. *)
Definition live (self : Ptr) (h : Heap) : outcome T :=
  match cells h !! ptr self with
  | Some (Live v) => Val v
  | _ => Undefined
  end.

Definition allocated (self : Ptr) (h : Heap) : outcome () :=
  match cells h !! ptr self with
  | Some _ => Val ()
  | None => Undefined
  end.

Definition Ptr_as_ref (self : Ptr) (h : Heap) : outcome T :=
  rassert (negb (Ptr_is_null self));; live self h.

(** [as_mut], and what the program writes through it. *)
Definition Ptr_as_mut (f : T → T) (self : Ptr) (h : Heap) : outcome Heap :=
  rassert (negb (Ptr_is_null self));;
  v ← live self h;
  Val (set_cells (<[ptr self := Live (f v)]> (cells h)) h).

Definition drop_in_place (self : Ptr) (h : Heap) : outcome Heap :=
  rassert (negb (Ptr_is_null self));;
  v ← live self h;
  Val (mkHeap (<[ptr self := Moved]> (cells h)) (dropped h ++ [v])).

Definition Ptr_deallocate (self : Ptr) (h : Heap) : outcome Heap :=
  rassert (negb (Ptr_is_null self));;
  allocated self h;;
  Val (set_cells (delete (ptr self) (cells h)) h).

Definition drop_and_deallocate (self : Ptr) (h : Heap) : outcome Heap :=
  rassert (negb (Ptr_is_null self));;
  h ← drop_in_place self h;
  Ptr_deallocate self h.

(** [read] copies the value and leaves it behind. *)
Definition Ptr_read (self : Ptr) (h : Heap) : outcome T :=
  rassert (negb (Ptr_is_null self));; live self h.

(** [write] does not drop what was there. *)
Definition Ptr_write (self : Ptr) (value : T) (h : Heap) : outcome Heap :=
  rassert (negb (Ptr_is_null self));;
  allocated self h;;
  Val (set_cells (<[ptr self := Live value]> (cells h)) h).

Definition write_with_drop (self : Ptr) (value : T) (h : Heap) : outcome Heap :=
  rassert (negb (Ptr_is_null self));;
  h ← drop_in_place self h;
  Ptr_write self value h.

Definition Ptr_replace (self : Ptr) (value : T) (h : Heap) : outcome (Heap * T) :=
  rassert (negb (Ptr_is_null self));;
  v ← live self h;
  Val (set_cells (<[ptr self := Live value]> (cells h)) h, v).

(** ** The life of an allocation

    A program that overwrites what is behind a pointer. *)
Inductive overwrite := WriteWithDrop (value : T) | Replace (value : T) | Write (value : T).

Definition value_of (o : overwrite) : T :=
  match o with WriteWithDrop v => v | Replace v => v | Write v => v end.

Definition is_write (o : overwrite) : bool := match o with Write _ => true | _ => false end.

(** The second result has the values [replace] returned. *)
Fixpoint run_overwrites (self : Ptr) (ops : list overwrite) (h : Heap) : outcome (Heap * list T) :=
  match ops with
  | [] => Val (h, [])
  | o :: ops =>
      r ← match o with
          | WriteWithDrop v => h ← write_with_drop self v h; Val (h, [])
          | Replace v => r ← Ptr_replace self v h; Val (r.1, [r.2])
          | Write v => h ← Ptr_write self v h; Val (h, [])
          end;
      r' ← run_overwrites self ops r.1;
      Val (r'.1, r.2 ++ r'.2)
  end.

(** What becomes of the value that is there and of those written over it:
    dropped, returned and forgotten values. *)
Fixpoint fates (current : T) (ops : list overwrite) : list T * list T * list T :=
  match ops with
  | [] => ([current], [], [])
  | o :: ops =>
      let '(d, r, f) := fates (value_of o) ops in
      match o with
      | WriteWithDrop _ => (current :: d, r, f)
      | Replace _ => (d, current :: r, f)
      | Write _ => (d, r, current :: f)
      end
  end.

Lemma run_overwrites_spec (a : Z) (ops : list overwrite) (current : T) (h : Heap) :
  a ≠ 0 → cells h !! a = Some (Live current) →
  ∃ h' h'', run_overwrites (mkPtr a) ops h = Val (h', (fates current ops).1.2) ∧
    drop_and_deallocate (mkPtr a) h' = Val h'' ∧
    cells h'' = delete a (cells h) ∧ dropped h'' = dropped h ++ (fates current ops).1.1.
Proof.
  intros Ha. assert (Ptr_is_null (mkPtr a) = false) as Hn by by apply Z.eqb_neq.
  revert current h. induction ops as [|o ops IH]; intros current h Hc.
  - eexists _, _. split; [done|]. unfold drop_and_deallocate, drop_in_place, Ptr_deallocate, live, allocated.
    rewrite Hn. simpl. rewrite Hc. simpl. rewrite lookup_insert_eq. simpl.
    split; [done|]. by rewrite delete_insert_eq.
  - destruct o as [v|v|v]; simpl; unfold write_with_drop, Ptr_replace, Ptr_write, drop_in_place, live, allocated;
      rewrite Hn; simpl; rewrite Hc; simpl; rewrite ?lookup_insert_eq; simpl;
      (edestruct (IH v) as (h' & h'' & -> & Hd & Hcells & Hdr); [by apply lookup_insert_eq|]);
      simpl in *; destruct (fates v ops) as [[d r] f]; simpl in *; exists h', h'';
      (split; [done|]); (split; [done|]); rewrite Hcells, Hdr, ?insert_insert_eq, delete_insert_eq;
      (split; [done|]); by rewrite <- ?app_assoc.
Qed.

Lemma fates_perm (ops : list overwrite) (current : T) :
  let '(d, r, f) := fates current ops in d ++ r ++ f ≡ₚ current :: map value_of ops.
Proof.
  revert current. induction ops as [|o ops IH]; intros current; [by simpl|].
  simpl. specialize (IH (value_of o)). destruct (fates (value_of o) ops) as [[d r] f].
  destruct o; simpl in *; rewrite <- IH.
  - done.
  - by rewrite <- Permutation_middle.
  - by rewrite (app_assoc d r (current :: f)), <- Permutation_middle, <- app_assoc.
Qed.

(** Without [write] nothing is forgotten. *)
Lemma fates_no_write (ops : list overwrite) (current : T) :
  forallb (λ o, negb (is_write o)) ops = true → (fates current ops).2 = [].
Proof.
  revert current. induction ops as [|o ops IH]; intros current Hw; [done|].
  simpl in *. apply andb_true_iff in Hw as [Ho Hw]. specialize (IH (value_of o) Hw).
  destruct (fates (value_of o) ops) as [[d r] f]. by destruct o.
Qed.

End ptr.

(** A pointer made by [new], overwritten by any number of [write_with_drop]
    and [replace] and freed by [drop_and_deallocate] behaves as a box does: no
    call fails, every value that was behind it is dropped once or returned
    once, the last one dropped, and its memory is free again. [write] breaks
    this in one way only: the value it overwrites is neither dropped nor
    returned. *)
Theorem ptr_owns {T : Type} (size a : Z) (v : T) (ops : list overwrite) (h : Heap) :
  size ≠ 0 → a ≠ 0 → cells h !! a = None →
  ∃ h1 h2 h3 returned forgotten drops,
    Ptr_new size a v h = Val (mkPtr a, h1) ∧
    run_overwrites (mkPtr a) ops h1 = Val (h2, returned) ∧
    drop_and_deallocate (mkPtr a) h2 = Val h3 ∧
    cells h3 = cells h ∧ dropped h3 = dropped h ++ drops ∧
    drops ++ returned ++ forgotten ≡ₚ v :: map value_of ops ∧
    (forallb (λ o, negb (is_write o)) ops = true → forgotten = []).
Proof.
  intros Hs Ha Hc. unfold Ptr_new. rewrite (proj2 (Z.eqb_neq _ _) Hs), (proj2 (Z.eqb_neq _ _) Ha).
  pose (h1 := set_cells (<[a := Live v]> (cells h)) h).
  destruct (run_overwrites_spec a ops v h1) as (h2 & h3 & Hrun & Hfree & Hcells & Hdr);
    [done|apply lookup_insert_eq|].
  pose proof (fates_perm ops v) as Hp. pose proof (fates_no_write ops v) as Hw.
  destruct (fates v ops) as [[d r] f]. exists h1, h2, h3, r, f, d. simpl in *.
  split_and!; [done..| |done|done|done]. rewrite Hcells, delete_insert_eq. by apply delete_id.
Qed.

Lemma ptr_owns_witness :
  ∃ h1 h2 h3 returned, Ptr_new 8 64 1 (mkHeap ∅ []) = Val (mkPtr 64, h1) ∧
    run_overwrites (mkPtr 64) [WriteWithDrop 2; Replace 3; Replace 4] h1 = Val (h2, returned) ∧
    drop_and_deallocate (mkPtr 64) h2 = Val h3 ∧ cells h3 = ∅ ∧ returned = [2; 3] ∧ dropped h3 = [1; 4].
Proof.
  destruct (ptr_owns 8 64 1 [WriteWithDrop 2; Replace 3; Replace 4] (mkHeap ∅ []))
    as (h1 & h2 & h3 & r & f & d & H1 & H2 & H3 & H4 & _); [done..|].
  exists h1, h2, h3, r. vm_compute in H1. injection H1 as <-.
  vm_compute in H2. injection H2 as <- <-. vm_compute in H3. injection H3 as <-. done.
Defined.

(** [Ptr::new] of a value without bytes is undefined: it asks the allocator
    for a block of size 0. *)
Lemma ptr_new_zero_sized {T : Type} (a : Z) (v : T) (h : Heap) : Ptr_new 0 a v h = Undefined.
Proof. done. Qed.
