(* ===== verification/LocalPools.v ===== *)
(** * Pools of a thread

    Models [new_local_pool!] of [src/src/local_pool.rs], which makes a pool of
    values per thread with guards that return their value when they are
    dropped, and the wrapper that is to bound the capacity of pooled lists in
    [src/src/utils/task_structures_pool.rs]. *)

From Stdlib Require Import ZArith Lia.
From stdpp Require Import functions.
From S2P Require Import Prelude Task.

(** ** [local_pool.rs] *)
Section local_pool.
Context {V : Type}.

Record Pool := mkPool { storage : list V }.

Record Guard := mkGuard { value : V }.

(** [acquire]; [new] is the value the block given to the macro makes. *)
Definition acquire (new : V) (pool : Pool) : Guard * Pool :=
  match pop_back (storage pool) with
  | Some (value, rest) => (mkGuard value, mkPool rest)
  | None => (mkGuard new, pool)
  end.

Definition drop_guard (guard : Guard) (pool : Pool) : Pool :=
  mkPool (push_back (storage pool) (value guard)).

(** [into_inner] forgets the guard: its value does not return to a pool. *)
Definition into_inner (guard : Guard) : V := value guard.

End local_pool.

Arguments Pool : clear implicits.
Arguments Guard : clear implicits.

(** ** [task_structures_pool.rs]

    A vector, or a list under a lock, with its capacity. *)
Record PooledVec := mkPooledVec { items : list Task; capacity : nat }.

Definition shrink_to (min_capacity : nat) (v : PooledVec) : PooledVec :=
  mkPooledVec (items v) (capacity v `min` (length (items v) `max` min_capacity)).

(** [drop] of the wrapper, and then of the guard in it. *)
Definition drop_from_pool (guard : Guard PooledVec) (pool : Pool PooledVec) : Pool PooledVec :=
  let guard :=
    if length (items (value guard)) <? 128 then guard
    else mkGuard (shrink_to 2 (value guard)) in
  drop_guard guard pool.

Definition acquire_task_vec_from_pool (pool : Pool PooledVec) : Guard PooledVec * Pool PooledVec :=
  acquire (mkPooledVec [] 2) pool.

(** ** The threads of a program

    The values are told apart by numbers, in the order in which they are
    made. A guard may be dropped by another thread than the one that took it. *)
Record Threads := mkThreads {
  pools : nat → Pool nat;
  guards : list (Guard nat);
  inner : list nat;
  made : nat;
}.

Definition fresh_threads : Threads := mkThreads (λ _, mkPool []) [] [] 0.

Inductive step : Threads → Threads → Prop :=
| step_acquire th s guard pool :
    acquire (made s) (pools s th) = (guard, pool) →
    step s (mkThreads (<[th := pool]> (pools s)) (guards s ++ [guard]) (inner s)
      (if bool_decide (storage (pools s th) = []) then S (made s) else made s))
| step_drop th s l guard r :
    guards s = l ++ guard :: r →
    step s (mkThreads (<[th := drop_guard guard (pools s th)]> (pools s)) (l ++ r) (inner s) (made s))
| step_into_inner s l guard r :
    guards s = l ++ guard :: r →
    step s (mkThreads (pools s) (l ++ r) (inner s ++ [into_inner guard]) (made s)).

Definition pooled (s : Threads) (th : nat) : list nat := storage (pools s th).
Definition out (s : Threads) : list nat := map value (guards s) ++ inner s.

(** Every value is in one place, and none is lost. *)
Record Inv (s : Threads) : Prop := {
  iv_pool : ∀ th, NoDup (pooled s th);
  iv_out : NoDup (out s);
  iv_apart : ∀ th1 th2 v, v ∈ pooled s th1 → v ∈ pooled s th2 → th1 = th2;
  iv_held : ∀ th v, v ∈ pooled s th → v ∉ out s;
  iv_made : ∀ v, v < made s ↔ (∃ th, v ∈ pooled s th) ∨ v ∈ out s;
}.

Lemma Inv_start : Inv fresh_threads.
Proof.
  split; simpl; [intros; constructor|constructor|set_solver|set_solver|].
  intros v. split; [lia|]. intros [[th H]|H]; set_solver.
Qed.

(** A value moves from the pool of [th] to a holder or back; [pool] is the
    pool without it. *)
Lemma Inv_take s th pool v s' :
  Inv s → pooled s th = pool ++ [v] → out s' ≡ₚ v :: out s → made s' = made s →
  (∀ th', pooled s' th' = if decide (th' = th) then pool else pooled s th') → Inv s'.
Proof.
  intros [Hp Ho Ha Hh Hm] Hth Hout Hmade Hpool.
  pose proof (Hp th) as Hnd. rewrite Hth in Hnd. apply NoDup_app in Hnd as (Hnd & Hv & _).
  assert (∀ th' x, x ∈ pooled s' th' ↔ x ∈ pooled s th' ∧ x ≠ v) as Hin.
  { intros th' x. rewrite Hpool. destruct (decide (th' = th)) as [->|Hne].
    - rewrite Hth. set_solver.
    - split; [|by intros []]. intros Hx. split; [done|]. intros ->. apply Hne, (Ha th' th v); [done|].
      rewrite Hth. set_solver. }
  split.
  - intros th'. rewrite Hpool. destruct (decide (th' = th)); [done|apply Hp].
  - rewrite Hout. constructor; [|done]. apply (Hh th). rewrite Hth. set_solver.
  - intros th1 th2 x. rewrite !Hin. intros [H1 _] [H2 _]. by apply (Ha _ _ x).
  - intros th' x. rewrite Hin, Hout. intros [H1 H2]. apply Hh in H1. set_solver.
  - intros x. rewrite Hmade, Hm, Hout. setoid_rewrite Hin. destruct (decide (x = v)) as [->|Hne].
    + split; [set_solver|]. intros _. left. exists th. rewrite Hth. set_solver.
    + split; [intros [[th' H]|H]; [left; by exists th'|set_solver]|].
      intros [[th' [H _]]|H]; [left; by exists th'|]. right. set_solver.
Qed.

Lemma Inv_give s th v s' :
  Inv s → out s ≡ₚ v :: out s' → made s' = made s →
  (∀ th', pooled s' th' = if decide (th' = th) then pooled s th ++ [v] else pooled s th') → Inv s'.
Proof.
  intros [Hp Ho Ha Hh Hm] Hout Hmade Hpool.
  rewrite Hout in Ho. apply NoDup_cons in Ho as [Hv Ho].
  assert (∀ th', v ∉ pooled s th') as Hnew by (intros th' H; apply Hh in H; rewrite Hout in H; set_solver).
  assert (∀ th' x, x ∈ pooled s' th' ↔ x ∈ pooled s th' ∨ th' = th ∧ x = v) as Hin.
  { intros th' x. rewrite Hpool. destruct (decide (th' = th)) as [->|]; set_solver. }
  split.
  - intros th'. rewrite Hpool. destruct (decide (th' = th)); [|apply Hp].
    apply NoDup_app. split_and!; [apply Hp| |apply NoDup_singleton]. set_solver.
  - done.
  - intros th1 th2 x. rewrite !Hin. specialize (Ha th1 th2 x). specialize (Hnew th1) as H1.
    specialize (Hnew th2). naive_solver.
  - intros th' x. rewrite Hin. intros [H|[-> ->]]; [|done]. apply Hh in H. rewrite Hout in H. set_solver.
  - intros x. rewrite Hmade, Hm. setoid_rewrite Hin. rewrite Hout. split.
    + intros [[th' H]|H]; [left; exists th'; by left|]. apply elem_of_cons in H as [->|H]; [|by right].
      left. exists th. by right.
    + intros [[th' [H|[-> ->]]]|H]; [left; by exists th'|right; set_solver..].
Qed.

Lemma Inv_make s s' :
  Inv s → out s' ≡ₚ made s :: out s → made s' = S (made s) → (∀ th, pooled s' th = pooled s th) → Inv s'.
Proof.
  intros [Hp Ho Ha Hh Hm] Hout Hmade Hpool.
  assert (∀ v, (∃ th, v ∈ pooled s th) ∨ v ∈ out s → v ≠ made s) as Hnew by (intros v Hv%Hm; lia).
  split; try setoid_rewrite Hpool; [done| |done| |].
  - rewrite Hout. constructor; [|done]. intros H. by apply (Hnew (made s)); [right|].
  - intros th v H. rewrite Hout. intros [->|Hv]%elem_of_cons; [|by apply (Hh th v)].
    by apply (Hnew (made s)); [left; exists th|].
  - intros v. rewrite Hmade, Hout, elem_of_cons. specialize (Hm v). split; [|lia || naive_solver lia].
    intros Hv. destruct (decide (v = made s)); [auto|]. destruct Hm as [Hm _]. destruct Hm; [lia|auto..].
Qed.

Lemma pooled_insert s th pool gs i m th' :
  pooled (mkThreads (<[th := pool]> (pools s)) gs i m) th' =
  if decide (th' = th) then storage pool else pooled s th'.
Proof.
  unfold pooled. simpl. destruct (decide (th' = th)) as [->|Hne].
  - by rewrite fn_lookup_insert.
  - by rewrite fn_lookup_insert_ne.
Qed.

Lemma Inv_step s0 s' : step s0 s' → Inv s0 → Inv s'.
Proof.
  intros [th s guard pool Hacq|th s l guard r Hg|s l guard r Hg] HI.
  - unfold acquire in Hacq. destruct (pop_back _) as [[v rest]|] eqn:Hpop; simplify_eq.
    + apply pop_back_Some in Hpop. rewrite bool_decide_eq_false_2 by (rewrite Hpop; by destruct rest).
      eapply (Inv_take s th rest v); [done|done| |done|intros; apply pooled_insert].
      unfold out. simpl. rewrite map_app. simpl. solve_Permutation.
    + apply pop_back_None in Hpop. rewrite bool_decide_eq_true_2 by done.
      eapply (Inv_make s); [done| |done|].
      * unfold out. simpl. rewrite map_app. simpl. solve_Permutation.
      * intros th'. rewrite pooled_insert. by destruct (decide _) as [->|].
  - eapply (Inv_give s th (value guard)); [done| |done|intros; apply pooled_insert].
    unfold out. simpl. rewrite Hg, !map_app. simpl. solve_Permutation.
  - destruct HI as [Hp Ho Ha Hh Hm].
    assert (out (mkThreads (pools s) (l ++ r) (inner s ++ [into_inner guard]) (made s)) ≡ₚ out s) as Hout.
    { unfold out, into_inner. simpl. rewrite Hg, !map_app. simpl. solve_Permutation. }
    split; try setoid_rewrite Hout; done.
Qed.

(** Whatever threads take values from their pools, give them back, perhaps in
    another thread, or keep them for good: no value is in two pools, in a pool
    twice or in a pool while someone holds it, no two hold the same value, and
    every value that was made is in a pool or held. A value that was given back
    last is taken first. *)
Theorem local_pool_exclusive (s : Threads) :
  rtc step fresh_threads s →
  (∀ th, NoDup (pooled s th)) ∧ NoDup (out s) ∧
  (∀ th1 th2 v, v ∈ pooled s th1 → v ∈ pooled s th2 → th1 = th2) ∧
  (∀ th v, v ∈ pooled s th → v ∉ out s) ∧
  (∀ v, v < made s → (∃ th, v ∈ pooled s th) ∨ v ∈ out s) ∧
  ∀ th guard new, acquire new (drop_guard guard (pools s th)) = (guard, pools s th).
Proof.
  intros Hs. assert (Inv s) as [Hp Ho Ha Hh Hm].
  { apply (rtc_invariant step Inv fresh_threads s); [intros a b Ha Hab; by eapply Inv_step|apply Inv_start|done]. }
  split_and!; [done..|by intros v Hv%Hm|].
  intros th [v] new. unfold acquire, drop_guard, push_back. simpl. rewrite pop_back_snoc.
  by destruct (pools s th).
Qed.

(** Thread 0 takes a value, which thread 1 gives back to its own pool. *)
Lemma local_pool_exclusive_witness :
  ∃ s, rtc step fresh_threads s ∧ pooled s 0 = [] ∧ pooled s 1 = [0] ∧ NoDup (out s).
Proof.
  assert (∃ s, rtc step fresh_threads s ∧ pooled s 0 = [] ∧ pooled s 1 = [0]) as (s & Hs & H0 & H1).
  { eexists. split; [|split].
    - eapply rtc_l; [by eapply (step_acquire 0)|].
      eapply rtc_l; [by eapply (step_drop 1 _ [])|]. apply rtc_refl.
    - reflexivity.
    - reflexivity. }
  exists s. split; [exact Hs|]. split; [exact H0|]. split; [exact H1|].
  exact (proj1 (proj2 (local_pool_exclusive s Hs))).
Defined.

(** The bound on the capacity of pooled lists has no effect: a list with fewer
    than 128 tasks returns to the pool with the capacity it has, however
    large, and a longer one returns with its tasks in it, and so with room for
    at least 128, for the next one that takes a list. *)
Theorem pooled_vec_keeps_capacity (v : PooledVec) (pool : Pool PooledVec) :
  length (items v) ≤ capacity v →
  ∃ v' pool', acquire_task_vec_from_pool (drop_from_pool (mkGuard v) pool) = (mkGuard v', pool') ∧
    items v' = items v ∧
    (length (items v) < 128 → capacity v' = capacity v) ∧
    (128 ≤ length (items v) → capacity v' = length (items v)).
Proof.
  intros Hcap. unfold drop_from_pool, drop_guard, acquire_task_vec_from_pool, acquire, push_back. simpl.
  rewrite pop_back_snoc. destruct (Nat.ltb_spec (length (items v)) 128); simpl;
    (eexists _, _; split; [done|]; split; [done|]; simpl; lia).
Qed.

Lemma pooled_vec_keeps_capacity_witness :
  ∃ v' pool', acquire_task_vec_from_pool (drop_from_pool (mkGuard (mkPooledVec [] 1000)) (mkPool [])) =
    (mkGuard v', pool') ∧ capacity v' = 1000.
Proof.
  destruct (pooled_vec_keeps_capacity (mkPooledVec [] 1000) (mkPool [])) as (v' & pool' & H & _ & Hc & _);
    [simpl; lia|]. exists v', pool'. split; [exact H|]. apply Hc. simpl. lia.
Defined.
