(* ===== verification/Buffer.v ===== *)
(** * Buffers for input and output

    Models [src/src/io/buf] on Linux: [linux_buffer.rs] (a buffer is memory
    registered with the kernel, or a vector), [buffer.rs], [buf_pool.rs] (the
    pool of a thread), [slice.rs] and [sendable_buffer.rs].

    A pointer is the name of an allocation in an explicit heap; reading or
    writing outside of an allocation, or in one that was freed, is undefined.
    A cell of the heap holds a byte or nothing yet. The thread's pool and its
    heap are the state that operations pass on. *)

From Stdlib Require Import ZArith Lia.
From S2P Require Import Prelude.

Local Open Scope Z_scope.

(** ** The heap *)
Abbreviation cell := (option Z).
Abbreviation Heap := (gmap nat (list cell)).

Definition heap_alloc (n : nat) (h : Heap) : nat * Heap :=
  let l := fresh (dom h) in (l, <[l := replicate n None]> h).

Definition heap_free (l : nat) (h : Heap) : outcome Heap :=
  unchecked (h !! l);; Val (delete l h).

Definition heap_read (l off n : nat) (h : Heap) : outcome (list cell) :=
  cells ← unchecked (h !! l);
  if (off + n <=? length cells)%nat then Val (take n (drop off cells)) else Undefined.

Definition heap_write (l off : nat) (bs : list cell) (h : Heap) : outcome Heap :=
  cells ← unchecked (h !! l);
  if (off + length bs <=? length cells)%nat
  then Val (<[l := take off cells ++ bs ++ drop (off + length bs) cells]> h)
  else Undefined.

(** ** [linux_buffer.rs] *)
Record FixedBuffer := mkFixedBuffer {
  fx_len : Z;
  fx_cap : Z;
  fx_index : Z;
  fx_ptr : nat;
}.

(** [Vec<u8>]. *)
Record VecU8 := mkVecU8 { v_ptr : nat; v_len : Z; v_cap : Z }.

Inductive LinuxBuffer :=
| Fixed (f : FixedBuffer)
| NonFixed (v : VecU8).

Definition LinuxBuffer_new_fixed (ptr : nat) (cap index : Z) : LinuxBuffer :=
  Fixed (mkFixedBuffer 0 cap index ptr).

(** [alloc] with a layout of size 0 is undefined. *)
Definition LinuxBuffer_new_non_fixed (p : profile) (size : Z) (h : Heap)
    : outcome (LinuxBuffer * Heap) :=
  debug_assert p (0 <? size);;
  if size =? 0 then Undefined
  else let '(l, h) := heap_alloc (Z.to_nat size) h in
       Val (NonFixed (mkVecU8 l 0 size), h).

Definition LinuxBuffer_len (b : LinuxBuffer) : Z :=
  match b with Fixed f => fx_len f | NonFixed v => u32_wrap (v_len v) end.

(** [Vec::set_len] past the capacity is undefined. *)
Definition LinuxBuffer_set_len (len : Z) (b : LinuxBuffer) : outcome LinuxBuffer :=
  match b with
  | Fixed f => Val (Fixed (mkFixedBuffer len (fx_cap f) (fx_index f) (fx_ptr f)))
  | NonFixed v =>
      if len <=? v_cap v then Val (NonFixed (mkVecU8 (v_ptr v) len (v_cap v))) else Undefined
  end.

Definition LinuxBuffer_capacity (b : LinuxBuffer) : Z :=
  match b with Fixed f => fx_cap f | NonFixed v => u32_wrap (v_cap v) end.

Definition LinuxBuffer_as_ptr (b : LinuxBuffer) : nat :=
  match b with Fixed f => fx_ptr f | NonFixed v => v_ptr v end.

Definition LinuxBuffer_as_ref (b : LinuxBuffer) (h : Heap) : outcome (list cell) :=
  match b with
  | Fixed f => heap_read (fx_ptr f) 0 (Z.to_nat (fx_len f)) h
  | NonFixed v => heap_read (v_ptr v) 0 (Z.to_nat (v_len v)) h
  end.

(** ** [buffer.rs] and [buf_pool.rs]

    [Buffer] has no field but the [LinuxBuffer]. *)
Abbreviation Buffer := LinuxBuffer.

Record BufPool := mkBufPool {
  pool_of_fixed_buffers : list Buffer;
  fixed_buffers : list nat;
  default_buffer_cap : Z;
  pool_of_non_fixed_buffers : list Buffer;
}.

(** A thread: its pool, its heap, and whether buffers are registered with the
    kernel. *)
Record St := mkSt { pool : BufPool; heap : Heap; registered : bool }.

Definition set_heap (h : Heap) (s : St) : St := mkSt (pool s) h (registered s).
Definition set_pools (fx nf : list Buffer) (s : St) : St :=
  mkSt (mkBufPool fx (fixed_buffers (pool s)) (default_buffer_cap (pool s)) nf)
    (heap s) (registered s).

Definition Buffer_new (p : profile) (size : Z) (s : St) : outcome (Buffer * St) :=
  '(b, h) ← LinuxBuffer_new_non_fixed p size (heap s); Val (b, set_heap h s).

Definition len_u32 (b : Buffer) : Z := LinuxBuffer_len b.
Definition capacity (b : Buffer) : Z := LinuxBuffer_capacity b.
Definition as_ptr (b : Buffer) : nat := LinuxBuffer_as_ptr b.
Definition as_ref (b : Buffer) (s : St) : outcome (list cell) := LinuxBuffer_as_ref b (heap s).

Definition fixed_index (b : Buffer) : Z :=
  match b with Fixed f => fx_index f | NonFixed _ => 2 ^ 16 - 1 end.
Definition is_fixed (b : Buffer) : bool :=
  match b with Fixed _ => true | NonFixed _ => false end.

Definition is_empty (b : Buffer) : bool := len_u32 b =? 0.
Definition is_full (b : Buffer) : bool := capacity b =? len_u32 b.

Definition set_len_unchecked (len : Z) (b : Buffer) : outcome Buffer := LinuxBuffer_set_len len b.

(** The second result: whether [Ok] was returned. *)
Definition set_len (len : Z) (b : Buffer) : outcome (Buffer * bool) :=
  if len <=? capacity b then b ← set_len_unchecked len b; Val (b, true) else Val (b, false).

Definition add_len (p : profile) (diff : Z) (b : Buffer) : outcome Buffer :=
  new_len ← u32_add p (len_u32 b) diff; set_len_unchecked new_len b.

Definition set_len_to_capacity (b : Buffer) : outcome Buffer := LinuxBuffer_set_len (capacity b) b.

Definition clear (b : Buffer) : outcome Buffer := set_len_unchecked 0 b.

Definition fill_with_zeros (b : Buffer) (s : St) : outcome St :=
  h ← heap_write (as_ptr b) 0 (replicate (Z.to_nat (capacity b)) (Some 0)) (heap s);
  Val (set_heap h s).

(** [deallocate]: a fixed buffer refers to memory of the pool. *)
Definition deallocate (b : Buffer) (s : St) : outcome St :=
  match b with
  | Fixed _ => Val s
  | NonFixed v => h ← heap_free (v_ptr v) (heap s); Val (set_heap h s)
  end.

(** [BufPool::put], which is also [Buffer::release] and the drop of a buffer. *)
Definition put (b : Buffer) (s : St) : outcome St :=
  let q := pool s in
  if is_fixed b then
    Val (set_pools (push_back (pool_of_fixed_buffers q) b) (pool_of_non_fixed_buffers q) s)
  else if capacity b =? default_buffer_cap q then
    Val (set_pools (pool_of_fixed_buffers q) (push_back (pool_of_non_fixed_buffers q) b) s)
  else deallocate b s.

Definition get_buffer_with_any_len (p : profile) (s : St) : outcome (Buffer * St) :=
  let q := pool s in
  match pop_back (pool_of_fixed_buffers q) with
  | Some (b, l) => Val (b, set_pools l (pool_of_non_fixed_buffers q) s)
  | None =>
      match pop_back (pool_of_non_fixed_buffers q) with
      | Some (b, l) => Val (b, set_pools (pool_of_fixed_buffers q) l s)
      | None => Buffer_new p (default_buffer_cap q) s
      end
  end.

Definition get_full (p : profile) (s : St) : outcome (Buffer * St) :=
  '(b, s) ← get_buffer_with_any_len p s; b ← set_len_to_capacity b; Val (b, s).

Definition get (p : profile) (s : St) : outcome (Buffer * St) :=
  '(b, s) ← get_buffer_with_any_len p s; b ← clear b; Val (b, s).

(** [resize]; the assignment to [*self] drops the old buffer. *)
Definition resize (p : profile) (new_size : Z) (b : Buffer) (s : St) : outcome (Buffer * St) :=
  if new_size <? len_u32 b then b ← set_len_unchecked new_size b; Val (b, s)
  else
    '(new_buf, s) ← (if default_buffer_cap (pool s) =? new_size then get p s
                     else Buffer_new p new_size s);
    new_buf ← set_len_unchecked (len_u32 b) new_buf;
    bytes ← heap_read (as_ptr b) 0 (Z.to_nat (len_u32 b)) (heap s);
    h ← heap_write (as_ptr new_buf) 0 bytes (heap s);
    s ← put b (set_heap h s);
    Val (new_buf, s).

Definition append (p : profile) (buf : list Z) (b : Buffer) (s : St) : outcome (Buffer * St) :=
  let diff_len := u32_wrap (Z.of_nat (length buf)) in
  room ← u32_sub p (capacity b) (len_u32 b);
  '(b, s) ← (if room <? diff_len then
               new_size ← u32_add p (len_u32 b) diff_len; resize p new_size b s
             else Val (b, s));
  h ← heap_write (as_ptr b) (Z.to_nat (len_u32 b)) (Some <$> buf) (heap s);
  b ← add_len p diff_len b;
  Val (b, set_heap h s).

(** ** [slice.rs]

    [Buffer::slice] and [slice_mut] check nothing. *)
Inductive Bound := Included (n : Z) | Excluded (n : Z) | Unbounded.

Record Slice := mkSlice { sl_buf : Buffer; sl_start : Z; sl_end : Z }.

Definition slice (p : profile) (start_bound end_bound : Bound) (b : Buffer) : outcome Slice :=
  start ← match start_bound with
          | Included n => Val n
          | Unbounded => Val 0
          | Excluded n => u32_add p n 1
          end;
  fin ← match end_bound with
        | Included n => u32_add p n 1
        | Excluded n => Val n
        | Unbounded => Val (len_u32 b)
        end;
  Val (mkSlice b start fin).

Definition slice_len_u32 (p : profile) (sl : Slice) : outcome Z :=
  u32_sub p (sl_end sl) (sl_start sl).

(** Reading and writing the bytes of a slice ([as_bytes], [deref_mut]). *)
Definition slice_as_bytes (p : profile) (sl : Slice) (s : St) : outcome (list cell) :=
  n ← slice_len_u32 p sl;
  heap_read (as_ptr (sl_buf sl)) (Z.to_nat (sl_start sl)) (Z.to_nat n) (heap s).

Definition slice_write (p : profile) (sl : Slice) (bytes : list Z) (s : St) : outcome St :=
  n ← slice_len_u32 p sl;
  rassert (Z.of_nat (length bytes) =? n);;
  h ← heap_write (as_ptr (sl_buf sl)) (Z.to_nat (sl_start sl)) (Some <$> bytes) (heap s);
  Val (set_heap h s).

(** ** The life of the pool *)

(** [vec![0; cap]] leaked, [n] times. *)
Fixpoint leak_zeroed (n : nat) (cap : Z) (h : Heap) : list nat * Heap :=
  match n with
  | O => ([], h)
  | S n =>
      let '(ls, h) := leak_zeroed n cap h in
      let '(l, h) := heap_alloc (Z.to_nat cap) h in
      (ls ++ [l], <[l := replicate (Z.to_nat cap) (Some 0)]> h)
  end.

Definition new_fixed_buffers (cap : Z) (ls : list nat) : list Buffer :=
  imap (λ i l, LinuxBuffer_new_fixed l cap (Z.of_nat i)) ls.

Definition BufPool_new (number_of_fixed_buffers : nat) (cap : Z) (h : Heap) : St :=
  if (number_of_fixed_buffers =? 0)%nat then mkSt (mkBufPool [] [] cap []) h false
  else
    let '(ls, h) := leak_zeroed number_of_fixed_buffers cap h in
    mkSt (mkBufPool (new_fixed_buffers cap ls) ls cap []) h true.

Fixpoint deallocate_all (l : list Buffer) (s : St) : outcome St :=
  match l with [] => Val s | b :: l => s ← deallocate b s; deallocate_all l s end.

Fixpoint free_all (l : list nat) (h : Heap) : outcome Heap :=
  match l with [] => Val h | a :: l => h ← heap_free a h; free_all l h end.

(** The drop of the pool. *)
Definition deallocate_buffers (s : St) : outcome St :=
  let fixed := pool_of_fixed_buffers (pool s) in
  s ← deallocate_all (pool_of_non_fixed_buffers (pool s)) (set_pools fixed [] s);
  match fixed with
  | [] => Val s
  | _ =>
      s ← deallocate_all fixed (set_pools [] [] s);
      h ← free_all (fixed_buffers (pool s)) (heap s);
      Val (mkSt (pool s) h false)
  end.

(** ** Well-formed heaps *)
Record buf_ok (h : Heap) (b : Buffer) : Prop := {
  ok_cells : ∃ cells, h !! as_ptr b = Some cells ∧ Z.of_nat (length cells) = capacity b;
  ok_len : 0 ≤ len_u32 b ≤ capacity b;
  ok_cap : 0 < capacity b < u32_modulus;
  ok_vec : match b with Fixed _ => True | NonFixed v => in_u32 (v_len v) ∧ in_u32 (v_cap v) end;
}.

(** The buffers in [bs], live or pooled, are all there is on the heap. *)
Record heap_ok (h : Heap) (bs : list Buffer) : Prop := {
  ho_bufs : Forall (buf_ok h) bs;
  ho_nodup : NoDup (as_ptr <$> bs);
  ho_dom : dom h = list_to_set (as_ptr <$> bs);
}.

#[global] Instance heap_ok_Proper : Proper ((=) ==> (≡ₚ) ==> iff) heap_ok.
Proof.
  assert (∀ h bs bs', bs ≡ₚ bs' → heap_ok h bs → heap_ok h bs') as Himp.
  { intros h bs bs' Hp [Hb Hn Hd]. split; [by rewrite <-Hp|by rewrite <-Hp|].
    rewrite Hd. by apply list_to_set_perm_L, fmap_Permutation. }
  intros h ? <- bs bs' Hp. split; apply Himp; [done|by symmetry].
Qed.

(** The bytes of a buffer. *)
Definition data (h : Heap) (b : Buffer) : list cell :=
  take (Z.to_nat (len_u32 b)) (default [] (h !! as_ptr b)).

Definition unchanged (h h' : Heap) (bs : list Buffer) : Prop :=
  Forall (λ b, h' !! as_ptr b = h !! as_ptr b) bs.

Lemma data_unchanged h h' bs b : unchanged h h' bs → b ∈ bs → data h' b = data h b.
Proof. unfold unchanged, data. rewrite Forall_forall. intros H Hb. by rewrite H. Qed.

Lemma buf_ok_unchanged h h' b :
  h' !! as_ptr b = h !! as_ptr b → buf_ok h b → buf_ok h' b.
Proof. intros He [(cells & Hc & Hl) ? ? ?]. split; try done. exists cells. by rewrite He. Qed.

Lemma heap_ok_lookup h b bs :
  heap_ok h (b :: bs) → ∃ cells, h !! as_ptr b = Some cells ∧ Z.of_nat (length cells) = capacity b.
Proof. intros [Hb _ _]. apply Forall_cons in Hb as [[? _ _ _] _]. done. Qed.

Lemma heap_ok_other h b bs b' : heap_ok h (b :: bs) → b' ∈ bs → as_ptr b' ≠ as_ptr b.
Proof.
  intros [_ Hn _] Hb He. simpl in Hn. apply NoDup_cons in Hn as [Hn _]. apply Hn.
  rewrite <-He. by apply list_elem_of_fmap_2.
Qed.

Lemma as_ref_data h b s : heap s = h → buf_ok h b → as_ref b s = Val (data h b).
Proof.
  intros <- [(cells & Hc & Hl) Hlen Hcap Hv]. unfold as_ref, LinuxBuffer_as_ref, data, len_u32 in *.
  rewrite Hc. destruct b as [f|v]; unfold heap_read; simpl in *; rewrite Hc; simpl.
  - rewrite (proj2 (Nat.leb_le _ _)) by lia. done.
  - destruct Hv as [Hv _]. rewrite u32_wrap_small in * by done.
    rewrite (proj2 (Nat.leb_le _ _)) by lia. done.
Qed.

Lemma set_len_ok h b len :
  buf_ok h b → 0 ≤ len ≤ capacity b →
  ∃ b', set_len_unchecked len b = Val b' ∧ buf_ok h b' ∧ as_ptr b' = as_ptr b ∧
    capacity b' = capacity b ∧ len_u32 b' = len ∧ is_fixed b' = is_fixed b ∧
    fixed_index b' = fixed_index b.
Proof.
  intros [Hc Hlen Hcap Hv] Hl. unfold set_len_unchecked, LinuxBuffer_set_len.
  destruct b as [f|v].
  - eexists. split; [done|]. by split_and!.
  - destruct Hv as [Hv1 Hv2]. unfold capacity in *. simpl in *. rewrite u32_wrap_small in * by done.
    rewrite (proj2 (Z.leb_le _ _)) by lia. eexists. split; [done|].
    assert (in_u32 len) by (unfold in_u32, u32_modulus in *; lia).
    split_and!; try done; [|by apply u32_wrap_small|unfold len_u32; simpl; by apply u32_wrap_small].
    split; unfold len_u32, capacity; simpl; rewrite ?u32_wrap_small by done; try done; lia.
Qed.

(** A buffer that keeps its memory. *)
Lemma heap_ok_replace h b b' bs :
  heap_ok h (b :: bs) → as_ptr b' = as_ptr b → buf_ok h b' → heap_ok h (b' :: bs).
Proof.
  intros [Hb Hn Hd] Hp Hok. apply Forall_cons in Hb as [_ Hb].
  split; simpl in *; [by constructor|by rewrite Hp|by rewrite Hp].
Qed.

Lemma heap_write_ok h b bs off bytes :
  heap_ok h (b :: bs) → Z.of_nat off + Z.of_nat (length bytes) ≤ capacity b →
  ∃ cells h', h !! as_ptr b = Some cells ∧ heap_write (as_ptr b) off bytes h = Val h' ∧
    h' !! as_ptr b = Some (take off cells ++ bytes ++ drop (off + length bytes) cells) ∧
    heap_ok h' (b :: bs) ∧ unchanged h h' bs.
Proof.
  intros HI Hle. destruct (heap_ok_lookup _ _ _ HI) as (cells & Hc & Hl). exists cells.
  unfold heap_write. rewrite Hc. simpl. rewrite (proj2 (Nat.leb_le _ _)) by lia.
  eexists. split; [done|]. split; [done|]. split; [by rewrite lookup_insert_eq|].
  assert (unchanged h (<[as_ptr b := take off cells ++ bytes ++ drop (off + length bytes) cells]> h) bs)
    as Hu.
  { apply Forall_forall. intros b' Hb'. rewrite lookup_insert_ne; [done|].
    intros He. by apply (heap_ok_other _ _ _ _ HI Hb'). }
  split; [|done]. destruct HI as [Hb Hn Hd]. apply Forall_cons in Hb as [[_ ? ? ?] Hb]. split; [|done|].
  - constructor.
    + split; try done. eexists. split; [by rewrite lookup_insert_eq|].
      rewrite !length_app, length_take, length_drop. lia.
    + unfold unchanged in Hu. rewrite !Forall_forall in *. intros b' Hb'.
      apply (buf_ok_unchanged h); auto.
  - rewrite dom_insert_L, Hd. simpl. set_solver.
Qed.

Lemma heap_alloc_ok h bs cap init :
  heap_ok h bs → 0 < cap < u32_modulus → length init = Z.to_nat cap →
  let l := (heap_alloc (Z.to_nat cap) h).1 in
  ∀ b, as_ptr b = l → capacity b = cap → len_u32 b = 0 →
    match b with Fixed _ => True | NonFixed v => in_u32 (v_len v) ∧ in_u32 (v_cap v) end →
    heap_ok (<[l := init]> h) (b :: bs) ∧ unchanged h (<[l := init]> h) bs.
Proof.
  intros HI Hcap Hlen l b Hp Hc Hl Hv. simpl in l.
  assert (l ∉ dom h) as Hf by apply is_fresh. destruct HI as [Hb Hn Hd].
  assert (∀ b', b' ∈ bs → as_ptr b' ≠ l) as Hne.
  { intros b' Hb' He. apply Hf. rewrite Hd, <-He. apply elem_of_list_to_set.
    by apply list_elem_of_fmap_2. }
  assert (unchanged h (<[l := init]> h) bs) as Hu.
  { apply Forall_forall. intros b' Hb'. rewrite lookup_insert_ne; [done|].
    intros He. by apply (Hne b'). }
  split; [|done]. split; simpl.
  - constructor.
    + split; [|lia|lia|done]. exists init. rewrite Hp, lookup_insert_eq. split; [done|lia].
    + unfold unchanged in Hu. rewrite !Forall_forall in *. intros b' Hb'. apply (buf_ok_unchanged h); auto.
  - constructor; [|done]. rewrite Hp, list_elem_of_fmap. intros (b' & He & Hb'). by apply (Hne b').
  - rewrite dom_insert_L, Hd, Hp. set_solver.
Qed.

Lemma heap_free_ok h b bs :
  heap_ok h (b :: bs) → ∃ h', heap_free (as_ptr b) h = Val h' ∧ heap_ok h' bs ∧ unchanged h h' bs.
Proof.
  intros HI. destruct (heap_ok_lookup _ _ _ HI) as (cells & Hc & _). unfold heap_free. rewrite Hc.
  simpl. eexists. split; [done|].
  assert (unchanged h (delete (as_ptr b) h) bs) as Hu.
  { apply Forall_forall. intros b' Hb'. apply lookup_delete_ne. intros He.
    by apply (heap_ok_other _ _ _ _ HI Hb'). }
  split; [|done]. destruct HI as [Hb Hn Hd]. simpl in *. apply NoDup_cons in Hn as [Hni Hn].
  split; [|done|].
  - apply Forall_cons in Hb as [_ Hb]. unfold unchanged in Hu. rewrite !Forall_forall in *. intros b' Hb'.
    apply (buf_ok_unchanged h); auto.
  - rewrite dom_delete_L, Hd. rewrite <-(not_elem_of_list_to_set (C:=gset nat)) in Hni. set_solver.
Qed.

(** ** The invariant of a thread's pool

    [live] are the buffers that the program holds. *)
Definition fixed_id (b : Buffer) : option (Z * nat) :=
  match b with Fixed f => Some (fx_index f, fx_ptr f) | NonFixed _ => None end.

Definition all_bufs (s : St) (live : list Buffer) : list Buffer :=
  live ++ pool_of_fixed_buffers (pool s) ++ pool_of_non_fixed_buffers (pool s).

Record Inv (s : St) (live : list Buffer) : Prop := {
  inv_heap : heap_ok (heap s) (all_bufs s live);
  inv_fixed : omap fixed_id (all_bufs s live) ≡ₚ
    imap (λ i l, (Z.of_nat i, l)) (fixed_buffers (pool s));
  inv_caps : Forall (λ b, is_fixed b = true → capacity b = default_buffer_cap (pool s))
    (all_bufs s live);
  inv_pool_fixed : Forall (λ b, is_fixed b = true) (pool_of_fixed_buffers (pool s));
  inv_pool_non_fixed : Forall (λ b, is_fixed b = false ∧ capacity b = default_buffer_cap (pool s))
    (pool_of_non_fixed_buffers (pool s));
  inv_cap : 0 < default_buffer_cap (pool s) < u32_modulus;
}.

(** What an operation leaves as it was. *)
Record framed (s s' : St) (live : list Buffer) : Prop := {
  fr_heap : unchanged (heap s) (heap s') live;
  fr_cap : default_buffer_cap (pool s') = default_buffer_cap (pool s);
  fr_fixed : fixed_buffers (pool s') = fixed_buffers (pool s);
}.

Lemma framed_refl s live : framed s s live.
Proof. split; [|done..]. by apply Forall_forall. Qed.

Lemma framed_trans s1 s2 s3 live : framed s1 s2 live → framed s2 s3 live → framed s1 s3 live.
Proof.
  intros [H1 H2 H3] [K1 K2 K3]. split; [|congruence..]. unfold unchanged in *.
  rewrite Forall_forall in *. intros b Hb. by rewrite K1, H1.
Qed.

Lemma framed_sub s s' live live' : live' ⊆ live → framed s s' live → framed s s' live'.
Proof.
  intros Hs [H1 H2 H3]. split; [|done..]. unfold unchanged in *. rewrite Forall_forall in *.
  intros b Hb. by apply H1, Hs.
Qed.

(** Buffers move between the program and the pool. *)
Lemma inv_move s live fx nf live' :
  Inv s live → live' ++ fx ++ nf ≡ₚ all_bufs s live →
  Forall (λ b, is_fixed b = true) fx →
  Forall (λ b, is_fixed b = false ∧ capacity b = default_buffer_cap (pool s)) nf →
  Inv (set_pools fx nf s) live'.
Proof.
  intros [Hh Hf Hc Hpf Hpn Hcap] Hp Hfx Hnf. split; simpl; try done; unfold all_bufs in *; simpl in *.
  - by rewrite Hp.
  - rewrite <-Hf. f_equiv. done.
  - by rewrite Hp.
Qed.

(** The first live buffer changes, or comes or goes, without touching the
    fixed ones. *)
Lemma inv_swap s live h l1 l2 :
  Inv s (l1 ++ live) → heap_ok h (l2 ++ all_bufs s live) →
  omap fixed_id l1 = omap fixed_id l2 →
  Forall (λ b, is_fixed b = true → capacity b = default_buffer_cap (pool s)) l2 →
  Inv (set_heap h s) (l2 ++ live).
Proof.
  intros [Hh Hf Hc Hpf Hpn Hcap] Hh' He Hcs. unfold all_bufs in *. simpl in *.
  split; simpl; try done; unfold all_bufs; simpl.
  - by rewrite <-!app_assoc.
  - rewrite <-Hf, <-!app_assoc, !omap_app, He. done.
  - rewrite <-!app_assoc in *. rewrite !Forall_app in *. tauto.
Qed.

Lemma inv_live s b live : Inv s (b :: live) → buf_ok (heap s) b ∧ heap_ok (heap s) (b :: all_bufs s live).
Proof. intros HI. pose proof (inv_heap _ _ HI) as Hh. split; [|done]. destruct Hh as [Hb _ _].
  by apply Forall_cons in Hb as [? _]. Qed.

Lemma put_ok s b live :
  Inv s (b :: live) → ∃ s', put b s = Val s' ∧ Inv s' live ∧ framed s s' live.
Proof.
  intros HI. destruct (inv_live _ _ _ HI) as [Hb Hh]. unfold put.
  destruct (is_fixed b) eqn:Hf; [|destruct (Z.eqb_spec (capacity b) (default_buffer_cap (pool s)))].
  - eexists. split; [done|]. split; [|split; [by apply Forall_forall|done..]].
    eapply inv_move; [done| |unfold push_back; apply Forall_app; split; [apply HI|by repeat constructor]|apply HI].
    unfold all_bufs, push_back. simpl. solve_Permutation.
  - eexists. split; [done|]. split; [|split; [by apply Forall_forall|done..]].
    eapply inv_move; [done| |apply HI|unfold push_back; apply Forall_app; split; [apply HI|by repeat constructor]].
    unfold all_bufs, push_back. simpl. solve_Permutation.
  - destruct b as [f|v]; [done|]. simpl. destruct (heap_free_ok _ _ _ Hh) as (h' & He & Hh' & Hu).
    simpl in He. rewrite He. simpl. eexists. split; [done|]. split.
    + apply (inv_swap s live h' [NonFixed v] []); [done|done|done|constructor].
    + split; [|done..]. unfold unchanged, all_bufs in *. simpl. rewrite Forall_app in Hu. tauto.
Qed.

Lemma Buffer_new_ok p size s live :
  Inv s live → 0 < size < u32_modulus →
  ∃ b s', Buffer_new p size s = Val (b, s') ∧ Inv s' (b :: live) ∧ framed s s' live ∧
    capacity b = size ∧ len_u32 b = 0.
Proof.
  intros HI Hs. unfold Buffer_new, LinuxBuffer_new_non_fixed.
  rewrite (proj2 (Z.ltb_lt _ _)), debug_assert_true, (proj2 (Z.eqb_neq _ _)) by lia. simpl.
  assert (u32_wrap size = size) as Hw by (apply u32_wrap_small; unfold in_u32; lia).
  do 2 eexists. split; [done|]. set (b := NonFixed _).
  destruct (heap_alloc_ok (heap s) (all_bufs s live) size (replicate (Z.to_nat size) None)
    (inv_heap _ _ HI) Hs ltac:(by rewrite length_replicate) b) as [Hh Hu]; [done..| |].
  { simpl. unfold in_u32. lia. }
  split; [by apply (inv_swap s live _ [] [b]); [..|repeat constructor]|]. split; [|done].
  split; [|done..]. unfold unchanged, all_bufs in *. simpl. rewrite Forall_app in Hu. tauto.
Qed.

Lemma get_any_ok p s live :
  Inv s live →
  ∃ b s', get_buffer_with_any_len p s = Val (b, s') ∧ Inv s' (b :: live) ∧ framed s s' live ∧
    capacity b = default_buffer_cap (pool s).
Proof.
  intros HI. unfold get_buffer_with_any_len. pose proof (inv_caps _ _ HI) as Hc.
  destruct (pop_back (pool_of_fixed_buffers (pool s))) as [[b l]|] eqn:Hp.
  - apply pop_back_Some in Hp. pose proof (inv_pool_fixed _ _ HI) as Hpf. unfold all_bufs in Hc.
    rewrite Hp, !Forall_app in *. destruct Hpf as [Hpf Hb]. rewrite Forall_singleton in Hb.
    do 2 eexists. split; [done|]. split_and!; [|split; [by apply Forall_forall|done..]|].
    + eapply inv_move; [done| |done|apply HI]. unfold all_bufs. rewrite Hp. simpl. solve_Permutation.
    + destruct Hc as (_ & [_ Hc] & _). rewrite Forall_singleton in Hc. auto.
  - destruct (pop_back (pool_of_non_fixed_buffers (pool s))) as [[b l]|] eqn:Hq.
    + apply pop_back_Some in Hq. pose proof (inv_pool_non_fixed _ _ HI) as Hpn.
      rewrite Hq, Forall_app in Hpn. destruct Hpn as [Hpn Hb]. rewrite Forall_singleton in Hb.
      do 2 eexists. split; [done|]. split_and!; [|split; [by apply Forall_forall|done..]|tauto].
      eapply inv_move; [done| |apply HI|done]. unfold all_bufs. rewrite Hq. simpl. solve_Permutation.
    + destruct (Buffer_new_ok p _ s live HI (inv_cap _ _ HI)) as (b & s' & ? & ? & ? & ? & _). eauto 10.
Qed.

(** A live buffer gets another length. *)
Lemma relen_ok s b live len :
  Inv s (b :: live) → 0 ≤ len ≤ capacity b →
  ∃ b', set_len_unchecked len b = Val b' ∧ Inv s (b' :: live) ∧ as_ptr b' = as_ptr b ∧
    capacity b' = capacity b ∧ len_u32 b' = len ∧ is_fixed b' = is_fixed b.
Proof.
  intros HI Hl. destruct (inv_live _ _ _ HI) as [Hb Hh].
  destruct (set_len_ok _ _ _ Hb Hl) as (b' & He & Hok & Hp & Hc & Hlen & Hf & Hi). exists b'.
  split_and!; try done.
  assert (set_heap (heap s) s = s) as Hs by by destruct s. rewrite <-Hs.
  apply (inv_swap s live (heap s) [b] [b']); [done|by apply (heap_ok_replace _ b)| |].
  - unfold fixed_index in Hi. destruct b as [f|v], b' as [f'|v']; simpl in *; congruence.
  - apply Forall_singleton. rewrite Hf, Hc. pose proof (inv_caps _ _ HI) as Hcs.
    unfold all_bufs in Hcs. simpl in Hcs. by apply Forall_cons in Hcs as [? _].
Qed.

Lemma get_ok p s live :
  Inv s live →
  ∃ b s', get p s = Val (b, s') ∧ Inv s' (b :: live) ∧ framed s s' live ∧
    capacity b = default_buffer_cap (pool s) ∧ len_u32 b = 0.
Proof.
  intros HI. unfold get. destruct (get_any_ok p s live HI) as (b & s' & -> & HI' & Hf & Hc). simpl.
  destruct (relen_ok s' b live 0 HI') as (b' & He & HI'' & _ & Hc' & Hl & _).
  { destruct (inv_live _ _ _ HI') as [[_ ? _ _] _]. lia. }
  unfold clear. rewrite He. simpl. exists b', s'. split_and!; [done..|congruence|done].
Qed.

Lemma get_full_ok p s live :
  Inv s live →
  ∃ b s', get_full p s = Val (b, s') ∧ Inv s' (b :: live) ∧ framed s s' live ∧
    capacity b = default_buffer_cap (pool s) ∧ len_u32 b = default_buffer_cap (pool s).
Proof.
  intros HI. unfold get_full. destruct (get_any_ok p s live HI) as (b & s' & -> & HI' & Hf & Hc). simpl.
  destruct (relen_ok s' b live (capacity b) HI') as (b' & He & HI'' & _ & Hc' & Hl & _).
  { destruct (inv_live _ _ _ HI') as [[_ ? _ _] _]. lia. }
  unfold set_len_to_capacity. unfold set_len_unchecked in He. rewrite He. simpl. exists b', s'.
  split_and!; [done..|congruence|congruence].
Qed.

(** Bytes are written into a live buffer. *)
Lemma write_ok s b live off bytes :
  Inv s (b :: live) → Z.of_nat off + Z.of_nat (length bytes) ≤ capacity b →
  ∃ cells h, heap s !! as_ptr b = Some cells ∧ heap_write (as_ptr b) off bytes (heap s) = Val h ∧
    h !! as_ptr b = Some (take off cells ++ bytes ++ drop (off + length bytes) cells) ∧
    Inv (set_heap h s) (b :: live) ∧ framed s (set_heap h s) live.
Proof.
  intros HI Hle. destruct (inv_live _ _ _ HI) as [_ Hh].
  destruct (heap_write_ok _ _ _ off bytes Hh Hle) as (cells & h & Hc & Hw & Hl & Hh' & Hu).
  exists cells, h. split_and!; [done..| |].
  - apply (inv_swap s live h [b] [b]); [done..|]. pose proof (inv_caps _ _ HI) as Hcs.
    unfold all_bufs in Hcs. simpl in Hcs. apply Forall_cons in Hcs as [? _]. by apply Forall_singleton.
  - split; [|done..]. unfold unchanged, all_bufs in *. simpl. rewrite Forall_app in Hu. tauto.
Qed.

Lemma inv_perm s live live' : live ≡ₚ live' → Inv s live → Inv s live'.
Proof.
  intros Hp HI. assert (s = set_pools (pool_of_fixed_buffers (pool s)) (pool_of_non_fixed_buffers (pool s)) s)
    as -> by by destruct s as [[]].
  eapply inv_move; [done|unfold all_bufs; by rewrite Hp|apply HI..].
Qed.

(** What [resize] gets: a new buffer of the new size. *)
Lemma resize_get_ok p new_size s live :
  Inv s live → 0 < new_size < u32_modulus →
  ∃ b s', (if default_buffer_cap (pool s) =? new_size then get p s else Buffer_new p new_size s) =
      Val (b, s') ∧ Inv s' (b :: live) ∧ framed s s' live ∧ capacity b = new_size ∧ len_u32 b = 0.
Proof.
  intros HI Hn. destruct (Z.eqb_spec (default_buffer_cap (pool s)) new_size) as [<-|].
  - by apply get_ok.
  - by apply Buffer_new_ok.
Qed.

Lemma buf_read_ok h b : buf_ok h b → heap_read (as_ptr b) 0 (Z.to_nat (len_u32 b)) h = Val (data h b).
Proof.
  intros [(cells & Hc & Hl) Hlen _ _]. unfold heap_read, data. rewrite Hc. simpl.
  by rewrite (proj2 (Nat.leb_le _ _)) by lia.
Qed.

Lemma data_length h b : buf_ok h b → Z.of_nat (length (data h b)) = len_u32 b.
Proof.
  intros [(cells & Hc & Hl) Hlen _ _]. unfold data. rewrite Hc. simpl. rewrite length_take. lia.
Qed.

Lemma resize_ok p new_size b s live :
  Inv s (b :: live) → len_u32 b ≤ new_size → 0 < new_size < u32_modulus →
  ∃ b' s', resize p new_size b s = Val (b', s') ∧ Inv s' (b' :: live) ∧ framed s s' live ∧
    capacity b' = new_size ∧ data (heap s') b' = data (heap s) b.
Proof.
  intros HI Hle Hn. unfold resize. rewrite (proj2 (Z.ltb_ge _ _)) by done.
  destruct (inv_live _ _ _ HI) as [Hb _].
  destruct (resize_get_ok p new_size s _ HI Hn) as (nb & s1 & -> & HI1 & Hf1 & Hc1 & _). simpl.
  destruct (relen_ok s1 nb _ (len_u32 b) HI1) as (nb' & -> & HI2 & Hp2 & Hc2 & Hl2 & _).
  { destruct Hb. lia. }
  simpl. assert (buf_ok (heap s1) b) as Hb1.
  { destruct (inv_heap _ _ HI1) as [Ha _ _]. unfold all_bufs in Ha. simpl in Ha.
    rewrite !Forall_cons in Ha. tauto. }
  rewrite (buf_read_ok _ _ Hb1). simpl.
  assert (data (heap s1) b = data (heap s) b) as Hd1.
  { apply (data_unchanged _ _ (b :: live)); [apply Hf1|left]. }
  destruct (write_ok s1 nb' (b :: live) 0 (data (heap s1) b) HI2) as (cells & h & Hc & -> & Hh & HI3 & Hf3).
  { rewrite data_length by done. lia. }
  simpl. destruct (put_ok (set_heap h s1) b (nb' :: live)) as (s' & -> & HI4 & Hf4).
  { eapply inv_perm; [|done]. solve_Permutation. }
  simpl. exists nb', s'. split_and!; [done|done| |congruence|].
  - eapply framed_trans; [eapply framed_sub, Hf1; set_solver|].
    eapply framed_trans; [eapply framed_sub, Hf3; set_solver|]. eapply framed_sub, Hf4. set_solver.
  - rewrite <-Hd1. pose proof (fr_heap _ _ _ Hf4) as Hu. apply Forall_cons in Hu as [Hu _].
    unfold data at 1. rewrite Hu. simpl. rewrite Hh. simpl. rewrite Hl2, take_app_le.
    + apply take_ge. pose proof (data_length _ _ Hb1). lia.
    + pose proof (data_length _ _ Hb1). lia.
Qed.

Lemma append_room_ok p bytes b s live :
  Inv s (b :: live) → len_u32 b + Z.of_nat (length bytes) ≤ capacity b →
  ∃ h b', heap_write (as_ptr b) (Z.to_nat (len_u32 b)) (Some <$> bytes) (heap s) = Val h ∧
    add_len p (Z.of_nat (length bytes)) b = Val b' ∧ Inv (set_heap h s) (b' :: live) ∧
    framed s (set_heap h s) live ∧ data h b' = data (heap s) b ++ (Some <$> bytes) ∧
    capacity b' = capacity b.
Proof.
  intros HI Hle. destruct (inv_live _ _ _ HI) as [[(cells & Hc & Hl) Hlen Hcap _] _].
  destruct (write_ok s b live (Z.to_nat (len_u32 b)) (Some <$> bytes) HI)
    as (cells' & h & Hc' & Hw & Hh & HI1 & Hf1); [rewrite length_fmap; lia|]. simplify_eq.
  destruct (relen_ok _ b live (len_u32 b + Z.of_nat (length bytes)) HI1)
    as (b' & Hs & HI2 & Hp2 & Hc2 & Hl2 & _); [lia|].
  exists h, b'. split_and!; try done.
  - unfold add_len. rewrite u32_add_Val by lia. done.
  - unfold data. rewrite Hp2, Hh, Hc, Hl2. simpl. rewrite app_assoc, take_app_le.
    + apply take_ge. rewrite length_app, length_take, length_fmap. lia.
    + rewrite length_app, length_take, length_fmap. lia.
Qed.

Lemma append_ok p bytes b s live :
  Inv s (b :: live) → len_u32 b + Z.of_nat (length bytes) < u32_modulus →
  ∃ b' s', append p bytes b s = Val (b', s') ∧ Inv s' (b' :: live) ∧ framed s s' live ∧
    data (heap s') b' = data (heap s) b ++ (Some <$> bytes) ∧
    capacity b' = Z.max (capacity b) (len_u32 b + Z.of_nat (length bytes)).
Proof.
  intros HI Hlt. destruct (inv_live _ _ _ HI) as [[_ Hlen Hcap _] _]. unfold append.
  rewrite u32_wrap_small by (unfold in_u32; lia). rewrite u32_sub_Val by lia. cbn [mbind outcome_bind].
  destruct (Z.ltb_spec (capacity b - len_u32 b) (Z.of_nat (length bytes))) as [Hr|Hr].
  - rewrite u32_add_Val by lia. cbn [mbind outcome_bind].
    destruct (resize_ok p (len_u32 b + Z.of_nat (length bytes)) b s live HI)
      as (b1 & s1 & -> & HI1 & Hf1 & Hc1 & Hd1); [lia..|]. cbn [mbind outcome_bind].
    assert (len_u32 b1 = len_u32 b) as Hl1.
    { destruct (inv_live _ _ _ HI) as [Hb _], (inv_live _ _ _ HI1) as [Hb1 _].
      rewrite <-(data_length _ _ Hb), <-(data_length _ _ Hb1). by rewrite Hd1. }
    destruct (append_room_ok p bytes b1 s1 live HI1) as (h & b' & -> & -> & HI2 & Hf2 & Hd2 & Hc2); [lia|].
    simpl. exists b', (set_heap h s1). split_and!; [done|done|by eapply framed_trans| |lia].
    simpl. by rewrite Hd2, Hd1.
  - cbn [mbind outcome_bind].
    destruct (append_room_ok p bytes b s live HI) as (h & b' & -> & -> & HI2 & Hf2 & Hd2 & Hc2); [lia|].
    simpl. exists b', (set_heap h s). split_and!; [done..|lia].
Qed.

(** ** Runs of a thread

    The thread gets buffers from its pool and drops them, sets their length,
    resizes and extends them and fills them with zeros. An empty buffer is not
    resized to 0, and [append] does not extend a buffer to 2^32 bytes:
    [buffer_unchecked_sizes] below says what happens then. *)
Inductive step (p : profile) : St * list Buffer → St * list Buffer → Prop :=
| step_any s live b s' :
    get_buffer_with_any_len p s = Val (b, s') → step p (s, live) (s', b :: live)
| step_get s live b s' : get p s = Val (b, s') → step p (s, live) (s', b :: live)
| step_full s live b s' : get_full p s = Val (b, s') → step p (s, live) (s', b :: live)
| step_drop s l1 b l2 s' : put b s = Val s' → step p (s, l1 ++ b :: l2) (s', l1 ++ l2)
| step_set_len s l1 b l2 len b' ok :
    0 ≤ len → set_len len b = Val (b', ok) → step p (s, l1 ++ b :: l2) (s, b' :: l1 ++ l2)
| step_resize s l1 b l2 n b' s' :
    0 ≤ n < u32_modulus → 0 < n ∨ 0 < len_u32 b → resize p n b s = Val (b', s') →
    step p (s, l1 ++ b :: l2) (s', b' :: l1 ++ l2)
| step_append s l1 b l2 bytes b' s' :
    len_u32 b + Z.of_nat (length bytes) < u32_modulus → append p bytes b s = Val (b', s') →
    step p (s, l1 ++ b :: l2) (s', b' :: l1 ++ l2)
| step_fill s l1 b l2 s' : fill_with_zeros b s = Val s' → step p (s, l1 ++ b :: l2) (s', b :: l1 ++ l2).

Lemma inv_pick s l1 b l2 : Inv s (l1 ++ b :: l2) → Inv s (b :: l1 ++ l2).
Proof. apply inv_perm. solve_Permutation. Qed.

Lemma set_len_checked_ok s b live len :
  Inv s (b :: live) → 0 ≤ len → ∃ b', set_len len b = Val (b', len <=? capacity b) ∧ Inv s (b' :: live).
Proof.
  intros HI H0. unfold set_len. destruct (Z.leb_spec len (capacity b)) as [H|H]; [|eauto].
  destruct (relen_ok s b live len HI) as (b' & -> & HI' & _); [lia|]. simpl. eauto.
Qed.

Lemma fill_ok s b live :
  Inv s (b :: live) → ∃ s', fill_with_zeros b s = Val s' ∧ Inv s' (b :: live) ∧ framed s s' live ∧
    data (heap s') b = replicate (Z.to_nat (len_u32 b)) (Some 0).
Proof.
  intros HI. destruct (inv_live _ _ _ HI) as [[_ Hlen Hcap _] _]. unfold fill_with_zeros.
  destruct (write_ok s b live 0 (replicate (Z.to_nat (capacity b)) (Some 0)) HI)
    as (cells & h & Hc & -> & Hh & HI' & Hf); [rewrite length_replicate; lia|].
  simpl. eexists. split_and!; [done..|]. unfold data. simpl. rewrite Hh. simpl.
  rewrite take_app_le by (rewrite length_replicate; lia). by rewrite take_replicate, Nat.min_l by lia.
Qed.

(** [resize] to fewer bytes than there are only shortens the buffer. *)
Lemma resize_short_ok p new_size b s live :
  Inv s (b :: live) → 0 ≤ new_size < len_u32 b →
  ∃ b', resize p new_size b s = Val (b', s) ∧ Inv s (b' :: live) ∧ capacity b' = capacity b ∧
    data (heap s) b' = take (Z.to_nat new_size) (data (heap s) b).
Proof.
  intros HI Hn. unfold resize. rewrite (proj2 (Z.ltb_lt _ _)) by lia.
  destruct (inv_live _ _ _ HI) as [[_ Hlen _ _] _].
  destruct (relen_ok s b live new_size HI) as (b' & -> & HI' & Hp & Hc & Hl & _); [lia|].
  simpl. exists b'. split_and!; [done..|]. unfold data. rewrite Hp, Hl, take_take. f_equal. lia.
Qed.

Lemma resize_any_ok p n b s live :
  Inv s (b :: live) → 0 ≤ n < u32_modulus → 0 < n ∨ 0 < len_u32 b →
  ∃ b' s', resize p n b s = Val (b', s') ∧ Inv s' (b' :: live).
Proof.
  intros HI Hn Hz. destruct (Z.lt_ge_cases n (len_u32 b)).
  - destruct (resize_short_ok p n b s _ HI) as (? & ? & ? & _); [lia|]. eauto.
  - destruct (resize_ok p n b s _ HI) as (? & ? & ? & ? & _); [lia..|]. eauto.
Qed.

Lemma buf_inv_step p a a' : Inv a.1 a.2 → step p a a' → Inv a'.1 a'.2.
Proof.
  intros HI Hs. destruct Hs as [s live b s' He|s live b s' He|s live b s' He|s l1 b l2 s' He
    |s l1 b l2 len b' ok H0 He|s l1 b l2 n b' s' Hn Hz He|s l1 b l2 bytes b' s' Hn He|s l1 b l2 s' He];
    simpl in *; try apply inv_pick in HI.
  - destruct (get_any_ok p s live HI) as (? & ? & He' & ? & _). rewrite He in He'. by simplify_eq.
  - destruct (get_ok p s live HI) as (? & ? & He' & ? & _). rewrite He in He'. by simplify_eq.
  - destruct (get_full_ok p s live HI) as (? & ? & He' & ? & _). rewrite He in He'. by simplify_eq.
  - destruct (put_ok s b _ HI) as (? & He' & ? & _). rewrite He in He'. by simplify_eq.
  - destruct (set_len_checked_ok s b _ len HI H0) as (? & He' & ?). rewrite He in He'. by simplify_eq.
  - destruct (resize_any_ok p n b s _ HI Hn Hz) as (? & ? & He' & ?). rewrite He in He'. by simplify_eq.
  - destruct (append_ok p bytes b s _ HI Hn) as (? & ? & He' & ? & _). rewrite He in He'. by simplify_eq.
  - destruct (fill_ok s b _ HI) as (? & He' & ? & _). rewrite He in He'. by simplify_eq.
Qed.

Lemma leak_zeroed_ok n cap :
  0 < cap < u32_modulus →
  let r := leak_zeroed n cap ∅ in
  heap_ok r.2 (new_fixed_buffers cap r.1) ∧ length r.1 = n.
Proof.
  intros Hcap. induction n as [|n IH]; simpl.
  { split; [|done]. split; simpl; [constructor|constructor|set_solver]. }
  destruct (leak_zeroed n cap ∅) as [ls h]. simpl in *. destruct IH as [IH Hn].
  rewrite length_app. simpl. split; [|lia]. set (l := fresh (dom h)).
  destruct (heap_alloc_ok h _ cap (replicate (Z.to_nat cap) (Some 0)) IH Hcap ltac:(by rewrite length_replicate)
    (LinuxBuffer_new_fixed l cap (Z.of_nat (length ls + 0)))) as [Hh _]; [done..|].
  unfold new_fixed_buffers. rewrite imap_app. simpl. rewrite insert_insert_eq.
  eapply heap_ok_Proper; [done| |exact Hh]. unfold new_fixed_buffers. solve_Permutation.
Qed.

Lemma new_fixed_ids cap ls :
  omap fixed_id (new_fixed_buffers cap ls) = imap (λ i l, (Z.of_nat i, l)) ls.
Proof.
  unfold new_fixed_buffers. induction ls as [|l ls IH] using rev_ind; [done|].
  by rewrite !imap_app, omap_app, IH.
Qed.

Lemma new_fixed_Forall (P : Buffer → Prop) cap ls :
  (∀ i l, P (LinuxBuffer_new_fixed l cap i)) → Forall P (new_fixed_buffers cap ls).
Proof.
  intros HP. apply Forall_forall. intros b (i & l & -> & _)%elem_of_lookup_imap_1. apply HP.
Qed.

Lemma buf_inv_init n cap : 0 < cap < u32_modulus → Inv (BufPool_new n cap ∅) [].
Proof.
  intros Hcap. unfold BufPool_new. destruct (Nat.eqb_spec n 0) as [->|Hn].
  { split; simpl; first [done | by repeat constructor]. }
  pose proof (leak_zeroed_ok n cap Hcap) as [Hh _]. destruct (leak_zeroed n cap ∅) as [ls h].
  simpl in Hh. split; simpl; unfold all_bufs; simpl; rewrite ?app_nil_r; try done.
  - by rewrite (new_fixed_ids cap ls).
  - by apply (new_fixed_Forall _ cap ls).
  - by apply (new_fixed_Forall _ cap ls).
Qed.

Lemma buf_reachable p n cap s live :
  0 < cap < u32_modulus → rtc (step p) (BufPool_new n cap ∅, []) (s, live) → Inv s live.
Proof.
  intros Hcap Hr. apply (rtc_invariant (step p) (λ a, Inv a.1 a.2) (BufPool_new n cap ∅, []) (s, live)).
  - intros. by eapply buf_inv_step.
  - by apply buf_inv_init.
  - done.
Qed.

(** ** Dropping the pool *)
Lemma deallocate_all_ok nf s live :
  heap_ok (heap s) (live ++ nf) → Forall (λ b, is_fixed b = false) nf →
  ∃ h, deallocate_all nf s = Val (set_heap h s) ∧ heap_ok h live ∧ unchanged (heap s) h live.
Proof.
  revert s. induction nf as [|b nf IH]; intros s Hh Hf; simpl.
  - rewrite app_nil_r in Hh. exists (heap s). split_and!; [by destruct s|done|by apply Forall_forall].
  - apply Forall_cons in Hf as [Hb Hf]. destruct b as [?|v]; [done|]. simpl.
    destruct (heap_free_ok (heap s) (NonFixed v) (live ++ nf)) as (h1 & He & Hh1 & Hu1).
    { eapply heap_ok_Proper; [done| |exact Hh]. solve_Permutation. }
    simpl in He. rewrite He. simpl. destruct (IH (set_heap h1 s) Hh1 Hf) as (h & -> & Hh2 & Hu2).
    exists h. split_and!; [done..|]. unfold unchanged in *. rewrite Forall_app in Hu1.
    destruct Hu1 as [Hu1 _]. rewrite Forall_forall in *. intros b' Hb'. simpl in Hu2.
    rewrite Hu2 by done. by apply Hu1.
Qed.

Lemma deallocate_fixed l s : Forall (λ b, is_fixed b = true) l → deallocate_all l s = Val s.
Proof. induction 1 as [|b l Hb _ IH]; [done|]. simpl. destruct b; [|done]. simpl. apply IH. Qed.

Lemma free_all_ok l h :
  NoDup l → Forall (λ a, a ∈ dom h) l →
  ∃ h', free_all l h = Val h' ∧ (∀ a, a ∈ l → h' !! a = None) ∧ (∀ a, a ∉ l → h' !! a = h !! a).
Proof.
  revert h. induction l as [|a l IH]; intros h Hn Hl; simpl.
  { exists h. split_and!; [done| |done]. by intros a ?%not_elem_of_nil. }
  apply NoDup_cons in Hn as [Ha Hn]. apply Forall_cons in Hl as [Had Hl].
  apply elem_of_dom in Had as [cells Hc]. unfold heap_free. rewrite Hc. simpl.
  destruct (IH (delete a h) Hn) as (h' & -> & Hin & Hout).
  { rewrite Forall_forall in *. intros x Hx. rewrite dom_delete. set_solver. }
  exists h'. split_and!; [done|..].
  - intros x [->|Hx]%elem_of_cons; [|auto]. rewrite Hout by done. apply lookup_delete_eq.
  - intros x Hx. rewrite not_elem_of_cons in Hx. destruct Hx. rewrite Hout by done.
    by rewrite lookup_delete_ne.
Qed.

(** The fixed buffers are distinct allocations on the heap. *)
Lemma fixed_ptrs h bs ls :
  heap_ok h bs → omap fixed_id bs ≡ₚ imap (λ i l, (Z.of_nat i, l)) ls →
  NoDup ls ∧ Forall (λ a, a ∈ dom h) ls ∧
  (∀ b, b ∈ bs → is_fixed b = true → as_ptr b ∈ ls) ∧
  (Forall (λ b, is_fixed b = true) bs → dom h = list_to_set ls).
Proof.
  intros [Hb Hn Hd] Hf.
  assert (∀ l : list nat, (imap (λ i l, (Z.of_nat i, l)) l).*2 = l) as Hsnd.
  { induction l as [|x l IH] using rev_ind; [done|]. by rewrite imap_app, fmap_app, IH. }
  assert ((omap fixed_id bs).*2 ≡ₚ ls) as Hp by by rewrite Hf, Hsnd.
  assert (∀ l, (omap fixed_id l).*2 `sublist_of` (as_ptr <$> l)) as Hsub.
  { induction l as [|[f|v] l IH]; csimpl; [done|by constructor|by constructor]. }
  split_and!.
  - rewrite <-Hp. eapply sublist_NoDup; [done|apply Hsub].
  - rewrite <-Hp. apply Forall_forall. intros a Ha. rewrite Hd. apply elem_of_list_to_set.
    eapply elem_of_submseteq; [done|]. by apply sublist_submseteq.
  - intros b Hb' Hfx. rewrite <-Hp. destruct b as [f|]; [|done]. apply list_elem_of_fmap.
    exists (fx_index f, fx_ptr f). split; [done|]. apply list_elem_of_omap. by exists (Fixed f).
  - intros Hall. rewrite Hd. apply list_to_set_perm_L. rewrite <-Hp. clear -Hall.
    induction Hall as [|[f|] l Hx _ IH]; csimpl; [done|by rewrite IH|done].
Qed.

(** The drop of the pool: the vectors go; with a fixed buffer in the pool all
    fixed ones go, wherever they are; without one they all stay. *)
Lemma deallocate_buffers_ok s live :
  Inv s live → ∃ s', deallocate_buffers s = Val s' ∧
    (pool_of_fixed_buffers (pool s) = [] →
      registered s' = registered s ∧ unchanged (heap s) (heap s') live ∧ heap_ok (heap s') live) ∧
    (pool_of_fixed_buffers (pool s) ≠ [] → registered s' = false ∧
      (∀ b, b ∈ live → is_fixed b = true → heap s' !! as_ptr b = None) ∧
      (live = [] → heap s' = ∅)).
Proof.
  intros HI. unfold deallocate_buffers. set (fixed := pool_of_fixed_buffers (pool s)).
  destruct (deallocate_all_ok (pool_of_non_fixed_buffers (pool s)) (set_pools fixed [] s) (live ++ fixed))
    as (h & -> & Hh1 & Hu1).
  { rewrite <-app_assoc. apply HI. }
  { eapply Forall_impl; [apply HI|]. simpl. tauto. }
  cbn [mbind outcome_bind]. pose proof (inv_pool_fixed _ _ HI) as Hfix. fold fixed in Hfix.
  destruct fixed as [|f fs] eqn:Hfs.
  { eexists. split; [done|]. split; [|done]. intros _. rewrite app_nil_r in *. done. }
  rewrite deallocate_fixed by done. cbn [mbind outcome_bind pool set_heap set_pools heap fixed_buffers].
  destruct (fixed_ptrs h (live ++ f :: fs) (fixed_buffers (pool s)) Hh1) as (Hn & Hd & Hb & Hall).
  { rewrite <-(inv_fixed _ _ HI). unfold all_bufs. fold fixed. rewrite Hfs, app_assoc, (omap_app _ (_ ++ _)).
    assert (omap fixed_id (pool_of_non_fixed_buffers (pool s)) = []) as ->; [|by rewrite app_nil_r].
    pose proof (inv_pool_non_fixed _ _ HI) as Hnf. clear -Hnf.
    induction Hnf as [|[|] l [] _ IH]; csimpl; done. }
  destruct (free_all_ok _ h Hn Hd) as (h' & -> & Hin & Hout). eexists. split; [done|]. split; [done|].
  intros _. simpl. split_and!; [done| |].
  - intros b Hl Hbf. apply Hin, Hb; [|done]. apply elem_of_app. by left.
  - intros ->. apply map_eq. intros a. rewrite lookup_empty.
    destruct (decide (a ∈ fixed_buffers (pool s))) as [Ha|Ha]; [auto|].
    rewrite Hout by done. apply not_elem_of_dom. rewrite (Hall Hfix). by rewrite not_elem_of_list_to_set.
Qed.

(** ** Theorems *)


(** [append] adds the bytes after those of the buffer, in place or in a new
    buffer of exactly the size that is needed, and changes no other buffer. *)
Theorem buffer_append (p : profile) (n : nat) (cap : Z) (s : St) (b : Buffer) (live : list Buffer)
    (bytes : list Z) :
  0 < cap < u32_modulus → rtc (step p) (BufPool_new n cap ∅, []) (s, b :: live) →
  len_u32 b + Z.of_nat (length bytes) < u32_modulus →
  ∃ old b' s', as_ref b s = Val old ∧ append p bytes b s = Val (b', s') ∧
    as_ref b' s' = Val (old ++ (Some <$> bytes)) ∧
    capacity b' = Z.max (capacity b) (len_u32 b + Z.of_nat (length bytes)) ∧
    ∀ x, x ∈ live → as_ref x s' = as_ref x s.
Proof.
  intros Hcap Hr Hlt. apply buf_reachable in Hr as HI; [|done].
  destruct (append_ok p bytes b s live HI Hlt) as (b' & s' & Ha & HI' & Hf & Hd & Hc).
  destruct (inv_live _ _ _ HI) as [Hb _], (inv_live _ _ _ HI') as [Hb' _].
  exists (data (heap s) b), b', s'. split_and!; [by apply as_ref_data|done| |done|].
  - by rewrite (as_ref_data _ _ _ eq_refl Hb'), Hd.
  - intros x Hx. destruct Hf as [Hf _ _]. unfold unchanged in Hf. rewrite Forall_forall in Hf.
    specialize (Hf x Hx). unfold as_ref, LinuxBuffer_as_ref, heap_read.
    destruct x; simpl in *; by rewrite Hf.
Qed.

(** [resize] keeps the bytes when they fit and gives a buffer of exactly the
    new capacity; for a smaller size it only drops the bytes past it and
    leaves the capacity. *)
Theorem buffer_resize (p : profile) (n : nat) (cap : Z) (s : St) (b : Buffer) (live : list Buffer)
    (new_size : Z) :
  0 < cap < u32_modulus → rtc (step p) (BufPool_new n cap ∅, []) (s, b :: live) →
  0 < new_size < u32_modulus →
  ∃ old b' s', as_ref b s = Val old ∧ resize p new_size b s = Val (b', s') ∧
    as_ref b' s' = Val (take (Z.to_nat new_size) old) ∧
    capacity b' = if new_size <? len_u32 b then capacity b else new_size.
Proof.
  intros Hcap Hr Hn. apply buf_reachable in Hr as HI; [|done].
  destruct (inv_live _ _ _ HI) as [Hb _]. exists (data (heap s) b).
  destruct (Z.ltb_spec new_size (len_u32 b)) as [Hlt|Hge].
  - destruct (resize_short_ok p new_size b s live HI) as (b' & He & HI' & Hc & Hd); [lia|].
    destruct (inv_live _ _ _ HI') as [Hb' _]. exists b', s.
    split_and!; [by apply as_ref_data|done| |done]. by rewrite (as_ref_data _ _ _ eq_refl Hb'), Hd.
  - destruct (resize_ok p new_size b s live HI) as (b' & s' & He & HI' & _ & Hc & Hd); [lia..|].
    destruct (inv_live _ _ _ HI') as [Hb' _]. exists b', s'.
    split_and!; [by apply as_ref_data|done| |done]. rewrite (as_ref_data _ _ _ eq_refl Hb'), Hd.
    rewrite take_ge; [done|]. pose proof (data_length _ _ Hb). lia.
Qed.

(** A slice inside the bytes of a buffer is that part of them. A slice is not
    checked when it is made: one that ends past the capacity reads memory
    that is not the buffer's. *)
Theorem buffer_slice (p : profile) (n : nat) (cap : Z) (s : St) (b : Buffer) (live : list Buffer)
    (first last : Z) :
  0 < cap < u32_modulus → rtc (step p) (BufPool_new n cap ∅, []) (s, b :: live) →
  0 ≤ first ≤ last →
  ∃ old sl, as_ref b s = Val old ∧ slice p (Included first) (Excluded last) b = Val sl ∧
    (last ≤ len_u32 b → slice_as_bytes p sl s =
      Val (take (Z.to_nat (last - first)) (drop (Z.to_nat first) old))) ∧
    (capacity b < last → slice_as_bytes p sl s = Undefined).
Proof.
  intros Hcap Hr Hfl. apply buf_reachable in Hr as HI; [|done].
  destruct (inv_live _ _ _ HI) as [Hb _]. exists (data (heap s) b), (mkSlice b first last).
  split; [by apply as_ref_data|]. split; [done|]. destruct Hb as [(cells & Hc & Hl) Hlen _ _].
  unfold slice_as_bytes, slice_len_u32. simpl. rewrite u32_sub_Val by lia. simpl.
  unfold heap_read, data. rewrite Hc. simpl. split; intros Hle.
  - rewrite (proj2 (Nat.leb_le _ _)) by lia. f_equal.
    rewrite skipn_firstn_comm, take_take. f_equal. lia.
  - by rewrite (proj2 (Nat.leb_gt _ _)) by lia.
Qed.

(** Two other inputs are not checked: an empty buffer resized to 0 asks the
    allocator for no memory, and a length that does not fit in 32 bits is
    cut, so that [append] writes past the buffer. *)
Theorem buffer_unchecked_sizes (p : profile) (n : nat) (cap : Z) (s : St) (b : Buffer)
    (live : list Buffer) (bytes : list Z) :
  0 < cap < u32_modulus → rtc (step p) (BufPool_new n cap ∅, []) (s, b :: live) →
  (len_u32 b = 0 →
    resize p 0 b s = match p with Debug => Panicked | Release => Undefined end) ∧
  (Z.of_nat (length bytes) `mod` u32_modulus ≤ capacity b - len_u32 b →
    u32_modulus ≤ Z.of_nat (length bytes) → append p bytes b s = Undefined).
Proof.
  intros Hcap Hr. apply buf_reachable in Hr as HI; [|done].
  destruct (inv_live _ _ _ HI) as [[(cells & Hc & Hl) Hlen Hbc _] _]. split.
  - intros H0. unfold resize. rewrite H0. simpl. rewrite (proj2 (Z.eqb_neq _ _)).
    + by destruct p.
    + pose proof (inv_cap _ _ HI). lia.
  - intros Hm Hbig. unfold append. rewrite u32_sub_Val by lia. cbn [mbind outcome_bind].
    unfold u32_wrap. rewrite (proj2 (Z.ltb_ge _ _)) by lia. cbn [mbind outcome_bind].
    unfold heap_write. rewrite Hc. simpl. rewrite length_fmap.
    by rewrite (proj2 (Nat.leb_gt _ _)) by lia.
Qed.

(** When the pool of a thread is dropped and every buffer is back, all memory
    is freed and deregistered. If some fixed buffers are still held and others
    are back, the memory of the held ones is freed under them; if all fixed
    ones are held, their memory stays registered and is never freed. *)
Theorem buf_pool_drop (p : profile) (n : nat) (cap : Z) (s : St) (live : list Buffer) :
  0 < cap < u32_modulus → rtc (step p) (BufPool_new n cap ∅, []) (s, live) →
  ∃ s', deallocate_buffers s = Val s' ∧
    (pool_of_fixed_buffers (pool s) = [] → registered s' = registered s ∧
      dom (heap s') = list_to_set (as_ptr <$> live)) ∧
    (pool_of_fixed_buffers (pool s) ≠ [] → registered s' = false ∧ (live = [] → heap s' = ∅) ∧
      ∀ b, b ∈ live → is_fixed b = true → as_ref b s' = Undefined).
Proof.
  intros Hcap Hr. apply buf_reachable in Hr as HI; [|done].
  destruct (deallocate_buffers_ok s live HI) as (s' & He & Hnil & Hcons). exists s'.
  split; [done|]. split.
  - intros Hp. destruct (Hnil Hp) as (? & _ & [_ _ ?]). done.
  - intros Hp. destruct (Hcons Hp) as (? & Hd & ?). split_and!; [done..|].
    intros b Hb Hf. specialize (Hd b Hb Hf). destruct b as [f|]; [|done].
    unfold as_ref, LinuxBuffer_as_ref, heap_read. simpl in *. by rewrite Hd.
Qed.

(** ** Witnesses: a thread with one fixed buffer of four bytes *)

Definition ex_one : St * list Buffer :=
  match get Debug (BufPool_new 1 4 ∅) with
  | Val (b, s) => (s, [b])
  | _ => (BufPool_new 1 4 ∅, [])
  end.

Definition ex_held : Buffer := default (NonFixed (mkVecU8 0 0 0)) (head ex_one.2).

Lemma ex_one_reachable : rtc (step Debug) (BufPool_new 1 4 ∅, []) (ex_one.1, ex_held :: []).
Proof. apply rtc_once, step_get. vm_compute. reflexivity. Qed.

Lemma ex_cap : 0 < 4 < u32_modulus.
Proof. done. Qed.


Lemma buffer_append_witness :
  ∃ b' s', append Debug [1; 2; 3; 4; 5] ex_held ex_one.1 = Val (b', s') ∧
    as_ref b' s' = Val [Some 1; Some 2; Some 3; Some 4; Some 5] ∧ capacity b' = 5.
Proof.
  destruct (buffer_append Debug 1 4 _ _ _ [1; 2; 3; 4; 5] ex_cap ex_one_reachable)
    as (old & b' & s' & Ho & Ha & Hr & Hc & _); [done|].
  exists b', s'. vm_compute in Ho. injection Ho as <-. split_and!; [done|by rewrite Hr|by rewrite Hc].
Defined.

Lemma buffer_resize_witness :
  ∃ b' s', resize Debug 7 ex_held ex_one.1 = Val (b', s') ∧ capacity b' = 7.
Proof.
  destruct (buffer_resize Debug 1 4 _ _ _ 7 ex_cap ex_one_reachable)
    as (old & b' & s' & _ & He & _ & Hc); [done|].
  exists b', s'. split; [done|by rewrite Hc].
Defined.

Lemma buffer_slice_witness :
  ∃ sl, slice Debug (Included 2) (Excluded 5) ex_held = Val sl ∧
    slice_as_bytes Debug sl ex_one.1 = Undefined.
Proof.
  destruct (buffer_slice Debug 1 4 _ _ _ 2 5 ex_cap ex_one_reachable)
    as (old & sl & _ & Hs & _ & Hu); [lia|].
  exists sl. split; [done|]. by apply Hu.
Defined.

Lemma buffer_unchecked_sizes_witness :
  resize Debug 0 ex_held ex_one.1 = Panicked ∧
  append Debug (replicate (Z.to_nat u32_modulus) 0) ex_held ex_one.1 = Undefined.
Proof.
  destruct (buffer_unchecked_sizes Debug 1 4 _ _ _ (replicate (Z.to_nat u32_modulus) 0)
    ex_cap ex_one_reachable) as [H1 H2].
  split; [by apply H1|]. rewrite length_replicate, Z2Nat.id in H2 by done. by apply H2.
Defined.

Lemma buf_pool_drop_witness :
  ∃ s', deallocate_buffers ex_one.1 = Val s' ∧ registered s' = true.
Proof.
  destruct (buf_pool_drop Debug 1 4 _ _ ex_cap ex_one_reachable) as (s' & He & Hn & _).
  exists s'. split; [done|]. by destruct (Hn eq_refl) as [-> _].
Defined.
