(* ===== verification/IoTypes.v ===== *)
(** * Requests to an IO worker

    Models [src/src/io/io_request_data.rs] (the result and the task of a
    request), [src/src/io/time_bounded_io_task.rs] (an entry of the queue of
    deadlines), [src/src/io/worker.rs] (the interface of a worker and the
    worker of a thread) and the two macros of [src/orengine-macros/src/lib.rs]
    that every IO future is made with.

    An [IoRequestData] is a field of a future, which does not move while it is
    polled, and a worker knows it by its address: memory is a map from the
    addresses of the requests that are in the field to their data, with the
    deadline, which is the next field of the future. Taking the request out of
    the field removes it from the map. What a worker makes the executor do is
    a list of actions. *)

From Stdlib Require Import ZArith Lia.
From S2P Require Import Prelude BTree Task.

Local Open Scope Z_scope.

(** ** [std::io::Error]

    An error is made from a kind or from a code of the system, whose kind the
    standard library looks up. The kinds of codes that the source never
    compares with are one, [OtherKind]. *)
Inductive ErrorKind :=
| TimedOut
| WouldBlock
| Interrupted
| NotFound
| InvalidInput
| InvalidData
| Unsupported
| OtherKind.

Inductive Error :=
| Simple (k : ErrorKind)
| OsError (code : Z).

Global Instance ErrorKind_eq_dec : EqDecision ErrorKind.
Proof. solve_decision. Defined.
Global Instance Error_eq_dec : EqDecision Error.
Proof. solve_decision. Defined.

(** Codes of Linux. *)
Definition ENOENT : Z := 2.
Definition EINTR : Z := 4.
Definition EAGAIN : Z := 11.
Definition EBUSY : Z := 16.
Definition EINVAL : Z := 22.
Definition ETIME : Z := 62.
Definition ETIMEDOUT : Z := 110.
Definition EINPROGRESS : Z := 115.
Definition ECANCELED : Z := 125.

Definition Error_kind (e : Error) : ErrorKind :=
  match e with
  | Simple k => k
  | OsError c =>
      if c =? ETIMEDOUT then TimedOut
      else if c =? EAGAIN then WouldBlock
      else if c =? EINTR then Interrupted
      else if c =? ENOENT then NotFound
      else if c =? EINVAL then InvalidInput
      else OtherKind
  end.

Definition raw_os_error (e : Error) : option Z :=
  match e with Simple _ => None | OsError c => Some c end.

Inductive Result (A : Type) :=
| Ok (a : A)
| Err (e : Error).
Arguments Ok {A} a.
Arguments Err {A} e.

Global Instance Result_eq_dec {A} `{EqDecision A} : EqDecision (Result A).
Proof. solve_decision. Defined.

(** ** [io_request_data.rs] *)
Definition UNINIT_RESULT : Result Z := Ok (2 ^ 32 - 1).

(** [was_executed] exists under [debug_assertions] only. *)
Record IoRequestData := mkIoRequestData {
  ret : Result Z;
  task : Task;
  was_executed : bool;
}.

Definition IoRequestData_new (t : Task) : IoRequestData := mkIoRequestData UNINIT_RESULT t false.

Definition check_if_executed_in_debug (p : profile) (d : IoRequestData) : outcome IoRequestData :=
  match p with
  | Debug => rassert (negb (was_executed d));; Val (mkIoRequestData (ret d) (task d) true)
  | Release => Val d
  end.

Definition set_ret (r : Result Z) (d : IoRequestData) : IoRequestData :=
  mkIoRequestData r (task d) (was_executed d).

(** [IoRequestData::task]: the task and the request after it. *)
Definition IoRequestData_task (p : profile) (d : IoRequestData) : outcome (Task * IoRequestData) :=
  d ← check_if_executed_in_debug p d; Val (task d, d).

(** The fields of a future that a worker reaches by the pointer. *)
Record Fut := mkFut { io_request_data : IoRequestData; fut_deadline : option Z }.

Abbreviation Mem := (gmap Z Fut).

(** A dereference of [IoRequestDataPtr]. *)
Definition get_mut (a : Z) (m : Mem) : outcome Fut := unchecked (m !! a).

Definition write_req (a : Z) (d : IoRequestData) (m : Mem) : Mem :=
  alter (λ f, mkFut d (fut_deadline f)) a m.

Definition write_deadline (a : Z) (deadline : Z) (m : Mem) : Mem :=
  alter (λ f, mkFut (io_request_data f) (Some deadline)) a m.

(** What a worker makes the executor do. *)
Inductive Action :=
| ExecTask (t : Task)
| SpawnLocalTask (t : Task)
| SpawnSharedTask (t : Task)
| InvokeCall (c : Call).

(** A request whose task can be executed at once: the result is written and
    the task is taken out and handed to the executor. *)
Definition exec_or_spawn (t : Task) : Action :=
  if Task_is_local t then ExecTask t else SpawnSharedTask t.

Definition complete_request (p : profile) (a : Z) (r : Result Z) (m : Mem)
    : outcome (Mem * Action) :=
  f ← get_mut a m;
  '(t, d) ← IoRequestData_task p (set_ret r (io_request_data f));
  Val (write_req a d m, exec_or_spawn t).

(** ** [worker.rs]

    The operations of the trait. The first group also has variants with a
    deadline. Pointers, sockets and files are integers. *)
Inductive NetOp :=
| accept (raw_socket addr_ptr addr_len : Z)
| connect (raw_socket addr_ptr addr_len : Z)
| poll_socket_read (raw_socket : Z)
| poll_socket_write (raw_socket : Z)
| recv (raw_socket ptr len : Z)
| recv_fixed (raw_socket ptr len buf_index : Z)
| recv_from (raw_socket msg_header : Z)
| send (raw_socket ptr len : Z)
| send_fixed (raw_socket ptr len buf_index : Z)
| send_to (raw_socket msg_header : Z)
| peek (raw_socket ptr len : Z)
| peek_fixed (raw_socket ptr len buf_index : Z)
| peek_from (raw_socket msg : Z).

Inductive ShutdownHow := ShutdownRead | ShutdownWrite | ShutdownBoth.

Inductive FileOp :=
| socket (domain sock_type protocol : Z)
| shutdown (raw_socket : Z) (how : ShutdownHow)
| open (path open_how : Z)
| fallocate (raw_file offset len flags : Z)
| sync_all (raw_file : Z)
| sync_data (raw_file : Z)
| read (raw_file ptr len : Z)
| read_fixed (raw_file ptr len buf_index : Z)
| pread (raw_file ptr len offset : Z)
| pread_fixed (raw_file ptr len buf_index offset : Z)
| write (raw_file ptr len : Z)
| write_fixed (raw_file ptr len buf_index : Z)
| pwrite (raw_file ptr len offset : Z)
| pwrite_fixed (raw_file ptr len buf_index offset : Z)
| close_file (raw_file : Z)
| close_socket (raw_socket : Z)
| rename (old_path new_path : Z)
| create_dir (path mode : Z)
| remove_file (path : Z)
| remove_dir (path : Z).

Inductive IoOp :=
| Net (op : NetOp)
| NetWithDeadline (op : NetOp) (deadline : Z)
| File (op : FileOp).

Definition op_deadline (op : IoOp) : option Z :=
  match op with NetWithDeadline _ d => Some d | _ => None end.

(** What the futures and the executor need of a worker. [request] is the
    method named by the operation, with the address of the request. *)
Class IoWorker (W : Type) := {
  deregister_time_bounded_io_task : Z → W → W;
  has_work : W → bool;
  request : profile → IoOp → Z → W → Mem → outcome (W * Mem * list Action);
}.

(** [init_local_worker] and [local_worker]. *)
Definition init_local_worker {W} (w : W) (local : option W) : outcome (option W) :=
  rassert (negb (bool_decide (is_Some local)));; Val (Some w).

Definition local_worker {W} (p : profile) (local : option W) : outcome W :=
  match p with Debug => expect local | Release => unchecked local end.

(** ** The macros [poll_for_io_request] and [poll_for_time_bounded_io_request]

    The poll of a future with its request at [a], run by the task [t]:
    [ret_statement] makes the result from the number the operation returned. *)
Section poll.
Context {W : Type} `{IoWorker W} {A : Type}.

Definition poll_for_io_request (p : profile) (a : Z) (t : Task) (op : IoOp)
    (ret_statement : Z → A) (w : W) (m : Mem)
    : outcome (Poll (Result A) * W * Mem * list Action) :=
  match m !! a with
  | Some f =>
      let m := delete a m in
      match ret (io_request_data f) with
      | Ok r => Val (Ready (Ok (ret_statement r)), w, m, [])
      | Err e => Val (Ready (Err e), w, m, [])
      end
  | None =>
      '(w, m, acts) ← request p op a w (<[a := mkFut (IoRequestData_new t) None]> m);
      Val (Pending, w, m, acts)
  end.

Definition poll_for_time_bounded_io_request (p : profile) (a : Z) (t : Task) (op : NetOp)
    (deadline : Z) (ret_statement : Z → A) (w : W) (m : Mem)
    : outcome (Poll (Result A) * W * Mem * list Action) :=
  match m !! a with
  | Some f =>
      let m := delete a m in
      let this_deadline := default deadline (fut_deadline f) in
      match ret (io_request_data f) with
      | Ok r =>
          Val (Ready (Ok (ret_statement r)),
               deregister_time_bounded_io_task this_deadline w, m, [])
      | Err e =>
          let w := if decide (Error_kind e ≠ TimedOut)
                   then deregister_time_bounded_io_task this_deadline w else w in
          Val (Ready (Err e), w, m, [])
      end
  | None =>
      '(w, m, acts) ← request p (NetWithDeadline op deadline) a w
        (<[a := mkFut (IoRequestData_new t) (Some deadline)]> m);
      Val (Pending, w, m, acts)
  end.

End poll.

(** Runs on concrete states whose guards are decided by evaluation. *)
Ltac io_side := vm_compute; repeat split; first [reflexivity | discriminate | done].

Tactic Notation "io_step" uconstr(H) :=
  eapply rtc_l; [eapply H; io_side|]; eval_state.
