(* ===== verification/IoOps.v ===== *)
(** * IO futures and the methods that await them

    Models the futures of [src/src/io/net], [src/src/io/fs] and
    [src/src/io/close.rs], each by the operation it asks of the worker and by
    what it makes of the number that the operation returns, and the methods of
    [AsyncRecv], [AsyncSend], [AsyncPeek], [AsyncRead] and [AsyncWrite], in
    particular the loops that transfer a whole buffer.

    A slice is its address and its length. [await_op] is how the worker and
    the system answer an operation; [fuel] bounds the turns of a loop. *)

From Stdlib Require Import ZArith Lia.
From S2P Require Import Prelude Task IoTypes.

Local Open Scope Z_scope.

(** ** Futures *)

Record IoFuture (A : Type) := mkIoFuture { fut_op : IoOp; fut_ret : Z → A }.
Arguments mkIoFuture {A} fut_op fut_ret.
Arguments fut_op {A} i.
Arguments fut_ret {A} i _.

(** [poll] of a future with its request at the address [a]. *)
Definition IoFuture_poll {W} `{IoWorker W} {A} (p : profile) (a : Z) (t : Task) (f : IoFuture A) (w : W)
    (m : Mem) : outcome (Poll (Result A) * W * Mem * list Action) :=
  match fut_op f with
  | NetWithDeadline op d => poll_for_time_bounded_io_request p a t op d (fut_ret f) w m
  | op => poll_for_io_request p a t op (fut_ret f) w m
  end.

(** [recv.rs] *)
Definition RecvBytes (raw_socket ptr len : Z) : IoFuture Z :=
  mkIoFuture (Net (IoTypes.recv raw_socket ptr (u32_wrap len))) (λ ret, ret).
Definition RecvFixed (raw_socket ptr len fixed_index : Z) : IoFuture Z :=
  mkIoFuture (Net (IoTypes.recv_fixed raw_socket ptr len fixed_index)) u32_wrap.
Definition RecvBytesWithDeadline (raw_socket ptr len deadline : Z) : IoFuture Z :=
  mkIoFuture (NetWithDeadline (IoTypes.recv raw_socket ptr (u32_wrap len)) deadline) (λ ret, ret).
Definition RecvFixedWithDeadline (raw_socket ptr len fixed_index deadline : Z) : IoFuture Z :=
  mkIoFuture (NetWithDeadline (IoTypes.recv_fixed raw_socket ptr len fixed_index) deadline) u32_wrap.

(** [send.rs] *)
Definition SendBytes (raw_socket ptr len : Z) : IoFuture Z :=
  mkIoFuture (Net (IoTypes.send raw_socket ptr (u32_wrap len))) (λ ret, ret).
Definition SendFixed (raw_socket ptr len fixed_index : Z) : IoFuture Z :=
  mkIoFuture (Net (IoTypes.send_fixed raw_socket ptr len fixed_index)) u32_wrap.
Definition SendBytesWithDeadline (raw_socket ptr len deadline : Z) : IoFuture Z :=
  mkIoFuture (NetWithDeadline (IoTypes.send raw_socket ptr (u32_wrap len)) deadline) (λ ret, ret).
Definition SendFixedWithDeadline (raw_socket ptr len fixed_index deadline : Z) : IoFuture Z :=
  mkIoFuture (NetWithDeadline (IoTypes.send_fixed raw_socket ptr len fixed_index) deadline) u32_wrap.

(** [peek.rs] *)
Definition PeekBytes (raw_socket ptr len : Z) : IoFuture Z :=
  mkIoFuture (Net (IoTypes.peek raw_socket ptr (u32_wrap len))) (λ ret, ret).
Definition PeekFixed (raw_socket ptr len fixed_index : Z) : IoFuture Z :=
  mkIoFuture (Net (IoTypes.peek_fixed raw_socket ptr len fixed_index)) u32_wrap.
Definition PeekBytesWithDeadline (raw_socket ptr len deadline : Z) : IoFuture Z :=
  mkIoFuture (NetWithDeadline (IoTypes.peek raw_socket ptr (u32_wrap len)) deadline) (λ ret, ret).
Definition PeekFixedWithDeadline (raw_socket ptr len fixed_index deadline : Z) : IoFuture Z :=
  mkIoFuture (NetWithDeadline (IoTypes.peek_fixed raw_socket ptr len fixed_index) deadline) u32_wrap.

(** [read.rs] and [write.rs] *)
Definition ReadBytes (raw_file ptr len : Z) : IoFuture Z :=
  mkIoFuture (File (IoTypes.read raw_file ptr (u32_wrap len))) (λ ret, ret).
Definition ReadFixed (raw_file ptr len fixed_index : Z) : IoFuture Z :=
  mkIoFuture (File (IoTypes.read_fixed raw_file ptr len fixed_index)) u32_wrap.
Definition PositionedReadBytes (raw_file ptr len offset : Z) : IoFuture Z :=
  mkIoFuture (File (IoTypes.pread raw_file ptr (u32_wrap len) offset)) (λ ret, ret).
Definition PositionedReadFixed (raw_file ptr len fixed_index offset : Z) : IoFuture Z :=
  mkIoFuture (File (IoTypes.pread_fixed raw_file ptr len fixed_index offset)) u32_wrap.
Definition WriteBytes (raw_file ptr len : Z) : IoFuture Z :=
  mkIoFuture (File (IoTypes.write raw_file ptr (u32_wrap len))) (λ ret, ret).
Definition WriteFixed (raw_file ptr len fixed_index : Z) : IoFuture Z :=
  mkIoFuture (File (IoTypes.write_fixed raw_file ptr len fixed_index)) u32_wrap.
Definition PositionedWriteBytes (raw_file ptr len offset : Z) : IoFuture Z :=
  mkIoFuture (File (IoTypes.pwrite raw_file ptr (u32_wrap len) offset)) (λ ret, ret).
Definition PositionedWriteFixed (raw_file ptr len fixed_index offset : Z) : IoFuture Z :=
  mkIoFuture (File (IoTypes.pwrite_fixed raw_file ptr len fixed_index offset)) u32_wrap.

(** [connect.rs], [poll_fd.rs], [shutdown.rs], [socket.rs], [close.rs] and the
    rest of [fs]; an address is its pointer and its length. *)
Definition Connect (raw_fd addr addr_len : Z) : IoFuture () :=
  mkIoFuture (Net (connect raw_fd addr addr_len)) (λ _, ()).
Definition ConnectWithDeadline (raw_fd addr addr_len deadline : Z) : IoFuture () :=
  mkIoFuture (NetWithDeadline (connect raw_fd addr addr_len) deadline) (λ _, ()).

(** [generate_poll!]: [method] is the one of reading or of writing. *)
Definition PollFd (method : Z → NetOp) (raw_socket : Z) : IoFuture () :=
  mkIoFuture (Net (method raw_socket)) (λ _, ()).
Definition PollFdWithDeadline (method : Z → NetOp) (raw_socket deadline : Z) : IoFuture () :=
  mkIoFuture (NetWithDeadline (method raw_socket) deadline) (λ _, ()).
Definition PollRecv : Z → IoFuture () := PollFd poll_socket_read.
Definition PollSend : Z → IoFuture () := PollFd poll_socket_write.

Definition Shutdown (raw_socket : Z) (how : ShutdownHow) : IoFuture () :=
  mkIoFuture (File (shutdown raw_socket how)) (λ _, ()).
Definition Socket (domain socket_type protocol : Z) : IoFuture Z :=
  mkIoFuture (File (socket domain socket_type protocol)) (λ ret, ret).
Definition CloseSocket (raw_socket : Z) : IoFuture () :=
  mkIoFuture (File (close_socket raw_socket)) (λ _, ()).
Definition CloseFile (raw_file : Z) : IoFuture () :=
  mkIoFuture (File (close_file raw_file)) (λ _, ()).
Definition Open (path os_open_options : Z) : IoFuture Z :=
  mkIoFuture (File (open path os_open_options)) (λ ret, ret).
Definition Rename (old_path new_path : Z) : IoFuture () :=
  mkIoFuture (File (rename old_path new_path)) (λ _, ()).
Definition CreateDir (os_path mode : Z) : IoFuture () :=
  mkIoFuture (File (create_dir os_path mode)) (λ _, ()).
Definition Remove (path : Z) : IoFuture () :=
  mkIoFuture (File (remove_file path)) (λ _, ()).
Definition RemoveDir (path : Z) : IoFuture () :=
  mkIoFuture (File (remove_dir path)) (λ _, ()).
Definition Fallocate (raw_file offset len flags : Z) : IoFuture () :=
  mkIoFuture (File (fallocate raw_file offset len flags)) (λ _, ()).
Definition SyncAll (raw_file : Z) : IoFuture Z :=
  mkIoFuture (File (sync_all raw_file)) (λ ret, ret).
Definition SyncData (raw_file : Z) : IoFuture Z :=
  mkIoFuture (File (sync_data raw_file)) (λ ret, ret).

(** ** Methods *)

(** [FixedBuffer] and [FixedBufferMut]: the length of a fixed buffer is a
    [u32], that of another one a [usize]. *)
Record IoBuf := mkIoBuf { is_fixed : bool; as_ptr : Z; buf_len : Z; fixed_index : Z }.

Section methods.
Context {St : Type} (await_op : IoOp → St → Result Z * St) (p : profile).

Definition await {A : Type} (f : IoFuture A) (s : St) : Result A * St :=
  let '(r, s) := await_op (fut_op f) s in
  (match r with Ok n => Ok (fut_ret f n) | Err e => Err e end, s).

(** [map(|r| r as u32)] *)
Definition as_u32 (x : Result Z * St) : Result Z * St :=
  (match x.1 with Ok n => Ok (u32_wrap n) | Err e => Err e end, x.2).

(** The loop of the methods that transfer all of a buffer: [add] is the
    addition of the counter, [fut done] what is awaited after [done] bytes. *)
Fixpoint transfer (add : profile → Z → Z → outcome Z) (fuel : nat) (len : Z)
    (fut : Z → outcome (IoFuture Z)) (done : Z) (s : St) : outcome (option (Result ()) * St) :=
  match fuel with
  | O => Val (None, s)
  | S fuel =>
      if done <? len then
        f ← fut done;
        match await f s with
        | (Ok n, s) => done ← add p done n; transfer add fuel len fut done s
        | (Err e, s) => Val (Some (Err e), s)
        end
      else Val (Some (Ok ()), s)
  end.

(** [AsyncRecv] of the socket [sock]. *)
Definition recv (sock : Z) (buf : IoBuf) (s : St) : Result Z * St :=
  if is_fixed buf then await (RecvFixed sock (as_ptr buf) (buf_len buf) (fixed_index buf)) s
  else as_u32 (await (RecvBytes sock (as_ptr buf) (buf_len buf)) s).

Definition recv_with_deadline (sock : Z) (buf : IoBuf) (d : Z) (s : St) : Result Z * St :=
  if is_fixed buf then await (RecvFixedWithDeadline sock (as_ptr buf) (buf_len buf) (fixed_index buf) d) s
  else as_u32 (await (RecvBytesWithDeadline sock (as_ptr buf) (buf_len buf) d) s).

Definition recv_bytes_exact (fuel : nat) (sock ptr len : Z) (s : St) : outcome (option (Result ()) * St) :=
  transfer usize_add fuel len (λ received, Val (RecvBytes sock (ptr + received) (len - received))) 0 s.

Definition recv_exact (fuel : nat) (sock : Z) (buf : IoBuf) (s : St) : outcome (option (Result ()) * St) :=
  if is_fixed buf then
    transfer u32_add fuel (buf_len buf) (λ received,
      rest ← u32_sub p (buf_len buf) received;
      Val (RecvFixed sock (as_ptr buf + received) rest (fixed_index buf))) 0 s
  else
    transfer usize_add fuel (buf_len buf) (λ received,
      Val (RecvBytes sock (as_ptr buf + received) (buf_len buf - received))) 0 s.

Definition recv_bytes_exact_with_deadline (fuel : nat) (sock ptr len d : Z) (s : St)
    : outcome (option (Result ()) * St) :=
  transfer usize_add fuel len (λ received,
    Val (RecvBytesWithDeadline sock (ptr + received) (len - received) d)) 0 s.

Definition recv_exact_with_deadline (fuel : nat) (sock : Z) (buf : IoBuf) (d : Z) (s : St)
    : outcome (option (Result ()) * St) :=
  if is_fixed buf then
    transfer u32_add fuel (buf_len buf) (λ received,
      rest ← u32_sub p (buf_len buf) received;
      Val (RecvFixedWithDeadline sock (as_ptr buf + received) rest (fixed_index buf) d)) 0 s
  else
    transfer usize_add fuel (buf_len buf) (λ received,
      Val (RecvBytesWithDeadline sock (as_ptr buf + received) (buf_len buf - received) d)) 0 s.

(** [AsyncSend] *)
Definition send (sock : Z) (buf : IoBuf) (s : St) : Result Z * St :=
  if is_fixed buf then await (SendFixed sock (as_ptr buf) (buf_len buf) (fixed_index buf)) s
  else as_u32 (await (SendBytes sock (as_ptr buf) (buf_len buf)) s).

Definition send_with_deadline (sock : Z) (buf : IoBuf) (d : Z) (s : St) : Result Z * St :=
  if is_fixed buf then await (SendFixedWithDeadline sock (as_ptr buf) (buf_len buf) (fixed_index buf) d) s
  else as_u32 (await (SendBytesWithDeadline sock (as_ptr buf) (buf_len buf) d) s).

Definition send_all_bytes (fuel : nat) (sock ptr len : Z) (s : St) : outcome (option (Result ()) * St) :=
  transfer usize_add fuel len (λ sent, Val (SendBytes sock (ptr + sent) (len - sent))) 0 s.

Definition send_all (fuel : nat) (sock : Z) (buf : IoBuf) (s : St) : outcome (option (Result ()) * St) :=
  if is_fixed buf then
    transfer u32_add fuel (buf_len buf) (λ sent,
      rest ← u32_sub p (buf_len buf) sent;
      Val (SendFixed sock (as_ptr buf + sent) rest (fixed_index buf))) 0 s
  else
    transfer usize_add fuel (buf_len buf) (λ sent,
      Val (SendBytes sock (as_ptr buf + sent) (buf_len buf - sent))) 0 s.

Definition send_all_bytes_with_deadline (fuel : nat) (sock ptr len d : Z) (s : St)
    : outcome (option (Result ()) * St) :=
  transfer usize_add fuel len (λ sent,
    Val (SendBytesWithDeadline sock (ptr + sent) (len - sent) d)) 0 s.

Definition send_all_with_deadline (fuel : nat) (sock : Z) (buf : IoBuf) (d : Z) (s : St)
    : outcome (option (Result ()) * St) :=
  if is_fixed buf then
    transfer u32_add fuel (buf_len buf) (λ sent,
      rest ← u32_sub p (buf_len buf) sent;
      Val (SendFixedWithDeadline sock (as_ptr buf + sent) rest (fixed_index buf) d)) 0 s
  else
    transfer usize_add fuel (buf_len buf) (λ sent,
      Val (SendBytesWithDeadline sock (as_ptr buf + sent) (buf_len buf - sent) d)) 0 s.

(** [AsyncPeek] *)
Definition peek (sock : Z) (buf : IoBuf) (s : St) : Result Z * St :=
  if is_fixed buf then await (PeekFixed sock (as_ptr buf) (buf_len buf) (fixed_index buf)) s
  else as_u32 (await (PeekBytes sock (as_ptr buf) (buf_len buf)) s).

Definition peek_with_deadline (sock : Z) (buf : IoBuf) (d : Z) (s : St) : Result Z * St :=
  if is_fixed buf then await (PeekFixedWithDeadline sock (as_ptr buf) (buf_len buf) (fixed_index buf) d) s
  else as_u32 (await (PeekBytesWithDeadline sock (as_ptr buf) (buf_len buf) d) s).

Definition peek_bytes_exact (fuel : nat) (sock ptr len : Z) (s : St) : outcome (option (Result ()) * St) :=
  transfer usize_add fuel len (λ peeked, Val (PeekBytes sock (ptr + peeked) (len - peeked))) 0 s.

Definition peek_exact (fuel : nat) (sock : Z) (buf : IoBuf) (s : St) : outcome (option (Result ()) * St) :=
  if is_fixed buf then
    transfer u32_add fuel (buf_len buf) (λ peeked,
      rest ← u32_sub p (buf_len buf) peeked;
      Val (PeekFixed sock (as_ptr buf + peeked) rest (fixed_index buf))) 0 s
  else
    transfer usize_add fuel (buf_len buf) (λ peeked,
      Val (PeekBytes sock (as_ptr buf + peeked) (buf_len buf - peeked))) 0 s.

Definition peek_bytes_exact_with_deadline (fuel : nat) (sock ptr len d : Z) (s : St)
    : outcome (option (Result ()) * St) :=
  transfer usize_add fuel len (λ peeked,
    Val (PeekBytesWithDeadline sock (ptr + peeked) (len - peeked) d)) 0 s.

Definition peek_exact_with_deadline (fuel : nat) (sock : Z) (buf : IoBuf) (d : Z) (s : St)
    : outcome (option (Result ()) * St) :=
  if is_fixed buf then
    transfer u32_add fuel (buf_len buf) (λ peeked,
      rest ← u32_sub p (buf_len buf) peeked;
      Val (PeekFixedWithDeadline sock (as_ptr buf + peeked) rest (fixed_index buf) d)) 0 s
  else
    transfer usize_add fuel (buf_len buf) (λ peeked,
      Val (PeekBytesWithDeadline sock (as_ptr buf + peeked) (buf_len buf - peeked) d)) 0 s.

(** [AsyncRead] of the file [file]; the sum of the offset and the counter may
    overflow. *)
Definition read (file : Z) (buf : IoBuf) (s : St) : Result Z * St :=
  if is_fixed buf then await (ReadFixed file (as_ptr buf) (buf_len buf) (fixed_index buf)) s
  else as_u32 (await (ReadBytes file (as_ptr buf) (buf_len buf)) s).

Definition pread (file : Z) (buf : IoBuf) (offset : Z) (s : St) : Result Z * St :=
  if is_fixed buf then await (PositionedReadFixed file (as_ptr buf) (buf_len buf) (fixed_index buf) offset) s
  else as_u32 (await (PositionedReadBytes file (as_ptr buf) (buf_len buf) offset) s).

Definition read_bytes_exact (fuel : nat) (file ptr len : Z) (s : St) : outcome (option (Result ()) * St) :=
  transfer usize_add fuel len (λ done, Val (ReadBytes file (ptr + done) (len - done))) 0 s.

Definition read_exact (fuel : nat) (file : Z) (buf : IoBuf) (s : St) : outcome (option (Result ()) * St) :=
  if is_fixed buf then
    transfer u32_add fuel (buf_len buf) (λ done,
      rest ← u32_sub p (buf_len buf) done;
      Val (ReadFixed file (as_ptr buf + done) rest (fixed_index buf))) 0 s
  else
    transfer usize_add fuel (buf_len buf) (λ done,
      Val (ReadBytes file (as_ptr buf + done) (buf_len buf - done))) 0 s.

Definition pread_bytes_exact (fuel : nat) (file ptr len offset : Z) (s : St)
    : outcome (option (Result ()) * St) :=
  transfer usize_add fuel len (λ done,
    at_ ← usize_add p offset done;
    Val (PositionedReadBytes file (ptr + done) (len - done) at_)) 0 s.

Definition pread_exact (fuel : nat) (file : Z) (buf : IoBuf) (offset : Z) (s : St)
    : outcome (option (Result ()) * St) :=
  if is_fixed buf then
    transfer u32_add fuel (buf_len buf) (λ done,
      rest ← u32_sub p (buf_len buf) done;
      at_ ← usize_add p offset done;
      Val (PositionedReadFixed file (as_ptr buf + done) rest (fixed_index buf) at_)) 0 s
  else
    transfer usize_add fuel (buf_len buf) (λ done,
      at_ ← usize_add p offset done;
      Val (PositionedReadBytes file (as_ptr buf + done) (buf_len buf - done) at_)) 0 s.

(** [AsyncWrite] *)
Definition write (file : Z) (buf : IoBuf) (s : St) : Result Z * St :=
  if is_fixed buf then await (WriteFixed file (as_ptr buf) (buf_len buf) (fixed_index buf)) s
  else as_u32 (await (WriteBytes file (as_ptr buf) (buf_len buf)) s).

Definition pwrite (file : Z) (buf : IoBuf) (offset : Z) (s : St) : Result Z * St :=
  if is_fixed buf then await (PositionedWriteFixed file (as_ptr buf) (buf_len buf) (fixed_index buf) offset) s
  else as_u32 (await (PositionedWriteBytes file (as_ptr buf) (buf_len buf) offset) s).

Definition write_all_bytes (fuel : nat) (file ptr len : Z) (s : St) : outcome (option (Result ()) * St) :=
  transfer usize_add fuel len (λ written, Val (WriteBytes file (ptr + written) (len - written))) 0 s.

Definition write_all (fuel : nat) (file : Z) (buf : IoBuf) (s : St) : outcome (option (Result ()) * St) :=
  if is_fixed buf then
    transfer u32_add fuel (buf_len buf) (λ written,
      rest ← u32_sub p (buf_len buf) written;
      Val (WriteFixed file (as_ptr buf + written) rest (fixed_index buf))) 0 s
  else
    transfer usize_add fuel (buf_len buf) (λ written,
      Val (WriteBytes file (as_ptr buf + written) (buf_len buf - written))) 0 s.

Definition pwrite_all_bytes (fuel : nat) (file ptr len offset : Z) (s : St)
    : outcome (option (Result ()) * St) :=
  transfer usize_add fuel len (λ written,
    at_ ← usize_add p offset written;
    Val (PositionedWriteBytes file (ptr + written) (len - written) at_)) 0 s.

Definition pwrite_all (fuel : nat) (file : Z) (buf : IoBuf) (offset : Z) (s : St)
    : outcome (option (Result ()) * St) :=
  if is_fixed buf then
    transfer u32_add fuel (buf_len buf) (λ written,
      rest ← u32_sub p (buf_len buf) written;
      at_ ← usize_add p offset written;
      Val (PositionedWriteFixed file (as_ptr buf + written) rest (fixed_index buf) at_)) 0 s
  else
    transfer usize_add fuel (buf_len buf) (λ written,
      at_ ← usize_add p offset written;
      Val (PositionedWriteBytes file (as_ptr buf + written) (buf_len buf - written) at_)) 0 s.

(** The methods with a timeout compute the deadline from the start of the
    round: [with_timeout f timeout] for the method [f]. *)
Definition with_timeout {A : Type} (start_round_time_for_deadlines : Z) (f : Z → A) (timeout : Z) : A :=
  f (start_round_time_for_deadlines + timeout).

(** [each_addr], for the addresses that a name resolved to: [f] is tried on
    them in order until it succeeds. *)
Fixpoint each_addr_loop {Addr A : Type} (f : Addr → St → Result A * St) (addrs : list Addr)
    (res : option (Result A)) (s : St) : option (Result A) * St :=
  match addrs with
  | [] => (res, s)
  | addr :: addrs =>
      match f addr s with
      | (Ok a, s) => (Some (Ok a), s)
      | (Err e, s) => each_addr_loop f addrs (Some (Err e)) s
      end
  end.

Definition each_addr {Addr A : Type} (addrs : Result (list Addr)) (f : Addr → St → Result A * St) (s : St)
    : Result A * St :=
  match addrs with
  | Err e => (Err e, s)
  | Ok addrs =>
      match each_addr_loop f addrs None s with
      | (Some r, s) => (r, s)
      | (None, s) => (Err (Simple InvalidInput), s)
      end
  end.

(** [AsyncConnectStream::connect]: each attempt has a socket of its own, which
    is closed ([drop_stream]) if it cannot be connected. An address is its
    pointer and its length. *)
Definition connect_stream (new_for_addr : Z * Z → St → Result Z * St) (drop_stream : Z → St → St)
    (addrs : Result (list (Z * Z))) : St → Result Z * St :=
  each_addr addrs (λ addr s,
    match new_for_addr addr s with
    | (Err e, s) => (Err e, s)
    | (Ok stream, s) =>
        match await (Connect stream addr.1 addr.2) s with
        | (Err e, s) => (Err e, drop_stream stream s)
        | (Ok _, s) => (Ok stream, s)
        end
    end).

(** [AsyncConnectDatagram::connect]: the socket is given up for its descriptor
    first, and made from it again once it is connected. *)
Definition connect_datagram (sock : Z) (addrs : Result (list (Z * Z))) : St → Result Z * St :=
  each_addr addrs (λ addr s,
    match await (Connect sock addr.1 addr.2) s with
    | (Err e, s) => (Err e, s)
    | (Ok _, s) => (Ok sock, s)
    end).

End methods.
