(* ===== verification/BufferViews.v ===== *)
(** * Buffers and slices as arguments of IO

    Models the traits of [src/src/io/buf/fixed_io_buffer.rs] with their
    implementations for buffers and slices ([buffer.rs], [slice.rs],
    [sendable_buffer.rs]), and what the methods of [IoOps] ask of the kernel
    when they get one of these: which memory, and under which index.

    An address is an allocation of [Buffer] with an offset; [place] is where
    the allocations are. *)

From Stdlib Require Import ZArith Lia.
From S2P Require Import Prelude Buffer.
From S2P Require IoTypes IoOps.

Local Open Scope Z_scope.

(** ** Views *)
Record SendableBuffer := mkSendable { sb_buf : Buffer }.
Record SendableSlice := mkSendableSlice { ss_buf : SendableBuffer; ss_start : Z; ss_end : Z }.

(** [SendableBuffer::from_buffer]. *)
Definition from_buffer (b : Buffer) : SendableBuffer := mkSendable b.

(** [SendableBuffer::slice] and [slice_mut]. *)
Definition sendable_slice (p : profile) (start_bound end_bound : Bound) (b : SendableBuffer)
    : outcome SendableSlice :=
  start ← match start_bound with
          | Included n => Val n
          | Unbounded => Val 0
          | Excluded n => u32_add p n 1
          end;
  fin ← match end_bound with
        | Included n => u32_add p n 1
        | Excluded n => Val n
        | Unbounded => Val (len_u32 (sb_buf b))
        end;
  Val (mkSendableSlice b start fin).

(** The trait [FixedBuffer]; a pointer is an allocation and an offset. The
    mutable slices and [as_mut_ptr] of [FixedBufferMut] are the same. *)
Class BufferView (V : Type) := {
  view_ptr : V → nat * Z;
  view_len_u32 : profile → V → outcome Z;
  view_fixed_index : V → Z;
  view_is_fixed : V → bool;
}.

#[export] Instance Buffer_view : BufferView Buffer := {|
  view_ptr b := (as_ptr b, 0);
  view_len_u32 _ b := Val (len_u32 b);
  view_fixed_index := fixed_index;
  view_is_fixed := is_fixed;
|}.

#[export] Instance SendableBuffer_view : BufferView SendableBuffer := {|
  view_ptr b := view_ptr (sb_buf b);
  view_len_u32 p b := view_len_u32 p (sb_buf b);
  view_fixed_index b := view_fixed_index (sb_buf b);
  view_is_fixed b := view_is_fixed (sb_buf b);
|}.

#[export] Instance Slice_view : BufferView Slice := {|
  view_ptr sl := let '(l, off) := view_ptr (sl_buf sl) in (l, off + sl_start sl);
  view_len_u32 p sl := u32_sub p (sl_end sl) (sl_start sl);
  view_fixed_index sl := view_fixed_index (sl_buf sl);
  view_is_fixed sl := view_is_fixed (sl_buf sl);
|}.

#[export] Instance SendableSlice_view : BufferView SendableSlice := {|
  view_ptr sl := let '(l, off) := view_ptr (ss_buf sl) in (l, off + ss_start sl);
  view_len_u32 p sl := u32_sub p (ss_end sl) (ss_start sl);
  view_fixed_index sl := view_fixed_index (ss_buf sl);
  view_is_fixed sl := view_is_fixed (ss_buf sl);
|}.

(** [as_bytes]. *)
Definition view_as_bytes {V} `{BufferView V} (p : profile) (v : V) (h : Heap) : outcome (list cell) :=
  n ← view_len_u32 p v;
  let '(l, off) := view_ptr v in
  heap_read l (Z.to_nat off) (Z.to_nat n) h.

(** [v] is a view of [b], of the bytes from [first] to [last]. *)
Class ViewOf {V} `{BufferView V} (v : V) (b : Buffer) (first last : Z) : Prop := {
  vo_ptr : view_ptr v = (as_ptr b, first);
  vo_len p : view_len_u32 p v = Val (last - first);
  vo_index : view_fixed_index v = fixed_index b;
  vo_fixed : view_is_fixed v = is_fixed b;
  vo_range : 0 ≤ first ≤ last;
}.

Lemma buffer_view_of b h : buf_ok h b → ViewOf b b 0 (len_u32 b).
Proof. intros [_ Hl _ _]. split; simpl; try done; [|lia]. intros _. by rewrite Z.sub_0_r. Qed.

Lemma sendable_view_of b h : buf_ok h b → ViewOf (from_buffer b) b 0 (len_u32 b).
Proof. intros [_ Hl _ _]. split; simpl; try done; [|lia]. intros _. by rewrite Z.sub_0_r. Qed.

Lemma slice_view_of p b first last :
  0 ≤ first ≤ last → ∃ sl, slice p (Included first) (Excluded last) b = Val sl ∧ ViewOf sl b first last.
Proof. intros Hr. exists (mkSlice b first last). split; [done|]. split; simpl; try done. intros q. by rewrite u32_sub_Val by lia. Qed.

Lemma sendable_slice_view_of p b first last :
  0 ≤ first ≤ last →
  ∃ sl, sendable_slice p (Included first) (Excluded last) (from_buffer b) = Val sl ∧ ViewOf sl b first last.
Proof.
  intros Hr. exists (mkSendableSlice (from_buffer b) first last). split; [done|].
  split; simpl; try done. intros q. by rewrite u32_sub_Val by lia.
Qed.

(** ** Buffers made of vectors and boxes

    [From<Vec<u8>>], [From<Box<[u8]>>] and [From<Box<[u8; N]>>]: the memory of
    the argument becomes that of the buffer; a box has no room to spare. *)
Definition Buffer_from_vec (v : VecU8) : Buffer := NonFixed v.
Definition Buffer_from_box (ptr : nat) (len : Z) : Buffer := NonFixed (mkVecU8 ptr len len).

Lemma from_vec_inv s live v cells :
  Inv s live → heap s !! v_ptr v = None → Z.of_nat (length cells) = v_cap v →
  0 ≤ v_len v ≤ v_cap v → 0 < v_cap v < u32_modulus →
  Inv (set_heap (<[v_ptr v := cells]> (heap s)) s) (Buffer_from_vec v :: live).
Proof.
  intros [[Hb Hn Hd] Hf Hcs Hpf Hpn Hcap] Hl Hlen Hv Hc.
  assert (v_ptr v ∉ as_ptr <$> all_bufs s live) as Hni.
  { intros Hin. apply not_elem_of_dom in Hl. apply Hl. rewrite Hd. by apply elem_of_list_to_set. }
  assert (Forall (buf_ok (<[v_ptr v := cells]> (heap s))) (all_bufs s live)) as Hb'.
  { rewrite Forall_forall in *. intros b Hin. eapply buf_ok_unchanged; [|by apply Hb].
    apply lookup_insert_ne. intros Heq. apply Hni. rewrite Heq. by apply list_elem_of_fmap_2. }
  split; simpl; try done; [|by constructor]. split; simpl.
  - constructor; [|done]. split; unfold capacity, len_u32; simpl; rewrite ?u32_wrap_small by (unfold in_u32; lia); try lia.
    + exists cells. by rewrite lookup_insert_eq.
    + unfold in_u32. lia.
  - by constructor.
  - rewrite dom_insert_L, Hd. set_solver.
Qed.

(** ** What is asked of the kernel *)

(** A view as the methods of [IoOps] get it. *)
Definition io_buf {V} `{BufferView V} (p : profile) (place : nat → Z) (v : V) : outcome IoOps.IoBuf :=
  n ← view_len_u32 p v;
  let '(l, off) := view_ptr v in
  Val (IoOps.mkIoBuf (view_is_fixed v) (place l + off) n (view_fixed_index v)).

(** The memory that an operation reads or writes, with the index of the
    registered buffer if it names one. *)
Definition op_memory (op : IoTypes.IoOp) : option (Z * Z * option Z) :=
  match op with
  | IoTypes.Net op | IoTypes.NetWithDeadline op _ =>
      match op with
      | IoTypes.recv _ ptr len | IoTypes.send _ ptr len | IoTypes.peek _ ptr len => Some (ptr, len, None)
      | IoTypes.recv_fixed _ ptr len i | IoTypes.send_fixed _ ptr len i | IoTypes.peek_fixed _ ptr len i =>
          Some (ptr, len, Some i)
      | _ => None
      end
  | IoTypes.File op =>
      match op with
      | IoTypes.read _ ptr len | IoTypes.write _ ptr len => Some (ptr, len, None)
      | IoTypes.pread _ ptr len _ | IoTypes.pwrite _ ptr len _ => Some (ptr, len, None)
      | IoTypes.read_fixed _ ptr len i | IoTypes.write_fixed _ ptr len i => Some (ptr, len, Some i)
      | IoTypes.pread_fixed _ ptr len i _ | IoTypes.pwrite_fixed _ ptr len i _ => Some (ptr, len, Some i)
      | _ => None
      end
  end.

(** The operation stays in [n] bytes from [ptr], and names the buffer [i] if
    the buffer is fixed, none otherwise. *)
Definition stays (ptr n : Z) (i : option Z) (op : IoTypes.IoOp) : Prop :=
  ∃ a len, op_memory op = Some (a, len, i) ∧ ptr ≤ a ∧ 0 ≤ len ∧ a + len ≤ ptr + n.

Section log.
Context {St : Type} (answer : IoTypes.IoOp → St → IoTypes.Result Z * St).
Context (Hanswer : ∀ op s n s', answer op s = (IoTypes.Ok n, s') → 0 ≤ n).

(** The kernel's answers, with a log of what was asked. *)
Definition logged (op : IoTypes.IoOp) (s : St * list IoTypes.IoOp) : IoTypes.Result Z * (St * list IoTypes.IoOp) :=
  let '(r, st) := answer op s.1 in (r, (st, s.2 ++ [op])).

Definition asks {A : Type} (P : IoTypes.IoOp → Prop)
    (m : St * list IoTypes.IoOp → outcome (A * (St * list IoTypes.IoOp))) : Prop :=
  ∀ s r s', m s = Val (r, s') → Forall P s.2 → Forall P s'.2.

Lemma add_nonneg p add a b c :
  add = usize_add ∨ add = u32_add → 0 ≤ a → 0 ≤ b → add p a b = Val c → 0 ≤ c.
Proof.
  intros Hadd Ha Hb. destruct Hadd as [-> | ->]; unfold usize_add, u32_add.
  - destruct (_ <? _); [intros [= <-]; lia|]. destruct p; [done|]. intros [= <-]. by apply Z.mod_pos_bound.
  - destruct (_ <? _); [intros [= <-]; lia|]. destruct p; [done|]. intros [= <-]. by apply Z.mod_pos_bound.
Qed.

(** What the loop asks, when the futures that it awaits ask nothing else. *)
Lemma transfer_asks p P add fuel len fut done :
  add = usize_add ∨ add = u32_add → 0 ≤ done →
  (∀ d f, 0 ≤ d < len → fut d = Val f → P (IoOps.fut_op f) ∧ ∀ n, 0 ≤ n → 0 ≤ IoOps.fut_ret f n) →
  asks P (IoOps.transfer logged p add fuel len fut done).
Proof using Hanswer.
  intros Hadd Hdone Hfut. revert done Hdone. induction fuel as [|fuel IH]; intros done Hdone s r s'; simpl.
  - by intros [= <- <-].
  - destruct (Z.ltb_spec done len) as [Hlt|]; [|by intros [= <- <-]].
    destruct (fut done) as [f| |] eqn:Ef; [|done..]. simpl. destruct (Hfut done f) as [HP Hret]; [lia|done|].
    unfold IoOps.await, logged. destruct (answer (IoOps.fut_op f) s.1) as [[n|e] st] eqn:Ea; simpl.
    + destruct (add p done _) as [d| |] eqn:Ed; [|done..]. simpl. intros Hr Hs.
      eapply IH; [|exact Hr|]; [|apply Forall_app; by split; [|constructor]].
      eapply add_nonneg; [done| | |exact Ed]; [done|]. apply Hret. by eapply Hanswer.
    + intros [= <- <-] Hs. simpl. apply Forall_app. split; [done|by constructor].
Qed.

Lemma await_asks {A} P (f : IoOps.IoFuture A) :
  P (IoOps.fut_op f) → asks P (λ s, Val (IoOps.await logged f s)).
Proof.
  intros HP s r s'. unfold IoOps.await, logged. destruct (answer _ _) as [x st]. intros [= <- <-] Hs. simpl.
  apply Forall_app. by split; [|constructor].
Qed.

End log.

Lemma u32_wrap_bounds x : 0 ≤ x → 0 ≤ u32_wrap x ≤ x.
Proof. intros Hx. unfold u32_wrap. split; [by apply Z.mod_pos_bound|by apply Z.mod_le]. Qed.

(** The operations of one turn. *)
Ltac turn_stays :=
  let d := fresh "d" in let f := fresh "f" in let Hd := fresh "Hd" in let Hf := fresh "Hf" in
  intros d f Hd Hf; simpl in Hd; try (rewrite u32_sub_Val in Hf by (simpl; lia)); outcome_inv; simplify_eq/=;
  split;
  [eexists _, _; split; [reflexivity|];
   repeat match goal with |- context [u32_wrap ?x] => pose proof (u32_wrap_bounds x ltac:(lia)); generalize dependent (u32_wrap x); intros end;
   lia
  |intros ? ?; simpl; try apply u32_wrap_bounds; lia].

Section methods.
Context {St : Type} (answer : IoTypes.IoOp → St → IoTypes.Result Z * St).
Context (Hanswer : ∀ op s n s', answer op s = (IoTypes.Ok n, s') → 0 ≤ n).
Context (p : profile) (ptr cap : Z) (buf : IoOps.IoBuf).
Context (Hptr : ptr ≤ IoOps.as_ptr buf) (Hlen : 0 ≤ IoOps.buf_len buf).
Context (Hcap : IoOps.as_ptr buf + IoOps.buf_len buf ≤ ptr + cap).

Abbreviation inside :=
  (stays ptr cap (if IoOps.is_fixed buf then Some (IoOps.fixed_index buf) else None)).

Ltac method_stays :=
  destruct buf as [fx a n i]; simpl in *;
  destruct fx; (apply transfer_asks; [done|by auto|done|]); turn_stays.

Lemma recv_exact_stays fuel sock : asks inside (IoOps.recv_exact (logged answer) p fuel sock buf).
Proof using All. unfold IoOps.recv_exact. method_stays. Qed.

Lemma recv_exact_with_deadline_stays fuel sock d : asks inside (IoOps.recv_exact_with_deadline (logged answer) p fuel sock buf d).
Proof using All. unfold IoOps.recv_exact_with_deadline. method_stays. Qed.

Lemma send_all_stays fuel sock : asks inside (IoOps.send_all (logged answer) p fuel sock buf).
Proof using All. unfold IoOps.send_all. method_stays. Qed.

Lemma send_all_with_deadline_stays fuel sock d : asks inside (IoOps.send_all_with_deadline (logged answer) p fuel sock buf d).
Proof using All. unfold IoOps.send_all_with_deadline. method_stays. Qed.

Lemma peek_exact_stays fuel sock : asks inside (IoOps.peek_exact (logged answer) p fuel sock buf).
Proof using All. unfold IoOps.peek_exact. method_stays. Qed.

Lemma peek_exact_with_deadline_stays fuel sock d : asks inside (IoOps.peek_exact_with_deadline (logged answer) p fuel sock buf d).
Proof using All. unfold IoOps.peek_exact_with_deadline. method_stays. Qed.

Lemma read_exact_stays fuel file : asks inside (IoOps.read_exact (logged answer) p fuel file buf).
Proof using All. unfold IoOps.read_exact. method_stays. Qed.

Lemma pread_exact_stays fuel file off : asks inside (IoOps.pread_exact (logged answer) p fuel file buf off).
Proof using All. unfold IoOps.pread_exact. method_stays. Qed.

Lemma write_all_stays fuel file : asks inside (IoOps.write_all (logged answer) p fuel file buf).
Proof using All. unfold IoOps.write_all. method_stays. Qed.

Lemma pwrite_all_stays fuel file off : asks inside (IoOps.pwrite_all (logged answer) p fuel file buf off).
Proof using All. unfold IoOps.pwrite_all. method_stays. Qed.

End methods.

(** A fixed buffer is the memory registered under its index. *)
Lemma registered_at s b live :
  Inv s (b :: live) → is_fixed b = true →
  fixed_buffers (pool s) !! Z.to_nat (fixed_index b) = Some (as_ptr b) ∧
  capacity b = default_buffer_cap (pool s).
Proof.
  intros HI Hf. split.
  - pose proof (inv_fixed _ _ HI) as Hp.
    destruct b as [f|]; [|done]. unfold all_bufs in Hp. simpl in Hp.
    assert ((fx_index f, fx_ptr f) ∈ imap (λ i l, (Z.of_nat i, l)) (fixed_buffers (pool s))) as Hin
      by (rewrite <- Hp; left).
    apply elem_of_lookup_imap in Hin as (i & l & [= Hx Hy] & Hi). simpl. by rewrite Hx, Hy, Nat2Z.id.
  - pose proof (inv_caps _ _ HI) as Hc. unfold all_bufs in Hc. simpl in Hc.
    apply Forall_cons in Hc as [Hc _]. auto.
Qed.

(** What the methods that transfer a whole buffer ask of the kernel when they
    get the view [v] of [b]: only memory of [b], and by its index if it is
    fixed. *)
Definition io_inside {V} `{BufferView V} {St : Type} (answer : IoTypes.IoOp → St → IoTypes.Result Z * St)
    (p : profile) (place : nat → Z) (b : Buffer) (v : V) : Prop :=
  ∃ buf, io_buf p place v = Val buf ∧
    let inside := stays (place (as_ptr b)) (capacity b) (if is_fixed b then Some (fixed_index b) else None) in
    (∀ fuel fd, asks inside (IoOps.recv_exact (logged answer) p fuel fd buf) ∧
       asks inside (IoOps.send_all (logged answer) p fuel fd buf) ∧
       asks inside (IoOps.peek_exact (logged answer) p fuel fd buf) ∧
       asks inside (IoOps.read_exact (logged answer) p fuel fd buf) ∧
       asks inside (IoOps.write_all (logged answer) p fuel fd buf)) ∧
    (∀ fuel fd x, asks inside (IoOps.recv_exact_with_deadline (logged answer) p fuel fd buf x) ∧
       asks inside (IoOps.send_all_with_deadline (logged answer) p fuel fd buf x) ∧
       asks inside (IoOps.peek_exact_with_deadline (logged answer) p fuel fd buf x) ∧
       asks inside (IoOps.pread_exact (logged answer) p fuel fd buf x) ∧
       asks inside (IoOps.pwrite_all (logged answer) p fuel fd buf x)).

Lemma view_io_inside {V} `{BufferView V} {St : Type} (answer : IoTypes.IoOp → St → IoTypes.Result Z * St)
    p place b (v : V) first last :
  (∀ op s n s', answer op s = (IoTypes.Ok n, s') → 0 ≤ n) → ViewOf v b first last → last ≤ capacity b →
  io_inside answer p place b v.
Proof.
  intros Ha [V1 V2 V3 V4 V5] Hl. unfold io_inside, io_buf. rewrite V1, V2, V3, V4. simpl.
  eexists. split; [done|].
  split; intros; split_and!;
    [apply recv_exact_stays|apply send_all_stays|apply peek_exact_stays|apply read_exact_stays|apply write_all_stays
    |apply recv_exact_with_deadline_stays|apply send_all_with_deadline_stays|apply peek_exact_with_deadline_stays
    |apply pread_exact_stays|apply pwrite_all_stays]; simpl; done || lia.
Qed.

(** C26: take a buffer that a thread holds (after the steps of [Buffer.step]),
    or a slice of it that ends within its capacity, which the code does not
    check, and give it to a method that transfers all of it, with or without a
    deadline: the kernel is asked only for memory of that buffer, whatever
    counts or errors it answers; and when it is asked by index, the memory is
    that of the buffer registered under this index. *)
Theorem io_stays_in_buffer {St : Type} (answer : IoTypes.IoOp → St → IoTypes.Result Z * St)
    (p : profile) (n : nat) (cap : Z) (s : Buffer.St) (b : Buffer) (live : list Buffer) (place : nat → Z)
    (first last : Z) :
  (∀ op s n s', answer op s = (IoTypes.Ok n, s') → 0 ≤ n) →
  0 < cap < u32_modulus → rtc (step p) (BufPool_new n cap ∅, []) (s, b :: live) →
  0 ≤ first ≤ last → last ≤ capacity b →
  io_inside answer p place b b ∧ io_inside answer p place b (from_buffer b) ∧
  (∃ sl, slice p (Included first) (Excluded last) b = Val sl ∧ io_inside answer p place b sl) ∧
  (∃ sl, sendable_slice p (Included first) (Excluded last) (from_buffer b) = Val sl ∧
     io_inside answer p place b sl) ∧
  (is_fixed b = true →
    fixed_buffers (pool s) !! Z.to_nat (fixed_index b) = Some (as_ptr b) ∧
    capacity b = default_buffer_cap (pool s)).
Proof.
  intros Ha Hcap Hr Hfl Hl. apply buf_reachable in Hr as HI; [|done].
  destruct (inv_live _ _ _ HI) as [Hb _]. pose proof (ok_len _ _ Hb) as Hlen. split_and!.
  - eapply view_io_inside; [done|by eapply buffer_view_of|lia].
  - eapply view_io_inside; [done|by eapply sendable_view_of|lia].
  - destruct (slice_view_of p b first last Hfl) as (sl & ? & ?). exists sl. split; [done|].
    by eapply view_io_inside.
  - destruct (sendable_slice_view_of p b first last Hfl) as (sl & ? & ?). exists sl. split; [done|].
    by eapply view_io_inside.
  - intros Hf. by apply (registered_at s b live).
Qed.

(** A slice of the last two bytes of a fixed buffer. *)
Lemma io_stays_in_buffer_witness :
  is_fixed ex_held = true ∧
  ∃ sl, slice Debug (Included 2) (Excluded 4) ex_held = Val sl ∧
    io_inside (λ _ (s : ()), (IoTypes.Ok 1, s)) Debug (λ l, 4096 + Z.of_nat l) ex_held sl.
Proof.
  split; [reflexivity|].
  apply (io_stays_in_buffer (λ _ (s : ()), (IoTypes.Ok 1, s)) Debug 1 4 _ _ _ (λ l, 4096 + Z.of_nat l) 2 4
    ltac:(intros op s n s' [= <- _]; lia) ex_cap ex_one_reachable ltac:(lia) ltac:(vm_compute; discriminate)).
Defined.

(** A buffer made of a vector with at least one and less than 2^32 bytes of
    room has the bytes of the vector, shares its memory with no other buffer,
    and can be dropped, which keeps it for reuse only if it has the capacity
    of the pool's buffers. *)
Theorem buffer_from_vec (p : profile) (n : nat) (cap : Z) (s : St) (live : list Buffer) (v : VecU8) (cells : list cell) :
  0 < cap < u32_modulus → rtc (step p) (BufPool_new n cap ∅, []) (s, live) →
  heap s !! v_ptr v = None → Z.of_nat (length cells) = v_cap v → 0 ≤ v_len v ≤ v_cap v →
  0 < v_cap v < u32_modulus →
  let s' := set_heap (<[v_ptr v := cells]> (heap s)) s in
  let b := Buffer_from_vec v in
  as_ref b s' = Val (take (Z.to_nat (v_len v)) cells) ∧ NoDup (as_ptr <$> all_bufs s' (b :: live)) ∧
  ∃ s'', put b s' = Val s'' ∧
    if v_cap v =? default_buffer_cap (pool s)
    then pool_of_non_fixed_buffers (pool s'') = push_back (pool_of_non_fixed_buffers (pool s)) b
    else heap s'' = heap s.
Proof.
  intros Hcap Hr Hl Hlen Hv Hc s' b. apply buf_reachable in Hr as HI; [|done].
  pose proof (from_vec_inv s live v cells HI Hl Hlen Hv Hc) as HI'. fold s' b in HI'.
  destruct (inv_live _ _ _ HI') as [Hb Hh]. split_and!.
  - rewrite (as_ref_data _ _ _ eq_refl Hb). unfold data, len_u32. simpl.
    rewrite lookup_insert_eq. simpl. by rewrite u32_wrap_small by (unfold in_u32; lia).
  - apply Hh.
  - unfold put, capacity. simpl. rewrite u32_wrap_small by (unfold in_u32; lia).
    destruct (v_cap v =? default_buffer_cap (pool s)); [by eexists|].
    unfold heap_free. simpl. rewrite lookup_insert_eq. simpl. eexists. split; [done|]. simpl.
    by rewrite delete_insert_id.
Qed.
