(* ===== verification/OpenOptions.v ===== *)
(** * Options for opening a file

    Models [src/src/fs/open_options.rs] on Unix: the builder, its translation
    to the flags of [openat2] for the io_uring worker, and to the options of
    the standard library for the fallback workers, whose own translation to
    flags ([std_flags]) is the reference that both are compared with. *)

From Stdlib Require Import ZArith Lia.
From S2P Require Import Prelude IoTypes.

Local Open Scope Z_scope.

(** Constants of Linux. *)
Definition O_RDONLY : Z := 0.
Definition O_WRONLY : Z := 1.
Definition O_RDWR : Z := 2.
Definition O_ACCMODE : Z := 3.
Definition O_CREAT : Z := 64.
Definition O_EXCL : Z := 128.
Definition O_TRUNC : Z := 512.
Definition O_APPEND : Z := 1024.
Definition O_CLOEXEC : Z := 524288.

Record OpenOptions := mkOpenOptions {
  o_read : bool;
  o_write : bool;
  o_append : bool;
  o_truncate : bool;
  o_create : bool;
  o_create_new : bool;
  custom_flags : Z;
  mode : Z;
}.

Definition OpenOptions_new : OpenOptions := mkOpenOptions false false false false false false 0 438.

(** The setters, which take the options and return them. *)
Definition set_read (x : bool) (o : OpenOptions) : OpenOptions :=
  mkOpenOptions x (o_write o) (o_append o) (o_truncate o) (o_create o) (o_create_new o) (custom_flags o) (mode o).
Definition set_write (x : bool) (o : OpenOptions) : OpenOptions :=
  mkOpenOptions (o_read o) x (o_append o) (o_truncate o) (o_create o) (o_create_new o) (custom_flags o) (mode o).
Definition set_append (x : bool) (o : OpenOptions) : OpenOptions :=
  mkOpenOptions (o_read o) (o_write o) x (o_truncate o) (o_create o) (o_create_new o) (custom_flags o) (mode o).
Definition set_truncate (x : bool) (o : OpenOptions) : OpenOptions :=
  mkOpenOptions (o_read o) (o_write o) (o_append o) x (o_create o) (o_create_new o) (custom_flags o) (mode o).
Definition set_create (x : bool) (o : OpenOptions) : OpenOptions :=
  mkOpenOptions (o_read o) (o_write o) (o_append o) (o_truncate o) x (o_create_new o) (custom_flags o) (mode o).
Definition set_create_new (x : bool) (o : OpenOptions) : OpenOptions :=
  mkOpenOptions (o_read o) (o_write o) (o_append o) (o_truncate o) (o_create o) x (custom_flags o) (mode o).
Definition set_custom_flags (x : Z) (o : OpenOptions) : OpenOptions :=
  mkOpenOptions (o_read o) (o_write o) (o_append o) (o_truncate o) (o_create o) (o_create_new o) x (mode o).
Definition set_mode (x : Z) (o : OpenOptions) : OpenOptions :=
  mkOpenOptions (o_read o) (o_write o) (o_append o) (o_truncate o) (o_create o) (o_create_new o) (custom_flags o) x.

(** [io_uring::types::OpenHow] *)
Record OpenHow := mkOpenHow { how_flags : Z; how_mode : Z }.

(** [as u64] of an [i32]. *)
Definition i32_as_u64 (x : Z) : Z := x `mod` 2 ^ 64.

Definition access_mode (o : OpenOptions) : Result Z :=
  match o_read o, o_write o, o_append o with
  | true, false, false => Ok O_RDONLY
  | false, true, false => Ok O_WRONLY
  | true, true, false => Ok O_RDWR
  | false, _, true => Ok (Z.lor O_WRONLY O_APPEND)
  | true, _, true => Ok (Z.lor O_RDWR O_APPEND)
  | false, false, false => Err (OsError EINVAL)
  end.

(** The flags of creation, and the mode that is left. *)
Definition creation_flags (o : OpenOptions) : Z * Z :=
  match o_create o, o_truncate o, o_create_new o with
  | false, false, false => (0, 0)
  | false, true, false => (O_TRUNC, 0)
  | true, false, false => (O_CREAT, mode o)
  | true, true, false => (Z.lor O_CREAT O_TRUNC, mode o)
  | _, _, true => (Z.lor O_CREAT O_EXCL, mode o)
  end.

Definition all_flags (access creation custom : Z) : Z :=
  Z.lor (Z.lor (Z.lor O_CLOEXEC access) creation) (Z.land custom (Z.lnot O_ACCMODE)).

(** [into_os_options] on Linux. *)
Definition into_os_options (o : OpenOptions) : Result OpenHow :=
  match access_mode o with
  | Err e => Err e
  | Ok access =>
      let '(creation, m) := creation_flags o in
      Ok (mkOpenHow (i32_as_u64 (all_flags access creation (custom_flags o))) m)
  end.

(** [From<OpenOptions> for std::fs::OpenOptions], and what the standard library
    opens a file with then: it refuses to create or truncate a file without
    write access, and to truncate one it appends to. *)
Definition std_refuses (o : OpenOptions) : bool :=
  match o_write o, o_append o with
  | true, false => false
  | false, false => o_truncate o || o_create o || o_create_new o
  | _, true => o_truncate o && negb (o_create_new o)
  end.

(** The flags of the standard library, option by option. *)
Definition flag_if (b : bool) (flag : Z) : Z := if b then flag else 0.

Definition std_flags (o : OpenOptions) : Result (Z * Z) :=
  let writes := o_write o || o_append o in
  if negb (o_read o || writes) || std_refuses o then Err (OsError EINVAL)
  else
    let access := if writes then (if o_read o then O_RDWR else O_WRONLY) else O_RDONLY in
    let create := flag_if (o_create o || o_create_new o) O_CREAT in
    let excl := flag_if (o_create_new o) O_EXCL in
    let trunc := flag_if (o_truncate o && negb (o_create_new o)) O_TRUNC in
    let custom := Z.land (custom_flags o) (Z.lnot O_ACCMODE) in
    Ok (Z.lor (Z.lor (Z.lor O_CLOEXEC (Z.lor access (flag_if (o_append o) O_APPEND)))
                     (Z.lor (Z.lor create excl) trunc)) custom, mode o).

(** The kernel is given a mode by [openat2] only together with [O_CREAT], as it
    demands; the descriptor is always closed on [exec]; and custom flags
    cannot change the access mode. *)
Theorem open_how_valid (o : OpenOptions) (how : OpenHow) :
  - 2 ^ 31 ≤ custom_flags o < 2 ^ 31 → into_os_options o = Ok how →
  (how_mode how ≠ 0 → Z.testbit (how_flags how) 6 = true) ∧ Z.testbit (how_flags how) 19 = true ∧
  ∃ access, access_mode o = Ok access ∧ Z.land (how_flags how) O_ACCMODE = Z.land access O_ACCMODE.
Proof.
  intros Hcf. unfold into_os_options. destruct (access_mode o) as [access|] eqn:Ha; [|done].
  destruct (creation_flags o) as [creation m] eqn:Hc. intros [= <-]. cbn [how_flags how_mode].
  assert (∀ x, i32_as_u64 x = Z.land x (Z.ones 64)) as Hmod by (intros x; unfold i32_as_u64; by rewrite Z.land_ones).
  rewrite Hmod. unfold all_flags. split_and!.
  - intros Hm. rewrite Z.land_spec, !Z.lor_spec.
    assert (Z.testbit creation 6 = true) as ->; [|by rewrite !orb_true_r].
    unfold creation_flags in Hc. destruct (o_create o), (o_truncate o), (o_create_new o); simplify_eq/=; done.
  - rewrite Z.land_spec, !Z.lor_spec. done.
  - exists access. split; [done|]. apply Z.bits_inj'. intros k Hk. rewrite !Z.land_spec, !Z.lor_spec, Z.land_spec.
    destruct (decide (k < 2)) as [Hlt|Hge].
    + assert (k = 0 ∨ k = 1) as Hk01 by lia.
      assert (Z.testbit creation k = false) as ->.
      { unfold creation_flags in Hc.
        destruct Hk01 as [->| ->], (o_create o), (o_truncate o), (o_create_new o); by simplify_eq/=. }
      rewrite Z.lnot_spec by lia.
      destruct Hk01 as [->| ->]; simpl; rewrite ?andb_false_r, ?orb_false_r, ?andb_true_r; done.
    + assert (Z.testbit O_ACCMODE k = false) as ->; [|by rewrite !andb_false_r].
      unfold O_ACCMODE. apply Z.bits_above_log2; simpl; lia.
Qed.

(** What the standard library accepts is opened by the io_uring worker with the
    same flags, and with the same mode if the file is created. It also opens
    what the standard library refuses: files that are created or truncated
    without write access, and files that are truncated and appended to. *)
Theorem open_options_agree (o : OpenOptions) :
  (∀ flags m, std_flags o = Ok (flags, m) →
    ∃ how, into_os_options o = Ok how ∧ how_flags how = i32_as_u64 flags ∧
      how_mode how = if o_create o || o_create_new o then m else 0) ∧
  ((∃ how e, into_os_options o = Ok how ∧ std_flags o = Err e) ↔
    (o_read o = true ∧ o_write o = false ∧ o_append o = false ∧
      (o_truncate o || o_create o || o_create_new o) = true) ∨
    (o_append o = true ∧ o_truncate o = true ∧ o_create_new o = false)).
Proof.
  unfold std_flags, into_os_options, std_refuses, access_mode, creation_flags, all_flags, flag_if.
  destruct (o_read o), (o_write o), (o_append o), (o_truncate o), (o_create o), (o_create_new o); simpl;
    (split; [intros flags m [= <- <-]; eexists; by split_and!|]); split; naive_solver.
Qed.

Lemma open_how_valid_witness :
  Z.testbit (how_flags (mkOpenHow (524288 + 64 + 1) 438)) 19 = true.
Proof.
  apply (open_how_valid (mkOpenOptions false true false false true false 0 438) (mkOpenHow (524288 + 64 + 1) 438)).
  - simpl. lia.
  - reflexivity.
Defined.
