(* ===== verification/Files.v ===== *)
(** * Files and directories

    Models [src/src/fs]: [File] without the transferring methods, which are in
    [IoOps], [DirBuilder] and the functions of [shortcuts.rs], over
    [src/src/io/sys/linux/os_path.rs].

    A path is the list of its bytes. The futures that are awaited answer
    through the parameters of the section: [create_dir] is what awaiting
    [CreateDir] on a path gives, and so on. The state is the rest of the world, so it may
    change in any way while a future is awaited. [path_is_dir] is
    [Path::is_dir]. *)

From Stdlib Require Import ZArith Lia String Ascii.
From S2P Require Import Prelude IoTypes OpenOptions.

Local Open Scope Z_scope.

Definition bytes_of_string (s : String.string) : list Z :=
  (λ c, Z.of_nat (nat_of_ascii c)) <$> list_ascii_of_string s.
Arguments bytes_of_string s%_string.

(** [MAIN_SEPARATOR], the dot and the colon. *)
Definition SEP : Z := 47.
Definition DOT : Z := 46.
Definition COLON : Z := 58.

(** ** The standard library

    [OsStr::to_string_lossy]: every maximal part of a character that is not
    one becomes U+FFFD. [is_char_boundary] and [get_unchecked] of [str]. *)
Definition is_cont (lo hi b : Z) : bool := (lo <=? b) && (b <=? hi).

(** The number of continuation bytes after the first byte of a character and
    the range of the first of them. *)
Definition utf8_lead (b : Z) : option (nat * Z * Z) :=
  if b <? 128 then Some (0%nat, 128, 191)
  else if is_cont 194 223 b then Some (1%nat, 128, 191)
  else if b =? 224 then Some (2%nat, 160, 191)
  else if b =? 237 then Some (2%nat, 128, 159)
  else if is_cont 225 239 b then Some (2%nat, 128, 191)
  else if b =? 240 then Some (3%nat, 144, 191)
  else if is_cont 241 243 b then Some (3%nat, 128, 191)
  else if b =? 244 then Some (3%nat, 128, 143)
  else None.

(** How many of the [n] continuation bytes are there. *)
Fixpoint utf8_conts (n : nat) (lo hi : Z) (bs : list Z) : nat :=
  match n, bs with
  | S n, b :: bs => if is_cont lo hi b then S (utf8_conts n 128 191 bs) else O
  | _, _ => O
  end.

Definition REPLACEMENT : list Z := [239; 191; 189].

Fixpoint lossy_loop (fuel : nat) (bs : list Z) : list Z :=
  match fuel, bs with
  | S fuel, b :: rest =>
      match utf8_lead b with
      | None => REPLACEMENT ++ lossy_loop fuel rest
      | Some (n, lo, hi) =>
          let k := utf8_conts n lo hi rest in
          (if (k =? n)%nat then b :: take k rest else REPLACEMENT) ++ lossy_loop fuel (drop k rest)
      end
  | _, _ => []
  end.

Definition to_string_lossy (path : list Z) : list Z := lossy_loop (length path) path.

Definition is_char_boundary (str : list Z) (index : Z) : bool :=
  (index =? 0) || (index =? Z.of_nat (length str)) ||
  match str !! Z.to_nat index with Some b => (b <? 128) || (192 <=? b) | None => false end.

Definition str_get_unchecked (str : list Z) (index : Z) : outcome (list Z) :=
  if is_char_boundary str index then Val (take (Z.to_nat index) str) else Undefined.

(** ** [os_path.rs] *)
Definition get_os_path (path : list Z) : Result (list Z) :=
  if bool_decide (0 ∈ path) then Err (Simple InvalidInput) else Ok path.

(** ** [dir_builder.rs] *)
Record DirBuilder := mkDirBuilder { dir_mode : Z; recursive : bool }.

Definition DirBuilder_new : DirBuilder := mkDirBuilder 438 false.
Definition DirBuilder_recursive (d : DirBuilder) (recursive : bool) : DirBuilder :=
  mkDirBuilder (dir_mode d) recursive.
Definition DirBuilder_mode (d : DirBuilder) (mode : Z) : DirBuilder :=
  mkDirBuilder mode (recursive d).

(** The loop of [get_offset]: [None] is [Err(())]. The decrement of 0 panics in
    a debug build, and wraps in a release build, where the index is then out of
    range. *)
Fixpoint get_offset_loop (bytes : list Z) (path_index : nat) : outcome (option nat) :=
  b ← expect (bytes !! path_index);
  let next_ends := (S path_index =? length bytes)%nat || bool_decide (bytes !! S path_index = Some SEP) in
  if ((path_index =? 1)%nat || (b =? DOT) || (b =? COLON)) && (if b =? DOT then next_ends else true) then Val None
  else if b =? SEP then Val (Some path_index)
  else match path_index with O => Panicked | S path_index => get_offset_loop bytes path_index end.

Definition get_offset (p : profile) (offsets : list Z) (bytes : list Z) : outcome (option Z * list Z) :=
  path_index ← usize_sub p (default (Z.of_nat (length bytes)) (last offsets)) 1;
  if path_index <? Z.of_nat (length bytes) then
    r ← get_offset_loop bytes (Z.to_nat path_index);
    match r with
    | Some i => Val (Some (Z.of_nat i), push_back offsets (Z.of_nat i))
    | None => Val (None, offsets)
    end
  else Panicked.

Section fs.
Context {St : Type} (create_dir : list Z → Z → St → Result () * St) (path_is_dir : list Z → St → bool).

Section create_dir_all.
Context (p : profile) (path : list Z) (mode : Z).

(** The loop, from [let mut tmp_path] on. [None]: out of fuel. *)
Fixpoint create_dir_all_loop (fuel : nat) (tmp_path : list Z) (tmp_mode : Z) (path_stack : list Z) (s : St)
    : outcome (option (Result ()) * St) :=
  match fuel with
  | O => Val (None, s)
  | S fuel =>
      match get_os_path tmp_path with
      | Err e => Val (Some (Err e), s)
      | Ok os_path =>
          match create_dir os_path tmp_mode s with
          | (Ok _, s) =>
              match pop_back path_stack with
              | None => Val (Some (Ok ()), s)
              | Some (_, []) => create_dir_all_loop fuel path mode [] s
              | Some (_, path_stack) =>
                  offset ← unchecked (last path_stack);
                  tmp_path ← str_get_unchecked (to_string_lossy path) offset;
                  create_dir_all_loop fuel tmp_path tmp_mode path_stack s
              end
          | (Err e, s) =>
              if decide (Error_kind e = NotFound) then
                '(r, path_stack) ← get_offset p path_stack path;
                match r with
                | Some offset =>
                    tmp_path ← str_get_unchecked (to_string_lossy path) offset;
                    create_dir_all_loop fuel tmp_path 511 path_stack s
                | None => Val (Some (Err (Simple InvalidData)), s)
                end
              else if path_is_dir path s then
                match path_stack with
                | [] => Val (Some (Ok ()), s)
                | _ => create_dir_all_loop fuel tmp_path tmp_mode path_stack s
                end
              else Val (Some (Err e), s)
          end
      end
  end.

Definition DirBuilder_create_dir_all (fuel : nat) (s : St) : outcome (option (Result ()) * St) :=
  match path with
  | [] => Val (Some (Ok ()), s)
  | _ => create_dir_all_loop fuel path mode [] s
  end.

End create_dir_all.

Definition DirBuilder_create (p : profile) (fuel : nat) (d : DirBuilder) (path : list Z) (s : St)
    : outcome (option (Result ()) * St) :=
  if recursive d then DirBuilder_create_dir_all p path (dir_mode d) fuel s
  else match get_os_path path with
       | Err e => Val (Some (Err e), s)
       | Ok os_path => let '(r, s) := create_dir os_path (dir_mode d) s in Val (Some r, s)
       end.

(** ** [shortcuts.rs] *)
Definition create_dir_shortcut (p : profile) (fuel : nat) : list Z → St → outcome (option (Result ()) * St) :=
  DirBuilder_create p fuel DirBuilder_new.
Definition create_dir_all_shortcut (p : profile) (fuel : nat) : list Z → St → outcome (option (Result ()) * St) :=
  DirBuilder_create p fuel (DirBuilder_recursive DirBuilder_new true).

(** ** [file.rs]

    [open], [rename] and [unlink] are what awaiting the futures [Open],
    [Rename] and [Remove] gives; a file is its descriptor. *)
Context (open : list Z → OpenHow → St → Result Z * St) (rename : list Z → list Z → St → Result () * St).
Context (unlink rmdir : list Z → St → Result () * St).

Definition File_open (path : list Z) (o : OpenOptions) (s : St) : Result Z * St :=
  match path with
  | [] => (Err (Simple InvalidInput), s)
  | _ =>
      match get_os_path path with
      | Err e => (Err e, s)
      | Ok os_path =>
          match into_os_options o with
          | Err e => (Err e, s)
          | Ok how => open os_path how s
          end
      end
  end.

Definition File_rename (old_path new_path : list Z) (s : St) : Result () * St :=
  match get_os_path old_path with
  | Err e => (Err e, s)
  | Ok old_path =>
      match get_os_path new_path with
      | Err e => (Err e, s)
      | Ok new_path => rename old_path new_path s
      end
  end.

Definition File_remove (path : list Z) (s : St) : Result () * St :=
  match get_os_path path with Err e => (Err e, s) | Ok path => unlink path s end.

Definition remove_dir (path : list Z) (s : St) : Result () * St :=
  match get_os_path path with Err e => (Err e, s) | Ok path => rmdir path s end.

End fs.

(** ASCII is kept. *)
Lemma to_string_lossy_ascii path : Forall (λ b, b < 128) path → to_string_lossy path = path.
Proof.
  unfold to_string_lossy. induction 1 as [|b path Hb _ IH]; [done|]. simpl. unfold utf8_lead.
  rewrite (proj2 (Z.ltb_lt _ _) Hb). simpl. by rewrite drop_0, IH.
Qed.
