(* ===== verification/DirTree.v ===== *)
(** * What [create_dir_all] does to a tree of directories

    [DirBuilder::create_dir_all] of [Files] over a file system whose
    directories are a finite map from paths to modes and that nobody else
    changes: the laws are those of [mkdir(2)], which may fail, and of
    [Path::is_dir]. If others change it the loop can run forever. *)

From Stdlib Require Import ZArith Lia String.
From S2P Require Import Prelude IoTypes Files.

Local Open Scope Z_scope.

Definition EEXIST : Z := 17.

(** ** Paths *)

(** The last separator before the index [n]. *)
Fixpoint last_sep (path : list Z) (n : nat) : option nat :=
  match n with
  | O => None
  | S i => if decide (path !! i = Some SEP) then Some i else last_sep path i
  end.

(** The directory a path is in, if it is neither the current one nor the root. *)
Definition parent (path : list Z) : option (list Z) :=
  match last_sep path (length path) with
  | Some (S i) => Some (take (S i) path)
  | _ => None
  end.

(** The directories on the way to a path. *)
Definition ancestor (t path : list Z) : Prop :=
  ∃ q, path !! S q = Some SEP ∧ t = take (S q) path.

(** Paths whose names are not empty, do not end in a dot and have no colon,
    and of which the first name is longer than one byte if there is another. *)
Record plain (path : list Z) : Prop := {
  plain_nonempty : path ≠ [];
  plain_nul : 0 ∉ path;
  plain_colon : COLON ∉ path;
  plain_sep i : path !! i = Some SEP → ∃ b, path !! S i = Some b ∧ b ≠ SEP;
  plain_dot i : path !! i = Some DOT → ∃ b, path !! S i = Some b ∧ b ≠ SEP;
  plain_first : path !! 1%nat ≠ Some SEP;
}.

(** Paths that have one spelling: no name is empty, "." or "..". *)
Definition name_starts (path : list Z) (i : nat) : Prop := i = O ∨ path !! pred i = Some SEP.
Definition name_ends (path : list Z) (i : nat) : Prop := path !! i = None ∨ path !! i = Some SEP.

Record proper (path : list Z) : Prop := {
  proper_nonempty : path ≠ [];
  proper_sep i : path !! i = Some SEP → ∃ b, path !! S i = Some b ∧ b ≠ SEP;
  proper_dot i : name_starts path i → path !! i = Some DOT → ¬ name_ends path (S i);
  proper_dots i :
    name_starts path i → path !! i = Some DOT → path !! S i = Some DOT → ¬ name_ends path (S (S i));
}.

(** ** The file system

    [mkdir] gives a directory the bits of the mode that are
    not in [umask]. Unless the file system is [strict] it may fail for other
    reasons than those a path that is missing or there already gives: it may
    not be allowed, there may be no space, or a file that is no directory may
    be in the way. *)
Record QuietFs {St : Type} (strict : bool) (umask : Z) (dirs : St → gmap (list Z) Z)
    (create_dir : list Z → Z → St → Result () * St) (path_is_dir : list Z → St → bool) : Prop := {
  law_mkdir_exists t m mode s :
    proper t → dirs s !! t = Some m → ∃ s', create_dir t mode s = (Err (OsError EEXIST), s') ∧ dirs s' = dirs s;
  law_mkdir_missing t u mode s :
    proper t → dirs s !! t = None → parent t = Some u → dirs s !! u = None →
    ∃ e s', create_dir t mode s = (Err e, s') ∧ dirs s' = dirs s ∧
      (e = OsError ENOENT ∨ strict = false ∧ Error_kind e ≠ NotFound);
  law_mkdir_creates t mode s :
    proper t → dirs s !! t = None → (∀ u, parent t = Some u → is_Some (dirs s !! u)) →
    ∃ r s', create_dir t mode s = (r, s') ∧
      (r = Ok () ∧ dirs s' = <[t := Z.ldiff mode umask]> (dirs s) ∨
       strict = false ∧ dirs s' = dirs s ∧ ∃ e, r = Err e ∧ Error_kind e ≠ NotFound);
  law_is_dir t s : proper t → path_is_dir t s = bool_decide (is_Some (dirs s !! t));
}.

(** Directories are in directories. *)
Definition tree (d : gmap (list Z) Z) : Prop :=
  ∀ t u, is_Some (d !! t) → parent t = Some u → is_Some (d !! u).

(** ** Separators *)
Lemma last_sep_Some path n q :
  last_sep path n = Some q ↔
    (q < n)%nat ∧ path !! q = Some SEP ∧ ∀ i, (q < i < n)%nat → path !! i ≠ Some SEP.
Proof.
  induction n as [|n IH]; simpl; [split; [done|lia]|]. destruct (decide (path !! n = Some SEP)) as [Hn|Hn].
  - split.
    + intros [= <-]. split_and!; [lia|done|lia].
    + intros (Hq & Hs & Hlast). destruct (decide (q = n)) as [->|]; [done|]. destruct (Hlast n); [lia|done].
  - rewrite IH. split; intros (Hq & Hs & Hlast).
    + split_and!; [lia|done|]. intros i Hi. destruct (decide (i = n)) as [->|]; [done|]. apply Hlast. lia.
    + assert (q ≠ n) by congruence. split_and!; [lia|done|]. intros i Hi. apply Hlast. lia.
Qed.

Lemma last_sep_None path n : last_sep path n = None ↔ ∀ i, (i < n)%nat → path !! i ≠ Some SEP.
Proof.
  induction n as [|n IH]; simpl; [split; [lia|done]|]. destruct (decide (path !! n = Some SEP)) as [Hn|Hn].
  - split; [done|]. intros H. destruct (H n); [lia|done].
  - rewrite IH. split; intros H i Hi; [|apply H; lia]. destruct (decide (i = n)) as [->|]; [done|]. apply H. lia.
Qed.

Lemma last_sep_step path i b : path !! i = Some b → b ≠ SEP → last_sep path (S i) = last_sep path i.
Proof. intros Hb Hne. cbn [last_sep]. by rewrite decide_False by congruence. Qed.

Lemma last_sep_take path n : (n ≤ length path)%nat → last_sep (take n path) n = last_sep path n.
Proof.
  intros Hn. destruct (last_sep path n) as [q|] eqn:Hq.
  - apply last_sep_Some. apply last_sep_Some in Hq as (? & Hs & Hlast). split_and!; [lia|by rewrite lookup_take_lt by lia|].
    intros i Hi. rewrite lookup_take_lt by lia. apply Hlast. lia.
  - apply last_sep_None. intros i Hi. rewrite lookup_take_lt by lia. by apply (proj1 (last_sep_None _ _) Hq).
Qed.

(** The parent of a prefix that ends before a separator or is the path. *)
Lemma parent_take path n :
  (n ≤ length path)%nat →
  parent (take n path) = match last_sep path n with Some (S i) => Some (take (S i) path) | _ => None end.
Proof.
  intros Hn. unfold parent. rewrite length_take_le, last_sep_take by done.
  destruct (last_sep path n) as [[|q]|] eqn:Hq; [done| |done].
  apply last_sep_Some in Hq as [Hq _]. by rewrite take_take, Nat.min_l by lia.
Qed.

Lemma parent_take_sep path n q :
  plain path → (n ≤ length path)%nat → last_sep path n = Some (S q) →
  (2 ≤ S q < n)%nat ∧ path !! S q = Some SEP ∧ parent (take n path) = Some (take (S q) path).
Proof.
  intros Hpl Hn Hq. rewrite parent_take, Hq by done. apply last_sep_Some in Hq as (Hlt & Hs & _).
  split_and!; try done. destruct q; [|lia]. by destruct (plain_first _ Hpl).
Qed.

Lemma proper_take path n :
  plain path → (n = length path ∨ path !! n = Some SEP ∧ n ≠ O) → proper (take n path).
Proof.
  intros Hpl Hn. assert (n ≤ length path)%nat as Hle by (destruct Hn as [|[?%lookup_lt_Some _]]; lia).
  assert (n ≠ O) as Hn0. { pose proof (plain_nonempty _ Hpl). destruct Hn as [-> |[_ ?]]; [by destruct path|done]. }
  assert (∀ i b, (b = SEP ∨ b = DOT) → take n path !! i = Some b → ∃ b', take n path !! S i = Some b' ∧ b' ≠ SEP) as Hnext.
  { intros i b Hb Hi. apply lookup_take_Some in Hi as [Hi Hlt].
    assert (∃ b', path !! S i = Some b' ∧ b' ≠ SEP) as (b' & Hb' & Hne).
    { destruct Hb as [-> | ->]; [by apply (plain_sep _ Hpl)|by apply (plain_dot _ Hpl)]. }
    exists b'. split; [|done]. rewrite lookup_take_lt; [done|].
    destruct (decide (S i = n)) as [Hin|]; [|lia]. destruct Hn as [Hlen|[? _]]; [|congruence].
    apply lookup_lt_Some in Hb'. lia. }
  assert (∀ i, take n path !! i = Some DOT → ¬ name_ends (take n path) (S i)) as Hdot.
  { intros i Hi Hend. destruct (Hnext i DOT) as (b' & Hb' & ?); [by right|done|].
    unfold name_ends in Hend. rewrite Hb' in Hend. destruct Hend; congruence. }
  split; [|intros i; apply Hnext; by left|by intros i _; apply Hdot|by intros i _ _; apply Hdot].
  intros Hnil. apply (f_equal length) in Hnil. rewrite length_take_le in Hnil by done. done.
Qed.

(** ** [get_offset] *)
Lemma get_offset_loop_spec path i q :
  plain path → (i < length path)%nat → last_sep path (S i) = Some q → (2 ≤ q)%nat →
  get_offset_loop path i = Val (Some q).
Proof.
  intros Hpl. revert q. induction i as [|i IH]; intros q Hi Hq Hq2.
  { apply last_sep_Some in Hq as [? _]. lia. }
  destruct (lookup_lt_is_Some_2 path (S i) Hi) as [b Hb]. cbn [get_offset_loop]. rewrite Hb. cbn [expect mbind outcome_bind].
  pose proof (proj1 (last_sep_Some _ _ _) Hq) as (Hlt & Hs & _).
  assert (b ≠ COLON) as Hcol.
  { intros ->. apply (plain_colon _ Hpl). by eapply list_elem_of_lookup_2. }
  rewrite (proj2 (Z.eqb_neq b COLON) Hcol), orb_false_r.
  assert ((S i =? 1)%nat = false) as -> by (apply Nat.eqb_neq; lia). simpl.
  destruct (Z.eqb_spec b DOT) as [->|Hdot].
  - destruct (plain_dot _ Hpl _ Hb) as (b' & Hb' & Hne).
    assert ((S (S i) =? length path)%nat = false) as Hlen.
    { apply Nat.eqb_neq. apply lookup_lt_Some in Hb'. lia. }
    simpl in Hlen. rewrite Hlen, (bool_decide_false (path !! S (S i) = Some SEP)) by congruence. simpl.
    apply IH; [lia| |done]. by rewrite <- (last_sep_step _ _ _ Hb).
  - simpl. destruct (Z.eqb_spec b SEP) as [->|Hsep].
    + cbn [last_sep] in Hq. rewrite decide_True in Hq by done. by simplify_eq.
    + apply IH; [lia| |done]. by rewrite <- (last_sep_step _ _ _ Hb).
Qed.

Lemma get_offset_spec p path st n q :
  plain path → (n ≤ length path)%nat → default (Z.of_nat (length path)) (last st) = Z.of_nat n →
  last_sep path n = Some (S q) →
  get_offset p st path = Val (Some (Z.of_nat (S q)), st ++ [Z.of_nat (S q)]).
Proof.
  intros Hpl Hn Hst Hq. destruct (parent_take_sep _ _ _ Hpl Hn Hq) as (Hq2 & _ & _). unfold get_offset. rewrite Hst.
  rewrite usize_sub_Val by lia. cbn [mbind outcome_bind]. rewrite (proj2 (Z.ltb_lt _ _)) by lia.
  replace (Z.to_nat (Z.of_nat n - 1)) with (pred n) by lia.
  rewrite (get_offset_loop_spec path (pred n) (S q)); [done|done|lia| |lia]. by replace (S (pred n)) with n by lia.
Qed.

Lemma prefix_get path q :
  to_string_lossy path = path → path !! q = Some SEP →
  str_get_unchecked (to_string_lossy path) (Z.of_nat q) = Val (take q path).
Proof.
  intros -> Hq. unfold str_get_unchecked, is_char_boundary. rewrite Nat2Z.id, Hq. simpl. by rewrite !orb_true_r.
Qed.

Lemma os_path_take path n : plain path → get_os_path (take n path) = Ok (take n path).
Proof.
  intros Hpl. unfold get_os_path. rewrite bool_decide_false; [done|]. intros Hin.
  apply (plain_nul _ Hpl). apply list_elem_of_lookup in Hin as [i Hi]. apply lookup_take_Some in Hi as [Hi _]. by eapply list_elem_of_lookup_2.
Qed.

(** ** The loop *)
Section laws.
Context {St : Type} (strict : bool) (umask : Z) (dirs : St → gmap (list Z) Z)
  (create_dir : list Z → Z → St → Result () * St) (path_is_dir : list Z → St → bool).
Context (laws : QuietFs strict umask dirs create_dir path_is_dir) (p : profile).
Context (path : list Z) (mode : Z).

Abbreviation loop := (create_dir_all_loop create_dir path_is_dir p path mode).

(** The offsets on the stack: separators, each the last one before the
    previous, whose directories are missing. *)
Inductive chain (s : St) : nat → list Z → Prop :=
| chain_nil : chain s (length path) []
| chain_snoc n q st :
    chain s n st → last_sep path n = Some (S q) → dirs s !! take (S q) path = None →
    chain s (S q) (st ++ [Z.of_nat (S q)]).

Lemma chain_top s n st :
  chain s n st →
  (n ≤ length path)%nat ∧ default (Z.of_nat (length path)) (last st) = Z.of_nat n ∧
  (st = [] → n = length path) ∧ (st ≠ [] → path !! n = Some SEP ∧ dirs s !! take n path = None).
Proof.
  induction 1 as [|n q st _ (Hn & _) Hq Hd]; [by split_and!|]. rewrite last_snoc. simpl.
  apply last_sep_Some in Hq as (Hlt & Hs & _). split_and!; try done; [lia|]. by destruct st.
Qed.

Lemma chain_proper s n st : plain path → chain s n st → proper (take n path).
Proof.
  intros Hpl Hch. apply proper_take; [done|]. destruct (chain_top _ _ _ Hch) as (_ & _ & Hnil & Hsep).
  destruct (decide (st = [])) as [->|Hst]; [left; by apply Hnil|right]. split; [by apply Hsep|].
  destruct Hch as [|? ? st']; [done|lia].
Qed.

Definition granted (mode : Z) : Z := Z.ldiff mode umask.
#[local] Arguments granted : simpl never.

(** The file system after the directories of a stack were created. *)
Definition fill (d : gmap (list Z) Z) (st : list Z) : gmap (list Z) Z :=
  foldr (λ q d, <[take (Z.to_nat q) path := granted 511]> d) d st.

(** How the loop ends when the directories of [st] can be created: it creates
    them and the path, or fails after it has created some of them. *)
Definition finished (d : gmap (list Z) Z) (st : list Z) (r : Result ()) (d' : gmap (list Z) Z) : Prop :=
  match r with
  | Ok _ => d' = <[path := granted mode]> (fill d st)
  | Err _ => strict = false ∧ ∃ st', st' ⊆ st ∧ d' = fill d st'
  end.

Lemma plain_proper : plain path → proper path.
Proof. intros Hpl. rewrite <- (firstn_all path). apply proper_take; [done|by left]. Qed.

Lemma fill_snoc d st q : fill d (st ++ [Z.of_nat q]) = fill (<[take q path := granted 511]> d) st.
Proof. unfold fill. by rewrite foldr_snoc, Nat2Z.id. Qed.

(** A call that fails for another reason than a missing directory. *)
Lemma turn_fails fuel n m st s e s' :
  plain path → create_dir (take n path) m s = (Err e, s') → Error_kind e ≠ NotFound →
  dirs s' !! path = None → loop (S fuel) (take n path) m st s = Val (Some (Err e), s').
Proof.
  intros Hpl Hc He Hp. cbn [create_dir_all_loop]. rewrite os_path_take, Hc, decide_False by done.
  rewrite (law_is_dir _ _ _ _ _ laws) by by apply plain_proper. rewrite bool_decide_false; [done|]. rewrite Hp. by intros [].
Qed.

Lemma turn_creates fuel n m st s :
  plain path → chain s n st → dirs s !! take n path = None → dirs s !! path = None →
  (∀ u, parent (take n path) = Some u → is_Some (dirs s !! u)) →
  ∃ s', dirs s' = <[take n path := granted m]> (dirs s) ∧
    loop (S fuel) (take n path) m st s =
      match pop_back st with
      | None => Val (Some (Ok ()), s')
      | Some (_, []) => loop fuel path mode [] s'
      | Some (_, st) =>
          offset ← unchecked (last st);
          tmp_path ← str_get_unchecked (to_string_lossy path) offset;
          loop fuel tmp_path m st s'
      end ∨
    strict = false ∧ dirs s' = dirs s ∧ ∃ e, loop (S fuel) (take n path) m st s = Val (Some (Err e), s').
Proof.
  intros Hpl Hch Hd Hp Hpar.
  destruct (law_mkdir_creates _ _ _ _ _ laws (take n path) m s (chain_proper _ _ _ Hpl Hch) Hd Hpar)
    as (res & s' & Hc & [[-> Hd']|(Hst & Hd' & e & -> & He)]); exists s'.
  - left. split; [done|]. cbn [create_dir_all_loop]. by rewrite os_path_take, Hc.
  - right. split_and!; [done..|]. exists e. by apply turn_fails; rewrite ?Hd'.
Qed.

(** Upwards: the directory on the top of the stack can be created. *)
Lemma ascend st : ∀ n s fuel,
  plain path → to_string_lossy path = path → chain s n st →
  dirs s !! path = None → (∀ u, parent (take n path) = Some u → is_Some (dirs s !! u)) →
  dirs s !! take n path = None → (length st < fuel)%nat →
  ∃ res s', loop fuel (take n path) (if st is [] then mode else 511) st s = Val (Some res, s') ∧
    finished (dirs s) st res (dirs s').
Proof.
  induction st as [|x st IH] using rev_ind; intros n s fuel Hpl Hutf Hch Hp Hpar Hd Hf.
  - destruct fuel as [|fuel]; [simpl in Hf; lia|]. destruct (chain_top _ _ _ Hch) as (_ & _ & Hlen & _).
    rewrite (Hlen eq_refl) in *.
    destruct (turn_creates fuel _ mode _ _ Hpl Hch Hd Hp Hpar) as (s' & [[Hd' ->]|(Hst & Hd' & e & ->)]).
    + exists (Ok ()), s'. split; [done|]. simpl. by rewrite Hd', firstn_all.
    + exists (Err e), s'. split; [done|]. split; [done|]. by exists [].
  - rewrite length_app in Hf. simpl in Hf. destruct fuel as [|fuel]; [lia|].
    assert (∃ n', chain s n' st ∧ last_sep path n' = Some n ∧ x = Z.of_nat n ∧ n ≠ O) as (n' & Hch' & Hq & -> & Hn0).
    { inversion Hch as [|n' q st' Hc' Hls Hm Heq Hst]; [by destruct st|]. apply app_inj_tail in Hst as [-> <-].
      subst. by exists n'. }
    assert (match st ++ [Z.of_nat n] with [] => mode | _ => 511 end = 511) as -> by (by destruct st).
    destruct (turn_creates fuel n 511 _ _ Hpl Hch Hd Hp Hpar) as (s1 & [[Hd1 Hturn]|(Hst & Hd1 & e & Hturn)]).
    2: { exists (Err e), s1. split; [done|]. split; [done|]. exists []. split; [set_solver|done]. }
    destruct n as [|n]; [done|].
    destruct (chain_top _ _ _ Hch') as (Hn' & Htop & Hnil & Hmiss).
    destruct (parent_take_sep _ _ _ Hpl Hn' Hq) as (Hlt & Hsep & Hpar').
    assert (∀ k, (S n < k ≤ length path)%nat → take k path ≠ take (S n) path) as Hne.
    { intros k Hk Heq. apply (f_equal length) in Heq. rewrite !length_take_le in Heq by lia. lia. }
    assert (chain s1 n' st) as Hch1.
    { clear -Hch' Hd1 Hne Hlt. induction Hch' as [|k q st Hc IHc Hls Hm]; [constructor|].
      pose proof (proj1 (last_sep_Some _ _ _) Hls) as (Hk & _). destruct (chain_top _ _ _ Hc) as (Hlk & _).
      apply (chain_snoc _ k); [apply IHc; lia|done|]. rewrite Hd1, lookup_insert_ne; [done|]. apply not_eq_sym, Hne. lia. }
    assert (path ≠ take (S n) path) as Hpne by (rewrite <- (firstn_all path) at 1; apply Hne; lia).
    destruct (IH n' s1 fuel Hpl Hutf Hch1) as (res & s' & Hloop & Hdirs).
    + by rewrite Hd1, lookup_insert_ne by done.
    + intros u Hu. rewrite Hpar' in Hu. injection Hu as <-. rewrite Hd1, lookup_insert_eq. by eexists.
    + rewrite Hd1, lookup_insert_ne by (apply not_eq_sym, Hne; lia).
      destruct (decide (st = [])) as [->|Hst]; [|by apply Hmiss]. rewrite (Hnil eq_refl), firstn_all. done.
    + lia.
    + exists res, s'. split.
      2: { destruct res; simpl in *; [by rewrite fill_snoc, <- Hd1|]. destruct Hdirs as [Hst (st' & Hsub & ->)].
           split; [done|]. exists (st' ++ [Z.of_nat (S n)]). rewrite fill_snoc, <- Hd1. split; [set_solver|done]. }
      rewrite Hturn, pop_back_snoc. destruct st as [|y st'] eqn:Hst.
      * rewrite (Hnil eq_refl), firstn_all in Hloop. done.
      * rewrite <- Hst in *. destruct (last st) as [z|] eqn:Hlast; [|by rewrite last_None in Hlast; subst].
        simpl in Htop. subst z. cbn [unchecked mbind outcome_bind].
        rewrite prefix_get by (done || apply Hmiss; by subst). cbn [mbind outcome_bind]. exact Hloop.
Qed.

(** Downwards, until a directory can be created. *)
Lemma descend n : ∀ s st fuel,
  plain path → to_string_lossy path = path → chain s n st → dirs s !! path = None →
  dirs s !! take n path = None → (2 * n + length st < fuel)%nat →
  ∃ n' st' res s', chain s n' st' ∧
    (res = Ok () → ∀ u, parent (take n' path) = Some u → is_Some (dirs s !! u)) ∧
    loop fuel (take n path) (if st is [] then mode else 511) st s = Val (Some res, s') ∧
    finished (dirs s) st' res (dirs s').
Proof.
  induction n as [n IH] using lt_wf_ind. intros s st fuel Hpl Hutf Hch Hp Hd Hf.
  destruct (chain_top _ _ _ Hch) as (Hn & Htop & _).
  assert ((∀ u, parent (take n path) = Some u → is_Some (dirs s !! u)) ∨
    ∃ q, last_sep path n = Some (S q) ∧ dirs s !! take (S q) path = None) as [Hpar|(q & Hq & Hmiss)].
  { rewrite parent_take by done. destruct (last_sep path n) as [[|q]|]; [by left| |by left].
    destruct (dirs s !! take (S q) path) eqn:Hm; [left; intros u [= <-]; by eexists|right; by exists q]. }
  { destruct (ascend st n s fuel) as (res & s' & Hloop & Hdirs); try done; [lia|]. exists n, st, res, s'. by split_and!. }
  destruct (parent_take_sep _ _ _ Hpl Hn Hq) as (Hlt & Hsep & Hu). destruct fuel as [|fuel]; [lia|].
  destruct (law_mkdir_missing _ _ _ _ _ laws (take n path) _ (if st is [] then mode else 511) s
    (chain_proper _ _ _ Hpl Hch) Hd Hu Hmiss) as (e & s1 & Hc & Hd1 & [->|[Hst He]]).
  2: { exists n, st, (Err e), s1. split_and!; [done|done|by apply turn_fails; rewrite ?Hd1|].
       split; [done|]. exists []. split; [set_solver|done]. }
  destruct (IH (S q)) with (s := s1) (st := st ++ [Z.of_nat (S q)]) (fuel := fuel)
    as (n' & st' & res & s' & Hch' & Hpar' & Hloop & Hdirs);
    try done; rewrite ?Hd1; try done; [lia| | |].
  - apply (chain_snoc _ n); [|done|by rewrite Hd1]. clear -Hch Hd1.
    induction Hch; [constructor|econstructor; [done..|by rewrite Hd1]].
  - rewrite length_app. simpl. lia.
  - exists n', st', res, s'. rewrite Hd1 in Hpar', Hdirs. split_and!; try done.
    + clear -Hch' Hd1. induction Hch'; [constructor|econstructor; [done..|by rewrite <- Hd1]].
    + cbn [create_dir_all_loop]. rewrite os_path_take, Hc by done. rewrite decide_True by done.
      rewrite (get_offset_spec _ _ _ _ _ Hpl Hn Htop Hq). cbn [mbind outcome_bind].
      rewrite prefix_get by done. cbn [mbind outcome_bind].
      by replace (match st ++ [Z.of_nat (S q)] with [] => mode | _ => 511 end) with 511 in Hloop by (by destruct st).
Qed.

Lemma fill_in d st q : q ∈ st → fill d st !! take (Z.to_nat q) path = Some (granted 511).
Proof.
  induction st as [|x st IH]; simpl; [by intros ?%not_elem_of_nil|]. intros [->|Hq]%elem_of_cons; [by rewrite lookup_insert_eq|].
  destruct (decide (take (Z.to_nat x) path = take (Z.to_nat q) path)) as [->|Hne]; [by rewrite lookup_insert_eq|].
  rewrite lookup_insert_ne by done. by apply IH.
Qed.

Lemma fill_out d st t : (∀ q, q ∈ st → t ≠ take (Z.to_nat q) path) → fill d st !! t = d !! t.
Proof.
  induction st as [|x st IH]; simpl; [done|]. intros Hout.
  rewrite lookup_insert_ne by (apply not_eq_sym, Hout, elem_of_cons; by left).
  apply IH. intros q Hq. apply Hout, elem_of_cons. by right.
Qed.

(** What is on the stack: the missing directories on the way, down to the
    first one that is not missing. *)
Lemma chain_missing s n st q :
  chain s n st → q ∈ st → ∃ k, q = Z.of_nat (S k) ∧ path !! S k = Some SEP ∧ dirs s !! take (S k) path = None.
Proof.
  induction 1 as [|n k st Hch IH Hls Hm]; [by intros ?%not_elem_of_nil|].
  intros [?| ->%list_elem_of_singleton]%elem_of_app; [by apply IH|]. exists k. apply last_sep_Some in Hls. naive_solver.
Qed.

Lemma chain_covers s n st k :
  chain s n st → path !! S k = Some SEP → (n ≤ S k)%nat → Z.of_nat (S k) ∈ st.
Proof.
  intros Hch Hk. induction Hch as [|n q st Hch IH Hls Hm]; intros Hn.
  - apply lookup_lt_Some in Hk. lia.
  - apply elem_of_app. destruct (decide (S k = S q)) as [->|Hne]; [right; by apply list_elem_of_singleton|]. left. apply IH.
    apply last_sep_Some in Hls as (_ & _ & Hlast). destruct (decide (n ≤ S k)%nat); [done|].
    by destruct (Hlast (S k)); [lia|].
Qed.

Lemma tree_ancestors d n k :
  plain path → tree d → (n ≤ length path)%nat → (∀ u, parent (take n path) = Some u → is_Some (d !! u)) →
  path !! S k = Some SEP → (S k < n)%nat → is_Some (d !! take (S k) path).
Proof.
  intros Hpl Htree. revert k. induction n as [n IH] using lt_wf_ind. intros k Hn Hpar Hk Hkn.
  destruct (last_sep path n) as [q|] eqn:Hq; [|by destruct (proj1 (last_sep_None _ _) Hq (S k))].
  pose proof (proj1 (last_sep_Some _ _ _) Hq) as (Hqn & Hqs & Hlast).
  destruct (decide (q < S k)%nat) as [Hlt|Hge]; [by destruct (Hlast (S k)); [lia|]|].
  destruct q as [|q]; [lia|]. destruct (parent_take_sep _ _ _ Hpl Hn Hq) as (_ & _ & Hu).
  destruct (decide (S k = S q)) as [->|Hne]; [by apply Hpar|].
  apply (IH (S q)); try done; [lia| |lia]. intros u Hu'. by eapply Htree; [apply Hpar|].
Qed.

(** The state that [create_dir_all] leaves behind, when it has succeeded and
    when it has failed. *)
Definition some_created (d d' : gmap (list Z) Z) : Prop :=
  (∀ t m, d !! t = Some m → d' !! t = Some m) ∧
  (∀ t m, d !! t = None → d' !! t = Some m → ancestor t path ∧ m = granted 511).

Definition all_created (d d' : gmap (list Z) Z) : Prop :=
  (∀ t m, d !! t = Some m → d' !! t = Some m) ∧
  (∀ t, is_Some (d' !! t) ↔ is_Some (d !! t) ∨ t = path ∨ ancestor t path) ∧
  (∀ t m, d !! t = None → d' !! t = Some m → m = granted (if decide (t = path) then mode else 511)).

Lemma all_created_existing d :
  plain path → tree d → is_Some (d !! path) → all_created d d.
Proof.
  intros Hpl Htree Hp. split_and!; [done| |naive_solver]. intros t. split; [by left|].
  intros [?|[->|(k & Hk & ->)]]; [done..|]. pose proof (lookup_lt_Some _ _ _ Hk).
  apply (tree_ancestors d (length path)); try done. rewrite firstn_all. intros u Hu. by eapply Htree.
Qed.

Lemma all_created_fill s n st :
  plain path → tree (dirs s) → dirs s !! path = None → chain s n st →
  (∀ u, parent (take n path) = Some u → is_Some (dirs s !! u)) →
  all_created (dirs s) (<[path := granted mode]> (fill (dirs s) st)).
Proof.
  intros Hpl Htree Hp Hch Hpar. destruct (chain_top _ _ _ Hch) as (Hn & _).
  assert (∀ t, dirs s !! t ≠ None → fill (dirs s) st !! t = dirs s !! t) as Hold.
  { intros t Ht. apply fill_out. intros q Hq ->. destruct (chain_missing _ _ _ _ Hch Hq) as (k & -> & _ & Hm).
    by rewrite Nat2Z.id in Ht. }
  split_and!.
  - intros t m Ht. rewrite lookup_insert_ne by congruence. rewrite Hold; congruence.
  - intros t. destruct (decide (t = path)) as [->|Hne].
    { rewrite lookup_insert_eq. split; [intros _; by right; left|by eexists]. }
    rewrite lookup_insert_ne by done. split.
    + intros [m Hm]. destruct (decide (Exists (λ q, t = take (Z.to_nat q) path) st)) as [Hex|Hnex].
      * apply Exists_exists in Hex as (q & Hq & ->). destruct (chain_missing _ _ _ _ Hch Hq) as (k & -> & Hk & _).
        right; right. exists k. by rewrite Nat2Z.id.
      * left. rewrite <- (fill_out _ st); [by eexists|]. intros q Hq Ht. apply Hnex, Exists_exists. by exists q.
    + intros [[m Hm]|[?|(k & Hk & ->)]]; [rewrite Hold by congruence; by eexists|done|].
      destruct (decide (n ≤ S k)%nat) as [Hle|Hlt].
      * pose proof (chain_covers _ _ _ _ Hch Hk Hle) as Hin. apply (fill_in (dirs s)) in Hin.
        rewrite Nat2Z.id in Hin. by eexists.
      * destruct (tree_ancestors (dirs s) n k) as [m Hm]; try done; [lia|]. rewrite Hold by congruence. by eexists.
  - intros t m Hnone. destruct (decide (t = path)) as [->|Hne]; [rewrite lookup_insert_eq; by intros [= <-]|].
    rewrite lookup_insert_ne by done. intros Hm.
    destruct (decide (Exists (λ q, t = take (Z.to_nat q) path) st)) as [Hex|Hnex].
    + apply Exists_exists in Hex as (q & Hq & ->). rewrite (fill_in _ _ _ Hq) in Hm. by simplify_eq.
    + rewrite fill_out in Hm; [congruence|]. intros q Hq Ht. apply Hnex, Exists_exists. by exists q.
Qed.

Lemma some_created_fill s n st st' :
  chain s n st → st' ⊆ st → some_created (dirs s) (fill (dirs s) st').
Proof.
  intros Hch Hsub. split.
  - intros t m Ht. rewrite fill_out; [done|]. intros q Hq ->.
    destruct (chain_missing _ _ _ _ Hch (Hsub _ Hq)) as (k & -> & _ & Hm). rewrite Nat2Z.id in Ht. congruence.
  - intros t m Hnone Hm. destruct (decide (Exists (λ q, t = take (Z.to_nat q) path) st')) as [Hex|Hnex].
    + apply Exists_exists in Hex as (q & Hq & ->). rewrite (fill_in _ _ _ Hq) in Hm. injection Hm as <-.
      destruct (chain_missing _ _ _ _ Hch (Hsub _ Hq)) as (k & -> & Hk & _). split; [|done].
      exists k. by rewrite Nat2Z.id.
    + rewrite fill_out in Hm; [congruence|]. intros q Hq Ht. apply Hnex, Exists_exists. by exists q.
Qed.


End laws.

(** ** Paths that are refused *)
Lemma get_offset_loop_short x name i :
  SEP ∉ name → (1 ≤ i < 2 + length name)%nat → get_offset_loop (x :: SEP :: name) i = Val None.
Proof.
  intros Hname. induction i as [|i IH]; [lia|]. intros Hi. cbn [get_offset_loop].
  destruct (lookup_lt_is_Some_2 (x :: SEP :: name) (S i)) as [b Hb]; [simpl; lia|]. rewrite Hb. cbn [expect mbind outcome_bind].
  case_match eqn:Hstop; [done|]. destruct i as [|i].
  { simpl in Hb. injection Hb as <-. done. }
  assert (b ≠ SEP) as Hne by (intros ->; apply Hname; by eapply (list_elem_of_lookup_2 _ i)).
  rewrite (proj2 (Z.eqb_neq _ _) Hne). apply IH. lia.
Qed.

Lemma last_sep_short x name : SEP ∉ name → last_sep (x :: SEP :: name) (2 + length name) = Some 1%nat.
Proof.
  intros Hname. apply last_sep_Some. split_and!; [lia|done|]. intros [|[|i]] Hi; [lia..|]. simpl.
  intros Hs. apply Hname. by eapply list_elem_of_lookup_2.
Qed.

(** A relative path of two names of which the first, of one byte, does not
    exist: [create_dir_all] fails with [InvalidData] and creates nothing. *)
Theorem create_dir_all_short_name {St : Type} (umask : Z) (dirs : St → gmap (list Z) Z)
    (create_dir : list Z → Z → St → Result () * St) (path_is_dir : list Z → St → bool)
    (p : profile) (x : Z) (name : list Z) (mode : Z) (fuel : nat) (s : St) :
  QuietFs true umask dirs create_dir path_is_dir → proper (x :: SEP :: name) → x ≠ 0 → 0 ∉ name → SEP ∉ name →
  dirs s !! [x] = None → dirs s !! (x :: SEP :: name) = None →
  ∃ s', DirBuilder_create_dir_all create_dir path_is_dir p (x :: SEP :: name) mode (S fuel) s =
      Val (Some (Err (Simple InvalidData)), s') ∧ dirs s' = dirs s.
Proof.
  intros laws Hprop Hx Hnul Hname Hd Hp.
  assert (parent (x :: SEP :: name) = Some [x]) as Hpar .
  { unfold parent. change (length (x :: SEP :: name)) with (2 + length name)%nat. by rewrite last_sep_short. }
  destruct (law_mkdir_missing _ _ _ _ _ laws _ _ mode s Hprop Hp Hpar Hd) as (e & s' & Hc & Hd' & [->|[? _]]); [|done].
  exists s'. split; [|done].
  cbn [DirBuilder_create_dir_all create_dir_all_loop].
  assert (get_os_path (x :: SEP :: name) = Ok (x :: SEP :: name)) as ->.
  { unfold get_os_path. rewrite bool_decide_false; [done|]. rewrite !elem_of_cons. intros [|[|]]; [congruence|done|done]. }
  rewrite Hc, decide_True by done. unfold get_offset. cbn [last default length].
  rewrite usize_sub_Val by lia. cbn [mbind outcome_bind]. rewrite (proj2 (Z.ltb_lt _ _)) by lia.
  rewrite get_offset_loop_short by (done || lia). done.
Qed.

(** ** A file system *)
Module Sim.

Definition umask : Z := 18.

Definition mkdir (t : list Z) (mode : Z) (d : gmap (list Z) Z) : Result () * gmap (list Z) Z :=
  match d !! t with
  | Some _ => (Err (OsError EEXIST), d)
  | None =>
      if parent t is Some u then
        if d !! u is Some _ then (Ok (), <[t := Z.ldiff mode umask]> d) else (Err (OsError ENOENT), d)
      else (Ok (), <[t := Z.ldiff mode umask]> d)
  end.

Definition is_dir (t : list Z) (d : gmap (list Z) Z) : bool := bool_decide (is_Some (d !! t)).

Lemma quiet strict : QuietFs strict umask (λ d, d) mkdir is_dir.
Proof.
  split; unfold mkdir.
  - intros t m mode d _ Ht. rewrite Ht. by eexists.
  - intros t u mode d _ Ht -> Hu. rewrite Ht, Hu. eexists _, _. split_and!; [done..|by left].
  - intros t mode d _ Ht Hu. rewrite Ht. destruct (parent t) as [u|]; [|by eexists _, _; split; [done|left]].
    destruct (Hu u eq_refl) as [m ->]. eexists _, _. split; [done|by left].
  - done.
Qed.

(** The same file system while others create the directories [others] between
    the first call and the second. *)
Definition racing_mkdir (t : list Z) (mode : Z) (s : gmap (list Z) Z * list (list Z))
    : Result () * (gmap (list Z) Z * list (list Z)) :=
  let '(r, d) := mkdir t mode s.1 in (r, (foldr (λ t d, (mkdir t 493 d).2) d s.2, [])).

Definition racing_is_dir (t : list Z) (s : gmap (list Z) Z * list (list Z)) : bool := is_dir t s.1.

End Sim.

(** Two directories of the path [aa/b] are missing. If others create both of
    them after the first call of [mkdir], the loop never ends; if they create
    [aa] only, [create_dir_all] fails with [AlreadyExists]. *)
Theorem create_dir_all_races (p : profile) :
  let path := bytes_of_string "aa/b" in
  let run fuel others := DirBuilder_create_dir_all Sim.racing_mkdir Sim.racing_is_dir p path 511 fuel (∅, others) in
  (∀ fuel, ∃ s', run fuel [path; bytes_of_string "aa"] = Val (None, s')) ∧
  ∀ fuel, ∃ s', run (S (S fuel)) [bytes_of_string "aa"] = Val (Some (Err (OsError EEXIST)), s').
Proof.
  set (P := bytes_of_string "aa/b"). set (A := bytes_of_string "aa"). cbv zeta.
  set (s1 := (Sim.racing_mkdir P 511 (∅, [P; A])).2). set (s2 := (Sim.racing_mkdir P 511 (∅, [A])).2).
  assert (get_os_path P = Ok P ∧ get_os_path A = Ok A) as [HP HA] by (by vm_compute).
  assert (∀ others, Sim.racing_mkdir P 511 (∅, others) = (Err (OsError ENOENT), (Sim.racing_mkdir P 511 (∅, others)).2)) as Hfirst by done.
  assert (∀ fuel others, create_dir_all_loop Sim.racing_mkdir Sim.racing_is_dir p P 511 (S fuel) P 511 [] (∅, others) =
    create_dir_all_loop Sim.racing_mkdir Sim.racing_is_dir p P 511 fuel A 511 [2] (Sim.racing_mkdir P 511 (∅, others)).2) as Hturn.
  { intros fuel others. cbn [create_dir_all_loop]. rewrite HP, Hfirst, decide_True by done.
    assert (get_offset p [] P = Val (Some 2, [2])) as -> by (by destruct p). done. }
  assert (∀ fuel s, DirBuilder_create_dir_all Sim.racing_mkdir Sim.racing_is_dir p P 511 fuel s =
    create_dir_all_loop Sim.racing_mkdir Sim.racing_is_dir p P 511 fuel P 511 [] s) as Hstart by reflexivity.
  split; intros fuel; rewrite Hstart.
  - assert (Sim.racing_mkdir A 511 s1 = (Err (OsError EEXIST), s1)) as Hmk by (by vm_compute).
    assert (Sim.racing_is_dir P s1 = true) as Hdir by (by vm_compute).
    destruct fuel as [|fuel]; [by eexists|]. exists s1. rewrite Hturn. fold s1.
    induction fuel as [|fuel IH]; [done|]. cbn [create_dir_all_loop]. by rewrite HA, Hmk, decide_False, Hdir by done.
  - assert (Sim.racing_mkdir A 511 s2 = (Err (OsError EEXIST), s2)) as Hmk by (by vm_compute).
    assert (Sim.racing_is_dir P s2 = false) as Hdir by (by vm_compute).
    exists s2. rewrite Hturn. fold s2. cbn [create_dir_all_loop].
    by rewrite HA, Hmk, decide_False, Hdir by done.
Qed.

(** A path that is not valid UTF-8: the offset in the path is not one in the
    string that replaces it. *)
Theorem create_dir_all_not_utf8 (p : profile) (fuel : nat) :
  DirBuilder_create_dir_all Sim.mkdir Sim.is_dir p [255; 97; 47; 98] 511 (S fuel) ∅ = Undefined.
Proof. by destruct p; vm_compute. Qed.

(** ** Witnesses *)
Lemma tree_empty : tree ∅.
Proof. intros t u [m Hm]. by rewrite lookup_empty in Hm. Qed.

(** [plain] by evaluation. *)
Definition plainb (path : list Z) : bool :=
  bool_decide (path ≠ []) && bool_decide (0 ∉ path) && bool_decide (COLON ∉ path) &&
  bool_decide (path !! 1%nat ≠ Some SEP) &&
  forallb (λ i, match path !! i, path !! S i with
                | Some b, Some b' => negb ((b =? SEP) || (b =? DOT)) || negb (b' =? SEP)
                | Some b, None => negb ((b =? SEP) || (b =? DOT))
                | None, _ => true
                end) (seq 0 (length path)).

Lemma plainb_plain path : plainb path = true → plain path.
Proof.
  unfold plainb. rewrite !andb_true_iff, !bool_decide_eq_true, forallb_forall. intros ((((? & ?) & ?) & ?) & Hall).
  assert (∀ i b, b = SEP ∨ b = DOT → path !! i = Some b → ∃ b', path !! S i = Some b' ∧ b' ≠ SEP) as Hnext.
  { intros i b Hb Hi. specialize (Hall i). rewrite Hi in Hall.
    assert (((b =? SEP) || (b =? DOT))%bool = true) as Hbb by (destruct Hb as [-> | ->]; done).
    rewrite Hbb in Hall. simpl in Hall. destruct (path !! S i) as [b'|].
    - exists b'. split; [done|]. apply Z.eqb_neq, negb_true_iff, Hall, in_seq. apply lookup_lt_Some in Hi. lia.
    - discriminate Hall. apply in_seq. apply lookup_lt_Some in Hi. lia. }
  split; [done..|intros i Hi; apply (Hnext i SEP); [by left|done]|intros i Hi; apply (Hnext i DOT); [by right|done]|done].
Qed.


Lemma proper_short x y : x ≠ SEP → y ≠ SEP → x ≠ DOT → y ≠ DOT → proper [x; SEP; y].
Proof.
  intros Hx Hy Hx' Hy'. split; [done|..].
  - intros [|[|[|i]]]; simpl; naive_solver.
  - intros [|[|[|i]]] _; simpl; naive_solver.
  - intros [|[|[|i]]] _; simpl; naive_solver.
Qed.

Lemma create_dir_all_short_name_witness :
  ∃ s', DirBuilder_create_dir_all Sim.mkdir Sim.is_dir Release (bytes_of_string "a/b") 511 9 ∅ =
      Val (Some (Err (Simple InvalidData)), s') ∧ s' = ∅.
Proof.
  apply (create_dir_all_short_name Sim.umask (λ d, d) Sim.mkdir Sim.is_dir Release 97 [98] 511 8 ∅ (Sim.quiet true)).
  - apply proper_short; discriminate.
  - discriminate.
  - apply (bool_decide_eq_true_1 (0 ∉ [98])). vm_compute. reflexivity.
  - apply (bool_decide_eq_true_1 (SEP ∉ [98])). vm_compute. reflexivity.
  - reflexivity.
  - reflexivity.
Defined.
