(* ===== verification/UnixAddr.v ===== *)
(** * Addresses of sockets

    Models [src/src/net/unix/addr.rs], the conversions of
    [src/src/net/addr/from_sock_addr.rs] and [into_sock_addr.rs] for Unix
    addresses, and the message headers of
    [src/src/io/sys/linux/os_message_header.rs] and
    [src/src/io/sys/fallback/os_message_header.rs].

    [socket2::SockAddr] is a [sockaddr_storage] of 128 bytes and a length. A
    [sockaddr_un] is its first 110 bytes: the family in two, little-endian,
    and 108 of path. The standard library's address is a [sockaddr_un] and a
    length. *)

From Stdlib Require Import ZArith Lia.
From S2P Require Import Prelude IoTypes.

Local Open Scope Z_scope.

Definition AF_UNIX : Z := 1.

(** [offset_of!(libc::sockaddr_un, sun_path)], the length of [sun_path], and
    the sizes of [sockaddr_un] and [sockaddr_storage]. *)
Definition SUN_PATH_OFFSET : Z := 2.
Definition SUN_PATH_LEN : Z := 108.
Definition SUN_SIZE : nat := 110.
Definition STORAGE_SIZE : nat := 128.

Record SockAddr := mkSockAddr { storage : list Z; addr_len : Z }.

Global Instance SockAddr_eq_dec : EqDecision SockAddr.
Proof. solve_decision. Defined.

(** [copy_nonoverlapping] of bytes to an offset. *)
Definition write_at (off : nat) (bs : list Z) (mem : list Z) : list Z :=
  take off mem ++ bs ++ drop (off + length bs) mem.

(** [sun_path] of what an address points to. *)
Definition sun_path (st : list Z) : list Z := take 108 (drop 2 st).

(** A zeroed storage with the family of Unix sockets. *)
Definition unix_storage : list Z := write_at 0 [AF_UNIX; 0] (replicate STORAGE_SIZE 0).

Definition sockaddr_un (path : list Z) : Result (list Z * Z) :=
  let st := unix_storage in
  if bool_decide (0 ∈ path) then Err (Simple InvalidInput)
  else if SUN_PATH_LEN <=? Z.of_nat (length path) then Err (Simple InvalidInput)
  else
    let st := write_at 2 path st in
    let len := SUN_PATH_OFFSET + Z.of_nat (length path) in
    let len := match path with
               | [] => len
               | b :: _ => if b =? 0 then len else len + 1
               end in
    Ok (st, u32_wrap len).

Inductive AddressKind :=
| Unnamed
| Pathname (path : list Z)
| Abstract (name : list Z).

Record UnixAddr := mkUnixAddr { inner : SockAddr }.

Definition from_pathname (path : list Z) : Result UnixAddr :=
  match sockaddr_un path with
  | Ok (st, len) => Ok (mkUnixAddr (mkSockAddr st len))
  | Err e => Err e
  end.

(** [&path[from..to]]. *)
Definition subslice (l : list Z) (from to : Z) : outcome (list Z) :=
  if (from <=? to) && (to <=? Z.of_nat (length l)) then
    Val (take (Z.to_nat (to - from)) (drop (Z.to_nat from) l))
  else Panicked.

(** [address] on Linux. *)
Definition address (p : profile) (a : UnixAddr) : outcome AddressKind :=
  let path := sun_path (storage (inner a)) in
  len ← usize_sub p (addr_len (inner a)) SUN_PATH_OFFSET;
  if len =? 0 then Val Unnamed
  else
    first ← expect (path !! 0%nat);
    if first =? 0 then name ← subslice path 1 len; Val (Abstract name)
    else stop ← usize_sub p len 1; name ← subslice path 0 stop; Val (Pathname name).

Definition as_pathname (p : profile) (a : UnixAddr) : outcome (option (list Z)) :=
  k ← address p a; Val (match k with Pathname path => Some path | _ => None end).

Definition is_unnamed (p : profile) (a : UnixAddr) : outcome bool :=
  k ← address p a; Val (match k with Unnamed => true | _ => false end).

Definition as_abstract_name (p : profile) (a : UnixAddr) : outcome (option (list Z)) :=
  k ← address p a; Val (match k with Abstract name => Some name | _ => None end).

Definition from_abstract_name (p : profile) (name : list Z) : outcome (Result UnixAddr) :=
  let st := unix_storage in
  n ← usize_add p (Z.of_nat (length name)) 1;
  if SUN_PATH_LEN <? n then Val (Err (Simple InvalidInput))
  else
    let st := write_at 3 name st in
    let len := u32_wrap (SUN_PATH_OFFSET + 1 + Z.of_nat (length name)) in
    Val (Ok (mkUnixAddr (mkSockAddr st len))).

(** [std::os::unix::net::SocketAddr]: the bytes of its [sockaddr_un] and its
    length. *)
Record SocketAddr := mkSocketAddr { sun : list Z; sun_len : Z }.

Definition UnixAddr_from_SocketAddr (a : SocketAddr) : UnixAddr :=
  mkUnixAddr (mkSockAddr (write_at 0 (sun a) (replicate STORAGE_SIZE 0)) (sun_len a)).

Definition SocketAddr_from_UnixAddr (a : UnixAddr) : SocketAddr :=
  mkSocketAddr (take SUN_SIZE (storage (inner a))) (addr_len (inner a)).

(** ** [from_sock_addr.rs] and [into_sock_addr.rs] for [UnixAddr]

    The addresses of the internet are made by [socket2]: [as_socket] is its
    conversion. *)
Definition UnixAddr_from_sock_addr (a : SockAddr) : option UnixAddr := Some (mkUnixAddr a).
Definition SocketAddr_from_sock_addr (a : SockAddr) : option SocketAddr :=
  Some (SocketAddr_from_UnixAddr (mkUnixAddr a)).
Definition UnixAddr_into_sock_addr (a : UnixAddr) : SockAddr := inner a.
Definition SocketAddr_into_sock_addr (a : SocketAddr) : SockAddr := inner (UnixAddr_from_SocketAddr a).

(** ** Message headers

    [msghdr], with pointers as integers: to the storage of an address, and to
    the first of some [iovec]s. *)
Record OsMessageHeader := mkOsMessageHeader {
  msg_name : Z;
  msg_namelen : Z;
  msg_iov : Z;
  msg_iovlen : Z;
}.

(** [sock_addr_size] is the size of [SockAddr]. *)
Definition MessageRecvHeader_new (sock_addr_size addr iov iovlen : Z) : OsMessageHeader :=
  mkOsMessageHeader addr (u32_wrap sock_addr_size) iov iovlen.

Definition get_addr_len (h : OsMessageHeader) : Z := msg_namelen h.

Definition MessageSendHeader_new : OsMessageHeader := mkOsMessageHeader 0 0 0 0.

Definition MessageSendHeader_init (h : OsMessageHeader) (addr : Z) (a : SockAddr) (iov iovlen : Z) : OsMessageHeader :=
  mkOsMessageHeader addr (addr_len a) iov iovlen.

(** ** Bytes of an address *)
Lemma write_at_app off bs l1 l2 l3 :
  length l1 = off → length l2 = length bs → write_at off bs (l1 ++ l2 ++ l3) = l1 ++ bs ++ l3.
Proof.
  intros Hl1 Hl2. unfold write_at. rewrite take_app_length' by done. do 2 f_equal.
  rewrite (assoc_L (++)). apply drop_app_length'. rewrite length_app. lia.
Qed.

(** The storage of an address whose path starts with [bs], the rest zero. *)
Definition unix_bytes (bs : list Z) : list Z := [AF_UNIX; 0] ++ bs ++ replicate (126 - length bs) 0.

Lemma replicate_split n k : (k ≤ n)%nat → replicate n 0 = replicate k 0 ++ replicate (n - k) 0.
Proof. intros Hk. rewrite <- replicate_add. f_equal. lia. Qed.

Lemma write_path bs : (length bs ≤ 108)%nat → write_at 2 bs unix_storage = unix_bytes bs.
Proof.
  intros Hb. change unix_storage with ([AF_UNIX; 0] ++ replicate 126 0).
  rewrite (replicate_split 126 (length bs)) by lia. apply write_at_app; [done|]. by rewrite length_replicate.
Qed.

Lemma write_name bs : (length bs ≤ 107)%nat → write_at 3 bs unix_storage = unix_bytes (0 :: bs).
Proof.
  intros Hb. change unix_storage with ([AF_UNIX; 0; 0] ++ replicate 125 0).
  rewrite (replicate_split 125 (length bs)) by lia. rewrite write_at_app; [done|done|by rewrite length_replicate].
Qed.

Lemma sun_path_bytes bs : (length bs ≤ 108)%nat → sun_path (unix_bytes bs) = bs ++ replicate (108 - length bs) 0.
Proof.
  intros Hb. unfold sun_path, unix_bytes. rewrite (drop_app_length' [AF_UNIX; 0]) by done. rewrite take_app_ge by done. by rewrite take_replicate, Nat.min_l by lia.
Qed.

Lemma slice_app l1 l2 l3 :
  subslice (l1 ++ l2 ++ l3) (Z.of_nat (length l1)) (Z.of_nat (length l1 + length l2)) = Val l2.
Proof.
  unfold subslice. rewrite !length_app.
  rewrite (proj2 (Z.leb_le _ _)), (proj2 (Z.leb_le _ _)) by lia. simpl.
  rewrite Nat2Z.id, drop_app_length. f_equal. apply take_app_length'. lia.
Qed.

(** ** Constructors *)
Lemma sockaddr_un_Ok path st len :
  sockaddr_un path = Ok (st, len) ↔
    (0 ∉ path) ∧ (length path < 108)%nat ∧ st = unix_bytes path ∧
    len = 2 + Z.of_nat (length path) + (if path is [] then 0 else 1).
Proof.
  unfold sockaddr_un, SUN_PATH_LEN, SUN_PATH_OFFSET. destruct (bool_decide (0 ∈ path)) eqn:H0; [|apply bool_decide_eq_false in H0].
  { apply bool_decide_eq_true in H0. naive_solver. }
  destruct (Z.leb_spec 108 (Z.of_nat (length path))) as [Hl|Hl]; [split; [done|lia]|].
  rewrite write_path by lia.
  assert (match path with [] => 2 + Z.of_nat (length path) | b :: _ =>
      if b =? 0 then 2 + Z.of_nat (length path) else 2 + Z.of_nat (length path) + 1 end =
    2 + Z.of_nat (length path) + (if path is [] then 0 else 1)) as ->.
  { destruct path as [|b path]; [done|]. rewrite (proj2 (Z.eqb_neq b 0)); [done|]. intros ->. apply H0, elem_of_cons. by left. }
  rewrite u32_wrap_small by (unfold in_u32, u32_modulus; destruct path; lia). split; [|naive_solver].
  intros [= <- <-]. split_and!; [done|lia|done..].
Qed.

Lemma address_path p path :
  (length path ≤ 108)%nat → (∀ b, path !! 0%nat = Some b → b ≠ 0) →
  address p (mkUnixAddr (mkSockAddr (unix_bytes path) (2 + Z.of_nat (length path) + (if path is [] then 0 else 1)))) =
    Val (if path is [] then Unnamed else Pathname path).
Proof.
  intros Hl H0. unfold address, SUN_PATH_OFFSET. cbn [inner storage addr_len]. rewrite sun_path_bytes by done.
  rewrite usize_sub_Val by (destruct path; lia). cbn [mbind outcome_bind]. destruct path as [|b path]; [done|].
  rewrite (proj2 (Z.eqb_neq _ 0)) by (simpl; lia). simpl. rewrite (proj2 (Z.eqb_neq b 0)) by (by apply H0).
  rewrite usize_sub_Val by lia. simpl.
  pose proof (slice_app [] (b :: path) (replicate (107 - length path) 0)) as Hs. simpl in Hs.
  match goal with |- context [subslice ?l 0 ?x] =>
    replace (subslice l 0 x) with (subslice l (Z.of_nat 0) (Z.of_nat (S (length path)))) by (f_equal; lia) end.
  by rewrite Hs.
Qed.

Lemma address_name p name :
  (length name ≤ 107)%nat →
  address p (mkUnixAddr (mkSockAddr (unix_bytes (0 :: name)) (3 + Z.of_nat (length name)))) = Val (Abstract name).
Proof.
  intros Hl. unfold address, SUN_PATH_OFFSET. cbn [inner storage addr_len]. rewrite sun_path_bytes by (simpl; lia).
  rewrite usize_sub_Val by lia. cbn [mbind outcome_bind]. rewrite (proj2 (Z.eqb_neq _ 0)) by lia. simpl.
  pose proof (slice_app [0] name (replicate (107 - length name) 0)) as Hs. simpl in Hs.
  match goal with |- context [subslice ?l 1 ?x] =>
    replace (subslice l 1 x) with (subslice l (Z.of_nat 1) (Z.of_nat (S (length name)))) by (f_equal; lia) end.
  by rewrite Hs.
Qed.

Lemma from_abstract_name_spec p name :
  Z.of_nat (length name) + 1 < usize_modulus →
  from_abstract_name p name =
    Val (if decide (length name ≤ 107)%nat
         then Ok (mkUnixAddr (mkSockAddr (unix_bytes (0 :: name)) (3 + Z.of_nat (length name))))
         else Err (Simple InvalidInput)).
Proof.
  intros Hl. unfold from_abstract_name, SUN_PATH_LEN, SUN_PATH_OFFSET. rewrite usize_add_Val by done. cbn [mbind outcome_bind].
  case_decide as Hd.
  - rewrite (proj2 (Z.ltb_ge _ _)) by lia. rewrite write_name by done.
    rewrite u32_wrap_small by (unfold in_u32, u32_modulus; lia). do 4 f_equal.
  - by rewrite (proj2 (Z.ltb_lt _ _)) by lia.
Qed.

(** The conversions to and from the standard library's address. *)
Lemma std_roundtrip bs len :
  (length bs ≤ 108)%nat →
  let a := mkUnixAddr (mkSockAddr (unix_bytes bs) len) in UnixAddr_from_SocketAddr (SocketAddr_from_UnixAddr a) = a.
Proof.
  intros Hl a. unfold UnixAddr_from_SocketAddr, SocketAddr_from_UnixAddr, a. cbn [inner storage addr_len sun sun_len]. do 2 f_equal.
  assert (unix_bytes bs = ([AF_UNIX; 0] ++ bs ++ replicate (108 - length bs) 0) ++ replicate 18 0) as ->.
  { unfold unix_bytes. rewrite <- !(assoc_L (++)), <- replicate_add. do 3 f_equal. lia. }
  assert (length ([AF_UNIX; 0] ++ bs ++ replicate (108 - length bs) 0) = SUN_SIZE) as Hlen.
  { rewrite !length_app, length_replicate. simpl. unfold SUN_SIZE. lia. }
  rewrite take_app_length' by done. unfold write_at. rewrite take_0, Nat.add_0_l, Hlen. done.
Qed.

(** C31: [from_pathname] and [from_abstract_name] accept exactly the paths without
    NUL of less than 108 bytes and the names of at most 107 bytes, and fail
    with [InvalidInput] on others; [address] gives back what the address was
    made from, also after it went through the standard library's address. *)
Theorem unix_addr_roundtrip (p : profile) (path name : list Z) :
  Z.of_nat (length name) + 1 < usize_modulus →
  (if decide ((0 ∉ path) ∧ (length path < 108)%nat) then
     ∃ a, from_pathname path = Ok a ∧ address p a = Val (if path is [] then Unnamed else Pathname path) ∧
       UnixAddr_from_SocketAddr (SocketAddr_from_UnixAddr a) = a
   else from_pathname path = Err (Simple InvalidInput)) ∧
  (if decide (length name ≤ 107)%nat then
     ∃ a, from_abstract_name p name = Val (Ok a) ∧ address p a = Val (Abstract name) ∧
       UnixAddr_from_SocketAddr (SocketAddr_from_UnixAddr a) = a
   else from_abstract_name p name = Val (Err (Simple InvalidInput))).
Proof.
  intros Hname. split.
  - case_decide as Hd; unfold from_pathname.
    + destruct Hd as [H0 Hl]. rewrite (proj2 (sockaddr_un_Ok path (unix_bytes path) _)) by done.
      eexists. split; [done|]. split; [|apply std_roundtrip; lia]. apply address_path; [lia|].
      intros b Hb ->. apply H0. by eapply list_elem_of_lookup_2.
    + destruct (sockaddr_un path) as [[st len]|e] eqn:Hs; [apply sockaddr_un_Ok in Hs; naive_solver|].
      unfold sockaddr_un in Hs. repeat case_match; naive_solver.
  - rewrite from_abstract_name_spec by done. case_decide; [|done]. eexists. split; [done|].
    split; [by apply address_name|apply std_roundtrip; simpl; lia].
Qed.

(** ** Well-formed addresses *)
Record unix_wf (a : SockAddr) : Prop := {
  wf_size : length (storage a) = STORAGE_SIZE;
  wf_bytes : Forall (λ b, 0 ≤ b < 256) (storage a);
  wf_family : take 2 (storage a) = [AF_UNIX; 0];
  wf_len : SUN_PATH_OFFSET ≤ addr_len a ≤ SUN_PATH_OFFSET + SUN_PATH_LEN;
}.

Lemma unix_wf_bytes bs len :
  Forall (λ b, 0 ≤ b < 256) bs → (length bs ≤ 108)%nat → 2 ≤ len ≤ 110 → unix_wf (mkSockAddr (unix_bytes bs) len).
Proof.
  intros Hb Hl Hlen. unfold unix_bytes. split; cbn [storage addr_len].
  - rewrite !length_app, length_replicate. simpl. unfold STORAGE_SIZE. lia.
  - rewrite !Forall_app. split_and!; [by repeat constructor|done|]. apply Forall_replicate. lia.
  - done.
  - unfold SUN_PATH_OFFSET, SUN_PATH_LEN. lia.
Qed.

Lemma unix_wf_std a : unix_wf (inner a) → unix_wf (inner (UnixAddr_from_SocketAddr (SocketAddr_from_UnixAddr a))).
Proof.
  intros [Hs Hb Hf Hl]. destruct a as [[st len]]. unfold UnixAddr_from_SocketAddr, SocketAddr_from_UnixAddr.
  cbn [inner storage addr_len sun sun_len] in *. unfold STORAGE_SIZE in Hs.
  assert (write_at 0 (take SUN_SIZE st) (replicate STORAGE_SIZE 0) = take SUN_SIZE st ++ replicate 18 0) as Heq.
  { unfold write_at. rewrite take_0, length_take_le by (rewrite Hs; unfold SUN_SIZE; lia). done. }
  split; cbn [storage addr_len]; rewrite ?Heq; [| | |done].
  - rewrite length_app, length_take_le by (rewrite Hs; unfold SUN_SIZE; lia). done.
  - apply Forall_app. split; [by apply Forall_take|]. apply Forall_replicate. lia.
  - rewrite take_app_le by (rewrite length_take, Hs; unfold SUN_SIZE; lia).
    by rewrite take_take, Nat.min_l by (unfold SUN_SIZE; lia).
Qed.

Lemma address_wf p a : unix_wf (inner a) → ∃ k, address p a = Val k.
Proof.
  intros [Hs _ _ Hl]. unfold SUN_PATH_OFFSET, SUN_PATH_LEN, STORAGE_SIZE in *. unfold address, SUN_PATH_OFFSET.
  assert (length (sun_path (storage (inner a))) = 108%nat) as Hp.
  { unfold sun_path. rewrite length_take, length_drop, Hs. done. }
  rewrite usize_sub_Val by lia. cbn [mbind outcome_bind]. case_match eqn:Hz; [by eexists|]. apply Z.eqb_neq in Hz.
  destruct (lookup_lt_is_Some_2 (sun_path (storage (inner a))) 0) as [b Hb]; [lia|]. rewrite Hb. cbn [expect mbind outcome_bind].
  unfold subslice. rewrite Hp. case_match.
  - rewrite (proj2 (Z.leb_le _ _)), (proj2 (Z.leb_le _ _)) by lia. by eexists.
  - rewrite usize_sub_Val by lia. cbn [mbind outcome_bind].
    rewrite (proj2 (Z.leb_le _ _)), (proj2 (Z.leb_le _ _)) by lia. by eexists.
Qed.

(** C32: the representation of a Unix address: what the constructors make and the
    conversions keep is 128 bytes of storage with the Unix family and a length
    within [sockaddr_un]; [address], [as_pathname], [as_abstract_name] and
    [is_unnamed] never panic on such an address. *)
Theorem unix_addr_wf (p : profile) :
  (∀ path a, Forall (λ b, 0 ≤ b < 256) path → from_pathname path = Ok a → unix_wf (UnixAddr_into_sock_addr a)) ∧
  (∀ name a, Forall (λ b, 0 ≤ b < 256) name → Z.of_nat (length name) + 1 < usize_modulus →
    from_abstract_name p name = Val (Ok a) → unix_wf (UnixAddr_into_sock_addr a)) ∧
  (∀ a, unix_wf (inner a) →
    unix_wf (SocketAddr_into_sock_addr (SocketAddr_from_UnixAddr a)) ∧
    (∃ k, address p a = Val k) ∧ (∃ r, as_pathname p a = Val r) ∧
    (∃ r, as_abstract_name p a = Val r) ∧ (∃ r, is_unnamed p a = Val r)).
Proof.
  split_and!.
  - intros path a Hb. unfold from_pathname. destruct (sockaddr_un path) as [[st len]|] eqn:Hs; [|done]. intros [= <-].
    apply sockaddr_un_Ok in Hs as (_ & Hl & -> & ->). apply unix_wf_bytes; [done|lia|destruct path; simpl in *; lia].
  - intros name a Hb Hl. rewrite from_abstract_name_spec by done. case_decide; [|done]. intros [= <-].
    apply unix_wf_bytes; [constructor; [lia|done]|simpl; lia|lia].
  - intros a Ha. destruct (address_wf p a Ha) as [k Hk]. split; [by apply unix_wf_std|].
    unfold as_pathname, as_abstract_name, is_unnamed. rewrite Hk. by split_and!; eexists.
Qed.

(** An address of length 0, which the system gives for the sender of a
    datagram that has no name: [address] and what uses it panic. *)
Theorem unix_addr_without_len (p : profile) (st : list Z) :
  length st = STORAGE_SIZE → address p (mkUnixAddr (mkSockAddr st 0)) = Panicked.
Proof.
  intros Hs. destruct p; [done|]. unfold address. cbn [inner storage addr_len].
  change (usize_sub Release 0 SUN_PATH_OFFSET) with (@Val Z 18446744073709551614). cbn [mbind outcome_bind].
  assert (length (sun_path st) = 108%nat) as Hp.
  { unfold sun_path. rewrite length_take, length_drop, Hs. done. }
  destruct (lookup_lt_is_Some_2 (sun_path st) 0) as [b Hb]; [lia|]. rewrite Hb. simpl. unfold subslice. rewrite Hp. by case_match.
Qed.

(** ** Witnesses *)
Lemma unix_addr_roundtrip_witness :
  ∃ a, from_pathname [97; 47; 98] = Ok a ∧ address Debug a = Val (Pathname [97; 47; 98]) ∧
    UnixAddr_from_SocketAddr (SocketAddr_from_UnixAddr a) = a.
Proof.
  destruct (unix_addr_roundtrip Debug [97; 47; 98] [120]) as [H _].
  - vm_compute. reflexivity.
  - exact H.
Defined.

Lemma unix_addr_without_len_witness :
  address Release (mkUnixAddr (mkSockAddr (replicate STORAGE_SIZE 0) 0)) = Panicked.
Proof. apply (unix_addr_without_len Release (replicate STORAGE_SIZE 0)). reflexivity. Defined.
