(* ===== verification/IoStreams.v ===== *)
(** * What the transferring methods do to a stream

    The loops of [IoOps] over a device: memory, the bytes that will come from
    each socket or file, the bytes that were sent to it, and the contents of
    files. What the calls of the system do is a record of laws, as documented
    by [recv(2)], [send(2)], [pread(2)] and [pwrite(2)]; the methods are proved
    against these laws. *)

From Stdlib Require Import ZArith Lia.
From S2P Require Import Prelude Task IoTypes.
From S2P Require IoOps.
Import IoOps (IoBuf, is_fixed, as_ptr, buf_len, fixed_index, await, transfer, fut_op, fut_ret).

Local Open Scope Z_scope.

Record KView := mkKView {
  v_mem : Z → Z;
  v_in : Z → list Z;
  v_out : Z → list Z;
  v_file : Z → Z → Z;
}.

(** Bytes written at an address, and the bytes that are there. *)
Definition store (ptr : Z) (bs : list Z) (mem : Z → Z) (a : Z) : Z :=
  if ptr <=? a then default (mem a) (bs !! Z.to_nat (a - ptr)) else mem a.

Definition load (ptr : Z) (n : nat) (mem : Z → Z) : list Z :=
  (λ i, mem (ptr + Z.of_nat i)) <$> seq 0 n.

(** The arguments of the operations that take bytes from a stream, look at
    them, send them, or read and write at an offset. *)
Definition in_args (op : IoOp) : option (Z * Z * Z) :=
  match op with
  | Net (recv fd ptr len) | NetWithDeadline (recv fd ptr len) _
  | Net (recv_fixed fd ptr len _) | NetWithDeadline (recv_fixed fd ptr len _) _
  | File (read fd ptr len) | File (read_fixed fd ptr len _) => Some (fd, ptr, len)
  | _ => None
  end.

Definition peek_args (op : IoOp) : option (Z * Z * Z) :=
  match op with
  | Net (peek fd ptr len) | NetWithDeadline (peek fd ptr len) _
  | Net (peek_fixed fd ptr len _) | NetWithDeadline (peek_fixed fd ptr len _) _ => Some (fd, ptr, len)
  | _ => None
  end.

Definition out_args (op : IoOp) : option (Z * Z * Z) :=
  match op with
  | Net (send fd ptr len) | NetWithDeadline (send fd ptr len) _
  | Net (send_fixed fd ptr len _) | NetWithDeadline (send_fixed fd ptr len _) _
  | File (write fd ptr len) | File (write_fixed fd ptr len _) => Some (fd, ptr, len)
  | _ => None
  end.

Definition pread_args (op : IoOp) : option (Z * Z * Z * Z) :=
  match op with
  | File (pread fd ptr len off) | File (pread_fixed fd ptr len _ off) => Some (fd, ptr, len, off)
  | _ => None
  end.

Definition pwrite_args (op : IoOp) : option (Z * Z * Z * Z) :=
  match op with
  | File (pwrite fd ptr len off) | File (pwrite_fixed fd ptr len _ off) => Some (fd, ptr, len, off)
  | _ => None
  end.

(** The laws. A call may fail; otherwise it transfers some bytes, at most as
    many as it was asked for, and none only if it was asked for none or the
    stream has ended. *)
Record DeviceLaws {St : Type} (view : St → KView) (await_op : IoOp → St → Result Z * St) : Prop := {
  law_in op fd ptr len s n s' :
    in_args op = Some (fd, ptr, len) → await_op op s = (Ok n, s') →
    ∃ bs, Z.of_nat (length bs) = n ∧ n ≤ len ∧ v_in (view s) fd = bs ++ v_in (view s') fd ∧
      (n = 0 → len = 0 ∨ v_in (view s) fd = []) ∧
      ∀ a, v_mem (view s') a = store ptr bs (v_mem (view s)) a;
  law_peek op fd ptr len s n s' :
    peek_args op = Some (fd, ptr, len) → await_op op s = (Ok n, s') →
    0 ≤ n ≤ len ∧ n ≤ Z.of_nat (length (v_in (view s) fd)) ∧ v_in (view s') fd = v_in (view s) fd ∧
      ∀ a, v_mem (view s') a = store ptr (take (Z.to_nat n) (v_in (view s) fd)) (v_mem (view s)) a;
  law_out op fd ptr len s n s' :
    out_args op = Some (fd, ptr, len) → await_op op s = (Ok n, s') →
    0 ≤ n ≤ len ∧ (n = 0 → len = 0) ∧
      v_out (view s') fd = v_out (view s) fd ++ load ptr (Z.to_nat n) (v_mem (view s)) ∧
      ∀ a, v_mem (view s') a = v_mem (view s) a;
  law_pread op fd ptr len off s n s' :
    pread_args op = Some (fd, ptr, len, off) → await_op op s = (Ok n, s') →
    0 ≤ n ≤ len ∧ (∀ x, v_file (view s') fd x = v_file (view s) fd x) ∧
      ∀ a, v_mem (view s') a = store ptr (load off (Z.to_nat n) (v_file (view s) fd)) (v_mem (view s)) a;
  law_pwrite op fd ptr len off s n s' :
    pwrite_args op = Some (fd, ptr, len, off) → await_op op s = (Ok n, s') →
    0 ≤ n ≤ len ∧ (n = 0 → len = 0) ∧ (∀ a, v_mem (view s') a = v_mem (view s) a) ∧
      ∀ x, v_file (view s') fd x = store off (load ptr (Z.to_nat n) (v_mem (view s))) (v_file (view s) fd) x;
}.

(** ** Memory *)

Lemma store_app ptr b1 b2 mem a :
  store (ptr + Z.of_nat (length b1)) b2 (store ptr b1 mem) a = store ptr (b1 ++ b2) mem a.
Proof.
  unfold store. destruct (Z.leb_spec ptr a) as [Hle|Hlt].
  - destruct (Z.leb_spec (ptr + Z.of_nat (length b1)) a) as [Hle'|Hlt'].
    + rewrite lookup_app_r by lia. rewrite (lookup_ge_None_2 b1) by lia. simpl.
      replace (Z.to_nat (a - (ptr + Z.of_nat (length b1)))) with (Z.to_nat (a - ptr) - length b1)%nat by lia. done.
    + rewrite lookup_app_l by lia. done.
  - by rewrite (proj2 (Z.leb_gt _ _)) by lia.
Qed.

Lemma store_ext ptr bs m1 m2 a : (∀ x, m1 x = m2 x) → store ptr bs m1 a = store ptr bs m2 a.
Proof. intros Hm. unfold store. by rewrite Hm. Qed.

Lemma store_nil ptr mem a : store ptr [] mem a = mem a.
Proof. unfold store. rewrite lookup_nil. by case_match. Qed.

Lemma length_load ptr n mem : length (load ptr n mem) = n.
Proof. unfold load. by rewrite length_fmap, length_seq. Qed.

Lemma load_app ptr a b mem : load ptr (a + b) mem = load ptr a mem ++ load (ptr + Z.of_nat a) b mem.
Proof.
  unfold load. rewrite seq_app, fmap_app. f_equal. rewrite Nat.add_0_l. rewrite <- (Nat.add_0_r a) at 1. rewrite <- fmap_add_seq, <- list_fmap_compose.
  apply list_fmap_ext. intros i x Hx. simpl. f_equal. lia.
Qed.

Lemma load_ext ptr n m1 m2 : (∀ x, m1 x = m2 x) → load ptr n m1 = load ptr n m2.
Proof. intros Hm. unfold load. apply list_fmap_ext. intros. apply Hm. Qed.

(** ** The loop *)
Section transfers.
Context {St : Type} (view : St → KView) (await_op : IoOp → St → Result Z * St).
Context (laws : DeviceLaws view await_op) (p : profile).

Definition never_fails : Prop := ∀ op s e, (await_op op s).1 ≠ Err e.

Definition adds (add : profile → Z → Z → outcome Z) (len : Z) : Prop :=
  ∀ a b, a + b ≤ len → add p a b = Val (a + b).

Lemma adds_usize len : len < u32_modulus → adds usize_add len.
Proof. intros Hl a b Hab. apply usize_add_Val. unfold u32_modulus, usize_modulus in *. lia. Qed.

Lemma adds_u32 len : len < u32_modulus → adds u32_add len.
Proof. intros Hl a b Hab. apply u32_add_Val. lia. Qed.

(** Each turn transfers something and keeps [I]: the loop returns, and [I]
    holds of the whole length if it returns [Ok]. *)
Lemma transfer_spec (I : Z → St → Prop) add len fut fuel done s :
  adds add len →
  (∀ done s, 0 ≤ done < len → I done s → ∃ f, fut done = Val f ∧
    ∀ n s', await_op (fut_op f) s = (Ok n, s') →
      fut_ret f n = n ∧ 0 < n ≤ len - done ∧ I (done + n) s') →
  I done s → 0 ≤ done ≤ len → len - done < Z.of_nat fuel →
  ∃ r s', transfer await_op p add fuel len fut done s = Val (Some r, s') ∧
    (r = Ok () → I len s') ∧ (never_fails → r = Ok ()).
Proof.
  intros Hadd Hturn. revert done s. induction fuel as [|fuel IH]; intros done s HI Hd Hf; [lia|]. simpl.
  destruct (Z.ltb_spec done len) as [Hlt|Hge].
  2: { exists (Ok ()), s. split; [done|]. split; [|done]. intros _. by replace len with done by lia. }
  destruct (Hturn done s) as (f & -> & Hok); [lia|done|]. simpl. unfold await.
  destruct (await_op (fut_op f) s) as [[n|e] s'] eqn:Ha.
  - destruct (Hok n s' eq_refl) as (-> & Hn & HI'). rewrite Hadd by lia. simpl. apply IH; [done|lia|lia].
  - exists (Err e), s'. split; [done|]. split; [done|]. intros Hnf. destruct (Hnf (fut_op f) s e). by rewrite Ha.
Qed.

(** ** Receiving and reading *)

(** The buffer holds the next bytes of the stream, and nothing else changed. *)
Definition fills (fd ptr len : Z) (s : St) (o : outcome (option (Result ()) * St)) : Prop :=
  ∃ r s', o = Val (Some r, s') ∧ (never_fails → r = Ok ()) ∧
    (r = Ok () → v_in (view s') fd = drop (Z.to_nat len) (v_in (view s) fd) ∧
      ∀ a, v_mem (view s') a = store ptr (take (Z.to_nat len) (v_in (view s) fd)) (v_mem (view s)) a).

Lemma transfer_in add len fut fd ptr s :
  adds add len → 0 ≤ len ≤ Z.of_nat (length (v_in (view s) fd)) →
  (∀ done, 0 ≤ done < len → ∃ f, fut done = Val f ∧ in_args (fut_op f) = Some (fd, ptr + done, len - done) ∧
    ∀ n, 0 ≤ n ≤ len → fut_ret f n = n) →
  fills fd ptr len s (transfer await_op p add (S (Z.to_nat len)) len fut 0 s).
Proof.
  intros Hadd Hlen Hfut. unfold fills. set (L := v_in (view s) fd) in *.
  destruct (transfer_spec (λ done s', v_in (view s') fd = drop (Z.to_nat done) L ∧
    ∀ a, v_mem (view s') a = store ptr (take (Z.to_nat done) L) (v_mem (view s)) a) add len fut
    (S (Z.to_nat len)) 0 s) as (r & s' & Heq & Hok & Hnf); try done; [| |lia|lia|by exists r, s'].
  - intros done s1 Hd [HL Hm]. destruct (Hfut done Hd) as (f & Hf & Hargs & Hret). exists f. split; [done|].
    intros n s2 Ha. destruct (law_in _ _ laws _ _ _ _ _ _ _ Hargs Ha) as (bs & Hn & Hle & Hin & Hz & Hmem).
    split; [apply Hret; lia|]. rewrite HL in Hin, Hz.
    assert (n ≠ 0) as Hn0.
    { intros ->. destruct (Hz eq_refl) as [|Hnil]; [lia|]. apply (f_equal length) in Hnil.
      rewrite length_drop in Hnil. simpl in Hnil. lia. }
    split; [lia|]. assert (bs = take (Z.to_nat n) (drop (Z.to_nat done) L)) as Hbs.
    { rewrite Hin, take_app_length' by lia. done. }
    split.
    + apply (f_equal (drop (length bs))) in Hin. rewrite drop_app_length, drop_drop in Hin. rewrite <- Hin. f_equal. lia.
    + intros a. rewrite Hmem, (store_ext _ _ _ _ _ Hm). 
      replace (Z.to_nat (done + n)) with (Z.to_nat done + Z.to_nat n)%nat by lia.
      rewrite <- take_take_drop, <- Hbs, <- store_app. f_equal. rewrite length_take. lia.
  - split; [by rewrite drop_0|]. intros a. by rewrite store_nil.
Qed.

Lemma wrap_len len done : 0 ≤ done < len → len < u32_modulus → u32_wrap (len - done) = len - done.
Proof. intros. apply u32_wrap_small. unfold in_u32. lia. Qed.

Ltac in_fut :=
  intros k Hd; simpl; rewrite ?u32_sub_Val by lia; simpl; eexists; (split; [reflexivity|]); simpl;
  rewrite ?(wrap_len _ _ Hd) by assumption; (split; [reflexivity|]); intros n Hn; first [reflexivity | apply u32_wrap_small; unfold in_u32; lia].

(** C11: [recv_bytes_exact], [recv_exact], [read_bytes_exact] and [read_exact], with
    or without a deadline and a fixed buffer: if the stream has as many bytes
    as the buffer, whose length is a [u32], the method returns after at most
    one operation per byte; unless an operation fails it returns [Ok], the
    buffer then holds the next bytes of the stream in order, these are gone
    from the stream, and no other memory has changed. *)
Theorem recv_exact_fills (fd d : Z) (buf : IoBuf) (s : St) :
  let len := buf_len buf in let fuel := S (Z.to_nat len) in
  0 ≤ len ≤ Z.of_nat (length (v_in (view s) fd)) → len < u32_modulus →
  fills fd (as_ptr buf) len s (IoOps.recv_bytes_exact await_op p fuel fd (as_ptr buf) len s) ∧
  fills fd (as_ptr buf) len s (IoOps.recv_exact await_op p fuel fd buf s) ∧
  fills fd (as_ptr buf) len s (IoOps.recv_bytes_exact_with_deadline await_op p fuel fd (as_ptr buf) len d s) ∧
  fills fd (as_ptr buf) len s (IoOps.recv_exact_with_deadline await_op p fuel fd buf d s) ∧
  fills fd (as_ptr buf) len s (IoOps.read_bytes_exact await_op p fuel fd (as_ptr buf) len s) ∧
  fills fd (as_ptr buf) len s (IoOps.read_exact await_op p fuel fd buf s).
Proof.
  intros len fuel Hlen Hmax. pose proof (adds_usize len Hmax). pose proof (adds_u32 len Hmax).
  unfold IoOps.recv_exact, IoOps.recv_exact_with_deadline, IoOps.read_exact, IoOps.recv_bytes_exact,
    IoOps.recv_bytes_exact_with_deadline, IoOps.read_bytes_exact.
  split_and!; try destruct (is_fixed buf); apply transfer_in; try done; in_fut.
Qed.

(** ** Sending and writing *)

Definition sends (fd ptr len : Z) (s : St) (o : outcome (option (Result ()) * St)) : Prop :=
  ∃ r s', o = Val (Some r, s') ∧ (never_fails → r = Ok ()) ∧
    (r = Ok () → v_out (view s') fd = v_out (view s) fd ++ load ptr (Z.to_nat len) (v_mem (view s)) ∧
      ∀ a, v_mem (view s') a = v_mem (view s) a).

Lemma transfer_out add len fut fd ptr s :
  adds add len → 0 ≤ len →
  (∀ k, 0 ≤ k < len → ∃ f, fut k = Val f ∧ out_args (fut_op f) = Some (fd, ptr + k, len - k) ∧
    ∀ n, 0 ≤ n ≤ len → fut_ret f n = n) →
  sends fd ptr len s (transfer await_op p add (S (Z.to_nat len)) len fut 0 s).
Proof.
  intros Hadd Hlen Hfut. unfold sends.
  destruct (transfer_spec (λ k s', v_out (view s') fd = v_out (view s) fd ++ load ptr (Z.to_nat k) (v_mem (view s)) ∧
    ∀ a, v_mem (view s') a = v_mem (view s) a) add len fut (S (Z.to_nat len)) 0 s)
    as (r & s' & Heq & Hok & Hnf); try done; [| |lia|by exists r, s'].
  - intros k s1 Hd [HL Hm]. destruct (Hfut k Hd) as (f & Hf & Hargs & Hret). exists f. split; [done|].
    intros n s2 Ha. destruct (law_out _ _ laws _ _ _ _ _ _ _ Hargs Ha) as (Hn & Hz & Hout & Hmem).
    assert (n ≠ 0) by (intros Hn0; specialize (Hz Hn0); lia).
    split; [apply Hret; lia|]. split; [lia|]. split; [|intros a; by rewrite Hmem].
    rewrite Hout, HL, <- (assoc_L (++)). f_equal.
    replace (Z.to_nat (k + n)) with (Z.to_nat k + Z.to_nat n)%nat by lia. rewrite load_app. f_equal.
    rewrite Z2Nat.id by lia. by apply load_ext.
  - split; [by rewrite app_nil_r|done].
Qed.

(** [send_all_bytes], [send_all], [write_all_bytes] and [write_all], with or
    without a deadline and a fixed buffer: the method returns after at most
    one operation per byte; unless an operation fails it returns [Ok], and the
    bytes of the buffer have then been sent once each, in order. *)
Theorem send_all_sends (fd d : Z) (buf : IoBuf) (s : St) :
  let len := buf_len buf in let fuel := S (Z.to_nat len) in
  0 ≤ len < u32_modulus →
  sends fd (as_ptr buf) len s (IoOps.send_all_bytes await_op p fuel fd (as_ptr buf) len s) ∧
  sends fd (as_ptr buf) len s (IoOps.send_all await_op p fuel fd buf s) ∧
  sends fd (as_ptr buf) len s (IoOps.send_all_bytes_with_deadline await_op p fuel fd (as_ptr buf) len d s) ∧
  sends fd (as_ptr buf) len s (IoOps.send_all_with_deadline await_op p fuel fd buf d s) ∧
  sends fd (as_ptr buf) len s (IoOps.write_all_bytes await_op p fuel fd (as_ptr buf) len s) ∧
  sends fd (as_ptr buf) len s (IoOps.write_all await_op p fuel fd buf s).
Proof.
  intros len fuel [Hlen Hmax]. pose proof (adds_usize len Hmax). pose proof (adds_u32 len Hmax).
  unfold IoOps.send_all, IoOps.send_all_with_deadline, IoOps.write_all, IoOps.send_all_bytes,
    IoOps.send_all_bytes_with_deadline, IoOps.write_all_bytes.
  split_and!; try destruct (is_fixed buf); apply transfer_out; try done; in_fut.
Qed.

(** ** Writing at an offset *)

Definition writes_at (fd ptr len off : Z) (s : St) (o : outcome (option (Result ()) * St)) : Prop :=
  ∃ r s', o = Val (Some r, s') ∧ (never_fails → r = Ok ()) ∧
    (r = Ok () → ∀ x, v_file (view s') fd x =
      store off (load ptr (Z.to_nat len) (v_mem (view s))) (v_file (view s) fd) x).

Lemma transfer_pwrite add len fut fd ptr off s :
  adds add len → 0 ≤ len →
  (∀ k, 0 ≤ k < len → ∃ f, fut k = Val f ∧
    pwrite_args (fut_op f) = Some (fd, ptr + k, len - k, off + k) ∧ ∀ n, 0 ≤ n ≤ len → fut_ret f n = n) →
  writes_at fd ptr len off s (transfer await_op p add (S (Z.to_nat len)) len fut 0 s).
Proof.
  intros Hadd Hlen Hfut. unfold writes_at.
  destruct (transfer_spec (λ k s', (∀ a, v_mem (view s') a = v_mem (view s) a) ∧ ∀ x, v_file (view s') fd x =
      store off (load ptr (Z.to_nat k) (v_mem (view s))) (v_file (view s) fd) x) add len fut (S (Z.to_nat len)) 0 s)
    as (r & s' & Heq & Hok & Hnf); try done; [| |lia|exists r, s'; split; [done|]; split; [done|]; intros Hr; by apply Hok].
  - intros k s1 Hd [Hm HL]. destruct (Hfut k Hd) as (f & Hf & Hargs & Hret). exists f. split; [done|].
    intros n s2 Ha. destruct (law_pwrite _ _ laws _ _ _ _ _ _ _ _ Hargs Ha) as (Hn & Hz & Hmem & Hfile).
    assert (n ≠ 0) by (intros Hn0; specialize (Hz Hn0); lia).
    split; [apply Hret; lia|]. split; [lia|]. split; [intros a; by rewrite Hmem|]. intros x.
    rewrite Hfile, (store_ext _ _ _ _ _ HL), (load_ext _ _ _ _ Hm).
    replace (Z.to_nat (k + n)) with (Z.to_nat k + Z.to_nat n)%nat by lia. rewrite load_app, <- store_app.
    rewrite length_load. f_equal; [lia|]. f_equal. lia.
  - split; [done|]. intros x. by rewrite store_nil.
Qed.

Lemma transfer_pread add len fut fd ptr off s :
  adds add len → 0 ≤ len →
  (∀ k, 0 ≤ k < len → ∃ f, fut k = Val f ∧
    pread_args (fut_op f) = Some (fd, ptr + k, len - k, off + k) ∧ ∀ n, 0 ≤ n ≤ len → fut_ret f n = n) →
  ∀ fuel r s', transfer await_op p add fuel len fut 0 s = Val (r, s') → r = Some (Ok ()) →
    ∀ a, v_mem (view s') a = store ptr (load off (Z.to_nat len) (v_file (view s) fd)) (v_mem (view s)) a.
Proof.
  intros Hadd Hlen Hfut fuel r s' Heq ->.
  assert (∀ k s1, 0 ≤ k ≤ len → (∀ x, v_file (view s1) fd x = v_file (view s) fd x) →
    (∀ a, v_mem (view s1) a = store ptr (load off (Z.to_nat k) (v_file (view s) fd)) (v_mem (view s)) a) →
    transfer await_op p add fuel len fut k s1 = Val (Some (Ok ()), s') →
    ∀ a, v_mem (view s') a = store ptr (load off (Z.to_nat len) (v_file (view s) fd)) (v_mem (view s)) a) as Hgo.
  { clear Heq. induction fuel as [|fuel IH]; intros k s1 Hk Hfile Hm Heq; [done|]. simpl in Heq.
    destruct (Z.ltb_spec k len) as [Hlt|Hge]; [|injection Heq as <-; by replace len with k by lia].
    destruct (Hfut k) as (f & Hf & Hargs & Hret); [lia|]. rewrite Hf in Heq. simpl in Heq. unfold await in Heq.
    destruct (await_op (fut_op f) s1) as [[n|e] s2] eqn:Ha; [|done].
    destruct (law_pread _ _ laws _ _ _ _ _ _ _ _ Hargs Ha) as (Hn & Hfile2 & Hm2).
    rewrite Hret, Hadd in Heq by lia. simpl in Heq. apply (IH (k + n) s2); [lia| | |done].
    - intros x. by rewrite Hfile2.
    - intros a. rewrite Hm2, (store_ext _ _ _ _ _ Hm), (load_ext _ _ _ _ Hfile).
      replace (Z.to_nat (k + n)) with (Z.to_nat k + Z.to_nat n)%nat by lia. rewrite load_app, <- store_app.
      rewrite length_load. f_equal; [lia|]. f_equal. lia. }
  apply (Hgo 0 s); try done. intros a. by rewrite store_nil.
Qed.

Ltac at_fut :=
  intros k Hd; simpl; rewrite ?u32_sub_Val by lia; simpl; rewrite usize_add_Val by lia; simpl;
  eexists; (split; [reflexivity|]); simpl; rewrite ?(wrap_len _ _ Hd) by assumption; (split; [reflexivity|]);
  intros n Hn; first [reflexivity | apply u32_wrap_small; unfold in_u32; lia].

(** [pwrite_all_bytes] and [pwrite_all] return, and unless an operation fails
    the file then holds the buffer at the offset and is unchanged elsewhere;
    [pread_bytes_exact] and [pread_exact], when they return [Ok], have filled
    the buffer with the bytes of the file at the offset. *)
Theorem positioned_transfers (fd off : Z) (buf : IoBuf) (s : St) :
  let len := buf_len buf in let fuel := S (Z.to_nat len) in
  0 ≤ len < u32_modulus → off + len < usize_modulus →
  writes_at fd (as_ptr buf) len off s (IoOps.pwrite_all_bytes await_op p fuel fd (as_ptr buf) len off s) ∧
  writes_at fd (as_ptr buf) len off s (IoOps.pwrite_all await_op p fuel fd buf off s) ∧
  ∀ fuel s', (IoOps.pread_bytes_exact await_op p fuel fd (as_ptr buf) len off s = Val (Some (Ok ()), s') ∨
      IoOps.pread_exact await_op p fuel fd buf off s = Val (Some (Ok ()), s')) →
    ∀ a, v_mem (view s') a = store (as_ptr buf) (load off (Z.to_nat len) (v_file (view s) fd)) (v_mem (view s)) a.
Proof.
  intros len fuel [Hlen Hmax] Hoff. pose proof (adds_usize len Hmax). pose proof (adds_u32 len Hmax).
  unfold IoOps.pwrite_all_bytes, IoOps.pwrite_all, IoOps.pread_bytes_exact, IoOps.pread_exact.
  split_and!; [apply transfer_pwrite; try done; at_fut|destruct (is_fixed buf); apply transfer_pwrite; try done; at_fut|].
  intros fuel' s' [Heq|Heq] a; [|destruct (is_fixed buf)]; fold len in Heq;
    (eapply transfer_pread; [..|exact Heq|reflexivity]; try done; at_fut).
Qed.

(** ** Streams that end and buffers that are too long *)


(** Turns that transfer nothing do not get the loop any further. *)
Lemma transfer_idle (I : St → Prop) add len fut done s fuel :
  add p done 0 = Val done → done < len → I s →
  (∀ s, I s → ∃ f, fut done = Val f ∧ fut_ret f 0 = 0 ∧
    match await_op (fut_op f) s with (Ok n, s') => n = 0 ∧ I s' | (Err _, _) => True end) →
  ∃ o s', transfer await_op p add fuel len fut done s = Val (o, s') ∧ o ≠ Some (Ok ()) ∧
    (never_fails → o = None).
Proof.
  intros Hadd Hlt HI Hturn. revert s HI. induction fuel as [|fuel IH]; intros s HI; simpl.
  { exists None, s. split; [done|]. by split. }
  rewrite (proj2 (Z.ltb_lt _ _) Hlt). destruct (Hturn s HI) as (f & -> & Hret & Hok). simpl. unfold await.
  destruct (await_op (fut_op f) s) as [[n|e] s'] eqn:Ha.
  - destruct Hok as [-> HI']. rewrite Hret, Hadd. simpl. by apply IH.
  - exists (Some (Err e)), s'. split; [done|]. split; [done|]. intros Hnf. destruct (Hnf (fut_op f) s e). by rewrite Ha.
Qed.

(** When the stream has ended and the buffer is not full, [recv_bytes_exact]
    and [read_bytes_exact] ask again and again: however many turns they take,
    they do not return [Ok], and unless an operation fails they do not return
    at all, where their documentation promises an error. *)
Theorem recv_exact_end_of_stream (fd ptr len : Z) (s : St) (fuel : nat) :
  0 < len < u32_modulus → v_in (view s) fd = [] →
  (∃ o s', IoOps.recv_bytes_exact await_op p fuel fd ptr len s = Val (o, s') ∧ o ≠ Some (Ok ()) ∧
    (never_fails → o = None)) ∧
  (∃ o s', IoOps.read_bytes_exact await_op p fuel fd ptr len s = Val (o, s') ∧ o ≠ Some (Ok ()) ∧
    (never_fails → o = None)).
Proof.
  intros [Hlen Hmax] Hend.
  split; (apply (transfer_idle (λ s, v_in (view s) fd = [])); [by apply usize_add_Val|done|done|]);
    intros s1 Hin; (eexists; split; [done|]); (split; [done|]); simpl;
    destruct (await_op _ s1) as [[n|e] s2] eqn:Ha; try done;
    (eapply (law_in _ _ laws) in Ha as (bs & Hn & _ & HL & _); [|reflexivity]); rewrite Hin in HL;
    symmetry in HL; apply app_nil in HL as [-> HL]; by rewrite HL.
Qed.

(** The length of a slice is cut to 32 bits before it is handed to the worker:
    for a slice of 2^32 bytes nothing is asked for, and [recv_bytes_exact] and
    [send_all_bytes] make no progress. *)
Theorem exact_4gib_stuck (fd ptr : Z) (s : St) (fuel : nat) :
  (∃ o s', IoOps.recv_bytes_exact await_op p fuel fd ptr u32_modulus s = Val (o, s') ∧ o ≠ Some (Ok ()) ∧
    (never_fails → o = None)) ∧
  (∃ o s', IoOps.send_all_bytes await_op p fuel fd ptr u32_modulus s = Val (o, s') ∧ o ≠ Some (Ok ()) ∧
    (never_fails → o = None)).
Proof.
  split; (apply (transfer_idle (λ _, True)); [by apply usize_add_Val|done|done|]);
    intros s1 _; (eexists; split; [done|]); (split; [done|]); simpl;
    destruct (await_op _ s1) as [[n|e] s2] eqn:Ha; try done; (split; [|done]).
  - eapply (law_in _ _ laws) in Ha as (bs & Hn & Hle & _); [|reflexivity]. change (u32_wrap _) with 0 in Hle. lia.
  - eapply (law_out _ _ laws) in Ha as (Hn & _); [|reflexivity]. change (u32_wrap _) with 0 in Hn. lia.
Qed.

Lemma transfer_turn add fuel len fut done s f n s' :
  done < len → fut done = Val f → await_op (fut_op f) s = (Ok n, s') → fut_ret f n = n →
  add p done n = Val (done + n) →
  transfer await_op p add (S fuel) len fut done s = transfer await_op p add fuel len fut (done + n) s'.
Proof.
  intros Hlt Hf Ha Hr Hadd. simpl. rewrite (proj2 (Z.ltb_lt _ _) Hlt), Hf. simpl. unfold await.
  by rewrite Ha, Hr, Hadd.
Qed.

(** A peek leaves the bytes in the stream, but [peek_bytes_exact] goes on as if
    it had taken them: when the first peek gives only [n] bytes, the rest of
    the buffer is filled with the beginning of the stream again. *)
Theorem peek_exact_repeats (fd ptr len n : Z) (s s1 s2 : St) :
  0 < n < len → len < u32_modulus →
  await_op (Net (peek fd ptr len)) s = (Ok n, s1) →
  await_op (Net (peek fd (ptr + n) (len - n))) s1 = (Ok (len - n), s2) →
  IoOps.peek_bytes_exact await_op p 3 fd ptr len s = Val (Some (Ok ()), s2) ∧
  ∀ a, v_mem (view s2) a = store ptr
    (take (Z.to_nat n) (v_in (view s) fd) ++ take (Z.to_nat (len - n)) (v_in (view s) fd)) (v_mem (view s)) a.
Proof.
  intros Hn Hmax H1 H2. pose proof (adds_usize len Hmax) as Hadd. split.
  - unfold IoOps.peek_bytes_exact.
    rewrite (transfer_turn _ _ len _ 0 s (IoOps.PeekBytes fd (ptr + 0) (len - 0)) n s1);
      [|lia|done| |done|apply Hadd; lia].
    2: { simpl. rewrite Z.add_0_r, Z.sub_0_r, u32_wrap_small by (unfold in_u32; lia). exact H1. }
    rewrite Z.add_0_l.
    rewrite (transfer_turn _ _ len _ n s1 (IoOps.PeekBytes fd (ptr + n) (len - n)) (len - n) s2);
      [|lia|done| |done|apply Hadd; lia].
    2: { simpl. rewrite u32_wrap_small by (unfold in_u32; lia). exact H2. }
    simpl. by rewrite (proj2 (Z.ltb_ge _ _)) by lia.
  - eapply (law_peek _ _ laws) in H1 as (_ & Hle & HL1 & Hm1); [|reflexivity].
    eapply (law_peek _ _ laws) in H2 as (_ & _ & _ & Hm2); [|reflexivity]. intros a.
    rewrite Hm2, HL1, (store_ext _ _ _ _ _ Hm1), <- store_app. f_equal. rewrite length_take. lia.
Qed.

(** The first address on which [f] succeeds decides; if there is none, the
    error of the last one is returned. *)
Theorem each_addr_first {Addr A : Type} (f : Addr → St → Result A * St) (addrs : list Addr) (s : St) :
  ∃ r s', IoOps.each_addr (Ok addrs) f s = (r, s') ∧
    match r with
    | Ok x => ∃ before addr after s1, addrs = before ++ addr :: after ∧ f addr s1 = (Ok x, s') ∧
        ∀ b, b ∈ before → ∃ sb e, (f b sb).1 = Err e
    | Err e => addrs = [] ∧ e = Simple InvalidInput ∧ s' = s ∨
        ∃ before addr s1, addrs = before ++ [addr] ∧ f addr s1 = (Err e, s')
    end.
Proof.
  enough (∀ res s, ∃ r s', IoOps.each_addr_loop f addrs res s = (r, s') ∧
    match r with
    | Some (Ok x) => res = Some (Ok x) ∧ addrs = [] ∨
        ∃ before addr after s1, addrs = before ++ addr :: after ∧ f addr s1 = (Ok x, s') ∧
        ∀ b, b ∈ before → ∃ sb e, (f b sb).1 = Err e
    | Some (Err e) => addrs = [] ∧ res = Some (Err e) ∨
        ∃ before addr s1, addrs = before ++ [addr] ∧ f addr s1 = (Err e, s')
    | None => addrs = [] ∧ res = None ∧ s' = s
    end) as Hgo.
  { destruct (Hgo None s) as (r & s' & Heq & Hr). unfold IoOps.each_addr. rewrite Heq.
    destruct r as [[x|e]|]; eexists _, _; (split; [done|]); naive_solver. }
  clear s. induction addrs as [|addr addrs IH]; intros res s; simpl.
  { exists res, s. split; [done|]. destruct res as [[]|]; naive_solver. }
  destruct (f addr s) as [[x|e] s1] eqn:Hf.
  - eexists _, _. split; [done|]. right. exists [], addr, addrs, s. split_and!; [done..|]. by intros b ?%elem_of_nil.
  - destruct (IH (Some (Err e)) s1) as (r & s' & Heq & Hr). eexists _, _. split; [done|].
    destruct r as [[x|e']|].
    + destruct Hr as [[[=] _]|(b & ad & af & s2 & -> & ? & Hb)]. right. exists (addr :: b), ad, af, s2.
      split_and!; [done..|]. intros c [->|Hc]%elem_of_cons; [|by apply Hb]. exists s, e. by rewrite Hf.
    + destruct Hr as [(-> & [= <-])|(b & ad & s2 & -> & ?)]; right; [|by exists (addr :: b), ad, s2].
      exists [], addr, s. simpl in Heq. by simplify_eq/=.
    + destruct Hr as (_ & [=] & _).
Qed.

End transfers.

(** ** A concrete device

    It transfers at most [chunk] bytes, and one more, at a time. *)
Record Dev := mkDev { dev_view : KView; chunk : nat }.

Definition upd {A : Type} (fd : Z) (x : A) (f : Z → A) (y : Z) : A := if y =? fd then x else f y.

Definition part (d : Dev) (len : Z) : nat := Z.to_nat len `min` S (chunk d).

(** A length below zero is refused. *)
Definition answer (len : Z) (n : nat) (d' d : Dev) : Result Z * Dev :=
  if len <? 0 then (Err (OsError EINVAL), d) else (Ok (Z.of_nat n), d').

Definition dev_await (op : IoOp) (d : Dev) : Result Z * Dev :=
  let v := dev_view d in
  match in_args op, peek_args op, out_args op, pread_args op, pwrite_args op with
  | Some (fd, ptr, len), _, _, _, _ =>
      let bs := take (part d len) (v_in v fd) in
      answer len (length bs) (mkDev (mkKView (store ptr bs (v_mem v))
        (upd fd (drop (length bs) (v_in v fd)) (v_in v)) (v_out v) (v_file v)) (chunk d)) d
  | None, Some (fd, ptr, len), _, _, _ =>
      let bs := take (part d len) (v_in v fd) in
      answer len (length bs)
        (mkDev (mkKView (store ptr bs (v_mem v)) (v_in v) (v_out v) (v_file v)) (chunk d)) d
  | None, None, Some (fd, ptr, len), _, _ =>
      let bs := load ptr (part d len) (v_mem v) in
      answer len (length bs)
        (mkDev (mkKView (v_mem v) (v_in v) (upd fd (v_out v fd ++ bs) (v_out v)) (v_file v)) (chunk d)) d
  | None, None, None, Some (fd, ptr, len, off), _ =>
      let bs := load off (part d len) (v_file v fd) in
      answer len (length bs)
        (mkDev (mkKView (store ptr bs (v_mem v)) (v_in v) (v_out v) (v_file v)) (chunk d)) d
  | None, None, None, None, Some (fd, ptr, len, off) =>
      let bs := load ptr (part d len) (v_mem v) in
      answer len (length bs)
        (mkDev (mkKView (v_mem v) (v_in v) (v_out v) (upd fd (store off bs (v_file v fd)) (v_file v))) (chunk d)) d
  | _, _, _, _, _ => (Ok 0, d)
  end.

Lemma upd_eq {A} fd (x : A) f : upd fd x f fd = x.
Proof. unfold upd. by rewrite Z.eqb_refl. Qed.

Lemma take_length_take {A} n (l : list A) : take (length (take n l)) l = take n l.
Proof. rewrite length_take. destruct (le_dec n (length l)).
  - by rewrite Nat.min_l.
  - rewrite Nat.min_r by lia. by rewrite !take_ge by lia.
Qed.

Lemma answer_Ok len k d' d n s' : answer len k d' d = (Ok n, s') → 0 ≤ len ∧ n = Z.of_nat k ∧ s' = d'.
Proof. unfold answer. destruct (Z.ltb_spec len 0); [done|]. by intros [= <- <-]. Qed.

Lemma dev_laws : DeviceLaws dev_view dev_await.
Proof.
  assert (∀ d len, 0 ≤ len → Z.of_nat (part d len) ≤ len ∧ (part d len = 0%nat → len = 0)) as Hpart
    by (intros d len Hl; unfold part; lia).
  split.
  - intros op fd ptr len s n s' Ha Heq. unfold dev_await in Heq. rewrite Ha in Heq.
    apply answer_Ok in Heq as (Hlen & -> & ->). destruct (Hpart s len Hlen) as [H1 H2].
    exists (take (part s len) (v_in (dev_view s) fd)). cbn [dev_view v_in v_mem]. rewrite upd_eq.
    split_and!; [done|rewrite length_take; lia| | |done].
    + etrans; [symmetry; apply (take_drop (length (take (part s len) (v_in (dev_view s) fd))))|].
      by rewrite take_length_take.
    + rewrite length_take. intros Hz. destruct (v_in (dev_view s) fd) as [|x l]; [by right|].
      left. apply H2. simpl in Hz. lia.
  - intros op fd ptr len s n s' Ha Heq. unfold dev_await in Heq. rewrite Ha in Heq.
    assert (in_args op = None) as E1 by (by destruct op as [[]|[]|[]]). rewrite E1 in Heq.
    apply answer_Ok in Heq as (Hlen & -> & ->). destruct (Hpart s len Hlen) as [H1 H2].
    cbn [dev_view v_in v_mem]. rewrite Nat2Z.id, take_length_take. rewrite length_take. split_and!; [lia..|done|done].
  - intros op fd ptr len s n s' Ha Heq. unfold dev_await in Heq. rewrite Ha in Heq.
    assert (in_args op = None ∧ peek_args op = None) as [E1 E2] by (by destruct op as [[]|[]|[]]). rewrite E1, E2 in Heq.
    apply answer_Ok in Heq as (Hlen & -> & ->). destruct (Hpart s len Hlen) as [H1 H2].
    cbn [dev_view v_out v_mem]. rewrite upd_eq, length_load, Nat2Z.id. split_and!; [lia..|done|done].
  - intros op fd ptr len off s n s' Ha Heq. unfold dev_await in Heq. rewrite Ha in Heq.
    assert (in_args op = None ∧ peek_args op = None ∧ out_args op = None) as (E1 & E2 & E3)
      by (by destruct op as [[]|[]|[]]). rewrite E1, E2, E3 in Heq.
    apply answer_Ok in Heq as (Hlen & -> & ->). destruct (Hpart s len Hlen) as [H1 H2].
    cbn [dev_view v_file v_mem]. rewrite length_load, Nat2Z.id. split_and!; [lia..|done|done].
  - intros op fd ptr len off s n s' Ha Heq. unfold dev_await in Heq. rewrite Ha in Heq.
    assert (in_args op = None ∧ peek_args op = None ∧ out_args op = None ∧ pread_args op = None)
      as (E1 & E2 & E3 & E4) by (by destruct op as [[]|[]|[]]). rewrite E1, E2, E3, E4 in Heq.
    apply answer_Ok in Heq as (Hlen & -> & ->). destruct (Hpart s len Hlen) as [H1 H2].
    cbn [dev_view v_file v_mem]. rewrite upd_eq, length_load, Nat2Z.id. split_and!; [lia..|done|done].
Qed.

(** ** Witnesses *)

Definition ex_dev (l : list Z) : Dev := mkDev (mkKView (λ a, a) (λ _, l) (λ _, []) (λ _ x, x)) 1.

Definition ex_buf : IoBuf := IoOps.mkIoBuf true 100 4 0.

Lemma recv_exact_fills_witness :
  fills dev_view dev_await 3 100 4 (ex_dev [1; 2; 3; 4; 5])
    (IoOps.recv_exact dev_await Debug 5 3 ex_buf (ex_dev [1; 2; 3; 4; 5])).
Proof.
  apply (recv_exact_fills dev_view dev_await dev_laws Debug 3 0 ex_buf (ex_dev [1; 2; 3; 4; 5])).
  - simpl. lia.
  - reflexivity.
Defined.

Lemma send_all_sends_witness :
  sends dev_view dev_await 3 100 4 (ex_dev []) (IoOps.send_all dev_await Debug 5 3 ex_buf (ex_dev [])).
Proof.
  apply (send_all_sends dev_view dev_await dev_laws Debug 3 0 ex_buf (ex_dev [])). simpl. unfold u32_modulus. lia.
Defined.

Lemma positioned_transfers_witness :
  writes_at dev_view dev_await 3 100 4 7 (ex_dev []) (IoOps.pwrite_all dev_await Debug 5 3 ex_buf 7 (ex_dev [])).
Proof.
  apply (positioned_transfers dev_view dev_await dev_laws Debug 3 7 ex_buf (ex_dev [])).
  - simpl. unfold u32_modulus. lia.
  - reflexivity.
Defined.

Lemma recv_exact_end_of_stream_witness :
  ∃ o s', IoOps.recv_bytes_exact dev_await Debug 9 3 100 4 (ex_dev []) = Val (o, s') ∧ o ≠ Some (Ok ()).
Proof.
  destruct (recv_exact_end_of_stream dev_view dev_await dev_laws Debug 3 100 4 (ex_dev []) 9)
    as [(o & s' & Heq & Ho & _) _]; [unfold u32_modulus; lia|reflexivity|]. exists o, s'. exact (conj Heq Ho).
Defined.

Lemma exact_4gib_stuck_witness :
  ∃ o s', IoOps.recv_bytes_exact dev_await Debug 9 3 100 u32_modulus (ex_dev [1; 2]) = Val (o, s') ∧
    o ≠ Some (Ok ()).
Proof.
  destruct (exact_4gib_stuck dev_view dev_await dev_laws Debug 3 100 (ex_dev [1; 2]) 9)
    as [(o & s' & Heq & Ho & _) _]. exists o, s'. exact (conj Heq Ho).
Defined.

Lemma peek_exact_repeats_witness :
  ∃ s2, IoOps.peek_bytes_exact dev_await Debug 3 3 100 4 (ex_dev [1; 2; 3; 4; 5]) = Val (Some (Ok ()), s2) ∧
    load 100 4 (v_mem (dev_view s2)) = [1; 2; 1; 2].
Proof.
  eexists. split.
  - apply (peek_exact_repeats dev_view dev_await dev_laws Debug 3 100 4 2 (ex_dev [1; 2; 3; 4; 5])
      (dev_await (Net (peek 3 100 4)) (ex_dev [1; 2; 3; 4; 5])).2).
    + lia.
    + reflexivity.
    + reflexivity.
    + reflexivity.
  - reflexivity.
Defined.
