(* ===== verification/Datagrams.v ===== *)
(** * Datagrams and accepted connections

    Models [src/src/io/net/recv_from.rs], [peek_from.rs], [send_to.rs] and
    [accept.rs], whose futures hand the worker a header or an address in their
    own frame and read from it what the system wrote there.

    Memory has bytes, headers, addresses and arrays of slices, each by its
    address. The rest of the state is the kernel's; [await_op] is how the
    worker and the kernel answer an operation. *)

From Stdlib Require Import ZArith Lia.
From S2P Require Import Prelude Task IoTypes UnixAddr.
From S2P Require IoOps IoStreams.
Import IoStreams (store, load).

Local Open Scope Z_scope.

Record DMem := mkDMem {
  bytes : Z → Z;
  headers : gmap Z OsMessageHeader;
  addrs : gmap Z SockAddr;
  iovs : gmap Z (list (Z * Z));
}.

Definition set_headers (h : gmap Z OsMessageHeader) (m : DMem) : DMem := mkDMem (bytes m) h (addrs m) (iovs m).
Definition set_addrs (a : gmap Z SockAddr) (m : DMem) : DMem := mkDMem (bytes m) (headers m) a (iovs m).
Definition set_iovs (v : gmap Z (list (Z * Z))) (m : DMem) : DMem := mkDMem (bytes m) (headers m) (addrs m) v.

(** The addresses of the address, the header and the slices of a future. *)
Record Frame := mkFrame { f_addr : Z; f_header : Z; f_iov : Z }.

Definition zeroed_addr : SockAddr := mkSockAddr (replicate STORAGE_SIZE 0) 0.

(** [set_length]. *)
Definition set_length (len : Z) (a : SockAddr) : SockAddr := mkSockAddr (storage a) len.

Definition net_op (deadline : option Z) (op : NetOp) : IoOp :=
  match deadline with Some d => NetWithDeadline op d | None => Net op end.

Section datagrams.
Context {K : Type} (await_op : IoOp → DMem * K → Result Z * (DMem * K)).
Context (sock_addr_size : Z) (fr : Frame).

(** ** [recv_from.rs] and [peek_from.rs]

    [RecvFrom::new] and [PeekFrom::new] with the local variables of the method
    that awaits them. *)
Definition RecvFrom_new (ptr len : Z) (m : DMem) : DMem :=
  let m := set_addrs (<[f_addr fr := zeroed_addr]> (addrs m)) m in
  let m := set_iovs (<[f_iov fr := [(ptr, len)]]> (iovs m)) m in
  set_headers (<[f_header fr := MessageRecvHeader_new sock_addr_size (f_addr fr) (f_iov fr) 1]> (headers m)) m.

(** Awaiting the future: if it returns a number, the length of the address is
    read from the header. *)
Definition RecvFrom_await (op : NetOp) (deadline : option Z) (st : DMem * K) : Result Z * (DMem * K) :=
  match await_op (net_op deadline op) st with
  | (Err e, st) => (Err e, st)
  | (Ok ret, (m, k)) =>
      let len := default 0 (get_addr_len <$> headers m !! f_header fr) in
      (Ok ret, (set_addrs (alter (set_length len) (f_addr fr) (addrs m)) m, k))
  end.

Section addr.
Context {Addr : Type} (from_sock_addr : SockAddr → option Addr).

Definition finish_from (r : Result Z * (DMem * K)) : outcome (Result (Z * Addr) * (DMem * K)) :=
  match r with
  | (Err e, st) => Val (Err e, st)
  | (Ok n, st) =>
      a ← expect (addrs st.1 !! f_addr fr ≫= from_sock_addr);
      Val (Ok (n, a), st)
  end.

Definition recv_bytes_from (sock ptr len : Z) (st : DMem * K) : outcome (Result (Z * Addr) * (DMem * K)) :=
  finish_from (RecvFrom_await (recv_from sock (f_header fr)) None (RecvFrom_new ptr len st.1, st.2)).

Definition recv_bytes_from_with_deadline (sock ptr len d : Z) (st : DMem * K)
    : outcome (Result (Z * Addr) * (DMem * K)) :=
  finish_from (RecvFrom_await (recv_from sock (f_header fr)) (Some d) (RecvFrom_new ptr len st.1, st.2)).

Definition peek_bytes_from (sock ptr len : Z) (st : DMem * K) : outcome (Result (Z * Addr) * (DMem * K)) :=
  finish_from (RecvFrom_await (peek_from sock (f_header fr)) None (RecvFrom_new ptr len st.1, st.2)).

Definition peek_bytes_from_with_deadline (sock ptr len d : Z) (st : DMem * K)
    : outcome (Result (Z * Addr) * (DMem * K)) :=
  finish_from (RecvFrom_await (peek_from sock (f_header fr)) (Some d) (RecvFrom_new ptr len st.1, st.2)).

(** ** [accept.rs]

    [SockAddrRaw] is in the frame of the future: its storage at [f_addr] and
    its length behind it. *)
Definition SockAddrRaw_empty : SockAddr := mkSockAddr (replicate STORAGE_SIZE 0) (u32_wrap sock_addr_size).

Definition addr_len_ptr : Z := f_addr fr + Z.of_nat STORAGE_SIZE.

Definition Accept_await (sock : Z) (deadline : option Z) (st : DMem * K) : outcome (Result (Z * Addr) * (DMem * K)) :=
  let m := set_addrs (<[f_addr fr := SockAddrRaw_empty]> (addrs st.1)) st.1 in
  match await_op (net_op deadline (accept sock (f_addr fr) addr_len_ptr)) (m, st.2) with
  | (Err e, st) => Val (Err e, st)
  | (Ok ret, (m, k)) =>
      a ← expect (addrs m !! f_addr fr ≫= from_sock_addr);
      Val (Ok (ret, a), (m, k))
  end.

Definition accept_conn (sock : Z) : DMem * K → outcome (Result (Z * Addr) * (DMem * K)) :=
  Accept_await sock None.
Definition accept_conn_with_deadline (sock d : Z) : DMem * K → outcome (Result (Z * Addr) * (DMem * K)) :=
  Accept_await sock (Some d).

End addr.

(** ** [send_to.rs] *)

(** [sock_addr_from_to_socket_addr], of the addresses that a name resolved to. *)
Definition sock_addr_from_to_socket_addr {Addr : Type} (into_sock_addr : Addr → SockAddr)
    (to_addr : Result (list Addr)) : Result SockAddr :=
  match to_addr with
  | Err e => Err e
  | Ok (addr :: _) => Ok (into_sock_addr addr)
  | Ok [] => Err (Simple InvalidInput)
  end.

(** The poll of [SendTo], with the address and the slice it borrows. *)
Definition SendTo_await (sock ptr len : Z) (a : SockAddr) (deadline : option Z) (st : DMem * K)
    : Result Z * (DMem * K) :=
  let m := st.1 in
  let m := set_addrs (<[f_addr fr := a]> (addrs m)) m in
  let m := set_iovs (<[f_iov fr := [(ptr, len)]]> (iovs m)) m in
  let h := MessageSendHeader_init MessageSendHeader_new (f_addr fr) a (f_iov fr) 1 in
  await_op (net_op deadline (send_to sock (f_header fr))) (set_headers (<[f_header fr := h]> (headers m)) m, st.2).

Section sends.
Context {Addr : Type} (into_sock_addr : Addr → SockAddr) (p : profile).

Definition send_bytes_to (sock ptr len : Z) (to_addr : Result (list Addr)) (st : DMem * K)
    : Result Z * (DMem * K) :=
  match sock_addr_from_to_socket_addr into_sock_addr to_addr with
  | Err e => (Err e, st)
  | Ok a => SendTo_await sock ptr len a None st
  end.

Definition send_bytes_to_with_deadline (sock ptr len : Z) (to_addr : Result (list Addr)) (d : Z) (st : DMem * K)
    : Result Z * (DMem * K) :=
  match sock_addr_from_to_socket_addr into_sock_addr to_addr with
  | Err e => (Err e, st)
  | Ok a => SendTo_await sock ptr len a (Some d) st
  end.

(** The loop of [send_all_bytes_to]; [None]: out of fuel. *)
Fixpoint send_all_to_loop (fuel : nat) (sock ptr len : Z) (a : SockAddr) (deadline : option Z) (sent : Z)
    (st : DMem * K) : outcome (option (Result Z) * (DMem * K)) :=
  match fuel with
  | O => Val (None, st)
  | S fuel =>
      if sent <? len then
        match SendTo_await sock (ptr + sent) (len - sent) a deadline st with
        | (Err e, st) => Val (Some (Err e), st)
        | (Ok n, st) => sent ← usize_add p sent n; send_all_to_loop fuel sock ptr len a deadline sent st
        end
      else Val (Some (Ok sent), st)
  end.

Definition send_all_bytes_to (fuel : nat) (sock ptr len : Z) (to_addr : Result (list Addr)) (st : DMem * K)
    : outcome (option (Result Z) * (DMem * K)) :=
  match sock_addr_from_to_socket_addr into_sock_addr to_addr with
  | Err e => Val (Some (Err e), st)
  | Ok a => send_all_to_loop fuel sock ptr len a None 0 st
  end.

Definition send_all_bytes_to_with_deadline (fuel : nat) (sock ptr len : Z) (to_addr : Result (list Addr)) (d : Z)
    (st : DMem * K) : outcome (option (Result Z) * (DMem * K)) :=
  match sock_addr_from_to_socket_addr into_sock_addr to_addr with
  | Err e => Val (Some (Err e), st)
  | Ok a => send_all_to_loop fuel sock ptr len a (Some d) 0 st
  end.

End sends.
End datagrams.

(** ** The kernel

    Its laws, as documented by [recvmsg(2)], [sendmsg(2)] and [accept(2)], for
    a header with one slice: the queue of datagrams of a socket, with the bytes
    and the name of the sender, the datagrams that were sent, and the
    connections that wait. *)
Record KernelView (K : Type) := mkKernelView {
  queue : K → Z → list (list Z * list Z);
  sent : K → Z → list (list Z * list Z);
  backlog : K → Z → list (Z * list Z);
}.
Arguments queue {K} _ _ _.
Arguments sent {K} _ _ _.
Arguments backlog {K} _ _ _.

(** What [recvmsg] writes to memory. *)
Definition received (m m' : DMem) (h : Z) (hd : OsMessageHeader) (ptr : Z) (bs name : list Z) (a : SockAddr) : Prop :=
  (∀ x, bytes m' x = store ptr bs (bytes m) x) ∧
  headers m' = <[h := mkOsMessageHeader (msg_name hd) (Z.of_nat (length name)) (msg_iov hd) (msg_iovlen hd)]> (headers m) ∧
  addrs m' = <[msg_name hd := mkSockAddr (write_at 0 name (storage a)) (addr_len a)]> (addrs m).

Record KernelLaws {K : Type} (v : KernelView K) (await_op : IoOp → DMem * K → Result Z * (DMem * K)) : Prop := {
  law_recvmsg (consume : bool) d sock h hd ptr len a m k n m' k' :
    headers m !! h = Some hd → iovs m !! msg_iov hd = Some [(ptr, len)] → msg_iovlen hd = 1 →
    addrs m !! msg_name hd = Some a → Z.of_nat STORAGE_SIZE ≤ msg_namelen hd → 0 ≤ len →
    await_op (net_op d ((if consume then recv_from else peek_from) sock h)) (m, k) = (Ok n, (m', k')) →
    ∃ bs name rest, queue v k sock = (bs, name) :: rest ∧
      queue v k' sock = (if consume then rest else queue v k sock) ∧
      (length name ≤ STORAGE_SIZE)%nat ∧ n = len `min` Z.of_nat (length bs) ∧
      received m m' h hd ptr (take (Z.to_nat n) bs) name a;
  law_sendmsg d sock h hd ptr len a m k n m' k' :
    headers m !! h = Some hd → iovs m !! msg_iov hd = Some [(ptr, len)] → msg_iovlen hd = 1 →
    addrs m !! msg_name hd = Some a → 0 ≤ len →
    await_op (net_op d (send_to sock h)) (m, k) = (Ok n, (m', k')) →
    n = len ∧ (∀ x, bytes m' x = bytes m x) ∧
    sent v k' sock = sent v k sock ++
      [(load ptr (Z.to_nat len) (bytes m), take (Z.to_nat (msg_namelen hd)) (storage a))];
  law_accept d sock a len_ptr sa m k n m' k' :
    addrs m !! a = Some sa → len_ptr = a + Z.of_nat STORAGE_SIZE → Z.of_nat STORAGE_SIZE ≤ addr_len sa →
    await_op (net_op d (accept sock a len_ptr)) (m, k) = (Ok n, (m', k')) →
    ∃ name rest, backlog v k sock = (n, name) :: rest ∧ backlog v k' sock = rest ∧
      (length name ≤ STORAGE_SIZE)%nat ∧
      addrs m' = <[a := mkSockAddr (write_at 0 name (storage sa)) (Z.of_nat (length name))]> (addrs m);
}.

(** The address of a peer of some name. *)
Definition peer_addr (name : list Z) : SockAddr :=
  mkSockAddr (name ++ replicate (STORAGE_SIZE - length name) 0) (Z.of_nat (length name)).

Lemma write_name_zeroed name : (length name ≤ STORAGE_SIZE)%nat →
  write_at 0 name (replicate STORAGE_SIZE 0) = name ++ replicate (STORAGE_SIZE - length name) 0.
Proof. intros Hl. unfold write_at. by rewrite take_0, Nat.add_0_l, drop_replicate. Qed.

Section spec.
Context {K : Type} (v : KernelView K) (await_op : IoOp → DMem * K → Result Z * (DMem * K)).
Context (laws : KernelLaws v await_op) (sock_addr_size : Z) (fr : Frame).
Context (Hsize : Z.of_nat STORAGE_SIZE ≤ sock_addr_size < u32_modulus).
Context {Addr : Type} (from_sock_addr : SockAddr → option Addr) (into_sock_addr : Addr → SockAddr) (p : profile).

Lemma size_wrap : u32_wrap sock_addr_size = sock_addr_size.
Proof. apply u32_wrap_small. unfold in_u32, STORAGE_SIZE in *. lia. Qed.

(** A method that takes ([consume]) or looks at the next datagram. *)
Definition takes_datagram (consume : bool) (sock ptr len : Z) (st : DMem * K)
    (o : outcome (Result (Z * Addr) * (DMem * K))) : Prop :=
  (∃ e st', o = Val (Err e, st')) ∨
  ∃ bs name rest m' k',
    queue v st.2 sock = (bs, name) :: rest ∧ queue v k' sock = (if consume then rest else queue v st.2 sock) ∧
    (∀ x, bytes m' x = store ptr (take (Z.to_nat len) bs) (bytes st.1) x) ∧
    o = match from_sock_addr (peer_addr name) with
        | Some a => Val (Ok (len `min` Z.of_nat (length bs), a), (m', k'))
        | None => Panicked
        end.

Lemma RecvFrom_spec consume d sock ptr len st :
  0 ≤ len →
  takes_datagram consume sock ptr len st (finish_from fr from_sock_addr
    (RecvFrom_await await_op fr ((if consume then recv_from else peek_from) sock (f_header fr)) d
      (RecvFrom_new sock_addr_size fr ptr len st.1, st.2))).
Proof.
  intros Hlen. destruct st as [m k]. unfold RecvFrom_await.
  destruct (await_op _ _) as [[n|e] [m' k']] eqn:Ha; [right|left; by eexists _, _].
  destruct (law_recvmsg _ _ laws consume d sock (f_header fr)
    (MessageRecvHeader_new sock_addr_size (f_addr fr) (f_iov fr) 1) ptr len zeroed_addr
    (RecvFrom_new sock_addr_size fr ptr len m) k n m' k')
    as (bs & name & rest & Hq & Hq' & Hname & -> & Hb & Hh & Haddr); try done; try apply lookup_insert_eq.
  { simpl. rewrite size_wrap. apply Hsize. }
  simpl in *. rewrite Hh, Haddr, !lookup_insert_eq. simpl. rewrite alter_insert_eq, lookup_insert_eq. simpl.
  unfold set_length. simpl. rewrite write_name_zeroed by done. fold (peer_addr name).
  exists bs, name, rest, (set_addrs (<[f_addr fr := peer_addr name]> (<[f_addr fr := zeroed_addr]> (addrs m))) m'), k'.
  split_and!; try done.
  - intros x. simpl. rewrite Hb. f_equal. destruct (decide (len ≤ Z.of_nat (length bs))).
    + by rewrite Z.min_l by lia.
    + by rewrite Z.min_r, !take_ge by lia.
  - by destruct (from_sock_addr _).
Qed.

(** C12: the methods of [AsyncRecvFrom] and [AsyncPeekFrom], with or without a
    deadline, on a system that follows [KernelLaws] and an address type at least
    as large as the storage of an address, either return an error or end as
    follows. A datagram waits; the start of it, as much as
    fits into the buffer, is copied there, the rest of a longer one is cut,
    and no other memory changes. The result is the number of bytes copied and
    the address of the sender; if that is not an address of the type asked
    for, the method panics instead. The datagram is gone (receiving) or stays
    (peeking). *)
Theorem recv_from_receives (sock ptr len d : Z) (st : DMem * K) :
  0 ≤ len →
  takes_datagram true sock ptr len st (recv_bytes_from await_op sock_addr_size fr from_sock_addr sock ptr len st) ∧
  takes_datagram true sock ptr len st
    (recv_bytes_from_with_deadline await_op sock_addr_size fr from_sock_addr sock ptr len d st) ∧
  takes_datagram false sock ptr len st (peek_bytes_from await_op sock_addr_size fr from_sock_addr sock ptr len st) ∧
  takes_datagram false sock ptr len st
    (peek_bytes_from_with_deadline await_op sock_addr_size fr from_sock_addr sock ptr len d st).
Proof.
  intros Hlen. split_and!; [apply (RecvFrom_spec true None)|apply (RecvFrom_spec true (Some d))|
    apply (RecvFrom_spec false None)|apply (RecvFrom_spec false (Some d))]; done.
Qed.

(** The methods of [AsyncAccept]: unless the operation fails, the result is the
    first connection that waits and the address of its peer. *)
Theorem accept_accepts (sock : Z) (d : option Z) (st : DMem * K) :
  (∃ e st', Accept_await await_op sock_addr_size fr from_sock_addr sock d st = Val (Err e, st')) ∨
  ∃ fd name rest m' k', backlog v st.2 sock = (fd, name) :: rest ∧ backlog v k' sock = rest ∧
    Accept_await await_op sock_addr_size fr from_sock_addr sock d st =
      match from_sock_addr (peer_addr name) with Some a => Val (Ok (fd, a), (m', k')) | None => Panicked end.
Proof.
  destruct st as [m k]. unfold Accept_await. simpl.
  destruct (await_op _ _) as [[n|e] [m' k']] eqn:Ha; [right|left; by eexists _, _].
  destruct (law_accept _ _ laws d sock (f_addr fr) (addr_len_ptr fr) (SockAddrRaw_empty sock_addr_size)
    (set_addrs (<[f_addr fr := SockAddrRaw_empty sock_addr_size]> (addrs m)) m) k n m' k')
    as (name & rest & Hb & Hb' & Hname & Haddr); try done.
  { apply lookup_insert_eq. }
  { simpl. rewrite size_wrap. apply Hsize. }
  exists n, name, rest, m', k'. split_and!; try done. rewrite Haddr, lookup_insert_eq. simpl.
  rewrite write_name_zeroed by done. fold (peer_addr name). by destruct (from_sock_addr _).
Qed.

(** ** Sending *)
Lemma SendTo_spec d sock ptr len a st :
  0 ≤ len → 0 ≤ addr_len a →
  (∃ e st', SendTo_await await_op fr sock ptr len a d st = (Err e, st')) ∨
  ∃ st', SendTo_await await_op fr sock ptr len a d st = (Ok len, st') ∧
    sent v st'.2 sock = sent v st.2 sock ++
      [(load ptr (Z.to_nat len) (bytes st.1), take (Z.to_nat (addr_len a)) (storage a))].
Proof.
  intros Hlen Ha0. destruct st as [m k]. destruct (SendTo_await _ _ _ _ _ _ _ _) as [[n|e] [m' k']] eqn:Ha; [right|left; by eexists _, _].
  unfold SendTo_await in Ha. simpl in Ha.
  eapply (law_sendmsg _ _ laws d sock (f_header fr) (mkOsMessageHeader (f_addr fr) (addr_len a) (f_iov fr) 1) ptr len a)
    in Ha as (-> & _ & Hs); try done; try apply lookup_insert_eq.
  exists (m', k'). split; [done|]. simpl. by rewrite Hs.
Qed.

(** What the sending methods do with the first address of a name. *)
Definition sends_datagrams (sock ptr len : Z) (to_addr : Result (list Addr)) (times : nat) (st : DMem * K)
    (o : outcome (option (Result Z) * (DMem * K))) : Prop :=
  match to_addr with
  | Err e => o = Val (Some (Err e), st)
  | Ok [] => o = Val (Some (Err (Simple InvalidInput)), st)
  | Ok (addr :: _) =>
      let a := into_sock_addr addr in
      (∃ e st', o = Val (Some (Err e), st')) ∨
      ∃ st', o = Val (Some (Ok len), st') ∧
        sent v st'.2 sock = sent v st.2 sock ++
          replicate times (load ptr (Z.to_nat len) (bytes st.1), take (Z.to_nat (addr_len a)) (storage a))
  end.

Lemma send_all_to_spec d sock ptr len a fuel st :
  0 ≤ len < usize_modulus → 0 ≤ addr_len a →
  (∃ e st', send_all_to_loop await_op fr p (S (S fuel)) sock ptr len a d 0 st = Val (Some (Err e), st')) ∨
  ∃ st', send_all_to_loop await_op fr p (S (S fuel)) sock ptr len a d 0 st = Val (Some (Ok len), st') ∧
    sent v st'.2 sock = sent v st.2 sock ++
      replicate (if len =? 0 then 0 else 1) (load ptr (Z.to_nat len) (bytes st.1), take (Z.to_nat (addr_len a)) (storage a)).
Proof.
  intros [Hlen Hmax] Ha. cbn [send_all_to_loop]. destruct (Z.eqb_spec len 0) as [->|Hne].
  { right. exists st. by rewrite app_nil_r. }
  rewrite (proj2 (Z.ltb_lt _ _)), Z.add_0_r, Z.sub_0_r by lia.
  destruct (SendTo_spec d sock ptr len a st Hlen Ha) as [(e & st' & ->)|(st' & -> & Hs)]; [left; by eexists _, _|right].
  rewrite usize_add_Val by lia. cbn [mbind outcome_bind]. rewrite (proj2 (Z.ltb_ge _ _)) by lia.
  exists st'. split; [by rewrite Z.add_0_l|done].
Qed.

(** C24: the methods of [AsyncSendTo]: a name without addresses is refused, and
    otherwise the first address is taken. Unless the operation fails,
    [send_bytes_to] sends the buffer in one datagram, and so does
    [send_all_bytes_to], which returns after at most two turns, except that it
    sends nothing if the buffer is empty. *)
Theorem send_to_sends (sock ptr len d : Z) (to_addr : Result (list Addr)) (fuel : nat) (st : DMem * K) :
  0 ≤ len < usize_modulus → (∀ addr l, to_addr = Ok (addr :: l) → 0 ≤ addr_len (into_sock_addr addr)) →
  let once r := Val (Some r.1, r.2) in
  let times := if len =? 0 then O else 1%nat in
  sends_datagrams sock ptr len to_addr 1 st (once (send_bytes_to await_op fr into_sock_addr sock ptr len to_addr st)) ∧
  sends_datagrams sock ptr len to_addr 1 st
    (once (send_bytes_to_with_deadline await_op fr into_sock_addr sock ptr len to_addr d st)) ∧
  sends_datagrams sock ptr len to_addr times st
    (send_all_bytes_to await_op fr into_sock_addr p (S (S fuel)) sock ptr len to_addr st) ∧
  sends_datagrams sock ptr len to_addr times st
    (send_all_bytes_to_with_deadline await_op fr into_sock_addr p (S (S fuel)) sock ptr len to_addr d st).
Proof.
  intros Hlen Hinto once times. unfold send_bytes_to, send_bytes_to_with_deadline, send_all_bytes_to,
    send_all_bytes_to_with_deadline, sends_datagrams, sock_addr_from_to_socket_addr.
  destruct to_addr as [[|addr l]|e]; [done| |done]. cbv zeta. specialize (Hinto addr l eq_refl).
  split_and!; [| |by apply send_all_to_spec|by apply send_all_to_spec].
  - destruct (SendTo_spec None sock ptr len (into_sock_addr addr) st) as [(e & st' & ->)|(st' & -> & Hs)];
      [lia|done|left; by eexists _, _|right; by exists st'].
  - destruct (SendTo_spec (Some d) sock ptr len (into_sock_addr addr) st) as [(e & st' & ->)|(st' & -> & Hs)];
      [lia|done|left; by eexists _, _|right; by exists st'].
Qed.

End spec.

(** A datagram from a Unix socket that has no name: [recv_from] returns an
    address that cannot be looked at. *)
Theorem unnamed_sender_panics {K : Type} (v : KernelView K) (await_op : IoOp → DMem * K → Result Z * (DMem * K))
    (sock_addr_size : Z) (fr : Frame) (p : profile) (sock ptr len : Z) (st st' : DMem * K) (bs : list Z)
    (rest : list (list Z * list Z)) (n : Z) (a : UnixAddr) :
  KernelLaws v await_op → Z.of_nat STORAGE_SIZE ≤ sock_addr_size < u32_modulus → 0 ≤ len →
  queue v st.2 sock = (bs, []) :: rest →
  recv_bytes_from await_op sock_addr_size fr UnixAddr_from_sock_addr sock ptr len st = Val (Ok (n, a), st') →
  address p a = Panicked ∧ is_unnamed p a = Panicked.
Proof.
  intros laws Hsize Hlen Hq Hr.
  destruct (RecvFrom_spec v await_op laws sock_addr_size fr Hsize UnixAddr_from_sock_addr true None sock ptr len st Hlen)
    as [(e & st1 & Heq)|(bs' & name & rest' & m' & k' & Hq' & _ & _ & Heq)]; unfold recv_bytes_from in Hr; rewrite Heq in Hr; [done|].
  rewrite Hq in Hq'. injection Hq' as <- <- <-. simpl in Hr. simplify_eq.
  assert (address p (mkUnixAddr (peer_addr [])) = Panicked) as Hp by (by destruct p; vm_compute).
  split; [done|]. unfold is_unnamed. by rewrite Hp.
Qed.

(** ** A kernel *)
Module Net.

Record Kernel := mkKernel {
  q : Z → list (list Z * list Z);
  out : Z → list (list Z * list Z);
  conns : Z → list (Z * list Z);
}.

Definition upd {A : Type} (f : Z → A) (k : Z) (a : A) (x : Z) : A := if x =? k then a else f x.

Definition view : KernelView Kernel := mkKernelView Kernel q out conns.

Definition recvmsg (consume : bool) (sock h : Z) (st : DMem * Kernel) : Result Z * (DMem * Kernel) :=
  let '(m, k) := st in
  match headers m !! h with
  | None => (Err (OsError 14), st)
  | Some hd =>
      match iovs m !! msg_iov hd, addrs m !! msg_name hd, q k sock with
      | Some [(ptr, len)], Some a, (bs, name) :: rest =>
          if (length name <=? STORAGE_SIZE)%nat then
            let n := len `min` Z.of_nat (length bs) in
            (Ok n, (mkDMem (store ptr (take (Z.to_nat n) bs) (bytes m))
                      (<[h := mkOsMessageHeader (msg_name hd) (Z.of_nat (length name)) (msg_iov hd) (msg_iovlen hd)]> (headers m))
                      (<[msg_name hd := mkSockAddr (write_at 0 name (storage a)) (addr_len a)]> (addrs m)) (iovs m),
                    if consume then mkKernel (upd (q k) sock rest) (out k) (conns k) else k))
          else (Err (OsError 22), st)
      | _, _, _ => (Err (OsError EAGAIN), st)
      end
  end.

Definition sendmsg (sock h : Z) (st : DMem * Kernel) : Result Z * (DMem * Kernel) :=
  let '(m, k) := st in
  match headers m !! h with
  | None => (Err (OsError 14), st)
  | Some hd =>
      match iovs m !! msg_iov hd, addrs m !! msg_name hd with
      | Some [(ptr, len)], Some a =>
          (Ok len, (m, mkKernel (q k) (upd (out k) sock (out k sock ++
             [(load ptr (Z.to_nat len) (bytes m), take (Z.to_nat (msg_namelen hd)) (storage a))])) (conns k)))
      | _, _ => (Err (OsError 14), st)
      end
  end.

Definition accept_call (sock a : Z) (st : DMem * Kernel) : Result Z * (DMem * Kernel) :=
  let '(m, k) := st in
  match addrs m !! a, conns k sock with
  | Some sa, (fd, name) :: rest =>
      if (length name <=? STORAGE_SIZE)%nat then
        (Ok fd, (set_addrs (<[a := mkSockAddr (write_at 0 name (storage sa)) (Z.of_nat (length name))]> (addrs m)) m,
                 mkKernel (q k) (out k) (upd (conns k) sock rest)))
      else (Err (OsError 22), st)
  | _, _ => (Err (OsError EAGAIN), st)
  end.

Definition await_net (op : NetOp) (st : DMem * Kernel) : Result Z * (DMem * Kernel) :=
  match op with
  | recv_from sock h => recvmsg true sock h st
  | peek_from sock h => recvmsg false sock h st
  | send_to sock h => sendmsg sock h st
  | accept sock a _ => accept_call sock a st
  | _ => (Err (OsError 95), st)
  end.

Definition await_op (op : IoOp) (st : DMem * Kernel) : Result Z * (DMem * Kernel) :=
  match op with
  | Net op | NetWithDeadline op _ => await_net op st
  | File _ => (Err (OsError 95), st)
  end.

Lemma await_net_op d op st : await_op (net_op d op) st = await_net op st.
Proof. by destruct d. Qed.

Lemma net_upd_eq {A : Type} (f : Z → A) k a : upd f k a k = a.
Proof. unfold upd. by rewrite Z.eqb_refl. Qed.

Lemma net_laws : KernelLaws view await_op.
Proof.
  split.
  - intros consume d sock h hd ptr len a m k n m' k' Hh Hv _ Ha _ _. rewrite await_net_op.
    assert (await_net ((if consume then recv_from else peek_from) sock h) (m, k) = recvmsg consume sock h (m, k)) as ->
      by (by destruct consume).
    unfold recvmsg. rewrite Hh, Hv, Ha. destruct (q k sock) as [|[bs name] rest] eqn:Hq; [done|].
    destruct (Nat.leb_spec (length name) STORAGE_SIZE); [|done]. intros [= <- <- <-].
    exists bs, name, rest. split; [done|]. split; [by destruct consume; simpl; rewrite ?net_upd_eq|]. by split_and!.
  - intros d sock h hd ptr len a m k n m' k' Hh Hv _ Ha _. rewrite await_net_op. simpl. rewrite Hh, Hv, Ha.
    intros [= <- <- <-]. split_and!; [done..|]. simpl. by rewrite net_upd_eq.
  - intros d sock a len_ptr sa m k n m' k' Ha _ _. rewrite await_net_op. simpl. rewrite Ha.
    destruct (conns k sock) as [|[fd name] rest] eqn:Hc; [done|].
    destruct (Nat.leb_spec (length name) STORAGE_SIZE); [|done]. intros [= <- <- <-].
    exists name, rest. split_and!; try done. simpl. by rewrite net_upd_eq.
Qed.

Definition frame : Frame := mkFrame 1000 2000 3000.
Definition mem0 : DMem := mkDMem (λ x, x) ∅ ∅ ∅.

(** A datagram from a named peer on socket 3, one from a peer without a name
    on socket 4, and a connection on socket 5. *)
Definition kernel0 : Kernel :=
  mkKernel (λ s, if s =? 3 then [([7; 8; 9], [1; 0; 97; 0])] else if s =? 4 then [([7], [])] else [])
    (λ _, []) (λ s, if s =? 5 then [(6, [1; 0])] else []).

End Net.

Lemma recv_from_receives_witness :
  takes_datagram Net.view UnixAddr_from_sock_addr true 3 10 2 (Net.mem0, Net.kernel0)
    (recv_bytes_from Net.await_op 136 Net.frame UnixAddr_from_sock_addr 3 10 2 (Net.mem0, Net.kernel0)).
Proof.
  refine (proj1 (recv_from_receives Net.view Net.await_op Net.net_laws 136 Net.frame _ UnixAddr_from_sock_addr 3 10 2 0
    (Net.mem0, Net.kernel0) _)).
  - unfold u32_modulus, STORAGE_SIZE. lia.
  - lia.
Defined.

Lemma accept_accepts_witness :
  ∃ m' k', Accept_await Net.await_op 136 Net.frame UnixAddr_from_sock_addr 5 None (Net.mem0, Net.kernel0) =
    Val (Ok (6, mkUnixAddr (peer_addr [1; 0])), (m', k')).
Proof.
  destruct (accept_accepts Net.view Net.await_op Net.net_laws 136 Net.frame
    ltac:(unfold u32_modulus, STORAGE_SIZE; lia) UnixAddr_from_sock_addr 5 None (Net.mem0, Net.kernel0))
    as [(e & st' & H)|(fd & name & rest & m' & k' & Hb & _ & ->)]; [discriminate H|].
  injection Hb as <- <- <-. exists m', k'. reflexivity.
Defined.

Lemma send_to_sends_witness :
  sends_datagrams Net.view UnixAddr_into_sock_addr 3 10 2 (Ok [mkUnixAddr (peer_addr [1; 0; 98; 0])]) 1 (Net.mem0, Net.kernel0)
    (send_all_bytes_to Net.await_op Net.frame UnixAddr_into_sock_addr Debug 9 3 10 2
      (Ok [mkUnixAddr (peer_addr [1; 0; 98; 0])]) (Net.mem0, Net.kernel0)).
Proof.
  apply (send_to_sends Net.view Net.await_op Net.net_laws Net.frame UnixAddr_into_sock_addr Debug 3 10 2 0
    (Ok [mkUnixAddr (peer_addr [1; 0; 98; 0])]) 7 (Net.mem0, Net.kernel0)).
  - unfold usize_modulus. lia.
  - intros addr l [= <- <-]. simpl. lia.
Defined.

Lemma unnamed_sender_panics_witness :
  is_unnamed Release (mkUnixAddr (peer_addr [])) = Panicked.
Proof.
  refine (proj2 (unnamed_sender_panics Net.view Net.await_op 136 Net.frame Release 4 10 8 (Net.mem0, Net.kernel0) _ [7] []
    1 (mkUnixAddr (peer_addr [])) Net.net_laws _ _ _ _)).
  - unfold u32_modulus, STORAGE_SIZE. lia.
  - lia.
  - reflexivity.
  - vm_compute. reflexivity.
Defined.
