(* ===== verification/Sockets.v ===== *)
(** * Sockets

    Models what the types of [src/src/net] add to the operations of [IoOps] and
    [Datagrams]: the creation of sockets ([creators_of_sockets.rs]), binding
    ([src/src/io/net/bind.rs], [bind_config.rs] and the implementations of
    [AsyncBind]), connecting with a deadline ([src/src/io/net/connect.rs]), the
    options that sockets of the Unix domain do not have ([datagram.rs],
    [stream.rs], [socket.rs]), and the end of a socket or a file.

    Calls that are not operations of the worker are made through [socket2] and
    [libc]: [sock_call] is what such a call on a descriptor does. *)

From Stdlib Require Import ZArith Lia.
From S2P Require Import Prelude Task IoTypes UnixAddr.
From S2P Require IoOps.
Import IoOps (await, each_addr, each_addr_loop).

Local Open Scope Z_scope.

(** ** [bind_config.rs] *)
Inductive ReusePort := Disabled | Default | CPU.

#[export] Instance ReusePort_eq_dec : EqDecision ReusePort.
Proof. solve_decision. Defined.

Record BindConfig := mkBindConfig {
  backlog_size : Z;
  only_v6 : bool;
  reuse_address : bool;
  reuse_port : ReusePort;
}.

(** [BindConfig::new] on Unix. *)
Definition BindConfig_new : BindConfig := mkBindConfig 128 false true Default.

Definition set_backlog_size (c : BindConfig) (n : Z) : BindConfig :=
  mkBindConfig n (only_v6 c) (reuse_address c) (reuse_port c).
Definition set_only_v6 (c : BindConfig) (b : bool) : BindConfig :=
  mkBindConfig (backlog_size c) b (reuse_address c) (reuse_port c).
Definition set_reuse_address (c : BindConfig) (b : bool) : BindConfig :=
  mkBindConfig (backlog_size c) (only_v6 c) b (reuse_port c).
Definition set_reuse_port (c : BindConfig) (r : ReusePort) : BindConfig :=
  mkBindConfig (backlog_size c) (only_v6 c) (reuse_address c) r.

(** ** Calls on a descriptor *)
Record sock_filter := mkFilter { f_code : Z; f_jt : Z; f_jf : Z; f_k : Z }.

Inductive SockCall (Addr : Type) :=
| SetOnlyV6
| SetReuseAddress
| SetReusePort
| Bind (addr : Addr)
| Listen (backlog : Z)
| AttachReusePortCbpf (code : list sock_filter).
Arguments SetOnlyV6 {Addr}.
Arguments SetReuseAddress {Addr}.
Arguments SetReusePort {Addr}.
Arguments Bind {Addr} addr.
Arguments Listen {Addr} backlog.
Arguments AttachReusePortCbpf {Addr} code.

(** [as c_int] *)
Definition as_c_int (n : Z) : Z :=
  let m := n `mod` 2 ^ 32 in if m <? 2 ^ 31 then m else m - 2 ^ 32.

Definition BPF_LD : Z := 0.
Definition BPF_W : Z := 0.
Definition BPF_ABS : Z := 32.
Definition BPF_RET : Z := 6.
Definition BPF_A : Z := 16.
Definition SKF_AD_OFF : Z := -4096.
Definition SKF_AD_CPU : Z := 36.

(** The program that chooses the socket of a group by the CPU. *)
Definition cpu_filter : list sock_filter :=
  [mkFilter (Z.lor (Z.lor BPF_LD BPF_W) BPF_ABS) 0 0 (u32_wrap (SKF_AD_OFF + SKF_AD_CPU));
   mkFilter (Z.lor BPF_RET BPF_A) 0 0 0].

Section sockets.
Context {St : Type} (await_op : IoOp → St → Result Z * St).
Context {Addr : Type} (sock_call : Z → SockCall Addr → St → Result () * St).

Definition AF_INET : Z := 2.
Definition AF_INET6 : Z := 10.
Definition SOCK_STREAM : Z := 1.
Definition SOCK_DGRAM : Z := 2.
Definition IPPROTO_TCP : Z := 6.
Definition IPPROTO_UDP : Z := 17.

(** ** [creators_of_sockets.rs], for an address that is of version 4 or 6 *)
Definition new_socket (is_v4 : bool) (socket_type protocol : Z) : St → Result Z * St :=
  await await_op (IoOps.Socket (if is_v4 then AF_INET else AF_INET6) socket_type protocol).

Definition new_tcp_socket (is_v4 : bool) : St → Result Z * St := new_socket is_v4 SOCK_STREAM IPPROTO_TCP.
Definition new_udp_socket (is_v4 : bool) : St → Result Z * St := new_socket is_v4 SOCK_DGRAM IPPROTO_UDP.
Definition new_unix_stream : St → Result Z * St := await await_op (IoOps.Socket AF_UNIX SOCK_STREAM 0).
Definition new_unix_datagram : St → Result Z * St := await await_op (IoOps.Socket AF_UNIX SOCK_DGRAM 0).

(** ** [bind.rs] *)

(** Calls, each with [?]. *)
Fixpoint run_calls (fd : Z) (calls : list (SockCall Addr)) (s : St) : Result () * St :=
  match calls with
  | [] => (Ok (), s)
  | c :: calls =>
      match sock_call fd c s with
      | (Err e, s) => (Err e, s)
      | (Ok _, s) => run_calls fd calls s
      end
  end.

(** The calls of [bind_with_config] on Linux; [bind_and_listen] are those of
    [bind_and_listen_if_needed]. *)
Definition config_calls (config : BindConfig) (bind_and_listen : list (SockCall Addr)) : list (SockCall Addr) :=
  (if only_v6 config then [SetOnlyV6] else []) ++
  (if reuse_address config then [SetReuseAddress] else []) ++
  match reuse_port config with
  | Disabled => bind_and_listen
  | Default => SetReusePort :: bind_and_listen
  | CPU => SetReusePort :: bind_and_listen ++ [AttachReusePortCbpf cpu_filter]
  end.

Definition bind_with_config (new_sock : Addr → St → Result Z * St)
    (bind_and_listen : Addr → BindConfig → list (SockCall Addr)) (addrs : Result (list Addr)) (config : BindConfig)
    : St → Result Z * St :=
  each_addr addrs (λ addr s,
    match new_sock addr s with
    | (Err e, s) => (Err e, s)
    | (Ok raw_fd, s) =>
        match run_calls raw_fd (config_calls config (bind_and_listen addr config)) s with
        | (Err e, s) => (Err e, s)
        | (Ok _, s) => (Ok raw_fd, s)
        end
    end).

(** *** The implementations of [AsyncBind] *)
Definition TcpListener_bind_and_listen (addr : Addr) (config : BindConfig) : list (SockCall Addr) :=
  [Bind addr; Listen (as_c_int (backlog_size config))].
Definition TcpListener_bind (is_v4 : Addr → bool) : Result (list Addr) → BindConfig → St → Result Z * St :=
  bind_with_config (λ addr, new_tcp_socket (is_v4 addr)) TcpListener_bind_and_listen.

Definition UdpSocket_bind_and_listen (addr : Addr) (config : BindConfig) : list (SockCall Addr) := [Bind addr].
Definition UdpSocket_bind (is_v4 : Addr → bool) : Result (list Addr) → BindConfig → St → Result Z * St :=
  bind_with_config (λ addr, new_udp_socket (is_v4 addr)) UdpSocket_bind_and_listen.

Definition UnixDatagram_bind (addrs : Result (list Addr)) (config : BindConfig) : St → Result Z * St :=
  each_addr addrs (λ addr s,
    match new_unix_datagram s with
    | (Err e, s) => (Err e, s)
    | (Ok raw_socket, s) =>
        match sock_call raw_socket (Bind addr) s with
        | (Err e, s) => (Err e, s)
        | (Ok _, s) => (Ok raw_socket, s)
        end
    end).

(** ** Connecting with a deadline *)
Definition connect_stream_with_deadline (new_for_addr : Z * Z → St → Result Z * St) (drop_stream : Z → St → St)
    (addrs : Result (list (Z * Z))) (deadline : Z) : St → Result Z * St :=
  each_addr addrs (λ addr s,
    match new_for_addr addr s with
    | (Err e, s) => (Err e, s)
    | (Ok stream, s) =>
        match await await_op (IoOps.ConnectWithDeadline stream addr.1 addr.2 deadline) s with
        | (Err e, s) => (Err e, drop_stream stream s)
        | (Ok _, s) => (Ok stream, s)
        end
    end).

Definition connect_datagram_with_deadline (sock : Z) (addrs : Result (list (Z * Z))) (deadline : Z)
    : St → Result Z * St :=
  each_addr addrs (λ addr s,
    match await await_op (IoOps.ConnectWithDeadline sock addr.1 addr.2 deadline) s with
    | (Err e, s) => (Err e, s)
    | (Ok _, s) => (Ok sock, s)
    end).

(** ** Options that only sockets of the internet have *)
Inductive DatagramOption :=
| set_broadcast (b : bool) | broadcast
| set_multicast_loop_v4 (b : bool) | multicast_loop_v4
| set_multicast_ttl_v4 (n : Z) | multicast_ttl_v4
| set_multicast_loop_v6 (b : bool) | multicast_loop_v6
| join_multicast_v4 (multiaddr interface : Z) | join_multicast_v6 (multiaddr interface : Z)
| leave_multicast_v4 (multiaddr interface : Z) | leave_multicast_v6 (multiaddr interface : Z).

Inductive StreamOption := set_linger (linger : option Z) | linger | set_nodelay (b : bool) | nodelay.
Inductive SocketOption := set_ttl (n : Z) | ttl.

(** [new_unix_unsupported_error] *)
Definition new_unix_unsupported_error : Error := Simple Unsupported.

Definition Datagram_option (sys : DatagramOption → St → Result Z * St) (is_unix : bool) (o : DatagramOption) (s : St)
    : Result Z * St :=
  if is_unix then (Err new_unix_unsupported_error, s) else sys o s.
Definition Stream_option (sys : StreamOption → St → Result Z * St) (is_unix : bool) (o : StreamOption) (s : St)
    : Result Z * St :=
  if is_unix then (Err new_unix_unsupported_error, s) else sys o s.
Definition Socket_option (sys : SocketOption → St → Result Z * St) (is_unix : bool) (o : SocketOption) (s : St)
    : Result Z * St :=
  if is_unix then (Err new_unix_unsupported_error, s) else sys o s.

(** ** The end of a socket or a file

    [drop]: a local task that closes the descriptor and panics if that fails. *)
Definition drop_socket (raw_socket : Z) (s : St) : outcome St :=
  match await await_op (IoOps.CloseSocket raw_socket) s with (Ok _, s) => Val s | (Err _, _) => Panicked end.

Definition drop_file (raw_file : Z) (s : St) : outcome St :=
  match await await_op (IoOps.CloseFile raw_file) s with (Ok _, s) => Val s | (Err _, _) => Panicked end.

(** [with_std_file]: the closure runs on a standard file of the same
    descriptor, which is forgotten when the closure returns. If it unwinds
    ([None]), the standard file is dropped and closes the descriptor
    ([std_close]). *)
Definition with_std_file {Ret : Type} (std_close : Z → St → St) (raw_file : Z) (f : St → option Ret * St) (s : St)
    : option Ret * St :=
  match f s with
  | (Some ret, s) => (Some ret, s)
  | (None, s) => (None, std_close raw_file s)
  end.

End sockets.

(** *** [UnixListener]

    It binds to a path only, through [SockAddr::unix] ([sockaddr_unix]). *)
Section unix_listener.
Context {St : Type} (await_op : IoOp → St → Result Z * St) (p : profile).
Context (sockaddr_unix : list Z → Result SockAddr) (sock_call : Z → SockCall SockAddr → St → Result () * St).

Definition UnixListener_bind_and_listen (raw_socket : Z) (addr : UnixAddr) (config : BindConfig) (s : St)
    : outcome (Result () * St) :=
  path ← as_pathname p addr;
  match path with
  | None => Val (Err (Simple InvalidInput), s)
  | Some path =>
      match sockaddr_unix path with
      | Err e => Val (Err e, s)
      | Ok a => Val (run_calls sock_call raw_socket [Bind a; Listen (as_c_int (backlog_size config))] s)
      end
  end.

(** For the one address that a path or a [UnixAddr] resolves to. *)
Definition UnixListener_bind (addr : UnixAddr) (config : BindConfig) (s : St) : outcome (Result Z * St) :=
  match new_unix_stream await_op s with
  | (Err e, s) => Val (Err e, s)
  | (Ok raw_socket, s) =>
      '(r, s) ← UnixListener_bind_and_listen raw_socket addr config s;
      Val (match r with Ok _ => Ok raw_socket | Err e => Err e end, s)
  end.

End unix_listener.

(** ** Binding *)

(** The system: the descriptors that are open and the calls that were made. A
    call does not open or close a descriptor, whether it fails or not. *)
Record SocketLaws {St Addr : Type} (live : St → gset Z) (log : St → list (Z * SockCall Addr))
    (await_op : IoOp → St → Result Z * St) (sock_call : Z → SockCall Addr → St → Result () * St) : Prop := {
  law_socket d t pr s fd s' :
    await_op (File (socket d t pr)) s = (Ok fd, s') →
    (fd ∉ live s) ∧ live s' = {[fd]} ∪ live s ∧ log s' = log s;
  law_socket_fails d t pr s e s' :
    await_op (File (socket d t pr)) s = (Err e, s') → live s' = live s ∧ log s' = log s;
  law_call fd c s r s' :
    sock_call fd c s = (r, s') → live s' = live s ∧ log s' = log s ++ [(fd, c)];
}.

(** ** What a configuration asks for

    Stated by the calls a socket gets, without the code that makes them:
    [listens] is the backlog of a socket that listens. *)
Record configured {Addr : Type} (config : BindConfig) (listens : option Z) (addr : Addr)
    (calls : list (SockCall Addr)) : Prop := {
  cf_only_v6 : SetOnlyV6 ∈ calls ↔ only_v6 config = true;
  cf_reuse_address : SetReuseAddress ∈ calls ↔ reuse_address config = true;
  cf_reuse_port : SetReusePort ∈ calls ↔ reuse_port config ≠ Disabled;
  cf_filter code : AttachReusePortCbpf code ∈ calls ↔ reuse_port config = CPU ∧ code = cpu_filter;
  cf_listen n : Listen n ∈ calls ↔ listens = Some n;
  cf_once : NoDup calls;
  cf_bind : ∃ before after, calls = before ++ Bind addr :: after ∧
    (∀ c, c ∈ before → c = SetOnlyV6 ∨ c = SetReuseAddress ∨ c = SetReusePort) ∧
    (∀ c, c ∈ after → (∃ n, c = Listen n) ∨ ∃ code, c = AttachReusePortCbpf code) ∧
    ∀ n, listens = Some n → head after = Some (Listen n);
}.

Ltac solve_calls :=
  repeat match goal with
  | |- context [?c ∈ _ :: _] => rewrite !elem_of_cons
  | |- context [?c ∈ []] => rewrite !elem_of_nil
  end; naive_solver.

Lemma config_calls_bind {Addr : Type} (addr : Addr) (config : BindConfig) (rest : list (SockCall Addr)) :
  config_calls config (Bind addr :: rest) =
  ((if only_v6 config then [SetOnlyV6] else []) ++ (if reuse_address config then [SetReuseAddress] else []) ++
   (if decide (reuse_port config = Disabled) then [] else [SetReusePort])) ++
  Bind addr :: rest ++ (if decide (reuse_port config = CPU) then [AttachReusePortCbpf cpu_filter] else []).
Proof.
  unfold config_calls. destruct (reuse_port config); simpl; rewrite ?app_nil_r, <- ?(assoc_L (++)); done.
Qed.

Lemma config_calls_configured {Addr : Type} (addr : Addr) (config : BindConfig) (listens : option Z) :
  configured config listens addr
    (config_calls config (Bind addr :: match listens with Some n => [Listen n] | None => [] end)).
Proof.
  rewrite config_calls_bind. destruct config as [backlog v6 ra rp]. simpl.
  split; intros; try (destruct listens, v6, ra, rp; simpl; solve_calls).
  - destruct listens, v6, ra, rp; simpl; repeat constructor; solve_calls.
  - eexists _, _. split; [reflexivity|]. split_and!.
    + intros c. destruct v6, ra, rp; simpl; solve_calls.
    + intros c. destruct listens, rp; simpl; solve_calls.
    + by intros n ->.
Qed.

Section binding.
Context {St Addr : Type} (live : St → gset Z) (log : St → list (Z * SockCall Addr)).
Context (await_op : IoOp → St → Result Z * St) (sock_call : Z → SockCall Addr → St → Result () * St).
Context (laws : SocketLaws live log await_op sock_call).

Lemma run_calls_log fd calls s r s' :
  run_calls sock_call fd calls s = (r, s') →
  live s' = live s ∧ ∃ made, made `prefix_of` calls ∧ log s' = log s ++ ((λ c, (fd, c)) <$> made) ∧
    (r = Ok () → made = calls).
Proof.
  revert s. induction calls as [|c calls IH]; intros s; simpl.
  - intros [= <- <-]. split; [done|]. exists []. split; [done|]. by rewrite app_nil_r.
  - destruct (sock_call fd c s) as [[[]|e] s1] eqn:Hc; apply (law_call _ _ _ _ laws) in Hc as [Hl Hlog].
    + intros Hr. apply IH in Hr as (Hl' & made & Hpre & Hlog' & Hok). split; [congruence|].
      exists (c :: made). split; [by apply prefix_cons|]. split; [|intros Hr; by rewrite Hok].
      rewrite Hlog', Hlog, <- (assoc_L (++)). done.
    + intros [= <- <-]. split; [done|]. exists [c]. split; [by apply prefix_cons, prefix_nil|]. done.
Qed.

(** An attempt that failed: for which address, its descriptor ([None]: the
    socket could not be opened) and the calls made on it, the last of which
    failed. *)
Record Attempt := mkAttempt { at_addr : Addr; at_fd : option Z; at_calls : list (SockCall Addr) }.

Definition attempt_log (a : Attempt) : list (Z * SockCall Addr) :=
  match at_fd a with Some fd => (λ c, (fd, c)) <$> at_calls a | None => [] end.

(** [want] says which calls a socket for an address is to get. *)
Definition attempt_ok (want : Addr → list (SockCall Addr) → Prop) (a : Attempt) : Prop :=
  ∃ calls, want (at_addr a) calls ∧ at_calls a `prefix_of` calls.

Definition attempt_fds (l : list Attempt) : list Z := omap at_fd l.

(** What a run of [bind_with_config] over the addresses [l] has done: [tries]
    are the attempts that failed, in order. They are for the addresses before
    the one of the socket that is returned, or for all. *)
Definition bound (want : Addr → list (SockCall Addr) → Prop) (l : list Addr) (s s' : St)
    (r : option (Result Z)) : Prop :=
  ∃ tries, Forall (attempt_ok want) tries ∧ NoDup (attempt_fds tries) ∧
    (∀ fd, fd ∈ attempt_fds tries → fd ∉ live s) ∧
    match r with
    | Some (Ok fd) =>
        ∃ addr calls later, l = (at_addr <$> tries) ++ addr :: later ∧ want addr calls ∧
          (fd ∉ live s) ∧ (fd ∉ attempt_fds tries) ∧
          live s' = {[fd]} ∪ list_to_set (attempt_fds tries) ∪ live s ∧
          log s' = log s ++ concat (attempt_log <$> tries) ++ ((λ c, (fd, c)) <$> calls)
    | _ => l = at_addr <$> tries ∧ live s' = list_to_set (attempt_fds tries) ∪ live s ∧
        log s' = log s ++ concat (attempt_log <$> tries)
    end.

Lemma attempt_fds_cons a l : attempt_fds (a :: l) = option_list (at_fd a) ++ attempt_fds l.
Proof. unfold attempt_fds. simpl. by destruct (at_fd a). Qed.

(** One more attempt that failed. *)
Lemma bound_cons want a l s s1 s' r :
  attempt_ok want a → (∀ fd, at_fd a = Some fd → fd ∉ live s) →
  live s1 = list_to_set (option_list (at_fd a)) ∪ live s → log s1 = log s ++ attempt_log a →
  bound want l s1 s' r → bound want (at_addr a :: l) s s' r.
Proof.
  intros Ha Hfd Hl Hlog (tries & Hok & Hnd & Hfresh & Hr). exists (a :: tries).
  assert (∀ fd, fd ∈ option_list (at_fd a) → fd ∉ attempt_fds tries) as Hdis.
  { intros fd Hin Hfd'. apply (Hfresh fd Hfd'). rewrite Hl. set_solver. }
  rewrite attempt_fds_cons. split; [by constructor|]. split; [|split].
  - apply NoDup_app. split_and!; [destruct (at_fd a); [apply NoDup_singleton|constructor]|done|done].
  - intros fd [Hin|Hin]%elem_of_app; [destruct (at_fd a); simpl in Hin; set_solver|].
    specialize (Hfresh fd Hin). rewrite Hl in Hfresh. set_solver.
  - destruct r as [[fd|e]|].
    + destruct Hr as (addr & calls & later & -> & Hw & Hf1 & Hf2 & Hl' & Hlog'). exists addr, calls, later.
      rewrite Hl in Hf1. rewrite elem_of_app. split_and!; [done|done|set_solver| | |].
      * intros [?|?]; [|done]. apply Hf1. set_solver.
      * rewrite Hl', Hl, list_to_set_app_L. set_solver.
      * rewrite Hlog', Hlog. simpl. by rewrite <- !(assoc_L (++)).
    + destruct Hr as (-> & Hl' & Hlog'). split_and!; [done|rewrite Hl', Hl, list_to_set_app_L; set_solver|].
      rewrite Hlog', Hlog. simpl. by rewrite <- !(assoc_L (++)).
    + destruct Hr as (-> & Hl' & Hlog'). split_and!; [done|rewrite Hl', Hl, list_to_set_app_L; set_solver|].
      rewrite Hlog', Hlog. simpl. by rewrite <- !(assoc_L (++)).
Qed.

Lemma bound_nil want s r : (∀ fd, r ≠ Some (Ok fd)) → bound want [] s s r.
Proof.
  intros Hr. exists []. split_and!; [constructor|constructor|by intros fd ?%not_elem_of_nil|].
  destruct r as [[fd|e]|]; [by destruct (Hr fd)|..]; (split_and!; [done|set_solver|by rewrite app_nil_r]).
Qed.

Lemma bind_loop domain t pr config bal want l res s r s' :
  (∀ addr, want addr (config_calls config (bal addr config))) →
  (∀ fd, res ≠ Some (Ok fd)) →
  each_addr_loop (λ addr s,
    match await await_op (IoOps.Socket (domain addr) t pr) s with
    | (Err e, s) => (Err e, s)
    | (Ok fd, s) =>
        match run_calls sock_call fd (config_calls config (bal addr config)) s with
        | (Err e, s) => (Err e, s)
        | (Ok _, s) => (Ok fd, s)
        end
    end) l res s = (r, s') →
  bound want l s s' r.
Proof.
  intros Hwant. revert res s. induction l as [|addr l IH]; intros res s Hres; [intros [= <- <-]; by apply bound_nil|].
  cbn [each_addr_loop]. unfold await. cbn [IoOps.Socket IoOps.fut_op IoOps.fut_ret].
  destruct (await_op _ s) as [[fd|e] s1] eqn:Hs.
  - apply (law_socket _ _ _ _ laws) in Hs as (Hfresh & Hl & Hlog).
    destruct (run_calls sock_call fd _ s1) as [[[]|e] s2] eqn:Hrun; apply run_calls_log in Hrun as (Hl2 & made & Hpre & Hlog2 & Hok).
    + intros [= <- <-]. rewrite Hok in Hlog2 by done. exists [].
      split_and!; [constructor|constructor|by intros ? ?%not_elem_of_nil|].
      exists addr, (config_calls config (bal addr config)), l.
      split_and!; [done|done|done|by apply not_elem_of_nil|rewrite Hl2, Hl; set_solver|]. by rewrite Hlog2, Hlog.
    + intros Hr. apply IH in Hr; [|done].
      apply (bound_cons _ (mkAttempt addr (Some fd) made) l s s2); simpl; [| | |by rewrite Hlog2, Hlog|done].
      * by exists (config_calls config (bal addr config)).
      * by intros ? [= <-].
      * rewrite Hl2, Hl. set_solver.
  - apply (law_socket_fails _ _ _ _ laws) in Hs as [Hl Hlog]. intros Hr. apply IH in Hr; [|done].
    apply (bound_cons _ (mkAttempt addr None []) l s s1); simpl; [|done| |by rewrite Hlog, app_nil_r|done].
    + exists (config_calls config (bal addr config)). split; [done|apply prefix_nil].
    + rewrite Hl. set_solver.
Qed.


End binding.

(** ** The program of [ReusePort::CPU]

    Classic BPF, as far as the program uses it: a load at the offset of the
    CPU puts its number in the accumulator, and the accumulator is returned. *)
Fixpoint bpf_run (cpu : Z) (code : list sock_filter) (acc : Z) : option Z :=
  match code with
  | [] => None
  | i :: code =>
      if (f_code i =? 32) && (f_k i =? u32_wrap (SKF_AD_OFF + SKF_AD_CPU)) then bpf_run cpu code cpu
      else if f_code i =? 22 then Some acc
      else None
  end.

(** The program selects the socket whose number in the group is the CPU that
    handles the packet. *)
Theorem cpu_filter_selects (cpu acc : Z) : bpf_run cpu cpu_filter acc = Some cpu.
Proof. done. Qed.

(** ** Unix listeners and names that are not paths *)

(** [UnixListener::bind] of an abstract name that is valid: it fails with
    [InvalidInput] after it has opened a socket, which stays open. *)
Theorem unix_listener_abstract {St : Type} (live : St → gset Z) (log : St → list (Z * SockCall SockAddr))
    (await_op : IoOp → St → Result Z * St) (sock_call : Z → SockCall SockAddr → St → Result () * St)
    (sockaddr_unix : list Z → Result SockAddr) (p : profile) (name : list Z) (a : UnixAddr) (config : BindConfig)
    (s s1 : St) (fd : Z) :
  SocketLaws live log await_op sock_call → Z.of_nat (length name) + 1 < usize_modulus →
  from_abstract_name p name = Val (Ok a) → new_unix_stream await_op s = (Ok fd, s1) →
  UnixListener_bind await_op p sockaddr_unix sock_call a config s = Val (Err (Simple InvalidInput), s1) ∧
  (fd ∉ live s) ∧ (fd ∈ live s1).
Proof.
  intros laws Hlen Ha Hs. unfold UnixListener_bind, UnixListener_bind_and_listen, as_pathname. rewrite Hs.
  rewrite from_abstract_name_spec in Ha by done. case_decide; [|done]. injection Ha as <-.
  rewrite address_name by done. split; [done|]. unfold new_unix_stream, await in Hs. simpl in Hs.
  destruct (await_op _ s) as [[n|e] s2] eqn:Hop; [|done]. simplify_eq.
  apply (law_socket _ _ _ _ laws) in Hop as (Hf & -> & _). split; [done|]. set_solver.
Qed.

(** ** Unwinding out of [with_std_file]

    The descriptor is closed by the standard file, and again by the drop of
    the [File] that is unwound after it. *)
Theorem with_std_file_closes_twice {St Ret : Type} (await_op : IoOp → St → Result Z * St) (closes : St → list Z)
    (std_close : Z → St → St) (raw_file : Z) (f : St → option Ret * St) (s s' s'' : St) :
  (∀ fd s, closes (std_close fd s) = closes s ++ [fd]) →
  (∀ fd s r s', await_op (File (close_file fd)) s = (r, s') → closes s' = closes s ++ [fd]) →
  f s = (None, s') → closes s' = closes s →
  drop_file await_op raw_file (with_std_file std_close raw_file f s).2 = Val s'' →
  closes s'' = closes s ++ [raw_file; raw_file].
Proof.
  intros Hstd Hop Hf Hs. unfold with_std_file. rewrite Hf. simpl. unfold drop_file, await. simpl.
  destruct (await_op _ _) as [[n|e] s2] eqn:Ha; [|done]. intros [= <-]. apply Hop in Ha.
  by rewrite Ha, Hstd, Hs, <- (assoc_L (++)).
Qed.

(** ** A system

    Descriptors are numbered in the order they are opened; an address can be
    bound if [good] says so. *)
Module Sys.

Section sys.
Context {Addr : Type} (good : Addr → bool).

Definition State : Type := nat * list (Z * SockCall Addr).

Definition live (s : State) : gset Z := list_to_set (Z.of_nat <$> seq 0 s.1).
Definition log (s : State) : list (Z * SockCall Addr) := s.2.

Definition await_op (op : IoOp) (s : State) : Result Z * State :=
  match op with
  | File (socket _ _ _) => (Ok (Z.of_nat s.1), (S s.1, s.2))
  | _ => (Err (OsError 95), s)
  end.

Definition sock_call (fd : Z) (c : SockCall Addr) (s : State) : Result () * State :=
  (match c with Bind a => if good a then Ok () else Err (OsError 98) | _ => Ok () end, (s.1, s.2 ++ [(fd, c)])).

Lemma sys_laws : SocketLaws live log await_op sock_call.
Proof.
  split.
  - intros d t pr [n l] fd s' [= <- <-]. unfold live, log. cbn [fst snd]. split_and!; [| |done].
    + rewrite elem_of_list_to_set, list_elem_of_fmap. intros (k & Hk & Hin%elem_of_seq). lia.
    + rewrite seq_S, fmap_app, list_to_set_app_L. simpl. set_solver.
  - done.
  - intros fd c s r s' [= <- <-]. done.
Qed.

End sys.
End Sys.


Lemma unix_listener_abstract_witness :
  UnixListener_bind Sys.await_op Debug (λ _, Err (OsError 22)) (Sys.sock_call (λ _, true))
    (mkUnixAddr (mkSockAddr (unix_bytes [0; 120]) 4)) BindConfig_new (7%nat, []) =
    Val (Err (Simple InvalidInput), (8%nat, [])).
Proof.
  refine (proj1 (unix_listener_abstract Sys.live Sys.log Sys.await_op (Sys.sock_call (λ _, true)) (λ _, Err (OsError 22)) Debug
    [120] (mkUnixAddr (mkSockAddr (unix_bytes [0; 120]) 4)) BindConfig_new (7%nat, []) (8%nat, []) 7
    (Sys.sys_laws (λ _, true)) _ _ _)).
  - vm_compute. reflexivity.
  - vm_compute. reflexivity.
  - reflexivity.
Defined.
