(* ===== verification/Descriptors.v ===== *)
(** * Descriptors and the types that own them

    Models the part that the types of [src/src/net/] and [File] of
    [src/src/fs/file.rs] have in common: each holds a raw descriptor, gives it
    away or takes it ([src/src/io/sys/sockets_and_files/]), converts to and from the
    type of the standard library, and closes it when it is dropped. The steps
    of a program that uses such values, and of the kernel, then say which
    descriptors are open. Unix only: a [RawSocket] and a [RawFile] are a
    [RawFd], here a [Z]. *)

From Stdlib Require Import ZArith Lia.
From S2P Require Import Prelude IoTypes.
From S2P Require IoOps IoStreams Sockets.

Local Open Scope Z_scope.

(** ** The types *)
Record TcpStream := mkTcpStream { TcpStream_raw : Z }.
Record TcpListener := mkTcpListener { TcpListener_raw : Z }.
Record UdpSocket := mkUdpSocket { UdpSocket_raw : Z }.
Record UdpConnectedSocket := mkUdpConnectedSocket { UdpConnectedSocket_raw : Z }.
Record UnixStream := mkUnixStream { UnixStream_raw : Z }.
Record UnixListener := mkUnixListener { UnixListener_raw : Z }.
Record UnixDatagram := mkUnixDatagram { UnixDatagram_raw : Z }.
Record UnixConnectedDatagram := mkUnixConnectedDatagram { UnixConnectedDatagram_raw : Z }.
Record File := mkFile { File_raw : Z }.

(** ** Values that go out of scope

    A function that takes a value by [self] or by name owns it: when its body
    ends, what it has not moved on is dropped. [Plain v] is such a value,
    [Manual v] one in a [ManuallyDrop] or given to [mem::forget], whose [Drop]
    does not run. A function that consumes a value gives its result and the
    values it owns at its end. *)
Inductive Local (T : Type) := Plain (v : T) | Manual (v : T).
Arguments Plain {T} v.
Arguments Manual {T} v.

Definition ManuallyDrop_new {T} (v : T) : Local T := Manual v.
Definition deref {T} (x : Local T) : T := match x with Plain v => v | Manual v => v end.
Definition Local_map {A B} (f : A → B) (x : Local A) : Local B :=
  match x with Plain v => Plain (f v) | Manual v => Manual (f v) end.

(** The values whose [Drop] runs. *)
Definition dropped {T} (locals : list (Local T)) : list T :=
  omap (λ x, match x with Plain v => Some v | Manual _ => None end) locals.

(** *** The types of the standard library

    A value of one of them owns its descriptor: [into_raw_fd] gives it away,
    [from_raw_fd] takes it, and dropping the value closes it. *)
Record Std := mkStd { std_raw : Z }.
Definition std_into_raw_fd (v : Std) : Z * list (Local Std) := (std_raw v, [Manual v]).
Definition std_from_raw_fd (fd : Z) : Std := mkStd fd.

(** *** [IntoRawFd::into_raw_fd] *)
Definition TcpStream_into_raw_fd (self : TcpStream) : Z * list (Local TcpStream) :=
  let this := ManuallyDrop_new self in (TcpStream_raw (deref this), [this]).
Definition TcpListener_into_raw_fd (self : TcpListener) : Z * list (Local TcpListener) :=
  let this := ManuallyDrop_new self in (TcpListener_raw (deref this), [this]).
Definition UdpSocket_into_raw_fd (self : UdpSocket) : Z * list (Local UdpSocket) :=
  let this := ManuallyDrop_new self in (UdpSocket_raw (deref this), [this]).
Definition UdpConnectedSocket_into_raw_fd (self : UdpConnectedSocket) : Z * list (Local UdpConnectedSocket) :=
  let this := ManuallyDrop_new self in (UdpConnectedSocket_raw (deref this), [this]).
Definition UnixStream_into_raw_fd (self : UnixStream) : Z * list (Local UnixStream) :=
  let this := ManuallyDrop_new self in (UnixStream_raw (deref this), [this]).
Definition UnixListener_into_raw_fd (self : UnixListener) : Z * list (Local UnixListener) :=
  let this := ManuallyDrop_new self in (UnixListener_raw (deref this), [this]).
Definition UnixDatagram_into_raw_fd (self : UnixDatagram) : Z * list (Local UnixDatagram) :=
  let this := ManuallyDrop_new self in (UnixDatagram_raw (deref this), [this]).
Definition UnixConnectedDatagram_into_raw_fd (self : UnixConnectedDatagram) : Z * list (Local UnixConnectedDatagram) :=
  let this := ManuallyDrop_new self in (UnixConnectedDatagram_raw (deref this), [this]).
Definition File_into_raw_fd (self : File) : Z * list (Local File) :=
  let this := ManuallyDrop_new self in (File_raw (deref this), [this]).

(** *** The conversions to the types of the standard library *)
Definition TcpStream_into_std (v : TcpStream) : Std * list (Local TcpStream) :=
  let this := ManuallyDrop_new v in (std_from_raw_fd (TcpStream_raw (deref this)), [this]).
Definition TcpListener_into_std (v : TcpListener) : Std * list (Local TcpListener) :=
  let this := ManuallyDrop_new v in (std_from_raw_fd (TcpListener_raw (deref this)), [this]).
Definition UdpSocket_into_std (v : UdpSocket) : Std * list (Local UdpSocket) :=
  let this := ManuallyDrop_new v in (std_from_raw_fd (UdpSocket_raw (deref this)), [this]).
Definition UdpConnectedSocket_into_std (v : UdpConnectedSocket) : Std * list (Local UdpConnectedSocket) :=
  let this := ManuallyDrop_new v in (std_from_raw_fd (UdpConnectedSocket_raw (deref this)), [this]).
Definition UnixStream_into_std (v : UnixStream) : Std * list (Local UnixStream) :=
  let this := ManuallyDrop_new v in (std_from_raw_fd (UnixStream_raw (deref this)), [this]).
Definition UnixListener_into_std (v : UnixListener) : Std * list (Local UnixListener) :=
  let this := ManuallyDrop_new v in (std_from_raw_fd (UnixListener_raw (deref this)), [this]).
Definition UnixDatagram_into_std (v : UnixDatagram) : Std * list (Local UnixDatagram) :=
  let this := ManuallyDrop_new v in (std_from_raw_fd (UnixDatagram_raw (deref this)), [this]).
Definition UnixConnectedDatagram_into_std (v : UnixConnectedDatagram) : Std * list (Local UnixConnectedDatagram) :=
  let this := ManuallyDrop_new v in (std_from_raw_fd (UnixConnectedDatagram_raw (deref this)), [this]).
Definition File_into_std (v : File) : Std * list (Local File) :=
  let this := ManuallyDrop_new v in (std_from_raw_fd (File_raw (deref this)), [this]).

(** *** The conversions from them *)
Definition TcpStream_from_std (v : Std) : TcpStream * list (Local Std) :=
  let '(fd, locals) := std_into_raw_fd v in (mkTcpStream fd, locals).
Definition TcpListener_from_std (v : Std) : TcpListener * list (Local Std) :=
  let '(fd, locals) := std_into_raw_fd v in (mkTcpListener fd, locals).
Definition UdpSocket_from_std (v : Std) : UdpSocket * list (Local Std) :=
  let '(fd, locals) := std_into_raw_fd v in (mkUdpSocket fd, locals).
Definition UdpConnectedSocket_from_std (v : Std) : UdpConnectedSocket * list (Local Std) :=
  let '(fd, locals) := std_into_raw_fd v in (mkUdpConnectedSocket fd, locals).
Definition UnixStream_from_std (v : Std) : UnixStream * list (Local Std) :=
  let '(fd, locals) := std_into_raw_fd v in (mkUnixStream fd, locals).
Definition UnixListener_from_std (v : Std) : UnixListener * list (Local Std) :=
  let '(fd, locals) := std_into_raw_fd v in (mkUnixListener fd, locals).
Definition UnixDatagram_from_std (v : Std) : UnixDatagram * list (Local Std) :=
  let '(fd, locals) := std_into_raw_fd v in (mkUnixDatagram fd, locals).
Definition UnixConnectedDatagram_from_std (v : Std) : UnixConnectedDatagram * list (Local Std) :=
  let '(fd, locals) := std_into_raw_fd v in (mkUnixConnectedDatagram fd, locals).
Definition File_from_std (v : Std) : File * list (Local Std) :=
  let '(fd, locals) := std_into_raw_fd v in (mkFile fd, locals).

(** [File::with_std_file] and [with_std_mut_file]: a value of the standard
    library is made for the time of the call and forgotten at its end. *)
Definition with_std_file (self : File) : list (Local Std) :=
  let std_file := std_from_raw_fd (File_raw self) in [Manual std_file].

(** The traits [IntoRawFd], [AsRawFd], [AsFd] and [FromRawFd]. *)
Class RawDescriptor (T : Type) := {
  into_raw_fd : T → Z * list (Local T);
  as_raw_fd : T → Z;
  as_fd : T → Z;
  from_raw_fd : Z → T;
}.

#[export] Instance TcpStream_descriptor : RawDescriptor TcpStream :=
  {| into_raw_fd := TcpStream_into_raw_fd; as_raw_fd := TcpStream_raw; as_fd := TcpStream_raw;
     from_raw_fd := mkTcpStream |}.
#[export] Instance TcpListener_descriptor : RawDescriptor TcpListener :=
  {| into_raw_fd := TcpListener_into_raw_fd; as_raw_fd := TcpListener_raw; as_fd := TcpListener_raw;
     from_raw_fd := mkTcpListener |}.
#[export] Instance UdpSocket_descriptor : RawDescriptor UdpSocket :=
  {| into_raw_fd := UdpSocket_into_raw_fd; as_raw_fd := UdpSocket_raw; as_fd := UdpSocket_raw;
     from_raw_fd := mkUdpSocket |}.
#[export] Instance UdpConnectedSocket_descriptor : RawDescriptor UdpConnectedSocket :=
  {| into_raw_fd := UdpConnectedSocket_into_raw_fd; as_raw_fd := UdpConnectedSocket_raw; as_fd := UdpConnectedSocket_raw;
     from_raw_fd := mkUdpConnectedSocket |}.
#[export] Instance UnixStream_descriptor : RawDescriptor UnixStream :=
  {| into_raw_fd := UnixStream_into_raw_fd; as_raw_fd := UnixStream_raw; as_fd := UnixStream_raw;
     from_raw_fd := mkUnixStream |}.
#[export] Instance UnixListener_descriptor : RawDescriptor UnixListener :=
  {| into_raw_fd := UnixListener_into_raw_fd; as_raw_fd := UnixListener_raw; as_fd := UnixListener_raw;
     from_raw_fd := mkUnixListener |}.
#[export] Instance UnixDatagram_descriptor : RawDescriptor UnixDatagram :=
  {| into_raw_fd := UnixDatagram_into_raw_fd; as_raw_fd := UnixDatagram_raw; as_fd := UnixDatagram_raw;
     from_raw_fd := mkUnixDatagram |}.
#[export] Instance UnixConnectedDatagram_descriptor : RawDescriptor UnixConnectedDatagram :=
  {| into_raw_fd := UnixConnectedDatagram_into_raw_fd; as_raw_fd := UnixConnectedDatagram_raw; as_fd := UnixConnectedDatagram_raw;
     from_raw_fd := mkUnixConnectedDatagram |}.
#[export] Instance File_descriptor : RawDescriptor File :=
  {| into_raw_fd := File_into_raw_fd; as_raw_fd := File_raw; as_fd := File_raw;
     from_raw_fd := mkFile |}.

(** What clients rely on. *)
Class DescriptorLaws (T : Type) `{RawDescriptor T} : Prop := {
  into_from fd : (into_raw_fd (from_raw_fd (T := T) fd)).1 = fd;
  from_into (v : T) : from_raw_fd (into_raw_fd v).1 = v;
  into_keeps (v : T) : dropped (into_raw_fd v).2 = [];
  as_into (v : T) : as_raw_fd v = (into_raw_fd v).1 ∧ as_fd v = (into_raw_fd v).1;
}.

Ltac solve_laws := by split; [|intros []| |].

#[export] Instance TcpStream_laws : DescriptorLaws TcpStream.
Proof. solve_laws. Qed.
#[export] Instance TcpListener_laws : DescriptorLaws TcpListener.
Proof. solve_laws. Qed.
#[export] Instance UdpSocket_laws : DescriptorLaws UdpSocket.
Proof. solve_laws. Qed.
#[export] Instance UdpConnectedSocket_laws : DescriptorLaws UdpConnectedSocket.
Proof. solve_laws. Qed.
#[export] Instance UnixStream_laws : DescriptorLaws UnixStream.
Proof. solve_laws. Qed.
#[export] Instance UnixListener_laws : DescriptorLaws UnixListener.
Proof. solve_laws. Qed.
#[export] Instance UnixDatagram_laws : DescriptorLaws UnixDatagram.
Proof. solve_laws. Qed.
#[export] Instance UnixConnectedDatagram_laws : DescriptorLaws UnixConnectedDatagram.
Proof. solve_laws. Qed.
#[export] Instance File_laws : DescriptorLaws File.
Proof. solve_laws. Qed.

(** [Drop] of each type takes the future of [close] and executes it as a local
    task of its own. *)
Class AutoClose (T : Type) := close : T → IoOps.IoFuture ().

#[export] Instance TcpStream_close : AutoClose TcpStream := λ v, IoOps.CloseSocket (as_raw_fd v).
#[export] Instance TcpListener_close : AutoClose TcpListener := λ v, IoOps.CloseSocket (as_raw_fd v).
#[export] Instance UdpSocket_close : AutoClose UdpSocket := λ v, IoOps.CloseSocket (as_raw_fd v).
#[export] Instance UdpConnectedSocket_close : AutoClose UdpConnectedSocket := λ v, IoOps.CloseSocket (as_raw_fd v).
#[export] Instance UnixStream_close : AutoClose UnixStream := λ v, IoOps.CloseSocket (as_raw_fd v).
#[export] Instance UnixListener_close : AutoClose UnixListener := λ v, IoOps.CloseSocket (as_raw_fd v).
#[export] Instance UnixDatagram_close : AutoClose UnixDatagram := λ v, IoOps.CloseSocket (as_raw_fd v).
#[export] Instance UnixConnectedDatagram_close : AutoClose UnixConnectedDatagram := λ v, IoOps.CloseSocket (as_raw_fd v).
#[export] Instance File_close : AutoClose File := λ v, IoOps.CloseFile (as_raw_fd v).

(** ** Values of a program *)
Inductive Value :=
| VTcpStream (v : TcpStream)
| VTcpListener (v : TcpListener)
| VUdpSocket (v : UdpSocket)
| VUdpConnectedSocket (v : UdpConnectedSocket)
| VUnixStream (v : UnixStream)
| VUnixListener (v : UnixListener)
| VUnixDatagram (v : UnixDatagram)
| VUnixConnectedDatagram (v : UnixConnectedDatagram)
| VFile (v : File).

Inductive Kind :=
| KTcpStream
| KTcpListener
| KUdpSocket
| KUdpConnectedSocket
| KUnixStream
| KUnixListener
| KUnixDatagram
| KUnixConnectedDatagram
| KFile.

Definition value_raw (v : Value) : Z :=
  match v with
  | VTcpStream v => as_raw_fd v
  | VTcpListener v => as_raw_fd v
  | VUdpSocket v => as_raw_fd v
  | VUdpConnectedSocket v => as_raw_fd v
  | VUnixStream v => as_raw_fd v
  | VUnixListener v => as_raw_fd v
  | VUnixDatagram v => as_raw_fd v
  | VUnixConnectedDatagram v => as_raw_fd v
  | VFile v => as_raw_fd v
  end.

(** The consuming functions, on values of any of the types. *)
Definition lift {A T} (f : T → Value) (r : A * list (Local T)) : A * list (Local Value) :=
  (r.1, Local_map f <$> r.2).

Definition value_into_raw (v : Value) : Z * list (Local Value) :=
  match v with
  | VTcpStream v => lift VTcpStream (into_raw_fd v)
  | VTcpListener v => lift VTcpListener (into_raw_fd v)
  | VUdpSocket v => lift VUdpSocket (into_raw_fd v)
  | VUdpConnectedSocket v => lift VUdpConnectedSocket (into_raw_fd v)
  | VUnixStream v => lift VUnixStream (into_raw_fd v)
  | VUnixListener v => lift VUnixListener (into_raw_fd v)
  | VUnixDatagram v => lift VUnixDatagram (into_raw_fd v)
  | VUnixConnectedDatagram v => lift VUnixConnectedDatagram (into_raw_fd v)
  | VFile v => lift VFile (into_raw_fd v)
  end.

Definition value_into_std (v : Value) : Std * list (Local Value) :=
  match v with
  | VTcpStream v => lift VTcpStream (TcpStream_into_std v)
  | VTcpListener v => lift VTcpListener (TcpListener_into_std v)
  | VUdpSocket v => lift VUdpSocket (UdpSocket_into_std v)
  | VUdpConnectedSocket v => lift VUdpConnectedSocket (UdpConnectedSocket_into_std v)
  | VUnixStream v => lift VUnixStream (UnixStream_into_std v)
  | VUnixListener v => lift VUnixListener (UnixListener_into_std v)
  | VUnixDatagram v => lift VUnixDatagram (UnixDatagram_into_std v)
  | VUnixConnectedDatagram v => lift VUnixConnectedDatagram (UnixConnectedDatagram_into_std v)
  | VFile v => lift VFile (File_into_std v)
  end.

Definition value_close (v : Value) : IoOps.IoFuture () :=
  match v with
  | VTcpStream v => close v
  | VTcpListener v => close v
  | VUdpSocket v => close v
  | VUdpConnectedSocket v => close v
  | VUnixStream v => close v
  | VUnixListener v => close v
  | VUnixDatagram v => close v
  | VUnixConnectedDatagram v => close v
  | VFile v => close v
  end.

Definition value_from_raw (k : Kind) (fd : Z) : Value :=
  match k with
  | KTcpStream => VTcpStream (from_raw_fd fd)
  | KTcpListener => VTcpListener (from_raw_fd fd)
  | KUdpSocket => VUdpSocket (from_raw_fd fd)
  | KUdpConnectedSocket => VUdpConnectedSocket (from_raw_fd fd)
  | KUnixStream => VUnixStream (from_raw_fd fd)
  | KUnixListener => VUnixListener (from_raw_fd fd)
  | KUnixDatagram => VUnixDatagram (from_raw_fd fd)
  | KUnixConnectedDatagram => VUnixConnectedDatagram (from_raw_fd fd)
  | KFile => VFile (from_raw_fd fd)
  end.

Definition value_from_std (k : Kind) (v : Std) : Value * list (Local Std) :=
  match k with
  | KTcpStream => let '(x, locals) := TcpStream_from_std v in (VTcpStream x, locals)
  | KTcpListener => let '(x, locals) := TcpListener_from_std v in (VTcpListener x, locals)
  | KUdpSocket => let '(x, locals) := UdpSocket_from_std v in (VUdpSocket x, locals)
  | KUdpConnectedSocket => let '(x, locals) := UdpConnectedSocket_from_std v in (VUdpConnectedSocket x, locals)
  | KUnixStream => let '(x, locals) := UnixStream_from_std v in (VUnixStream x, locals)
  | KUnixListener => let '(x, locals) := UnixListener_from_std v in (VUnixListener x, locals)
  | KUnixDatagram => let '(x, locals) := UnixDatagram_from_std v in (VUnixDatagram x, locals)
  | KUnixConnectedDatagram => let '(x, locals) := UnixConnectedDatagram_from_std v in (VUnixConnectedDatagram x, locals)
  | KFile => let '(x, locals) := File_from_std v in (VFile x, locals)
  end.

Definition value_kind (v : Value) : Kind :=
  match v with
  | VTcpStream _ => KTcpStream
  | VTcpListener _ => KTcpListener
  | VUdpSocket _ => KUdpSocket
  | VUdpConnectedSocket _ => KUdpConnectedSocket
  | VUnixStream _ => KUnixStream
  | VUnixListener _ => KUnixListener
  | VUnixDatagram _ => KUnixDatagram
  | VUnixConnectedDatagram _ => KUnixConnectedDatagram
  | VFile _ => KFile
  end.

(** The connected type of a type of datagrams. *)
Definition connected_kind (k : Kind) : option Kind :=
  match k with
  | KUdpSocket => Some KUdpConnectedSocket
  | KUnixDatagram => Some KUnixConnectedDatagram
  | _ => None
  end.

(** The descriptor that the future of [close] closes. *)
Definition closed_by (f : IoOps.IoFuture ()) : option Z :=
  match IoOps.fut_op f with
  | IoTypes.File (close_socket fd) => Some fd
  | IoTypes.File (close_file fd) => Some fd
  | _ => None
  end.

Lemma value_close_raw v : closed_by (value_close v) = Some (value_raw v).
Proof. by destruct v. Qed.

Lemma value_raw_from k fd : value_raw (value_from_raw k fd) = fd.
Proof. by destruct k. Qed.

Lemma value_into_raw_spec v :
  (value_into_raw v).1 = value_raw v ∧ dropped (value_into_raw v).2 = [].
Proof. by destruct v. Qed.

Lemma value_into_std_spec v :
  std_raw (value_into_std v).1 = value_raw v ∧ dropped (value_into_std v).2 = [].
Proof. by destruct v. Qed.

Lemma value_from_std_spec k x :
  value_raw (value_from_std k x).1 = std_raw x ∧ dropped (value_from_std k x).2 = [].
Proof. by destruct k. Qed.

Lemma value_from_raw_kind v : value_from_raw (value_kind v) (value_raw v) = v.
Proof. by destruct v as [[]|[]|[]|[]|[]|[]|[]|[]|[]]. Qed.

(** *** [AsyncConnectDatagram]

    [connect_with_deadline] consumes the value and makes one of the connected
    type of its descriptor, which is the one that is connected. *)
Definition connect_value {St : Type} (await_op : IoOp → St → Result Z * St) (k : Kind) (v : Value)
    (addrs : Result (list (Z * Z))) (deadline : Z) (s : St) : Result Value * list (Local Value) * St :=
  let '(raw, locals) := value_into_raw v in
  match Sockets.connect_datagram_with_deadline await_op raw addrs deadline s with
  | (Ok fd, s) => (Ok (value_from_raw k fd), locals, s)
  | (Err e, s) => (Err e, locals, s)
  end.

Lemma each_addr_Ok {St Addr A : Type} (P : A → Prop) (f : Addr → St → Result A * St) addrs s a s' :
  (∀ addr s a s', f addr s = (Ok a, s') → P a) → IoOps.each_addr addrs f s = (Ok a, s') → P a.
Proof.
  intros Hf. destruct addrs as [addrs|]; simpl; [|done].
  enough (∀ res s, (∀ x, res ≠ Some (Ok x)) →
    ∀ r s', IoOps.each_addr_loop f addrs res s = (Some (Ok r), s') → P r) as He.
  { specialize (He None s). destruct (IoOps.each_addr_loop f addrs None s) as [[[]|] ?];
      intros [= -> ->]. by eapply He. }
  induction addrs as [|addr addrs IH]; intros res s0 Hres r s1; simpl.
  - intros [= -> _]. by destruct (Hres r).
  - destruct (f addr s0) as [[b|e] s2] eqn:E.
    + intros [= -> ->]. by eapply Hf.
    + by apply IH.
Qed.

Lemma connect_value_raw {St : Type} (await_op : IoOp → St → Result Z * St) k v addrs d s x locals s' :
  connect_value await_op k v addrs d s = (x, locals, s') →
  dropped locals = [] ∧ ∀ v', x = Ok v' → value_raw v' = value_raw v.
Proof.
  unfold connect_value. destruct (value_into_raw_spec v) as [Hraw Hd].
  destruct (value_into_raw v) as [raw l]. simpl in *. subst raw.
  destruct (Sockets.connect_datagram_with_deadline _ _ _ _ _) as [[fd|] s1] eqn:E;
    intros [= <- <- <-]; (split; [done|]); [|done].
  intros v' [= <-]. rewrite value_raw_from. revert E.
  unfold Sockets.connect_datagram_with_deadline. apply (each_addr_Ok (λ fd, fd = value_raw v)).
  intros addr s2 a s3. by destruct (IoOps.await _ _ _) as [[]]; intros [= <-].
Qed.

(** ** A program and the kernel

    [opened] are the descriptors that are open. The program holds values,
    values of the standard library ([stds]) and raw descriptors; [closing] are
    the tasks that a [Drop] has started and that have not finished; [lost] are
    descriptors that nothing refers to any more. *)
Record World := mkWorld {
  opened : gset Z;
  values : list Value;
  stds : list Std;
  raws : list Z;
  closing : list Z;
  lost : list Z;
}.

Definition nothing_open : World := mkWorld ∅ [] [] [] [] [].

Definition set_values (vs : list Value) (w : World) : World :=
  mkWorld (opened w) vs (stds w) (raws w) (closing w) (lost w).
Definition set_opened (o : gset Z) (w : World) : World :=
  mkWorld o (values w) (stds w) (raws w) (closing w) (lost w).
Definition set_stds (l : list Std) (w : World) : World :=
  mkWorld (opened w) (values w) l (raws w) (closing w) (lost w).
Definition set_raws (l : list Z) (w : World) : World :=
  mkWorld (opened w) (values w) (stds w) l (closing w) (lost w).
Definition set_closing (l : list Z) (w : World) : World :=
  mkWorld (opened w) (values w) (stds w) (raws w) l (lost w).
Definition set_lost (l : list Z) (w : World) : World :=
  mkWorld (opened w) (values w) (stds w) (raws w) (closing w) l.

(** Executing the future that a value's [close] makes. *)
Definition start_close (f : IoOps.IoFuture ()) (w : World) : World :=
  match closed_by f with
  | Some fd => set_closing (closing w ++ [fd]) w
  | None => w
  end.

(** A function or block ends that owns [locals]: their [Drop]s run. *)
Definition end_scope (locals : list (Local Value)) (w : World) : World :=
  foldl (λ w v, start_close (value_close v) w) w (dropped locals).

(** The same for values of the standard library, which close at once. *)
Definition end_scope_std (locals : list (Local Std)) (w : World) : World :=
  foldl (λ w v, set_opened (opened w ∖ {[std_raw v]}) w) w (dropped locals).

(** [explicit]: the program may also call [close] on a value it keeps. *)
Inductive wstep (explicit : bool) : World → World → Prop :=
| w_open k fd w :
    fd ∉ opened w →
    wstep explicit w (set_opened ({[fd]} ∪ opened w) (set_values (values w ++ [value_from_raw k fd]) w))
| w_bind_fails fd w :
    fd ∉ opened w → wstep explicit w (set_opened ({[fd]} ∪ opened w) (set_lost (lost w ++ [fd]) w))
| w_into_raw l v r fd locals w :
    values w = l ++ v :: r → value_into_raw v = (fd, locals) →
    wstep explicit w (end_scope locals (set_raws (raws w ++ [fd]) (set_values (l ++ r) w)))
| w_from_raw k l fd r w :
    raws w = l ++ fd :: r → wstep explicit w (set_values (values w ++ [value_from_raw k fd]) (set_raws (l ++ r) w))
| w_into_std l v r x locals w :
    values w = l ++ v :: r → value_into_std v = (x, locals) →
    wstep explicit w (end_scope locals (set_stds (stds w ++ [x]) (set_values (l ++ r) w)))
| w_from_std k l x r v locals w :
    stds w = l ++ x :: r → value_from_std k x = (v, locals) →
    wstep explicit w (end_scope_std locals (set_values (values w ++ [v]) (set_stds (l ++ r) w)))
| w_with_std_file l v r w :
    values w = l ++ VFile v :: r → wstep explicit w (end_scope_std (with_std_file v) w)
| w_connect await_op k l v r addrs deadline v' locals n n' w :
    values w = l ++ v :: r → connected_kind (value_kind v) = Some k →
    connect_value (St := nat) await_op k v addrs deadline n = (Ok v', locals, n') →
    wstep explicit w (end_scope locals (set_values (l ++ v' :: r) w))
| w_connect_fails await_op k l v r addrs deadline err locals n n' w :
    values w = l ++ v :: r → connected_kind (value_kind v) = Some k →
    connect_value (St := nat) await_op k v addrs deadline n = (Err err, locals, n') →
    wstep explicit w (end_scope locals (set_lost (lost w ++ [value_raw v]) (set_values (l ++ r) w)))
| w_drop l v r w :
    values w = l ++ v :: r → wstep explicit w (end_scope [Plain v] (set_values (l ++ r) w))
| w_std_drop l x r w :
    stds w = l ++ x :: r → wstep explicit w (end_scope_std [Plain x] (set_stds (l ++ r) w))
| w_closed l fd r w :
    closing w = l ++ fd :: r → fd ∈ opened w →
    wstep explicit w (set_opened (opened w ∖ {[fd]}) (set_closing (l ++ r) w))
| w_close l v r w :
    explicit = true → values w = l ++ v :: r → wstep explicit w (start_close (value_close v) w).

(** A task of a [Drop] is about to close a descriptor that is not open: the
    kernel refuses, and the [expect] of the task panics. *)
Definition close_fails (w : World) : Prop := ∃ fd, fd ∈ closing w ∧ fd ∉ opened w.

Definition holders (w : World) : list Z :=
  map value_raw (values w) ++ map std_raw (stds w) ++ raws w ++ closing w ++ lost w.

Record owned (w : World) : Prop := {
  ow_nodup : NoDup (holders w);
  ow_open : opened w = list_to_set (holders w);
}.

Lemma owned_perm w w' : owned w → holders w' ≡ₚ holders w → opened w' = opened w → owned w'.
Proof.
  intros [Hn Ho] Hp Heq. split; [by rewrite Hp|]. rewrite Heq, Ho. symmetry.
  by apply list_to_set_perm_L.
Qed.

Lemma owned_more fd w w' :
  owned w → fd ∉ opened w → holders w' ≡ₚ fd :: holders w → opened w' = {[fd]} ∪ opened w → owned w'.
Proof.
  intros [Hn Ho] Hfd Hp Heq. split.
  - rewrite Hp. constructor; [|done]. intros Hin. apply Hfd. rewrite Ho. by apply elem_of_list_to_set.
  - rewrite Heq, Ho, (list_to_set_perm_L _ _ Hp). done.
Qed.

Lemma owned_less fd w w' :
  owned w → holders w ≡ₚ fd :: holders w' → opened w' = opened w ∖ {[fd]} → owned w'.
Proof.
  intros [Hn Ho] Hp Heq. rewrite Hp in Hn. apply NoDup_cons in Hn as [Hfd Hn]. split; [done|].
  rewrite Heq, Ho, (list_to_set_perm_L _ _ Hp). simpl.
  assert (fd ∉ (list_to_set (holders w') : gset Z)) by (by rewrite elem_of_list_to_set). set_solver.
Qed.

(** Lists that differ in the place of an element. *)
Ltac holders_solve H :=
  unfold holders, start_close; rewrite ?value_close_raw; simpl; rewrite ?H, ?map_app; simpl; rewrite ?value_raw_from;
  solve_Permutation.

Lemma end_scope_nothing locals w : dropped locals = [] → end_scope locals w = w.
Proof. unfold end_scope. by intros ->. Qed.

Lemma end_scope_std_nothing locals w : dropped locals = [] → end_scope_std locals w = w.
Proof. unfold end_scope_std. by intros ->. Qed.

Lemma world_owned_step w w' : wstep false w w' → owned w → owned w'.
Proof.
  intros Hs Ho. destruct Hs as [k fd w Hfd|fd w Hfd|l v r fd locals w Hv Hi|k l fd r w Hr|l v r x locals w Hv Hi
    |k l x r v locals w Hr Hi|l v r w Hv|aw k l v r addrs d v' locals n n' w Hv Hk Hc
    |aw k l v r addrs d err locals n n' w Hv Hk Hc|l v r w Hv|l x r w Hr|l fd r w Hr Hfd|l v r w He Hv].
  - eapply owned_more; [done..| |done]. holders_solve w.
  - eapply owned_more; [done..| |done]. holders_solve w.
  - destruct (value_into_raw_spec v) as [Hx Hd]. rewrite Hi in Hx, Hd. simpl in Hx, Hd.
    rewrite (end_scope_nothing _ _ Hd). eapply owned_perm; [done| |done]. subst fd. holders_solve Hv.
  - eapply owned_perm; [done| |done]. holders_solve Hr.
  - destruct (value_into_std_spec v) as [Hx Hd]. rewrite Hi in Hx, Hd. simpl in Hx, Hd.
    rewrite (end_scope_nothing _ _ Hd). eapply owned_perm; [done| |done].
    unfold holders. simpl. rewrite Hv, !map_app. simpl. rewrite Hx. solve_Permutation.
  - destruct (value_from_std_spec k x) as [Hx Hd]. rewrite Hi in Hx, Hd. simpl in Hx, Hd.
    rewrite (end_scope_std_nothing _ _ Hd). eapply owned_perm; [done| |done].
    unfold holders. simpl. rewrite Hr, !map_app. simpl. rewrite Hx. solve_Permutation.
  - done.
  - apply connect_value_raw in Hc as [Hd Hc]. rewrite (end_scope_nothing _ _ Hd).
    eapply owned_perm; [done| |done].
    unfold holders. simpl. rewrite Hv, !map_app. simpl. by rewrite (Hc v').
  - apply connect_value_raw in Hc as [Hd _]. rewrite (end_scope_nothing _ _ Hd).
    eapply owned_perm; [done| |done]. holders_solve Hv.
  - unfold end_scope. simpl.
    eapply owned_perm; [done| |unfold start_close; by rewrite value_close_raw]. holders_solve Hv.
  - eapply owned_less; [done| |done]. holders_solve Hr.
  - eapply owned_less; [done| |done]. holders_solve Hr.
  - done.
Qed.



(** A program that calls [close] on a value it keeps closes the descriptor a
    second time when the value is dropped: the second task panics, or, if the
    number was given out again in between, closes the descriptor of a value
    that is still in use. *)
Theorem close_then_drop :
  (∃ w, rtc (wstep true) nothing_open w ∧ close_fails w) ∧
  ∃ w v, rtc (wstep true) nothing_open w ∧ v ∈ values w ∧ (value_raw v ∉ opened w) ∧ closing w = [].
Proof.
  split.
  - eexists. split.
    + eapply rtc_l; [apply (w_open true KTcpStream 3); set_solver|].
      eapply rtc_l; [by eapply (w_close true [])|].
      eapply rtc_l; [eapply (w_closed true []); [done|vm_compute; set_solver]|].
      eapply rtc_l; [by eapply (w_drop true [])|]. apply rtc_refl.
    + exists 3. vm_compute. set_solver.
  - eexists _, (VUdpSocket (mkUdpSocket 3)). split; [|split; [|split]].
    + eapply rtc_l; [apply (w_open true KTcpStream 3); set_solver|].
      eapply rtc_l; [by eapply (w_close true [])|].
      eapply rtc_l; [eapply (w_closed true []); [done|vm_compute; set_solver]|].
      eapply rtc_l; [apply (w_open true KUdpSocket 3); vm_compute; set_solver|].
      eapply rtc_l; [by eapply (w_drop true [])|].
      eapply rtc_l; [eapply (w_closed true []); [done|vm_compute; set_solver]|]. apply rtc_refl.
    + vm_compute. set_solver.
    + vm_compute. set_solver.
    + done.
Qed.
