(* ===== verification/Utils.v ===== *)
(** * Small utilities

    Models [src/src/utils/vec_map.rs] (a map from small integers, as a vector
    of options) and [src/src/utils/progressive_timeout.rs] (a timeout that
    doubles up to a bound). *)

From Stdlib Require Import ZArith Lia Sorting.Sorted.
From S2P Require Import Prelude.

(** ** [VecMap] *)
Section vec_map.
Context {V : Type}.

Record VecMap := mkVecMap { vm_inner : list (option V) }.

Definition VecMap_new : VecMap := mkVecMap [].

(** [get_mut], read. *)
Definition VecMap_get (m : VecMap) (key : nat) : option V := mjoin (vm_inner m !! key).

(** What [get_mut] returns, written through. *)
Definition VecMap_alter (f : V → V) (key : nat) (m : VecMap) : VecMap :=
  mkVecMap (alter (fmap f) key (vm_inner m)).

(** [insert], with the value it returns; the last branch of the source writes
    by index, which panics out of range. *)
Definition VecMap_insert (p : profile) (key : nat) (value : V) (m : VecMap)
    : outcome (VecMap * option V) :=
  let l := vm_inner m in
  debug_assert p (key <? length l + 100);;
  let l :=
    if length l <=? key then
      let new_len := (key + 1) `max` (length l * 12 / 10) in
      l ++ replicate (new_len - length l) None
    else l in
  match l !! key with
  | Some v => Val (mkVecMap (<[key := Some value]> l), v)
  | None => Panicked
  end.

Definition VecMap_clear (m : VecMap) : VecMap := mkVecMap [].

Definition VecMap_iter (m : VecMap) : list (nat * V) :=
  omap (λ iv, pair iv.1 <$> iv.2) (imap pair (vm_inner m)).

(** [retain] with its loop over the present entries. *)
Definition VecMap_retain (f : nat → V → bool) (m : VecMap) : VecMap :=
  mkVecMap (imap (λ i v, match v with
                         | Some x => if f i x then v else None
                         | None => None
                         end) (vm_inner m)).

Lemma VecMap_get_iter m i v : (i, v) ∈ VecMap_iter m ↔ VecMap_get m i = Some v.
Proof.
  unfold VecMap_iter, VecMap_get. rewrite list_elem_of_omap. split.
  - intros ([j o] & Hin & Ho). apply elem_of_lookup_imap in Hin as (k & x & [= <- <-] & Hk).
    simpl in *. destruct o; simplify_eq/=. by rewrite Hk.
  - intros Hg. destruct (vm_inner m !! i) as [[x|]|] eqn:Hi; simplify_eq/=. exists (i, Some v).
    split; [|done]. apply elem_of_lookup_imap. by exists i, (Some v).
Qed.

Lemma VecMap_insert_spec (p : profile) (m : VecMap) (k : nat) (v : V) :
  (p = Debug → k < length (vm_inner m) + 100) →
  ∃ m', VecMap_insert p k v m = Val (m', VecMap_get m k) ∧ k < length (vm_inner m') ∧
    ∀ k', VecMap_get m' k' = if decide (k' = k) then Some v else VecMap_get m k'.
Proof.
  intros Hk. destruct m as [l]. unfold VecMap_insert, VecMap_get. simpl in *.
  assert (debug_assert p (k <? length l + 100) = Val ()) as ->.
  { destruct p; [|done]. simpl. by rewrite (proj2 (Nat.ltb_lt _ _)) by auto. }
  simpl. set (l1 := if (_ : bool) then _ else l).
  assert (k < length l1 ∧ ∀ j, mjoin (l1 !! j) = mjoin (l !! j)) as [Hlt Hget].
  { unfold l1. destruct (Nat.leb_spec (length l) k); [|done].
    rewrite length_app, length_replicate. split; [lia|]. intros j.
    destruct (decide (j < length l)) as [Hj|Hj]; [by rewrite lookup_app_l by lia|].
    rewrite lookup_app_r, (lookup_ge_None_2 l j) by lia.
    destruct (replicate _ None !! _) eqn:Hr; [|done].
    by apply lookup_replicate in Hr as [-> _]. }
  destruct (lookup_lt_is_Some_2 l1 k Hlt) as [o Ho]. rewrite Ho. eexists.
  split; [rewrite <-Hget; by rewrite Ho|]. simpl. rewrite length_insert. split; [done|]. intros k'.
  destruct (decide (k' = k)) as [->|Hne].
  + by rewrite list_lookup_insert_eq.
  + rewrite list_lookup_insert_ne by done. apply Hget.
Qed.

(** What [insert] leaves when it returns. *)
Lemma VecMap_insert_get p k v m m' old :
  VecMap_insert p k v m = Val (m', old) →
  ∀ k', VecMap_get m' k' = if decide (k' = k) then Some v else VecMap_get m k'.
Proof.
  intros Hi. destruct (VecMap_insert_spec Release m k v) as (m1 & Hr & _ & Hg); [done|].
  assert (VecMap_insert Release k v m = Val (m', old)) as Hr'; [|rewrite Hr in Hr'; by simplify_eq].
  revert Hi. unfold VecMap_insert. destruct p; [|done]. by destruct (debug_assert _ _).
Qed.

Lemma VecMap_get_retain f m k :
  VecMap_get (VecMap_retain f m) k =
    match VecMap_get m k with Some x => if f k x then Some x else None | None => None end.
Proof.
  unfold VecMap_get, VecMap_retain. simpl. rewrite list_lookup_imap.
  destruct (vm_inner m !! k) as [[x|]|]; simpl; [|done..]. by destruct (f k x).
Qed.

Lemma VecMap_get_alter f k m k' :
  VecMap_get (VecMap_alter f k m) k' = if decide (k' = k) then f <$> VecMap_get m k else VecMap_get m k'.
Proof.
  unfold VecMap_get, VecMap_alter. simpl. case_decide; subst.
  - rewrite list_lookup_alter_eq. by destruct (vm_inner m !! k) as [[]|].
  - by rewrite list_lookup_alter_ne.
Qed.

Lemma VecMap_iter_NoDup m : NoDup (VecMap_iter m).*1.
Proof.
  unfold VecMap_iter. destruct m as [l]. simpl.
  assert (∀ n, NoDup (omap (λ iv : nat * option V, pair iv.1 <$> iv.2) (imap (λ i v, (n + i, v)) l)).*1 ∧
    ∀ k, k ∈ (omap (λ iv : nat * option V, pair iv.1 <$> iv.2) (imap (λ i v, (n + i, v)) l)).*1 → n ≤ k)
    as H; [|apply (H 0)].
  induction l as [|o l IH]; intros n; simpl; [split; [constructor|by intros ? ?%elem_of_nil]|].
  assert (imap ((λ i (v : option V), (n + i, v)) ∘ S) l = imap (λ i v, (S n + i, v)) l) as ->.
  { apply imap_ext. intros. simpl. f_equal. lia. }
  destruct (IH (S n)) as [H1 H2].
  destruct o as [v|]; simpl.
  - split.
    + constructor; [|done]. intros ?%H2. lia.
    + intros k [->|?%H2]%elem_of_cons; lia.
  - split; [done|]. intros k ?%H2. lia.
Qed.

(** A [VecMap] is a finite map: [insert] changes one key and returns what was
    there, in both profiles when the key is near, and always without the
    assertion; [retain] keeps exactly the entries that satisfy the predicate;
    and the iterator lists the entries, each key once. *)
Theorem vec_map_refines_map (p : profile) (m : VecMap) (k : nat) (v : V) (f : nat → V → bool) :
  (p = Debug → k < length (vm_inner m) + 100) →
  (∃ m', VecMap_insert p k v m = Val (m', VecMap_get m k) ∧
     ∀ k', VecMap_get m' k' = if decide (k' = k) then Some v else VecMap_get m k') ∧
  (∀ k', VecMap_get (VecMap_retain f m) k' =
     match VecMap_get m k' with Some x => if f k' x then Some x else None | None => None end) ∧
  (∀ k' x, (k', x) ∈ VecMap_iter m ↔ VecMap_get m k' = Some x) ∧
  NoDup (VecMap_iter m).*1.
Proof.
  intros Hk. split_and!; [|apply VecMap_get_retain|apply VecMap_get_iter|apply VecMap_iter_NoDup].
  destruct (VecMap_insert_spec p m k v Hk) as (m' & Hi & _ & Hg). by exists m'.
Qed.

End vec_map.

Arguments VecMap : clear implicits.

Lemma vec_map_refines_map_witness :
  ∃ m', VecMap_insert Debug 3 7%Z (mkVecMap [Some 1%Z]) = Val (m', None) ∧
    ∀ k', VecMap_get m' k' = if decide (k' = 3) then Some 7%Z else VecMap_get (mkVecMap [Some 1%Z]) k'.
Proof.
  apply (vec_map_refines_map Debug (mkVecMap [Some 1%Z]) 3 7%Z (λ _ _, true)). simpl. lia.
Defined.

(** ** [ProgressiveTimeout], in microseconds; the results of shifts stay
    below [2^64] as long as the bound is below [2^63]. *)
Section progressive_timeout.
Local Open Scope Z_scope.
Context (START_DUR_MICROS END_DUR_MICROS : Z).

Definition u64_wrap (x : Z) : Z := x `mod` 2 ^ 64.

Definition ProgressiveTimeout_new : Z := Z.max (Z.shiftr START_DUR_MICROS 1) 1.

Definition ProgressiveTimeout_double (current : Z) : Z :=
  if current <? END_DUR_MICROS then u64_wrap (Z.shiftl current 1) else current.

(** [timeout]: the new state and the duration. *)
Definition ProgressiveTimeout_timeout (current : Z) : Z * Z :=
  let current := ProgressiveTimeout_double current in (current, current).

Definition ProgressiveTimeout_timeout_with_shift (shift current : Z) : Z * Z :=
  let current := ProgressiveTimeout_double current in
  (current, u64_wrap (Z.shiftl current shift)).

Definition ProgressiveTimeout_reset (current : Z) : Z := Z.max (Z.shiftr START_DUR_MICROS 1) 1.

(** The [n]-th duration after a reset, from 0. *)
Fixpoint nth_state (n : nat) : Z :=
  match n with
  | O => ProgressiveTimeout_new
  | S n => (ProgressiveTimeout_timeout (nth_state n)).1
  end.

Definition nth_timeout (n : nat) : Z := (ProgressiveTimeout_timeout (nth_state n)).2.

(** The durations double from the start and stop at the bound, when the bound
    is the start times a power of two; so none exceeds the bound. *)
Theorem progressive_timeout_doubles (k n : nat) :
  2 ≤ START_DUR_MICROS → Z.Even START_DUR_MICROS →
  END_DUR_MICROS = START_DUR_MICROS * 2 ^ Z.of_nat k → END_DUR_MICROS < 2 ^ 63 →
  nth_timeout n = Z.min (START_DUR_MICROS * 2 ^ Z.of_nat n) END_DUR_MICROS ∧
  nth_timeout n ≤ END_DUR_MICROS.
Proof.
  intros H2 [h Hh] HE Hlt.
  assert (∀ i : nat, 0 < 2 ^ Z.of_nat i) as Hpos by (intros; apply Z.pow_pos_nonneg; lia).
  assert (∀ i, nth_state i = Z.min (h * 2 ^ Z.of_nat i) END_DUR_MICROS) as Hst.
  { induction i as [|i IH].
    - simpl. unfold ProgressiveTimeout_new. rewrite Z.shiftr_div_pow2 by lia.
      rewrite Hh, Z.mul_comm, Z.div_mul by lia. pose proof (Hpos k). rewrite HE, Hh. simpl. nia.
    - simpl. unfold ProgressiveTimeout_double. rewrite IH.
      rewrite Nat2Z.inj_succ, Z.pow_succ_r by lia.
      assert (h * 2 ^ Z.of_nat i < END_DUR_MICROS → h * 2 ^ Z.of_nat i * 2 ≤ END_DUR_MICROS) as Hstep.
      { intros Hi. rewrite HE, Hh in *.
        assert (i ≤ k)%nat as Hik.
        { destruct (decide (i ≤ k)%nat); [done|]. exfalso.
          assert (2 ^ Z.of_nat (S k) ≤ 2 ^ Z.of_nat i) as Hp by (apply Z.pow_le_mono_r; lia).
          rewrite Nat2Z.inj_succ, Z.pow_succ_r in Hp by lia. nia. }
        assert (2 ^ Z.of_nat i ≤ 2 ^ Z.of_nat k) by (apply Z.pow_le_mono_r; lia). nia. }
      destruct (Z.ltb_spec (Z.min (h * 2 ^ Z.of_nat i) END_DUR_MICROS) END_DUR_MICROS) as [Hi|Hi].
      + rewrite Z.min_l by lia. rewrite Z.min_l in Hi by lia.
        unfold u64_wrap. rewrite Z.shiftl_mul_pow2 by lia.
        pose proof (Hpos i). rewrite Z.mod_small by nia. lia.
      + pose proof (Hpos i). lia. }
  assert (nth_timeout n = nth_state (S n)) as -> by done.
  rewrite Hst. rewrite Nat2Z.inj_succ, Z.pow_succ_r, Hh by lia. split; [f_equal; lia|lia].
Qed.

End progressive_timeout.

(** The executor's instance: 64 microseconds, doubling up to 131072. *)
Lemma progressive_timeout_doubles_witness :
  nth_timeout 64 131072 3 = 512%Z ∧ (nth_timeout 64 131072 20 ≤ 131072)%Z.
Proof.
  assert (∀ n, nth_timeout 64 131072 n = Z.min (64 * 2 ^ Z.of_nat n) 131072 ∧
    nth_timeout 64 131072 n ≤ 131072)%Z as H.
  { intros n. apply (progressive_timeout_doubles 64 131072 11 n);
      [lia|exists 32%Z; lia|reflexivity|reflexivity]. }
  split; [|apply H]. destruct (H 3) as [Heq _]. rewrite Heq. reflexivity.
Defined.
