(* ===== verification/Config.v ===== *)
(** * Executor configuration

    Models [src/src/runtime/executor/config.rs], the worker configurations it
    embeds ([src/src/io/config.rs], [src/src/io/sys/worker_configs]) and the
    configurations that [src/src/run.rs] starts executors with.

    [ConfigStats] is a global that counts the running executors that share
    work, by the features they have; [validate] consults it so that a task
    never moves to an executor that lacks what the task needs. The global is
    read and changed under one spin lock, so [validate] and [drop] are steps;
    a panic inside [validate] releases the lock but keeps what was counted. *)

From Stdlib Require Import ZArith Lia.
From S2P Require Import Prelude.
Open Scope Z_scope.

(** ** Worker configurations *)
Record IOUringConfig := mkIOUringConfig { number_of_entries : Z }.
Record FallbackConfig := mkFallbackConfig { number_of_threads_per_executor : Z }.

Inductive ConfigError := NoEntries | NoFallbackThreads.

Definition IOUringConfig_default : IOUringConfig := mkIOUringConfig 256.
Definition IOUringConfig_validate (c : IOUringConfig) : () + ConfigError :=
  if 0 <? number_of_entries c then inl () else inr NoEntries.

Definition FallbackConfig_default : FallbackConfig := mkFallbackConfig 4.
Definition FallbackConfig_validate (c : FallbackConfig) : () + ConfigError :=
  if 0 <? number_of_threads_per_executor c then inl () else inr NoFallbackThreads.

Record IoWorkerConfig := mkIoWorkerConfig {
  io_uring : IOUringConfig;
  fallback : FallbackConfig;
  number_of_fixed_buffers : Z;
}.

Definition IoWorkerConfig_default : IoWorkerConfig :=
  mkIoWorkerConfig IOUringConfig_default FallbackConfig_default 16.

Definition IoWorkerConfig_validate (c : IoWorkerConfig) : () + ConfigError :=
  match IOUringConfig_validate (io_uring c) with
  | inr err => inr err
  | inl _ =>
      match FallbackConfig_validate (fallback c) with
      | inr err => inr err
      | inl _ => inl ()
      end
  end.

(** ** [Config] and its setters *)
Record Config := mkConfig {
  buffer_cap : Z;
  io_worker_config : option IoWorkerConfig;
  number_of_thread_workers : Z;
  work_sharing_level : Z;
}.

Definition DEFAULT_BUF_CAP : Z := 4096.

Definition Config_default : Config :=
  mkConfig DEFAULT_BUF_CAP (Some IoWorkerConfig_default) 1 7.

Definition set_buffer_cap (buf_cap : Z) (c : Config) : Config :=
  mkConfig buf_cap (io_worker_config c) (number_of_thread_workers c) (work_sharing_level c).

Definition set_io_worker_config (io : option IoWorkerConfig) (c : Config) : Config + ConfigError :=
  match io with
  | Some io =>
      match IoWorkerConfig_validate io with
      | inr err => inr err
      | inl _ =>
          inl (mkConfig (buffer_cap c) (Some io) (number_of_thread_workers c) (work_sharing_level c))
      end
  | None => inl (mkConfig (buffer_cap c) None (number_of_thread_workers c) (work_sharing_level c))
  end.

Definition disable_io_worker (c : Config) : Config :=
  mkConfig (buffer_cap c) None (number_of_thread_workers c) (work_sharing_level c).

Definition is_thread_pool_enabled (c : Config) : bool :=
  negb (number_of_thread_workers c =? 0).

Definition set_numbers_of_blocking_workers (n : Z) (c : Config) : Config :=
  mkConfig (buffer_cap c) (io_worker_config c) n (work_sharing_level c).

Definition is_work_sharing_enabled (c : Config) : bool :=
  negb (work_sharing_level c =? usize_MAX).

Definition set_level (level : Z) (c : Config) : Config :=
  mkConfig (buffer_cap c) (io_worker_config c) (number_of_thread_workers c) level.

Definition enable_work_sharing (c : Config) : Config :=
  if work_sharing_level c =? usize_MAX then set_level 7 c else c.

Definition disable_work_sharing (c : Config) : Config := set_level usize_MAX c.

Definition set_work_sharing_level (level : Z) (c : Config) : Config :=
  if level =? 0 then set_level 1 c else set_level level c.

(** ** The global counters *)
Record ConfigStats := mkConfigStats {
  with_io : Z;       (** [number_of_executors_with_enabled_io_worker_and_work_sharing] *)
  with_pool : Z;     (** [number_of_executors_with_enabled_thread_pool_and_work_sharing] *)
  without_io : Z;    (** [number_of_executors_with_work_sharing_and_without_io_worker] *)
  without_pool : Z;  (** [number_of_executors_with_work_sharing_and_without_thread_pool] *)
}.

Definition ConfigStats_new : ConfigStats := mkConfigStats 0 0 0 0.

(** Code under the lock: the counters survive a panic. *)
Definition StatsM (A : Type) : Type := ConfigStats → ConfigStats * outcome A.

Definition stats_ret {A} (a : A) : StatsM A := λ s, (s, Val a).
Definition stats_bind {A B} (m : StatsM A) (f : A → StatsM B) : StatsM B := λ s,
  match m s with
  | (s', Val a) => f a s'
  | (s', Panicked) => (s', Panicked)
  | (s', Undefined) => (s', Undefined)
  end.
Definition stats_panic_if (test : ConfigStats → bool) : StatsM () := λ s,
  (s, if test s then Panicked else Val ()).
Definition stats_update (f : ConfigStats → outcome ConfigStats) : StatsM () := λ s,
  match f s with
  | Val s' => (s', Val ())
  | Panicked => (s, Panicked)
  | Undefined => (s, Undefined)
  end.

Definition set_with_io (x : Z) (s : ConfigStats) : ConfigStats :=
  mkConfigStats x (with_pool s) (without_io s) (without_pool s).
Definition set_with_pool (x : Z) (s : ConfigStats) : ConfigStats :=
  mkConfigStats (with_io s) x (without_io s) (without_pool s).
Definition set_without_io (x : Z) (s : ConfigStats) : ConfigStats :=
  mkConfigStats (with_io s) (with_pool s) x (without_pool s).
Definition set_without_pool (x : Z) (s : ConfigStats) : ConfigStats :=
  mkConfigStats (with_io s) (with_pool s) (without_io s) x.

Definition has_io (c : Config) : bool := match io_worker_config c with Some _ => true | None => false end.

Definition validate_io (p : profile) (c : Config) : StatsM () :=
  if has_io c then
    stats_bind (stats_panic_if (λ s, negb (without_io s =? 0))) (λ _,
    stats_update (λ s, x ← usize_add p (with_io s) 1; Val (set_with_io x s)))
  else
    stats_bind (stats_panic_if (λ s, negb (with_io s =? 0))) (λ _,
    stats_update (λ s, x ← usize_add p (without_io s) 1; Val (set_without_io x s))).

Definition validate_pool (p : profile) (c : Config) : StatsM () :=
  if is_thread_pool_enabled c then
    stats_bind (stats_panic_if (λ s, negb (without_pool s =? 0))) (λ _,
    stats_update (λ s, x ← usize_add p (with_pool s) 1; Val (set_with_pool x s)))
  else
    stats_bind (stats_panic_if (λ s, negb (with_pool s =? 0))) (λ _,
    stats_update (λ s, x ← usize_add p (without_pool s) 1; Val (set_without_pool x s))).

(** [Config::validate]. A [ValidConfig] has the fields of the [Config] it came
    from, so it is that [Config], once this function has returned it. *)
Definition validate (p : profile) (c : Config) : StatsM Config :=
  if negb (work_sharing_level c =? usize_MAX) then
    stats_bind (validate_io p c) (λ _, stats_bind (validate_pool p c) (λ _, stats_ret c))
  else stats_ret c.

(** [ValidConfig::drop]. *)
Definition drop_config (p : profile) (c : Config) : StatsM () :=
  if negb (work_sharing_level c =? usize_MAX) then
    stats_bind
      (if has_io c then
         stats_update (λ s, x ← usize_sub p (with_io s) 1; Val (set_with_io x s))
       else
         stats_update (λ s, x ← usize_sub p (without_io s) 1; Val (set_without_io x s))) (λ _,
      if is_thread_pool_enabled c then
        stats_update (λ s, x ← usize_sub p (with_pool s) 1; Val (set_with_pool x s))
      else
        stats_update (λ s, x ← usize_sub p (without_pool s) 1; Val (set_without_pool x s)))
  else stats_ret ().

(** ** Starting and stopping executors

    [live] are the configurations of the executors that run, [made] counts
    the calls of [validate], [refused] those that panicked. *)
Record Sys := mkSys {
  stats : ConfigStats;
  live : list Config;
  made : Z;
  refused : nat;
}.

Definition init : Sys := mkSys ConfigStats_new [] 0 0.

Inductive step (p : profile) : Sys → Sys → Prop :=
| step_validate s c c' st :
    validate p c (stats s) = (st, Val c') →
    step p s (mkSys st (c' :: live s) (made s + 1) (refused s))
| step_refused s c st :
    validate p c (stats s) = (st, Panicked) →
    step p s (mkSys st (live s) (made s + 1) (S (refused s)))
| step_drop s l1 c l2 st :
    live s = l1 ++ c :: l2 →
    drop_config p c (stats s) = (st, Val ()) →
    step p s (mkSys st (l1 ++ l2) (made s) (refused s)).

(** How many of [l] share work and have a feature. *)
Definition sharing (f : Config → bool) (l : list Config) : Z :=
  Z.of_nat (length (filter (λ c, is_work_sharing_enabled c && f c) l)).

Definition no_io (c : Config) : bool := negb (has_io c).
Definition no_pool (c : Config) : bool := negb (is_thread_pool_enabled c).

(** A pair of counters covers the live executors that have and that lack a
    feature, exactly if [ex] (nothing was refused), and only one of the two is
    in use. *)
Record pair_ok (ex : Prop) (f : Config → bool) (l : list Config) (m on off : Z) : Prop := {
  po_on : sharing f l ≤ on ≤ m;
  po_off : sharing (negb ∘ f) l ≤ off ≤ m;
  po_excl : on = 0 ∨ off = 0;
  po_exact : ex → on = sharing f l ∧ off = sharing (negb ∘ f) l;
}.

Definition stats_ok (s : Sys) : Prop :=
  let ex := refused s = O in
  pair_ok ex has_io (live s) (made s) (with_io (stats s)) (without_io (stats s)) ∧
  pair_ok ex is_thread_pool_enabled (live s) (made s) (with_pool (stats s)) (without_pool (stats s)).

Lemma sharing_cons f c l :
  sharing f (c :: l) = sharing f l + (if is_work_sharing_enabled c && f c then 1 else 0).
Proof. unfold sharing. rewrite filter_cons. destruct (is_work_sharing_enabled c && f c); simpl; lia. Qed.

Lemma sharing_delete f l1 c l2 :
  sharing f (l1 ++ c :: l2) = sharing f (l1 ++ l2) + (if is_work_sharing_enabled c && f c then 1 else 0).
Proof.
  unfold sharing. rewrite !filter_app, filter_cons, !length_app.
  destruct (is_work_sharing_enabled c && f c); simpl; lia.
Qed.

Lemma sharing_nonneg f l : 0 ≤ sharing f l.
Proof. unfold sharing. lia. Qed.

(** The effect of [validate] on one pair of counters: the counter the
    configuration belongs to is raised if the other one is zero. *)
Inductive counted (b : bool) (on off on' off' : Z) : Prop :=
| counted_on : b = true → off = 0 → on' = on + 1 → off' = off → counted b on off on' off'
| counted_off : b = false → on = 0 → off' = off + 1 → on' = on → counted b on off on' off'.

Definition refused_by (b : bool) (on off : Z) : Prop := if b then off ≠ 0 else on ≠ 0.

Definition uncounted (on off on' off' : Z) : Prop := on' = on ∧ off' = off.

Definition small_pair (on off : Z) : Prop := 0 ≤ on < usize_MAX ∧ 0 ≤ off < usize_MAX.

Definition small (s : ConfigStats) : Prop :=
  small_pair (with_io s) (without_io s) ∧ small_pair (with_pool s) (without_pool s).

Lemma validate_io_spec p c s s' r :
  small_pair (with_io s) (without_io s) → validate_io p c s = (s', r) →
  with_pool s' = with_pool s ∧ without_pool s' = without_pool s ∧
  match r with
  | Val _ => counted (has_io c) (with_io s) (without_io s) (with_io s') (without_io s')
  | Panicked => refused_by (has_io c) (with_io s) (without_io s) ∧ s' = s
  | Undefined => False
  end.
Proof.
  unfold small_pair, usize_MAX. intros [Ha Hb].
  unfold validate_io, stats_bind, stats_panic_if, stats_update. destruct s as [a b d e]; simpl in *.
  destruct (has_io c); simpl; [destruct (Z.eqb_spec d 0)|destruct (Z.eqb_spec a 0)]; simpl;
    try (rewrite usize_add_Val by lia; simpl); intros ?; simplify_eq/=;
    split_and!; try done; constructor; by auto.
Qed.

Lemma validate_pool_spec p c s s' r :
  small_pair (with_pool s) (without_pool s) → validate_pool p c s = (s', r) →
  with_io s' = with_io s ∧ without_io s' = without_io s ∧
  match r with
  | Val _ =>
      counted (is_thread_pool_enabled c) (with_pool s) (without_pool s) (with_pool s') (without_pool s')
  | Panicked => refused_by (is_thread_pool_enabled c) (with_pool s) (without_pool s) ∧ s' = s
  | Undefined => False
  end.
Proof.
  unfold small_pair, usize_MAX. intros [Ha Hb].
  unfold validate_pool, stats_bind, stats_panic_if, stats_update. destruct s as [a b d e]; simpl in *.
  destruct (is_thread_pool_enabled c); simpl; [destruct (Z.eqb_spec e 0)|destruct (Z.eqb_spec b 0)]; simpl;
    try (rewrite usize_add_Val by lia; simpl); intros ?; simplify_eq/=;
    split_and!; try done; constructor; by auto.
Qed.

Lemma validate_spec p c s s' r :
  small s → validate p c s = (s', r) →
  let io := counted (has_io c) (with_io s) (without_io s) (with_io s') (without_io s') in
  let pool :=
    counted (is_thread_pool_enabled c) (with_pool s) (without_pool s) (with_pool s') (without_pool s') in
  match r with
  | Val c' => c' = c ∧ if is_work_sharing_enabled c then io ∧ pool else s' = s
  | Panicked =>
      is_work_sharing_enabled c = true ∧
      (io ∨ uncounted (with_io s) (without_io s) (with_io s') (without_io s')) ∧
      (pool ∨ uncounted (with_pool s) (without_pool s) (with_pool s') (without_pool s'))
  | Undefined => False
  end.
Proof.
  intros Hsm. unfold validate, is_work_sharing_enabled, stats_bind, stats_ret, uncounted.
  destruct (work_sharing_level c =? usize_MAX); simpl; [intros ?; by simplify_eq/=|].
  destruct (validate_io p c s) as [s1 r1] eqn:H1.
  destruct (validate_io_spec _ _ _ _ _ (proj1 Hsm) H1) as (Hp & Hn & Hr1).
  destruct r1 as [[]| |]; [|intros ?; simplify_eq/=; destruct Hr1 as [_ ->]; by auto 8|done].
  destruct (validate_pool p c s1) as [s2 r2] eqn:H2.
  apply validate_pool_spec in H2 as (Hio & Hno & Hr2); [|rewrite Hp, Hn; apply Hsm].
  rewrite <- Hio, <- Hno in Hr1. rewrite Hp, Hn in Hr2.
  destruct r2; intros ?; simplify_eq/=; [by auto|destruct Hr2 as [_ ->]; by auto 8|done].
Qed.

(** What an operation on one pair of counters does to [pair_ok]. *)
Lemma pair_ok_counted ex f c l m on off on' off' :
  pair_ok ex f l m on off → is_work_sharing_enabled c = true →
  counted (f c) on off on' off' → pair_ok ex f (c :: l) (m + 1) on' off'.
Proof.
  intros [H1 H2 H3 H4] Hw Hc. pose proof (sharing_nonneg f l). pose proof (sharing_nonneg (negb ∘ f) l).
  destruct Hc as [Hf Hz -> ->|Hf Hz -> ->]; constructor;
    rewrite ?sharing_cons, ?Hw; simpl; rewrite ?Hf; simpl; try lia;
    intros Hex; specialize (H4 Hex); lia.
Qed.

Lemma pair_ok_refused ex f l m on off on' off' b :
  pair_ok ex f l m on off → counted b on off on' off' ∨ uncounted on off on' off' →
  pair_ok False f l (m + 1) on' off'.
Proof.
  intros [H1 H2 H3 _] Hc. pose proof (sharing_nonneg f l). pose proof (sharing_nonneg (negb ∘ f) l).
  destruct Hc as [[Hf Hz -> ->|Hf Hz -> ->]|[-> ->]]; constructor; try lia; done.
Qed.

Lemma pair_ok_disabled ex f c l m on off :
  pair_ok ex f l m on off → is_work_sharing_enabled c = false → pair_ok ex f (c :: l) (m + 1) on off.
Proof.
  intros [H1 H2 H3 H4] Hw.
  constructor; rewrite ?sharing_cons, ?Hw; simpl; try lia. intros Hex; specialize (H4 Hex); lia.
Qed.

Lemma pair_ok_dropped ex f l1 c l2 m on off :
  pair_ok ex f (l1 ++ c :: l2) m on off →
  if is_work_sharing_enabled c then
    if f c then 1 ≤ on ∧ pair_ok ex f (l1 ++ l2) m (on - 1) off
    else 1 ≤ off ∧ pair_ok ex f (l1 ++ l2) m on (off - 1)
  else pair_ok ex f (l1 ++ l2) m on off.
Proof.
  intros [H1 H2 H3 H4]. rewrite !sharing_delete in *. simpl in *.
  pose proof (sharing_nonneg f (l1 ++ l2)). pose proof (sharing_nonneg (negb ∘ f) (l1 ++ l2)).
  destruct (is_work_sharing_enabled c); [destruct (f c); simpl in *; (split; [lia|])|simpl in *];
    constructor; try lia; intros Hex; specialize (H4 Hex); lia.
Qed.

Lemma pair_ok_bound ex f l m on off : pair_ok ex f l m on off → 0 ≤ on ≤ m ∧ 0 ≤ off ≤ m.
Proof.
  intros [H1 H2 _ _]. pose proof (sharing_nonneg f l). pose proof (sharing_nonneg (negb ∘ f) l). lia.
Qed.

Lemma stats_ok_small s : stats_ok s → made s < usize_MAX → small (stats s).
Proof. intros [H1%pair_ok_bound H2%pair_ok_bound] Hm. unfold small, small_pair. lia. Qed.

Lemma drop_config_spec p c s l1 l2 :
  stats_ok s → live s = l1 ++ c :: l2 →
  ∃ st, drop_config p c (stats s) = (st, Val ()) ∧ stats_ok (mkSys st (l1 ++ l2) (made s) (refused s)).
Proof.
  intros [H1 H2] Hl. rewrite Hl in H1, H2. apply pair_ok_dropped in H1, H2.
  unfold drop_config, is_work_sharing_enabled, stats_bind, stats_update, stats_ret, stats_ok in *.
  destruct s as [[a b d e] l m r]; simpl in *.
  destruct (work_sharing_level c =? usize_MAX); simpl in *; [by eauto|].
  destruct (has_io c); simpl; destruct H1 as [Hx H1]; rewrite usize_sub_Val by done; simpl;
    destruct (is_thread_pool_enabled c); simpl; destruct H2 as [Hy H2]; rewrite usize_sub_Val by done;
    simpl; eauto.
Qed.

Lemma stats_ok_step p s s' :
  stats_ok s → step p s s' → made s' ≤ usize_MAX → stats_ok s'.
Proof.
  intros Hok Hs Hm. destruct Hs as [s c c' st Hv|s c st Hv|s l1 c l2 st Hl Hd]; simpl in Hm.
  - pose proof (stats_ok_small s Hok ltac:(lia)) as Hsm. destruct Hok as [H1 H2].
    apply validate_spec in Hv as [-> Hc]; [|done]. unfold stats_ok; simpl.
    destruct (is_work_sharing_enabled c) eqn:Hw.
    + destruct Hc as [Hio Hpool]. split; by eapply pair_ok_counted.
    + subst st. split; by apply pair_ok_disabled.
  - pose proof (stats_ok_small s Hok ltac:(lia)) as Hsm. destruct Hok as [H1 H2].
    apply validate_spec in Hv as [_ [Hio Hpool]]; [|done].
    assert (Hf : ∀ f l m on off, pair_ok False f l m on off → pair_ok (S (refused s) = 0%nat) f l m on off).
    { intros f l m on off []. by constructor. }
    split; apply Hf; by eapply pair_ok_refused.
  - destruct (drop_config_spec p c s l1 l2 Hok Hl) as (st' & Hd' & Hok').
    rewrite Hd' in Hd. by simplify_eq.
Qed.

Lemma stats_ok_reachable p s :
  rtc (step p) init s → made s ≤ usize_MAX → stats_ok s.
Proof.
  intros Hr. pattern s. revert s Hr. apply rtc_ind_r; [repeat constructor; done|].
  intros s s' _ Hs IH Hm. eapply stats_ok_step; [|done..]. apply IH. destruct Hs; simpl in *; lia.
Qed.

Lemma sharing_pos f c l :
  c ∈ l → is_work_sharing_enabled c = true → f c = true → 1 ≤ sharing f l.
Proof.
  intros [l1 [l2 ->]]%list_elem_of_split Hw Hf. rewrite sharing_delete, Hw, Hf.
  pose proof (sharing_nonneg f (l1 ++ l2)). simpl. lia.
Qed.

Lemma sharing_none f l :
  (∀ c, c ∈ l → is_work_sharing_enabled c = true → f c = false) → sharing f l = 0.
Proof.
  induction l as [|c l IH]; intros Hl; [done|]. rewrite sharing_cons, IH by set_solver.
  destruct (is_work_sharing_enabled c) eqn:Hw; [|done]. by rewrite (Hl c) by set_solver.
Qed.

(** Live executors that share work agree on a feature. *)
Lemma pair_ok_agree ex f l m on off c1 c2 :
  pair_ok ex f l m on off → c1 ∈ l → c2 ∈ l →
  is_work_sharing_enabled c1 = true → is_work_sharing_enabled c2 = true → f c1 = f c2.
Proof.
  intros [H1 H2 H3 _] Hc1 Hc2 Hw1 Hw2.
  destruct (f c1) eqn:E1, (f c2) eqn:E2; try done.
  - pose proof (sharing_pos f c1 l Hc1 Hw1 E1).
    pose proof (sharing_pos (negb ∘ f) c2 l Hc2 Hw2 ltac:(simpl; by rewrite E2)). lia.
  - pose proof (sharing_pos f c2 l Hc2 Hw2 E2).
    pose proof (sharing_pos (negb ∘ f) c1 l Hc1 Hw1 ltac:(simpl; by rewrite E1)). lia.
Qed.

(** When the counters are exact, a configuration that agrees with the live
    ones on a feature is not refused because of it. *)
Lemma pair_ok_accepts (ex : Prop) f l m on off c :
  ex → pair_ok ex f l m on off →
  (∀ c', c' ∈ l → is_work_sharing_enabled c' = true → f c' = f c) → ¬ refused_by (f c) on off.
Proof.
  intros Hex [_ _ _ H4] Hagree. destruct (H4 Hex) as [-> ->]. unfold refused_by.
  destruct (f c); intros Hne; apply Hne, sharing_none; simpl; intros c' Hc' Hw;
    by rewrite (Hagree c' Hc' Hw).
Qed.

Definition agree (c c' : Config) : Prop :=
  has_io c' = has_io c ∧ is_thread_pool_enabled c' = is_thread_pool_enabled c.

Lemma validate_accepts p c s :
  small s → ¬ refused_by (has_io c) (with_io s) (without_io s) →
  ¬ refused_by (is_thread_pool_enabled c) (with_pool s) (without_pool s) →
  ∃ s', validate p c s = (s', Val c).
Proof.
  intros [Hs1 Hs2] H1 H2. unfold validate, stats_bind, stats_ret.
  destruct (negb _); [|by eauto].
  destruct (validate_io p c s) as [s1 r1] eqn:E1.
  destruct (validate_io_spec _ _ _ _ _ Hs1 E1) as (Hp & Hn & Hr1).
  destruct r1 as [[]| |]; [|by destruct Hr1|done].
  destruct (validate_pool p c s1) as [s2 r2] eqn:E2.
  apply validate_pool_spec in E2 as (_ & _ & Hr2); [|by rewrite Hp, Hn].
  rewrite Hp, Hn in Hr2. destruct r2 as [[]| |]; [by eauto|by destruct Hr2|done].
Qed.

(** C34: the executors that share work and run at the same time all have an IO
    worker or all lack one, and the same for a thread pool, also after
    configurations were refused; stopping any of them never underflows a
    counter. As long as nothing was refused the counters are exact, and a
    configuration is accepted if it agrees with the running executors. *)
Theorem config_agreement (p : profile) (s : Sys) :
  rtc (step p) init s → made s < usize_MAX →
  (∀ c1 c2, c1 ∈ live s → c2 ∈ live s →
    is_work_sharing_enabled c1 = true → is_work_sharing_enabled c2 = true → agree c1 c2) ∧
  (∀ l1 c l2, live s = l1 ++ c :: l2 → ∃ st, drop_config p c (stats s) = (st, Val ())) ∧
  (refused s = O →
    stats s = mkConfigStats (sharing has_io (live s)) (sharing is_thread_pool_enabled (live s))
                (sharing no_io (live s)) (sharing no_pool (live s)) ∧
    ∀ c, (∀ c', c' ∈ live s → is_work_sharing_enabled c' = true → agree c c') →
      ∃ st, validate p c (stats s) = (st, Val c)).
Proof.
  intros Hr Hm. pose proof (stats_ok_reachable p s Hr ltac:(lia)) as Hok.
  pose proof (stats_ok_small s Hok Hm) as Hsm. pose proof Hok as [H1 H2]. split_and!.
  - intros c1 c2 Hc1 Hc2 Hw1 Hw2. split; by eapply pair_ok_agree.
  - intros l1 c l2 Hl. destruct (drop_config_spec p c s l1 l2 Hok Hl) as (st & Hd & _). by exists st.
  - intros Hex. split.
    + destruct (po_exact _ _ _ _ _ _ H1 Hex), (po_exact _ _ _ _ _ _ H2 Hex).
      destruct (stats s); simpl in *. by subst.
    + intros c Hagree. apply validate_accepts; [done| |].
      * apply (pair_ok_accepts _ _ _ _ _ _ c Hex H1). intros c' Hc' Hw. by apply Hagree.
      * apply (pair_ok_accepts _ _ _ _ _ _ c Hex H2).
        intros c' Hc' Hw. by apply Hagree.
Qed.

(** A configuration refused because of its thread pool stays counted for its
    IO worker: after every executor has stopped, one without an IO worker is
    refused. *)
Theorem config_refusal_leaks (p : profile) :
  ∃ s st, rtc (step p) init s ∧ live s = [] ∧
    validate p (disable_io_worker Config_default) (stats s) = (st, Panicked).
Proof.
  pose (d := Config_default). pose (e := set_numbers_of_blocking_workers 0 d).
  exists (mkSys (mkConfigStats 1 0 0 0) [] 2 1). eexists. split_and!; [|done|destruct p; reflexivity].
  eapply rtc_l; [apply (step_validate p init d d (mkConfigStats 1 1 0 0)); by destruct p|].
  eapply rtc_l; [apply (step_refused p _ e (mkConfigStats 2 1 0 0)); by destruct p|].
  eapply rtc_l; [eapply (step_drop p _ [] d [] (mkConfigStats 1 0 0 0)); by destruct p|].
  done.
Qed.

(** ** [run.rs]: one executor per core

    [run_local_future_on_all_cores_with_config] and its shared counterpart:
    the configurations given to the executors on [cores], the first core's
    last. *)
Definition configs_on_all_cores {Core} (cores : list Core) (cfg : Config) : list Config :=
  map (λ _, cfg) (drop 1 cores) ++ [Config_default].

Fixpoint validate_all (p : profile) (l : list Config) : StatsM () :=
  match l with
  | [] => stats_ret ()
  | c :: l => stats_bind (validate p c) (λ _, validate_all p l)
  end.

Lemma validate_all_live p l s st :
  validate_all p l (stats s) = (st, Val ()) →
  ∃ s', rtc (step p) s s' ∧ live s' = reverse l ++ live s ∧ made s' = made s + Z.of_nat (length l).
Proof.
  revert s. induction l as [|c l IH]; intros s Hv; simpl in *.
  - exists s. split_and!; [done|done|lia].
  - unfold stats_bind in Hv. destruct (validate p c (stats s)) as [st1 [c'| |]] eqn:Hc; [|done..].
    destruct (IH (mkSys st1 (c' :: live s) (made s + 1) (refused s)) Hv) as (s' & Hr & Hl & Hm).
    assert (c' = c) as ->.
    { revert Hc. clear. unfold validate, stats_bind, stats_ret. destruct (negb _); [|by intros [= _ ->]].
      destruct (validate_io p c _) as [s1 [[]| |]]; [|done..].
      destruct (validate_pool p c s1) as [s2 [[]| |]]; [|done..]. by intros [= _ ->]. }
    exists s'. split_and!; [eapply rtc_l; [by apply (step_validate p s c)|done]| |simpl in *; lia].
    rewrite Hl, reverse_cons, <- app_assoc. done.
Qed.

(** The executor on the first core gets the default configuration instead of
    the one asked for: when that shares work without an IO worker and there
    are two cores or more, the executors cannot all start, in whatever order
    their threads come to it. *)
Theorem run_on_all_cores_ignores_config {Core} (p : profile) (cores : list Core) (cfg : Config)
    (order : list Config) (st : ConfigStats) :
  is_work_sharing_enabled cfg = true → has_io cfg = false →
  (2 ≤ length cores)%nat → Z.of_nat (length cores) < usize_MAX →
  order ≡ₚ configs_on_all_cores cores cfg →
  validate_all p order ConfigStats_new ≠ (st, Val ()).
Proof.
  intros Hw Hio Hlen Hmax Hperm Hv.
  destruct (validate_all_live p order init st Hv) as (s' & Hr & Hl & Hm).
  assert (length order = length cores) as Hlo.
  { rewrite (Permutation_length Hperm). unfold configs_on_all_cores.
    rewrite length_app, length_map, length_drop. simpl. lia. }
  simpl in Hl, Hm. rewrite app_nil_r in Hl.
  pose proof (stats_ok_reachable p s' Hr ltac:(lia)) as [H1 _].
  assert (∀ c, c ∈ configs_on_all_cores cores cfg → c ∈ live s') as Hin.
  { intros c Hc. rewrite Hl, elem_of_reverse. by rewrite Hperm. }
  enough (has_io cfg = has_io Config_default) by (rewrite Hio in *; done).
  eapply (pair_ok_agree _ _ _ _ _ _ cfg Config_default H1); try done; apply Hin; unfold configs_on_all_cores.
  - destruct cores as [|a [|b l]]; simpl in *; try lia. set_solver.
  - set_solver.
Qed.

(** ** Witnesses *)
Lemma config_agreement_witness :
  ∃ s, rtc (step Debug) init s ∧ made s < usize_MAX ∧ refused s = O ∧
    live s = [Config_default; Config_default] ∧
    ∃ st, validate Debug Config_default (stats s) = (st, Val Config_default).
Proof.
  pose (s := mkSys (mkConfigStats 2 2 0 0) [Config_default; Config_default] 2 0).
  assert (rtc (step Debug) init s) as Hr.
  { eapply rtc_l; [by apply (step_validate Debug init Config_default)|].
    eapply rtc_l; [by apply (step_validate Debug _ Config_default)|]. done. }
  exists s. split_and!; [done..|].
  destruct (config_agreement Debug s Hr eq_refl) as (_ & _ & Hex). apply Hex; [done|].
  intros c' Hc' _. apply elem_of_cons in Hc' as [->|Hc']; [done|]. by apply list_elem_of_singleton in Hc' as ->.
Defined.

Lemma run_on_all_cores_ignores_config_witness :
  let cfg := disable_io_worker Config_default in
  ∀ st, validate_all Release [Config_default; cfg] ConfigStats_new ≠ (st, Val ()).
Proof.
  intros cfg st. apply (run_on_all_cores_ignores_config Release [0; 1] cfg); [done..| ].
  simpl. by apply Permutation_swap.
Defined.
