(* ===== verification/IoUring.v ===== *)
(** * The IO worker on Linux

    Models [src/src/io/sys/linux/io_uring.rs]. The crate [io_uring] and the
    kernel behind it are a parameter: [RingOps] has the calls the worker
    makes and [RingLaws] what they are documented to do, in terms of what is
    in the submission queue, in the view of it that is being written, and in
    the kernel. *)

From Stdlib Require Import ZArith Lia Sorting.Sorted.
From S2P Require Import Prelude BTree Task Config IoTypes.

Local Open Scope Z_scope.

(** ** Entries of the submission and the completion queue *)
Inductive opcode :=
| Socket (domain sock_type protocol : Z)
| Accept (fd addr addrlen : Z)
| Connect (fd addr addrlen : Z)
| PollAdd (fd flags : Z)
| Recv (fd buf len flags : Z)
| RecvMsg (fd msg flags : Z)
| Send (fd buf len : Z)
| SendMsg (fd msg : Z)
| ReadFixed (fd buf len buf_index offset : Z)
| WriteFixed (fd buf len buf_index offset : Z)
| Shutdown (fd how : Z)
| OpenAt2 (dirfd path how : Z)
| Fallocate (fd len offset mode : Z)
| Fsync (fd : Z) (datasync : bool)
| Read (fd buf len offset : Z)
| Write (fd buf len offset : Z)
| Close (fd : Z)
| RenameAt (olddirfd oldpath newdirfd newpath : Z)
| MkDirAt (dirfd path mode : Z)
| UnlinkAt (dirfd path flags : Z)
| AsyncCancel (target : Z).

Record Entry := mkEntry { sqe_op : opcode; user_data : Z }.

Record Cqe := mkCqe { cqe_user_data : Z; cqe_result : Z }.

(** ** The library

    [ring_submit None] is [submit], [ring_submit (Some nsec)] is
    [submit_with_args(1, ..)] with that timeout; their answer is an error of
    the system or none. [ring_completions] is what [completion] and [sync]
    find, in order. *)
Class RingOps (R : Type) := {
  ring_submission : R → R;
  sq_is_full : R → bool;
  sq_push : Entry → R → bool * R;
  sq_sync : R → R;
  sq_drop : R → R;
  ring_submit : option Z → R → option Z * R;
  ring_completions : R → list Cqe * R;
}.

(** What a ring holds: [v_flushed] is what the kernel can see in the
    submission queue, [v_local] what was pushed to the open view since its
    last [sync], [v_stale] how many entries the kernel took since then and
    [v_kernel] the entries it took whose completions were not read yet. *)
Record View := mkView {
  v_capacity : nat;
  v_stale : nat;
  v_flushed : list Entry;
  v_local : list Entry;
  v_kernel : list Entry;
}.

Definition v_len (v : View) : nat := v_stale v + length (v_flushed v) + length (v_local v).

Class RingLaws (R : Type) `{RingOps R} := {
  view : R → View;
  (** A new view sees the present state of the queue. *)
  law_submission r : v_local (view r) = [] →
    view (ring_submission r) =
      mkView (v_capacity (view r)) 0 (v_flushed (view r)) [] (v_kernel (view r));
  law_is_full r : sq_is_full r = bool_decide (v_capacity (view r) ≤ v_len (view r))%nat;
  (** [push] fails on a full queue and otherwise adds to the view. *)
  law_push_full e r : sq_is_full r = true → sq_push e r = (false, r);
  law_push e r : sq_is_full r = false →
    ∃ r', sq_push e r = (true, r') ∧
      view r' = mkView (v_capacity (view r)) (v_stale (view r)) (v_flushed (view r))
        (v_local (view r) ++ [e]) (v_kernel (view r));
  (** [sync] flushes the view and learns what the kernel took. *)
  law_sync r : view (sq_sync r) =
    mkView (v_capacity (view r)) 0 (v_flushed (view r) ++ v_local (view r)) [] (v_kernel (view r));
  (** A view that is dropped is flushed. *)
  law_drop r : view (sq_drop r) =
    mkView (v_capacity (view r)) (v_stale (view r)) (v_flushed (view r) ++ v_local (view r)) []
      (v_kernel (view r));
  (** A submission takes entries from the front of what was flushed, and at
      least one, if there is one, when it succeeds. *)
  law_submit t r : ∃ taken rest, v_flushed (view r) = taken ++ rest ∧
    view (ring_submit t r).2 =
      mkView (v_capacity (view r)) (v_stale (view r) + length taken) rest (v_local (view r))
        (v_kernel (view r) ++ taken) ∧
    ((ring_submit t r).1 = None → v_flushed (view r) ≠ [] → taken ≠ []);
  (** Every completion is that of one entry the kernel took. *)
  law_completions r : ∃ done rest, v_kernel (view r) ≡ₚ done ++ rest ∧
    cqe_user_data <$> (ring_completions r).1 = user_data <$> done ∧
    view (ring_completions r).2 =
      mkView (v_capacity (view r)) (v_stale (view r)) (v_flushed (view r)) (v_local (view r)) rest;
}.

(** ** The worker *)
Record IOUringWorker (R : Type) := mkWorker {
  ring : R;
  backlog : list Entry;
  probe : Z → bool;
  time_bounded_io_task_queue : list (Z * Z);
  number_of_active_tasks : Z;
}.
Arguments mkWorker {R}.
Arguments ring {R}.
Arguments backlog {R}.
Arguments probe {R}.
Arguments time_bounded_io_task_queue {R}.
Arguments number_of_active_tasks {R}.

Definition ASYNC_CLOSE_DATA : Z := 2 ^ 64 - 1.

(** [opcode::Socket::CODE] *)
Definition Socket_CODE : Z := 45.

Definition AT_FDCWD : Z := -100.
Definition POLLIN : Z := 1.
Definition POLLOUT : Z := 4.
Definition MSG_PEEK : Z := 2.
Definition AT_REMOVEDIR : Z := 512.

(** [-1 as u64] *)
Definition CURRENT_POSITION : Z := 2 ^ 64 - 1.

(** ** The entry of each operation

    Builders leave the fields that are not set at zero. *)
Definition how_code (how : ShutdownHow) : Z :=
  match how with ShutdownRead => 0 | ShutdownWrite => 1 | ShutdownBoth => 2 end.

Definition accept_sqe (raw_socket addr_ptr addr_len : Z) : opcode := Accept raw_socket addr_ptr addr_len.
Definition connect_sqe (raw_socket addr_ptr addr_len : Z) : opcode := Connect raw_socket addr_ptr addr_len.
Definition poll_read_sqe (raw_socket : Z) : opcode := PollAdd raw_socket POLLIN.
Definition poll_write_sqe (raw_socket : Z) : opcode := PollAdd raw_socket POLLOUT.

(** With [Some i], for the fixed buffer [i]. *)
Definition recv_sqe (raw_socket ptr len : Z) (buf_index : option Z) : opcode :=
  match buf_index with
  | None => Recv raw_socket ptr len 0
  | Some i => ReadFixed raw_socket ptr len i 0
  end.
Definition send_sqe (raw_socket ptr len : Z) (buf_index : option Z) : opcode :=
  match buf_index with
  | None => Send raw_socket ptr len
  | Some i => WriteFixed raw_socket ptr len i 0
  end.

(** There is no operation that peeks into a fixed buffer. *)
Definition peek_sqe (raw_socket ptr len : Z) (buf_index : option Z) : opcode := Recv raw_socket ptr len MSG_PEEK.
Definition recv_from_sqe (raw_socket msg_header : Z) : opcode := RecvMsg raw_socket msg_header 0.
Definition send_to_sqe (raw_socket msg_header : Z) : opcode := SendMsg raw_socket msg_header.
Definition peek_from_sqe (raw_socket msg_header : Z) : opcode := RecvMsg raw_socket msg_header MSG_PEEK.

Definition net_sqe (op : NetOp) : opcode :=
  match op with
  | accept raw_socket addr_ptr addr_len => accept_sqe raw_socket addr_ptr addr_len
  | connect raw_socket addr_ptr addr_len => connect_sqe raw_socket addr_ptr addr_len
  | poll_socket_read raw_socket => poll_read_sqe raw_socket
  | poll_socket_write raw_socket => poll_write_sqe raw_socket
  | recv raw_socket ptr len => recv_sqe raw_socket ptr len None
  | recv_fixed raw_socket ptr len buf_index => recv_sqe raw_socket ptr len (Some buf_index)
  | recv_from raw_socket msg_header => recv_from_sqe raw_socket msg_header
  | send raw_socket ptr len => send_sqe raw_socket ptr len None
  | send_fixed raw_socket ptr len buf_index => send_sqe raw_socket ptr len (Some buf_index)
  | send_to raw_socket msg_header => send_to_sqe raw_socket msg_header
  | peek raw_socket ptr len => peek_sqe raw_socket ptr len None
  | peek_fixed raw_socket ptr len buf_index => peek_sqe raw_socket ptr len (Some buf_index)
  | peek_from raw_socket msg_header => peek_from_sqe raw_socket msg_header
  end.

(** The offset [None] is that of the file. *)
Definition file_offset (offset : option Z) : Z := default CURRENT_POSITION offset.
Definition read_sqe (raw_file ptr len : Z) (buf_index offset : option Z) : opcode :=
  match buf_index with
  | None => Read raw_file ptr len (file_offset offset)
  | Some i => ReadFixed raw_file ptr len i (file_offset offset)
  end.
Definition write_sqe (raw_file ptr len : Z) (buf_index offset : option Z) : opcode :=
  match buf_index with
  | None => Write raw_file ptr len (file_offset offset)
  | Some i => WriteFixed raw_file ptr len i (file_offset offset)
  end.
Definition shutdown_sqe (raw_socket : Z) (how : ShutdownHow) : opcode := Shutdown raw_socket (how_code how).
Definition sync_sqe (raw_file : Z) (datasync : bool) : opcode := Fsync raw_file datasync.
Definition close_sqe (fd : Z) : opcode := Close fd.
Definition rename_sqe (old_path new_path : Z) : opcode := RenameAt AT_FDCWD old_path AT_FDCWD new_path.
Definition remove_sqe (path : Z) (is_dir : bool) : opcode :=
  UnlinkAt AT_FDCWD path (if is_dir then AT_REMOVEDIR else 0).

Definition file_sqe (op : FileOp) : opcode :=
  match op with
  | socket domain sock_type protocol => Socket domain sock_type protocol
  | shutdown raw_socket how => shutdown_sqe raw_socket how
  | open path open_how => OpenAt2 AT_FDCWD path open_how
  | fallocate raw_file offset len flags => Fallocate raw_file len offset flags
  | sync_all raw_file => sync_sqe raw_file false
  | sync_data raw_file => sync_sqe raw_file true
  | read raw_file ptr len => read_sqe raw_file ptr len None None
  | read_fixed raw_file ptr len buf_index => read_sqe raw_file ptr len (Some buf_index) None
  | pread raw_file ptr len offset => read_sqe raw_file ptr len None (Some offset)
  | pread_fixed raw_file ptr len buf_index offset => read_sqe raw_file ptr len (Some buf_index) (Some offset)
  | write raw_file ptr len => write_sqe raw_file ptr len None None
  | write_fixed raw_file ptr len buf_index => write_sqe raw_file ptr len (Some buf_index) None
  | pwrite raw_file ptr len offset => write_sqe raw_file ptr len None (Some offset)
  | pwrite_fixed raw_file ptr len buf_index offset => write_sqe raw_file ptr len (Some buf_index) (Some offset)
  | close_file raw_file => close_sqe raw_file
  | close_socket raw_socket => close_sqe raw_socket
  | rename old_path new_path => rename_sqe old_path new_path
  | create_dir path mode => MkDirAt AT_FDCWD path mode
  | remove_file path => remove_sqe path false
  | remove_dir path => remove_sqe path true
  end.

Definition is_socket (op : FileOp) : bool :=
  match op with socket _ _ _ => true | _ => false end.

Section worker.
Context {R : Type} `{RingOps R}.
Implicit Types (w : IOUringWorker R).

Definition is_supported (w : IOUringWorker R) (code : Z) : bool := probe w code.

Definition IOUringWorker_new (r : option R) (probe : Z → bool) : outcome (IOUringWorker R) :=
  r ← expect r; Val (mkWorker r [] probe [] 0).

Definition set_ring (r : R) (bl : list Entry) (w : IOUringWorker R) : IOUringWorker R :=
  mkWorker r bl (probe w) (time_bounded_io_task_queue w) (number_of_active_tasks w).
Definition set_queue (q : list (Z * Z)) (w : IOUringWorker R) : IOUringWorker R :=
  mkWorker (ring w) (backlog w) (probe w) q (number_of_active_tasks w).
Definition set_active (n : Z) (w : IOUringWorker R) : IOUringWorker R :=
  mkWorker (ring w) (backlog w) (probe w) (time_bounded_io_task_queue w) n.

Definition add_sqe (p : profile) (sqe : Entry) (w : IOUringWorker R) : outcome (IOUringWorker R) :=
  n ← usize_add p (number_of_active_tasks w) 1;
  let w := set_active n w in
  let '(ok, r) := sq_push sqe (ring_submission (ring w)) in
  let r := sq_drop r in
  Val (set_ring r (if ok then backlog w else push_back (backlog w) sqe) w).

Definition register_entry (p : profile) (op : opcode) (data : Z) (w : IOUringWorker R)
    : outcome (IOUringWorker R) :=
  add_sqe p (mkEntry op data) w.

Definition cancel_entry (p : profile) (data : Z) (w : IOUringWorker R) : outcome (IOUringWorker R) :=
  add_sqe p (mkEntry (AsyncCancel data) ASYNC_CLOSE_DATA) w.

(** The loop of [check_deadlines]: it takes one entry from the queue per turn
    and puts the last one back. *)
Fixpoint check_deadlines_loop (p : profile) (now : Z) (q : list (Z * Z)) (w : IOUringWorker R)
    : outcome (IOUringWorker R) :=
  match q with
  | [] => Val (set_queue [] w)
  | (deadline, data) :: q =>
      if deadline <=? now then
        w ← cancel_entry p data w; check_deadlines_loop p now q w
      else Val (set_queue (btree_insert deadline data q) w)
  end.

Definition check_deadlines (p : profile) (now : Z) (w : IOUringWorker R) : outcome (IOUringWorker R) :=
  check_deadlines_loop p now (time_bounded_io_task_queue w) w.

(** The loop ends within one turn more than there are entries. *)
Definition register_time_bounded_io_task (data deadline : Z) (w : IOUringWorker R)
    : option (Z * IOUringWorker R) :=
  '(deadline, q) ← insert_first_free (S (length (time_bounded_io_task_queue w))) deadline data
    (time_bounded_io_task_queue w);
  Some (deadline, set_queue q w).

(** The loop of [submit_and_poll]: it takes one entry from the backlog per
    turn. An error is returned with what is left. *)
Fixpoint drain_backlog (bl : list Entry) (r : R) : option Z * list Entry * R :=
  let '(res, r) := if sq_is_full r then ring_submit None r else (None, r) in
  match res with
  | Some err => (if err =? EBUSY then None else Some err, bl, r)
  | None =>
      let r := sq_sync r in
      match bl with
      | [] => (None, [], r)
      | sqe :: bl => drain_backlog bl (sq_push sqe r).2
      end
  end.

(** [timeout.as_nanos() as u32] *)
Definition timespec_nsec (timeout : Z) : Z := u32_wrap timeout.

Definition submit_and_poll (timeout_option : option Z) (w : IOUringWorker R)
    : option Z * IOUringWorker R :=
  let '(err, bl, r) := drain_backlog (backlog w) (ring_submission (ring w)) in
  match err with
  | Some err => (Some err, set_ring (sq_drop r) bl w)
  | None =>
      let '(res, r) := ring_submit (timespec_nsec <$> timeout_option) r in
      let w := set_ring (sq_drop r) bl w in
      match res with
      | None => (None, w)
      | Some err => if (err =? ETIME) || (err =? EBUSY) then (None, w) else (Some err, w)
      end
  end.

(** [must_poll] up to the loop over the completions, which it returns. *)
Definition must_poll_begin (p : profile) (now : Z) (timeout_option : option Z) (w : IOUringWorker R)
    : outcome (list Cqe * IOUringWorker R) :=
  w ← check_deadlines p now w;
  let '(err, w) := submit_and_poll timeout_option w in
  match err with
  | Some _ => Panicked
  | None =>
      let '(cq, r) := ring_completions (ring w) in
      n ← usize_sub p (number_of_active_tasks w) (Z.of_nat (length cq));
      Val (cq, set_active n (set_ring r (backlog w) w))
  end.

Definition cqe_ret (ret : Z) : Result Z :=
  if 0 <=? ret then Ok ret
  else if ret =? - ECANCELED then Err (Simple TimedOut)
  else Err (OsError (- ret)).

(** One turn of the loop of [must_poll]. *)
Definition must_poll_turn (p : profile) (cqe : Cqe) (m : Mem) : outcome (Mem * list Action) :=
  if cqe_user_data cqe =? ASYNC_CLOSE_DATA then Val (m, [])
  else
    '(m, act) ← complete_request p (cqe_user_data cqe) (cqe_ret (cqe_result cqe)) m;
    Val (m, [act]).

(** [socket] on a kernel whose ring cannot create sockets; [answer] is that of
    [socket2::Socket::new]. The task is spawned as a local one. *)
Definition socket_now (p : profile) (answer : Result Z) (a : Z) (m : Mem)
    : outcome (Mem * list Action) :=
  f ← get_mut a m;
  '(t, d) ← IoRequestData_task p (set_ret answer (io_request_data f));
  Val (write_req a d m, [SpawnLocalTask t]).

(** The methods of the trait, [answer] as above. *)
Definition uring_request (answer : Result Z) (p : profile) (op : IoOp) (a : Z)
    (w : IOUringWorker R) (m : Mem) : outcome (IOUringWorker R * Mem * list Action) :=
  match op with
  | Net op => w ← register_entry p (net_sqe op) a w; Val (w, m, [])
  | NetWithDeadline op deadline =>
      '(deadline, w) ← unchecked (register_time_bounded_io_task a deadline w);
      w ← register_entry p (net_sqe op) a w;
      Val (w, write_deadline a deadline m, [])
  | File op =>
      if is_socket op && negb (is_supported w Socket_CODE)
      then '(m, acts) ← socket_now p answer a m; Val (w, m, acts)
      else w ← register_entry p (file_sqe op) a w; Val (w, m, [])
  end.

Definition uring_has_work (w : IOUringWorker R) : bool := 0 <? number_of_active_tasks w.

Definition uring_deregister (deadline : Z) (w : IOUringWorker R) : IOUringWorker R :=
  set_queue (btree_remove deadline (time_bounded_io_task_queue w)) w.

Definition uring_io_worker (answer : Result Z) : IoWorker (IOUringWorker R) := {|
  deregister_time_bounded_io_task := uring_deregister;
  has_work := uring_has_work;
  request := uring_request answer;
|}.

End worker.
