(* ===== verification/IoUringSystem.v ===== *)
(** * A thread and its io_uring worker

    The worker of [IoUring] with the futures that use it and the executor that
    polls it, as a step relation; the invariants that no request is lost and
    that deadlines belong to unfinished requests; and the runs in which they
    fail, on a concrete ring. *)

From Stdlib Require Import ZArith Lia Sorting.Sorted.
From S2P Require Import Prelude BTree Task Config IoTypes IoUring.

Local Open Scope Z_scope.

(** ** A thread with its worker

    Futures of the thread are polled, the executor polls the worker and then
    goes through the completions. A future is polled for the first time, when
    no request is at its address, or after its task was handed to the executor
    ([handed]): nothing else polls a future of this crate. [cancelled] is the
    requests for which the worker asked the kernel for a cancellation. *)
Section system.
Context {R : Type} `{RingLaws R}.

Record Sys := mkSys {
  worker : IOUringWorker R;
  mem : Mem;
  todo : list Cqe;
  handed : gset Z;
  cancelled : gset Z;
  now : Z;
}.

(** The poll of a future that makes this operation. *)
Definition io_poll (answer : Result Z) (p : profile) (a : Z) (t : Task) (op : IoOp)
    (w : IOUringWorker R) (m : Mem) : outcome (Poll (Result Z) * IOUringWorker R * Mem * list Action) :=
  let i := uring_io_worker answer in
  match op with
  | NetWithDeadline op deadline =>
      poll_for_time_bounded_io_request (H := i) p a t op deadline id w m
  | _ => poll_for_io_request (H := i) p a t op id w m
  end.

Definition due (now : Z) (q : list (Z * Z)) : list Z :=
  (filter (λ x, x.1 ≤ now) q).*2.

Inductive step (p : profile) : Sys → Sys → Prop :=
| step_begin s answer a t op w' m' acts :
    mem s !! a = None → 0 ≤ a < ASYNC_CLOSE_DATA →
    number_of_active_tasks (worker s) + 1 < usize_modulus →
    io_poll answer p a t op (worker s) (mem s) = Val (Pending, w', m', acts) →
    step p s (mkSys w' m' (todo s) (if acts is [] then handed s else {[a]} ∪ handed s)
                (cancelled s) (now s))
| step_poll s timeout cs w' :
    todo s = [] →
    number_of_active_tasks (worker s) + Z.of_nat (length (time_bounded_io_task_queue (worker s)))
      < usize_modulus →
    must_poll_begin p (now s) timeout (worker s) = Val (cs, w') →
    step p s (mkSys w' (mem s) cs (handed s)
      (list_to_set (due (now s) (time_bounded_io_task_queue (worker s))) ∪ cancelled s) (now s))
| step_turn s c cs m' acts :
    todo s = c :: cs → must_poll_turn p c (mem s) = Val (m', acts) →
    step p s (mkSys (worker s) m' cs
      (if acts is [] then handed s else {[cqe_user_data c]} ∪ handed s) (cancelled s) (now s))
| step_end s answer a t op r f w' m' :
    a ∈ handed s → mem s !! a = Some f → (op_deadline op = None ↔ fut_deadline f = None) →
    io_poll answer p a t op (worker s) (mem s) = Val (Ready r, w', m', []) →
    step p s (mkSys w' m' (todo s) (handed s ∖ {[a]}) (cancelled s ∖ {[a]}) (now s))
| step_round s now' :
    now s ≤ now' →
    step p s (mkSys (worker s) (mem s) (todo s) (handed s) (cancelled s) now').

Definition init (r : R) (probe : Z → bool) (now : Z) : Sys :=
  mkSys (mkWorker r [] probe [] 0) ∅ [] ∅ ∅ now.

(** ** Nothing is lost *)

(** The entries that were handed to the worker and not reported back. *)
Definition outstanding (w : IOUringWorker R) : list Entry :=
  backlog w ++ v_flushed (view (ring w)) ++ v_local (view (ring w)) ++ v_kernel (view (ring w)).

Definition is_request (data : Z) : Prop := data ≠ ASYNC_CLOSE_DATA.

Definition pending (s : Sys) : list Z :=
  filter is_request ((user_data <$> outstanding (worker s)) ++ (cqe_user_data <$> todo s)).

Record ring_ok (r : R) : Prop := {
  r_cap : (2 ≤ v_capacity (view r))%nat;
  r_local : v_local (view r) = [];
  r_len : (v_len (view r) ≤ v_capacity (view r))%nat;
}.

Record Inv (s : Sys) : Prop := {
  i_ring : ring_ok (ring (worker s));
  i_pending : pending s ≡ₚ elements (dom (mem s) ∖ handed s);
  i_handed : handed s ⊆ dom (mem s);
  i_active : number_of_active_tasks (worker s) = Z.of_nat (length (outstanding (worker s)));
  i_fresh a f : mem s !! a = Some f → a ∉ handed s → was_executed (io_request_data f) = false;
  i_sorted : keys_sorted (time_bounded_io_task_queue (worker s));
  i_ptr a : a ∈ dom (mem s) → is_request a;
}.

Lemma add_sqe_ok p e w :
  ring_ok (ring w) → number_of_active_tasks w + 1 < usize_modulus →
  ∃ w', add_sqe p e w = Val w' ∧ ring_ok (ring w') ∧ outstanding w' ≡ₚ e :: outstanding w ∧
    number_of_active_tasks w' = number_of_active_tasks w + 1 ∧ probe w' = probe w ∧
    time_bounded_io_task_queue w' = time_bounded_io_task_queue w.
Proof.
  intros [Hc Hl Hn] Ha. unfold add_sqe. rewrite usize_add_Val by done. cbn [mbind outcome_bind].
  simpl. pose proof (law_submission (ring w) Hl) as Hs. unfold v_len in *.
  destruct (sq_is_full (ring_submission (ring w))) eqn:Hf.
  - rewrite law_push_full by done. eexists. split; [done|]. unfold outstanding. simpl.
    rewrite law_drop, Hs. simpl. rewrite Hl in *. simpl in *. split_and!; try done.
    + split; rewrite ?law_drop, ?Hs; unfold v_len; rewrite ?law_drop, ?Hs; simpl;
        rewrite ?app_nil_r; simpl; lia || done.
    + unfold push_back. solve_Permutation.
  - destruct (law_push e _ Hf) as (r' & -> & Hv). eexists. split; [done|]. unfold outstanding. simpl.
    rewrite law_drop, Hv, Hs. simpl. rewrite Hl in *. simpl in *. split_and!; try done.
    + rewrite law_is_full, Hs in Hf. apply bool_decide_eq_false in Hf. unfold v_len in Hf. simpl in Hf.
      split; unfold v_len; rewrite ?law_drop, ?Hv, ?Hs; simpl; rewrite ?length_app; simpl; lia || done.
    + solve_Permutation.
Qed.

Definition cancel_of (data : Z) : Entry := mkEntry (AsyncCancel data) ASYNC_CLOSE_DATA.

(** [check_deadlines] asks for the cancellation of exactly the requests whose
    deadline has passed, in the order of the deadlines. *)
Lemma check_deadlines_loop_ok p now q w :
  ring_ok (ring w) → number_of_active_tasks w + Z.of_nat (length q) < usize_modulus →
  keys_sorted q →
  ∃ w', check_deadlines_loop p now q w = Val w' ∧ ring_ok (ring w') ∧ probe w' = probe w ∧
    outstanding w' ≡ₚ (cancel_of <$> due now q) ++ outstanding w ∧
    number_of_active_tasks w' = number_of_active_tasks w + Z.of_nat (length (due now q)) ∧
    time_bounded_io_task_queue w' = filter (λ x, now < x.1) q.
Proof.
  revert w. induction q as [|[d a] q IH]; intros w Hr Hn Hs; csimpl in *.
  - exists (set_queue [] w). split_and!; try done. simpl. lia.
  - pose proof Hs as Hs0. apply keys_sorted_cons in Hs as [Hd Hs]. unfold due in *. rewrite !filter_cons. simpl.
    destruct (Z.leb_spec d now) as [Hle|Hlt].
    + destruct (add_sqe_ok p (cancel_of a) w Hr) as (w1 & Hw1 & Hr1 & Ho1 & Hn1 & Hp1 & _); [lia|].
      unfold cancel_entry. unfold cancel_of in Hw1. rewrite Hw1. cbn [mbind outcome_bind].
      destruct (IH w1 Hr1) as (w2 & -> & Hr2 & Hp2 & Ho2 & Hn2 & Hq2); [lia|done|].
      exists w2. repeat case_decide; try lia. csimpl.
      split_and!; try done; [by rewrite Hp2| |lia]. rewrite Ho2, Ho1. solve_Permutation.
    + eexists. repeat case_decide; try lia.
      assert (filter (λ x : Z * Z, x.1 ≤ now) q = []) as Hnil.
      { apply filter_none. eapply Forall_impl; [done|]. simpl. lia. }
      assert (filter (λ x : Z * Z, now < x.1) q = q) as Hall.
      { apply filter_all. eapply Forall_impl; [done|]. simpl. lia. }
      rewrite Hnil, Hall. split; [done|]. split_and!; try done; [simpl; lia|]. simpl.
      by apply btree_insert_first.
Qed.

(** The state of a view in the loop of [submit_and_poll]. *)
Record drain_ok (r : R) : Prop := {
  d_cap : (2 ≤ v_capacity (view r))%nat;
  d_local : (length (v_local (view r)) ≤ 1)%nat;
  d_len : (v_len (view r) ≤ v_capacity (view r))%nat;
}.

Definition ring_entries (r : R) : list Entry :=
  v_flushed (view r) ++ v_local (view r) ++ v_kernel (view r).

Lemma submit_ok t r :
  drain_ok r → drain_ok (ring_submit t r).2 ∧
  ring_entries (ring_submit t r).2 ≡ₚ ring_entries r ∧
  ((ring_submit t r).1 = None → v_stale (view r) = 0%nat → v_capacity (view r) = v_len (view r) →
    (0 < v_stale (view (ring_submit t r).2))%nat).
Proof.
  intros [H1 H2 H3]. destruct (law_submit t r) as (taken & rest & Hf & Hv & Hne).
  unfold ring_entries, v_len in *. rewrite Hf, length_app in *. split_and!.
  - split; unfold v_len; rewrite Hv; simpl; lia.
  - rewrite Hv. simpl. solve_Permutation.
  - intros Hn Hst Hfull. rewrite Hv. simpl. destruct taken; simpl; [|lia]. exfalso.
    apply Hne; [done| |done]. destruct rest; [simpl in *; lia|done].
Qed.

(** After a turn of the loop the view has room for one more entry. *)
Lemma drain_turn_ok r :
  let '(res, r') := if sq_is_full r then ring_submit None r else (None, r) in
  drain_ok r → drain_ok r' ∧ ring_entries r' ≡ₚ ring_entries r ∧
  (res = None → drain_ok (sq_sync r') ∧ ring_entries (sq_sync r') ≡ₚ ring_entries r ∧
    v_local (view (sq_sync r')) = [] ∧ sq_is_full (sq_sync r') = false).
Proof.
  assert (∀ r', drain_ok r' → (v_len (view r') < v_capacity (view r') + v_stale (view r'))%nat →
    drain_ok (sq_sync r') ∧ ring_entries (sq_sync r') ≡ₚ ring_entries r' ∧
    v_local (view (sq_sync r')) = [] ∧ sq_is_full (sq_sync r') = false) as Hsync.
  { intros r' [H1 H2 H3] Hlt. unfold v_len in *. split_and!.
    - split; unfold v_len; rewrite law_sync; simpl; rewrite ?length_app; lia.
    - unfold ring_entries. rewrite law_sync. simpl. solve_Permutation.
    - by rewrite law_sync.
    - rewrite law_is_full. apply bool_decide_eq_false. unfold v_len. rewrite law_sync. simpl.
      rewrite length_app. lia. }
  destruct (sq_is_full r) eqn:Hf.
  - destruct (ring_submit None r) as [res r'] eqn:Hs. intros Hd.
    pose proof (submit_ok None r Hd) as (Hd' & He & Hst). rewrite Hs in *. simpl in *.
    split_and!; [done..|]. intros ->. rewrite law_is_full in Hf. apply bool_decide_eq_true in Hf.
    destruct (Hsync r' Hd') as (? & ? & ? & ?); [|split_and!; [done|by etrans|done..]].
    destruct (law_submit None r) as (taken & rest & Hfl & Hv & _). rewrite Hs in Hv. simpl in Hv.
    destruct Hd as [? ? Hlen], Hd' as [_ _ Hlen']. destruct (decide (v_stale (view r) = 0)%nat) as [Hz|Hz].
    + specialize (Hst eq_refl Hz). lia.
    + assert (0 < v_stale (view r'))%nat by (rewrite Hv; simpl; lia). lia.
  - intros Hd. split_and!; [done..|]. intros _. apply Hsync; [done|].
    rewrite law_is_full in Hf. apply bool_decide_eq_false in Hf. lia.
Qed.

Lemma drain_backlog_ok bl r :
  drain_ok r → ∃ err bl' r', drain_backlog bl r = (err, bl', r') ∧ drain_ok r' ∧
    bl' ++ ring_entries r' ≡ₚ bl ++ ring_entries r ∧
    ((∀ r, (ring_submit None r).1 ≠ Some EBUSY) → err = None → bl' = []).
Proof.
  revert r. induction bl as [|e bl IH]; intros r Hd; simpl; pose proof (drain_turn_ok r) as Ht;
    assert ((if sq_is_full r then ring_submit None r else (None, r)).1 = Some EBUSY →
      ¬ ∀ r, (ring_submit None r).1 ≠ Some EBUSY) as Hbusy
      by (destruct (sq_is_full r); [intros Hb Hn; by apply (Hn r)|done]);
    destruct (if sq_is_full r then ring_submit None r else (None, r)) as [res r1];
    destruct (Ht Hd) as (Hd1 & He1 & Hok); destruct res as [err|].
  - eexists _, _, _. split; [done|]. split_and!; [done|by rewrite He1|done].
  - destruct (Hok eq_refl) as (Hd2 & He2 & _). eexists _, _, _. split_and!; [done..|by rewrite He2|done].
  - eexists _, _, _. split; [done|]. split_and!; [done|by rewrite He1|].
    destruct (Z.eqb_spec err EBUSY) as [->|]; [|done]. intros Hn. by apply Hbusy in Hn.
  - destruct (Hok eq_refl) as (Hd2 & He2 & Hl2 & Hf2).
    destruct (law_push e _ Hf2) as (r3 & -> & Hv). simpl.
    assert (drain_ok r3) as Hd3.
    { destruct Hd2 as [H1 _ _]. rewrite law_is_full in Hf2. apply bool_decide_eq_false in Hf2.
      unfold v_len in Hf2. rewrite Hl2 in *.
      split; unfold v_len; rewrite Hv; simpl in *; lia. }
    destruct (IH r3 Hd3) as (err & bl' & r' & -> & Hd' & He' & Hnil).
    exists err, bl', r'. split_and!; [done..| |done]. rewrite He', <- He2. unfold ring_entries.
    rewrite Hv, Hl2. simpl. solve_Permutation.
Qed.

Lemma submit_and_poll_ok timeout w :
  ring_ok (ring w) → ∃ err w', submit_and_poll timeout w = (err, w') ∧ ring_ok (ring w') ∧
    outstanding w' ≡ₚ outstanding w ∧ probe w' = probe w ∧
    number_of_active_tasks w' = number_of_active_tasks w ∧
    time_bounded_io_task_queue w' = time_bounded_io_task_queue w ∧
    ((∀ r, (ring_submit None r).1 ≠ Some EBUSY) → err = None → backlog w' = []).
Proof.
  intros [H1 H2 H3]. unfold submit_and_poll, outstanding.
  pose proof (law_submission _ H2) as Hs. unfold v_len in H3. rewrite H2 in H3. simpl in H3.
  destruct (drain_backlog_ok (backlog w) (ring_submission (ring w)))
    as (err & bl & r & -> & Hd & He & Hnil).
  { split; unfold v_len; rewrite Hs; simpl; lia. }
  assert (∀ r, drain_ok r → ring_ok (sq_drop r) ∧ ring_entries (sq_drop r) ≡ₚ ring_entries r) as Hdrop.
  { intros r0 [? ? ?]. unfold v_len in *. split; [split; unfold v_len; rewrite law_drop; simpl;
      rewrite ?length_app; lia || done|].
    unfold ring_entries. rewrite law_drop. simpl. solve_Permutation. }
  assert (ring_entries (ring_submission (ring w)) = ring_entries (ring w)) as Hr
    by (unfold ring_entries; by rewrite Hs, H2).
  rewrite Hr in He. unfold ring_entries in He. destruct err as [err|].
  - destruct (Hdrop r Hd) as [? Hp]. eexists _, _. split; [done|]. simpl.
    split_and!; try done. unfold ring_entries in Hp. by rewrite Hp.
  - destruct (submit_ok (timespec_nsec <$> timeout) r Hd) as (Hd' & He' & _).
    destruct (ring_submit _ r) as [res r'] eqn:Hsub. simpl in *. destruct (Hdrop r' Hd') as [? Hp].
    rewrite He' in Hp. unfold ring_entries in Hp.
    destruct res as [err|]; [destruct ((err =? ETIME) || (err =? EBUSY))|]; eexists _, _;
      (split; [done|]); simpl; (split_and!; try done); try (by rewrite Hp); intros; by apply Hnil.
Qed.

(** Errors of a submission that [must_poll] expects. *)
Definition kernel_calm : Prop :=
  (∀ r e, (ring_submit None r).1 = Some e → e = EBUSY) ∧
  (∀ t r e, (ring_submit (Some t) r).1 = Some e → e = EBUSY ∨ e = ETIME).

Lemma submit_and_poll_calm timeout w : kernel_calm → (submit_and_poll timeout w).1 = None.
Proof.
  intros [Hc1 Hc2]. unfold submit_and_poll.
  assert (∀ bl r, (drain_backlog bl r).1.1 = None) as Hd.
  { induction bl as [|e bl IH]; intros r; simpl; (destruct (sq_is_full r);
      [pose proof (Hc1 r) as Hr; destruct (ring_submit None r) as [[err|] r'];
       [rewrite (Hr err eq_refl); done|]|]); done. }
  specialize (Hd (backlog w) (ring_submission (ring w))).
  destruct (drain_backlog _ _) as [[err bl] r]. simpl in Hd. subst err.
  destruct timeout as [t|]; simpl.
  - pose proof (Hc2 (timespec_nsec t) r) as Hr. destruct (ring_submit _ r) as [[err|] r']; [|done].
    by destruct (Hr err eq_refl) as [->| ->].
  - pose proof (Hc1 r) as Hr. destruct (ring_submit _ r) as [[err|] r']; [|done].
    by rewrite (Hr err eq_refl).
Qed.

Record poll_spec (now : Z) (w w' : IOUringWorker R) (cs : list Cqe) : Prop := {
  ps_ring : ring_ok (ring w');
  ps_done : ∃ done, cqe_user_data <$> cs = user_data <$> done ∧
    outstanding w' ++ done ≡ₚ (cancel_of <$> due now (time_bounded_io_task_queue w)) ++ outstanding w;
  ps_active : number_of_active_tasks w' = Z.of_nat (length (outstanding w'));
  ps_queue : time_bounded_io_task_queue w' = filter (λ x, now < x.1) (time_bounded_io_task_queue w);
  ps_probe : probe w' = probe w;
  ps_flush : (∀ r, (ring_submit None r).1 ≠ Some EBUSY) → backlog w' = [];
}.

Lemma must_poll_begin_ok p now timeout w :
  ring_ok (ring w) → keys_sorted (time_bounded_io_task_queue w) →
  number_of_active_tasks w = Z.of_nat (length (outstanding w)) →
  number_of_active_tasks w + Z.of_nat (length (time_bounded_io_task_queue w)) < usize_modulus →
  (must_poll_begin p now timeout w = Panicked ∧ ¬ kernel_calm) ∨
  ∃ cs w', must_poll_begin p now timeout w = Val (cs, w') ∧ poll_spec now w w' cs.
Proof.
  intros Hr Hs Ha Hlt. unfold must_poll_begin, check_deadlines.
  destruct (check_deadlines_loop_ok p now _ w Hr Hlt Hs) as (w1 & -> & Hr1 & Hp1 & Ho1 & Ha1 & Hq1).
  cbn [mbind outcome_bind]. pose proof (submit_and_poll_calm timeout w1) as Hcalm.
  destruct (submit_and_poll_ok timeout w1 Hr1) as (err & w2 & Heq & Hr2 & Ho2 & Hp2 & Ha2 & Hq2 & Hf2).
  rewrite Heq in *. simpl in Hcalm. destruct err as [err|].
  { left. split; [done|]. intros Hc%Hcalm. done. }
  right. destruct (law_completions (ring w2)) as (done & rest & Hk & Hud & Hv).
  destruct (ring_completions (ring w2)) as [cq r] eqn:Hcq. simpl in *.
  assert (outstanding (set_ring r (backlog w2) w2) ++ done ≡ₚ outstanding w2) as Hout.
  { unfold outstanding. simpl. rewrite Hv, Hk. simpl. solve_Permutation. }
  assert (length cq = length done) as Hlen
    by (rewrite <- (length_fmap cqe_user_data), Hud, length_fmap; done).
  assert (length (outstanding w2) = length (outstanding (set_ring r (backlog w2) w2)) + length done)%nat
    as Hl by (by rewrite <- Hout, length_app).
  rewrite Ho2, Ho1, length_app, length_fmap in Hl.
  rewrite usize_sub_Val by lia. cbn [mbind outcome_bind]. eexists _, _. split; [done|].
  split; simpl; try done.
  - destruct Hr2. split; unfold v_len in *; rewrite Hv; done.
  - exists done. split; [done|]. etrans; [exact Hout|]. by rewrite Ho2, Ho1.
  - change (number_of_active_tasks w2 - Z.of_nat (length cq) =
      Z.of_nat (length (outstanding (set_ring r (backlog w2) w2)))). lia.
  - by rewrite Hq2.
  - by rewrite Hp2.
  - intros Hn. by apply Hf2.
Qed.

(** What a request does to the queue of deadlines. *)
Definition queue_spec (op : IoOp) (a : Z) (dl : option Z) (q q' : list (Z * Z)) (f : Fut) : Prop :=
  match op_deadline op with
  | None => q' = q ∧ fut_deadline f = dl
  | Some d => ∃ k, d ≤ k ∧ (k ∉ q.*1) ∧ q' = btree_insert k a q ∧ fut_deadline f = Some k
  end.

(** A request either becomes one outstanding entry or, for a socket the ring
    cannot create, is done at once. *)
Record request_spec (op : IoOp) (a : Z) (dl : option Z) (w w' : IOUringWorker R) (f : Fut)
    (acts : list Action) : Prop := {
  rs_ring : ring_ok (ring w');
  rs_sorted : keys_sorted (time_bounded_io_task_queue w');
  rs_queue : queue_spec op a dl (time_bounded_io_task_queue w) (time_bounded_io_task_queue w') f;
  rs_entry :
    (acts = [] ∧ was_executed (io_request_data f) = false ∧
      number_of_active_tasks w' = number_of_active_tasks w + 1 ∧
      ∃ e, user_data e = a ∧ outstanding w' ≡ₚ e :: outstanding w) ∨
    (acts ≠ [] ∧ w' = w);
  rs_acts : is_Some (op_deadline op) → acts = [];
}.

Lemma uring_register_ok p op a dl d w f sqe :
  ring_ok (ring w) → keys_sorted (time_bounded_io_task_queue w) →
  number_of_active_tasks w + 1 < usize_modulus → was_executed (io_request_data f) = false →
  queue_spec op a dl (time_bounded_io_task_queue w) d f → keys_sorted d →
  ∃ w', register_entry p sqe a (set_queue d w) = Val w' ∧ request_spec op a dl w w' f [].
Proof.
  intros Hr Hs Hn Hf Hq Hd. unfold register_entry.
  destruct (add_sqe_ok p (mkEntry sqe a) (set_queue d w) Hr Hn) as (w' & -> & Hr' & Ho & Ha & _ & Hq').
  exists w'. split; [done|]. split; [done|by rewrite Hq'|by rewrite Hq'| |done]. left. split_and!; try done.
  by exists (mkEntry sqe a).
Qed.

Lemma set_queue_same (w : IOUringWorker R) : set_queue (time_bounded_io_task_queue w) w = w.
Proof. by destruct w. Qed.

Lemma uring_request_ok answer p op a t dl w m :
  ring_ok (ring w) → keys_sorted (time_bounded_io_task_queue w) →
  number_of_active_tasks w + 1 < usize_modulus →
  ∃ w' f acts,
    uring_request answer p op a w (<[a := mkFut (IoRequestData_new t) dl]> m) =
      Val (w', <[a := f]> m, acts) ∧ request_spec op a dl w w' f acts.
Proof.
  intros Hr Hs Hn. set (f := mkFut (IoRequestData_new t) dl).
  assert (∀ sqe op, op_deadline op = None → ∃ w', register_entry p sqe a w = Val w' ∧
    request_spec op a dl w w' f []) as Hplain.
  { intros sqe op' Hop. pose proof (uring_register_ok p op' a dl (time_bounded_io_task_queue w) w f sqe
      Hr Hs Hn eq_refl) as Hreg. rewrite set_queue_same in Hreg. apply Hreg; [|done]. unfold queue_spec. by rewrite Hop. }
  destruct op as [op|op d|op]; simpl.
  - destruct (Hplain (net_sqe op) (Net op)) as (w' & -> & Hw); [done|]. eexists _, _, _. by split.
  - unfold register_time_bounded_io_task.
    destruct (insert_first_free_spec d a (time_bounded_io_task_queue w)) as (k & -> & Hk & Hnk & _).
    simpl. set (f' := mkFut (IoRequestData_new t) (Some k)).
    destruct (uring_register_ok p (NetWithDeadline op d) a dl (btree_insert k a (time_bounded_io_task_queue w))
      w f' (net_sqe op)) as (w' & -> & Hw); try done.
    { exists k. done. } { by apply btree_insert_sorted. }
    eexists _, f', _. split; [|done]. simpl. unfold write_deadline. by rewrite alter_insert_eq.
  - destruct (is_socket op && negb (is_supported w Socket_CODE)).
    + unfold socket_now, get_mut. rewrite lookup_insert_eq. simpl.
      destruct p; simpl; unfold write_req; rewrite alter_insert_eq; eexists _, _, _; (split; [done|]);
        (split; [done..|by split|right; by split|by intros [? ?]]).
    + destruct (Hplain (file_sqe op) (File op)) as (w' & -> & Hw); [done|]. eexists _, _, _. by split.
Qed.

Lemma uring_io_poll_begin answer p a t op w m :
  m !! a = None →
  io_poll answer p a t op w m =
    ('(w, m, acts) ← uring_request answer p op a w (<[a := mkFut (IoRequestData_new t) (op_deadline op)]> m);
     Val (Pending, w, m, acts)).
Proof.
  intros Ha. destruct op; simpl;
    unfold poll_for_io_request, poll_for_time_bounded_io_request; by rewrite Ha.
Qed.

Lemma inv_begin p s answer a t op w' m' acts :
  Inv s → mem s !! a = None → 0 ≤ a < ASYNC_CLOSE_DATA →
  number_of_active_tasks (worker s) + 1 < usize_modulus →
  io_poll answer p a t op (worker s) (mem s) = Val (Pending, w', m', acts) →
  ∃ f, m' = <[a := f]> (mem s) ∧ request_spec op a (op_deadline op) (worker s) w' f acts ∧
  Inv (mkSys w' m' (todo s) (if acts is [] then handed s else {[a]} ∪ handed s)
                (cancelled s) (now s)).
Proof.
  intros [I1 I2 I3 I4 I5 I6 I7] Ha Hptr Hlt. rewrite uring_io_poll_begin by done.
  destruct (uring_request_ok answer p op a t (op_deadline op) (worker s) (mem s) I1 I6 Hlt)
    as (w1 & f & acts1 & -> & Hspec). simpl. intros [= <- <- <-]. exists f. split_and!; [done..|].
  apply not_elem_of_dom in Ha as Hna.
  assert (a ∉ handed s) as Hnh by set_solver.
  assert (is_request a) as Hra by (unfold is_request; lia).
  destruct Hspec as [Hr Hs _ [(-> & Hex & Hact & e & <- & Ho)|(Hne & ->)] _].
  - split; simpl; try done.
    + unfold pending. simpl. rewrite Ho. csimpl. rewrite filter_cons_True by done.
      rewrite dom_insert_L, difference_union_distr_l_L, (difference_disjoint_L {[_]}) by set_solver.
      rewrite elements_union_singleton by set_solver. f_equiv. exact I2.
    + set_solver.
    + rewrite Hact, Ho, I4. simpl. lia.
    + intros b g. rewrite lookup_insert. case_decide; [intros [= <-]; done|by apply I5].
    + intros b. rewrite dom_insert_L. set_unfold. intros [->|Hb]; [done|by apply I7].
  - destruct acts1; [done|]. split; simpl; try done.
    + unfold pending. simpl. rewrite dom_insert_L.
      replace (({[a]} ∪ dom (mem s)) ∖ ({[a]} ∪ handed s)) with (dom (mem s) ∖ handed s) by set_solver.
      exact I2.
    + set_solver.
    + intros b g. rewrite lookup_insert. case_decide; [set_solver|]. intros ? ?. eapply I5; [done|set_solver].
    + intros b. rewrite dom_insert_L. set_unfold. intros [->|Hb]; [done|by apply I7].
Qed.

Lemma filter_cancels (l : list Z) : filter is_request (user_data <$> (cancel_of <$> l)) = [].
Proof. apply filter_none. apply Forall_fmap, Forall_fmap, Forall_true. intros x. unfold is_request. simpl. lia. Qed.

Lemma inv_poll p s timeout cs w' c :
  Inv s → todo s = [] →
  number_of_active_tasks (worker s) + Z.of_nat (length (time_bounded_io_task_queue (worker s)))
    < usize_modulus →
  must_poll_begin p (now s) timeout (worker s) = Val (cs, w') →
  poll_spec (now s) (worker s) w' cs ∧ Inv (mkSys w' (mem s) cs (handed s) c (now s)).
Proof.
  intros [I1 I2 I3 I4 I5 I6 I7] Ht Hlt Hp.
  destruct (must_poll_begin_ok p (now s) timeout (worker s) I1 I6 I4 Hlt) as [[? _]|(cs1 & w1 & Hp1 & Hspec)];
    [congruence|]. rewrite Hp in Hp1. injection Hp1 as <- <-. split; [done|].
  destruct Hspec as [Hr (done & Hud & Ho) Ha Hq _ _]. split; simpl; try done.
  - unfold pending in *. simpl. rewrite Ht in I2. simpl in I2. rewrite app_nil_r in I2.
    rewrite Hud, <- fmap_app, Ho, fmap_app, filter_app, filter_cancels. exact I2.
  - rewrite Hq. eapply keys_sorted_sublist; [apply filter_sublist|done].
Qed.

(** The completion of a request finds it, with its task still in it. *)
Lemma inv_turn p s c cs ca :
  Inv s → todo s = c :: cs →
  ∃ m' acts, must_poll_turn p c (mem s) = Val (m', acts) ∧
    Inv (mkSys (worker s) m' cs
      (if acts is [] then handed s else {[cqe_user_data c]} ∪ handed s) ca (now s)) ∧
    (cqe_user_data c = ASYNC_CLOSE_DATA ∧ acts = [] ∧ m' = mem s ∨
     (cqe_user_data c ∉ handed s) ∧ ∃ f w, mem s !! cqe_user_data c = Some f ∧
      acts = [exec_or_spawn (task (io_request_data f))] ∧
      m' = <[cqe_user_data c := mkFut (mkIoRequestData (cqe_ret (cqe_result c))
              (task (io_request_data f)) w) (fut_deadline f)]> (mem s)).
Proof.
  intros [I1 I2 I3 I4 I5 I6 I7] Ht. unfold must_poll_turn, pending in *. rewrite Ht in I2. csimpl in I2.
  destruct (Z.eqb_spec (cqe_user_data c) ASYNC_CLOSE_DATA) as [Hc|Hc].
  { eexists _, _. split; [done|]. split; [|by left]. split; simpl; try done. unfold pending. simpl.
    rewrite filter_app, filter_cons_False in I2 by (unfold is_request; lia). by rewrite filter_app. }
  rewrite filter_app, filter_cons_True in I2 by done.
  set (a := cqe_user_data c) in *. rewrite <- Permutation_middle, <- filter_app in I2.
  assert (a ∈ dom (mem s) ∖ handed s) as Hin.
  { apply elem_of_elements. rewrite <- I2. by left. }
  apply elem_of_difference in Hin as [[f Hf]%elem_of_dom Hnh].
  unfold complete_request, get_mut. rewrite Hf. simpl. unfold IoRequestData_task, check_if_executed_in_debug.
  simpl. rewrite (I5 a f Hf Hnh). simpl.
  assert (∀ d, write_req a d (mem s) = <[a := mkFut d (fut_deadline f)]> (mem s)) as Hw.
  { intros d. unfold write_req. apply map_eq. intros b. destruct (decide (b = a)) as [->|].
    - by rewrite lookup_alter_eq, lookup_insert_eq, Hf.
    - by rewrite lookup_alter_ne, lookup_insert_ne. }
  assert (∀ f', Inv (mkSys (worker s) (<[a := f']> (mem s)) cs ({[a]} ∪ handed s) ca (now s))) as HI.
  { apply elem_of_dom_2 in Hf as Had. intros f'. split; simpl; try done.
    - unfold pending. simpl. rewrite dom_insert_lookup_L by eauto.
      apply (Permutation_cons_inv (a := a)). rewrite I2, <- elements_union_singleton by set_solver.
      f_equiv. intros b. destruct (decide (b = a)) as [->|]; set_solver.
    - rewrite dom_insert_L. set_solver.
    - intros b g. rewrite lookup_insert. case_decide; [set_solver|]. intros ? ?. eapply I5; [done|set_solver].
    - rewrite dom_insert_lookup_L by eauto. done. }
  destruct p; simpl; rewrite Hw; eexists _, _; (split; [done|]); (split; [apply HI|]); right;
    (split; [done|]); eauto.
Qed.

Lemma uring_io_poll_end answer p a t op w m f :
  m !! a = Some f → (op_deadline op = None ↔ fut_deadline f = None) →
  io_poll answer p a t op w m =
    Val (Ready (ret (io_request_data f)),
         match fut_deadline f, ret (io_request_data f) with
         | None, _ => w
         | Some d, Ok _ => uring_deregister d w
         | Some d, Err e => if decide (Error_kind e = TimedOut) then w else uring_deregister d w
         end, delete a m, []).
Proof.
  intros Ha Hd. destruct f as [[r t' we] [d|]]; destruct op; simpl in *;
    unfold poll_for_io_request, poll_for_time_bounded_io_request; rewrite Ha; simpl;
    destruct r as [x|e]; simpl; repeat case_decide; try done; naive_solver.
Qed.

Lemma inv_end p s answer a t op r f w' m' ca :
  Inv s → a ∈ handed s → mem s !! a = Some f → (op_deadline op = None ↔ fut_deadline f = None) →
  io_poll answer p a t op (worker s) (mem s) = Val (Ready r, w', m', []) →
  Inv (mkSys w' m' (todo s) (handed s ∖ {[a]}) ca (now s)).
Proof.
  intros [I1 I2 I3 I4 I5 I6 I7] Hh Hf Hd. rewrite (uring_io_poll_end _ _ _ _ _ _ _ f) by done.
  intros [= <- <- <-].
  assert (∀ w', ring w' = ring (worker s) → backlog w' = backlog (worker s) →
    number_of_active_tasks w' = number_of_active_tasks (worker s) →
    keys_sorted (time_bounded_io_task_queue w') →
    Inv (mkSys w' (delete a (mem s)) (todo s) (handed s ∖ {[a]}) ca (now s))) as HI.
  { intros w' Hr Hb Hn Hk. assert (outstanding w' = outstanding (worker s)) as Ho
      by (unfold outstanding; by rewrite Hr, Hb).
    split; simpl; rewrite ?Hr, ?Hn, ?Ho; try done.
    - unfold pending in *. simpl. rewrite Ho, dom_delete_L, I2. f_equiv. intros b. destruct (decide (b = a)); set_solver.
    - rewrite dom_delete_L. set_solver.
    - intros b g [Hne Hb']%lookup_delete_Some Hnh. eapply I5; [done|set_solver].
    - intros b. rewrite dom_delete_L. intros [? _]%elem_of_difference. by apply I7. }
  assert (∀ d, keys_sorted (btree_remove d (time_bounded_io_task_queue (worker s)))) as Hk
    by (intros d; eapply keys_sorted_sublist; [apply filter_sublist|done]).
  destruct (fut_deadline f), (ret (io_request_data f)); [| |by apply HI..].
  - apply HI; [done..|apply Hk].
  - case_decide; [by apply HI|]. apply HI; [done..|apply Hk].
Qed.

Lemma uring_inv_step p s s' : Inv s → step p s s' → Inv s'.
Proof.
  intros HI Hst. destruct Hst.
  - by edestruct inv_begin as (? & _ & _ & ?).
  - by eapply inv_poll.
  - edestruct inv_turn as (? & ? & Heq & ? & _); [done..|]. rewrite Heq in *. by simplify_eq.
  - by eapply inv_end.
  - by destruct HI.
Qed.

Lemma uring_inv_init r probe now : ring_ok r → ring_entries r = [] → Inv (init r probe now).
Proof.
  intros Hr He. assert (outstanding (mkWorker r [] probe [] 0) = []) as Ho by exact He.
  unfold init. split; cbn [worker mem todo handed]; try done.
  - unfold pending. cbn [worker todo]. rewrite Ho, dom_empty_L, difference_empty_L.
    by rewrite elements_empty.
  - by rewrite Ho.
  - constructor.
Qed.

(** ** Deadlines

    What the kernel is assumed to answer: a request that was not cancelled is
    not reported as cancelled, and none has timed out in the protocol. *)
Definition kernel_ok (s : Sys) : Prop :=
  ∀ c, c ∈ todo s → cqe_result c ≠ - ETIMEDOUT ∧
    (cqe_result c = - ECANCELED → cqe_user_data c ∈ cancelled s).

(** A step in which deadlines that are set are in the future. *)
Record calm_step (p : profile) (s s' : Sys) : Prop := {
  cs_step : step p s s';
  cs_kernel : kernel_ok s';
  cs_future a f d : mem s !! a = None → mem s' !! a = Some f → fut_deadline f = Some d → now s < d;
}.

(** [t] is when the deadlines were last checked. *)
Record DInv (t : Z) (s : Sys) : Prop := {
  d_queue d a : (d, a) ∈ time_bounded_io_task_queue (worker s) →
    t < d ∧ (a ∉ cancelled s) ∧ ∃ f, mem s !! a = Some f ∧ fut_deadline f = Some d;
  d_live a f d : mem s !! a = Some f → fut_deadline f = Some d →
    (d, a) ∈ time_bounded_io_task_queue (worker s) ∨ a ∈ cancelled s;
  d_cancelled a : a ∈ cancelled s → ∃ f d, mem s !! a = Some f ∧ fut_deadline f = Some d ∧ d ≤ t;
  d_timed_out a f e d : a ∈ handed s → mem s !! a = Some f → fut_deadline f = Some d →
    ret (io_request_data f) = Err e → Error_kind e = TimedOut → a ∈ cancelled s;
  d_now : t ≤ now s;
  d_kernel : kernel_ok s;
}.

Lemma cqe_ret_timed_out r e :
  r ≠ - ETIMEDOUT → cqe_ret r = Err e → Error_kind e = TimedOut → r = - ECANCELED.
Proof.
  intros Hr. unfold cqe_ret. destruct (0 <=? r); [done|].
  destruct (Z.eqb_spec r (- ECANCELED)); [done|]. intros [= <-]. simpl.
  destruct (Z.eqb_spec (- r) ETIMEDOUT); [lia|]. repeat case_match; done.
Qed.

Lemma dinv_begin t s a op w' f acts :
  Inv s → DInv t s → mem s !! a = None → (∀ d, fut_deadline f = Some d → now s < d) →
  request_spec op a (op_deadline op) (worker s) w' f acts →
  DInv t (mkSys w' (<[a := f]> (mem s)) (todo s) (if acts is [] then handed s else {[a]} ∪ handed s)
            (cancelled s) (now s)).
Proof.
  intros HI [D1 D2 D3 D4 D5 D6] Ha Hfut [_ _ Hq _ Hacts].
  assert (a ∉ cancelled s) as Hnc by (intros (? & ? & ? & _)%D3; congruence).
  assert (a ∉ handed s) as Hnh by (apply not_elem_of_dom in Ha; pose proof (i_handed _ HI); set_solver).
  unfold queue_spec in Hq.
  assert (∀ d b, (d, b) ∈ time_bounded_io_task_queue w' ↔
    (d, b) ∈ time_bounded_io_task_queue (worker s) ∨ b = a ∧ fut_deadline f = Some d) as Hmem.
  { destruct (op_deadline op) as [d0|]; intros d b.
    - destruct Hq as (k & _ & Hk & -> & ->). rewrite (btree_insert_Permutation _ _ _ Hk).
      rewrite elem_of_cons. naive_solver.
    - destruct Hq as [-> ->]. naive_solver. }
  split; simpl; try done.
  - intros d b [Hin|[-> Hf]]%Hmem.
    + destruct (D1 d b Hin) as (? & ? & g & Hg & ?). split_and!; [done..|]. exists g.
      rewrite lookup_insert_ne; [done|congruence].
    + split_and!; [|done|]; [specialize (Hfut d Hf); lia|]. exists f. by rewrite lookup_insert_eq.
  - intros b g d. rewrite lookup_insert, Hmem. case_decide as Hb; [intros [= <-]; auto|].
    intros Hg Hd. destruct (D2 _ _ _ Hg Hd); auto.
  - intros b Hb. destruct (D3 b Hb) as (g & d & Hg & ?). exists g, d. rewrite lookup_insert_ne; [done|congruence].
  - intros b g e d Hh. rewrite lookup_insert. case_decide as Hb.
    + intros [= <-] Hd. subst b. destruct (op_deadline op) as [d0|]; [rewrite Hacts in Hh by eauto; done|].
      destruct Hq as [_ Hn]. congruence.
    + intros. eapply D4; [|done..]. destruct acts; set_solver.
Qed.

Lemma dinv_poll t s cs w' :
  DInv t s → poll_spec (now s) (worker s) w' cs →
  let s' := mkSys w' (mem s) cs (handed s)
    (list_to_set (due (now s) (time_bounded_io_task_queue (worker s))) ∪ cancelled s) (now s) in
  kernel_ok s' → DInv (now s) s'.
Proof.
  intros [D1 D2 D3 D4 D5 D6] Hspec s' Hk. pose proof (ps_queue _ _ _ _ Hspec) as Hq.
  assert (∀ a, a ∈ due (now s) (time_bounded_io_task_queue (worker s)) ↔
    ∃ d, (d, a) ∈ time_bounded_io_task_queue (worker s) ∧ d ≤ now s) as Hdue.
  { intros a. unfold due. rewrite list_elem_of_fmap. setoid_rewrite list_elem_of_filter. split.
    - intros ([d b] & -> & ? & ?). eauto.
    - intros (d & ? & ?). by exists (d, a). }
  split; subst s'; simpl; try done.
  - intros d a. rewrite Hq, list_elem_of_filter. simpl. intros [Hlt Hin].
    destruct (D1 d a Hin) as (? & Hc & f & Hf & Hd). split_and!; [done| |by exists f].
    rewrite elem_of_union, elem_of_list_to_set, Hdue. intros [(d' & Hin' & ?)|?]; [|done].
    destruct (D1 d' a Hin') as (_ & _ & g & Hg & Hd'). simplify_eq. lia.
  - intros a f d Hf Hd. rewrite Hq, list_elem_of_filter, elem_of_union, elem_of_list_to_set, Hdue. simpl.
    destruct (D2 a f d Hf Hd) as [Hin|]; [|by auto]. destruct (decide (now s < d)); [by left|].
    right. left. exists d. split; [done|lia].
  - intros a. rewrite elem_of_union, elem_of_list_to_set, Hdue. intros [(d & Hin & ?)|Hc].
    + destruct (D1 d a Hin) as (_ & _ & f & ? & ?). eauto.
    + destruct (D3 a Hc) as (f & d & ? & ? & ?). exists f, d. split_and!; [done..|lia].
  - intros. apply elem_of_union_r. by eapply D4.
Qed.

Lemma dinv_turn t p s c cs m' acts :
  Inv s → DInv t s → todo s = c :: cs → must_poll_turn p c (mem s) = Val (m', acts) →
  DInv t (mkSys (worker s) m' cs (if acts is [] then handed s else {[cqe_user_data c]} ∪ handed s)
            (cancelled s) (now s)).
Proof.
  intros HI [D1 D2 D3 D4 D5 D6] Ht Hm.
  destruct (inv_turn p s c cs (cancelled s) HI Ht) as (m1 & acts1 & Heq & _ & Hc).
  rewrite Hm in Heq. injection Heq as <- <-.
  assert (kernel_ok (mkSys (worker s) m' cs
    (if acts is [] then handed s else {[cqe_user_data c]} ∪ handed s) (cancelled s) (now s))) as Hk.
  { intros c' Hc'. apply D6. rewrite Ht. by right. }
  destruct (D6 c) as [Hnt Hcan]; [rewrite Ht; by left|].
  destruct Hc as [(_ & -> & ->)|(Hnh & f & we & Hf & -> & ->)]; [by split|].
  set (a := cqe_user_data c) in *. set (f' := mkFut _ _).
  assert (fut_deadline f' = fut_deadline f) as Hfd by done.
  split; simpl; try done.
  - intros d b (? & ? & g & Hg & ?)%D1. split_and!; [done..|]. rewrite lookup_insert. case_decide; [|eauto].
    exists f'. simplify_eq. split; congruence.
  - intros b g d. rewrite lookup_insert. case_decide; [|by apply D2]. intros [= <-] Hd. subst b.
    apply (D2 a f d Hf). congruence.
  - intros b (g & d & Hg & ? & ?)%D3. rewrite lookup_insert. case_decide; [|eauto].
    exists f', d. simplify_eq. split_and!; congruence.
  - intros b g e d Hh. rewrite lookup_insert. case_decide as Hb.
    + intros [= <-] _ Hret Hkind. subst b. apply Hcan. by eapply cqe_ret_timed_out.
    + intros. eapply D4; [|done..]. set_solver.
Qed.

(** The entry of a finished request, if it is still in the queue, is its own. *)
Lemma dinv_end t p s answer a tk op r f w' m' :
  Inv s → DInv t s → a ∈ handed s → mem s !! a = Some f →
  (op_deadline op = None ↔ fut_deadline f = None) →
  io_poll answer p a tk op (worker s) (mem s) = Val (Ready r, w', m', []) →
  DInv t (mkSys w' m' (todo s) (handed s ∖ {[a]}) (cancelled s ∖ {[a]}) (now s)).
Proof.
  intros HI [D1 D2 D3 D4 D5 D6] Hh Hf Hop. rewrite (uring_io_poll_end _ _ _ _ _ _ _ f) by done.
  intros [= <- <- <-]. set (q := time_bounded_io_task_queue (worker s)) in *.
  set (w' := match fut_deadline f with Some _ => _ | None => _ end).
  assert (∀ d b, (d, b) ∈ time_bounded_io_task_queue w' ↔ (d, b) ∈ q ∧ b ≠ a) as Hmem.
  { assert (∀ d b, fut_deadline f = Some d → (d, b) ∈ q → b = a) as Huniq.
    { intros d b Hd Hin. destruct (D2 a f d Hf Hd) as [Hina|Hc].
      - by eapply keys_sorted_unique; [apply HI|..].
      - destruct (D3 a Hc) as (g & d' & Hg & Hd' & ?). destruct (D1 d b Hin) as (? & _).
        simplify_eq. lia. }
    assert (∀ d b, (d, b) ∈ q → b = a → fut_deadline f = Some d) as Hown
      by (intros d b (_ & _ & g & Hg & ?)%D1 ->; congruence).
    assert (∀ d d' b, fut_deadline f = Some d →
      (d', b) ∈ btree_remove d q ↔ (d', b) ∈ q ∧ b ≠ a) as Hrem.
    { intros d d' b Hd. unfold btree_remove. rewrite list_elem_of_filter. simpl. split.
      - intros [Hne Hin]. split; [done|]. intros Hb. specialize (Hown _ _ Hin Hb). congruence.
      - intros [Hin Hne]. split; [|done]. intros ->. by apply Hne, (Huniq d). }
    intros d b. subst w'. destruct (fut_deadline f) as [d0|] eqn:Hd0.
    - destruct (ret (io_request_data f)) as [x|e] eqn:Hret; [by apply Hrem|].
      case_decide as Hk; [|by apply Hrem]. pose proof (D4 a f e d0 Hh Hf Hd0 Hret Hk) as Hc.
      split; [|by intros [? _]]. intros Hin. split; [done|]. intros ->. by destruct (D1 _ _ Hin) as (_ & ? & _).
    - split; [|by intros [? _]]. intros Hin. split; [done|]. intros Hb. specialize (Hown _ _ Hin Hb). done. }
  split; simpl; try done.
  - intros d b [Hin Hne]%Hmem. destruct (D1 d b Hin) as (? & ? & g & Hg & ?). split_and!; [done|set_solver|].
    exists g. by rewrite lookup_delete_ne.
  - intros b g d [Hne Hg]%lookup_delete_Some Hd. rewrite Hmem.
    destruct (D2 b g d Hg Hd) as [?|?]; [left; by split|right; set_solver].
  - intros b [Hc Hne]%elem_of_difference. rewrite elem_of_singleton in Hne.
    destruct (D3 b Hc) as (g & d & ? & ?). exists g, d. by rewrite lookup_delete_ne.
  - intros b g e d Hb [Hne Hg]%lookup_delete_Some ? ? ?. apply elem_of_difference. split; [|set_solver].
    eapply D4; [|done..]. set_solver.
  - intros c Hc. simpl in *. destruct (D6 c Hc) as [? Hcan]. split; [done|]. intros Hres.
    apply elem_of_difference. split; [by apply Hcan|]. rewrite elem_of_singleton. intros Hca.
    assert (cqe_user_data c ∈ dom (mem s) ∖ handed s); [|set_solver].
    apply elem_of_elements. rewrite <- (i_pending _ HI). unfold pending. apply list_elem_of_filter.
    split; [rewrite Hca; apply (i_ptr _ HI); by eapply elem_of_dom_2|].
    apply elem_of_app. right. by apply list_elem_of_fmap_2.
Qed.

Lemma dinv_step t p s s' :
  Inv s → DInv t s → calm_step p s s' → Inv s' ∧ ∃ t', DInv t' s'.
Proof.
  intros HI HD [Hst Hk Hfut]. split; [by eapply uring_inv_step|]. destruct Hst.
  - destruct (inv_begin p s answer a t0 op w' m' acts) as (f & -> & Hspec & _); [done..|].
    exists t. eapply dinv_begin; try done.
    intros d Hd. apply (Hfut a f d); [done| |done]. apply lookup_insert_eq.
  - destruct (inv_poll p s timeout cs w' (cancelled s)) as [Hps _]; [done..|].
    eexists. by eapply dinv_poll.
  - exists t. by eapply dinv_turn.
  - exists t. by eapply dinv_end.
  - exists t. destruct HD. split; try done. simpl. lia.
Qed.

Lemma uring_reachable p r probe now s :
  ring_ok r → ring_entries r = [] → rtc (step p) (init r probe now) s → Inv s.
Proof.
  intros Hr He. apply (rtc_invariant (step p) Inv); [by intros; eapply uring_inv_step|]. by apply uring_inv_init.
Qed.

Lemma uring_calm_reachable p r probe now s :
  ring_ok r → ring_entries r = [] → rtc (calm_step p) (init r probe now) s → Inv s ∧ ∃ t, DInv t s.
Proof.
  intros Hr He. apply (rtc_invariant (calm_step p) (λ s, Inv s ∧ ∃ t, DInv t s)).
  - intros a b [HI [t HD]] Hst. by eapply dinv_step.
  - split; [by apply uring_inv_init|]. exists now.
    split; simpl; try done; try (by intros ? ? ?%elem_of_nil); try (by intros ? ?%elem_of_empty).
    by intros ? ?%elem_of_nil.
Qed.

(** ** Theorems *)

(** C7: with a ring of at least two entries, no request is lost: at any moment
    each one that is not finished is in exactly one of the backlog, the
    submission queue, the kernel and the completions being processed, and
    [number_of_active_tasks] counts what the worker waits for. A completion
    always finds its request in place, with its task not handed out before,
    writes the result into it and hands the task to the executor. *)
Theorem io_uring_conserves (p : profile) (r : R) (probe : Z → bool) (now : Z) (s : Sys) :
  ring_ok r → ring_entries r = [] → rtc (step p) (init r probe now) s →
  pending s ≡ₚ elements (dom (mem s) ∖ handed s) ∧
  number_of_active_tasks (worker s) = Z.of_nat (length (outstanding (worker s))) ∧
  (∀ a f, mem s !! a = Some f → a ∉ handed s → todo s = [] → uring_has_work (worker s) = true) ∧
  (∀ c cs, todo s = c :: cs →
    must_poll_turn p c (mem s) = Val (mem s, []) ∧ cqe_user_data c = ASYNC_CLOSE_DATA ∨
    ∃ f w, mem s !! cqe_user_data c = Some f ∧ (cqe_user_data c ∉ handed s) ∧
      must_poll_turn p c (mem s) =
        Val (<[cqe_user_data c := mkFut (mkIoRequestData (cqe_ret (cqe_result c))
                (task (io_request_data f)) w) (fut_deadline f)]> (mem s),
             [exec_or_spawn (task (io_request_data f))])).
Proof.
  intros Hr He Hs. apply uring_reachable in Hs as HI; [|done..]. split_and!; [apply HI..| |].
  - intros a f Hf Hnh Ht. unfold uring_has_work. apply Z.ltb_lt. rewrite (i_active _ HI).
    assert (a ∈ pending s) as Hin.
    { rewrite (i_pending _ HI), elem_of_elements. apply elem_of_dom_2 in Hf. set_solver. }
    unfold pending in Hin. rewrite Ht in Hin. simpl in Hin. rewrite app_nil_r in Hin.
    apply list_elem_of_filter in Hin as [_ Hin]. destruct (outstanding (worker s)); [|simpl; lia].
    by apply elem_of_nil in Hin.
  - intros c cs Ht. destruct (inv_turn p s c cs ∅ HI Ht) as (m' & acts & Heq & _ & Hc). rewrite Heq.
    destruct Hc as [(? & -> & ->)|(? & f & w & ? & -> & ->)]; [by left|]. right. by exists f, w.
Qed.


(** C23: on a ring of at least two entries that starts empty, if every deadline
    is after the current time when it is set, no completion carries
    [ETIMEDOUT], one carries [ECANCELED] only for a request that the worker
    has asked to cancel, and tasks stay on their thread, then the queue of
    deadlines holds exactly the deadlines of the unfinished
    requests that were not cancelled; a request is cancelled only after its
    deadline, and only then fails with [TimedOut]. *)
Theorem io_uring_deadlines (p : profile) (r : R) (probe : Z → bool) (start : Z) (s : Sys) :
  ring_ok r → ring_entries r = [] → rtc (calm_step p) (init r probe start) s →
  (∀ a d, (d, a) ∈ time_bounded_io_task_queue (worker s) ↔
    (a ∉ cancelled s) ∧ ∃ f, mem s !! a = Some f ∧ fut_deadline f = Some d) ∧
  (∀ a, a ∈ cancelled s → ∃ f d, mem s !! a = Some f ∧ fut_deadline f = Some d ∧ d ≤ now s) ∧
  (∀ a f e d, a ∈ handed s → mem s !! a = Some f → fut_deadline f = Some d →
    ret (io_request_data f) = Err e → Error_kind e = TimedOut → d ≤ now s).
Proof.
  intros Hr He Hs. apply uring_calm_reachable in Hs as [HI [t [D1 D2 D3 D4 D5 _]]]; [|done..].
  assert (∀ a, a ∈ cancelled s → ∃ f d, mem s !! a = Some f ∧ fut_deadline f = Some d ∧ d ≤ now s) as Hc.
  { intros a (f & d & ? & ? & ?)%D3. exists f, d. split_and!; [done..|lia]. }
  split_and!; [|done|].
  - intros a d. split; [intros (_ & ? & ?)%D1; by split|]. intros (Hn & f & Hf & Hd).
    by destruct (D2 a f d Hf Hd).
  - intros a f e d Hh Hf Hd Hr' Hk. destruct (Hc a (D4 a f e d Hh Hf Hd Hr' Hk)) as (g & d' & ? & ? & ?).
    by simplify_eq.
Qed.

End system.

(** ** A concrete ring

    [answers] says for each submission how many entries the kernel takes and
    with which error it returns; when they run out it takes all. [results]
    says for each look at the completions with which results the kernel
    finishes its first entries. *)
Record Sim := mkSim { sim : View; answers : list (nat * option Z); results : list (list Z) }.

Definition sim_submit (s : Sim) : option Z * Sim :=
  let v := sim s in
  let '(n, err, rest) := match answers s with
                         | [] => (length (v_flushed v), None, [])
                         | (n, err) :: rest => (if err is None then n `max` 1 else n, err, rest)
                         end%nat in
  (err, mkSim (mkView (v_capacity v) (v_stale v + length (take n (v_flushed v))) (drop n (v_flushed v))
                 (v_local v) (v_kernel v ++ take n (v_flushed v))) rest (results s)).

Definition sim_completions (s : Sim) : list Cqe * Sim :=
  let v := sim s in
  let '(rs, rest) := match results s with [] => ([], []) | rs :: rest => (rs, rest) end in
  let n := length (zip (v_kernel v) rs) in
  ((λ x, mkCqe (user_data x.1) x.2) <$> zip (v_kernel v) rs,
   mkSim (mkView (v_capacity v) (v_stale v) (v_flushed v) (v_local v) (drop n (v_kernel v)))
     (answers s) rest).

Definition with_view (s : Sim) (v : View) : Sim := mkSim v (answers s) (results s).

Global Instance sim_ops : RingOps Sim := {|
  ring_submission s := let v := sim s in
    with_view s (mkView (v_capacity v) 0 (v_flushed v) (v_local v) (v_kernel v));
  sq_is_full s := bool_decide (v_capacity (sim s) ≤ v_len (sim s))%nat;
  sq_push e s := let v := sim s in
    if bool_decide (v_capacity v ≤ v_len v)%nat then (false, s)
    else (true, with_view s (mkView (v_capacity v) (v_stale v) (v_flushed v) (v_local v ++ [e]) (v_kernel v)));
  sq_sync s := let v := sim s in
    with_view s (mkView (v_capacity v) 0 (v_flushed v ++ v_local v) [] (v_kernel v));
  sq_drop s := let v := sim s in
    with_view s (mkView (v_capacity v) (v_stale v) (v_flushed v ++ v_local v) [] (v_kernel v));
  ring_submit _ := sim_submit;
  ring_completions := sim_completions;
|}.

Global Instance sim_laws : RingLaws Sim.
Proof.
  refine {| view := sim |}; simpl; try done.
  - intros r ->. done.
  - intros e r ->. done.
  - intros e r ->. eexists. done.
  - intros t r. unfold sim_submit.
    destruct (answers r) as [|[n [err|]] rest]; simpl;
      (eexists (take _ _), (drop _ _); split_and!; [by rewrite take_drop|done|]); intros Herr Hne; try done;
      destruct (v_flushed (sim r)); try done. by destruct n.
  - intros r. unfold sim_completions. destruct (results r) as [|rs rest]; simpl.
    + exists [], (v_kernel (sim r)). rewrite zip_with_nil_r. simpl. by rewrite drop_0.
    + exists (take (length (zip (v_kernel (sim r)) rs)) (v_kernel (sim r))), (drop (length (zip (v_kernel (sim r)) rs)) (v_kernel (sim r))).
      split_and!; [by rewrite take_drop| |done].
      generalize (v_kernel (sim r)). intros l. revert rs. induction l as [|e l IH]; intros [|x rs]; try done.
      csimpl. f_equal. apply IH.
Defined.

Definition new_ring (cap : nat) (an : list (nat * option Z)) (rs : list (list Z)) : Sim :=
  mkSim (mkView cap 0 [] [] []) an rs.

Definition ex_task (n : Z) : Task := mkTask (TaskData_new (fat_ptr n 1) Locality_local) 1 n.

(** ** Runs that fail *)

(** A ring of one entry, which [IOUringConfig::validate] accepts, loses
    requests: when the backlog is moved to the ring, the second entry of it
    is pushed while the first still fills the view, and the failure of that
    push is ignored. The request is nowhere any more, its task never runs, and
    the worker waits for it forever. *)
Theorem io_uring_single_entry_loses :
  IOUringConfig_validate (mkIOUringConfig 1) = inl () ∧
  ∃ s, rtc (step Debug) (init (new_ring 1 [] [[0]; [0]]) (λ _, true) 0) s ∧
    dom (mem s) ∖ handed s = {[24]} ∧ outstanding (worker s) = [] ∧ todo s = [] ∧
    uring_has_work (worker s) = true.
Proof.
  split; [done|]. eexists. split.
  { io_step (step_begin Debug _ (Ok 0) 8 (ex_task 1) (Net (recv 3 0 1))).
    io_step (step_begin Debug _ (Ok 0) 16 (ex_task 2) (Net (recv 3 0 1))).
    io_step (step_begin Debug _ (Ok 0) 24 (ex_task 3) (Net (recv 3 0 1))).
    io_step (step_poll Debug _ None).
    io_step (step_turn Debug).
    io_step (step_poll Debug _ None).
    io_step (step_turn Debug).
    apply rtc_refl. }
  split_and!; vm_compute; reflexivity.
Qed.

(** A request that fails with [ETIMEDOUT] of its protocol is taken for one
    that was cancelled, so its deadline stays in the queue after it. When that
    deadline passes, the request that is then at the same address is
    cancelled and fails with [TimedOut], although it has no deadline. *)
Theorem io_uring_stale_deadline :
  ∃ s, rtc (step Debug) (init (new_ring 8 [] [[- ETIMEDOUT]; [- ECANCELED; 0]]) (λ _, true) 0) s ∧
    ∃ f, mem s !! 8 = Some f ∧ fut_deadline f = None ∧ 8 ∈ handed s ∧
      ret (io_request_data f) = Err (Simple TimedOut).
Proof.
  eexists. split.
  { io_step (step_begin Debug _ (Ok 0) 8 (ex_task 1) (NetWithDeadline (recv 3 0 1) 100)).
    io_step (step_poll Debug _ None).
    io_step (step_turn Debug).
    io_step (step_end Debug _ (Ok 0) 8 (ex_task 1) (NetWithDeadline (recv 3 0 1) 100)).
    io_step (step_begin Debug _ (Ok 0) 8 (ex_task 1) (Net (recv 3 0 1))).
    io_step (step_round Debug _ 200).
    io_step (step_poll Debug _ None).
    io_step (step_turn Debug).
    apply rtc_refl. }
  eexists. split_and!; vm_compute; reflexivity.
Qed.

(** Deadlines are unique within the worker of one thread only. A shared task
    that made its request on one thread ([s1]) and was resumed on another
    ([s2]) removes its deadline from the queue of the second: here that is the
    deadline of a request of the second thread for the same instant, which is
    then never cancelled, while the first thread goes on to cancel the address
    of the finished request. *)
Theorem io_uring_moved_task_deadline :
  ∃ s1 s2 f w2 m1 w1' w2',
    rtc (step Debug) (init (new_ring 8 [] [[5]]) (λ _, true) 0) s1 ∧
    rtc (step Debug) (init (new_ring 8 [] []) (λ _, true) 0) s2 ∧
    8 ∈ handed s1 ∧ mem s2 !! 16 = Some f ∧ fut_deadline f = Some 100 ∧
    io_poll (Ok 0) Debug 8 (ex_task 1) (NetWithDeadline (recv 3 0 9) 100) (worker s2) (mem s1) =
      Val (Ready (Ok 5), w2, m1, []) ∧
    m1 !! 8 = None ∧
    must_poll_begin Debug 200 None w2 = Val ([], w2') ∧
    outstanding w2' = [mkEntry (Recv 4 0 9 0) 16] ∧
    must_poll_begin Debug 200 None (worker s1) = Val ([], w1') ∧ outstanding w1' = [cancel_of 8].
Proof.
  eexists _, _, _, _, _, _, _. split.
  { io_step (step_begin Debug _ (Ok 0) 8 (ex_task 1) (NetWithDeadline (recv 3 0 9) 100)).
    io_step (step_poll Debug _ None).
    io_step (step_turn Debug).
    apply rtc_refl. }
  split.
  { io_step (step_begin Debug _ (Ok 0) 16 (ex_task 2) (NetWithDeadline (recv 4 0 9) 100)).
    apply rtc_refl. }
  eval_conj.
Qed.

(** ** Witnesses: a ring of two entries *)

Definition ex_start : @Sys Sim := init (new_ring 2 [] [[7; - ECANCELED]]) (λ _, true) 0.

Lemma ex_ring_ok : ring_ok (new_ring 2 [] [[7; - ECANCELED]]) ∧
  ring_entries (new_ring 2 [] [[7; - ECANCELED]]) = [].
Proof. split; [|done]. by split; vm_compute; repeat constructor. Qed.

Definition ex_mid : Sys := {|
  worker := mkWorker (mkSim (mkView 2 0 [mkEntry (Recv 3 0 9 0) 8] [] []) [] [[7; - ECANCELED]])
    [] (λ _, true) [(100, 8)] 1;
  mem := {[8 := mkFut (IoRequestData_new (ex_task 1)) (Some 100)]};
  todo := []; handed := ∅; cancelled := ∅; now := 0;
|}.

Lemma ex_mid_reachable : calm_step Debug ex_start ex_mid.
Proof.
  split.
  - pose proof (step_begin Debug ex_start (Ok 0) 8 (ex_task 1) (NetWithDeadline (recv 3 0 9) 100)
      (worker ex_mid) (mem ex_mid) []) as Hst. apply Hst; io_side.
  - by intros c ?%elem_of_nil.
  - intros a f d _ Hm. cbn [mem ex_mid] in Hm. apply lookup_singleton_Some in Hm as [<- <-]. by intros [= <-].
Qed.

Lemma io_uring_conserves_witness : pending ex_mid ≡ₚ elements (dom (mem ex_mid) ∖ handed ex_mid).
Proof.
  destruct ex_ring_ok as [Hr He].
  apply (io_uring_conserves Debug _ (λ _, true) 0 ex_mid Hr He), rtc_once, ex_mid_reachable.
Defined.


Lemma io_uring_deadlines_witness : (100, 8) ∈ time_bounded_io_task_queue (worker ex_mid).
Proof.
  destruct ex_ring_ok as [Hr He].
  destruct (io_uring_deadlines Debug _ (λ _, true) 0 ex_mid Hr He) as (Hq & _ & _).
  - apply rtc_once, ex_mid_reachable.
  - apply Hq. split; [set_solver|]. eexists. by split.
Defined.
