(* ===== verification/Fallback.v ===== *)
(** * IO calls and the poller of the fallback workers

    Models [src/src/io/sys/fallback/io_call.rs] (an IO call with its
    arguments) and [src/src/io/sys/fallback/mio_poller.rs] (sockets that wait
    until they are ready), which both workers for systems without io_uring
    use. The crate [mio] is a parameter: what a poll reports, and whether a
    socket can be registered twice, are arguments. *)

From Stdlib Require Import ZArith Lia.
From S2P Require Import Prelude BTree Task IoTypes.

Local Open Scope Z_scope.

(** ** [io_call.rs]

    [deadline] is the address of the future whose field it is. The calls from
    [Socket] on, but for the ones of sockets, exist with the feature
    [fallback_thread_pool] only. *)
Inductive IoCall :=
| Accept (raw_socket addr_ptr addr_len : Z)
| AcceptWithDeadline (raw_socket addr_ptr addr_len deadline : Z)
| Connect (raw_socket addr_ptr addr_len : Z)
| ConnectWithDeadline (raw_socket addr_ptr addr_len deadline : Z)
| PollRecv (raw_socket : Z)
| PollRecvWithDeadline (raw_socket deadline : Z)
| PollSend (raw_socket : Z)
| PollSendWithDeadline (raw_socket deadline : Z)
| Recv (raw_socket ptr len : Z)
| RecvWithDeadline (raw_socket ptr len deadline : Z)
| RecvFrom (raw_socket header : Z)
| RecvFromWithDeadline (raw_socket header deadline : Z)
| Send (raw_socket ptr len : Z)
| SendWithDeadline (raw_socket ptr len deadline : Z)
| SendTo (raw_socket header : Z)
| SendToWithDeadline (raw_socket header deadline : Z)
| Peek (raw_socket ptr len : Z)
| PeekWithDeadline (raw_socket ptr len deadline : Z)
| PeekFrom (raw_socket header : Z)
| PeekFromWithDeadline (raw_socket header deadline : Z)
| Socket (domain ty protocol : Z)
| Shutdown (raw_socket : Z) (how : ShutdownHow)
| Open (path options : Z)
| Fallocate
| FAllSync (raw_file : Z)
| FDataSync (raw_file : Z)
| Read (raw_file ptr len : Z)
| PRead (raw_file ptr len offset : Z)
| Write (raw_file ptr len : Z)
| PWrite (raw_file ptr len offset : Z)
| CloseFile (raw_file : Z)
| CloseSocket (raw_socket : Z)
| Rename (from to : Z)
| CreateDir (path mode : Z)
| RemoveDir (path : Z)
| RemoveFile (path : Z).

Definition is_recv_pollable (c : IoCall) : bool :=
  match c with
  | PollRecv _ | PollRecvWithDeadline _ _ | Accept _ _ _ | AcceptWithDeadline _ _ _ _
  | Recv _ _ _ | RecvWithDeadline _ _ _ _ | RecvFrom _ _ | RecvFromWithDeadline _ _ _
  | Peek _ _ _ | PeekWithDeadline _ _ _ _ | PeekFrom _ _ | PeekFromWithDeadline _ _ _ => true
  | _ => false
  end.

Definition is_send_pollable (c : IoCall) : bool :=
  match c with
  | PollSend _ | PollSendWithDeadline _ _ | Send _ _ _ | SendWithDeadline _ _ _ _
  | SendTo _ _ | SendToWithDeadline _ _ _ => true
  | _ => false
  end.

Definition is_both_pollable (c : IoCall) : bool :=
  match c with Connect _ _ _ | ConnectWithDeadline _ _ _ _ => true | _ => false end.

(** [deadline_mut]: the address of the deadline. *)
Definition deadline_mut (c : IoCall) : option Z :=
  match c with
  | AcceptWithDeadline _ _ _ d | ConnectWithDeadline _ _ _ d | PollRecvWithDeadline _ d
  | PollSendWithDeadline _ d | RecvWithDeadline _ _ _ d | RecvFromWithDeadline _ _ d
  | SendWithDeadline _ _ _ d | SendToWithDeadline _ _ d | PeekWithDeadline _ _ _ d
  | PeekFromWithDeadline _ _ d => Some d
  | _ => None
  end.

(** [deadline] reads it. *)
Definition deadline (c : IoCall) (m : Mem) : outcome (option Z) :=
  match deadline_mut c with
  | None => Val None
  | Some a => f ← get_mut a m; d ← unchecked (fut_deadline f); Val (Some d)
  end.

Definition raw_socket (c : IoCall) : option Z :=
  match c with
  | Accept s _ _ | AcceptWithDeadline s _ _ _ | Connect s _ _ | ConnectWithDeadline s _ _ _
  | PollRecv s | PollRecvWithDeadline s _ | PollSend s | PollSendWithDeadline s _
  | Recv s _ _ | RecvWithDeadline s _ _ _ | RecvFrom s _ | RecvFromWithDeadline s _ _
  | Send s _ _ | SendWithDeadline s _ _ _ | SendTo s _ | SendToWithDeadline s _ _
  | Peek s _ _ | PeekWithDeadline s _ _ _ | PeekFrom s _ | PeekFromWithDeadline s _ _ => Some s
  | _ => None
  end.

(** [unreachable!] for the calls that are not of sockets. *)
Definition must_retry (c : IoCall) : outcome bool :=
  match c with
  | Connect _ _ _ | ConnectWithDeadline _ _ _ _ | PollRecv _ | PollRecvWithDeadline _ _
  | PollSend _ | PollSendWithDeadline _ _ => Val false
  | Accept _ _ _ | AcceptWithDeadline _ _ _ _ | Recv _ _ _ | RecvWithDeadline _ _ _ _
  | RecvFrom _ _ | RecvFromWithDeadline _ _ _ | Send _ _ _ | SendWithDeadline _ _ _ _
  | SendTo _ _ | SendToWithDeadline _ _ _ | Peek _ _ _ | PeekWithDeadline _ _ _ _
  | PeekFrom _ _ | PeekFromWithDeadline _ _ _ => Val true
  | _ => Panicked
  end.

(** The calls of the operations of sockets; with [Some d], the deadline is at
    [d]. *)
Definition accept_call (s addr len : Z) (d : option Z) : IoCall :=
  match d with None => Accept s addr len | Some d => AcceptWithDeadline s addr len d end.
Definition connect_call (s addr len : Z) (d : option Z) : IoCall :=
  match d with None => Connect s addr len | Some d => ConnectWithDeadline s addr len d end.
Definition poll_recv_call (s : Z) (d : option Z) : IoCall :=
  match d with None => PollRecv s | Some d => PollRecvWithDeadline s d end.
Definition poll_send_call (s : Z) (d : option Z) : IoCall :=
  match d with None => PollSend s | Some d => PollSendWithDeadline s d end.
Definition recv_call (s ptr len : Z) (d : option Z) : IoCall :=
  match d with None => Recv s ptr len | Some d => RecvWithDeadline s ptr len d end.
Definition recv_from_call (s header : Z) (d : option Z) : IoCall :=
  match d with None => RecvFrom s header | Some d => RecvFromWithDeadline s header d end.
Definition send_call (s ptr len : Z) (d : option Z) : IoCall :=
  match d with None => Send s ptr len | Some d => SendWithDeadline s ptr len d end.
Definition send_to_call (s header : Z) (d : option Z) : IoCall :=
  match d with None => SendTo s header | Some d => SendToWithDeadline s header d end.
Definition peek_call (s ptr len : Z) (d : option Z) : IoCall :=
  match d with None => Peek s ptr len | Some d => PeekWithDeadline s ptr len d end.
Definition peek_from_call (s header : Z) (d : option Z) : IoCall :=
  match d with None => PeekFrom s header | Some d => PeekFromWithDeadline s header d end.

Definition socket_call (op : NetOp) (d : option Z) : IoCall :=
  match op with
  | accept s addr len => accept_call s addr len d
  | connect s addr len => connect_call s addr len d
  | poll_socket_read s => poll_recv_call s d
  | poll_socket_write s => poll_send_call s d
  | recv s ptr len | recv_fixed s ptr len _ => recv_call s ptr len d
  | recv_from s header => recv_from_call s header d
  | send s ptr len | send_fixed s ptr len _ => send_call s ptr len d
  | send_to s header => send_to_call s header d
  | peek s ptr len | peek_fixed s ptr len _ => peek_call s ptr len d
  | peek_from s header => peek_from_call s header d
  end.

Definition net_call (op : NetOp) : IoCall := socket_call op None.
Definition net_call_with_deadline (op : NetOp) (d : Z) : IoCall := socket_call op (Some d).

(** The operations that only wait. *)
Definition is_poll_op (op : NetOp) : bool :=
  match op with poll_socket_read _ | poll_socket_write _ => true | _ => false end.

(** ** [operations.rs]

    The operations and the call of [socket2] or of the standard library that
    each makes; what it returns is the answer of the system. *)
Inductive Operation :=
| socket_op (domain socket_type protocol : Z)
| accept_op (raw_listener sockaddr sockaddr_len : Z)
| connect_op (raw_socket addr addr_len : Z)
| recv_op (raw_socket ptr len : Z)
| recv_from_op (raw_socket header : Z)
| send_op (raw_socket ptr len : Z)
| send_to_op (raw_socket header : Z)
| peek_op (raw_socket ptr len : Z)
| peek_from_op (raw_socket header : Z)
| shutdown_op (raw_socket : Z) (how : ShutdownHow)
| open_op (path open_how : Z)
| fsync_op (raw_file : Z)
| fsync_data_op (raw_file : Z)
| read_op (raw_file ptr len : Z)
| read_at_op (raw_file offset ptr len : Z)
| write_op (raw_file ptr len : Z)
| write_at_op (raw_file offset ptr len : Z)
| close_file_op (raw_file : Z)
| close_socket_op (raw_socket : Z)
| rename_op (old_path new_path : Z)
| mkdir_op (path mode : Z)
| rmdir_op (path : Z)
| unlink_op (path : Z).

Inductive LibCall :=
| Socket_new (domain socket_type protocol : Z) (nonblocking : bool)
| Socket_accept (raw_socket sockaddr sockaddr_len : Z) (nonblocking : bool)
| Socket_connect (raw_socket addr addr_len : Z)
| Socket_recv (raw_socket ptr len : Z) (peek : bool)
| Socket_recv_from_vectored (raw_socket header : Z) (peek : bool)
| Socket_send (raw_socket ptr len : Z)
| Socket_send_to_vectored (raw_socket header : Z)
| Socket_shutdown (raw_socket : Z) (how : ShutdownHow)
| OpenOptions_open (path options : Z)
| File_sync (raw_file : Z) (data_only : bool)
| File_read (raw_file ptr len : Z) (offset : option Z)
| File_write (raw_file ptr len : Z) (offset : option Z)
| close_fd (fd : Z)
| fs_rename (old_path new_path : Z)
| DirBuilder_create (path mode : Z) (recursive : bool)
| fs_remove_dir (path : Z)
| fs_remove_file (path : Z).

Definition read_lib_call (f ptr len : Z) (offset : option Z) : LibCall := File_read f ptr len offset.
Definition write_lib_call (f ptr len : Z) (offset : option Z) : LibCall := File_write f ptr len offset.

(** The mode is ignored. *)
Definition mkdir_lib_call (path mode : Z) : LibCall := DirBuilder_create path 511 true.

Definition lib_call (o : Operation) : LibCall :=
  match o with
  | socket_op domain socket_type protocol => Socket_new domain socket_type protocol true
  | accept_op s addr len => Socket_accept s addr len true
  | connect_op s addr len => Socket_connect s addr len
  | recv_op s ptr len => Socket_recv s ptr len false
  | recv_from_op s header => Socket_recv_from_vectored s header false
  | send_op s ptr len => Socket_send s ptr len
  | send_to_op s header => Socket_send_to_vectored s header
  | peek_op s ptr len => Socket_recv s ptr len true
  | peek_from_op s header => Socket_recv_from_vectored s header true
  | shutdown_op s how => Socket_shutdown s how
  | open_op path how => OpenOptions_open path how
  | fsync_op f => File_sync f false
  | fsync_data_op f => File_sync f true
  | read_op f ptr len => read_lib_call f ptr len None
  | read_at_op f offset ptr len => read_lib_call f ptr len (Some offset)
  | write_op f ptr len => write_lib_call f ptr len None
  | write_at_op f offset ptr len => write_lib_call f ptr len (Some offset)
  | close_file_op f => close_fd f
  | close_socket_op s => close_fd s
  | rename_op from to => fs_rename from to
  | mkdir_op path mode => mkdir_lib_call path mode
  | rmdir_op path => fs_remove_dir path
  | unlink_op path => fs_remove_file path
  end.

(** [do_io_work], with the answers of the system. *)
Definition do_io_work (sys : LibCall → Result Z) (c : IoCall) : outcome (Result Z) :=
  let op o := Val (sys (lib_call o)) in
  match c with
  | Socket domain ty protocol => op (socket_op domain ty protocol)
  | Accept s addr len | AcceptWithDeadline s addr len _ => op (accept_op s addr len)
  | Connect s addr len | ConnectWithDeadline s addr len _ => op (connect_op s addr len)
  | PollRecv _ | PollSend _ | PollRecvWithDeadline _ _ | PollSendWithDeadline _ _ => Panicked
  | Recv s ptr len | RecvWithDeadline s ptr len _ => op (recv_op s ptr len)
  | RecvFrom s header | RecvFromWithDeadline s header _ => op (recv_from_op s header)
  | Send s ptr len | SendWithDeadline s ptr len _ => op (send_op s ptr len)
  | SendTo s header | SendToWithDeadline s header _ => op (send_to_op s header)
  | Peek s ptr len | PeekWithDeadline s ptr len _ => op (peek_op s ptr len)
  | PeekFrom s header | PeekFromWithDeadline s header _ => op (peek_from_op s header)
  | Shutdown s how => op (shutdown_op s how)
  | Open path options => op (open_op path options)
  | Fallocate => Val (Ok 0)
  | FAllSync f => op (fsync_op f)
  | FDataSync f => op (fsync_data_op f)
  | Read f ptr len => op (read_op f ptr len)
  | PRead f ptr len offset => op (read_at_op f offset ptr len)
  | Write f ptr len => op (write_op f ptr len)
  | PWrite f ptr len offset => op (write_at_op f offset ptr len)
  | CloseFile f => let _ := sys (lib_call (close_file_op f)) in Val (Ok 0)
  | CloseSocket s => let _ := sys (lib_call (close_socket_op s)) in Val (Ok 0)
  | Rename from to => op (rename_op from to)
  | CreateDir path mode => op (mkdir_op path mode)
  | RemoveDir path => op (rmdir_op path)
  | RemoveFile path => op (unlink_op path)
  end.

(** The loop around a call: it is made again while it is interrupted. [sys] is
    how the system answers from attempt to attempt. *)
Fixpoint retry_interrupted (fuel : nat) (work : nat → outcome (Result Z)) (attempt : nat)
    : outcome (option (Result Z)) :=
  match fuel with
  | O => Val None
  | S fuel =>
      r ← work attempt;
      match r with
      | Err e => if decide (Error_kind e = Interrupted) then retry_interrupted fuel work (S attempt)
                 else Val (Some r)
      | Ok _ => Val (Some r)
      end
  end.

(** The loop returns the first answer that is not [Interrupted], and needs no
    more turns than it takes for that answer to come. *)
Lemma retry_interrupted_first work n r :
  (∀ i, (i < n)%nat → ∃ e, work i = Val (Err e) ∧ Error_kind e = Interrupted) →
  work n = Val r → (∀ e, r = Err e → Error_kind e ≠ Interrupted) →
  retry_interrupted (S n) work 0 = Val (Some r).
Proof.
  intros Hi Hn Hr. enough (∀ k, (k ≤ n)%nat → retry_interrupted (S (n - k)) work k = Val (Some r)) as He.
  { rewrite <- (He 0%nat) by lia. by rewrite Nat.sub_0_r. }
  intros k Hk. remember (n - k)%nat as j eqn:Hj. revert k Hk Hj.
  induction j as [|j IH]; intros k Hk Hj.
  - assert (k = n) as -> by lia. simpl. rewrite Hn. simpl. destruct r as [x|e]; [done|].
    rewrite decide_False; [done|]. by apply Hr.
  - destruct (Hi k) as (e & He & Hint); [lia|]. cbn [retry_interrupted]. rewrite He. cbn [mbind outcome_bind].
    rewrite decide_True by done. apply IH; lia.
Qed.

(** ** [mio_poller.rs]

    [registered_sockets] gives the token a socket is registered with, which
    is its slot; [request_slots] are the free slots. Slots are never freed,
    so all of them are in [slot_mem]; a new one is numbered by their count.
    [closed] is the sockets that were closed because their wrapper was
    dropped. *)
Record MioPoller := mkPoller {
  registered_sockets : gmap Z Z;
  request_slots : list Z;
  slot_mem : gmap Z (IoCall * Z);
  closed : list Z;
}.

Definition MioPoller_new : MioPoller := mkPoller ∅ [] ∅ [].

Definition write_request_and_get_ptr (req : IoCall * Z) (P : MioPoller) : Z * MioPoller :=
  match pop_back (request_slots P) with
  | Some (slot, rest) =>
      (slot, mkPoller (registered_sockets P) rest (<[slot := req]> (slot_mem P)) (closed P))
  | None =>
      let slot := Z.of_nat (size (slot_mem P)) in
      (slot, mkPoller (registered_sockets P) [] (<[slot := req]> (slot_mem P)) (closed P))
  end.

Definition release_request_slot (slot : Z) (P : MioPoller) : outcome (IoCall * Z * MioPoller) :=
  req ← unchecked (slot_mem P !! slot);
  Val (req, mkPoller (registered_sockets P) (push_back (request_slots P) slot) (slot_mem P) (closed P)).

(** [twice] is whether [mio] registers a socket that is registered already. If
    it does, the old wrapper of the socket is dropped, which closes it. *)
Definition register (twice : bool) (req : IoCall * Z) (P : MioPoller) : outcome (Z * MioPoller) :=
  sock ← expect (raw_socket req.1);
  let '(slot, P) := write_request_and_get_ptr req P in
  let reg := <[sock := slot]> (registered_sockets P) in
  match registered_sockets P !! sock with
  | None => Val (slot, mkPoller reg (request_slots P) (slot_mem P) (closed P))
  | Some _ =>
      rassert twice;;
      Val (slot, mkPoller reg (request_slots P) (slot_mem P) (push_back (closed P) sock))
  end.

Definition deregister_ (sock : Z) (P : MioPoller) : outcome MioPoller :=
  _ ← expect (registered_sockets P !! sock);
  Val (mkPoller (delete sock (registered_sockets P)) (request_slots P) (slot_mem P) (closed P)).

Definition deregister (sock slot : Z) (P : MioPoller) : outcome MioPoller :=
  '(_, P) ← release_request_slot slot P;
  deregister_ sock P.

(** What [mio] reports of a token. *)
Record Event := mkEvent { token : Z; is_error : bool; is_readable : bool; is_writable : bool }.

(** A polled request: whether it is ready rather than failed. *)
Record Polled := mkPolled { polled_ok : bool; polled_call : IoCall; polled_ptr : Z }.

Definition poll_event (e : Event) (P : MioPoller) : outcome (Polled * MioPoller) :=
  '(req, P) ← release_request_slot (token e) P;
  sock ← expect (raw_socket req.1);
  P ← deregister_ sock P;
  Val (mkPolled (negb (is_error e || (negb (is_readable e) && negb (is_writable e)))) req.1 req.2, P).

Fixpoint MioPoller_poll (events : list Event) (requests : list Polled) (P : MioPoller)
    : outcome (list Polled * MioPoller) :=
  match events with
  | [] => Val (requests, P)
  | e :: events =>
      '(req, P) ← poll_event e P; MioPoller_poll events (push_back requests req) P
  end.

(** ** The requests that wait in the poller *)
Definition waiting (P : MioPoller) : gmap Z (IoCall * Z) :=
  omap (λ slot, slot_mem P !! slot) (registered_sockets P).

Record poller_ok (P : MioPoller) : Prop := {
  po_slots slot : slot ∈ dom (slot_mem P) ↔ 0 ≤ slot < Z.of_nat (size (slot_mem P));
  po_nodup : NoDup (request_slots P);
  po_free slot : slot ∈ request_slots P → slot ∈ dom (slot_mem P);
  po_reg sock slot : registered_sockets P !! sock = Some slot →
    (slot ∉ request_slots P) ∧ ∃ call a, slot_mem P !! slot = Some (call, a) ∧ raw_socket call = Some sock;
}.

Lemma poller_ok_new : poller_ok MioPoller_new.
Proof.
  split; simpl.
  - intros slot. rewrite dom_empty_L, map_size_empty. split; [set_solver|lia].
  - constructor.
  - by intros ? ?%elem_of_nil.
  - intros sock slot. by rewrite lookup_empty.
Qed.

Lemma waiting_Some P sock call a :
  waiting P !! sock = Some (call, a) ↔
  ∃ slot, registered_sockets P !! sock = Some slot ∧ slot_mem P !! slot = Some (call, a).
Proof.
  unfold waiting. rewrite lookup_omap. destruct (registered_sockets P !! sock) as [slot|] eqn:Hr; simpl;
    [|naive_solver]. split; [eauto|]. by intros (? & [= <-] & ?).
Qed.

(** The slot that is written is free, or new. *)
Lemma write_request_ok req P :
  poller_ok P → ∃ slot P', write_request_and_get_ptr req P = (slot, P') ∧
    registered_sockets P' = registered_sockets P ∧ slot_mem P' = <[slot := req]> (slot_mem P) ∧
    closed P' = closed P ∧ (slot ∉ request_slots P') ∧ NoDup (request_slots P') ∧
    (∀ x, x ∈ request_slots P' → x ∈ request_slots P) ∧
    (∀ x, x ∈ dom (slot_mem P') ↔ 0 ≤ x < Z.of_nat (size (slot_mem P'))) ∧
    ∀ sock slot', registered_sockets P !! sock = Some slot' → slot' ≠ slot.
Proof.
  intros [H1 H2 H3 H4]. unfold write_request_and_get_ptr.
  destruct (pop_back (request_slots P)) as [[slot rest]|] eqn:Hp.
  - apply pop_back_Some in Hp. rewrite Hp in *. apply NoDup_app in H2 as (Hnd & Hdis & _).
    assert (slot ∈ dom (slot_mem P)) as Hd by (apply H3; set_solver).
    eexists _, _. split; [done|]. simpl. split_and!; try done.
    + intros Hin. apply (Hdis slot Hin). set_solver.
    + intros x ?. set_solver.
    + intros x. apply elem_of_dom in Hd as [y Hy].
      rewrite dom_insert_lookup_L, map_size_insert_Some by eauto. apply H1.
    + intros sock slot' Hr ->. destruct (H4 sock slot Hr) as [Hn _]. set_solver.
  - apply pop_back_None in Hp. rewrite Hp in *. eexists _, _. split; [done|]. simpl.
    assert (slot_mem P !! Z.of_nat (size (slot_mem P)) = None) as Hn.
    { apply not_elem_of_dom. rewrite H1. lia. }
    split_and!; [done..|apply not_elem_of_nil|constructor|by intros ? ?%elem_of_nil| |].
    + intros x. rewrite dom_insert_L, map_size_insert_None by done. set_unfold. rewrite H1. lia.
    + intros sock slot' Hr ->. destruct (H4 sock _ Hr) as (_ & ? & ? & ? & _). congruence.
Qed.

Lemma fallback_register_ok twice call a sock P :
  poller_ok P → raw_socket call = Some sock → registered_sockets P !! sock = None →
  ∃ slot P', register twice (call, a) P = Val (slot, P') ∧ poller_ok P' ∧
    registered_sockets P' = <[sock := slot]> (registered_sockets P) ∧
    slot_mem P' = <[slot := (call, a)]> (slot_mem P) ∧
    waiting P' = <[sock := (call, a)]> (waiting P) ∧
    (∀ sock slot', registered_sockets P !! sock = Some slot' → slot' ≠ slot).
Proof.
  intros HP Hs Hn. unfold register. simpl. rewrite Hs. simpl.
  destruct (write_request_ok (call, a) P HP) as (slot & P1 & -> & Hr & Hm & Hc & Hns & Hnd & Hsub & Hd & Hne).
  rewrite Hr, Hn. eexists _, _. split; [done|]. destruct HP as [H1 H2 H3 H4].
  split_and!; try done.
  - split; simpl; try done.
    + intros x Hx. rewrite Hm, dom_insert_L. specialize (H3 x (Hsub x Hx)). set_solver.
    + intros sk sl. rewrite lookup_insert, Hm. case_decide as Hd'.
      * intros [= <-]. split; [done|]. rewrite lookup_insert_eq. subst sk. eauto.
      * intros Hsk. rewrite lookup_insert_ne by (intros ->; by apply (Hne sk sl)).
        destruct (H4 sk sl Hsk) as [Hf ?]. split; [|done]. intros Hin. by apply Hf, Hsub.
  - unfold waiting. simpl. rewrite Hm. apply map_eq. intros sk. rewrite lookup_omap, !lookup_insert.
    case_decide; simpl; [by rewrite lookup_insert_eq|]. rewrite lookup_omap.
    destruct (registered_sockets P !! sk) as [sl|] eqn:Hsk; [|done]. simpl.
    rewrite lookup_insert_ne; [done|]. intros ->. by apply (Hne sk sl).
Qed.

(** A socket that is taken out of the poller with its slot. *)
Lemma deregister_ok call a sock slot P :
  poller_ok P → registered_sockets P !! sock = Some slot → slot_mem P !! slot = Some (call, a) →
  ∃ P1 P', release_request_slot slot P = Val (call, a, P1) ∧ deregister_ sock P1 = Val P' ∧
    poller_ok P' ∧ registered_sockets P' = delete sock (registered_sockets P) ∧
    slot_mem P' = slot_mem P ∧ waiting P' = delete sock (waiting P).
Proof.
  intros [H1 H2 H3 H4] Hr Hm. destruct (H4 sock slot Hr) as (Hnf & call' & a' & Hm' & Hs). simplify_eq.
  unfold release_request_slot, deregister_. rewrite Hm. simpl. eexists _, _. split; [done|]. simpl.
  rewrite Hr. simpl. split; [done|]. simpl. split_and!; try done.
  - split; simpl; try done.
    + unfold push_back. apply NoDup_app. split_and!; [done| |repeat constructor; set_solver]. set_solver.
    + intros x. unfold push_back. rewrite elem_of_app, list_elem_of_singleton. intros [Hx|Hx]; [by apply H3|].
      subst x. by eapply elem_of_dom_2.
    + intros sk sl [Hne Hsk]%lookup_delete_Some. destruct (H4 sk sl Hsk) as (Hf & c & b & Hc & Hcs).
      split; [|eauto]. unfold push_back. rewrite elem_of_app, list_elem_of_singleton. intros [?|Heq]; [done|].
      subst sl. congruence.
  - unfold waiting. simpl. apply map_eq. intros sk. rewrite lookup_omap, !lookup_delete.
    case_decide; simpl; [done|]. by rewrite lookup_omap.
Qed.
