(* ===== verification/FallbackWorker.v ===== *)
(** * The IO worker on systems without io_uring

    Models [src/src/io/sys/fallback/worker.rs]: a worker that makes system
    calls itself, without blocking, and lets sockets that are not ready wait
    in the poller of [Fallback]. [sys] is how the system answers the attempts
    of a call; a call that is interrupted is made again. *)

From Stdlib Require Import ZArith Lia Sorting.Sorted.
From S2P Require Import Prelude BTree Task IoTypes Fallback.

Local Open Scope Z_scope.

(** [TimeBoundedIoTask] without its deadline, which is its key. *)
Record TimeBounded := mkTB { tb_user_data : Z; tb_raw_socket : Z; tb_slot_ptr : Z }.

Record FallbackWorker := mkFW {
  number_of_active_tasks : Z;
  poller : MioPoller;
  time_bounded_io_task_queue : list (Z * TimeBounded);
  last_gotten_time : Z;
  polled_requests : list Polled;
}.

Definition FallbackWorker_new (now : Z) : FallbackWorker := mkFW 0 MioPoller_new [] now [].

Definition set_active (n : Z) (w : FallbackWorker) : FallbackWorker :=
  mkFW n (poller w) (time_bounded_io_task_queue w) (last_gotten_time w) (polled_requests w).
Definition set_poller (P : MioPoller) (w : FallbackWorker) : FallbackWorker :=
  mkFW (number_of_active_tasks w) P (time_bounded_io_task_queue w) (last_gotten_time w) (polled_requests w).
Definition set_queue (q : list (Z * TimeBounded)) (w : FallbackWorker) : FallbackWorker :=
  mkFW (number_of_active_tasks w) (poller w) q (last_gotten_time w) (polled_requests w).
Definition set_time (now : Z) (w : FallbackWorker) : FallbackWorker :=
  mkFW (number_of_active_tasks w) (poller w) (time_bounded_io_task_queue w) now (polled_requests w).
Definition set_polled (l : list Polled) (w : FallbackWorker) : FallbackWorker :=
  mkFW (number_of_active_tasks w) (poller w) (time_bounded_io_task_queue w) (last_gotten_time w) l.

(** What the code does with the task of a request it finished while that task
    is running: a shared task cannot be queued before it stops. *)
Definition complete_running (p : profile) (a : Z) (r : Result Z) (m : Mem) : outcome (Mem * Action) :=
  f ← get_mut a m;
  '(t, d) ← IoRequestData_task p (set_ret r (io_request_data f));
  Val (write_req a d m,
       if Task_is_local t then SpawnLocalTask t
       else InvokeCall PushCurrentTaskAtTheStartOfLIFOSharedQueue).

(** [check_deadline_and!] *)
Definition check_deadline_and (p : profile) (d a : Z) (w : FallbackWorker) (m : Mem)
    (op : outcome (FallbackWorker * Mem * list Action)) : outcome (FallbackWorker * Mem * list Action) :=
  if last_gotten_time w <? d then op
  else '(m, act) ← complete_running p a (Err (Simple TimedOut)) m; Val (w, m, [act]).

(** The loop ends within one turn more than there are entries. *)
Definition register_deadline (slot : Z) (w : FallbackWorker) (m : Mem) : outcome (FallbackWorker * Mem) :=
  '(call, a) ← unchecked (slot_mem (poller w) !! slot);
  d_ptr ← expect (deadline_mut call);
  f ← get_mut d_ptr m;
  d ← unchecked (fut_deadline f);
  sock ← expect (raw_socket call);
  '(d, q) ← unchecked (insert_first_free (S (length (time_bounded_io_task_queue w))) d
    (mkTB a sock slot) (time_bounded_io_task_queue w));
  Val (set_queue q w, write_deadline d_ptr d m).

(** [register] of the poller, and of the deadline if there is one. *)
Definition register_to_poller (twice : bool) (call : IoCall) (a : Z) (w : FallbackWorker) (m : Mem)
    : outcome (FallbackWorker * Mem) :=
  '(slot, P) ← register twice (call, a) (poller w);
  match deadline_mut call with
  | Some _ => register_deadline slot (set_poller P w) m
  | None => Val (set_poller P w, m)
  end.

Definition register_io_call_to_poller_with_considering_deadline (twice : bool) (p : profile)
    (call : IoCall) (a : Z) (w : FallbackWorker) (m : Mem) : outcome (FallbackWorker * Mem) :=
  n ← usize_add p (number_of_active_tasks w) 1;
  rassert (is_recv_pollable call || is_send_pollable call || is_both_pollable call);;
  register_to_poller twice call a (set_active n w) m.

Definition is_in_progress (e : Error) : bool := bool_decide (raw_os_error e = Some EINPROGRESS).

Definition must_wait (e : Error) : bool :=
  bool_decide (Error_kind e = WouldBlock) || is_in_progress e.

(** [handle_io_call] *)
Definition handle_io_call (twice : bool) (fuel : nat) (sys : nat → LibCall → Result Z) (p : profile)
    (call : IoCall) (a : Z) (w : FallbackWorker) (m : Mem) : outcome (FallbackWorker * Mem * list Action) :=
  o ← retry_interrupted fuel (λ i, do_io_work (sys i) call) 0;
  r ← unchecked o;
  match r with
  | Err e =>
      if must_wait e then
        '(w, m) ← register_io_call_to_poller_with_considering_deadline twice p call a w m;
        Val (w, m, [])
      else '(m, act) ← complete_running p a r m; Val (w, m, [act])
  | Ok _ => '(m, act) ← complete_running p a r m; Val (w, m, [act])
  end.

(** [handle_io_operation] *)
Definition handle_io_operation (fuel : nat) (work : nat → Result Z) (p : profile) (a : Z) (m : Mem)
    : outcome (Mem * list Action) :=
  o ← retry_interrupted fuel (λ i, Val (work i)) 0;
  r ← unchecked o;
  match r with
  | Err e => rassert (negb (must_wait e))
  | Ok _ => Val ()
  end;;
  '(m, act) ← complete_running p a r m;
  Val (m, [act]).

(** The closures of the operations that are not on sockets. *)
Definition file_work (sys : LibCall → Result Z) (op : FileOp) : Result Z :=
  match op with
  | socket domain sock_type protocol => sys (lib_call (socket_op domain sock_type protocol))
  | shutdown s how => sys (lib_call (shutdown_op s how))
  | open path how => sys (lib_call (open_op path how))
  | fallocate _ _ _ _ => Ok 0
  | sync_all f => sys (lib_call (fsync_op f))
  | sync_data f => sys (lib_call (fsync_data_op f))
  | read f ptr len | read_fixed f ptr len _ => sys (lib_call (read_op f ptr len))
  | pread f ptr len offset | pread_fixed f ptr len _ offset => sys (lib_call (read_at_op f offset ptr len))
  | write f ptr len | write_fixed f ptr len _ => sys (lib_call (write_op f ptr len))
  | pwrite f ptr len offset | pwrite_fixed f ptr len _ offset =>
      sys (lib_call (write_at_op f offset ptr len))
  | close_file f => let _ := sys (lib_call (close_file_op f)) in Ok 0
  | close_socket s => let _ := sys (lib_call (close_socket_op s)) in Ok 0
  | rename from to => sys (lib_call (rename_op from to))
  | create_dir path mode => sys (lib_call (mkdir_op path mode))
  | remove_file path => sys (lib_call (unlink_op path))
  | remove_dir path => sys (lib_call (rmdir_op path))
  end.

(** The methods of the trait. Those that only wait go to the poller at once. *)
Definition net_request (twice : bool) (fuel : nat) (sys : nat → LibCall → Result Z) (p : profile)
    (op : NetOp) (call : IoCall) (a : Z) (w : FallbackWorker) (m : Mem)
    : outcome (FallbackWorker * Mem * list Action) :=
  if is_poll_op op then
    n ← usize_add p (number_of_active_tasks w) 1;
    '(w, m) ← register_to_poller twice call a (set_active n w) m;
    Val (w, m, [])
  else handle_io_call twice fuel sys p call a w m.

Definition fallback_request (twice : bool) (fuel : nat) (sys : nat → LibCall → Result Z) (p : profile)
    (op : IoOp) (a : Z) (w : FallbackWorker) (m : Mem) : outcome (FallbackWorker * Mem * list Action) :=
  match op with
  | Net op => net_request twice fuel sys p op (net_call op) a w m
  | NetWithDeadline op d =>
      check_deadline_and p d a w m
        (net_request twice fuel sys p op (net_call_with_deadline op a) a w m)
  | File op => '(m, acts) ← handle_io_operation fuel (λ i, file_work (sys i) op) p a m; Val (w, m, acts)
  end.

Definition fallback_deregister (d : Z) (w : FallbackWorker) : FallbackWorker :=
  set_queue (btree_remove d (time_bounded_io_task_queue w)) w.

Definition fallback_has_work (w : FallbackWorker) : bool := 0 <? number_of_active_tasks w.

Definition fallback_io_worker (twice : bool) (fuel : nat) (sys : nat → LibCall → Result Z)
    : IoWorker FallbackWorker := {|
  deregister_time_bounded_io_task := fallback_deregister;
  has_work := fallback_has_work;
  request := fallback_request twice fuel sys;
|}.

(** ** Polling

    [poll_and_process] up to its loop: the number of polled requests. [polled]
    is what the system's poll returns; an error (a signal that interrupts it,
    for one) is unwrapped. *)
Definition poll_unwrap (polled : Result (list Event)) : outcome (list Event) :=
  match polled with
  | Ok events => Val events
  | Err _ => Panicked
  end.

Definition poll_begin (polled : Result (list Event)) (w : FallbackWorker) : outcome (Z * FallbackWorker) :=
  events ← poll_unwrap polled;
  '(reqs, P) ← MioPoller_poll events (polled_requests w) (poller w);
  Val (Z.of_nat (length reqs), set_polled reqs (set_poller P w)).

Definition schedule_io_call_that_not_retriable (p : profile) (call : IoCall) (a : Z) (m : Mem)
    : outcome (Mem * Action) :=
  match p with Debug => r ← must_retry call; rassert (negb r) | Release => Val () end;;
  complete_request p a (Ok 0) m.

(** [time_bounded_io_task_queue.remove], which must find the deadline. *)
Definition remove_deadline (d : Z) (w : FallbackWorker) : outcome FallbackWorker :=
  rassert (btree_mem d (time_bounded_io_task_queue w));; Val (fallback_deregister d w).

(** One turn of the loop of [poll_and_process]. *)
Definition process_turn (twice : bool) (fuel : nat) (sys : nat → LibCall → Result Z) (p : profile)
    (q : Polled) (w : FallbackWorker) (m : Mem) : outcome (FallbackWorker * Mem * list Action) :=
  let call := polled_call q in let a := polled_ptr q in
  d ← deadline call m;
  w ← match d with Some d => remove_deadline d w | None => Val w end;
  if polled_ok q then
    let go :=
      retry ← must_retry call;
      if retry : bool then handle_io_call twice fuel sys p call a w m
      else '(m, act) ← schedule_io_call_that_not_retriable p call a m; Val (w, m, [act]) in
    match d with
    | Some d => check_deadline_and p d a w m go
    | None => go
    end
  else
    n ← usize_sub p (number_of_active_tasks w) 1;
    '(m, act) ← complete_request p a (Err (Simple OtherKind)) m;
    Val (set_active n w, m, [act]).

(** The end of [poll_and_process]. *)
Definition poll_end (p : profile) (len : Z) (w : FallbackWorker) : outcome FallbackWorker :=
  n ← usize_sub p (number_of_active_tasks w) len;
  Val (set_polled [] (set_active n w)).

(** One turn of the loop of [check_deadlines], or none if nothing is due; the
    count is lowered after the task was executed, which does not look at it. *)
Definition check_deadlines_turn (p : profile) (w : FallbackWorker) (m : Mem)
    : outcome (option (FallbackWorker * Mem * Action)) :=
  match time_bounded_io_task_queue w with
  | [] => Val None
  | (d, t) :: q =>
      if d <=? last_gotten_time w then
        P ← deregister (tb_raw_socket t) (tb_slot_ptr t) (poller w);
        '(m, act) ← complete_request p (tb_user_data t) (Err (Simple TimedOut)) m;
        n ← usize_sub p (number_of_active_tasks w) 1;
        Val (Some (set_active n (set_queue q (set_poller P w)), m, act))
      else Val None
  end.

(** ** The requests a worker is responsible for

    [todo] are the polled requests that are still to be processed, [extra]
    the request that is being handled, [n] how many polled requests the count
    still includes, [h] the requests whose task was handed to the executor. *)
Definition live (w : FallbackWorker) (todo : list Polled) : list (IoCall * Z) :=
  (map_to_list (waiting (poller w))).*2 ++ ((λ q, (polled_call q, polled_ptr q)) <$> todo).

Record Core (w : FallbackWorker) (m : Mem) (h : gset Z) (todo : list Polled) (extra : list Z) (n : Z)
    : Prop := {
  c_poller : poller_ok (poller w);
  c_pending : (live w todo).*2 ++ extra ≡ₚ elements (dom m ∖ h);
  c_handed : h ⊆ dom m;
  c_active : number_of_active_tasks w = Z.of_nat (size (waiting (poller w))) + n;
  c_fresh a f : m !! a = Some f → a ∉ h →
    was_executed (io_request_data f) = false ∧ Task_is_local (task (io_request_data f)) = true;
  c_sorted : keys_sorted (time_bounded_io_task_queue w);
  c_fwd call a x : (call, a) ∈ live w todo → deadline_mut call = Some x →
    x = a ∧ ∃ f d t, m !! a = Some f ∧ fut_deadline f = Some d ∧
      (d, t) ∈ time_bounded_io_task_queue w ∧ tb_user_data t = a;
  c_bwd d t : (d, t) ∈ time_bounded_io_task_queue w →
    ∃ call f, (call, tb_user_data t) ∈ live w todo ∧ deadline_mut call = Some (tb_user_data t) ∧
      m !! tb_user_data t = Some f ∧ fut_deadline f = Some d;
  c_slot d t sock call : (d, t) ∈ time_bounded_io_task_queue w →
    waiting (poller w) !! sock = Some (call, tb_user_data t) →
    tb_raw_socket t = sock ∧ registered_sockets (poller w) !! sock = Some (tb_slot_ptr t);
  c_socks : NoDup ((λ q, raw_socket (polled_call q)) <$> todo);
  c_free q : q ∈ todo → ∃ sock, raw_socket (polled_call q) = Some sock ∧
    registered_sockets (poller w) !! sock = None;
}.

Lemma core_nodup w m h todo extra n : Core w m h todo extra n → NoDup ((live w todo).*2 ++ extra).
Proof. intros HC. rewrite (c_pending _ _ _ _ _ _ HC). apply NoDup_elements. Qed.

Lemma live_dom w m h todo extra n call a :
  Core w m h todo extra n → (call, a) ∈ live w todo → a ∈ dom m ∖ h.
Proof.
  intros HC Hin. apply elem_of_elements. rewrite <- (c_pending _ _ _ _ _ _ HC).
  apply elem_of_app. left. apply list_elem_of_fmap. by exists (call, a).
Qed.

Lemma extra_dom w m h todo a extra n :
  Core w m h todo (a :: extra) n → a ∈ dom m ∖ h ∧ ∀ call, (call, a) ∉ live w todo.
Proof.
  intros HC. split.
  - apply elem_of_elements. rewrite <- (c_pending _ _ _ _ _ _ HC). set_solver.
  - intros call Hin. apply core_nodup in HC. apply NoDup_app in HC as (_ & Hd & _).
    apply (Hd a); [|by left]. apply list_elem_of_fmap. by exists (call, a).
Qed.

Lemma write_req_lookup a d (m : Mem) b :
  write_req a d m !! b =
    if decide (b = a) then (λ f, mkFut d (fut_deadline f)) <$> m !! a else m !! b.
Proof. unfold write_req. case_decide as Hb; [subst; by rewrite lookup_alter_eq|by rewrite lookup_alter_ne]. Qed.

Lemma dom_write_req a d (m : Mem) : dom (write_req a d m) = dom m.
Proof. unfold write_req. by rewrite dom_alter_L. Qed.

(** The task of the request that is being handled is handed out. *)
Lemma core_handed w m h todo a extra n d :
  Core w m h todo (a :: extra) n → Core w (write_req a d m) ({[a]} ∪ h) todo extra n.
Proof.
  intros HC. destruct (extra_dom _ _ _ _ _ _ _ HC) as [Had Hnl].
  destruct HC as [C1 C2 C3 C4 C5 C6 C7 C8 C9 C10 C11].
  assert (∀ b f, m !! b = Some f → ∃ g, write_req a d m !! b = Some g ∧ fut_deadline g = fut_deadline f) as Hw.
  { intros b f Hf. rewrite write_req_lookup. case_decide; [subst; rewrite Hf; eauto|eauto]. }
  split; try done.
  - apply (Permutation_cons_inv (a := a)). rewrite dom_write_req, Permutation_middle, C2.
    rewrite <- elements_union_singleton by set_solver. f_equiv. intros x.
    destruct (decide (x = a)) as [->|]; set_solver.
  - rewrite dom_write_req. set_solver.
  - intros b f Hf Hnh. rewrite write_req_lookup in Hf. case_decide; [set_solver|]. apply (C5 b f Hf). set_solver.
  - intros call b x Hin Hd. destruct (C7 call b x Hin Hd) as (-> & f & d' & t & Hf & Hfd & ?).
    split; [done|]. destruct (Hw b f Hf) as (g & Hg & Hgd). exists g, d', t. rewrite Hgd. done.
  - intros d' t Hin. destruct (C8 d' t Hin) as (call & f & Hl & Hdm & Hf & Hfd).
    destruct (Hw _ f Hf) as (g & Hg & Hgd). exists call, g. rewrite Hgd. done.
Qed.

Lemma core_request w m h todo a extra n :
  Core w m h todo (a :: extra) n → ∃ f, m !! a = Some f ∧
    was_executed (io_request_data f) = false ∧ Task_is_local (task (io_request_data f)) = true.
Proof.
  intros HC. destruct (extra_dom _ _ _ _ _ _ _ HC) as [[[f Hf]%elem_of_dom Hnh]%elem_of_difference _].
  exists f. split; [done|]. by apply (c_fresh _ _ _ _ _ _ HC a).
Qed.

Lemma core_complete_running p w m h todo a extra n r :
  Core w m h todo (a :: extra) n → ∃ m' t, complete_running p a r m = Val (m', SpawnLocalTask t) ∧
    Core w m' ({[a]} ∪ h) todo extra n.
Proof.
  intros HC. destruct (core_request _ _ _ _ _ _ _ HC) as (f & Hf & Hwe & Hl).
  unfold complete_running, get_mut, IoRequestData_task. rewrite Hf. simpl.
  destruct p; simpl; rewrite ?Hwe; simpl; rewrite Hl; eexists _, _; (split; [done|]); by apply core_handed.
Qed.

Lemma core_complete_request p w m h todo a extra n r :
  Core w m h todo (a :: extra) n → ∃ m' t, complete_request p a r m = Val (m', ExecTask t) ∧
    Core w m' ({[a]} ∪ h) todo extra n.
Proof.
  intros HC. destruct (core_request _ _ _ _ _ _ _ HC) as (f & Hf & Hwe & Hl).
  unfold complete_request, get_mut, IoRequestData_task, exec_or_spawn. rewrite Hf. simpl.
  destruct p; simpl; rewrite ?Hwe; simpl; rewrite Hl; eexists _, _; (split; [done|]); by apply core_handed.
Qed.

(** What the deadline of a call has to be for it to be registered. *)
Definition deadline_here (call : IoCall) (a : Z) (m : Mem) : Prop :=
  match deadline_mut call with
  | None => True
  | Some x => x = a ∧ ∃ f d, m !! a = Some f ∧ fut_deadline f = Some d
  end.

Lemma live_register w P sock call a todo :
  waiting P = <[sock := (call, a)]> (waiting (poller w)) → waiting (poller w) !! sock = None →
  ∀ w', poller w' = P → live w' todo ≡ₚ (call, a) :: live w todo.
Proof. intros HP Hn w' Hw. unfold live. rewrite Hw, HP, map_to_list_insert by done. done. Qed.

Lemma write_deadline_lookup a d (m : Mem) b :
  write_deadline a d m !! b =
    if decide (b = a) then (λ f, mkFut (io_request_data f) (Some d)) <$> m !! a else m !! b.
Proof. unfold write_deadline. case_decide as Hb; [subst; by rewrite lookup_alter_eq|by rewrite lookup_alter_ne]. Qed.

(** The request that is being handled waits in the poller from now on. *)
Lemma core_wait w m h todo a extra n sock call P slot :
  Core w m h todo (a :: extra) (n + 1) → raw_socket call = Some sock → registered_sockets (poller w) !! sock = None →
  raw_socket call ∉ ((λ q, raw_socket (polled_call q)) <$> todo) →
  poller_ok P → registered_sockets P = <[sock := slot]> (registered_sockets (poller w)) →
  waiting P = <[sock := (call, a)]> (waiting (poller w)) →
  (∀ q d, (deadline_mut call = None → q = time_bounded_io_task_queue w ∧ d = None) →
    (∀ x, deadline_mut call = Some x → x = a ∧ ∃ k, d = Some k ∧
      (k ∉ (time_bounded_io_task_queue w).*1) ∧
      q = btree_insert k (mkTB a sock slot) (time_bounded_io_task_queue w)) →
    Core (set_queue q (set_poller P w)) (if d is Some k then write_deadline a k m else m) h todo extra n).
Proof.
  intros HC Hs Hn Hnt HP Hreg Hwait q d Hnone Hsome.
  destruct (extra_dom _ _ _ _ _ _ _ HC) as [Had Hnl].
  assert (waiting (poller w) !! sock = None) as Hwn by (unfold waiting; by rewrite lookup_omap, Hn).
  pose proof (live_register w P sock call a todo Hwait Hwn (set_queue q (set_poller P w)) eq_refl) as Hl.
  destruct HC as [C1 C2 C3 C4 C5 C6 C7 C8 C9 C10 C11].
  set (m' := if d is Some k then write_deadline a k m else m).
  assert (dom m' = dom m) as Hdom by (unfold m', write_deadline; destruct d; [apply dom_alter_L|done]).
  assert (∀ b, b ≠ a → m' !! b = m !! b) as Hother.
  { intros b Hb. unfold m'. destruct d; [|done]. rewrite write_deadline_lookup. by case_decide. }
  assert (∀ e t, (e, t) ∈ q ↔ (e, t) ∈ time_bounded_io_task_queue w ∨
    deadline_mut call ≠ None ∧ d = Some e ∧ t = mkTB a sock slot) as Hq.
  { intros e t. destruct (deadline_mut call) as [x|].
    - destruct (Hsome x eq_refl) as (_ & k & -> & Hk & ->). rewrite (btree_insert_Permutation _ _ _ Hk).
      rewrite elem_of_cons. naive_solver.
    - destruct (Hnone eq_refl) as [-> ->]. naive_solver. }
  destruct (proj1 (elem_of_dom m a) (proj1 (proj1 (elem_of_difference _ _ _) Had))) as [f Hf].
  split; simpl; try done.
  - rewrite Hl, Hdom. csimpl. rewrite <- C2. solve_Permutation.
  - by rewrite Hdom.
  - rewrite Hwait, map_size_insert_None by done. lia.
  - intros b g Hg Hnh. destruct (decide (b = a)) as [->|Hb]; [|rewrite Hother in Hg by done; by eapply C5].
    destruct (C5 a f Hf Hnh) as [? ?]. unfold m' in Hg. destruct d as [k|]; [|by simplify_eq].
    rewrite write_deadline_lookup, decide_True, Hf in Hg by done. by simplify_eq/=.
  - destruct (deadline_mut call) as [x|]; [|by destruct (Hnone eq_refl) as [-> _]].
    destruct (Hsome x eq_refl) as (_ & k & _ & Hk & ->). by apply btree_insert_sorted.
  - intros c b x. rewrite Hl, elem_of_cons. intros [[= -> ->]|Hin] Hd.
    + destruct (Hsome x Hd) as (-> & k & -> & Hk & ->). split; [done|].
      exists (mkFut (io_request_data f) (Some k)), k, (mkTB a sock slot). split_and!; try done.
      * unfold m'. by rewrite write_deadline_lookup, decide_True, Hf.
      * rewrite (btree_insert_Permutation _ _ _ Hk). by left.
    + destruct (C7 c b x Hin Hd) as (-> & g & e & t & Hg & ? & ? & ?). split; [done|].
      exists g, e, t. rewrite Hother by (intros ->; by apply (Hnl c)). split_and!; try done. apply Hq. by left.
  - intros e t [Hin|(Hd & -> & ->)]%Hq.
    + destruct (C8 e t Hin) as (c & g & Hc & Hdc & Hg & ?). exists c, g.
      rewrite Hl, Hother by (intros He; apply (Hnl c); by rewrite <- He). split_and!; try done. by right.
    + destruct (deadline_mut call) as [x|] eqn:Hx; [|done]. destruct (Hsome x eq_refl) as (-> & k & [= <-] & _).
      exists call, (mkFut (io_request_data f) (Some e)). simpl. rewrite Hl. split_and!; try done; [by left|].
      unfold m'. by rewrite write_deadline_lookup, decide_True, Hf.
  - intros e t sk c Hin. rewrite Hwait, Hreg, !lookup_insert. case_decide as Hsk.
    + intros [= <- Ht]. subst sk. apply Hq in Hin as [Hin|(_ & _ & ->)]; [|done].
      destruct (C8 e t Hin) as (c & g & Hc & _). rewrite <- Ht in Hc. by apply Hnl in Hc.
    + apply Hq in Hin as [Hin|(_ & _ & ->)]; [by apply (C9 e)|]. simpl. intros Hw.
      exfalso. apply (Hnl c). apply elem_of_app. left. apply list_elem_of_fmap.
      exists (sk, (c, a)). split; [done|]. by apply elem_of_map_to_list.
  - intros q' Hq'. destruct (C11 q' Hq') as (sk & Hsk & Hr). exists sk. split; [done|].
    rewrite Hreg, lookup_insert_ne; [done|]. intros ->. apply Hnt, list_elem_of_fmap. exists q'.
    split; [congruence|done].
Qed.

Lemma core_register twice w m h todo a extra n sock call :
  Core w m h todo (a :: extra) (n + 1) → raw_socket call = Some sock → registered_sockets (poller w) !! sock = None →
  raw_socket call ∉ ((λ q, raw_socket (polled_call q)) <$> todo) → deadline_here call a m →
  ∃ w' m', register_to_poller twice call a w m = Val (w', m') ∧ Core w' m' h todo extra n ∧
    last_gotten_time w' = last_gotten_time w ∧ polled_requests w' = polled_requests w.
Proof.
  intros HC Hs Hn Hnt Hd. unfold register_to_poller, deadline_here in *.
  destruct (fallback_register_ok twice call a sock (poller w) (c_poller _ _ _ _ _ _ HC) Hs Hn)
    as (slot & P & -> & HP & Hreg & Hmem & Hwait & _). cbn [mbind outcome_bind].
  pose proof (core_wait w m h todo a extra n sock call P slot HC Hs Hn Hnt HP Hreg Hwait) as Hcore.
  destruct (deadline_mut call) as [x|] eqn:Hx.
  - destruct Hd as (-> & f & d & Hf & Hfd). unfold register_deadline, get_mut.
    cbn [set_poller poller time_bounded_io_task_queue]. rewrite Hmem, lookup_insert_eq.
    cbn [mbind outcome_bind unchecked]. rewrite Hx. cbn [mbind outcome_bind expect]. rewrite Hf.
    cbn [mbind outcome_bind unchecked]. rewrite Hfd. cbn [mbind outcome_bind unchecked]. rewrite Hs.
    cbn [mbind outcome_bind expect].
    destruct (insert_first_free_spec d (mkTB a sock slot) (time_bounded_io_task_queue w))
      as (k & -> & _ & Hk & _). simpl. eexists _, _. split; [done|].
    split; [|done]. apply (Hcore _ (Some k)); [done|]. intros x [= <-]. split; [done|]. by exists k.
  - eexists _, _. split; [done|]. split; [|done].
    pose proof (Hcore (time_bounded_io_task_queue w) None (λ _, conj eq_refl eq_refl)) as Hcore'.
    apply Hcore'. done.
Qed.

Lemma live_cons w q todo :
  live w (q :: todo) ≡ₚ (polled_call q, polled_ptr q) :: live w todo.
Proof. unfold live. csimpl. solve_Permutation. Qed.

(** A polled request is taken from the batch; its deadline is in the queue and
    is removed. *)
Lemma core_pop w m h q todo extra n :
  Core w m h (q :: todo) extra n →
  let a := polled_ptr q in
  (∃ f, m !! a = Some f ∧
    match deadline_mut (polled_call q) with
    | None => deadline (polled_call q) m = Val None ∧ Core w m h todo (a :: extra) n
    | Some x => x = a ∧ ∃ d, fut_deadline f = Some d ∧ deadline (polled_call q) m = Val (Some d) ∧
        remove_deadline d w = Val (fallback_deregister d w) ∧
        Core (fallback_deregister d w) m h todo (a :: extra) n
    end) ∧
  ∃ sock, raw_socket (polled_call q) = Some sock ∧ registered_sockets (poller w) !! sock = None ∧
    raw_socket (polled_call q) ∉ ((λ q, raw_socket (polled_call q)) <$> todo).
Proof.
  intros HC a. pose proof (core_nodup _ _ _ _ _ _ HC) as Hnd. pose proof (live_cons w q todo) as Hl.
  destruct (elem_of_dom m a) as [[f Hf] _].
  { eapply elem_of_difference. eapply live_dom; [done|]. rewrite Hl. by left. }
  destruct HC as [C1 C2 C3 C4 C5 C6 C7 C8 C9 C10 C11].
  rewrite Hl in Hnd. csimpl in Hnd. apply NoDup_cons in Hnd as [Hna Hnd].
  assert (∀ c', (c', a) ∉ live w todo) as Hna'
    by (intros c' Hc'; apply Hna, elem_of_app; left; apply list_elem_of_fmap; by exists (c', a)).
  rewrite fmap_cons in C10. apply NoDup_cons in C10 as [Hns C10].
  split; [|destruct (C11 q) as (sock & ? & ?); [by left|]; by exists sock]. exists f. split; [done|].
  assert (∀ q', (∀ e t, (e, t) ∈ q' ↔ (e, t) ∈ time_bounded_io_task_queue w ∧ tb_user_data t ≠ a) →
    keys_sorted q' → Core (set_queue q' w) m h todo (a :: extra) n) as Hcore.
  { intros q' Hq' Hs'. split; try done.
    - rewrite <- C2, Hl. csimpl. fold a. solve_Permutation.
    - intros call b x Hin Hd. destruct (C7 call b x) as (-> & g & d & t & ? & ? & ? & Ht);
        [rewrite Hl; by right|done|]. split; [done|]. exists g, d, t. split_and!; try done.
      apply Hq'. split; [done|]. rewrite Ht. intros ->. by apply (Hna' call).
    - intros d t [Hin Hne]%Hq'. destruct (C8 d t Hin) as (call & g & Hc & ?). exists call, g.
      split; [|done]. rewrite Hl in Hc. apply elem_of_cons in Hc as [?|?]; [by simplify_eq|done].
    - intros d t sock call [Hin _]%Hq'. by apply (C9 d).
    - intros q0 ?. apply C11. by right. }
  unfold deadline. destruct (deadline_mut (polled_call q)) as [x|] eqn:Hx.
  - destruct (C7 (polled_call q) a x) as (-> & g & d & t & Hg & Hgd & Hin & Ht); [rewrite Hl; by left|done|].
    simplify_eq. split; [done|]. exists d. split; [done|]. unfold get_mut. rewrite Hf. simpl. rewrite Hgd.
    split; [done|]. unfold remove_deadline. rewrite (proj2 (btree_mem_elem d _)).
    2: { apply list_elem_of_fmap. by exists (d, t). }
    split; [done|]. apply Hcore; [|eapply keys_sorted_sublist; [apply filter_sublist|done]].
    intros e t'. unfold btree_remove. rewrite list_elem_of_filter. simpl. split.
    + intros [Hne Hin']. split; [done|]. intros Ht'. destruct (C8 e t' Hin') as (c & g & _ & _ & Hg' & ?).
      rewrite Ht' in Hg'. congruence.
    + intros [Hin' Hne]. split; [|done]. intros ->. apply Hne.
      by rewrite (keys_sorted_unique _ _ _ _ C6 Hin' Hin).
  - split; [done|]. replace w with (set_queue (time_bounded_io_task_queue w) w) by (by destruct w).
    apply Hcore; [|done]. intros e t. split; [|by intros [? _]]. intros Hin. split; [done|]. intros Ht.
    destruct (C8 e t Hin) as (c & g & Hc & Hdc & _). rewrite Ht in Hc, Hdc.
    rewrite Hl in Hc. apply elem_of_cons in Hc as [Hc|Hc]; [|by apply (Hna' c)]. congruence.
Qed.

(** A socket leaves the poller; its request joins the batch. *)
Lemma core_leave w m h todo extra n sock slot call a P ok :
  Core w m h todo extra n → registered_sockets (poller w) !! sock = Some slot →
  slot_mem (poller w) !! slot = Some (call, a) → poller_ok P →
  registered_sockets P = delete sock (registered_sockets (poller w)) →
  waiting P = delete sock (waiting (poller w)) →
  Core (set_poller P w) m h (todo ++ [mkPolled ok call a]) extra (n + 1).
Proof.
  intros [C1 C2 C3 C4 C5 C6 C7 C8 C9 C10 C11] Hr Hm HP Hreg Hwait.
  assert (waiting (poller w) !! sock = Some (call, a)) as Hw by (apply waiting_Some; eauto).
  destruct (po_reg _ C1 sock slot Hr) as (_ & call' & a' & Hm' & Hs). simplify_eq.
  assert (live (set_poller P w) (todo ++ [mkPolled ok call a]) ≡ₚ live w todo) as Hl.
  { unfold live. simpl. rewrite Hwait, <- (insert_delete_id (waiting (poller w)) sock _ Hw) at 1.
    rewrite delete_insert_eq, (delete_id (delete _ _)) by apply lookup_delete_eq.
    rewrite <- (insert_delete_id (waiting (poller w)) sock _ Hw) at 2.
    rewrite map_to_list_insert by apply lookup_delete_eq. rewrite fmap_app. csimpl. solve_Permutation. }
  assert (size (waiting (poller w)) = S (size (waiting P))) as Hsz.
  { rewrite Hwait, <- (insert_delete_id (waiting (poller w)) sock _ Hw) at 1.
    rewrite map_size_insert_None by apply lookup_delete_eq. done. }
  split; simpl; try done.
  - by rewrite Hl.
  - lia.
  - intros c b x. rewrite Hl. apply C7.
  - intros d t. setoid_rewrite Hl. apply C8.
  - intros d t sk c Hin. rewrite Hwait, Hreg, !lookup_delete. case_decide; [done|]. by apply (C9 d).
  - rewrite fmap_app. simpl. apply NoDup_app. split_and!; [done| |apply NoDup_singleton].
    intros x Hx Hin. rewrite list_elem_of_singleton in Hin. subst x.
    apply list_elem_of_fmap in Hx as (q & Hq & Hin). destruct (C11 q Hin) as (sk & Hsk & Hn). congruence.
  - intros q [Hq| ->%list_elem_of_singleton]%elem_of_app.
    + destruct (C11 q Hq) as (sk & ? & Hn). exists sk. rewrite Hreg, lookup_delete. case_decide; by auto.
    + exists sock. rewrite Hreg, lookup_delete_eq. done.
Qed.

Definition registered_tokens (P : MioPoller) (events : list Event) : Prop :=
  NoDup (token <$> events) ∧
  ∀ e, e ∈ events → ∃ sock, registered_sockets P !! sock = Some (token e).

(** A poll moves the requests of the reported tokens into the batch. *)
Lemma core_poll w m h events reqs extra n :
  Core w m h reqs extra n → registered_tokens (poller w) events →
  ∃ reqs' P, MioPoller_poll events reqs (poller w) = Val (reqs', P) ∧
    Core (set_poller P w) m h reqs' extra (n + Z.of_nat (length events)) ∧
    length reqs' = (length reqs + length events)%nat.
Proof.
  revert w reqs n. induction events as [|e events IH]; intros w reqs n HC [Hnd Hreg]; csimpl in *.
  - exists reqs, (poller w). split; [done|]. split; [|lia]. rewrite Z.add_0_r. by destruct w.
  - apply NoDup_cons in Hnd as [Hne Hnd]. destruct (Hreg e) as [sock Hs]; [by left|].
    destruct (po_reg _ (c_poller _ _ _ _ _ _ HC) sock _ Hs) as (_ & call & a & Hm & Hsock).
    destruct (deregister_ok call a sock (token e) (poller w) (c_poller _ _ _ _ _ _ HC) Hs Hm)
      as (P1 & P & Hrel & Hdereg & HP & Hr & Hm' & Hw).
    unfold poll_event. rewrite Hrel. simpl. rewrite Hsock. simpl. rewrite Hdereg. simpl.
    set (q := mkPolled _ _ _). unfold push_back.
    destruct (IH (set_poller P w) (reqs ++ [q]) (n + 1)) as (reqs' & P' & Hpoll & HC' & Hlen).
    + by eapply core_leave.
    + split; [done|]. intros e' He'. destruct (Hreg e') as [sk Hsk]; [by right|]. exists sk. simpl.
      rewrite Hr, lookup_delete_ne; [done|]. intros ->. apply Hne, list_elem_of_fmap. exists e'.
      split; [congruence|done].
    + simpl in Hpoll. rewrite Hpoll. eexists _, _. split; [done|].
      rewrite length_app in Hlen. simpl in Hlen. split; [|lia].
      replace (n + Z.of_nat (S (length events))) with (n + 1 + Z.of_nat (length events)) by lia. done.
Qed.

(** The future of a finished request takes the result. *)
Lemma core_resume w m h todo extra n a q :
  Core w m h todo extra n → a ∈ h → q = time_bounded_io_task_queue w →
  Core (set_queue q w) (delete a m) (h ∖ {[a]}) todo extra n.
Proof.
  intros HC Ha ->. assert (∀ c b, (c, b) ∈ live w todo → b ≠ a) as Hne.
  { intros c b Hin ->. eapply live_dom in Hin; [|done]. set_solver. }
  destruct HC as [C1 C2 C3 C4 C5 C6 C7 C8 C9 C10 C11]. split; simpl; try done.
  - rewrite dom_delete_L. etrans; [exact C2|]. f_equiv. intros b. destruct (decide (b = a)); set_solver.
  - rewrite dom_delete_L. set_solver.
  - intros b f [? Hf]%lookup_delete_Some Hnh. apply (C5 b f Hf). set_solver.
  - intros c b x Hin Hd. destruct (C7 c b x Hin Hd) as (-> & f & d & t & ? & ?). split; [done|].
    exists f, d, t. rewrite lookup_delete_ne; [done|]. apply not_eq_sym. by eapply Hne.
  - intros d t Hin. destruct (C8 d t Hin) as (c & f & Hc & ? & ?). exists c, f.
    rewrite lookup_delete_ne; [done|]. apply not_eq_sym. by eapply Hne.
Qed.

(** A future makes a request. *)
Lemma core_begin w m h todo extra n a f :
  Core w m h todo extra n → m !! a = None →
  was_executed (io_request_data f) = false → Task_is_local (task (io_request_data f)) = true →
  Core w (<[a := f]> m) h todo (a :: extra) n.
Proof.
  intros HC Hna Hwe Hloc. apply not_elem_of_dom in Hna as Hnd.
  assert (∀ c b, (c, b) ∈ live w todo → b ≠ a) as Hne.
  { intros c b Hin ->. eapply live_dom in Hin; [|done]. set_solver. }
  destruct HC as [C1 C2 C3 C4 C5 C6 C7 C8 C9 C10 C11]. split; simpl; try done.
  - rewrite dom_insert_L, difference_union_distr_l_L, (difference_disjoint_L {[a]}) by set_solver.
    rewrite elements_union_singleton by set_solver. rewrite <- C2. solve_Permutation.
  - set_solver.
  - intros b g. rewrite lookup_insert. case_decide; [by intros [= <-]|]. apply C5.
  - intros c b x Hin Hd. destruct (C7 c b x Hin Hd) as (-> & g & d & t & ? & ?). split; [done|].
    exists g, d, t. rewrite lookup_insert_ne; [done|]. apply not_eq_sym. by eapply Hne.
  - intros d t Hin. destruct (C8 d t Hin) as (c & g & Hc & ? & ?). exists c, g.
    rewrite lookup_insert_ne; [done|]. apply not_eq_sym. by eapply Hne.
Qed.

(** ** Calls *)
Definition pollable (c : IoCall) : bool := is_recv_pollable c || is_send_pollable c || is_both_pollable c.

Lemma socket_call c sock :
  raw_socket c = Some sock → pollable c = true ∧ ∃ retry, must_retry c = Val retry.
Proof. destruct c; naive_solver. Qed.

(** The system answers the attempts of a call with [r] after interruptions. *)
Definition settles (fuel : nat) (sys : nat → LibCall → Result Z) (call : IoCall) (r : Result Z) : Prop :=
  retry_interrupted fuel (λ i, do_io_work (sys i) call) 0 = Val (Some r).

Lemma net_call_deadline op a :
  raw_socket (net_call_with_deadline op a) = raw_socket (net_call op) ∧
  deadline_mut (net_call_with_deadline op a) = Some a ∧ deadline_mut (net_call op) = None ∧
  (∃ sock, raw_socket (net_call op) = Some sock) ∧
  (∀ fuel sys r, settles fuel sys (net_call op) r → settles fuel sys (net_call_with_deadline op a) r).
Proof. destruct op; simpl; eauto 10. Qed.

(** What handling a request leads to: it waits, or its task is spawned. *)
Definition handled (a : Z) (h : gset Z) (acts : list Action) (h' : gset Z) : Prop :=
  acts = [] ∧ h' = h ∨ ∃ act, acts = [act] ∧ h' = {[a]} ∪ h.

Lemma core_set_active w m h todo extra n k :
  Core w m h todo extra n → k = number_of_active_tasks w + 1 →
  Core (set_active k w) m h todo extra (n + 1).
Proof. intros [C1 C2 C3 C4 C5 C6 C7 C8 C9 C10 C11] ->. split; try done. simpl. rewrite C4. lia. Qed.

Lemma core_insensitive w w' m h todo extra n :
  poller w' = poller w → time_bounded_io_task_queue w' = time_bounded_io_task_queue w →
  number_of_active_tasks w' = Z.of_nat (size (waiting (poller w))) + n →
  ∀ n', Core w m h todo extra n' → Core w' m h todo extra n.
Proof.
  intros Hp Hq Ha n' [C1 C2 C3 C4 C5 C6 C7 C8 C9 C10 C11].
  split; unfold live in *; rewrite ?Hp, ?Hq; done.
Qed.

Record ready_call (call : IoCall) (a : Z) (w : FallbackWorker) (m : Mem) (todo : list Polled) : Prop := {
  rc_sock : ∃ sock, raw_socket call = Some sock ∧ registered_sockets (poller w) !! sock = None;
  rc_todo : raw_socket call ∉ ((λ q, raw_socket (polled_call q)) <$> todo);
  rc_deadline : deadline_here call a m;
  rc_active : number_of_active_tasks w + 1 < usize_modulus;
}.

Record step_ok (w w' : FallbackWorker) (m' : Mem) (a : Z) (h : gset Z) (acts : list Action)
    (todo : list Polled) (n : Z) : Prop := {
  so_core : ∃ h', handled a h acts h' ∧ Core w' m' h' todo [] n;
  so_time : last_gotten_time w' = last_gotten_time w;
  so_polled : polled_requests w' = polled_requests w;
}.

Lemma step_ok_deregister d w w' m' a h acts todo n :
  step_ok (fallback_deregister d w) w' m' a h acts todo n → step_ok w w' m' a h acts todo n.
Proof. by intros [? ? ?]. Qed.

Lemma spawn_ok p w m h todo a n r :
  Core w m h todo [a] n → ∃ m' act, complete_running p a r m = Val (m', act) ∧
    step_ok w w m' a h [act] todo n.
Proof.
  intros HC. destruct (core_complete_running p w m h todo a [] n r HC) as (m' & t & -> & HC').
  eexists _, _. split; [done|]. split; [|done..]. eexists. split; [|done]. right. eauto.
Qed.

Lemma fallback_wait_ok twice p w m h todo a n call :
  Core w m h todo [a] n → ready_call call a w m todo →
  ∃ w' m', (n ← usize_add p (number_of_active_tasks w) 1;
            '(w, m) ← register_to_poller twice call a (set_active n w) m; Val (w, m)) = Val (w', m') ∧
    step_ok w w' m' a h [] todo n.
Proof.
  intros HC [(sock & Hs & Hn) Ht Hd Hlt]. rewrite usize_add_Val by done. cbn [mbind outcome_bind].
  destruct (core_register twice (set_active (number_of_active_tasks w + 1) w) m h todo a [] n sock call)
    as (w' & m' & -> & HC' & ? & ?); try done; [by apply core_set_active|].
  eexists _, _. split; [done|]. split; [|done..]. exists h. split; [by left|done].
Qed.

Lemma handle_ok twice fuel sys p w m h todo a n call r :
  Core w m h todo [a] n → ready_call call a w m todo → settles fuel sys call r →
  ∃ w' m' acts, handle_io_call twice fuel sys p call a w m = Val (w', m', acts) ∧
    step_ok w w' m' a h acts todo n.
Proof.
  intros HC Hrc Hset. unfold handle_io_call. unfold settles in Hset. rewrite Hset. simpl.
  destruct (spawn_ok p w m h todo a n r HC) as (m1 & act & Hc & Hok).
  destruct r as [x|e]; [rewrite Hc; simpl; eauto|]. destruct (must_wait e); [|rewrite Hc; simpl; eauto].
  unfold register_io_call_to_poller_with_considering_deadline.
  destruct (rc_sock _ _ _ _ _ Hrc) as (sock & Hs & _). destruct (socket_call _ _ Hs) as [Hp _].
  unfold pollable in Hp. rewrite Hp.
  destruct (fallback_wait_ok twice p w m h todo a n call HC Hrc) as (w' & m' & Hw & Hok').
  destruct (usize_add p (number_of_active_tasks w) 1); try done. simpl in *.
  destruct (register_to_poller _ _ _ _ _) as [[? ?]| |]; try done. simpl in *. injection Hw as -> ->. eauto.
Qed.

Lemma schedule_ok p w m h todo a n call :
  Core w m h todo [a] n → must_retry call = Val false →
  ∃ m' act, schedule_io_call_that_not_retriable p call a m = Val (m', act) ∧ step_ok w w m' a h [act] todo n.
Proof.
  intros HC Hr. unfold schedule_io_call_that_not_retriable. rewrite Hr.
  destruct (core_complete_request p w m h todo a [] n (Ok 0) HC) as (m' & t & Hc & HC').
  destruct p; simpl; rewrite Hc; eexists _, _; (split; [done|]); (split; [|done..]);
    eexists; (split; [|done]); right; eauto.
Qed.

(** A turn of the loop over the polled requests that are ready. *)
Lemma process_ok twice fuel sys p w m h q todo n r :
  Core w m h (q :: todo) [] n → polled_ok q = true → number_of_active_tasks w + 1 < usize_modulus →
  (must_retry (polled_call q) = Val true → settles fuel sys (polled_call q) r) →
  ∃ w' m' acts, process_turn twice fuel sys p q w m = Val (w', m', acts) ∧
    step_ok w w' m' (polled_ptr q) h acts todo n.
Proof.
  intros HC Hok Hlt Hset. destruct (core_pop w m h q todo [] n HC) as [(f & Hf & Hd) (sock & Hs & Hn & Hnt)].
  unfold process_turn. rewrite Hok. set (a := polled_ptr q) in *.
  assert (∀ w1, Core w1 m h todo [a] n → poller w1 = poller w →
    number_of_active_tasks w1 = number_of_active_tasks w → deadline_here (polled_call q) a m →
    ∃ w' m' acts, (retry ← must_retry (polled_call q);
      if retry : bool then handle_io_call twice fuel sys p (polled_call q) a w1 m
      else '(m, act) ← schedule_io_call_that_not_retriable p (polled_call q) a m; Val (w1, m, [act])) =
        Val (w', m', acts) ∧ step_ok w1 w' m' a h acts todo n) as Hgo.
  { intros w1 HC1 Hp Ha Hdh. destruct (socket_call _ _ Hs) as [_ [retry Hr]]. rewrite Hr. simpl.
    destruct retry.
    - eapply handle_ok; [done| |by apply Hset]. split; try done; [|by rewrite Ha]. exists sock. by rewrite Hp.
    - destruct (schedule_ok p w1 m h todo a n _ HC1 Hr) as (m' & act & -> & ?). simpl. eauto. }
  destruct (deadline_mut (polled_call q)) as [x|] eqn:Hx.
  - destruct Hd as (-> & d & Hfd & -> & Hrem & HC1). simpl. rewrite Hrem. simpl. unfold check_deadline_and.
    destruct (last_gotten_time (fallback_deregister d w) <? d).
    + destruct (Hgo (fallback_deregister d w)) as (w' & m' & acts & -> & ?%step_ok_deregister); try done;
        [unfold deadline_here; rewrite Hx; eauto 6|eauto].
    + destruct (spawn_ok p _ m h todo a n (Err (Simple TimedOut)) HC1)
        as (m' & act & -> & ?%step_ok_deregister). simpl. eauto.
  - destruct Hd as [-> HC1]. simpl. apply Hgo; try done. unfold deadline_here. by rewrite Hx.
Qed.

(** A turn of [check_deadlines] that finds a request that is due. *)
Lemma core_due p w m h extra n d t q :
  Core w m h [] extra n → 0 ≤ n → time_bounded_io_task_queue w = (d, t) :: q → d ≤ last_gotten_time w →
  ∃ w' m' tk, check_deadlines_turn p w m = Val (Some (w', m', ExecTask tk)) ∧
    Core w' m' ({[tb_user_data t]} ∪ h) [] extra n ∧
    last_gotten_time w' = last_gotten_time w ∧ polled_requests w' = polled_requests w.
Proof.
  intros HC Hn Hq Hle. unfold check_deadlines_turn. rewrite Hq, (proj2 (Z.leb_le _ _) Hle).
  assert ((d, t) ∈ time_bounded_io_task_queue w) as Hin by (rewrite Hq; by left).
  destruct (c_bwd _ _ _ _ _ _ HC d t Hin) as (call & f & Hl & Hdm & Hf & Hfd).
  unfold live in Hl. simpl in Hl. rewrite app_nil_r in Hl.
  apply list_elem_of_fmap in Hl as ([sock x] & Hx & Hw%elem_of_map_to_list). simpl in Hx. subst x.
  destruct (c_slot _ _ _ _ _ _ HC d t sock call Hin Hw) as [<- Hr].
  apply waiting_Some in Hw as (slot & Hr' & Hm). assert (slot = tb_slot_ptr t) as -> by congruence.
  destruct (deregister_ok call (tb_user_data t) _ _ (poller w) (c_poller _ _ _ _ _ _ HC) Hr Hm)
    as (P1 & P & Hrel & Hdereg & HP & Hreg & _ & Hwait).
  unfold deregister. rewrite Hrel. simpl. rewrite Hdereg. simpl.
  pose proof (core_leave w m h [] extra n _ _ call _ P true HC Hr Hm HP Hreg Hwait) as HC1.
  destruct (core_pop _ _ _ _ _ _ _ HC1) as [(g & Hg & Hd) _]. cbn [polled_call polled_ptr] in *.
  rewrite Hdm in Hd. destruct Hd as (_ & d' & Hd' & _ & _ & HC2).
  assert (d' = d) as -> by congruence.
  destruct (core_complete_request p _ m h [] _ extra _ (Err (Simple TimedOut)) HC2) as (m' & tk & -> & HC3).
  cbn [mbind outcome_bind]. pose proof (c_active _ _ _ _ _ _ HC3) as Hact. simpl in Hact.
  rewrite usize_sub_Val by lia. cbn [mbind outcome_bind]. eexists _, _, _. split; [done|].
  split; [|done].
  assert (btree_remove d (time_bounded_io_task_queue w) = q) as Hrm.
  { pose proof (c_sorted _ _ _ _ _ _ HC) as Hs. rewrite Hq in *. apply keys_sorted_cons in Hs as [Hs _].
    unfold btree_remove. rewrite filter_cons_False by (simpl; tauto). apply filter_all.
    eapply Forall_impl; [done|]. simpl. lia. }
  unfold fallback_deregister in HC3. simpl in HC3. rewrite Hrm in HC3.
  destruct HC3 as [C1 C2 C3 C4 C5 C6 C7 C8 C9 C10 C11]. split; try done. simpl in *. lia.
Qed.

Lemma due_ok p w m h d t q :
  Core w m h [] [] 0 → time_bounded_io_task_queue w = (d, t) :: q → d ≤ last_gotten_time w →
  ∃ w' m' act, check_deadlines_turn p w m = Val (Some (w', m', act)) ∧
    step_ok w w' m' (tb_user_data t) h [act] [] 0.
Proof.
  intros HC Hq Hle. destruct (core_due p w m h [] 0 d t q HC) as (w' & m' & tk & Hd & HC' & ? & ?); [done..|].
  eexists _, _, _. split; [exact Hd|]. split; [|done..]. eexists. split; [right; eauto|done].
Qed.
