(* ===== verification/FallbackSystem.v ===== *)
(** * A thread and its fallback worker

    The worker of [FallbackWorker] with the futures that use it and the
    executor that polls it, as a step relation; the conditions under which it
    serves every request; and the runs in which it fails without them. *)

From Stdlib Require Import ZArith Lia Sorting.Sorted.
From S2P Require Import Prelude BTree Task IoTypes Fallback FallbackWorker.

Local Open Scope Z_scope.

(** What the executor is doing with the worker. [Processing] is the loop over
    the polled requests, with those that are left and their number at first. *)
Inductive Phase :=
| Running
| Processing (todo : list Polled) (len : Z)
| Checking.

Definition todo_of (ph : Phase) : list Polled := match ph with Processing todo _ => todo | _ => [] end.
Definition len_of (ph : Phase) : Z := match ph with Processing _ len => len | _ => 0 end.

Record FSys := mkFSys {
  worker : FallbackWorker;
  mem : Mem;
  phase : Phase;
  handed : gset Z;
}.

Definition init (now : Z) : FSys := mkFSys (FallbackWorker_new now) ∅ Running ∅.

(** The poll of a future that makes this operation. *)
Definition io_poll (twice : bool) (fuel : nat) (sys : nat → LibCall → Result Z) (p : profile) (a : Z)
    (t : Task) (op : IoOp) (w : FallbackWorker) (m : Mem)
    : outcome (Poll (Result Z) * FallbackWorker * Mem * list Action) :=
  let i := fallback_io_worker twice fuel sys in
  match op with
  | NetWithDeadline op d => poll_for_time_bounded_io_request (H := i) p a t op d id w m
  | _ => poll_for_io_request (H := i) p a t op id w m
  end.

(** [must_poll] returns at once when nothing is counted. *)
Definition must_poll_guard (w : FallbackWorker) : bool := negb (number_of_active_tasks w =? 0).

(** The system answers the call of an operation within [fuel] attempts, and an
    operation that is not on a socket does not have to wait. *)
Definition answers (fuel : nat) (sys : nat → LibCall → Result Z) (op : IoOp) : Prop :=
  match op with
  | Net op | NetWithDeadline op _ => is_poll_op op = false → ∃ r, settles fuel sys (net_call op) r
  | File op => ∃ r, retry_interrupted fuel (λ i, Val (file_work (sys i) op)) 0 = Val (Some r) ∧
      ∀ e, r = Err e → must_wait e = false
  end.

(** No other request waits on the socket of the operation. *)
Definition socket_free (op : IoOp) (s : FSys) : Prop :=
  match op with
  | Net op | NetWithDeadline op _ =>
      (∀ sock, raw_socket (net_call op) = Some sock → registered_sockets (poller (worker s)) !! sock = None) ∧
      raw_socket (net_call op) ∉ ((λ q, raw_socket (polled_call q)) <$> todo_of (phase s))
  | File _ => True
  end.

Definition event_ok (e : Event) : Prop := is_error e = false ∧ (is_readable e || is_writable e) = true.

(** The steps, under these conditions: tasks are local; a socket has one
    request at a time; the system answers, and its poll does not fail; [mio]
    reports each registered token at most once per poll and no errors; and a
    deadline that is removed after its request is not the deadline of another
    one. *)
Inductive step (twice : bool) (p : profile) : FSys → FSys → Prop :=
| step_begin s fuel sys a t op w' m' acts :
    mem s !! a = None → Task_is_local t = true →
    number_of_active_tasks (worker s) + 1 < usize_modulus →
    socket_free op s → answers fuel sys op →
    io_poll twice fuel sys p a t op (worker s) (mem s) = Val (Pending, w', m', acts) →
    step twice p s (mkFSys w' m' (phase s) (if acts is [] then handed s else {[a]} ∪ handed s))
| step_poll s events len w' :
    phase s = Running → must_poll_guard (worker s) = true →
    registered_tokens (poller (worker s)) events → Forall event_ok events →
    poll_begin (Ok events) (worker s) = Val (len, w') →
    step twice p s (mkFSys w' (mem s) (Processing (polled_requests w') len) (handed s))
| step_turn s q todo len fuel sys r w' m' acts :
    phase s = Processing (q :: todo) len → polled_ok q = true →
    number_of_active_tasks (worker s) + 1 < usize_modulus →
    (must_retry (polled_call q) = Val true → settles fuel sys (polled_call q) r) →
    process_turn twice fuel sys p q (worker s) (mem s) = Val (w', m', acts) →
    step twice p s (mkFSys w' m' (Processing todo len)
      (if acts is [] then handed s else {[polled_ptr q]} ∪ handed s))
| step_polled s len w' now :
    phase s = Processing [] len → poll_end p len (worker s) = Val w' →
    step twice p s (mkFSys (set_time now w') (mem s) Checking (handed s))
| step_due s d t q w' m' act :
    phase s = Checking → time_bounded_io_task_queue (worker s) = (d, t) :: q →
    check_deadlines_turn p (worker s) (mem s) = Val (Some (w', m', act)) →
    step twice p s (mkFSys w' m' Checking ({[tb_user_data t]} ∪ handed s))
| step_checked s :
    phase s = Checking → check_deadlines_turn p (worker s) (mem s) = Val None →
    step twice p s (mkFSys (worker s) (mem s) Running (handed s))
| step_end s fuel sys a t op r f w' m' :
    a ∈ handed s → mem s !! a = Some f → (op_deadline op = None ↔ fut_deadline f = None) →
    (∀ d, fut_deadline f = Some d → d ∉ (time_bounded_io_task_queue (worker s)).*1) →
    io_poll twice fuel sys p a t op (worker s) (mem s) = Val (Ready r, w', m', []) →
    step twice p s (mkFSys w' m' (phase s) (handed s ∖ {[a]})).

Record Inv (s : FSys) : Prop := {
  i_core : Core (worker s) (mem s) (handed s) (todo_of (phase s)) [] (len_of (phase s));
  i_polled : (∀ todo len, phase s ≠ Processing todo len) → polled_requests (worker s) = [];
}.

Lemma fallback_io_poll_begin twice fuel sys p a t op w m :
  m !! a = None →
  io_poll twice fuel sys p a t op w m =
    ('(w, m, acts) ← fallback_request twice fuel sys p op a w
        (<[a := mkFut (IoRequestData_new t) (op_deadline op)]> m);
     Val (Pending, w, m, acts)).
Proof.
  intros Ha. destruct op; simpl; unfold poll_for_io_request, poll_for_time_bounded_io_request; by rewrite Ha.
Qed.

Lemma net_request_ok twice fuel sys p op call a w m h todo n :
  Core w m h todo [a] n → ready_call call a w m todo →
  (is_poll_op op = false → ∃ r, settles fuel sys call r) →
  ∃ w' m' acts, net_request twice fuel sys p op call a w m = Val (w', m', acts) ∧
    step_ok w w' m' a h acts todo n.
Proof.
  intros HC Hrc Hset. unfold net_request. destruct (is_poll_op op).
  - destruct (fallback_wait_ok twice p w m h todo a n call HC Hrc) as (w' & m' & Hw & Hok).
    destruct (usize_add p (number_of_active_tasks w) 1); try done. simpl in *.
    destruct (register_to_poller _ _ _ _ _) as [[? ?]| |]; try done. simpl in *. injection Hw as -> ->. eauto.
  - destruct (Hset eq_refl) as [r Hr]. by eapply handle_ok.
Qed.

(** A request is served, or waits. *)
Lemma fallback_request_ok twice fuel sys p op a t s n :
  Core (worker s) (mem s) (handed s) (todo_of (phase s)) [] n → mem s !! a = None → Task_is_local t = true →
  number_of_active_tasks (worker s) + 1 < usize_modulus → socket_free op s → answers fuel sys op →
  ∃ w' m' acts, io_poll twice fuel sys p a t op (worker s) (mem s) = Val (Pending, w', m', acts) ∧
    step_ok (worker s) w' m' a (handed s) acts (todo_of (phase s)) n.
Proof.
  intros HC Ha Ht Hlt Hfree Hans. rewrite fallback_io_poll_begin by done. set (f := mkFut _ _).
  pose proof (core_begin _ _ _ _ _ _ a f HC Ha eq_refl Ht) as HC1. set (m1 := <[a := f]> (mem s)) in *.
  assert (m1 !! a = Some f) as Hf by apply lookup_insert_eq.
  destruct op as [op|op d|op]; simpl in *.
  - destruct (net_call_deadline op a) as (_ & _ & Hnd & (sock & Hs) & _). destruct Hfree as [Hfree Htodo].
    destruct (net_request_ok twice fuel sys p op (net_call op) a (worker s) m1 (handed s)
      (todo_of (phase s)) n HC1) as (w' & m' & acts & -> & Hok); [|done|simpl; eauto].
    split; [by eauto|done|unfold deadline_here; by rewrite Hnd|done].
  - destruct (net_call_deadline op a) as (Hsock & Hdm & _ & (sock & Hs) & Hsettle).
    destruct Hfree as [Hfree Htodo]. unfold check_deadline_and. destruct (last_gotten_time (worker s) <? d).
    + destruct (net_request_ok twice fuel sys p op (net_call_with_deadline op a) a (worker s) m1 (handed s)
        (todo_of (phase s)) n HC1) as (w' & m' & acts & -> & Hok); [| |simpl; eauto].
      * split; rewrite ?Hsock; [by eauto|done| |done]. unfold deadline_here. rewrite Hdm.
        split; [done|]. exists f, d. done.
      * intros Hp. destruct (Hans Hp) as [r Hr]. eauto.
    + destruct (spawn_ok p _ m1 _ _ a n (Err (Simple TimedOut)) HC1) as (m' & act & -> & ?). simpl. eauto.
  - destruct Hans as (r & Hr & Hw). unfold handle_io_operation. rewrite Hr. simpl.
    assert ((match r with Err e => rassert (negb (must_wait e)) | Ok _ => Val () end) = Val ()) as ->
      by (destruct r as [|e]; [done|]; by rewrite (Hw e eq_refl)).
    simpl. destruct (spawn_ok p _ m1 _ _ a n r HC1) as (m' & act & -> & ?). simpl. eauto.
Qed.

Lemma handled_if a h (acts : list Action) h' :
  handled a h acts h' → h' = (if acts is [] then h else {[a]} ∪ h).
Proof. by intros [[-> ->]|(act & -> & ->)]. Qed.

Lemma step_ok_inv s w' m' a acts todo n ph :
  Inv s → step_ok (worker s) w' m' a (handed s) acts todo n → todo_of ph = todo → len_of ph = n →
  ((∀ td len, ph ≠ Processing td len) → ∀ td len, phase s ≠ Processing td len) →
  Inv (mkFSys w' m' ph (if acts is [] then handed s else {[a]} ∪ handed s)).
Proof.
  intros [_ Hp] [(h' & Hh & HC) _ Hpol] <- <- Hph. apply handled_if in Hh as <-. split; [done|].
  intros Hn. simpl. rewrite Hpol. by apply Hp, Hph.
Qed.

Lemma fallback_io_poll_end twice fuel sys p a t op w m f :
  m !! a = Some f → (op_deadline op = None ↔ fut_deadline f = None) →
  (∀ d, fut_deadline f = Some d → d ∉ (time_bounded_io_task_queue w).*1) →
  ∃ q, q = time_bounded_io_task_queue w ∧
  io_poll twice fuel sys p a t op w m = Val (Ready (ret (io_request_data f)), set_queue q w, delete a m, []).
Proof.
  intros Ha Hd Hq. exists (time_bounded_io_task_queue w). split; [done|].
  assert (set_queue (time_bounded_io_task_queue w) w = w) as Hsame by (by destruct w).
  assert (∀ d, fut_deadline f = Some d → fallback_deregister d w = w) as Hdereg.
  { intros d Hfd. unfold fallback_deregister, btree_remove. rewrite filter_all; [done|].
    apply Forall_forall. intros x Hx Hxd. apply (Hq _ Hfd), list_elem_of_fmap. by exists x. }
  rewrite Hsame. destruct f as [[r t' we] [d|]]; destruct op; simpl in *;
    unfold poll_for_io_request, poll_for_time_bounded_io_request; rewrite Ha; simpl;
    destruct r as [x|e]; simpl; repeat case_decide; rewrite ?Hdereg by done; try done; naive_solver.
Qed.

Lemma poll_begin_ok s events :
  Inv s → phase s = Running → registered_tokens (poller (worker s)) events →
  ∃ w', poll_begin (Ok events) (worker s) = Val (Z.of_nat (length events), w') ∧
    Inv (mkFSys w' (mem s) (Processing (polled_requests w') (Z.of_nat (length events))) (handed s)).
Proof.
  intros [HC Hp] Hph Hev. rewrite Hph in *. simpl in HC. unfold poll_begin. rewrite Hp by done. simpl.
  destruct (core_poll _ _ _ events [] [] 0 HC Hev) as (reqs & P & -> & HC' & Hlen). simpl. rewrite Hlen.
  eexists. split; [done|]. split; [|by intros Hn; destruct (Hn reqs (Z.of_nat (length events)))]. simpl.
  eapply core_insensitive; [..|exact HC']; try done. apply HC'.
Qed.

Lemma poll_end_ok p s len now :
  Inv s → phase s = Processing [] len →
  ∃ w', poll_end p len (worker s) = Val w' ∧ Inv (mkFSys (set_time now w') (mem s) Checking (handed s)).
Proof.
  intros [HC _] Hph. rewrite Hph in HC. simpl in HC. pose proof (c_active _ _ _ _ _ _ HC) as Ha.
  unfold poll_end. rewrite usize_sub_Val by lia. cbn [mbind outcome_bind]. eexists. split; [done|].
  split; [|done]. simpl. eapply core_insensitive; [..|exact HC]; try done. simpl. lia.
Qed.

Lemma fallback_inv_step twice p s s' : Inv s → step twice p s s' → Inv s'.
Proof.
  intros HI Hst. destruct Hst as [s fuel sys a t op w' m' acts Ha Ht Hlt Hf Hans Heq
    |s events len w' Hph _ Hev _ Heq|s q todo len fuel sys r w' m' acts Hph Hok Hlt Hset Heq
    |s len w' now Hph Heq|s d t q w' m' act Hph Hq Heq|s Hph Heq|s fuel sys a t op r f w' m' Ha Hf Hop Hnc Heq].
  - destruct (fallback_request_ok twice fuel sys p op a t s (len_of (phase s))) as (w1 & m1 & acts1 & Heq1 & Hso);
      try done; [apply HI|]. rewrite Heq in Heq1. simplify_eq. by eapply step_ok_inv.
  - destruct (poll_begin_ok s events HI Hph Hev) as (w1 & Heq1 & HI'). rewrite Heq in Heq1. by simplify_eq.
  - pose proof (i_core _ HI) as HC. rewrite Hph in HC.
    destruct (process_ok twice fuel sys p _ _ _ q todo len r HC Hok Hlt Hset) as (w1 & m1 & acts1 & Heq1 & Hso).
    rewrite Heq in Heq1. simplify_eq. eapply step_ok_inv; try done. intros Hn. by destruct (Hn todo len).
  - destruct (poll_end_ok p s len now HI Hph) as (w1 & Heq1 & HI'). rewrite Heq in Heq1. by simplify_eq.
  - pose proof (i_core _ HI) as HC. rewrite Hph in HC. simpl in HC.
    destruct (Z.leb_spec d (last_gotten_time (worker s))) as [Hle|Hgt].
    + destruct (due_ok p _ _ _ d t q HC Hq Hle) as (w1 & m1 & act1 & Heq1 & Hso). rewrite Heq in Heq1.
      simplify_eq. eapply (step_ok_inv s w1 m1 _ [act1]); try done. rewrite Hph. done.
    + unfold check_deadlines_turn in Heq. rewrite Hq, (proj2 (Z.leb_gt _ _)) in Heq by done. done.
  - destruct HI as [HC Hp]. rewrite Hph in *. split; [done|]. intros _. by apply Hp.
  - destruct (fallback_io_poll_end twice fuel sys p a t op _ _ f Hf Hop Hnc) as (q & Hq & Heq1). rewrite Heq in Heq1.
    simplify_eq. destruct HI as [HC Hp]. split; [|done]. simpl. by apply core_resume.
Qed.

Lemma fallback_inv_init now : Inv (init now).
Proof.
  assert (live (FallbackWorker_new now) [] = []) as Hl by done.
  split; [|done]. split; cbn [init worker mem handed phase todo_of len_of]; rewrite ?Hl;
    first [done | apply poller_ok_new | by intros ? ?%elem_of_nil | by intros ? ? ?%elem_of_nil
      | by intros ? ? ? ?%elem_of_nil | by intros ? ? ? ? ?%elem_of_nil | constructor].
Qed.

Lemma fallback_reachable twice p now s : rtc (step twice p) (init now) s → Inv s.
Proof. apply (rtc_invariant (step twice p) Inv); [by intros; eapply fallback_inv_step|apply fallback_inv_init]. Qed.

(** ** Theorems *)

(** C14: under the conditions of the steps (local tasks, one request per socket,
    a system that answers and whose poll does not fail, each registered token
    reported at most once per poll and without an error, no removed deadline
    that is another request's, fewer than 2^64 - 1 requests), no request is
    lost: each one that is not finished waits in the poller or is among the
    polled ones, the count is of these and of the polled ones until their
    loop ends, and no operation of the worker panics: a turn of the loop over
    the polled requests and the end of it return, and so does every deadline
    that is due. *)
Theorem fallback_conserves (twice : bool) (p : profile) (now : Z) (s : FSys) :
  rtc (step twice p) (init now) s →
  (live (worker s) (todo_of (phase s))).*2 ≡ₚ elements (dom (mem s) ∖ handed s) ∧
  number_of_active_tasks (worker s) =
    Z.of_nat (size (waiting (poller (worker s)))) + len_of (phase s) ∧
  (∀ q todo len fuel sys r, phase s = Processing (q :: todo) len → polled_ok q = true →
    number_of_active_tasks (worker s) + 1 < usize_modulus → settles fuel sys (polled_call q) r →
    ∃ x, process_turn twice fuel sys p q (worker s) (mem s) = Val x) ∧
  (∀ len, phase s = Processing [] len → ∃ w, poll_end p len (worker s) = Val w) ∧
  (phase s = Checking → ∃ o, check_deadlines_turn p (worker s) (mem s) = Val o).
Proof.
  intros HI%fallback_reachable. pose proof (i_core _ HI) as HC. split_and!; [|apply HC|..].
  - rewrite <- (c_pending _ _ _ _ _ _ HC). by rewrite app_nil_r.
  - intros q todo len fuel sys r Hph Hok Hlt Hset. rewrite Hph in HC. simpl in HC.
    destruct (process_ok twice fuel sys p _ _ _ q todo len r HC Hok Hlt (λ _, Hset)) as (? & ? & ? & -> & _). eauto.
  - intros len Hph. destruct (poll_end_ok p s len 0 HI Hph) as (w & -> & _). eauto.
  - intros Hph. rewrite Hph in HC. simpl in HC.
    destruct (time_bounded_io_task_queue (worker s)) as [|[d t] q] eqn:Hq.
    + unfold check_deadlines_turn. rewrite Hq. eauto.
    + destruct (Z.leb_spec d (last_gotten_time (worker s))) as [Hle|Hgt].
      * destruct (due_ok p _ _ _ d t q HC Hq Hle) as (? & ? & ? & -> & _). eauto.
      * unfold check_deadlines_turn. rewrite Hq, (proj2 (Z.leb_gt _ _)) by done. eauto.
Qed.

(** A polled request that failed is counted off twice, in its turn and with
    the batch: after it the count is one less than the number of waiting
    requests, and if none is waiting a debug build panics and a release build
    counts 2^64 - 1 and polls forever. *)
Theorem fallback_error_counted_twice (twice : bool) (p : profile) (now : Z) (s : FSys) (e : Event)
    (fuel : nat) (sys : nat → LibCall → Result Z) :
  rtc (step twice p) (init now) s → phase s = Running →
  registered_tokens (poller (worker s)) [e] → is_error e = true →
  ∃ w1 q w2 m2 act, poll_begin (Ok [e]) (worker s) = Val (1, w1) ∧ polled_requests w1 = [q] ∧
    process_turn twice fuel sys p q w1 (mem s) = Val (w2, m2, [act]) ∧
    let n := Z.of_nat (size (waiting (poller w2))) in
    number_of_active_tasks w2 = n ∧
    (n = 0 → p = Debug → poll_end p 1 w2 = Panicked) ∧
    (n = 0 → p = Release →
      poll_end p 1 w2 = Val (set_polled [] (set_active usize_MAX w2))) ∧
    (n ≠ 0 → poll_end p 1 w2 = Val (set_polled [] (set_active (n - 1) w2))).
Proof.
  intros [HC Hp]%fallback_reachable Hph Hev Herr. rewrite Hph in *. simpl in HC.
  destruct (core_poll _ _ _ [e] [] [] 0 HC Hev) as (reqs & P & Hpoll & HC1 & Hlen).
  simpl in Hlen. destruct reqs as [|q [|]]; try done. unfold poll_begin, poll_unwrap. cbn [mbind outcome_bind]. rewrite Hp, Hpoll by done. simpl.
  assert (polled_ok q = false) as Hok.
  { simpl in Hpoll. unfold poll_event in Hpoll. outcome_inv. repeat (case_match; outcome_inv).
    rewrite Herr. done. }
  destruct (core_pop _ _ _ _ _ _ _ HC1) as [(f & Hf & Hd) _].
  assert (∃ w1, (d ← deadline (polled_call q) (mem s);
    w ← match d with Some d => remove_deadline d (set_polled [q] (set_poller P (worker s)))
         | None => Val (set_polled [q] (set_poller P (worker s))) end; Val w) = Val w1 ∧
    Core w1 (mem s) (handed s) [] [polled_ptr q] 1) as (w1 & Hw1 & HC2).
  { destruct (deadline_mut (polled_call q)).
    - destruct Hd as (_ & d & _ & -> & Hrem & HC2). simpl. unfold remove_deadline in *. simpl in *.
      destruct (btree_mem d _); [|done]. simpl. eexists. split; [done|].
      eapply core_insensitive; [..|exact HC2]; try done. apply HC2.
    - destruct Hd as [-> HC2]. simpl. eexists. split; [done|].
      eapply core_insensitive; [..|exact HC2]; try done. apply HC2. }
  destruct (core_complete_request p w1 _ _ [] _ [] 1 (Err (Simple OtherKind)) HC2) as (m2 & t & Hc & HC3).
  eexists _, q, _, _, _. split; [done|]. split; [done|].
  pose proof (c_active _ _ _ _ _ _ HC3) as Ha. unfold process_turn. rewrite Hok.
  destruct (deadline (polled_call q) (mem s)) as [d| |]; try done. simpl in *.
  destruct (match d with Some _ => _ | None => _ end) as [w1'| |]; try done. simpl in *. injection Hw1 as ->.
  rewrite usize_sub_Val by lia. cbn [mbind outcome_bind]. rewrite Hc. simpl. split; [done|]. simpl.
  unfold poll_end. simpl. rewrite Ha. split; [lia|].
  replace (Z.of_nat (size (waiting (poller w1))) + 1 - 1) with (Z.of_nat (size (waiting (poller w1)))) by lia.
  split_and!.
  - intros -> ->. done.
  - intros -> ->. done.
  - intros Hn. rewrite usize_sub_Val by lia. done.
Qed.

(** ** Runs that fail *)

Definition ex_task (n : Z) : Task := mkTask (TaskData_new (fat_ptr n 1) Locality_local) 1 n.

(** The system of the runs: socket 3 is not ready, the others give 5 bytes. *)
Definition ex_sys (attempt : nat) (c : LibCall) : Result Z :=
  match c with
  | Socket_recv 3 _ _ _ => Err (OsError EAGAIN)
  | _ => Ok 5
  end.

Ltac fb_side :=
  first [ split; [intros ? [= <-]; reflexivity | apply not_elem_of_nil]
        | intros _; eexists; vm_compute; reflexivity
        | io_side ].

Tactic Notation "fb_step" uconstr(H) :=
  eapply rtc_l; [eapply H; fb_side|]; eval_state.

Definition ex_waiting : FSys := mkFSys
  (mkFW 1 (mkPoller {[3 := 0]} [] {[0 := (RecvWithDeadline 3 0 9 8, 8)]} []) [(100, mkTB 8 3 0)] 0 [])
  {[8 := mkFut (IoRequestData_new (ex_task 1)) (Some 100)]} Running ∅.

Lemma ex_waiting_reachable : rtc (step false Debug) (init 0) ex_waiting.
Proof.
  fb_step (step_begin false Debug _ 1 ex_sys 8 (ex_task 1) (NetWithDeadline (recv 3 0 9) 100)).
  apply rtc_refl.
Qed.

(** A request that is served at once never registers its deadline, but its
    future removes that deadline from the queue all the same. Deadlines are
    computed from the start of the round, so another request with the same
    timeout has the same one: it then never times out, and when its socket is
    ready the worker panics because its deadline is missing. *)
Theorem fallback_deadline_clash :
  ∃ s w1 m1 w2 q, rtc (step false Debug) (init 0) s ∧
    (∃ f, mem s !! 8 = Some f ∧ fut_deadline f = Some 100 ∧ 8 ∉ handed s) ∧
    io_poll false 1 ex_sys Debug 16 (ex_task 2) (NetWithDeadline (recv 4 0 9) 100) (worker s) (mem s) =
      Val (Ready (Ok 5), w1, m1, []) ∧
    check_deadlines_turn Debug (set_time 1000 w1) m1 = Val None ∧
    poll_begin (Ok [mkEvent 0 false true false]) w1 = Val (1, w2) ∧ polled_requests w2 = [q] ∧
    process_turn false 1 ex_sys Debug q w2 m1 = Panicked.
Proof.
  eexists _, _, _, _, _. split.
  { etrans; [apply ex_waiting_reachable|].
    fb_step (step_begin false Debug _ 1 ex_sys 16 (ex_task 2) (NetWithDeadline (recv 4 0 9) 100)).
    apply rtc_refl. }
  split; [eexists; split_and!; [vm_compute; reflexivity|reflexivity|vm_compute; set_solver]|]. eval_conj.
Qed.

(** Two requests cannot wait on one socket, for instance to read and to write:
    where [mio] refuses to register it again the worker panics, elsewhere the
    wrapper of the first registration is dropped and the socket closed. And a
    token that is reported twice in one poll makes it panic. *)
Theorem poller_socket_twice (P : MioPoller) (sock slot : Z) (call : IoCall) (a : Z) (e : Event) :
  poller_ok P → registered_sockets P !! sock = Some slot → raw_socket call = Some sock →
  register false (call, a) P = Panicked ∧
  (∃ slot' P', register true (call, a) P = Val (slot', P') ∧ sock ∈ closed P') ∧
  (token e = slot → ∀ reqs, MioPoller_poll [e; e] reqs P = Panicked).
Proof.
  intros HP Hr Hs. unfold register. simpl. rewrite Hs. simpl.
  destruct (write_request_ok (call, a) P HP) as (sl & P1 & -> & Hreg & _). rewrite Hreg, Hr. simpl.
  split_and!; [done| |].
  - eexists _, _. split; [done|]. simpl. unfold push_back. set_solver.
  - intros <- reqs. destruct (po_reg _ HP sock _ Hr) as (_ & c & b & Hm & Hc).
    destruct (deregister_ok c b sock (token e) P HP Hr Hm) as (P2 & P3 & Hrel & Hder & _ & Hreg' & Hm' & _).
    simpl. unfold poll_event. rewrite Hrel. simpl. rewrite Hc. simpl. rewrite Hder. simpl.
    unfold release_request_slot. rewrite Hm', Hm. simpl. rewrite Hc. simpl. unfold deregister_. simpl.
    by rewrite Hreg', lookup_delete_eq.
Qed.

(** ** Witnesses *)

Lemma fallback_conserves_witness :
  (live (worker ex_waiting) []).*2 ≡ₚ elements (dom (mem ex_waiting) ∖ handed ex_waiting).
Proof. apply (fallback_conserves false Debug 0 ex_waiting ex_waiting_reachable). Defined.

Lemma ex_token : registered_tokens (poller (worker ex_waiting)) [mkEvent 0 true true false].
Proof.
  split; [apply NoDup_singleton|]. intros e ->%list_elem_of_singleton. exists 3. vm_compute. reflexivity.
Qed.

Lemma fallback_error_counted_twice_witness :
  ∃ w1, poll_begin (Ok [mkEvent 0 true true false]) (worker ex_waiting) = Val (1, w1).
Proof.
  destruct (fallback_error_counted_twice false Debug 0 ex_waiting (mkEvent 0 true true false) 1 ex_sys
    ex_waiting_reachable) as (w1 & _ & _ & _ & _ & Hp & _).
  - reflexivity.
  - exact ex_token.
  - reflexivity.
  - exists w1. exact Hp.
Defined.

Lemma poller_socket_twice_witness :
  register false (Send 3 0 9, 24) (poller (worker ex_waiting)) = Panicked.
Proof.
  refine (proj1 (poller_socket_twice (poller (worker ex_waiting)) 3 0 (Send 3 0 9) 24
    (mkEvent 0 false true false) _ _ _)).
  - apply (c_poller _ _ _ _ _ _ (i_core _ (fallback_reachable _ _ _ _ ex_waiting_reachable))).
  - vm_compute. reflexivity.
  - reflexivity.
Defined.
