(* ===== verification/FallbackPool.v ===== *)
(** * The fallback IO worker with a thread pool

    Models [src/src/io/sys/fallback/with_thread_pool/worker_with_thread_pool.rs]:
    the worker sends calls to threads that make them and push what came of
    them to a list that the worker reads when it is polled. Sockets that are
    not ready wait in the poller of [Fallback]. The fields this worker shares
    with the one of [FallbackWorker], and the functions on them that are the
    same text, are those of that file. A channel of [crossbeam] is the list of
    its messages. *)

From Stdlib Require Import ZArith Lia Sorting.Sorted.
From S2P Require Import Prelude BTree Task IoTypes Fallback FallbackWorker.

Local Open Scope Z_scope.

Inductive WorkerResult :=
| Done (t : Task)
| MustPoll (call : IoCall) (a : Z).

(** [workers] are the channels of the threads. [completions] is the list that
    is shared with them. *)
Record PoolWorker := mkPW {
  base : FallbackWorker;
  workers : list (list (IoCall * Z));
  completions : list WorkerResult;
  synced_completions : list WorkerResult;
}.

Definition PoolWorker_new (number_of_threads : nat) (now : Z) : PoolWorker :=
  mkPW (FallbackWorker_new now) (replicate number_of_threads []) [] [].

Definition set_base (b : FallbackWorker) (w : PoolWorker) : PoolWorker :=
  mkPW b (workers w) (completions w) (synced_completions w).

Definition active (w : PoolWorker) : Z := number_of_active_tasks (base w).

(** ** [ThreadWorker]

    What a thread makes of a message. *)
Definition thread_turn (fuel : nat) (sys : nat → LibCall → Result Z) (p : profile) (req : IoCall * Z)
    (m : Mem) : outcome (WorkerResult * Mem) :=
  let '(call, a) := req in
  f ← get_mut a m;
  o ← retry_interrupted fuel (λ i, do_io_work (sys i) call) 0;
  r ← unchecked o;
  let done :=
    '(t, d) ← IoRequestData_task p (set_ret r (io_request_data f)); Val (Done t, write_req a d m) in
  match r with
  | Err e => if must_wait e then Val (MustPoll call a, m) else done
  | Ok _ => done
  end.

(** A turn of the loop of [run] by the [i]th thread; none if its channel is
    empty, on which it waits. *)
Definition ThreadWorker_run (fuel : nat) (sys : nat → LibCall → Result Z) (p : profile) (i : nat)
    (w : PoolWorker) (m : Mem) : outcome (option (PoolWorker * Mem)) :=
  match workers w !! i with
  | Some (req :: rest) =>
      '(res, m) ← thread_turn fuel sys p req m;
      Val (Some (mkPW (base w) (<[i := rest]> (workers w)) (push_back (completions w) res)
                   (synced_completions w), m))
  | _ => Val None
  end.

(** ** Requests *)

(** The remainder by the number of threads panics if there are none. *)
Definition push_to_worker_pool (p : profile) (call : IoCall) (a : Z) (w : PoolWorker)
    : outcome PoolWorker :=
  rassert (negb (length (workers w) =? 0)%nat);;
  let i := Z.to_nat (active w mod Z.of_nat (length (workers w))) in
  q ← expect (workers w !! i);
  n ← usize_add p (active w) 1;
  Val (mkPW (set_active n (base w)) (<[i := push_back q (call, a)]> (workers w)) (completions w)
         (synced_completions w)).

(** [check_deadline_and!] of this file; [k] is what follows it if the deadline
    has passed. *)
Definition pool_check_deadline_and {R : Type} (p : profile) (d a : Z) (w : PoolWorker) (m : Mem)
    (op : outcome R) (k : PoolWorker * Mem * list Action → R) : outcome R :=
  if last_gotten_time (base w) <? d then op
  else '(m, act) ← complete_running p a (Err (Simple TimedOut)) m; Val (k (w, m, [act])).

Definition push_to_worker_pool_with_deadline (p : profile) (call : IoCall) (a : Z) (w : PoolWorker)
    (m : Mem) : outcome (PoolWorker * Mem * list Action) :=
  d ← deadline call m;
  debug_assert p (bool_decide (is_Some d));;
  d ← expect d;
  pool_check_deadline_and p d a w m (w ← push_to_worker_pool p call a w; Val (w, m, [])) id.

Definition pool_register_deadline (slot : Z) (w : PoolWorker) (m : Mem) : outcome (PoolWorker * Mem) :=
  '(b, m) ← register_deadline slot (base w) m; Val (set_base b w, m).

(** [register] of the poller, and of the deadline if there is one. *)
Definition pool_register (twice : bool) (call : IoCall) (a : Z) (w : PoolWorker) (m : Mem)
    : outcome (PoolWorker * Mem) :=
  '(slot, P) ← register twice (call, a) (poller (base w));
  let w := set_base (set_poller P (base w)) w in
  match deadline_mut call with
  | Some _ => pool_register_deadline slot w m
  | None => Val (w, m)
  end.

(** [poll_socket_read] and [poll_socket_write]. *)
Definition pool_wait (twice : bool) (p : profile) (call : IoCall) (a : Z) (w : PoolWorker) (m : Mem)
    : outcome (PoolWorker * Mem) :=
  n ← usize_add p (active w) 1;
  pool_register twice call a (set_base (set_active n (base w)) w) m.

(** The calls of the operations that are not on sockets. *)
Definition file_call (op : FileOp) : IoCall :=
  match op with
  | socket domain sock_type protocol => Socket domain sock_type protocol
  | shutdown s how => Shutdown s how
  | open path how => Open path how
  | fallocate _ _ _ _ => Fallocate
  | sync_all f => FAllSync f
  | sync_data f => FDataSync f
  | read f ptr len | read_fixed f ptr len _ => Read f ptr len
  | pread f ptr len offset | pread_fixed f ptr len _ offset => PRead f ptr len offset
  | write f ptr len | write_fixed f ptr len _ => Write f ptr len
  | pwrite f ptr len offset | pwrite_fixed f ptr len _ offset => PWrite f ptr len offset
  | close_file f => CloseFile f
  | close_socket s => CloseSocket s
  | rename from to => Rename from to
  | create_dir path mode => CreateDir path mode
  | remove_file path => RemoveFile path
  | remove_dir path => RemoveDir path
  end.

Definition pool_request (twice : bool) (p : profile) (op : IoOp) (a : Z) (w : PoolWorker) (m : Mem)
    : outcome (PoolWorker * Mem * list Action) :=
  match op with
  | Net op =>
      if is_poll_op op then '(w, m) ← pool_wait twice p (net_call op) a w m; Val (w, m, [])
      else w ← push_to_worker_pool p (net_call op) a w; Val (w, m, [])
  | NetWithDeadline op d =>
      let call := net_call_with_deadline op a in
      if is_poll_op op then
        pool_check_deadline_and p d a w m ('(w, m) ← pool_wait twice p call a w m; Val (w, m, [])) id
      else push_to_worker_pool_with_deadline p call a w m
  | File op => w ← push_to_worker_pool p (file_call op) a w; Val (w, m, [])
  end.

Definition pool_deregister (d : Z) (w : PoolWorker) : PoolWorker :=
  set_base (fallback_deregister d (base w)) w.

Definition pool_has_work (w : PoolWorker) : bool := 0 <? active w.

Definition pool_io_worker (twice : bool) : IoWorker PoolWorker := {|
  deregister_time_bounded_io_task := pool_deregister;
  has_work := pool_has_work;
  request := pool_request twice;
|}.

(** ** Polling

    [poll_and_process] up to its loop. *)
Definition pool_poll_begin (polled : Result (list Event)) (w : PoolWorker) : outcome PoolWorker :=
  events ← poll_unwrap polled;
  '(reqs, P) ← MioPoller_poll events (polled_requests (base w)) (poller (base w));
  Val (set_base (set_polled reqs (set_poller P (base w))) w).

Definition pool_schedule_io_call_that_not_retriable (p : profile) (call : IoCall) (a : Z)
    (w : PoolWorker) (m : Mem) : outcome (PoolWorker * Mem * Action) :=
  match p with Debug => r ← must_retry call; rassert (negb r) | Release => Val () end;;
  n ← usize_sub p (active w) 1;
  '(m, act) ← complete_request p a (Ok 0) m;
  Val (set_base (set_active n (base w)) w, m, act).

(** One turn of the loop of [poll_and_process], with [have_done]. *)
Definition pool_process_turn (p : profile) (q : Polled) (w : PoolWorker) (m : Mem) (have_done : bool)
    : outcome (PoolWorker * Mem * list Action * bool) :=
  let call := polled_call q in let a := polled_ptr q in
  d ← deadline call m;
  w ← match d with
      | Some d => b ← remove_deadline d (base w); Val (set_base b w)
      | None => Val w
      end;
  if polled_ok q then
    let go :=
      retry ← must_retry call;
      if retry : bool then w ← push_to_worker_pool p call a w; Val (w, m, [], have_done)
      else '(w, m, act) ← pool_schedule_io_call_that_not_retriable p call a w m; Val (w, m, [act], true) in
    match d with
    | Some d => pool_check_deadline_and p d a w m go (λ x, (x, have_done))
    | None => go
    end
  else
    n ← usize_sub p (active w) 1;
    '(m, act) ← complete_request p a (Err (Simple OtherKind)) m;
    Val (set_base (set_active n (base w)) w, m, [act], true).

(** The end of [poll_and_process]. *)
Definition pool_poll_end (w : PoolWorker) : PoolWorker := set_base (set_polled [] (base w)) w.

Definition pool_check_deadlines_turn (p : profile) (w : PoolWorker) (m : Mem)
    : outcome (option (PoolWorker * Mem * Action)) :=
  o ← check_deadlines_turn p (base w) m;
  match o with
  | Some (b, m, act) => Val (Some (set_base b w, m, act))
  | None => Val None
  end.

(** [synced_completions]: the two lists are swapped. *)
Definition swap_completions (w : PoolWorker) : PoolWorker :=
  mkPW (base w) (workers w) (synced_completions w) (completions w).

(** [must_poll_] between [check_deadlines] and its loop: the results that are
    drained. *)
Definition drain_begin (p : profile) (w : PoolWorker) : outcome (list WorkerResult * PoolWorker) :=
  let w := swap_completions w in
  n ← usize_sub p (active w) (Z.of_nat (length (synced_completions w)));
  Val (synced_completions w, mkPW (set_active n (base w)) (workers w) (completions w) []).

(** One turn of that loop. *)
Definition drain_turn (twice : bool) (p : profile) (res : WorkerResult) (w : PoolWorker) (m : Mem)
    (have_done : bool) : outcome (PoolWorker * Mem * list Action * bool) :=
  match res with
  | Done t => Val (w, m, [exec_or_spawn t], true)
  | MustPoll call a =>
      debug_assert p (pollable call);;
      n ← usize_add p (active w) 1;
      rassert (pollable call);;
      '(w, m) ← pool_register twice call a (set_base (set_active n (base w)) w) m;
      Val (w, m, [], have_done)
  end.

(** ** [must_poll]

    [must_poll_] is what one poll with a timeout does and whether it found
    anything. Durations are in nanoseconds; [checked_sub] gives zero where
    the difference is negative. *)
Section must_poll.
Context {St : Type} (number_of_active_tasks : St → Z) (must_poll_ : Z → St → outcome (bool * St)).

Definition MICROS : Z := 1000.
Definition MILLIS : Z := 1000000.

Fixpoint must_poll_loop (fuel : nat) (timeout diff : Z) (s : St) : outcome (option St) :=
  match fuel with
  | O => Val None
  | S fuel =>
      if 0 <? timeout then
        '(found, s) ← must_poll_ (Z.min timeout diff) s;
        if found : bool then Val (Some s)
        else
          let timeout := Z.max 0 (timeout - diff) in
          let diff := diff * 2 in
          let diff := if 10 * MILLIS <? diff then 10 * MILLIS else diff in
          must_poll_loop fuel timeout diff s
      else Val (Some s)
  end.

Definition must_poll (fuel : nat) (timeout_option : option Z) (s : St) : outcome (option St) :=
  if number_of_active_tasks s =? 0 then Val (Some s)
  else
    let timeout := default 0 timeout_option in
    let diff := 16 * MICROS in
    '(found, s) ← must_poll_ (Z.min timeout diff) s;
    if found : bool then Val (Some s)
    else must_poll_loop fuel (Z.max 0 (timeout - diff)) diff s.

End must_poll.
