(* ===== verification/FallbackPoolSystem.v ===== *)
(** * A thread, its fallback worker with a thread pool, and the pool

    The worker of [FallbackPool] with its threads, the futures that use it
    and the executor that polls it, as a step relation. *)

From Stdlib Require Import ZArith Lia Sorting.Sorted.
From S2P Require Import Prelude BTree Task IoTypes Fallback FallbackWorker FallbackPool.

Local Open Scope Z_scope.

(** ** The time a poll takes *)

(** The timeouts that were passed to the poll are logged. *)
Definition logged {St : Type} (poll : Z → St → outcome (bool * St)) (timeout : Z) (s : St * list Z)
    : outcome (bool * (St * list Z)) :=
  '(found, s') ← poll timeout s.1; Val (found, (s', s.2 ++ [timeout])).

Lemma logged_Val {St : Type} (poll : Z → St → outcome (bool * St)) t s log found s' :
  poll t s = Val (found, s') → logged poll t (s, log) = Val (found, (s', log ++ [t])).
Proof. intros Hp. unfold logged. simpl. by rewrite Hp. Qed.

Definition total (l : list Z) : Z := foldr Z.add 0 l.

Lemma total_app l1 l2 : total (l1 ++ l2) = total l1 + total l2.
Proof. unfold total. induction l1; simpl; lia. Qed.

Section must_poll_time.
Context {St : Type} (poll : Z → St → outcome (bool * St)).
Hypothesis poll_total : ∀ t s, ∃ found s', poll t s = Val (found, s').

Lemma must_poll_loop_turn fuel timeout diff (x : St * list Z) :
  must_poll_loop (logged poll) (S fuel) timeout diff x =
    if 0 <? timeout then
      '(found, s) ← logged poll (Z.min timeout diff) x;
      if found : bool then Val (Some s)
      else must_poll_loop (logged poll) fuel (Z.max 0 (timeout - diff))
        (if 10 * MILLIS <? diff * 2 then 10 * MILLIS else diff * 2) s
    else Val (Some x).
Proof. reflexivity. Qed.

Lemma must_poll_loop_time fuel timeout diff s log :
  0 ≤ timeout → 16 * MICROS ≤ diff ≤ 10 * MILLIS → timeout ≤ Z.of_nat fuel * (16 * MICROS) →
  ∃ s' log', must_poll_loop (logged poll) (S fuel) timeout diff (s, log) = Val (Some (s', log ++ log')) ∧
    Forall (λ t, 0 < t ≤ 10 * MILLIS) log' ∧ total log' ≤ timeout ∧
    ((∀ t s, ∃ s', poll t s = Val (false, s')) → total log' = timeout).
Proof.
  unfold MICROS, MILLIS. revert timeout diff s log.
  induction fuel as [|fuel IH]; intros timeout diff s log Ht Hd Hf.
  - cbn [must_poll_loop]. rewrite (proj2 (Z.ltb_ge _ _)) by lia. exists s, []. rewrite app_nil_r. split_and!; [done|constructor|done|].
    intros _. simpl. lia.
  - rewrite must_poll_loop_turn. destruct (Z.ltb_spec 0 timeout) as [Hpos|Hz].
    2: { exists s, []. rewrite app_nil_r. split_and!; [done|constructor|done|]. intros _. simpl. lia. }
    destruct (poll_total (Z.min timeout diff) s) as (found & s1 & Hp).
    rewrite (logged_Val _ _ _ _ _ _ Hp). cbn [mbind outcome_bind]. destruct found.
    + exists s1, [Z.min timeout diff]. split_and!; [done|constructor; [unfold MILLIS; lia|constructor]|simpl; lia|].
      intros Hn. destruct (Hn (Z.min timeout diff) s) as [s2 Hs2]. congruence.
    + set (d' := if 10 * MILLIS <? diff * 2 then 10 * MILLIS else diff * 2).
      assert (16 * 1000 ≤ d' ≤ 10 * 1000000) as Hd' by (subst d'; unfold MILLIS; destruct (Z.ltb_spec (10 * 1000000) (diff * 2)); lia).
      destruct (IH (Z.max 0 (timeout - diff)) d' s1 (log ++ [Z.min timeout diff]))
        as (s' & log' & Heq & Hall & Htot & Hex); [lia..|].
      exists s', (Z.min timeout diff :: log'). split_and!.
      * etrans; [exact Heq|]. by rewrite <- (assoc_L (++)).
      * constructor; [lia|done].
      * unfold total in *. simpl. lia.
      * intros Hn. specialize (Hex Hn). unfold total in *. simpl. lia.
Qed.

(** [must_poll] returns, after at most one poll per 16 microseconds of its
    timeout and one more; its polls take together no longer than the timeout,
    none longer than 10 milliseconds, and exactly the timeout if they find
    nothing. *)
Theorem pool_must_poll_time (count : St → Z) (timeout : Z) (s : St) :
  0 ≤ timeout →
  ∃ s' log, must_poll (λ x, count x.1) (logged poll) (S (Z.to_nat (timeout / (16 * MICROS))))
      (Some timeout) (s, []) = Val (Some (s', log)) ∧
    Forall (λ t, 0 ≤ t ≤ 10 * MILLIS) log ∧ total log ≤ timeout ∧
    (count s ≠ 0 → (∀ t s, ∃ s', poll t s = Val (false, s')) → total log = timeout).
Proof.
  intros Ht. unfold must_poll. cbn [fst default]. destruct (Z.eqb_spec (count s) 0) as [Hc|Hc].
  { exists s, []. split_and!; [done|constructor|done|done]. }
  destruct (poll_total (Z.min timeout (16 * MICROS)) s) as (found & s1 & Hp).
  rewrite (logged_Val _ _ _ _ _ _ Hp). cbn [mbind outcome_bind]. unfold MICROS, MILLIS in *. destruct found.
  - exists s1, [Z.min timeout (16 * 1000)]. split_and!; [done|constructor; [lia|constructor]|simpl; lia|].
    intros _ Hn. destruct (Hn (Z.min timeout (16 * 1000)) s) as [s2 Hs2]. congruence.
  - destruct (must_poll_loop_time (Z.to_nat (timeout / (16 * 1000))) (Z.max 0 (timeout - 16 * 1000)) (16 * 1000)
      s1 [Z.min timeout (16 * 1000)]) as (s' & log & Heq & Hall & Htot & Hex).
    + lia.
    + unfold MICROS, MILLIS. lia.
    + unfold MICROS. pose proof (Z.mod_pos_bound timeout (16 * 1000)). pose proof (Z.div_mod timeout (16 * 1000)).
      pose proof (Z.div_pos timeout (16 * 1000)). lia.
    + exists s', (Z.min timeout (16 * 1000) :: log). split_and!.
      * exact Heq.
      * constructor; [lia|]. eapply Forall_impl; [exact Hall|]. unfold MILLIS. simpl. lia.
      * unfold total in *. simpl. lia.
      * intros _ Hn. specialize (Hex Hn). unfold total in *. simpl. lia.
Qed.

End must_poll_time.

(** ** The step relation

    What the executor is doing with the worker: [PProcessing] is the loop over
    the polled requests and [PDraining] the one over the results of the
    threads, with what is left of them. *)
Inductive PPhase :=
| PRunning
| PProcessing (todo : list Polled)
| PChecking
| PDraining (results : list WorkerResult).

Definition ptodo (ph : PPhase) : list Polled := match ph with PProcessing todo => todo | _ => [] end.
Definition pdraining (ph : PPhase) : list WorkerResult := match ph with PDraining l => l | _ => [] end.

(** [taken] are the requests whose result was written and whose task was taken,
    [finished] these tasks in order, and [woken] the tasks that were given to
    the executor. [leaked] is how often a polled request was not counted off. *)
Record PSys := mkPSys {
  pworker : PoolWorker;
  pmem : Mem;
  pphase : PPhase;
  taken : gset Z;
  finished : list Task;
  woken : list Task;
  leaked : Z;
}.

Definition pool_init (threads : nat) (now : Z) : PSys :=
  mkPSys (PoolWorker_new threads now) ∅ PRunning ∅ [] [] 0.

Definition acted (acts : list Action) : list Task :=
  omap (λ act, match act with
    | ExecTask t | SpawnLocalTask t | SpawnSharedTask t => Some t
    | InvokeCall _ => None
    end) acts.

(** A step of the worker that took the task of the request [a] if it acted. *)
Definition acts_on (a : Z) (acts : list Action) (w : PoolWorker) (m : Mem) (ph : PPhase) (leak : Z)
    (s : PSys) : PSys :=
  mkPSys w m ph (if acts is [] then taken s else {[a]} ∪ taken s)
    (finished s ++ acted acts) (woken s ++ acted acts) (leaked s + leak).

(** The poll of a future that makes this operation. *)
Definition pool_io_poll (twice : bool) (p : profile) (a : Z) (t : Task) (op : IoOp) (w : PoolWorker)
    (m : Mem) : outcome (Poll (Result Z) * PoolWorker * Mem * list Action) :=
  let i := pool_io_worker twice in
  match op with
  | NetWithDeadline op d => poll_for_time_bounded_io_request (H := i) p a t op d id w m
  | _ => poll_for_io_request (H := i) p a t op id w m
  end.

Definition chan_reqs (w : PoolWorker) : list (IoCall * Z) := concat (workers w).

Definition must_polls (l : list WorkerResult) : list (IoCall * Z) :=
  omap (λ r, match r with MustPoll call a => Some (call, a) | Done _ => None end) l.

Definition dones (l : list WorkerResult) : list Task :=
  omap (λ r, match r with Done t => Some t | MustPoll _ _ => None end) l.

(** The requests that are with the threads or came back to wait; [drain] are
    the results that are being drained. *)
Definition pooled_of (w : PoolWorker) (drain : list WorkerResult) : list (IoCall * Z) :=
  chan_reqs w ++ must_polls (completions w ++ drain).

Definition pooled (s : PSys) : list (IoCall * Z) := pooled_of (pworker s) (pdraining (pphase s)).

Definition sockets (l : list (IoCall * Z)) : list Z := omap (raw_socket ∘ fst) l.

(** The sockets that wait in the poller or were polled. *)
Definition busy (w : FallbackWorker) (todo : list Polled) (sock : Z) : Prop :=
  registered_sockets (poller w) !! sock ≠ None ∨ Some sock ∈ (raw_socket ∘ polled_call) <$> todo.

Definition op_socket (op : IoOp) : option Z :=
  match op with Net op | NetWithDeadline op _ => raw_socket (net_call op) | File _ => None end.

(** A turn that does not count a polled request off. *)
Definition turn_leak (acts : list Action) : Z :=
  match acts with
  | [] | SpawnLocalTask _ :: _ => 1
  | _ => 0
  end.

(** The steps, under these conditions: tasks are local; a socket has one
    request at a time; the system answers the calls, does not ask to wait for
    one that is not on a socket, and its poll does not fail; [mio] reports
    each registered token at most once per poll; and a deadline that is removed after its request is
    not the deadline of another one. *)
Inductive pool_step (twice : bool) (p : profile) : PSys → PSys → Prop :=
| pstep_begin s a t op w' m' acts :
    pmem s !! a = None → Task_is_local t = true → active (pworker s) + 1 < usize_modulus →
    (∀ sock, op_socket op = Some sock →
      ¬ busy (base (pworker s)) (ptodo (pphase s)) sock ∧ sock ∉ sockets (pooled s)) →
    pool_io_poll twice p a t op (pworker s) (pmem s) = Val (Pending, w', m', acts) →
    pool_step twice p s (acts_on a acts w' m' (pphase s) 0 s)
| pstep_thread s i fuel sys r call a rest res w' m' :
    workers (pworker s) !! i = Some ((call, a) :: rest) → settles fuel sys call r →
    (raw_socket call = None → ∀ e, r = Err e → must_wait e = false) →
    ThreadWorker_run fuel sys p i (pworker s) (pmem s) = Val (Some (w', m')) →
    completions w' = push_back (completions (pworker s)) res →
    pool_step twice p s (mkPSys w' m' (pphase s) (if res is Done _ then {[a]} ∪ taken s else taken s)
      (finished s ++ dones [res]) (woken s) (leaked s))
| pstep_poll s events w' :
    pphase s = PRunning → active (pworker s) ≠ 0 →
    registered_tokens (poller (base (pworker s))) events →
    pool_poll_begin (Ok events) (pworker s) = Val w' →
    pool_step twice p s (mkPSys w' (pmem s) (PProcessing (polled_requests (base w'))) (taken s)
      (finished s) (woken s) (leaked s))
| pstep_turn s q todo w' m' acts d d' :
    pphase s = PProcessing (q :: todo) → active (pworker s) + 1 < usize_modulus →
    pool_process_turn p q (pworker s) (pmem s) d = Val (w', m', acts, d') →
    pool_step twice p s (acts_on (polled_ptr q) acts w' m' (PProcessing todo) (turn_leak acts) s)
| pstep_polled s now :
    pphase s = PProcessing [] →
    pool_step twice p s (mkPSys (set_base (set_time now (base (pool_poll_end (pworker s))))
        (pool_poll_end (pworker s))) (pmem s) PChecking (taken s) (finished s) (woken s) (leaked s))
| pstep_due s d t q w' m' act :
    pphase s = PChecking → time_bounded_io_task_queue (base (pworker s)) = (d, t) :: q →
    pool_check_deadlines_turn p (pworker s) (pmem s) = Val (Some (w', m', act)) →
    pool_step twice p s (acts_on (tb_user_data t) [act] w' m' PChecking 0 s)
| pstep_checked s l w' :
    pphase s = PChecking → pool_check_deadlines_turn p (pworker s) (pmem s) = Val None →
    drain_begin p (pworker s) = Val (l, w') →
    pool_step twice p s (mkPSys w' (pmem s) (PDraining l) (taken s) (finished s) (woken s) (leaked s))
| pstep_drain s res l w' m' acts d d' :
    pphase s = PDraining (res :: l) → active (pworker s) + 1 < usize_modulus →
    drain_turn twice p res (pworker s) (pmem s) d = Val (w', m', acts, d') →
    pool_step twice p s (mkPSys w' m' (PDraining l) (taken s) (finished s) (woken s ++ acted acts) (leaked s))
| pstep_drained s :
    pphase s = PDraining [] →
    pool_step twice p s (mkPSys (pworker s) (pmem s) PRunning (taken s) (finished s) (woken s) (leaked s))
| pstep_end s a t op r f w' m' :
    a ∈ taken s → pmem s !! a = Some f → (op_deadline op = None ↔ fut_deadline f = None) →
    (∀ d, fut_deadline f = Some d → d ∉ (time_bounded_io_task_queue (base (pworker s))).*1) →
    pool_io_poll twice p a t op (pworker s) (pmem s) = Val (Ready r, w', m', []) →
    pool_step twice p s (mkPSys w' m' (pphase s) (taken s ∖ {[a]}) (finished s) (woken s) (leaked s)).

(** ** The invariant

    [cur] are the requests that are being handled, and the count is [n] above
    the number of requests in the poller. *)
Record PoolOk (b : FallbackWorker) (m : Mem) (todo : list Polled) (l : list (IoCall * Z)) : Prop := {
  pk_deadline call a : (call, a) ∈ l → deadline_here call a m;
  pk_nodup : NoDup (sockets l);
  pk_free sock : sock ∈ sockets l → ¬ busy b todo sock;
}.

Record PI (w : PoolWorker) (m : Mem) (tk : gset Z) (todo : list Polled) (drain : list WorkerResult)
    (cur : list (IoCall * Z)) (n : Z) : Prop := {
  pi_core : Core (base w) m tk todo (cur ++ pooled_of w drain).*2 n;
  pi_pool : PoolOk (base w) m todo (cur ++ pooled_of w drain);
  pi_must call a : (call, a) ∈ must_polls (completions w ++ drain) → is_Some (raw_socket call);
  pi_synced : synced_completions w = [];
  pi_workers : workers w ≠ [];
}.

(** What the count is to be, but for what was leaked. *)
Definition due_count (w : PoolWorker) (todo : list Polled) : Z :=
  Z.of_nat (length todo) + Z.of_nat (length (chan_reqs w)) + Z.of_nat (length (completions w)).

Record PInv (s : PSys) : Prop := {
  pv_pi : PI (pworker s) (pmem s) (taken s) (ptodo (pphase s)) (pdraining (pphase s)) []
    (due_count (pworker s) (ptodo (pphase s)) + leaked s);
  pv_leaked : 0 ≤ leaked s;
  pv_polled : (∀ todo, pphase s ≠ PProcessing todo) → polled_requests (base (pworker s)) = [];
  pv_done : finished s ≡ₚ woken s ++ dones (completions (pworker s) ++ pdraining (pphase s));
}.

Lemma core_perm w m h todo extra extra' n :
  Core w m h todo extra n → extra' ≡ₚ extra → Core w m h todo extra' n.
Proof. intros [C1 C2 C3 C4 C5 C6 C7 C8 C9 C10 C11] He. split; try done. by rewrite He. Qed.

(** Deadlines of requests are never unset. *)
Definition keeps (m m' : Mem) : Prop :=
  ∀ x f d, m !! x = Some f → fut_deadline f = Some d → ∃ f' d', m' !! x = Some f' ∧ fut_deadline f' = Some d'.

Lemma keeps_refl m : keeps m m.
Proof. intros x f d ? ?. eauto. Qed.

Lemma keeps_write_req a d m : keeps m (write_req a d m).
Proof.
  intros x f k Hx Hf. rewrite write_req_lookup. case_decide; [subst; rewrite Hx; simpl; eauto|eauto].
Qed.

Lemma keeps_write_deadline a d m : keeps m (write_deadline a d m).
Proof.
  intros x f k Hx Hf. rewrite write_deadline_lookup. case_decide; [subst; rewrite Hx; simpl; eauto|eauto].
Qed.

Lemma deadline_here_keeps m m' call a : keeps m m' → deadline_here call a m → deadline_here call a m'.
Proof.
  unfold deadline_here. destruct (deadline_mut call) as [x|]; [|done]. intros Hk (-> & f & d & Hf & Hd).
  split; [done|]. eauto.
Qed.

Lemma pool_ok_mono b m todo l b' m' todo' l' :
  PoolOk b m todo l → (∀ sock, sock ∈ sockets l' → busy b' todo' sock → busy b todo sock) →
  (∀ call a, (call, a) ∈ l' → deadline_here call a m → deadline_here call a m') → l' ⊆+ l → PoolOk b' m' todo' l'.
Proof.
  intros [H1 H2 H3] Hb Hd Hl.
  assert (∀ x, x ∈ l' → x ∈ l) as Hsub by (intros x Hx; by eapply elem_of_submseteq).
  apply submseteq_Permutation in Hl as [k Hl].
  assert (sockets l ≡ₚ sockets l' ++ sockets k) as Hs by (unfold sockets; by rewrite Hl, omap_app).
  split.
  - intros call a Hin. apply Hd; [done|]. by apply H1, Hsub.
  - rewrite Hs in H2. by apply NoDup_app in H2 as [? _].
  - intros sock Hin Hbusy. apply (H3 sock); [rewrite Hs; set_solver|]. by apply Hb.
Qed.

(** Requests move between the places of the pool. *)
Lemma pi_shift w w' m tk todo drain drain' cur cur' n :
  PI w m tk todo drain cur n → base w' = base w → synced_completions w' = [] → workers w' ≠ [] →
  (∀ call a, (call, a) ∈ must_polls (completions w' ++ drain') → is_Some (raw_socket call)) →
  cur' ++ pooled_of w' drain' ≡ₚ cur ++ pooled_of w drain → PI w' m tk todo drain' cur' n.
Proof.
  intros [P1 P2 P3 P4 P5] Hb Hs Hw Hm Hp. split; try done; rewrite Hb.
  - eapply core_perm; [done|]. by rewrite Hp.
  - eapply pool_ok_mono; [done|done|done|]. by rewrite Hp.
Qed.

(** The count is changed. *)
Lemma pi_count w m tk todo drain cur n k n' :
  PI w m tk todo drain cur n → k - active w = n' - n → PI (set_base (set_active k (base w)) w) m tk todo drain cur n'.
Proof.
  intros [P1 P2 P3 P4 P5] Hk. split; try done.
  - eapply core_insensitive; [..|exact P1]; [done|done|].
    pose proof (c_active _ _ _ _ _ _ P1). unfold active in Hk. simpl. lia.
  - by eapply pool_ok_mono.
Qed.

(** A future makes a request. *)
Lemma pi_begin w m tk todo drain n call a f :
  PI w m tk todo drain [] n → m !! a = None → was_executed (io_request_data f) = false →
  Task_is_local (task (io_request_data f)) = true → deadline_here call a (<[a := f]> m) →
  (∀ sock, raw_socket call = Some sock → ¬ busy (base w) todo sock ∧ sock ∉ sockets (pooled_of w drain)) →
  PI w (<[a := f]> m) tk todo drain [(call, a)] n.
Proof.
  intros [P1 [H1 H2 H3] P3 P4 P5] Ha Hwe Hl Hd Hfree. split; try done; [by apply core_begin|]. simpl in *.
  assert (keeps m (<[a := f]> m)) as Hk by (intros x g e Hx ?; rewrite lookup_insert_ne by congruence; eauto).
  split.
  - intros c b [[= -> ->]|Hin]%elem_of_cons; [done|]. eapply deadline_here_keeps; eauto.
  - unfold sockets in *. simpl. destruct (raw_socket call) as [sock|]; [|done].
    constructor; [|done]. by apply Hfree.
  - unfold sockets in *. simpl. intros sock. destruct (raw_socket call) as [sk|]; [|by apply H3].
    intros [->|Hin]%elem_of_cons; [by apply Hfree|by apply H3].
Qed.

Lemma concat_insert {A} (ls : list (list A)) i q :
  ls !! i = Some q → ∃ rest, concat ls ≡ₚ q ++ rest ∧ ∀ q', concat (<[i := q']> ls) ≡ₚ q' ++ rest.
Proof.
  intros Hi. exists (concat (take i ls) ++ concat (drop (S i) ls)). split.
  - rewrite <- (take_drop_middle ls i q Hi) at 1. rewrite concat_app. simpl. solve_Permutation.
  - intros q'. rewrite insert_take_drop by (by eapply lookup_lt_Some). rewrite concat_app. simpl. solve_Permutation.
Qed.

(** A request goes to a thread. *)
Lemma pi_push p w m tk todo drain n call a :
  PI w m tk todo drain [(call, a)] n → active w + 1 < usize_modulus →
  ∃ w', push_to_worker_pool p call a w = Val w' ∧ PI w' m tk todo drain [] (n + 1) ∧
    due_count w' todo = due_count w todo + 1 ∧ completions w' = completions w ∧
    polled_requests (base w') = polled_requests (base w) ∧ workers w' ≠ [].
Proof.
  intros HP Hlt. pose proof (pi_workers _ _ _ _ _ _ _ HP) as Hw. unfold push_to_worker_pool.
  destruct (workers w) as [|x ws] eqn:Hws; [done|]. cbn [length Nat.eqb negb rassert mbind outcome_bind].
  rewrite <- Hws in *. set (i := Z.to_nat _). assert (i < length (workers w))%nat as Hi.
  { subst i. pose proof (Z.mod_pos_bound (active w) (Z.of_nat (S (length ws)))). rewrite Hws. simpl length. lia. }
  destruct (lookup_lt_is_Some_2 _ _ Hi) as [q Hq]. rewrite Hq. cbn [mbind outcome_bind expect].
  rewrite usize_add_Val by done. cbn [mbind outcome_bind]. eexists. split; [done|].
  destruct (concat_insert (workers w) i q Hq) as (rest & Hc & Hc'). specialize (Hc' (push_back q (call, a))).
  assert (<[i:=push_back q (call, a)]> (workers w) ≠ []) as Hne.
  { intros Hn. apply (f_equal length) in Hn. rewrite length_insert, Hws in Hn. done. }
  assert (chan_reqs (mkPW (set_active (active w + 1) (base w)) (<[i:=push_back q (call, a)]> (workers w))
    (completions w) (synced_completions w)) ≡ₚ (call, a) :: chan_reqs w) as Hch.
  { unfold chan_reqs. simpl. rewrite Hc', Hc. unfold push_back. solve_Permutation. }
  split_and!; try done.
  - eapply pi_shift; [eapply (pi_count _ _ _ _ _ _ _ (active w + 1) (n + 1) HP); lia|..]; try done.
    + apply HP.
    + apply HP.
    + unfold pooled_of. cbn [completions set_base]. change (chan_reqs (set_base ?b w)) with (chan_reqs w).
      rewrite Hch. done.
  - unfold due_count. simpl. rewrite Hch. simpl. lia.
Qed.

(** The task of the request that is being handled is taken. *)
Lemma pi_handed w m tk todo drain n call a d :
  PI w m tk todo drain [(call, a)] n → PI w (write_req a d m) ({[a]} ∪ tk) todo drain [] n.
Proof.
  intros [P1 P2 P3 P4 P5]. split; try done; [by apply core_handed|].
  eapply pool_ok_mono; [done|done| |].
  - intros c b _. apply deadline_here_keeps, keeps_write_req.
  - simpl. by apply submseteq_cons.
Qed.

Lemma pi_request p w m tk todo drain n call a r :
  PI w m tk todo drain [(call, a)] n → ∃ d t, Task_is_local t = true ∧
    (∃ f, m !! a = Some f ∧ IoRequestData_task p (set_ret r (io_request_data f)) = Val (t, d)) ∧
    complete_running p a r m = Val (write_req a d m, SpawnLocalTask t) ∧
    complete_request p a r m = Val (write_req a d m, ExecTask t) ∧
    PI w (write_req a d m) ({[a]} ∪ tk) todo drain [] n.
Proof.
  intros HP. destruct (core_request _ _ _ _ _ _ _ (pi_core _ _ _ _ _ _ _ HP)) as (f & Hf & Hwe & Hl).
  simpl in Hf.
  unfold complete_running, complete_request, get_mut, IoRequestData_task, exec_or_spawn. rewrite Hf. simpl.
  destruct p; simpl; rewrite ?Hwe; simpl; rewrite Hl; eexists _, _; (split; [exact Hl|]);
    (split; [eexists; split; [done|]; simpl; rewrite ?Hwe; done|]); (split; [done|]);
    (split; [done|]); by eapply pi_handed.
Qed.

Lemma pool_register_base twice call a w m :
  pool_register twice call a w m =
    ('(b, m) ← register_to_poller twice call a (base w) m; Val (set_base b w, m)).
Proof.
  unfold pool_register, register_to_poller, pool_register_deadline.
  destruct (register _ _ _) as [[slot P]| |]; try done. simpl. by destruct (deadline_mut call).
Qed.

Lemma register_deadline_frame slot b m b' m' :
  register_deadline slot b m = Val (b', m') → poller b' = poller b ∧ keeps m m'.
Proof.
  unfold register_deadline. intros Heq.
  destruct (slot_mem (poller b) !! slot) as [[call a]|]; [|done]. cbn [unchecked mbind outcome_bind] in Heq.
  destruct (deadline_mut call) as [x|]; [|done]. cbn [expect mbind outcome_bind] in Heq.
  destruct (get_mut x m) as [f| |]; try done. cbn [mbind outcome_bind] in Heq.
  destruct (fut_deadline f) as [d|]; [|done]. cbn [unchecked mbind outcome_bind] in Heq.
  destruct (raw_socket call) as [sock|]; [|done]. cbn [expect mbind outcome_bind] in Heq.
  destruct (insert_first_free _ _ _ _) as [[d' q]|]; [|done]. simpl in Heq. injection Heq as <- <-.
  split; [done|apply keeps_write_deadline].
Qed.

Lemma register_to_poller_frame twice call a b m b' m' :
  register_to_poller twice call a b m = Val (b', m') →
  ∃ sock slot, raw_socket call = Some sock ∧ keeps m m' ∧
    registered_sockets (poller b') = <[sock := slot]> (registered_sockets (poller b)).
Proof.
  unfold register_to_poller, register. simpl. destruct (raw_socket call) as [sock|]; [|done]. simpl.
  assert (∀ slot P, write_request_and_get_ptr (call, a) (poller b) = (slot, P) →
    registered_sockets P = registered_sockets (poller b)) as Hw.
  { intros slot P. unfold write_request_and_get_ptr. destruct (pop_back _) as [[? ?]|]; by intros [= <- <-]. }
  destruct (write_request_and_get_ptr _ _) as [slot P] eqn:HP. specialize (Hw _ _ eq_refl).
  intros Heq. exists sock, slot. split; [done|].
  destruct (registered_sockets P !! sock); [destruct twice; [|done]|]; cbn [rassert mbind outcome_bind] in Heq;
    (destruct (deadline_mut call) as [x|];
      [|injection Heq as <- <-; simpl; rewrite Hw; split; [apply keeps_refl|done]]);
    apply register_deadline_frame in Heq as [-> ?]; simpl; by rewrite Hw.
Qed.

(** The request that is being handled waits in the poller. *)
Lemma pi_wait twice p w m tk todo drain n call a :
  PI w m tk todo drain [(call, a)] n → active w + 1 < usize_modulus → is_Some (raw_socket call) →
  ∃ b m', pool_wait twice p call a w m = Val (set_base b w, m') ∧
    PI (set_base b w) m' tk todo drain [] n ∧ polled_requests b = polled_requests (base w).
Proof.
  intros HP Hlt [sock Hs]. unfold pool_wait. rewrite usize_add_Val by done. cbn [mbind outcome_bind].
  rewrite pool_register_base. set (w1 := set_base _ w).
  assert (PI w1 m tk todo drain [(call, a)] (n + 1)) as HP1 by (eapply pi_count; [done|lia]).
  destruct HP1 as [P1 P2 P3 P4 P5]. destruct P2 as [D1 D2 D3]. unfold sockets in D2, D3. simpl in D2, D3.
  rewrite Hs in D2, D3. apply NoDup_cons in D2 as [D2 D2'].
  assert (¬ busy (base w1) todo sock) as Hnb by (apply D3; by left).
  destruct (core_register twice (base w1) m tk todo a (pooled_of w1 drain).*2 n sock call)
    as (b & m' & Heq & HC & _ & Hpol); try done.
  - destruct (registered_sockets (poller (base w1)) !! sock) eqn:Hr; [|done]. destruct Hnb. left. congruence.
  - rewrite Hs. intros Hin. apply Hnb. by right.
  - apply D1. by left.
  - rewrite Heq. cbn [mbind outcome_bind]. exists b, m'. split; [done|].
    apply register_to_poller_frame in Heq as (sk & slot & Hsk & Hk & Hreg). split; [|done]. split; try done. simpl.
    split; [intros c x Hx; eapply deadline_here_keeps, D1; [done|]; by right|done|].
    intros s Hin [Hb|Hb]; [|apply (D3 s); [by right|by right]]. apply (D3 s); [by right|]. left.
    rewrite Hreg, lookup_insert in Hb. case_decide; [|done]. exfalso. apply D2.
    assert (s = sock) as <- by congruence. done.
Qed.

(** A polled request is taken from the batch, and its deadline removed. *)
Lemma pi_pop w m tk q todo drain n :
  PI w m tk (q :: todo) drain [] n →
  ∃ d w1, deadline (polled_call q) m = Val d ∧
    match d with Some d => b ← remove_deadline d (base w); Val (set_base b w) | None => Val w end = Val w1 ∧
    PI w1 m tk todo drain [(polled_call q, polled_ptr q)] n ∧
    (∃ q', w1 = set_base (set_queue q' (base w)) w) ∧ is_Some (raw_socket (polled_call q)).
Proof.
  intros [P1 P2 P3 P4 P5].
  destruct (core_pop _ _ _ _ _ _ _ P1) as [(f & Hf & Hd) (sock & Hs & Hr & Ht)].
  assert (∀ q' , deadline_here (polled_call q) (polled_ptr q) m →
    PoolOk (set_queue q' (base w)) m todo ((polled_call q, polled_ptr q) :: pooled_of w drain)) as Hpool.
  { intros q' Hdh. destruct P2 as [D1 D2 D3]. simpl in *.
    assert (busy (base w) (q :: todo) sock) as Hb by (right; csimpl; rewrite Hs; by left).
    assert (∀ s, busy (set_queue q' (base w)) todo s → busy (base w) (q :: todo) s) as Hmono.
    { intros s [?|?]; [by left|right]. csimpl. by right. }
    split.
    - intros c b [[= -> ->]|Hin]%elem_of_cons; [done|by apply D1].
    - unfold sockets in *. simpl. rewrite Hs. constructor; [|done]. intros Hin. by apply (D3 sock Hin).
    - unfold sockets in *. simpl. rewrite Hs. intros s [->|Hin]%elem_of_cons.
      + intros [Hn|Hin]; [exact (Hn Hr)|]. rewrite Hs in Ht. by apply Ht.
      + intros Hbs. by apply (D3 s Hin), Hmono. }
  destruct (deadline_mut (polled_call q)) as [x|] eqn:Hx.
  - destruct Hd as (-> & d & Hfd & Hdl & Hrem & HC). exists (Some d). eexists. split; [done|]. rewrite Hrem.
    split; [done|]. split; [|split; [by eexists|by eexists]]. split; try done. apply Hpool.
    unfold deadline_here. rewrite Hx. eauto.
  - destruct Hd as [Hdl HC]. exists None, w. split; [done|]. split; [done|].
    assert (w = set_base (set_queue (time_bounded_io_task_queue (base w)) (base w)) w) as Hw
      by (by destruct w as [[] ? ? ?]).
    split; [|split; [by eexists|by eexists]]. split; try done. rewrite Hw at 1. apply Hpool.
    unfold deadline_here. by rewrite Hx.
Qed.

Lemma due_count_base b w todo : due_count (set_base b w) todo = due_count w todo.
Proof. reflexivity. Qed.

(** A turn of the loop over the polled requests. *)
Lemma pi_turn p w m tk q todo drain n have_done :
  PI w m tk (q :: todo) drain [] n → 1 ≤ n → active w + 1 < usize_modulus →
  ∃ w' m' acts done tk' k, pool_process_turn p q w m have_done = Val (w', m', acts, done) ∧
    PI w' m' tk' todo drain [] (n + k) ∧ tk' = (if acts is [] then tk else {[polled_ptr q]} ∪ tk) ∧
    due_count w' todo + turn_leak acts = due_count w (q :: todo) + k ∧
    completions w' = completions w ∧
    (polled_ok q = true → must_retry (polled_call q) = Val true → turn_leak acts = 1).
Proof.
  intros HP Hn Hlt. destruct (pi_pop _ _ _ _ _ _ _ HP) as (d & w1 & Hd & Hw1 & HP1 & (q' & Hq') & Hs).
  unfold pool_process_turn. rewrite Hd. cbn [mbind outcome_bind]. rewrite Hw1. cbn [mbind outcome_bind].
  assert (active w1 = active w ∧ completions w1 = completions w ∧
    due_count w (q :: todo) = due_count w1 todo + 1) as (Ha & Hc & Hdc).
  { rewrite Hq'. split_and!; [done..|]. unfold due_count, chan_reqs. cbn [set_base workers completions length]. lia. }
  set (a := polled_ptr q) in *. set (call := polled_call q) in *.
  pose proof (c_active _ _ _ _ _ _ (pi_core _ _ _ _ _ _ _ HP1)) as Hact. fold (active w1) in Hact.
  assert (∃ w' m' acts done tk' k,
    (retry ← must_retry call;
     if retry : bool then w ← push_to_worker_pool p call a w1; Val (w, m, [], have_done)
     else '(w, m, act) ← pool_schedule_io_call_that_not_retriable p call a w1 m; Val (w, m, [act], true)) =
      Val (w', m', acts, done) ∧
    PI w' m' tk' todo drain [] (n + k) ∧ tk' = (if acts is [] then tk else {[a]} ∪ tk) ∧
    due_count w' todo + turn_leak acts = due_count w (q :: todo) + k ∧
    completions w' = completions w ∧
    (must_retry call = Val true → turn_leak acts = 1)) as Hgo.
  { destruct Hs as [sock Hs]. destruct (socket_call _ _ Hs) as [_ [retry Hr]]. fold call in Hr. rewrite Hr.
    cbn [mbind outcome_bind]. destruct retry.
    - destruct (pi_push p w1 m tk todo drain n call a HP1) as (w' & -> & HP' & Hdc' & Hc' & _); [lia|].
      cbn [mbind outcome_bind]. eexists w', m, [], have_done, _, 1. split_and!; try done; simpl; lia || congruence.
    - unfold pool_schedule_io_call_that_not_retriable. rewrite Hr.
      assert ((match p with Debug => r ← Val false; rassert (negb r) | Release => Val () end) = Val ()) as ->
        by (by destruct p). cbn [mbind outcome_bind]. rewrite usize_sub_Val by lia. cbn [mbind outcome_bind].
      destruct (pi_request p w1 m tk todo drain n call a (Ok 0) HP1) as (dd & t & _ & _ & _ & -> & HP').
      cbn [mbind outcome_bind]. eexists _, _, [ExecTask t], true, _, (-1). split; [done|].
      split; [eapply pi_count; [done|]; lia|]. split_and!; [done| |done|congruence].
      rewrite Hdc, due_count_base. simpl. lia. }
  destruct (polled_ok q).
  - destruct d as [d|]; [|naive_solver]. unfold pool_check_deadline_and.
    destruct (last_gotten_time (base w1) <? d); [naive_solver|].
    destruct (pi_request p w1 m tk todo drain n call a (Err (Simple TimedOut)) HP1) as (dd & t & _ & _ & -> & _ & HP').
    cbn [mbind outcome_bind]. eexists _, _, [SpawnLocalTask t], have_done, _, 0. rewrite Z.add_0_r.
    split_and!; try done. rewrite Hdc. simpl. lia.
  - rewrite usize_sub_Val by lia. cbn [mbind outcome_bind].
    destruct (pi_request p w1 m tk todo drain n call a (Err (Simple OtherKind)) HP1) as (dd & t & _ & _ & _ & -> & HP').
    cbn [mbind outcome_bind]. eexists _, _, [ExecTask t], true, _, (-1). split; [done|].
    split; [eapply pi_count; [done|]; lia|]. split_and!; [done| |done|done]. rewrite Hdc, due_count_base. simpl. lia.
Qed.

Lemma MioPoller_poll_frame events reqs P reqs' P' :
  MioPoller_poll events reqs P = Val (reqs', P') →
  (∀ sock, registered_sockets P' !! sock ≠ None → registered_sockets P !! sock ≠ None) ∧
  ∀ q, q ∈ reqs' → q ∈ reqs ∨
    ∃ sock, raw_socket (polled_call q) = Some sock ∧ registered_sockets P !! sock ≠ None.
Proof.
  revert reqs P. induction events as [|e events IH]; intros reqs P; simpl.
  { intros [= <- <-]. split; [done|by left]. }
  unfold poll_event, release_request_slot. destruct (slot_mem P !! token e) as [[call a]|]; [|done]. simpl.
  destruct (raw_socket call) as [sock|] eqn:Hs; [|done]. simpl. unfold deregister_. simpl.
  destruct (registered_sockets P !! sock) as [sl|] eqn:Hr; [|done]. simpl.
  intros [H1 H2]%IH. simpl in *. split.
  - intros sk Hsk%H1. rewrite lookup_delete in Hsk. by case_decide.
  - intros q [Hq|(sk & Hsk & Hd)]%H2.
    + unfold push_back in Hq. apply elem_of_app in Hq as [Hq| ->%list_elem_of_singleton]; [by left|].
      right. exists sock. simpl. by rewrite Hr.
    + right. exists sk. split; [done|]. rewrite lookup_delete in Hd. by case_decide.
Qed.

Lemma pi_poll events w m tk drain n :
  PI w m tk [] drain [] n → polled_requests (base w) = [] → registered_tokens (poller (base w)) events →
  ∃ b, pool_poll_begin (Ok events) w = Val (set_base b w) ∧
    PI (set_base b w) m tk (polled_requests b) drain [] (n + Z.of_nat (length (polled_requests b))).
Proof.
  intros [P1 P2 P3 P4 P5] Hp Hev. unfold pool_poll_begin. rewrite Hp. simpl.
  destruct (core_poll _ _ _ events [] _ _ P1 Hev) as (reqs & P & Heq & HC & Hlen). rewrite Heq.
  cbn [mbind outcome_bind]. eexists. split; [done|]. cbn [polled_requests set_polled]. rewrite Hlen.
  split; try done.
  - eapply core_insensitive; [..|exact HC]; try done. apply HC.
  - apply MioPoller_poll_frame in Heq as [H1 H2]. eapply pool_ok_mono; [done| |done|done].
    intros sock _ [Hb|Hb]; [left; by apply H1|]. apply list_elem_of_fmap in Hb as (q & Hq & Hin).
    apply H2 in Hin as [?%elem_of_nil|(sk & Hsk & Hr)]; [done|]. left. simpl in *. congruence.
Qed.

Lemma check_deadlines_turn_frame p b m b' m' act :
  check_deadlines_turn p b m = Val (Some (b', m', act)) → keeps m m' ∧
  ∀ sock, registered_sockets (poller b') !! sock ≠ None → registered_sockets (poller b) !! sock ≠ None.
Proof.
  unfold check_deadlines_turn. destruct (time_bounded_io_task_queue b) as [|[d t] q]; [done|].
  destruct (d <=? last_gotten_time b); [|done]. unfold deregister, release_request_slot, deregister_.
  destruct (slot_mem (poller b) !! tb_slot_ptr t) as [req|]; [|done]. simpl.
  destruct (registered_sockets (poller b) !! tb_raw_socket t); [|done]. simpl.
  unfold complete_request. destruct (get_mut (tb_user_data t) m) as [f| |]; try done. simpl.
  destruct (IoRequestData_task p _) as [[tk dd]| |]; try done. simpl.
  destruct (usize_sub p (number_of_active_tasks b) 1); try done. simpl. intros [= <- <- <-].
  split; [apply keeps_write_req|]. simpl. intros sock. rewrite lookup_delete. by case_decide.
Qed.

Lemma pi_due p w m tk drain n d t q :
  PI w m tk [] drain [] n → 0 ≤ n → time_bounded_io_task_queue (base w) = (d, t) :: q →
  d ≤ last_gotten_time (base w) →
  ∃ b m' k, pool_check_deadlines_turn p w m = Val (Some (set_base b w, m', ExecTask k)) ∧
    PI (set_base b w) m' ({[tb_user_data t]} ∪ tk) [] drain [] n ∧ polled_requests b = polled_requests (base w).
Proof.
  intros [P1 P2 P3 P4 P5] Hn Hq Hle. unfold pool_check_deadlines_turn.
  destruct (core_due p _ _ _ _ n d t q P1 Hn Hq Hle) as (b & m' & k & Heq & HC & _ & Hpol). rewrite Heq.
  cbn [mbind outcome_bind]. exists b, m', k. split; [done|]. split; [|done]. split; try done.
  apply check_deadlines_turn_frame in Heq as [Hk Hr]. eapply pool_ok_mono; [done| | |done].
  - intros sock _ [Hb|Hb]; [left; by apply Hr|by apply elem_of_nil in Hb].
  - intros c x _. by apply deadline_here_keeps.
Qed.

Lemma must_polls_app l1 l2 : must_polls (l1 ++ l2) = must_polls l1 ++ must_polls l2.
Proof. apply omap_app. Qed.

Lemma dones_app l1 l2 : dones (l1 ++ l2) = dones l1 ++ dones l2.
Proof. apply omap_app. Qed.

(** A thread makes a call. *)
Lemma pi_thread fuel sys p w m tk todo drain n i r call a rest :
  PI w m tk todo drain [] n → workers w !! i = Some ((call, a) :: rest) → settles fuel sys call r →
  (raw_socket call = None → ∀ e, r = Err e → must_wait e = false) →
  ∃ w' m' res, ThreadWorker_run fuel sys p i w m = Val (Some (w', m')) ∧
    completions w' = push_back (completions w) res ∧ base w' = base w ∧ due_count w' todo = due_count w todo ∧
    PI w' m' (if res is Done _ then {[a]} ∪ tk else tk) todo drain [] n.
Proof.
  intros HP Hi Hset Hw. destruct (concat_insert (workers w) i _ Hi) as (others & Hc & Hc'). specialize (Hc' rest).
  assert (<[i:=rest]> (workers w) ≠ []) as Hne.
  { intros Hn. apply (f_equal length) in Hn. rewrite length_insert in Hn. apply lookup_lt_Some in Hi. simpl in Hn. lia. }
  set (w1 := mkPW (base w) (<[i:=rest]> (workers w)) (completions w) []).
  assert (chan_reqs w ≡ₚ (call, a) :: chan_reqs w1) as Hch by (unfold chan_reqs; simpl; by rewrite Hc, Hc').
  assert (PI w1 m tk todo drain [(call, a)] n) as HP1.
  { eapply pi_shift; [exact HP|done..| |]; [apply HP|]. unfold pooled_of. rewrite Hch. done. }
  destruct (pi_request p w1 m tk todo drain n call a r HP1) as (d & t & _ & (f & Hf & Ht) & _ & _ & HP2).
  unfold ThreadWorker_run. rewrite Hi. unfold thread_turn, get_mut. rewrite Hf. cbn [unchecked mbind outcome_bind].
  unfold settles in Hset. rewrite Hset. cbn [unchecked mbind outcome_bind]. rewrite Ht. cbn [mbind outcome_bind].
  rewrite (pi_synced _ _ _ _ _ _ _ HP).
  assert (∀ res, due_count (mkPW (base w) (<[i:=rest]> (workers w)) (push_back (completions w) res) []) todo =
    due_count w todo) as Hdc.
  { intros res. unfold due_count. rewrite Hch. unfold push_back, chan_reqs. cbn [workers completions length].
    rewrite length_app. simpl. lia. }
  assert (PI (mkPW (base w) (<[i:=rest]> (workers w)) (push_back (completions w) (Done t)) [])
    (write_req a d m) ({[a]} ∪ tk) todo drain [] n) as Hdone.
  { assert (must_polls (push_back (completions w) (Done t) ++ drain) = must_polls (completions w ++ drain)) as Hmp.
    { unfold push_back. rewrite !must_polls_app. simpl. by rewrite app_nil_r. }
    eapply pi_shift; [exact HP2|done..| |]; cbn [completions]; [rewrite Hmp; apply HP|].
    unfold pooled_of, w1. cbn [completions]. by rewrite Hmp. }
  destruct r as [x|e]; [|destruct (must_wait e) eqn:Hmw]; cbn [mbind outcome_bind];
    [eexists _, _, (Done t); by split_and!| |eexists _, _, (Done t); by split_and!].
  eexists _, _, (MustPoll call a). split_and!; try done. eapply pi_shift; [exact HP1|done..| |];
    unfold pooled_of, push_back; cbn [completions w1]; rewrite !must_polls_app; cbn.
  - intros c b. rewrite !elem_of_app. intros [[Hin|[= -> ->]%list_elem_of_singleton]|Hin];
      [apply (pi_must _ _ _ _ _ _ _ HP c b)|destruct (raw_socket call) eqn:Hrs; [by eexists|by rewrite (Hw eq_refl e eq_refl) in Hmw]
      |apply (pi_must _ _ _ _ _ _ _ HP c b)]; rewrite must_polls_app; set_solver.
  - unfold chan_reqs. cbn [workers]. solve_Permutation.
Qed.

(** The results of the threads are taken. *)
Lemma pi_drain_begin p w m tk lk :
  PI w m tk [] [] [] (due_count w [] + lk) → 0 ≤ lk →
  ∃ w', drain_begin p w = Val (completions w, w') ∧ completions w' = [] ∧
    polled_requests (base w') = polled_requests (base w) ∧ PI w' m tk [] (completions w) [] (due_count w' [] + lk).
Proof.
  intros HP Hlk. pose proof (c_active _ _ _ _ _ _ (pi_core _ _ _ _ _ _ _ HP)) as Ha.
  pose proof (pi_synced _ _ _ _ _ _ _ HP) as Hs. unfold due_count in Ha. unfold drain_begin, swap_completions.
  cbn [synced_completions active base]. rewrite usize_sub_Val by (unfold active; simpl in *; lia).
  cbn [mbind outcome_bind completions workers]. rewrite Hs. eexists. split_and!; try done.
  eapply pi_shift; [eapply (pi_count _ _ _ _ _ _ _ _ _ HP)|..]; try done.
  - unfold active, due_count, chan_reqs. simpl. lia.
  - apply HP.
  - intros c a Hin. apply (pi_must _ _ _ _ _ _ _ HP c a). by rewrite app_nil_r.
  - unfold pooled_of. cbn [completions set_base app]. by rewrite app_nil_r.
Qed.

(** A turn of the loop over them. *)
Lemma pi_drain twice p w m tk res l n have_done :
  PI w m tk [] (res :: l) [] n → active w + 1 < usize_modulus →
  ∃ w' m' acts done, drain_turn twice p res w m have_done = Val (w', m', acts, done) ∧
    PI w' m' tk [] l [] n ∧ due_count w' [] = due_count w [] ∧ completions w' = completions w ∧
    polled_requests (base w') = polled_requests (base w) ∧ acted acts = dones [res].
Proof.
  intros HP Hlt. destruct res as [t|call a]; simpl.
  - eexists _, _, _, _. split; [done|]. split; [|split_and!; try done; unfold exec_or_spawn; by destruct (Task_is_local t)].
    eapply pi_shift; [exact HP|done|apply HP|apply HP| |]; unfold pooled_of; rewrite !must_polls_app; cbn; [|done].
    intros c a Hin. apply (pi_must _ _ _ _ _ _ _ HP c a). by rewrite must_polls_app.
  - destruct (pi_must _ _ _ _ _ _ _ HP call a) as [sock Hs]; [rewrite must_polls_app; cbn; set_solver|].
    destruct (socket_call _ _ Hs) as [Hp _]. rewrite Hp, debug_assert_true.
    assert (PI w m tk [] l [(call, a)] n) as HP1.
    { eapply pi_shift; [exact HP|done|apply HP|apply HP| |]; unfold pooled_of; rewrite !must_polls_app; cbn.
      - intros c b Hin. apply (pi_must _ _ _ _ _ _ _ HP c b). rewrite must_polls_app. cbn. set_solver.
      - solve_Permutation. }
    destruct (pi_wait twice p w m tk [] l n call a HP1 Hlt) as (b & m' & Heq & HP' & Hpol); [by eexists|].
    unfold pool_wait in Heq. cbn [mbind outcome_bind rassert]. destruct (usize_add p (active w) 1) as [k| |]; try done.
    cbn [mbind outcome_bind] in *. rewrite Heq. cbn [mbind outcome_bind]. eexists _, _, _, _. split; [done|].
    split; [done|]. rewrite due_count_base. done.
Qed.

(** The future of a finished request takes the result. *)
Lemma pi_resume w m tk todo drain n a :
  PI w m tk todo drain [] n → a ∈ tk → PI w (delete a m) (tk ∖ {[a]}) todo drain [] n.
Proof.
  intros [P1 P2 P3 P4 P5] Ha. split; try done.
  - pose proof (core_resume _ _ _ _ _ _ a _ P1 Ha eq_refl) as HC. by destruct (base w).
  - eapply pool_ok_mono; [done|done| |done]. intros call b Hin. unfold deadline_here.
    destruct (deadline_mut call) as [x|]; [|done]. intros (-> & f & d & Hf & Hd). split; [done|].
    exists f, d. rewrite lookup_delete_ne; [done|]. intros ->.
    assert (b ∈ dom m ∖ tk); [|set_solver]. apply elem_of_elements. rewrite <- (c_pending _ _ _ _ _ _ P1).
    apply elem_of_app. right. apply list_elem_of_fmap. by exists (call, b).
Qed.

Lemma pool_io_poll_begin twice p a t op w m :
  m !! a = None →
  pool_io_poll twice p a t op w m =
    ('(w, m, acts) ← pool_request twice p op a w (<[a := mkFut (IoRequestData_new t) (op_deadline op)]> m);
     Val (Pending, w, m, acts)).
Proof.
  intros Ha. destruct op; simpl; unfold poll_for_io_request, poll_for_time_bounded_io_request; by rewrite Ha.
Qed.

Lemma pool_io_poll_end twice p a t op w m f :
  m !! a = Some f → (op_deadline op = None ↔ fut_deadline f = None) →
  (∀ d, fut_deadline f = Some d → d ∉ (time_bounded_io_task_queue (base w)).*1) →
  pool_io_poll twice p a t op w m = Val (Ready (ret (io_request_data f)), w, delete a m, []).
Proof.
  intros Ha Hd Hq.
  assert (∀ d, fut_deadline f = Some d → pool_deregister d w = w) as Hdereg.
  { intros d Hfd. unfold pool_deregister, fallback_deregister, btree_remove. rewrite filter_all.
    - by destruct w as [[] ? ? ?].
    - apply Forall_forall. intros x Hx Hxd. apply (Hq _ Hfd), list_elem_of_fmap. by exists x. }
  destruct f as [[r t' we] [d|]]; destruct op; simpl in *;
    unfold poll_for_io_request, poll_for_time_bounded_io_request; rewrite Ha; simpl;
    destruct r as [x|e]; simpl; repeat case_decide; rewrite ?Hdereg by done; try done; naive_solver.
Qed.

(** What a request leads to: it is with a thread, waits, or its task is spawned. *)
Definition began (w : PoolWorker) (tk : gset Z) (todo : list Polled) (drain : list WorkerResult) (n a : Z)
    (o : outcome (PoolWorker * Mem * list Action)) : Prop :=
  ∃ w' m' acts k, o = Val (w', m', acts) ∧
    PI w' m' (if acts is [] then tk else {[a]} ∪ tk) todo drain [] (n + k) ∧
    due_count w' todo = due_count w todo + k ∧ completions w' = completions w ∧
    polled_requests (base w') = polled_requests (base w).

Section began.
Context (p : profile) (twice : bool) (w : PoolWorker) (m : Mem) (tk : gset Z) (todo : list Polled).
Context (drain : list WorkerResult) (n : Z) (call : IoCall) (a : Z).
Hypothesis HP : PI w m tk todo drain [(call, a)] n.
Hypothesis Hlt : active w + 1 < usize_modulus.

Lemma began_push : began w tk todo drain n a (w ← push_to_worker_pool p call a w; Val (w, m, [])).
Proof.
  destruct (pi_push p w m tk todo drain n call a HP Hlt) as (w' & -> & HP' & ? & ? & ? & _).
  exists w', m, [], 1. by split_and!.
Qed.

Lemma began_wait :
  is_Some (raw_socket call) →
  began w tk todo drain n a ('(w, m) ← pool_wait twice p call a w m; Val (w, m, [])).
Proof.
  intros Hs. destruct (pi_wait twice p w m tk todo drain n call a HP Hlt Hs) as (b & m' & -> & HP' & ?).
  eexists _, m', [], 0. rewrite due_count_base, !Z.add_0_r. by split_and!.
Qed.

Lemma began_checked d op :
  began w tk todo drain n a op → began w tk todo drain n a (pool_check_deadline_and p d a w m op id).
Proof.
  intros Hop. unfold pool_check_deadline_and. destruct (last_gotten_time (base w) <? d); [done|].
  destruct (pi_request p w m tk todo drain n call a (Err (Simple TimedOut)) HP) as (dd & t & _ & _ & -> & _ & HP').
  eexists _, _, [_], 0. rewrite !Z.add_0_r. by split_and!.
Qed.

End began.

Lemma file_call_plain op : raw_socket (file_call op) = None ∧ deadline_mut (file_call op) = None.
Proof. by destruct op. Qed.

Lemma pi_start twice p a t op w m tk todo drain n :
  PI w m tk todo drain [] n → m !! a = None → Task_is_local t = true → active w + 1 < usize_modulus →
  (∀ sock, op_socket op = Some sock → ¬ busy (base w) todo sock ∧ sock ∉ sockets (pooled_of w drain)) →
  began w tk todo drain n a
    (pool_request twice p op a w (<[a := mkFut (IoRequestData_new t) (op_deadline op)]> m)).
Proof.
  intros HP Ha Ht Hlt Hfree. set (f := mkFut _ _). set (m1 := <[a := f]> m).
  assert (m1 !! a = Some f) as Hf by apply lookup_insert_eq.
  assert (∀ call, raw_socket call = op_socket op → deadline_here call a m1 →
    PI w m1 tk todo drain [(call, a)] n) as HP1.
  { intros call Hs Hd. apply pi_begin; try done. intros sock. rewrite Hs. apply Hfree. }
  destruct op as [op|op d|op]; simpl in *.
  - destruct (net_call_deadline op a) as (_ & _ & Hnd & Hs & _).
    specialize (HP1 (net_call op) eq_refl). unfold deadline_here in HP1. rewrite Hnd in HP1. specialize (HP1 I).
    destruct (is_poll_op op); [by apply began_wait|by apply began_push].
  - destruct (net_call_deadline op a) as (Hsock & Hdm & _ & Hs & _). rewrite <- Hsock in Hs.
    specialize (HP1 (net_call_with_deadline op a) Hsock). unfold deadline_here in HP1. rewrite Hdm in HP1.
    assert (PI w m1 tk todo drain [(net_call_with_deadline op a, a)] n) as HP2 by (apply HP1; eauto).
    destruct (is_poll_op op); [eapply began_checked; [done|]; by apply began_wait|].
    unfold push_to_worker_pool_with_deadline, deadline. rewrite Hdm. unfold get_mut. rewrite Hf. simpl.
    rewrite debug_assert_true. simpl. eapply began_checked; [done|]. by apply began_push.
  - destruct (file_call_plain op) as [Hs Hd]. specialize (HP1 (file_call op) Hs). unfold deadline_here in HP1.
    rewrite Hd in HP1. apply began_push; [by apply HP1|done].
Qed.

Lemma pool_inv_init threads now : (0 < threads)%nat → PInv (pool_init threads now).
Proof.
  intros Ht. assert (chan_reqs (PoolWorker_new threads now) = []) as Hc.
  { unfold chan_reqs. simpl. clear. by induction threads. }
  assert (pooled_of (PoolWorker_new threads now) [] = []) as Hp by (unfold pooled_of; by rewrite Hc).
  split; [|done..]. cbn [pool_init pworker pmem taken pphase ptodo pdraining leaked].
  assert (due_count (PoolWorker_new threads now) [] + 0 = 0) as -> by (unfold due_count; by rewrite Hc).
  split; simpl; rewrite ?Hp; try done.
  - assert (live (FallbackWorker_new now) [] = []) as Hl by done.
    split; rewrite ?Hl; first [done | apply poller_ok_new | by intros ? ?%elem_of_nil | by intros ? ? ?%elem_of_nil
      | by intros ? ? ? ?%elem_of_nil | by intros ? ? ? ? ?%elem_of_nil | constructor].
  - split; [by intros ? ? ?%elem_of_nil|constructor|by intros ? ?%elem_of_nil].
  - by intros ? ? ?%elem_of_nil.
  - by destruct threads; [lia|].
Qed.

Lemma pool_inv_begin twice p s a t op w' m' acts :
  PInv s → pmem s !! a = None → Task_is_local t = true → active (pworker s) + 1 < usize_modulus →
  (∀ sock, op_socket op = Some sock →
    ¬ busy (base (pworker s)) (ptodo (pphase s)) sock ∧ sock ∉ sockets (pooled s)) →
  pool_io_poll twice p a t op (pworker s) (pmem s) = Val (Pending, w', m', acts) →
  PInv (acts_on a acts w' m' (pphase s) 0 s).
Proof.
  intros [HP Hl Hpol Hdone] Ha Ht Hlt Hfree Heq. rewrite pool_io_poll_begin in Heq by done.
  destruct (pi_start twice p a t op _ _ _ _ _ _ HP Ha Ht Hlt Hfree)
    as (w1 & m1 & acts1 & k & Heq1 & HP' & Hdc & Hc & Hp).
  rewrite Heq1 in Heq. simplify_eq/=. split; simpl; [|lia| |].
  - replace (due_count w' (ptodo (pphase s)) + (leaked s + 0)) with
      (due_count (pworker s) (ptodo (pphase s)) + leaked s + k) by lia. done.
  - intros Hn. rewrite Hp. by apply Hpol.
  - rewrite Hc, Hdone. solve_Permutation.
Qed.

Lemma pool_inv_turn p s q todo d :
  PInv s → pphase s = PProcessing (q :: todo) → active (pworker s) + 1 < usize_modulus →
  ∃ w' m' acts d', pool_process_turn p q (pworker s) (pmem s) d = Val (w', m', acts, d') ∧
    PInv (acts_on (polled_ptr q) acts w' m' (PProcessing todo) (turn_leak acts) s) ∧
    (polled_ok q = true → must_retry (polled_call q) = Val true → turn_leak acts = 1).
Proof.
  intros [HP Hl _ Hdone] Hph Hlt. rewrite Hph in *. simpl in *.
  destruct (pi_turn p _ _ _ q todo [] _ d HP) as (w1 & m1 & acts & d1 & tk' & k & Heq & HP' & -> & Hdc & Hc & Hleak);
    [unfold due_count; simpl; lia|done|]. eexists _, _, _, _. split; [done|]. split; [|done]. split; simpl.
  - replace (due_count w1 todo + (leaked s + turn_leak acts)) with
      (due_count (pworker s) (q :: todo) + leaked s + k) by lia. done.
  - unfold turn_leak. destruct acts as [|[] ?]; lia.
  - intros Hn. by destruct (Hn todo).
  - rewrite Hc, Hdone. simpl. solve_Permutation.
Qed.

(** A turn of [check_deadlines] returns, and one that finds a request that is
    due keeps the invariant. *)
Lemma pool_inv_due p s :
  PInv s → pphase s = PChecking →
  pool_check_deadlines_turn p (pworker s) (pmem s) = Val None ∨
  ∃ d t q w' m' act, time_bounded_io_task_queue (base (pworker s)) = (d, t) :: q ∧
    pool_check_deadlines_turn p (pworker s) (pmem s) = Val (Some (w', m', act)) ∧
    PInv (acts_on (tb_user_data t) [act] w' m' PChecking 0 s).
Proof.
  intros [HP Hl Hpol Hdone] Hph. rewrite Hph in *. simpl in *.
  destruct (time_bounded_io_task_queue (base (pworker s))) as [|[d t] q] eqn:Hq;
    [|destruct (Z.leb_spec d (last_gotten_time (base (pworker s)))) as [Hle|Hgt]].
  - left. unfold pool_check_deadlines_turn, check_deadlines_turn. by rewrite Hq.
  - right. destruct (pi_due p _ _ _ _ _ d t q HP) as (b & m1 & k & Heq & HP' & Hp);
      [unfold due_count; lia|done|done|]. eexists d, t, q, _, _, _. split; [done|]. split; [done|]. split; simpl.
    + rewrite due_count_base, Z.add_0_r. done.
    + lia.
    + intros _. rewrite Hp. by apply Hpol.
    + rewrite Hdone. solve_Permutation.
  - left. unfold pool_check_deadlines_turn, check_deadlines_turn. by rewrite Hq, (proj2 (Z.leb_gt _ _)).
Qed.

Lemma pool_inv_drain_begin p s :
  PInv s → pphase s = PChecking →
  ∃ l w', drain_begin p (pworker s) = Val (l, w') ∧
    PInv (mkPSys w' (pmem s) (PDraining l) (taken s) (finished s) (woken s) (leaked s)).
Proof.
  intros [HP Hl Hpol Hdone] Hph. rewrite Hph in *. simpl in *.
  destruct (pi_drain_begin p _ _ _ _ HP Hl) as (w1 & Heq & Hc & Hp & HP'). eexists _, _. split; [done|].
  split; simpl; try done.
  - intros _. rewrite Hp. by apply Hpol.
  - rewrite Hdone, Hc. by rewrite app_nil_r.
Qed.

Lemma pool_inv_drain twice p s res l d :
  PInv s → pphase s = PDraining (res :: l) → active (pworker s) + 1 < usize_modulus →
  ∃ w' m' acts d', drain_turn twice p res (pworker s) (pmem s) d = Val (w', m', acts, d') ∧
    PInv (mkPSys w' m' (PDraining l) (taken s) (finished s) (woken s ++ acted acts) (leaked s)).
Proof.
  intros [HP Hl Hpol Hdone] Hph Hlt. rewrite Hph in *. simpl in *.
  destruct (pi_drain twice p _ _ _ res l _ d HP Hlt) as (w1 & m1 & acts & d1 & Heq & HP' & Hdc & Hc & Hp & Hact).
  eexists _, _, _, _. split; [done|]. split; simpl; [by rewrite Hdc|done| |].
  - intros _. rewrite Hp. by apply Hpol.
  - rewrite Hdone, Hc, Hact. rewrite !dones_app. destruct res; simpl; solve_Permutation.
Qed.

Lemma pool_inv_thread p s i fuel sys r call a rest :
  PInv s → workers (pworker s) !! i = Some ((call, a) :: rest) → settles fuel sys call r →
  (raw_socket call = None → ∀ e, r = Err e → must_wait e = false) →
  ∃ res w' m', ThreadWorker_run fuel sys p i (pworker s) (pmem s) = Val (Some (w', m')) ∧
    completions w' = push_back (completions (pworker s)) res ∧
    PInv (mkPSys w' m' (pphase s) (if res is Done _ then {[a]} ∪ taken s else taken s)
      (finished s ++ dones [res]) (woken s) (leaked s)).
Proof.
  intros [HP Hl Hpol Hdone] Hi Hset Hmw.
  destruct (pi_thread fuel sys p _ _ _ _ _ _ i r call a rest HP Hi Hset Hmw)
    as (w1 & m1 & res & Heq & Hc & Hb & Hdc & HP'). eexists res, _, _. split; [done|]. split; [done|].
  split; simpl; [by rewrite Hdc|done|by rewrite Hb|]. rewrite Hdone, Hc. unfold push_back.
  rewrite !dones_app. solve_Permutation.
Qed.

Lemma pool_inv_step twice p s s' : PInv s → pool_step twice p s s' → PInv s'.
Proof.
  intros HI Hst.
  destruct Hst as [s a t op w' m' acts Ha Ht Hlt Hfree Heq|s i fuel sys r call a rest res w' m' Hi Hset Hmw Heq Hres
    |s events w' Hph _ Hev Heq|s q todo w' m' acts d d' Hph Hlt Heq|s now Hph|s d t q w' m' act Hph Hq Heq
    |s l w' Hph _ Heq|s res l w' m' acts d d' Hph Hlt Heq|s Hph|s a t op r f w' m' Ha Hf Hop Hnc Heq].
  - by eapply pool_inv_begin.
  - destruct (pool_inv_thread p s i fuel sys r call a rest HI Hi Hset Hmw) as (res1 & w1 & m1 & Heq1 & Hc & HI').
    rewrite Heq in Heq1. simplify_eq/=.
    assert (res1 = res) as -> by (unfold push_back in *; rewrite Hres in Hc; by simplify_list_eq). done.
  - destruct HI as [HP Hl Hpol Hdone]. rewrite Hph in *.
    destruct (pi_poll events _ _ _ _ _ HP) as (b & Heq1 & HP'); [by apply Hpol|done|].
    rewrite Heq in Heq1. simplify_eq/=. split; simpl; [|done| |done].
    + eapply eq_rect; [exact HP'|]. rewrite due_count_base. unfold due_count. simpl. lia.
    + intros Hn. by destruct (Hn (polled_requests b)).
  - destruct (pool_inv_turn p s q todo d HI Hph Hlt) as (w1 & m1 & acts1 & d1 & Heq1 & HI' & _).
    rewrite Heq in Heq1. by simplify_eq.
  - destruct HI as [[P1 P2 P3 P4 P5] Hl Hpol Hdone]. rewrite Hph in *. split; simpl; try done.
    split; try done; [|by eapply pool_ok_mono]. eapply core_insensitive; [..|exact P1]; try done. apply P1.
  - destruct (pool_inv_due p s HI Hph) as [Hn|(d1 & t1 & q1 & w1 & m1 & act1 & Hq1 & Heq1 & HI')]; [congruence|].
    rewrite Heq in Heq1. rewrite Hq in Hq1. by simplify_eq.
  - destruct (pool_inv_drain_begin p s HI Hph) as (l1 & w1 & Heq1 & HI'). rewrite Heq in Heq1. by simplify_eq.
  - destruct (pool_inv_drain twice p s res l d HI Hph Hlt) as (w1 & m1 & acts1 & d1 & Heq1 & HI').
    rewrite Heq in Heq1. by simplify_eq.
  - destruct HI as [HP Hl Hpol Hdone]. rewrite Hph in *. split; simpl; try done. intros _. by apply Hpol.
  - destruct HI as [HP Hl Hpol Hdone].
    rewrite (pool_io_poll_end twice p a t op _ _ f Hf Hop Hnc) in Heq. simplify_eq/=. split; simpl; try done.
    by apply pi_resume.
Qed.

Lemma pool_reachable twice p threads now s :
  (0 < threads)%nat → rtc (pool_step twice p) (pool_init threads now) s → PInv s.
Proof.
  intros Ht. apply (rtc_invariant (pool_step twice p) PInv); [by intros; eapply pool_inv_step|by apply pool_inv_init].
Qed.

(** What is leaked stays. *)
Lemma leaked_mono twice p s s' : rtc (pool_step twice p) s s' → leaked s ≤ leaked s'.
Proof.
  induction 1 as [|s s1 s2 Hst _ IH]; [done|]. etrans; [|exact IH].
  destruct Hst; simpl; try lia. unfold turn_leak. destruct acts as [|[] ?]; lia.
Qed.

(** ** Theorems *)

(** C8: in every state that the worker with one thread or more reaches by steps in which
    tasks are local, a socket has one request at a time, the system answers
    every call and its poll does not fail, no call on a file answers
    [WouldBlock], [mio] reports each registered token at most once per poll, a
    deadline that is removed after its request is not the deadline of another
    request, and fewer than 2^64 - 1 requests are counted: no request is lost.
    Each one that is not finished waits in the poller, is among the polled
    ones, or is with the threads or their results, once; every task whose
    request is finished was given to the executor or is in the results; the
    count is of these requests and what was leaked, so the worker has work
    while there are any; and from such a state a thread, for a call that the
    system answers in this way, a turn of the loops, the deadlines and the
    exchange of the results do not panic. *)
Theorem pool_conserves (twice : bool) (p : profile) (threads : nat) (now : Z) (s : PSys) :
  (0 < threads)%nat → rtc (pool_step twice p) (pool_init threads now) s →
  (live (base (pworker s)) (ptodo (pphase s))).*2 ++ (pooled s).*2 ≡ₚ elements (dom (pmem s) ∖ taken s) ∧
  finished s ≡ₚ woken s ++ dones (completions (pworker s) ++ pdraining (pphase s)) ∧
  active (pworker s) = Z.of_nat (size (waiting (poller (base (pworker s))))) +
    due_count (pworker s) (ptodo (pphase s)) + leaked s ∧ 0 ≤ leaked s ∧
  (∀ i fuel sys r call a rest, workers (pworker s) !! i = Some ((call, a) :: rest) → settles fuel sys call r →
    (raw_socket call = None → ∀ e, r = Err e → must_wait e = false) →
    ∃ x, ThreadWorker_run fuel sys p i (pworker s) (pmem s) = Val (Some x)) ∧
  (active (pworker s) + 1 < usize_modulus →
    (∀ q todo d, pphase s = PProcessing (q :: todo) →
      ∃ x, pool_process_turn p q (pworker s) (pmem s) d = Val x) ∧
    (∀ res l d, pphase s = PDraining (res :: l) →
      ∃ x, drain_turn twice p res (pworker s) (pmem s) d = Val x)) ∧
  (pphase s = PChecking → (∃ o, pool_check_deadlines_turn p (pworker s) (pmem s) = Val o) ∧
    ∃ x, drain_begin p (pworker s) = Val x).
Proof.
  intros Ht HI%pool_reachable; [|done]. pose proof (pi_core _ _ _ _ _ _ _ (pv_pi _ HI)) as HC.
  split_and!; [apply HC|apply (pv_done _ HI)| |apply (pv_leaked _ HI)| | |].
  - pose proof (c_active _ _ _ _ _ _ HC). unfold active. lia.
  - intros i fuel sys r call a rest Hi Hset Hmw.
    destruct (pool_inv_thread p s i fuel sys r call a rest HI Hi Hset Hmw) as (? & ? & ? & -> & _). eauto.
  - intros Hlt. split.
    + intros q todo d Hph. destruct (pool_inv_turn p s q todo d HI Hph Hlt) as (? & ? & ? & ? & -> & _). eauto.
    + intros res l d Hph. destruct (pool_inv_drain twice p s res l d HI Hph Hlt) as (? & ? & ? & ? & -> & _). eauto.
  - intros Hph. split.
    + destruct (pool_inv_due p s HI Hph) as [->|(? & ? & ? & ? & ? & ? & _ & -> & _)]; eauto.
    + destruct (pool_inv_drain_begin p s HI Hph) as (? & ? & -> & _). eauto.
Qed.

(** The count is not lowered when a polled request is sent to a thread again,
    nor when its deadline has passed by then: once a request to receive, send,
    peek or accept has waited for its socket, the worker has work for ever,
    also when there is no request left. *)
Theorem pool_count_leaks (twice : bool) (p : profile) (threads : nat) (now : Z) (s : PSys) (q : Polled)
    (todo : list Polled) :
  (0 < threads)%nat → rtc (pool_step twice p) (pool_init threads now) s →
  pphase s = PProcessing (q :: todo) → polled_ok q = true → must_retry (polled_call q) = Val true →
  active (pworker s) + 1 < usize_modulus →
  ∃ w' m' acts d', pool_process_turn p q (pworker s) (pmem s) false = Val (w', m', acts, d') ∧
    ∀ s', rtc (pool_step twice p) (acts_on (polled_ptr q) acts w' m' (PProcessing todo) (turn_leak acts) s) s' →
      pool_has_work (pworker s') = true.
Proof.
  intros Ht Hs Hph Hok Hr Hlt. pose proof (pool_reachable _ _ _ _ _ Ht Hs) as HI.
  destruct (pool_inv_turn p s q todo false HI Hph Hlt) as (w' & m' & acts & d' & Heq & HI1 & Hleak).
  eexists _, _, _, _. split; [done|]. intros s' Hs'. pose proof (leaked_mono _ _ _ _ Hs') as Hmono. simpl in Hmono.
  rewrite Hleak in Hmono by done. pose proof (pv_leaked _ HI).
  apply (rtc_invariant (pool_step twice p) PInv) in Hs'; [|by intros; eapply pool_inv_step|done].
  pose proof (c_active _ _ _ _ _ _ (pi_core _ _ _ _ _ _ _ (pv_pi _ Hs'))) as Ha. unfold due_count in Ha.
  unfold pool_has_work, active. apply Z.ltb_lt. lia.
Qed.

(** ** The two fallback workers *)

Definition op_call (op : IoOp) (a : Z) : IoCall :=
  match op with
  | Net op => net_call op
  | NetWithDeadline op _ => net_call_with_deadline op a
  | File op => file_call op
  end.

Definition only_polls (op : IoOp) : bool :=
  match op with Net op | NetWithDeadline op _ => is_poll_op op | File _ => false end.

Lemma file_work_call sys op : do_io_work sys (file_call op) = Val (file_work sys op).
Proof. by destruct op. Qed.

(** What the task of a finished request is given to. *)
Definition finish_running (t : Task) : Action :=
  if Task_is_local t then SpawnLocalTask t else InvokeCall PushCurrentTaskAtTheStartOfLIFOSharedQueue.

(** C38: take an operation that is not a mere poll and whose deadline, if any,
    is after the worker's time, and a system whose answer, after interrupted
    attempts, is [r]. If [r] is not [WouldBlock] or the like, the worker that
    makes calls itself and a thread of the other one both finish the request
    with the same result in memory and the same task. If it is, neither
    writes a result: for a socket the first worker registers the call with the
    poller and the thread sends it back to be registered; for a file the
    thread sends it back as well, but the first worker panics. *)
Theorem fallback_workers_agree (twice : bool) (fuel : nat) (sys : nat → LibCall → Result Z) (p : profile)
    (op : IoOp) (a : Z) (f : Fut) (r : Result Z) (w : FallbackWorker) (m : Mem) :
  m !! a = Some f → was_executed (io_request_data f) = false → only_polls op = false →
  (∀ d, op_deadline op = Some d → last_gotten_time w < d) →
  settles fuel sys (op_call op a) r →
  let waits := match r with Err e => must_wait e | Ok _ => false end in
  (waits = false → ∃ m', thread_turn fuel sys p (op_call op a, a) m = Val (Done (task (io_request_data f)), m') ∧
    fallback_request twice fuel sys p op a w m = Val (w, m', [finish_running (task (io_request_data f))])) ∧
  (waits = true → thread_turn fuel sys p (op_call op a, a) m = Val (MustPoll (op_call op a) a, m) ∧
    fallback_request twice fuel sys p op a w m =
      match op with
      | File _ => Panicked
      | _ => '(w, m) ← register_io_call_to_poller_with_considering_deadline twice p (op_call op a) a w m;
             Val (w, m, [])
      end).
Proof.
  intros Hf Hwe Hpoll Hd Hset waits. unfold settles in Hset.
  assert (∃ d, IoRequestData_task p (set_ret r (io_request_data f)) = Val (task (io_request_data f), d) ∧
    complete_running p a r m = Val (write_req a d m, finish_running (task (io_request_data f)))) as (d & Ht & Hc).
  { unfold complete_running, get_mut, IoRequestData_task. rewrite Hf. simpl.
    destruct p; simpl; rewrite ?Hwe; eexists; done. }
  assert (thread_turn fuel sys p (op_call op a, a) m = if waits then Val (MustPoll (op_call op a) a, m)
    else Val (Done (task (io_request_data f)), write_req a d m)) as Hthread.
  { unfold thread_turn, get_mut. rewrite Hf. cbn [unchecked mbind outcome_bind]. rewrite Hset.
    cbn [unchecked mbind outcome_bind]. rewrite Ht. subst waits. by destruct r as [|e]; [|destruct (must_wait e)]. }
  rewrite Hthread. clear Hthread Ht.
  assert (∀ call, op_call op a = call → (∀ o, op ≠ File o) → handle_io_call twice fuel sys p call a w m =
    if waits then '(w, m) ← register_io_call_to_poller_with_considering_deadline twice p call a w m; Val (w, m, [])
    else Val (w, write_req a d m, [finish_running (task (io_request_data f))])) as Hhandle.
  { intros call <- _. unfold handle_io_call. rewrite Hset. cbn [unchecked mbind outcome_bind]. rewrite Hc.
    subst waits. by destruct r as [|e]; [|destruct (must_wait e)]. }
  destruct op as [op|op dl|op]; simpl in *.
  - unfold net_request. rewrite Hpoll, (Hhandle _ eq_refl) by done. destruct waits; split; eauto; done.
  - unfold check_deadline_and, net_request. rewrite (proj2 (Z.ltb_lt _ _) (Hd dl eq_refl)), Hpoll.
    rewrite (Hhandle _ eq_refl) by done. destruct waits; split; eauto; done.
  - unfold handle_io_operation.
    assert (retry_interrupted fuel (λ i, Val (file_work (sys i) op)) 0 = Val (Some r)) as ->.
    { rewrite <- Hset. clear. generalize 0%nat. induction fuel as [|fuel IH]; intros i; [done|]. simpl.
      rewrite file_work_call. simpl. destruct (file_work (sys i) op); [done|]. case_decide; [apply IH|done]. }
    cbn [unchecked mbind outcome_bind]. rewrite Hc. subst waits.
    destruct r as [|e]; [|destruct (must_wait e)]; split; eauto; done.
Qed.

(** ** Runs and witnesses *)

Definition pool_task (n : Z) : Task := mkTask (TaskData_new (fat_ptr n 1) Locality_local) 1 n.

(** A socket that is not ready. *)
Definition pool_sys (attempt : nat) (c : LibCall) : Result Z := Err (OsError EAGAIN).

Ltac pool_side :=
  first [ done
        | reflexivity
        | vm_compute; reflexivity
        | intros ? [= <-]; split; [intros [Hb|Hb]; [by apply Hb|by apply elem_of_nil in Hb]|apply not_elem_of_nil]
        | by intros ? ].

Tactic Notation "pool_run" uconstr(H) :=
  eapply rtc_l; [eapply H; pool_side|]; eval_state.

(** A request to receive waits for its socket, which is reported ready. *)
Definition pool_ready : PSys := mkPSys
  (mkPW (mkFW 1 (mkPoller ∅ [0] {[0 := (Recv 3 0 9, 8)]} []) [] 0 [mkPolled true (Recv 3 0 9) 8]) [[]] [] [])
  {[8 := mkFut (IoRequestData_new (pool_task 1)) None]} (PProcessing [mkPolled true (Recv 3 0 9) 8]) ∅ [] [] 0.

Lemma pool_ready_reachable : rtc (pool_step false Debug) (pool_init 1 0) pool_ready.
Proof.
  pool_run (pstep_begin false Debug _ 8 (pool_task 1) (Net (recv 3 0 9))).
  pool_run (pstep_thread false Debug _ 0 1 pool_sys (Err (OsError EAGAIN)) (Recv 3 0 9) 8 []).
  eapply rtc_l; [eapply (pstep_poll false Debug _ []); [done|done|split; [constructor|by intros ? ?%elem_of_nil]|done]|].
  eval_state.
  pool_run (pstep_polled false Debug _ 0).
  pool_run (pstep_checked false Debug).
  pool_run (pstep_drain false Debug _ _ _ _ _ _ false).
  pool_run (pstep_drained false Debug).
  eapply rtc_l; [eapply (pstep_poll false Debug _ [mkEvent 0 false true false]);
    [done|done|split; [apply NoDup_singleton|]|vm_compute; reflexivity]|].
  { intros e ->%list_elem_of_singleton. exists 3. vm_compute. reflexivity. }
  eval_state. apply rtc_refl.
Qed.

Lemma pool_conserves_witness :
  (live (base (pworker pool_ready)) [mkPolled true (Recv 3 0 9) 8]).*2 ++ (pooled pool_ready).*2 ≡ₚ [8].
Proof.
  apply (pool_conserves false Debug 1 0 pool_ready ltac:(lia) pool_ready_reachable).
Defined.

Lemma pool_count_leaks_witness :
  ∃ w' m' acts d', pool_process_turn Debug (mkPolled true (Recv 3 0 9) 8) (pworker pool_ready) (pmem pool_ready)
    false = Val (w', m', acts, d').
Proof.
  destruct (pool_count_leaks false Debug 1 0 pool_ready (mkPolled true (Recv 3 0 9) 8) [])
    as (w' & m' & acts & d' & Heq & _).
  - lia.
  - exact pool_ready_reachable.
  - reflexivity.
  - reflexivity.
  - reflexivity.
  - vm_compute. reflexivity.
  - eauto.
Defined.

Lemma pool_must_poll_time_witness :
  ∃ s' log, must_poll (λ x, x.1) (logged (λ _ n, Val (false, n))) (S (Z.to_nat (40000 / (16 * MICROS))))
      (Some 40000) (1, []) = Val (Some (s', log)) ∧ total log = 40000.
Proof.
  destruct (pool_must_poll_time (λ _ n, Val (false, n)) (λ _ s, ex_intro _ false (ex_intro _ s eq_refl))
    (λ n : Z, n) 40000 1) as (s' & log & Heq & _ & _ & Hex); [lia|].
  exists s', log. split; [exact Heq|]. apply Hex; [discriminate|]. intros t s. by exists s.
Defined.

Lemma fallback_workers_agree_witness :
  ∃ m', thread_turn 2 (λ _ _, Ok 7) Debug (Read 3 0 9, 8) (pmem pool_ready) = Val (Done (pool_task 1), m') ∧
    fallback_request false 2 (λ _ _, Ok 7) Debug (File (read 3 0 9)) 8 (FallbackWorker_new 0) (pmem pool_ready) =
      Val (FallbackWorker_new 0, m', [SpawnLocalTask (pool_task 1)]).
Proof.
  apply (fallback_workers_agree false 2 (λ _ _, Ok 7) Debug (File (read 3 0 9)) 8
    (mkFut (IoRequestData_new (pool_task 1)) None) (Ok 7) (FallbackWorker_new 0) (pmem pool_ready)).
  - reflexivity.
  - reflexivity.
  - reflexivity.
  - discriminate.
  - reflexivity.
  - reflexivity.
Defined.
