(* ===== verification/Interactor.v ===== *)
(** * Sending tasks to other executors

    Models [src/src/runtime/interaction_between_executors]: the queue every
    executor owns ([SyncBatchOptimizedTaskQueue]) and the [Interactor] with
    which it collects tasks for the others and moves them in batches.

    A queue is reached through an [Arc], here the id of the executor that owns
    it, and guarded by a [NeverWaitLock]: an attempt to lock it fails while
    another thread holds it ([locked]) and is one step otherwise. [do_work] is
    given as a function and related to the steps of a net of executors, whose
    attempts interleave. *)

From Stdlib Require Import ZArith Lia.
From stdpp Require Import functions.
From S2P Require Import Prelude Task Utils.

(** ** [sync_batch_optimized_task_queue.rs] *)
Record LocalAndSharedTaskDeque := mkDeque { q_local : list Task; q_shared : list Task }.

Definition SyncBatchOptimizedTaskQueue_new : LocalAndSharedTaskDeque := mkDeque [] [].

(** The loops of the debug build: local tasks get the id of their new home. *)
Definition rehome (executor_id : nat) (t : Task) : Task :=
  mkTask (data t) (Z.of_nat executor_id) (is_executing t).

Fixpoint append_local (executor_id : nat) (guard local_tasks : list Task) : outcome (list Task) :=
  match local_tasks with
  | [] => Val guard
  | t :: l =>
      rassert (Task_is_local t);;
      append_local executor_id (push_back guard (rehome executor_id t)) l
  end.

Fixpoint append_shared (guard shared_tasks : list Task) : outcome (list Task) :=
  match shared_tasks with
  | [] => Val guard
  | t :: l => rassert (negb (Task_is_local t));; append_shared (push_back guard t) l
  end.

Definition is_nil {A} (l : list A) : bool := match l with [] => true | _ => false end.

(** Returns the queue, the two batches as they are left, and whether the
    tasks were appended. *)
Definition try_to_append_tasks (p : profile) (locked : bool) (executor_id : nat)
    (q : LocalAndSharedTaskDeque) (local_tasks shared_tasks : list Task)
    : outcome (LocalAndSharedTaskDeque * list Task * list Task * bool) :=
  if is_nil local_tasks && is_nil shared_tasks then Val (q, local_tasks, shared_tasks, true)
  else if locked then Val (q, local_tasks, shared_tasks, false)
  else
    match p with
    | Release => Val (mkDeque (q_local q ++ local_tasks) (q_shared q ++ shared_tasks), [], [], true)
    | Debug =>
        l ← append_local executor_id (q_local q) local_tasks;
        s ← append_shared (q_shared q) shared_tasks;
        Val (mkDeque l s, [], [], true)
    end.

Definition try_to_take_batch_of_tasks (locked : bool) (q : LocalAndSharedTaskDeque)
    (local_tasks shared_tasks : list Task)
    : LocalAndSharedTaskDeque * list Task * list Task * bool :=
  if locked then (q, local_tasks, shared_tasks, false)
  else
    let '(q, local_tasks) :=
      if negb (is_nil (q_local q)) then (mkDeque [] (q_shared q), local_tasks ++ q_local q)
      else (q, local_tasks) in
    let '(q, shared_tasks) :=
      if negb (is_nil (q_shared q)) then (mkDeque (q_local q) [], shared_tasks ++ q_shared q)
      else (q, shared_tasks) in
    (q, local_tasks, shared_tasks, true).

(** ** [interactor.rs] *)
Record SharedTaskListForSendTo := mkSendTo {
  shared_task_list : nat;
  local_task_batch : list Task;
  shared_task_batch : list Task;
}.

Definition SharedTaskListForSendTo_new (queue : nat) : SharedTaskListForSendTo :=
  mkSendTo queue [] [].

Record Interactor := mkInteractor {
  own_task_list : nat;
  all : VecMap SharedTaskListForSendTo;
  id_to_retry : list nat;
  last_executed_time : Z;
}.

Definition Interactor_new (queue : nat) : Interactor := mkInteractor queue VecMap_new [] 0.

Definition set_all (m : VecMap SharedTaskListForSendTo) (i : Interactor) : Interactor :=
  mkInteractor (own_task_list i) m (id_to_retry i) (last_executed_time i).
Definition set_retry (l : list nat) (i : Interactor) : Interactor :=
  mkInteractor (own_task_list i) (all i) l (last_executed_time i).

Inductive SendTaskResult := SendOk | ExecutorIsNotRegistered.

Definition push_to_batch (t : Task) (e : SharedTaskListForSendTo) : SharedTaskListForSendTo :=
  if Task_is_local t
  then mkSendTo (shared_task_list e) (push_back (local_task_batch e) t) (shared_task_batch e)
  else mkSendTo (shared_task_list e) (local_task_batch e) (push_back (shared_task_batch e) t).

Definition send_task_to_executor (t : Task) (executor_id : nat) (i : Interactor)
    : Interactor * SendTaskResult :=
  match VecMap_get (all i) executor_id with
  | Some _ => (set_all (VecMap_alter (push_to_batch t) executor_id (all i)) i, SendOk)
  | None => (i, ExecutorIsNotRegistered)
  end.

(** The queues of all executors. *)
Abbreviation Queues := (nat → LocalAndSharedTaskDeque).

(** One turn of the loops of [flush] and [retry_flush]: an attempt to append
    the batches for [id] to their queue. *)
Definition append_entry (p : profile) (locked : bool) (id : nat) (e : SharedTaskListForSendTo)
    (i : Interactor) (qs : Queues) : outcome (Interactor * Queues * bool) :=
  r ← try_to_append_tasks p locked id (qs (shared_task_list e)) (local_task_batch e) (shared_task_batch e);
  let '(q, l, s, ok) := r in
  Val (set_all (VecMap_alter (λ _, mkSendTo (shared_task_list e) l s) id (all i)) i,
       <[shared_task_list e := q]> qs, ok).

Fixpoint flush_loop (p : profile) (locked : nat → bool) (entries : list (nat * SharedTaskListForSendTo))
    (i : Interactor) (qs : Queues) : outcome (Interactor * Queues) :=
  match entries with
  | [] => Val (i, qs)
  | (id, e) :: entries =>
      r ← append_entry p (locked id) id e i qs;
      let '(i, qs, ok) := r in
      flush_loop p locked entries
        (if (ok : bool) then i else set_retry (push_back (id_to_retry i) id) i) qs
  end.

Definition flush (p : profile) (locked : nat → bool) (i : Interactor) (qs : Queues)
    : outcome (Interactor * Queues) :=
  debug_assert p (is_nil (id_to_retry i));;
  flush_loop p locked (VecMap_iter (all i)) i qs.

Fixpoint retry_flush_loop (p : profile) (locked : nat → bool) (ids : list nat)
    (i : Interactor) (qs : Queues) : outcome (Interactor * Queues) :=
  match ids with
  | [] => Val (i, qs)
  | id :: ids =>
      e ← unchecked (VecMap_get (all i) id);
      r ← append_entry p (locked id) id e i qs;
      let '(i, qs, _) := r in
      retry_flush_loop p locked ids i qs
  end.

Definition retry_flush (p : profile) (locked : nat → bool) (i : Interactor) (qs : Queues)
    : outcome (Interactor * Queues) :=
  retry_flush_loop p locked (id_to_retry i) (set_retry [] i) qs.

Definition try_to_take_tasks (locked : bool) (i : Interactor) (qs : Queues)
    (local_tasks shared_tasks : list Task) : Queues * list Task * list Task * bool :=
  let '(q, l, s, ok) :=
    try_to_take_batch_of_tasks locked (qs (own_task_list i)) local_tasks shared_tasks in
  (<[own_task_list i := q]> qs, l, s, ok).

(** [do_work], in microseconds: [busy k id] says whether the queue of [id] is
    locked by another thread at the attempts of phase [k]. *)
Definition do_work (p : profile) (busy : nat → nat → bool) (now : Z) (i : Interactor) (qs : Queues)
    (local_tasks shared_tasks : list Task)
    : outcome (Interactor * Queues * list Task * list Task) :=
  if (now - last_executed_time i <? 64)%Z then Val (i, qs, local_tasks, shared_tasks)
  else
    let i := mkInteractor (own_task_list i) (all i) (id_to_retry i) now in
    let '(qs, local_tasks, shared_tasks, is_success) :=
      try_to_take_tasks (busy 0 (own_task_list i)) i qs local_tasks shared_tasks in
    r ← flush p (busy 1) i qs;
    let '(i, qs) := r in
    let '(qs, local_tasks, shared_tasks) :=
      if negb is_success then
        (try_to_take_tasks (busy 2 (own_task_list i)) i qs local_tasks shared_tasks).1
      else (qs, local_tasks, shared_tasks) in
    r ← retry_flush p (busy 3) i qs;
    let '(i, qs) := r in
    Val (i, qs, local_tasks, shared_tasks).

(** ** A net of executors

    [got_local] and [got_shared] are the tasks an executor has taken from its
    queue (they are appended to its own task queues), [sent i j] the tasks
    that [i] was asked to send to [j], and [lost b i j] those that were dropped
    from the batches of [i] for [j] ([b]: the local ones).

    Tasks are dropped by [check_version_and_update_if_needed], which every
    round of [run] calls: when the set of running executors has changed, it
    replaces the entries of the interactor by empty ones ([net_refresh]). In a
    [stable] net no executor starts or stops. *)
Record Node := mkNode { inter : Interactor; got_local : list Task; got_shared : list Task }.

Record Net := mkNet {
  queues : Queues;
  nodes : nat → Node;
  sent : nat → nat → list Task;
  lost : bool → nat → nat → list Task;
}.

Definition set_inter (i : Interactor) (nd : Node) : Node := mkNode i (got_local nd) (got_shared nd).

Definition batch_of (b : bool) (e : SharedTaskListForSendTo) : list Task :=
  if b then local_task_batch e else shared_task_batch e.
Definition batch (n : Net) (b : bool) (i j : nat) : list Task :=
  match VecMap_get (all (inter (nodes n i))) j with Some e => batch_of b e | None => [] end.

(** The interactor of [i] starts over with the entries [m]. *)
Definition refreshed (n : Net) (i : nat) (m : VecMap SharedTaskListForSendTo) : Net :=
  mkNet (queues n) (<[i := set_inter (set_all m (inter (nodes n i))) (nodes n i)]> (nodes n)) (sent n)
    (λ b k j, if decide (k = i) then lost n b k j ++ batch n b k j else lost n b k j).

Inductive net_step (p : profile) (stable : bool) (ids : list nat) : Net → Net → Prop :=
| net_send n i j t i' :
    i ∈ ids → send_task_to_executor t j (inter (nodes n i)) = (i', SendOk) →
    net_step p stable ids n
      (mkNet (queues n) (<[i := set_inter i' (nodes n i)]> (nodes n))
         (<[i := <[j := push_back (sent n i j) t]> (sent n i)]> (sent n)) (lost n))
| net_append n i j locked e i' qs ok :
    i ∈ ids → VecMap_get (all (inter (nodes n i))) j = Some e →
    append_entry p locked j e (inter (nodes n i)) (queues n) = Val (i', qs, ok) →
    net_step p stable ids n (mkNet qs (<[i := set_inter i' (nodes n i)]> (nodes n)) (sent n) (lost n))
| net_take n i locked qs l s ok :
    try_to_take_tasks locked (inter (nodes n i)) (queues n) (got_local (nodes n i))
      (got_shared (nodes n i)) = (qs, l, s, ok) →
    net_step p stable ids n (mkNet qs (<[i := mkNode (inter (nodes n i)) l s]> (nodes n)) (sent n) (lost n))
| net_retry n i l now :  (** bookkeeping: ids to retry, the time of the last round *)
    net_step p stable ids n
      (mkNet (queues n)
         (<[i := set_inter (mkInteractor (own_task_list (inter (nodes n i))) (all (inter (nodes n i))) l now)
                   (nodes n i)]> (nodes n)) (sent n) (lost n))
| net_refresh n i m :  (** what [check_version_and_update_if_needed] does to the interactor *)
    stable = false → i ∈ ids →
    (∀ j e, VecMap_get m j = Some e → e = SharedTaskListForSendTo_new j) →
    net_step p stable ids n (refreshed n i m).

(** A net at its start: entries lead to the queue of their key, nothing is
    under way. *)
Record net_start (n : Net) : Prop := {
  ns_own i : own_task_list (inter (nodes n i)) = i;
  ns_entry i j e : VecMap_get (all (inter (nodes n i))) j = Some e → e = SharedTaskListForSendTo_new j;
  ns_queue j : queues n j = SyncBatchOptimizedTaskQueue_new;
  ns_got j : got_local (nodes n j) = [] ∧ got_shared (nodes n j) = [];
  ns_sent i j : sent n i j = [];
  ns_lost b i j : lost n b i j = [];
}.

(** The parts of a net, by locality ([true]: local). *)
Definition q_of (b : bool) (q : LocalAndSharedTaskDeque) : list Task := if b then q_local q else q_shared q.
Definition got_of (b : bool) (nd : Node) : list Task := if b then got_local nd else got_shared nd.
Definition arrived (n : Net) (b : bool) (j : nat) : list Task :=
  got_of b (nodes n j) ++ q_of b (queues n j).
Definition sent_of (n : Net) (b : bool) (i j : nat) : list Task :=
  filter (λ t, Task_is_local t = b) (sent n i j).

(** *** The abstract net: per pair of executors and locality, a channel that
    first collects and then passes on, or loses, all that it collected. *)
Record View := mkView {
  infl : bool → nat → list TaskData;
  bat : bool → nat → nat → list TaskData;
  snt : bool → nat → nat → list TaskData;
  lst : bool → nat → nat → list TaskData;
}.

Definition view (n : Net) : View :=
  mkView (λ b j, data <$> arrived n b j) (λ b i j, data <$> batch n b i j)
    (λ b i j, data <$> sent_of n b i j) (λ b i j, data <$> lost n b i j).

(** Of the tasks for [j], those of [i] that were passed on, [k], are among the
    arrived ones in their order. *)
Definition passed_on (v : View) (b : bool) (i j : nat) (k : list TaskData) : Prop :=
  k `sublist_of` infl v b j ∧ k ++ bat v b i j `sublist_of` snt v b i j ∧
  k ++ bat v b i j ++ lst v b i j ≡ₚ snt v b i j.

Definition view_ok (ids : list nat) (v : View) : Prop :=
  (∀ b i j, ∃ k, passed_on v b i j k) ∧
  (∀ b j, infl v b j ++ concat (map (λ i, bat v b i j ++ lst v b i j) ids) ≡ₚ
          concat (map (λ i, snt v b i j) ids)).

Lemma concat_map_change {A B} (f g : A → list B) (l : list A) x :
  NoDup l → x ∈ l → (∀ y, y ≠ x → f y = g y) →
  ∃ r, concat (map f l) ≡ₚ f x ++ r ∧ concat (map g l) ≡ₚ g x ++ r.
Proof.
  intros Hnd [l' Hl]%elem_of_Permutation Hfg. exists (concat (map f l')).
  assert (map f l' = map g l') as Heq.
  { apply map_ext_in. intros y Hy%list_elem_of_In. apply Hfg. intros ->.
    rewrite Hl in Hnd. by apply NoDup_cons in Hnd as [? _]. }
  split; [|rewrite Heq]; by rewrite Hl.
Qed.

Lemma concat_map_same {A B} (f g : A → list B) (l : list A) :
  (∀ y, f y = g y) → concat (map f l) = concat (map g l).
Proof. intros Hfg. by rewrite (map_ext _ _ Hfg). Qed.

Lemma concat_map_perm {A B} (f g : A → list B) (l : list A) :
  (∀ y, f y ≡ₚ g y) → concat (map f l) ≡ₚ concat (map g l).
Proof. intros Hfg. induction l as [|x l IH]; [done|]. simpl. by rewrite Hfg, IH. Qed.

Section view.
Context (ids : list nat) (Hids : NoDup ids).

Lemma view_ok_send v v' b i j d :
  i ∈ ids → view_ok ids v → (∀ b j, infl v' b j = infl v b j) →
  (∀ b' i' j', (b', i', j') ≠ (b, i, j) → bat v' b' i' j' = bat v b' i' j' ∧ snt v' b' i' j' = snt v b' i' j') →
  (∀ b i j, lst v' b i j = lst v b i j) →
  bat v' b i j = bat v b i j ++ [d] → snt v' b i j = snt v b i j ++ [d] → view_ok ids v'.
Proof.
  intros Hi [Hs Hp] Hinf Hne Hl Hb Hsn. split.
  - intros b' i' j'. destruct (Hs b' i' j') as [k (H1 & H2 & H3)]. exists k. unfold passed_on.
    rewrite Hinf, Hl. destruct (decide ((b', i', j') = (b, i, j))) as [[= -> -> ->]|Hn].
    + rewrite Hb, Hsn. split_and!; [done|rewrite app_assoc; by apply sublist_app|].
      rewrite <- H3. solve_Permutation.
    + by destruct (Hne _ _ _ Hn) as [-> ->].
  - intros b' j'. rewrite Hinf. destruct (decide ((b', j') = (b, j))) as [[= -> ->]|Hn].
    + destruct (concat_map_change (λ i, bat v b i j ++ lst v b i j) (λ i, bat v' b i j ++ lst v' b i j) ids i)
        as (r & H1 & H2); [done..|intros k Hk; rewrite Hl; f_equal; symmetry; apply Hne; congruence|].
      destruct (concat_map_change (λ i, snt v b i j) (λ i, snt v' b i j) ids i) as (r' & H3 & H4);
        [done..|intros k Hk; symmetry; apply Hne; congruence|].
      specialize (Hp b j). rewrite H1, H3 in Hp. rewrite H2, H4, Hb, Hsn, Hl.
      trans ([d] ++ infl v b j ++ (bat v b i j ++ lst v b i j) ++ r); [solve_Permutation|].
      rewrite Hp. solve_Permutation.
    + rewrite (concat_map_same (λ i, bat v' b' i j' ++ lst v' b' i j') (λ i, bat v b' i j' ++ lst v b' i j'))
        by (intros; rewrite Hl; f_equal; apply Hne; congruence).
      rewrite (concat_map_same (λ i, snt v' b' i j') (λ i, snt v b' i j')) by (intros; apply Hne; congruence).
      apply Hp.
Qed.

Lemma view_ok_append v v' i j :
  i ∈ ids → view_ok ids v → (∀ b, infl v' b j = infl v b j ++ bat v b i j) →
  (∀ b j', j' ≠ j → infl v' b j' = infl v b j') → (∀ b, bat v' b i j = []) →
  (∀ b i' j', (i', j') ≠ (i, j) → bat v' b i' j' = bat v b i' j') →
  (∀ b i' j', snt v' b i' j' = snt v b i' j') → (∀ b i' j', lst v' b i' j' = lst v b i' j') →
  view_ok ids v'.
Proof.
  intros Hi [Hs Hp] Hinf Hinf' Hb Hb' Hsn Hl. split.
  - intros b i' j'. destruct (Hs b i' j') as [k (H1 & H2 & H3)]. unfold passed_on. rewrite Hsn, Hl.
    destruct (decide (j' = j)) as [->|Hj].
    + rewrite Hinf. destruct (decide (i' = i)) as [->|Hi'].
      * exists (k ++ bat v b i j). rewrite Hb, app_nil_r, <- app_assoc.
        split_and!; [by apply sublist_app|done|done].
      * exists k. rewrite Hb' by congruence. split_and!; [by apply sublist_inserts_r|done|done].
    + exists k. by rewrite Hinf', Hb' by congruence.
  - intros b j'. rewrite (concat_map_same (λ i, snt v' b i j') (λ i, snt v b i j')) by done.
    rewrite <- Hp. destruct (decide (j' = j)) as [->|Hj].
    + destruct (concat_map_change (λ i, bat v b i j ++ lst v b i j) (λ i, bat v' b i j ++ lst v' b i j) ids i)
        as (r & H1 & H2); [done..|intros k Hk; rewrite Hl; f_equal; symmetry; apply Hb'; congruence|].
      rewrite H1, H2, Hinf, Hb, Hl. solve_Permutation.
    + rewrite Hinf' by done.
      by rewrite (concat_map_same (λ i, bat v' b i j' ++ lst v' b i j') (λ i, bat v b i j' ++ lst v b i j'))
        by (intros; rewrite Hl; f_equal; apply Hb'; congruence).
Qed.

(** The batches of [i] are dropped. *)
Lemma view_ok_refresh v v' i :
  view_ok ids v → (∀ b j, infl v' b j = infl v b j) → (∀ b i' j, snt v' b i' j = snt v b i' j) →
  (∀ b j, bat v' b i j = [] ∧ lst v' b i j = lst v b i j ++ bat v b i j) →
  (∀ b i' j, i' ≠ i → bat v' b i' j = bat v b i' j ∧ lst v' b i' j = lst v b i' j) → view_ok ids v'.
Proof.
  intros [Hs Hp] Hinf Hsn Hi Hne. split.
  - intros b i' j. destruct (Hs b i' j) as [k (H1 & H2 & H3)]. exists k. unfold passed_on. rewrite Hinf, Hsn.
    destruct (decide (i' = i)) as [->|Hi']; [|by destruct (Hne b i' j Hi') as [-> ->]].
    destruct (Hi b j) as [-> ->]. split_and!; [done| |rewrite <- H3; solve_Permutation].
    etrans; [|exact H2]. by apply sublist_app; [|apply sublist_nil_l].
  - intros b j. rewrite Hinf, (concat_map_same (λ i, snt v' b i j) (λ i, snt v b i j)) by done.
    rewrite <- Hp, (concat_map_perm (λ i, bat v' b i j ++ lst v' b i j) (λ i, bat v b i j ++ lst v b i j));
      [done|]. intros i'. destruct (decide (i' = i)) as [->|Hi']; [|by destruct (Hne b i' j Hi') as [-> ->]].
    destruct (Hi b j) as [-> ->]. simpl. apply Permutation_app_comm.
Qed.

Lemma view_ok_same v v' :
  view_ok ids v → (∀ b j, infl v' b j = infl v b j) →
  (∀ b i j, bat v' b i j = bat v b i j) → (∀ b i j, snt v' b i j = snt v b i j) →
  (∀ b i j, lst v' b i j = lst v b i j) → view_ok ids v'.
Proof.
  intros [Hs Hp] H1 H2 H3 H4. split.
  - intros b i j. destruct (Hs b i j) as [k Hk]. exists k. unfold passed_on. by rewrite H1, H2, H3, H4.
  - intros b j. rewrite H1.
    rewrite (concat_map_same (λ i, bat v' b i j ++ lst v' b i j) (λ i, bat v b i j ++ lst v b i j))
      by (intros; by rewrite H2, H4).
    rewrite (concat_map_same (λ i, snt v' b i j) (λ i, snt v b i j)) by done. apply Hp.
Qed.

End view.

(** *** The concrete operations *)
Definition home (p : profile) (id : nat) (l : list Task) : list Task :=
  match p with Debug => rehome id <$> l | Release => l end.

Definition is_of (b : bool) (l : list Task) : Prop := Forall (λ t, Task_is_local t = b) l.

Lemma append_local_spec id g l :
  is_of true l → append_local id g l = Val (g ++ (rehome id <$> l)).
Proof.
  intros Hl. revert g. induction Hl as [|t l Ht Hl IH]; intros g; simpl; [by rewrite app_nil_r|].
  rewrite Ht. simpl. rewrite IH. unfold push_back. by rewrite <- app_assoc.
Qed.

Lemma append_shared_spec g l : is_of false l → append_shared g l = Val (g ++ l).
Proof.
  intros Hl. revert g. induction Hl as [|t l Ht Hl IH]; intros g; simpl; [by rewrite app_nil_r|].
  rewrite Ht. simpl. rewrite IH. unfold push_back. by rewrite <- app_assoc.
Qed.

Lemma home_nil p id : home p id [] = [].
Proof. by destruct p. Qed.

(** An attempt appends everything or, when the queue is locked and there is
    something to append, nothing. *)
Lemma try_to_append_tasks_spec p locked id q l s :
  is_of true l → is_of false s →
  try_to_append_tasks p locked id q l s =
    if locked && negb (is_nil l && is_nil s) then Val (q, l, s, false)
    else Val (mkDeque (q_local q ++ home p id l) (q_shared q ++ s), [], [], true).
Proof.
  intros Hl Hs. unfold try_to_append_tasks.
  destruct (is_nil l && is_nil s) eqn:Hnil; simpl.
  - rewrite andb_false_r. apply andb_true_iff in Hnil as [H1 H2].
    destruct l, s; try done. rewrite home_nil, !app_nil_r. by destruct q.
  - rewrite andb_true_r. destruct locked; [done|]. destruct p; [|done].
    rewrite (append_local_spec _ _ _ Hl). simpl. by rewrite (append_shared_spec _ _ Hs).
Qed.

Lemma try_to_take_spec locked q l s :
  try_to_take_batch_of_tasks locked q l s =
    if locked then (q, l, s, false) else (mkDeque [] [], l ++ q_local q, s ++ q_shared q, true).
Proof.
  unfold try_to_take_batch_of_tasks. destruct locked; [done|]. destruct q as [[|] [|]]; simpl;
    by rewrite ?app_nil_r.
Qed.

Lemma data_home p id l : data <$> home p id l = data <$> l.
Proof. destruct p; [|done]. simpl. rewrite <- list_fmap_compose. by apply list_fmap_ext. Qed.

Lemma is_of_home p id b l : is_of b l → is_of b (home p id l).
Proof.
  intros Hl. destruct p; [|done]. simpl. apply Forall_fmap. eapply Forall_impl; [done|]. by intros [].
Qed.

(** The invariant of a net. *)
Record net_ok (p : profile) (n : Net) : Prop := {
  no_own i : own_task_list (inter (nodes n i)) = i;
  no_entry i j e : VecMap_get (all (inter (nodes n i))) j = Some e →
    shared_task_list e = j ∧ ∀ b, is_of b (batch_of b e);
  no_arrived b j : is_of b (arrived n b j);
  no_home j : p = Debug → Forall (λ t, executor_id t = Z.of_nat j) (arrived n true j);
}.

Lemma net_ok_start p n : net_start n → net_ok p n.
Proof.
  intros [H1 H2 H3 H4 H5 H6]. constructor; [done| | |].
  - intros i j e He. rewrite (H2 _ _ _ He). split; [done|]. intros []; constructor.
  - intros b j. unfold arrived. rewrite H3. destruct (H4 j) as [Hl Hs]. destruct b; simpl;
      rewrite ?Hl, ?Hs; constructor.
  - intros j _. unfold arrived. rewrite H3. destruct (H4 j) as [Hl _]. simpl. rewrite Hl. constructor.
Qed.

Lemma view_ok_start ids n : net_start n → view_ok ids (view n).
Proof.
  intros [H1 H2 H3 H4 H5 H6].
  assert (∀ b j, arrived n b j = []) as Ha.
  { intros b j. unfold arrived. rewrite H3. destruct (H4 j) as [Hl Hs]. destruct b; simpl;
      by rewrite ?Hl, ?Hs. }
  assert (∀ b i j, batch n b i j = []) as Hb.
  { intros b i j. unfold batch. destruct (VecMap_get _ j) eqn:He; [|done].
    rewrite (H2 _ _ _ He). by destruct b. }
  split.
  - intros b i j. exists []. unfold passed_on, sent_of. simpl. unfold sent_of. by rewrite Ha, Hb, H5, H6.
  - intros b j. simpl. rewrite Ha. induction ids as [|i ids IH]; [done|]. simpl.
    unfold sent_of at 1. by rewrite Hb, H5, H6.
Qed.

Lemma nodes_insert_ne {A} (f : nat → A) i x k : k ≠ i → <[i := x]> f k = f k.
Proof. intros ?. by apply fn_lookup_insert_ne. Qed.

(** The entries of an interactor after one of them was changed. *)
Lemma batch_alter b (m : VecMap SharedTaskListForSendTo) f j j' :
  match VecMap_get (VecMap_alter f j m) j' with Some e => batch_of b e | None => [] end =
  if decide (j' = j) then
    match VecMap_get m j with Some e => batch_of b (f e) | None => [] end
  else match VecMap_get m j' with Some e => batch_of b e | None => [] end.
Proof. rewrite VecMap_get_alter. case_decide; [|done]. by destruct (VecMap_get m j). Qed.

Lemma batch_push b t e :
  batch_of b (push_to_batch t e) = batch_of b e ++ (if decide (Task_is_local t = b) then [t] else []).
Proof.
  unfold push_to_batch, push_back. destruct (Task_is_local t), b; simpl; by rewrite ?app_nil_r.
Qed.

Lemma got_set_inter b (f : nat → Node) i x k :
  got_of b (<[i := set_inter x (f i)]> f k) = got_of b (f k).
Proof.
  destruct (decide (k = i)) as [->|?]; [rewrite fn_lookup_insert|by rewrite fn_lookup_insert_ne].
  by destruct b.
Qed.

Lemma inter_set_inter (f : nat → Node) i x k :
  inter (<[i := set_inter x (f i)]> f k) = if decide (k = i) then x else inter (f k).
Proof.
  case_decide; subst; [by rewrite fn_lookup_insert|by rewrite fn_lookup_insert_ne].
Qed.

Section net.
Context (p : profile) (stable : bool) (ids : list nat) (Hids : NoDup ids).

Lemma send_Ok t j i i' :
  send_task_to_executor t j i = (i', SendOk) →
  ∃ e, VecMap_get (all i) j = Some e ∧ i' = set_all (VecMap_alter (push_to_batch t) j (all i)) i.
Proof. unfold send_task_to_executor. intros Hs. destruct (VecMap_get (all i) j) as [e|]; simplify_eq/=; eauto. Qed.

Lemma net_ok_send n i j t i' sent' lost' :
  net_ok p n → send_task_to_executor t j (inter (nodes n i)) = (i', SendOk) →
  net_ok p (mkNet (queues n) (<[i := set_inter i' (nodes n i)]> (nodes n)) sent' lost').
Proof.
  intros [H1 H2 H3 H4] (e & He & ->)%send_Ok. constructor; simpl.
  - intros k. rewrite inter_set_inter. case_decide; [subst k|]; apply H1.
  - intros k j' e'. rewrite inter_set_inter. case_decide; [subst k|apply H2]. simpl.
    rewrite VecMap_get_alter. case_decide; [subst j'|apply H2]. rewrite He. simpl. intros [= <-].
    destruct (H2 _ _ _ He) as [Hq Hb]. split; [unfold push_to_batch; by case_match|].
    intros b. rewrite batch_push. apply Forall_app. split; [apply Hb|]. by case_decide; repeat constructor.
  - intros b k. unfold arrived. simpl. rewrite got_set_inter. apply H3.
  - intros k. unfold arrived. simpl. rewrite (got_set_inter true). apply H4.
Qed.

Lemma view_ok_net_send n i j t i' :
  i ∈ ids → view_ok ids (view n) → send_task_to_executor t j (inter (nodes n i)) = (i', SendOk) →
  view_ok ids (view (mkNet (queues n) (<[i := set_inter i' (nodes n i)]> (nodes n))
    (<[i := <[j := push_back (sent n i j) t]> (sent n i)]> (sent n)) (lost n))).
Proof.
  intros Hi Hv (e & He & ->)%send_Ok.
  apply (view_ok_send ids Hids (view n) _ (Task_is_local t) i j (data t)); [done..| | |done| |]; simpl.
  - intros b k. unfold arrived. simpl. by rewrite got_set_inter.
  - intros b' i1 j1 Hne. split; f_equal.
    + unfold batch. simpl. rewrite inter_set_inter. case_decide; [subst i1|done]. simpl.
      rewrite batch_alter. case_decide; [subst j1|done]. rewrite He, batch_push.
      case_decide; [congruence|]. by rewrite app_nil_r.
    + unfold sent_of. simpl. destruct (decide (i1 = i)) as [->|?];
        [rewrite fn_lookup_insert|by rewrite fn_lookup_insert_ne].
      destruct (decide (j1 = j)) as [->|?]; [rewrite fn_lookup_insert|by rewrite fn_lookup_insert_ne].
      unfold push_back. rewrite filter_app, filter_cons. case_decide; [congruence|]. by rewrite app_nil_r.
  - unfold batch. simpl. rewrite inter_set_inter. case_decide; [|done]. simpl.
    rewrite batch_alter, He, batch_push. case_decide; [|done]. by rewrite decide_True, fmap_app by done.
  - unfold sent_of. simpl. rewrite !fn_lookup_insert. unfold push_back.
    by rewrite filter_app, filter_cons, decide_True, fmap_app by done.
Qed.

(** An attempt by [i] to append its batches for [j]. *)
Lemma append_entry_spec n i j locked e :
  net_ok p n → VecMap_get (all (inter (nodes n i))) j = Some e →
  append_entry p locked j e (inter (nodes n i)) (queues n) =
    if locked && negb (is_nil (local_task_batch e) && is_nil (shared_task_batch e))
    then Val (set_all (VecMap_alter (λ _, e) j (all (inter (nodes n i)))) (inter (nodes n i)),
              <[j := queues n j]> (queues n), false)
    else Val (set_all (VecMap_alter (λ _, SharedTaskListForSendTo_new j) j (all (inter (nodes n i))))
                (inter (nodes n i)),
              <[j := mkDeque (q_local (queues n j) ++ home p j (local_task_batch e))
                       (q_shared (queues n j) ++ shared_task_batch e)]> (queues n), true).
Proof.
  intros [H1 H2 H3 H4] He. destruct (H2 _ _ _ He) as [Hq Hb]. unfold append_entry.
  rewrite try_to_append_tasks_spec by apply (Hb true) || apply (Hb false). rewrite Hq.
  destruct (locked && _); simpl; [|done]. destruct e; simpl in *. by subst.
Qed.

Lemma queue_insert_same n j : ∀ k, <[j := queues n j]> (queues n) k = queues n k.
Proof.
  intros k. destruct (decide (k = j)) as [->|?]; [by rewrite fn_lookup_insert|by rewrite fn_lookup_insert_ne].
Qed.

Lemma alter_same i j e :
  VecMap_get (all i) j = Some e → ∀ k, VecMap_get (VecMap_alter (λ _, e) j (all i)) k = VecMap_get (all i) k.
Proof. intros He k. rewrite VecMap_get_alter. case_decide; [subst|done]. by rewrite He. Qed.

(** A net that looks the same. *)
Lemma net_ok_same n n' :
  net_ok p n → (∀ i, own_task_list (inter (nodes n' i)) = i) →
  (∀ i j, VecMap_get (all (inter (nodes n' i))) j = VecMap_get (all (inter (nodes n i))) j) →
  (∀ b j, arrived n' b j = arrived n b j) → net_ok p n'.
Proof.
  intros [H1 H2 H3 H4] Ho Ha Hr. constructor; [done| | |].
  - intros i j e. rewrite Ha. apply H2.
  - intros. rewrite Hr. apply H3.
  - intros. rewrite Hr. by apply H4.
Qed.

Lemma view_ok_net_same n n' :
  view_ok ids (view n) →
  (∀ i j, VecMap_get (all (inter (nodes n' i))) j = VecMap_get (all (inter (nodes n i))) j) →
  (∀ b j, arrived n' b j = arrived n b j) → sent n' = sent n → lost n' = lost n →
  view_ok ids (view n').
Proof.
  intros Hv Ha Hr Hs Hl. apply (view_ok_same ids (view n)); simpl; [done| | | |].
  - intros. by rewrite Hr.
  - intros. unfold batch. by rewrite Ha.
  - intros. unfold sent_of. by rewrite Hs.
  - intros. by rewrite Hl.
Qed.

Lemma net_ok_refreshed n i m :
  net_ok p n → (∀ j e, VecMap_get m j = Some e → e = SharedTaskListForSendTo_new j) →
  net_ok p (refreshed n i m).
Proof.
  intros [H1 H2 H3 H4] Hm. constructor; simpl.
  - intros k. rewrite inter_set_inter. case_decide; [subst|]; apply H1.
  - intros k j e. rewrite inter_set_inter. case_decide; [|apply H2]. simpl. intros ->%Hm.
    split; [done|]. intros []; constructor.
  - intros b k. unfold arrived. simpl. rewrite got_set_inter. apply H3.
  - intros k. unfold arrived. simpl. rewrite (got_set_inter true). apply H4.
Qed.

Lemma view_ok_refreshed n i m :
  view_ok ids (view n) → (∀ j e, VecMap_get m j = Some e → e = SharedTaskListForSendTo_new j) →
  view_ok ids (view (refreshed n i m)).
Proof.
  intros Hv Hm. apply (view_ok_refresh ids (view n) _ i); [done| |done|..]; cbn [view infl bat lst].
  - intros b j. unfold arrived. simpl. by rewrite got_set_inter.
  - intros b j. split.
    + unfold batch, refreshed. cbn [nodes]. rewrite inter_set_inter, decide_True by done. simpl.
      destruct (VecMap_get m j) as [e|] eqn:He; [|done]. rewrite (Hm _ _ He). by destruct b.
    + simpl. by rewrite decide_True, fmap_app by done.
  - intros b k j Hk. split; [|simpl; by rewrite decide_False].
    unfold batch, refreshed. cbn [nodes]. by rewrite inter_set_inter, decide_False by done.
Qed.

Definition appended (n : Net) (i j : nat) (e : SharedTaskListForSendTo) : Net :=
  mkNet (<[j := mkDeque (q_local (queues n j) ++ home p j (local_task_batch e))
                  (q_shared (queues n j) ++ shared_task_batch e)]> (queues n))
    (<[i := set_inter (set_all (VecMap_alter (λ _, SharedTaskListForSendTo_new j) j
                                  (all (inter (nodes n i)))) (inter (nodes n i))) (nodes n i)]> (nodes n))
    (sent n) (lost n).

Lemma arrived_appended n i j e b k :
  arrived (appended n i j e) b k =
    arrived n b k ++ (if decide (k = j) then (if b then home p j (local_task_batch e) else shared_task_batch e) else []).
Proof.
  unfold arrived. simpl. rewrite got_set_inter. case_decide; [subst k|].
  - rewrite fn_lookup_insert. destruct b; simpl; by rewrite app_assoc.
  - by rewrite fn_lookup_insert_ne, app_nil_r.
Qed.

Lemma net_ok_appended n i j e :
  net_ok p n → VecMap_get (all (inter (nodes n i))) j = Some e → net_ok p (appended n i j e).
Proof.
  intros [H1 H2 H3 H4] He. destruct (H2 _ _ _ He) as [_ Hb]. constructor.
  - intros k. simpl. rewrite inter_set_inter. case_decide; [subst|]; apply H1.
  - intros k j' e'. simpl. rewrite inter_set_inter. case_decide; [subst k|apply H2]. simpl.
    rewrite VecMap_get_alter. case_decide; [subst j'|apply H2]. rewrite He. simpl. intros [= <-].
    split; [done|]. intros []; constructor.
  - intros b k. rewrite arrived_appended. apply Forall_app. split; [apply H3|].
    case_decide; [|constructor]. destruct b; [apply is_of_home, (Hb true)|apply (Hb false)].
  - intros k Hp. rewrite arrived_appended. apply Forall_app. split; [by apply H4|].
    case_decide; [subst k|constructor]. rewrite Hp. simpl. apply Forall_fmap, Forall_true. done.
Qed.

Lemma view_ok_appended n i j e :
  i ∈ ids → view_ok ids (view n) → VecMap_get (all (inter (nodes n i))) j = Some e →
  view_ok ids (view (appended n i j e)).
Proof.
  intros Hi Hv He. apply (view_ok_append ids Hids (view n) _ i j); [done..| | | | | |].
  - intros b. cbn [view infl bat]. rewrite arrived_appended, decide_True, fmap_app by done. f_equal.
    unfold batch. rewrite He. destruct b; [apply data_home|done].
  - intros b k Hk. cbn [view infl]. by rewrite arrived_appended, decide_False, app_nil_r by done.
  - intros b. cbn [view bat]. unfold batch, appended. cbn [nodes].
    rewrite inter_set_inter, decide_True by done. cbn [all set_all].
    rewrite batch_alter, decide_True, He by done. by destruct b.
  - intros b k j' Hne. cbn [view bat]. f_equal. unfold batch, appended. cbn [nodes].
    rewrite inter_set_inter. case_decide; [subst k|done]. cbn [all set_all]. rewrite batch_alter, decide_False by congruence. done.
  - done.
  - done.
Qed.

Lemma arrived_take n i locked qs l s ok b k :
  net_ok p n →
  try_to_take_tasks locked (inter (nodes n i)) (queues n) (got_local (nodes n i))
    (got_shared (nodes n i)) = (qs, l, s, ok) →
  arrived (mkNet qs (<[i := mkNode (inter (nodes n i)) l s]> (nodes n)) (sent n) (lost n)) b k = arrived n b k.
Proof.
  intros [H1 _ _ _]. unfold try_to_take_tasks. rewrite try_to_take_spec, H1. unfold arrived.
  destruct locked; intros ?; simplify_eq/=.
  - destruct (decide (k = i)) as [->|?].
    + rewrite !fn_lookup_insert. by destruct b.
    + by rewrite !fn_lookup_insert_ne.
  - destruct (decide (k = i)) as [->|?].
    + rewrite !fn_lookup_insert. destruct b; simpl; by rewrite app_nil_r.
    + by rewrite !fn_lookup_insert_ne.
Qed.

Lemma net_step_ok n n' :
  net_ok p n ∧ view_ok ids (view n) → net_step p stable ids n n' → net_ok p n' ∧ view_ok ids (view n').
Proof.
  intros [Hok Hv] Hs.
  destruct Hs as [n i j t i' Hi Hs|n i j locked e i' qs ok Hi He Ha|n i locked qs l s ok Ht|n i l now|n i m _ Hi Hm].
  - split; [by eapply net_ok_send|by eapply view_ok_net_send].
  - rewrite (append_entry_spec n i j locked e Hok He) in Ha. destruct (locked && _); simplify_eq/=.
    + assert (∀ k j', VecMap_get (all (inter (<[i:=set_inter (set_all (VecMap_alter (λ _, e) j
          (all (inter (nodes n i)))) (inter (nodes n i))) (nodes n i)]> (nodes n) k))) j' =
          VecMap_get (all (inter (nodes n k))) j') as Hsame.
      { intros k j'. rewrite inter_set_inter. case_decide; [subst k|done]. simpl. by apply alter_same. }
      split; [apply (net_ok_same n)|apply (view_ok_net_same n)]; simpl; try done.
      * intros k. rewrite inter_set_inter. case_decide; [subst k|]; apply Hok.
      * intros b k. unfold arrived. simpl. by rewrite got_set_inter, queue_insert_same.
      * intros b k. unfold arrived. simpl. by rewrite got_set_inter, queue_insert_same.
    + split; [by apply net_ok_appended|by apply view_ok_appended].
  - assert (∀ k, inter (<[i:=mkNode (inter (nodes n i)) l s]> (nodes n) k) = inter (nodes n k)) as Hi.
    { intros k. destruct (decide (k = i)) as [->|?];
        [by rewrite fn_lookup_insert|by rewrite fn_lookup_insert_ne]. }
    split; [apply (net_ok_same n)|apply (view_ok_net_same n)]; simpl; try done;
      try (intros; rewrite Hi; apply Hok || done); intros; by eapply arrived_take.
  - split; [apply (net_ok_same n)|apply (view_ok_net_same n)]; simpl; try done.
    + intros k. rewrite inter_set_inter. case_decide; [subst k|]; apply Hok.
    + intros k j. rewrite inter_set_inter. by case_decide; [subst k|].
    + intros b k. unfold arrived. simpl. by rewrite got_set_inter.
    + intros k j. rewrite inter_set_inter. by case_decide; [subst k|].
    + intros b k. unfold arrived. simpl. by rewrite got_set_inter.
  - split; [by apply net_ok_refreshed|by apply view_ok_refreshed].
Qed.

Lemma stable_keeps n n' :
  stable = true → rtc (net_step p stable ids) n n' → lost n' = lost n.
Proof.
  intros Hst. induction 1 as [|n n1 n' Hs _ IH]; [done|]. rewrite IH.
  destruct Hs; try done. congruence.
Qed.

Lemma net_reachable_ok n n' :
  net_start n → rtc (net_step p stable ids) n n' → net_ok p n' ∧ view_ok ids (view n').
Proof.
  intros Hn. apply (rtc_invariant (net_step p stable ids) (λ n, net_ok p n ∧ view_ok ids (view n)) n);
    [intros; by eapply net_step_ok|]. split; [by apply net_ok_start|by apply view_ok_start].
Qed.

End net.

(** *** [do_work] takes steps of the net *)
Section do_work.
Context (p : profile) (stable : bool) (ids : list nat) (Hids : NoDup ids) (i : nat) (Hi : i ∈ ids).

(** The node of [i], and queues that agree with those of the net. *)
Definition at_node (n : Net) (I : Interactor) (l s : list Task) (qs : Queues) : Prop :=
  nodes n i = mkNode I l s ∧ ∀ k, queues n k = qs k.

(** A run of the net that only node [i] takes part in. *)
Definition runs (n n' : Net) : Prop := rtc (net_step p stable ids) n n' ∧ sent n' = sent n ∧ lost n' = lost n.

Definition same_keys (I I' : Interactor) : Prop :=
  own_task_list I' = own_task_list I ∧
  ∀ id, is_Some (VecMap_get (all I') id) ↔ is_Some (VecMap_get (all I) id).

Lemma runs_refl n : runs n n.
Proof. by split. Qed.

Lemma runs_trans n1 n2 n3 : runs n1 n2 → runs n2 n3 → runs n1 n3.
Proof. intros (H1 & H2 & H3) (H4 & H5 & H6). split_and!; [by etrans|congruence..]. Qed.

Lemma runs_step n n' : net_step p stable ids n n' → sent n' = sent n → lost n' = lost n → runs n n'.
Proof. intros Hs He Hl. split; [by apply rtc_once|done]. Qed.

Definition net_inv (n : Net) : Prop := net_ok p n ∧ view_ok ids (view n).

Lemma runs_inv n n' : net_inv n → runs n n' → net_inv n'.
Proof.
  intros Hn [Hr _]. eapply (rtc_invariant (net_step p stable ids) net_inv); [|done..].
  intros. by eapply net_step_ok.
Qed.

Lemma same_keys_alter I j f l now :
  same_keys I (mkInteractor (own_task_list I) (VecMap_alter f j (all I)) l now).
Proof.
  split; [done|]. intros id. simpl. rewrite VecMap_get_alter. case_decide; [subst|done].
  by rewrite fmap_is_Some.
Qed.

Lemma same_keys_trans I1 I2 I3 : same_keys I1 I2 → same_keys I2 I3 → same_keys I1 I3.
Proof. intros [H1 H2] [H3 H4]. split; [congruence|]. intros id. by rewrite H4, H2. Qed.

(** One turn of [flush] or [retry_flush]. *)
Lemma append_turn n I l s qs j e lk :
  net_inv n → at_node n I l s qs → VecMap_get (all I) j = Some e →
  ∃ e' qs' ok n',
    append_entry p lk j e I qs = Val (set_all (VecMap_alter (λ _, e') j (all I)) I, qs', ok) ∧
    runs n n' ∧ at_node n' (set_all (VecMap_alter (λ _, e') j (all I)) I) l s qs' ∧
    (lk = false → ok = true ∧ e' = SharedTaskListForSendTo_new j).
Proof.
  intros [Hok Hv] [Hn Hq] He.
  assert (VecMap_get (all (inter (nodes n i))) j = Some e) as He' by by rewrite Hn.
  destruct (no_entry _ _ Hok _ _ _ He') as [Hqe Hb]. unfold append_entry. rewrite Hqe.
  destruct (try_to_append_tasks p lk j (qs j) _ _) as [[[[q l'] s'] ok]| |] eqn:Ht; simpl in *;
    [|rewrite try_to_append_tasks_spec in Ht by apply (Hb true) || apply (Hb false);
      by destruct (lk && _)..].
  exists (mkSendTo j l' s'), (<[j := q]> qs), ok,
    (mkNet (<[j := q]> (queues n))
      (<[i := set_inter (set_all (VecMap_alter (λ _, mkSendTo j l' s') j (all I)) I) (nodes n i)]> (nodes n))
      (sent n) (lost n)).
  split_and!; [done| | |].
  - apply runs_step; [|done..]. apply (net_append p stable ids n i j lk e _ _ ok); [done..|].
    unfold append_entry. rewrite Hqe, Hq, Ht, Hn. done.
  - split; simpl; [by rewrite fn_lookup_insert, Hn|]. intros k.
    destruct (decide (k = j)) as [->|?]; [by rewrite !fn_lookup_insert|by rewrite !fn_lookup_insert_ne].
  - intros ->. rewrite try_to_append_tasks_spec in Ht by apply (Hb true) || apply (Hb false).
    simpl in Ht. by simplify_eq.
Qed.

Lemma retry_turn n I l s qs r now :
  at_node n I l s qs →
  ∃ n', runs n n' ∧ at_node n' (mkInteractor (own_task_list I) (all I) r now) l s qs.
Proof.
  intros [Hn Hq]. eexists. split; [by apply runs_step; [apply (net_retry p stable ids n i r now)|..]|].
  split; simpl; [|done]. by rewrite fn_lookup_insert, Hn.
Qed.

Lemma take_turn n I l s qs lk :
  net_inv n → at_node n I l s qs →
  ∃ qs' l' s' ok n',
    try_to_take_tasks lk I qs l s = (qs', l', s', ok) ∧ runs n n' ∧ at_node n' I l' s' qs' ∧
    (lk = false → l' = l ++ q_local (qs i) ∧ s' = s ++ q_shared (qs i) ∧ ok = true).
Proof.
  intros [Hok Hv] [Hn Hq].
  assert (own_task_list I = i) as Ho by (rewrite <- (no_own _ _ Hok i), Hn; done).
  destruct (try_to_take_batch_of_tasks lk (qs i) l s) as [[[q l'] s'] ok] eqn:Ht.
  exists (<[i := q]> qs), l', s', ok,
    (mkNet (<[i := q]> (queues n)) (<[i := mkNode I l' s']> (nodes n)) (sent n) (lost n)).
  split_and!.
  - unfold try_to_take_tasks. by rewrite Ho, Ht.
  - apply runs_step; [|done..]. pose proof (net_take p stable ids n i lk (<[i := q]> (queues n)) l' s' ok) as Hs.
    rewrite Hn in Hs. apply Hs. unfold try_to_take_tasks. simpl. by rewrite Ho, Hq, Ht.
  - split; simpl; [by rewrite fn_lookup_insert|]. intros k.
    destruct (decide (k = i)) as [->|?]; [by rewrite !fn_lookup_insert|by rewrite !fn_lookup_insert_ne].
  - intros ->. rewrite try_to_take_spec in Ht. by simplify_eq.
Qed.

(** What the loops of [flush] and [retry_flush] leave: the same keys, ids to
    retry that are keys. *)
Definition retry_ok (I : Interactor) : Prop :=
  ∀ id, id ∈ id_to_retry I → is_Some (VecMap_get (all I) id).

Lemma flush_loop_runs lk entries n I l s qs :
  net_inv n → at_node n I l s qs → retry_ok I → NoDup entries.*1 →
  (∀ id e, (id, e) ∈ entries → VecMap_get (all I) id = Some e) →
  ∃ I' qs' n', flush_loop p lk entries I qs = Val (I', qs') ∧ runs n n' ∧ at_node n' I' l s qs' ∧
    same_keys I I' ∧ retry_ok I' ∧
    (∀ id, id ∉ entries.*1 → VecMap_get (all I') id = VecMap_get (all I) id) ∧
    ((∀ id, lk id = false) → id_to_retry I' = id_to_retry I ∧
       ∀ id, id ∈ entries.*1 → VecMap_get (all I') id = Some (SharedTaskListForSendTo_new id)).
Proof.
  revert n I qs. induction entries as [|[id e] entries IH]; intros n I qs Hn Hat Hre Hnd Hen; simpl.
  { exists I, qs, n. split_and!; try done; try apply runs_refl. intros _. split; [done|].
    intros ? ?%elem_of_nil. done. }
  apply NoDup_cons in Hnd as [Hid Hnd]. pose proof (Hen id e ltac:(left)) as He.
  destruct (append_turn n I l s qs id e (lk id) Hn Hat He) as (e' & qs1 & ok & n1 & Ha & Hr1 & Hat1 & Hlk).
  rewrite Ha. simpl. set (I1 := set_all _ I) in *.
  pose proof (same_keys_alter I id (λ _, e') (id_to_retry I) (last_executed_time I)) as Hk1.
  set (I2 := if ok then I1 else set_retry (push_back (id_to_retry I1) id) I1).
  assert (∃ n2, runs n n2 ∧ at_node n2 I2 l s qs1) as (n2 & Hr2 & Hat2).
  { unfold I2. destruct ok; [by exists n1|].
    destruct (retry_turn n1 I1 l s qs1 (push_back (id_to_retry I1) id) (last_executed_time I1) Hat1)
      as (n2 & Hr2 & Hat2). exists n2. split; [by eapply runs_trans|done]. }
  assert (all I2 = VecMap_alter (λ _, e') id (all I)) as Hall by by unfold I2; destruct ok.
  destruct (IH n2 I2 qs1) as (I' & qs' & n' & Hf & Hr' & Hat' & Hk' & Hre' & Hout & Hfree).
  - by eapply runs_inv.
  - done.
  - intros k Hk. rewrite Hall. apply Hk1. unfold I2 in Hk. destruct ok; [by apply Hre|].
    simpl in Hk. unfold push_back in Hk. apply elem_of_app in Hk as [Hk| ->%list_elem_of_singleton]; [by apply Hre|by eauto].
  - done.
  - intros k x Hx. rewrite Hall, VecMap_get_alter, decide_False; [apply Hen; by right|].
    intros ->. apply Hid. apply list_elem_of_fmap. by exists (id, x).
  - exists I', qs', n'. split_and!; [done|by eapply runs_trans|done| |done| |].
    + eapply same_keys_trans; [|done]. unfold I2. by destruct ok.
    + intros k Hk. apply not_elem_of_cons in Hk as [Hne Hk].
      by rewrite Hout, Hall, VecMap_get_alter, decide_False by done.
    + intros Hall'. destruct (Hlk (Hall' id)) as [-> ->]. destruct (Hfree Hall') as [Hret Hdone].
      split; [done|]. intros k [->|Hk]%elem_of_cons; [|by apply Hdone].
      by rewrite Hout, Hall, VecMap_get_alter, decide_True, He by done.
Qed.

Lemma retry_flush_loop_runs lk l0 n I l s qs :
  net_inv n → at_node n I l s qs → (∀ id, id ∈ l0 → is_Some (VecMap_get (all I) id)) →
  ∃ I' qs' n', retry_flush_loop p lk l0 I qs = Val (I', qs') ∧ runs n n' ∧ at_node n' I' l s qs' ∧
    id_to_retry I' = id_to_retry I.
Proof.
  revert n I qs. induction l0 as [|id l0 IH]; intros n I qs Hn Hat Hre; simpl.
  { by exists I, qs, n. }
  destruct (Hre id ltac:(left)) as [e He]. rewrite He. simpl.
  destruct (append_turn n I l s qs id e (lk id) Hn Hat He) as (e' & qs1 & ok & n1 & Ha & Hr1 & Hat1 & _).
  rewrite Ha. simpl.
  destruct (IH n1 (set_all (VecMap_alter (λ _, e') id (all I)) I) qs1) as (I' & qs' & n' & Hf & Hr' & Hat' & Hret).
  - by eapply runs_inv.
  - done.
  - intros k Hk. apply (same_keys_alter I id (λ _, e') (id_to_retry I) (last_executed_time I)).
    apply Hre. by right.
  - exists I', qs', n'. split_and!; [done|by eapply runs_trans|done|done].
Qed.

Lemma do_work_runs busy now n I l s qs :
  net_inv n → at_node n I l s qs → id_to_retry I = [] →
  ∃ I' qs' l' s' n', do_work p busy now I qs l s = Val (I', qs', l', s') ∧ runs n n' ∧
    at_node n' I' l' s' qs' ∧ id_to_retry I' = [] ∧
    ((64 ≤ now - last_executed_time I)%Z → (∀ k id, busy k id = false) →
       l' = l ++ q_local (qs i) ∧ s' = s ++ q_shared (qs i) ∧
       ∀ j e, VecMap_get (all I') j = Some e → e = SharedTaskListForSendTo_new j).
Proof.
  intros Hn Hat Hretry. unfold do_work.
  destruct (Z.ltb_spec (now - last_executed_time I) 64) as [Hlt|Hge].
  { exists I, qs, l, s, n. split_and!; [done|apply runs_refl|done|done|lia]. }
  set (I0 := mkInteractor _ _ _ now).
  destruct (retry_turn n I l s qs (id_to_retry I) now Hat) as (n0 & Hr0 & Hat0).
  pose proof (runs_inv _ _ Hn Hr0) as Hn0.
  destruct (take_turn n0 I0 l s qs (busy 0 (own_task_list I0)) Hn0 Hat0)
    as (qs1 & l1 & s1 & ok1 & n1 & Ht1 & Hr1 & Hat1 & Hfree1). rewrite Ht1.
  pose proof (runs_inv _ _ Hn0 Hr1) as Hn1. unfold flush.
  replace (is_nil (id_to_retry I0)) with true by (simpl; by rewrite Hretry).
  rewrite debug_assert_true. cbn [mbind outcome_bind].
  destruct (flush_loop_runs (busy 1) (VecMap_iter (all I0)) n1 I0 l1 s1 qs1)
    as (I2 & qs2 & n2 & Hf & Hr2 & Hat2 & Hk2 & Hre2 & Hout2 & Hfree2); [done|done| | | |].
  { intros id. simpl. rewrite Hretry. by intros ?%elem_of_nil. }
  { apply VecMap_iter_NoDup. }
  { intros id e. apply VecMap_get_iter. }
  rewrite Hf. simpl. pose proof (runs_inv _ _ Hn1 Hr2) as Hn2.
  destruct (take_turn n2 I2 l1 s1 qs2 (busy 2 (own_task_list I2)) Hn2 Hat2)
    as (qs3 & l3 & s3 & ok3 & n3 & Ht3 & Hr3 & Hat3 & _).
  assert (∃ qs4 l4 s4 n4, (if negb ok1 then (try_to_take_tasks (busy 2 (own_task_list I2)) I2 qs2 l1 s1).1
      else (qs2, l1, s1)) = (qs4, l4, s4) ∧ runs n n4 ∧ at_node n4 I2 l4 s4 qs4 ∧
      (ok1 = true → l4 = l1 ∧ s4 = s1)) as (qs4 & l4 & s4 & n4 & -> & Hr4 & Hat4 & Hok4).
  { assert (runs n n2) by eauto using runs_trans.
    destruct ok1; simpl; [by exists qs2, l1, s1, n2|]. rewrite Ht3. exists qs3, l3, s3, n3.
    split_and!; [done|by eapply runs_trans|done|done]. }
  destruct (retry_turn n4 I2 l4 s4 qs4 [] (last_executed_time I2) Hat4) as (n5 & Hr5 & Hat5).
  destruct (retry_flush_loop_runs (busy 3) (id_to_retry I2) n5 (set_retry [] I2) l4 s4 qs4)
    as (I6 & qs6 & n6 & Hf6 & Hr6 & Hat6 & Hret6);
    [by eapply runs_inv; [exact Hn|eapply runs_trans]|done|apply Hre2|].
  unfold retry_flush. rewrite Hf6. simpl. exists I6, qs6, l4, s4, n6.
  split_and!; [done|by eauto using runs_trans|done|done|]. intros _ Hfree.
  destruct (Hfree1 (Hfree _ _)) as (-> & -> & ->). destruct (Hok4 eq_refl) as [-> ->].
  split_and!; [done..|]. destruct (Hfree2 (Hfree 1)) as [Hret2 Hent2].
  rewrite Hret2 in Hf6. simpl in Hf6. rewrite Hretry in Hf6. simpl in Hf6. simplify_eq/=.
  intros j e He. destruct (VecMap_get (all I) j) as [e0|] eqn:He0.
  - rewrite Hent2 in He; [by simplify_eq|]. apply list_elem_of_fmap. exists (j, e0).
    split; [done|]. by apply VecMap_get_iter.
  - assert (is_Some (VecMap_get (all I) j)) as [? ?]; [|congruence].
    apply Hk2. by rewrite He.
Qed.

End do_work.

Lemma fmap_concat_map {A B C} (g : B → C) (f : A → list B) (l : list A) :
  concat (map (λ x, g <$> f x) l) = g <$> concat (map f l).
Proof. induction l as [|x l IH]; [done|]. simpl. by rewrite fmap_app, IH. Qed.

(** ** Theorems *)

(** C3: whatever a set of executors send, append and take, and however their
    attempts interleave and fail, a task sent to an executor is at every moment
    in exactly one place: in its sender's batch, in the receiver's queue, taken
    by the receiver, or dropped with its sender's batches when the sender
    refreshed its list of running executors. The tasks of one sender that were
    not dropped arrive in the order they were sent; while no executor starts or
    stops none is dropped. Local and shared tasks stay apart; in a debug build
    a local task carries the id of the executor it arrived at; and no attempt
    to append panics. *)
Theorem interactor_delivery (p : profile) (stable : bool) (ids : list nat) (n0 n : Net) :
  NoDup ids → net_start n0 → rtc (net_step p stable ids) n0 n →
  (∀ b i j, ∃ kept,
    kept `sublist_of` (data <$> arrived n b j) ∧
    kept ++ (data <$> batch n b i j) `sublist_of` (data <$> sent_of n b i j) ∧
    kept ++ (data <$> batch n b i j) ++ (data <$> lost n b i j) ≡ₚ (data <$> sent_of n b i j)) ∧
  (∀ b j, data <$> arrived n b j ++ concat (map (λ i, batch n b i j ++ lost n b i j) ids) ≡ₚ
          data <$> concat (map (λ i, sent_of n b i j) ids)) ∧
  (stable = true → ∀ b i j, lost n b i j = []) ∧
  (∀ b j, Forall (λ t, Task_is_local t = b) (arrived n b j)) ∧
  (∀ j, p = Debug → Forall (λ t, executor_id t = Z.of_nat j) (arrived n true j)) ∧
  (∀ i j e locked, VecMap_get (all (inter (nodes n i))) j = Some e →
    ∃ r, append_entry p locked j e (inter (nodes n i)) (queues n) = Val r).
Proof.
  intros Hids Hn Hr. destruct (net_reachable_ok p stable ids Hids n0 n Hn Hr) as [Hok [Hs Hp]]. split_and!.
  - exact Hs.
  - intros b j. rewrite fmap_app, <- !fmap_concat_map. etrans; [|apply Hp]. cbn [view infl bat lst].
    erewrite concat_map_same; [done|]. intros i. by rewrite fmap_app.
  - intros Hst b i j. rewrite (stable_keeps p stable ids n0 n Hst Hr). apply Hn.
  - apply Hok.
  - apply Hok.
  - intros i j e locked He. rewrite (append_entry_spec p n i j locked e Hok He).
    destruct (locked && _); by eexists.
Qed.

(** [do_work] never panics and is a sequence of steps of the net, whatever the
    locks do; when it is due and finds every queue unlocked, the executor has
    taken all tasks of its queue and has passed on all its batches. *)
Theorem interactor_do_work (p : profile) (stable : bool) (ids : list nat) (n0 n : Net) (i : nat)
    (busy : nat → nat → bool) (now : Z) :
  NoDup ids → net_start n0 → rtc (net_step p stable ids) n0 n → i ∈ ids →
  id_to_retry (inter (nodes n i)) = [] →
  ∃ i' qs l s n',
    do_work p busy now (inter (nodes n i)) (queues n) (got_local (nodes n i)) (got_shared (nodes n i))
      = Val (i', qs, l, s) ∧
    rtc (net_step p stable ids) n n' ∧ nodes n' i = mkNode i' l s ∧ (∀ k, queues n' k = qs k) ∧
    sent n' = sent n ∧ lost n' = lost n ∧ id_to_retry i' = [] ∧
    ((64 ≤ now - last_executed_time (inter (nodes n i)))%Z → (∀ k id, busy k id = false) →
       l = got_local (nodes n i) ++ q_local (queues n i) ∧
       s = got_shared (nodes n i) ++ q_shared (queues n i) ∧
       ∀ b j, batch n' b i j = []).
Proof.
  intros Hids Hn Hr Hi Hret. pose proof (net_reachable_ok p stable ids Hids n0 n Hn Hr) as Hinv.
  destruct (do_work_runs p stable ids Hids i Hi busy now n (inter (nodes n i)) (got_local (nodes n i))
    (got_shared (nodes n i)) (queues n)) as (i' & qs & l & s & n' & Hd & (Hr' & Hs & Hl) & [Hat Hq] & Hre & Hfree);
    [done|split; [by destruct (nodes n i)|done]|done|].
  exists i', qs, l, s, n'. split_and!; [done..|]. intros Hdue Hbusy.
  destruct (Hfree Hdue Hbusy) as (-> & -> & He). split_and!; [done..|]. intros b j.
  unfold batch. rewrite Hat. simpl. destruct (VecMap_get (all i') j) as [e|] eqn:Hj; [|done].
  rewrite (He _ _ Hj). by destruct b.
Qed.

(** ** Witnesses *)
Definition ex_interactor (i : nat) : Interactor :=
  mkInteractor i (mkVecMap [Some (SharedTaskListForSendTo_new 0); Some (SharedTaskListForSendTo_new 1)]) [] 0.

Definition ex_net : Net :=
  mkNet (λ _, SyncBatchOptimizedTaskQueue_new) (λ i, mkNode (ex_interactor i) [] []) (λ _ _, [])
    (λ _ _ _, []).

Lemma ex_net_start : net_start ex_net.
Proof.
  constructor; try done. intros i j e He. destruct j as [|[|j]]; [by injection He as <-..|].
  destruct j; discriminate He.
Qed.

(** Executor 0 sends a task to executor 1. *)
Definition ex_net_sent : Net :=
  mkNet (queues ex_net)
    (<[0 := set_inter (send_task_to_executor (ex_task 7) 1 (ex_interactor 0)).1 (nodes ex_net 0)]> (nodes ex_net))
    (<[0 := <[1 := [ex_task 7]]> (sent ex_net 0)]> (sent ex_net)) (lost ex_net).

Lemma ex_net_sent_reachable p stable : rtc (net_step p stable [0; 1]) ex_net ex_net_sent.
Proof.
  apply rtc_once. apply (net_send p stable [0; 1] ex_net 0 1 (ex_task 7)); [set_solver|reflexivity].
Qed.

(** Before the task is appended, executor 0 sees that executor 1 has stopped. *)
Definition ex_net_lost : Net := refreshed ex_net_sent 0 VecMap_new.

Lemma interactor_delivery_witness :
  data <$> sent_of ex_net_sent true 0 1 = [data (ex_task 7)] ∧
  (∃ kept, kept `sublist_of` (data <$> arrived ex_net_sent true 1) ∧
    kept ++ (data <$> batch ex_net_sent true 0 1) `sublist_of` [data (ex_task 7)] ∧
    kept ++ (data <$> batch ex_net_sent true 0 1) ++ (data <$> lost ex_net_sent true 0 1)
      ≡ₚ [data (ex_task 7)]) ∧
  lost ex_net_lost true 0 1 = [ex_task 7] ∧
  Forall (λ t, Task_is_local t = true) (arrived ex_net_lost true 1).
Proof.
  split; [reflexivity|]. split; [|split; [reflexivity|]].
  - apply (interactor_delivery Debug true [0; 1] ex_net ex_net_sent);
      [by vm_compute; repeat constructor; set_solver|apply ex_net_start|apply ex_net_sent_reachable].
  - apply (interactor_delivery Debug false [0; 1] ex_net ex_net_lost);
      [by vm_compute; repeat constructor; set_solver|apply ex_net_start|].
    eapply rtc_r; [apply ex_net_sent_reachable|].
    apply net_refresh; [done|set_solver|]. intros j e He. by destruct j.
Defined.

Lemma interactor_do_work_witness :
  ∃ i' qs l s n',
    do_work Debug (λ _ _, false) 100 (inter (nodes ex_net_sent 0)) (queues ex_net_sent) [] []
      = Val (i', qs, l, s) ∧ nodes n' 0 = mkNode i' l s ∧ batch n' true 0 1 = [].
Proof.
  destruct (interactor_do_work Debug true [0; 1] ex_net ex_net_sent 0 (λ _ _, false) 100)
    as (i' & qs & l & s & n' & Hd & _ & Hat & _ & _ & _ & _ & Hf);
    [by vm_compute; repeat constructor; set_solver|apply ex_net_start|apply ex_net_sent_reachable
    |set_solver|reflexivity|].
  exists i', qs, l, s, n'. split_and!; [exact Hd|exact Hat|]. apply Hf; [vm_compute; discriminate|done].
Defined.
