(* ===== verification/GlobalState.v ===== *)
(** * Which executors run

    Models [src/src/runtime/global_state]: the global register of running
    executors, guarded by one spin lock, and the copy of it that every
    executor keeps ([SubscribedState]) and refreshes when its version number
    has changed.

    What is behind an [Arc] is named by the id of the executor it belongs to:
    its subscribed state, its list of shared tasks, its queue. Ids are handed
    out by a counter, so only an executor itself registers under its id; it
    does so each time its [run] is called, which returns when it is stopped. *)

From Stdlib Require Import ZArith Lia.
From stdpp Require Import functions.
From S2P Require Import Prelude Task Utils Interactor.

(** ** [subscribed_state.rs] *)
Record Subscribed := mkSubscribed {
  current_version : Z;
  processed_version : Z;
  is_stopped : bool;
  tasks_lists : option (list nat);
  executors_task_lists : VecMap nat;
}.

Definition SubscribedState_new : Subscribed := mkSubscribed 1 usize_MAX false None VecMap_new.

Definition set_is_stopped (b : bool) (s : Subscribed) : Subscribed :=
  mkSubscribed (current_version s) (processed_version s) b (tasks_lists s) (executors_task_lists s).
Definition set_version (v : Z) (s : Subscribed) : Subscribed :=
  mkSubscribed v (processed_version s) (is_stopped s) (tasks_lists s) (executors_task_lists s).
Definition set_processed (v : Z) (s : Subscribed) : Subscribed :=
  mkSubscribed (current_version s) v (is_stopped s) (tasks_lists s) (executors_task_lists s).
Definition set_tasks_lists (l : option (list nat)) (s : Subscribed) : Subscribed :=
  mkSubscribed (current_version s) (processed_version s) (is_stopped s) l (executors_task_lists s).
Definition set_executors_task_lists (m : VecMap nat) (s : Subscribed) : Subscribed :=
  mkSubscribed (current_version s) (processed_version s) (is_stopped s) (tasks_lists s) m.

Fixpoint position (executor_id : nat) (l : list nat) : option nat :=
  match l with
  | [] => None
  | x :: l => if Nat.eqb x executor_id then Some 0 else S <$> position executor_id l
  end.

(** [slice::rotate_left], which panics when [mid] is past the end. *)
Definition rotate_left {A} (mid : nat) (l : list A) : outcome (list A) :=
  rassert (mid <=? length l);; Val (drop mid l ++ take mid l).

Definition validate_tasks_lists (executor_id : nat) (s : Subscribed) : outcome Subscribed :=
  match tasks_lists s with
  | None => Val s
  | Some l =>
      index ← expect (position executor_id l);
      if Nat.eqb (length l - 1) 0 then Val (set_tasks_lists (Some []) s)
      else
        new_list ← rotate_left index (delete index l);
        Val (set_tasks_lists (Some new_list) s)
  end.

(** ** [global_state.rs] *)
Record StateOfAliveExecutor := mkAlive { subscribed_state : nat; task_queue : nat }.

Record GlobalState := mkGlobalState {
  version : Z;
  states_of_alive_executors : VecMap StateOfAliveExecutor;
  lists : list nat;
}.

Definition GlobalState_new : GlobalState := mkGlobalState 0 VecMap_new [].

(** The global and the subscribed states of all executors. *)
Record World := mkWorld { global : GlobalState; subs : nat → Subscribed }.

Definition alter_sub (f : Subscribed → Subscribed) (id : nat) (subs : nat → Subscribed)
    : nat → Subscribed := <[id := f (subs id)]> subs.

(** [set_version] on every alive executor, the loop of [register_local_executor]
    and what the closures given to [retain] do on the way. *)
Definition set_versions (v : Z) (l : list (nat * StateOfAliveExecutor)) (subs : nat → Subscribed)
    : nat → Subscribed :=
  foldl (λ subs x, alter_sub (set_version v) (subscribed_state x.2) subs) subs l.

(** [register_local_executor], run by the executor [id]; [has_list]: it shares
    work, so it has a list of shared tasks. *)
Definition register_local_executor (p : profile) (id : nat) (has_list : bool) (w : World)
    : outcome World :=
  version ← usize_add p (version (global w)) 1;
  r ←
    (if has_list then
       let lists := push_back (lists (global w)) id in
       s ← validate_tasks_lists id (set_tasks_lists (Some lists) (subs w id));
       Val (lists, <[id := s]> (subs w))
     else Val (lists (global w), subs w));
  let '(lists, subs) := r in
  let subs := alter_sub (set_version version) id subs in
  r ← VecMap_insert p id (mkAlive id id) (states_of_alive_executors (global w));
  let subs := alter_sub (set_is_stopped false) id subs in
  Val (mkWorld (mkGlobalState version r.1 lists) (set_versions version (VecMap_iter r.1) subs)).

Definition stop_executor (p : profile) (id : nat) (w : World) : outcome World :=
  let alive := states_of_alive_executors (global w) in
  version ← usize_add p (version (global w)) 1;
  Val (mkWorld
    (mkGlobalState version (VecMap_retain (λ alive_executor_id _, negb (Nat.eqb alive_executor_id id)) alive)
       (filter (λ list_id, list_id ≠ id) (lists (global w))))
    (set_versions version (VecMap_iter alive) (subs w))).

Definition stop_all_executors (p : profile) (w : World) : outcome World :=
  let alive := states_of_alive_executors (global w) in
  version ← usize_add p (version (global w)) 1;
  Val (mkWorld (mkGlobalState version (VecMap_retain (λ _ _, false) alive) [])
    (set_versions version (VecMap_iter alive) (subs w))).

Definition executors_ids (g : GlobalState) : list nat := (VecMap_iter (states_of_alive_executors g)).*1.

Definition work_sharing_executors_ids (w : World) : list nat :=
  (filter (λ x, is_Some (tasks_lists (subs w (subscribed_state x.2))))
     (VecMap_iter (states_of_alive_executors (global w)))).*1.

(** The loop that fills a cleared map from the alive executors. *)
Fixpoint insert_all {V} (p : profile) (f : StateOfAliveExecutor → V)
    (l : list (nat * StateOfAliveExecutor)) (m : VecMap V) : outcome (VecMap V) :=
  match l with
  | [] => Val m
  | (id, state) :: l => r ← VecMap_insert p id (f state) m; insert_all p f l r.1
  end.

(** [check_version_and_update_if_needed] of the executor [executor_id]. *)
Definition check_version_and_update_if_needed (p : profile) (executor_id : nat) (w : World)
    (interactor : Interactor) : outcome (World * Interactor) :=
  let inner := subs w executor_id in
  let alive := VecMap_iter (states_of_alive_executors (global w)) in
  let set s := mkWorld (global w) (<[executor_id := s]> (subs w)) in
  if (processed_version inner =? current_version inner)%Z then
    debug_assert p (negb (processed_version inner =? usize_MAX)%Z);;
    Val (w, interactor)
  else
    let inner := set_processed (current_version inner) inner in
    if negb (existsb (λ x, Nat.eqb x.1 executor_id) alive) then
      Val (set (set_is_stopped true inner), interactor)
    else
      inner ←
        (match tasks_lists inner with
         | Some _ =>
             validate_tasks_lists executor_id (set_tasks_lists (Some (lists (global w))) inner)
         | None => Val inner
         end);
      m ← insert_all p task_queue alive (VecMap_clear (executors_task_lists inner));
      all ← insert_all p (λ state, SharedTaskListForSendTo_new (task_queue state)) alive
              (VecMap_clear (all interactor));
      Val (set (set_executors_task_lists m inner), set_all all interactor).

(** ** Executors that come and go

    [registered] are the executors that have ever registered and [changes]
    counts the changes of the version. *)
Record Sys := mkSys { world : World; registered : gset nat; changes : Z }.

Definition init : Sys := mkSys (mkWorld GlobalState_new (λ _, SubscribedState_new)) ∅ 0.

Definition is_alive (w : World) (id : nat) : Prop :=
  is_Some (VecMap_get (states_of_alive_executors (global w)) id).

(** [run] registers the executor: the first time, or again after an earlier
    [run] has returned because the executor was stopped. Whether it has a list
    of shared tasks is settled when it is created. *)
Definition may_register (s : Sys) (id : nat) (has_list : bool) : Prop :=
  id ∉ registered s ∨
  is_stopped (subs (world s) id) = true ∧
  has_list = bool_decide (is_Some (tasks_lists (subs (world s) id))).

Inductive step (p : profile) : Sys → Sys → Prop :=
| step_register s id has_list w :
    may_register s id has_list → register_local_executor p id has_list (world s) = Val w →
    step p s (mkSys w ({[id]} ∪ registered s) (changes s + 1))
| step_stop s id w :
    stop_executor p id (world s) = Val w → step p s (mkSys w (registered s) (changes s + 1))
| step_stop_all s w :
    stop_all_executors p (world s) = Val w → step p s (mkSys w (registered s) (changes s + 1))
| step_check s id i i' w :
    id ∈ registered s → is_stopped (subs (world s) id) = false →
    check_version_and_update_if_needed p id (world s) i = Val (w, i') →
    step p s (mkSys w (registered s) (changes s)).

(** The other executors that share work, from the next one on. *)
Definition neighbours (id : nat) (l : list nat) : list nat :=
  match position id l with Some i => drop (S i) l ++ take i l | None => [] end.

Record up_to_date (w : World) (id : nat) : Prop := {
  ud_lists l : tasks_lists (subs w id) = Some l → l = neighbours id (lists (global w));
  ud_queues k : VecMap_get (executors_task_lists (subs w id)) k =
    task_queue <$> VecMap_get (states_of_alive_executors (global w)) k;
}.

Record Inv (s : Sys) : Prop := {
  iv_version : version (global (world s)) = changes s;
  iv_changes : (0 ≤ changes s)%Z;
  iv_alive id st : VecMap_get (states_of_alive_executors (global (world s))) id = Some st →
    st = mkAlive id id ∧ id ∈ registered s ∧
    current_version (subs (world s) id) = changes s ∧ is_stopped (subs (world s) id) = false;
  iv_nodup : NoDup (lists (global (world s)));
  iv_lists id : id ∈ lists (global (world s)) ↔
    is_alive (world s) id ∧ is_Some (tasks_lists (subs (world s) id));
  iv_new id : id ∉ registered s → subs (world s) id = SubscribedState_new;
  iv_gone id : id ∈ registered s → ¬ is_alive (world s) id →
    is_stopped (subs (world s) id) = true ∨
    processed_version (subs (world s) id) ≠ current_version (subs (world s) id);
  iv_processed id : id ∈ registered s → (current_version (subs (world s) id) ≤ changes s)%Z ∧
    (processed_version (subs (world s) id) = usize_MAX ∨
     (processed_version (subs (world s) id) ≤ current_version (subs (world s) id))%Z);
  iv_fresh id : is_alive (world s) id →
    processed_version (subs (world s) id) = current_version (subs (world s) id) →
    up_to_date (world s) id;
}.

(** *** Lists *)
Lemma position_Some id l i : position id l = Some i → l !! i = Some id ∧ i < length l.
Proof.
  revert i. induction l as [|x l IH]; intros i; [done|]. simpl.
  destruct (Nat.eqb_spec x id) as [->|?]; [intros [= <-]; simpl; split; [done|lia]|].
  destruct (position id l) as [k|] eqn:Hk; simpl; [|done]. intros [= <-]. destruct (IH k eq_refl).
  simpl. split; [done|lia].
Qed.

Lemma position_elem id l : id ∈ l → ∃ i, position id l = Some i.
Proof.
  induction l as [|x l IH]; [by intros ?%elem_of_nil|]. intros [->|Hin]%elem_of_cons; simpl.
  - rewrite Nat.eqb_refl. by exists 0.
  - destruct (Nat.eqb x id); [by exists 0|]. destruct (IH Hin) as [i ->]. by exists (S i).
Qed.

Lemma rotate_delete {A} (l : list A) i :
  i < length l → rotate_left i (delete i l) = Val (drop (S i) l ++ take i l).
Proof.
  intros Hi. unfold rotate_left. rewrite length_delete by by apply lookup_lt_is_Some.
  replace (i <=? length l - 1) with true by (symmetry; apply Nat.leb_le; lia). simpl. f_equal.
  rewrite delete_take_drop, drop_app_le, take_app_le by (rewrite length_take; lia).
  rewrite (drop_ge (take i l)) by (rewrite length_take; lia).
  by rewrite take_ge by (rewrite length_take; lia).
Qed.

Lemma validate_tasks_lists_spec id s l :
  id ∈ l → validate_tasks_lists id (set_tasks_lists (Some l) s) =
    Val (set_tasks_lists (Some (neighbours id l)) s).
Proof.
  intros Hin. unfold validate_tasks_lists, neighbours. simpl.
  destruct (position_elem id l Hin) as [i Hi]. rewrite Hi. simpl.
  destruct (position_Some _ _ _ Hi) as [_ Hlt].
  destruct (Nat.eqb_spec (length l - 1) 0) as [Hl|_].
  - destruct l as [|x [|y l]]; simpl in *; try lia. by destruct i; [|lia].
  - by rewrite (rotate_delete l i Hlt).
Qed.

Lemma neighbours_spec id l :
  NoDup l → id ∈ l → NoDup (neighbours id l) ∧ ∀ k, k ∈ neighbours id l ↔ k ∈ l ∧ k ≠ id.
Proof.
  intros Hnd Hin. unfold neighbours. destruct (position_elem id l Hin) as [i Hi]. rewrite Hi.
  destruct (position_Some _ _ _ Hi) as [Hl _].
  assert (id :: drop (S i) l ++ take i l ≡ₚ l) as Hp.
  { trans (take i l ++ id :: drop (S i) l); [|by rewrite take_drop_middle].
    rewrite <- Permutation_middle. constructor. apply Permutation_app_comm. }
  rewrite <- Hp in Hnd. apply NoDup_cons in Hnd as [Hni Hnd]. split; [done|]. intros k. assert (k ∈ l ↔ k = id ∨ k ∈ drop (S i) l ++ take i l) as ->.
  { by rewrite <- elem_of_cons, Hp. }
  split.
  - intros Hk. split; [by right|]. by intros ->.
  - by intros [[->|Hk] Hne].
Qed.

Lemma neighbours_turned id l :
  id ∈ l → ∃ before after, l = before ++ id :: after ∧ neighbours id l = after ++ before.
Proof.
  intros Hin. unfold neighbours. destruct (position_elem id l Hin) as [i Hi]. rewrite Hi.
  destruct (position_Some _ _ _ Hi) as [Hl _]. exists (take i l), (drop (S i) l).
  by rewrite take_drop_middle.
Qed.

(** *** The loops over the alive executors *)
Lemma set_versions_lookup v l subs k :
  set_versions v l subs k =
    if decide (k ∈ (λ x, subscribed_state x.2) <$> l) then set_version v (subs k) else subs k.
Proof.
  unfold set_versions. revert subs. induction l as [|[id st] l IH]; intros subs.
  { case_decide as Hin; [by apply elem_of_nil in Hin|done]. }
  cbn [foldl]. rewrite IH. unfold alter_sub. cbn [fst snd]. rewrite fmap_cons. cbn [fst snd].
  destruct (decide (k = subscribed_state st)) as [->|Hne].
  - rewrite fn_lookup_insert. case_decide as H1; case_decide as H2; try done; destruct H2; by left.
  - rewrite fn_lookup_insert_ne by done. case_decide as H1; case_decide as H2; try done.
    + destruct H2. by right.
    + by apply elem_of_cons in H2 as [|].
Qed.

(** When every alive executor is registered under its own id. *)
Lemma set_versions_alive v m subs k :
  (∀ id st, VecMap_get m id = Some st → st = mkAlive id id) →
  set_versions v (VecMap_iter m) subs k =
    match VecMap_get m k with Some _ => set_version v (subs k) | None => subs k end.
Proof.
  intros Hm. rewrite set_versions_lookup. case_decide as Hin.
  - apply list_elem_of_fmap in Hin as ([id st] & -> & Hin). apply VecMap_get_iter in Hin.
    pose proof (Hm _ _ Hin) as ->. simpl. by rewrite Hin.
  - destruct (VecMap_get m k) as [st|] eqn:Hk; [|done]. destruct Hin.
    apply list_elem_of_fmap. exists (k, st). rewrite (Hm _ _ Hk). split; [done|].
    rewrite <- (Hm _ _ Hk). by apply VecMap_get_iter.
Qed.

Lemma insert_all_spec {V} p (f : StateOfAliveExecutor → V) l m m' :
  NoDup l.*1 → insert_all p f l m = Val m' →
  ∀ k, VecMap_get m' k =
    match (list_to_map l : gmap nat _) !! k with Some st => Some (f st) | None => VecMap_get m k end.
Proof.
  revert m. induction l as [|[id st] l IH]; intros m Hnd; simpl; [by intros [= <-]|].
  apply NoDup_cons in Hnd as [Hid Hnd]. intros ([m1 old] & Hi & Hr)%outcome_bind_Val k. simpl in Hr.
  assert (∀ k', VecMap_get m1 k' = if decide (k' = id) then Some (f st) else VecMap_get m k') as Hm1.
  { exact (VecMap_insert_get _ _ _ _ _ _ Hi). }
  rewrite (IH _ Hnd Hr k). destruct (decide (k = id)) as [->|Hne].
  - rewrite lookup_insert_eq, (not_elem_of_list_to_map_1 _ _ Hid). by rewrite Hm1, decide_True.
  - rewrite lookup_insert_ne by done. by rewrite Hm1, decide_False by done.
Qed.

Lemma insert_all_near {V} p (f : StateOfAliveExecutor → V) l m :
  (p = Debug → ∀ id, id ∈ l.*1 → id < 100) → ∃ m', insert_all p f l m = Val m'.
Proof.
  revert m. induction l as [|[id st] l IH]; intros m Hl; simpl; [by eexists|].
  destruct (VecMap_insert_spec p m id (f st)) as (m1 & -> & _ & _).
  { intros Hp. specialize (Hl Hp id ltac:(left)). lia. }
  simpl. apply IH. intros Hp k Hk. apply (Hl Hp). by right.
Qed.

(** *** The invariant *)
Lemma inv_bump_processed s id :
  Inv s → (changes s + 1 < usize_MAX)%Z → id ∈ registered s →
  processed_version (subs (world s) id) ≠ (changes s + 1)%Z.
Proof. intros HI Hc Hid. pose proof (iv_processed _ HI _ Hid). lia. Qed.

(** Stopping the executors for which [keep] is false. *)
Lemma inv_retain s (keep : nat → bool) :
  Inv s → (changes s + 1 < usize_MAX)%Z →
  let g := global (world s) in
  Inv (mkSys
    (mkWorld (mkGlobalState (changes s + 1)
                (VecMap_retain (λ k _, keep k) (states_of_alive_executors g))
                (filter (λ k, keep k = true) (lists g)))
       (set_versions (changes s + 1) (VecMap_iter (states_of_alive_executors g)) (subs (world s))))
    (registered s) (changes s + 1)).
Proof.
  intros HI Hc g.
  assert (∀ k, set_versions (changes s + 1) (VecMap_iter (states_of_alive_executors g)) (subs (world s)) k =
    match VecMap_get (states_of_alive_executors g) k with
    | Some _ => set_version (changes s + 1) (subs (world s) k) | None => subs (world s) k end) as Hsub.
  { intros k. apply set_versions_alive. intros id st Hid. by apply (iv_alive _ HI) in Hid as [-> _]. }
  assert (∀ k, VecMap_get (VecMap_retain (λ k _, keep k) (states_of_alive_executors g)) k =
    if keep k then VecMap_get (states_of_alive_executors g) k else None) as Hget.
  { intros k. rewrite VecMap_get_retain. by destruct (VecMap_get _ k), (keep k). }
  constructor; unfold is_alive; cbn [world global subs version lists states_of_alive_executors changes registered].
  - done.
  - pose proof (iv_changes _ HI). lia.
  - intros id st. rewrite Hget, Hsub. destruct (keep id); [|done]. intros Hid. fold g in Hid. rewrite Hid.
    destruct (iv_alive _ HI _ _ Hid) as (-> & Hr & _ & Hs). done.
  - apply NoDup_filter, HI.
  - intros id. pose proof (iv_lists _ HI id) as Hli. unfold is_alive in Hli. fold g in Hli.
    rewrite list_elem_of_filter, Hli, Hget, Hsub.
    destruct (keep id), (VecMap_get (states_of_alive_executors g) id); naive_solver.
  - intros id Hid. rewrite Hsub. destruct (VecMap_get _ id) as [st|] eqn:He; [|by apply HI].
    by destruct (iv_alive _ HI _ _ He) as (_ & ? & _).
  - intros id Hid. rewrite Hget, Hsub. intros Hno.
    destruct (VecMap_get (states_of_alive_executors g) id) as [st|] eqn:He.
    + right. simpl. by apply inv_bump_processed.
    + apply (iv_gone _ HI _ Hid). unfold is_alive. fold g. by rewrite He.
  - intros id Hid. rewrite Hsub. pose proof (iv_processed _ HI _ Hid).
    destruct (VecMap_get _ id); simpl; [|lia]. pose proof (iv_changes _ HI). lia.
  - intros id. rewrite Hget, Hsub. intros Hal. destruct (keep id); [|by destruct Hal].
    destruct Hal as [st He]. rewrite He. simpl. intros Hp. exfalso. revert Hp.
    apply inv_bump_processed; [done..|]. by destruct (iv_alive _ HI _ _ He) as (_ & ? & _).
Qed.

Lemma may_register_spec s id has_list :
  Inv s → may_register s id has_list →
  ¬ is_alive (world s) id ∧ (has_list = false → tasks_lists (subs (world s) id) = None) ∧
  (processed_version (subs (world s) id) = usize_MAX ∨
   (processed_version (subs (world s) id) ≤ changes s)%Z).
Proof.
  intros HI [Hid|[Hst ->]].
  - rewrite (iv_new _ HI id Hid). split_and!; [|done|by left].
    intros [st Hal]. by destruct (iv_alive _ HI _ _ Hal) as (_ & ? & _).
  - assert (¬ is_alive (world s) id) as Hno.
    { intros [st Hal]. destruct (iv_alive _ HI _ _ Hal) as (_ & _ & _ & ?). congruence. }
    split_and!; [done|..].
    + intros ?%bool_decide_eq_false. by apply eq_None_not_Some.
    + destruct (decide (id ∈ registered s)) as [Hr|Hr].
      * pose proof (iv_processed _ HI _ Hr). lia.
      * rewrite (iv_new _ HI id Hr). by left.
Qed.

Lemma register_spec p id has_list s w :
  Inv s → (changes s + 1 < usize_MAX)%Z → may_register s id has_list →
  register_local_executor p id has_list (world s) = Val w →
  let g := global (world s) in
  let v := (changes s + 1)%Z in
  version (global w) = v ∧
  lists (global w) = lists g ++ (if has_list then [id] else []) ∧
  (∀ k, VecMap_get (states_of_alive_executors (global w)) k =
     if decide (k = id) then Some (mkAlive id id) else VecMap_get (states_of_alive_executors g) k) ∧
  (∀ k, subs w k =
     if decide (k = id) then
       mkSubscribed v (processed_version (subs (world s) id)) false
         (if has_list then Some (neighbours id (lists g ++ [id])) else None)
         (executors_task_lists (subs (world s) id))
     else match VecMap_get (states_of_alive_executors g) k with
          | Some _ => set_version v (subs (world s) k) | None => subs (world s) k end).
Proof.
  intros HI Hc Hid Hreg g v. destruct (may_register_spec s id has_list HI Hid) as (_ & Hnone & _).
  unfold register_local_executor in Hreg.
  rewrite (iv_version _ HI), usize_add_Val in Hreg by (unfold usize_MAX in Hc; lia).
  simpl in Hreg. fold g v in Hreg.
  rewrite (validate_tasks_lists_spec id (subs (world s) id) (push_back (lists g) id)) in Hreg
    by (unfold push_back; set_solver).
  set (l1 := lists g ++ (if has_list then [id] else [])).
  set (s1 := set_tasks_lists (Some (neighbours id (lists g ++ [id]))) (subs (world s) id)).
  assert (∃ m old, VecMap_insert p id (mkAlive id id) (states_of_alive_executors g) = Val (m, old) ∧
    w = mkWorld (mkGlobalState v m l1) (set_versions v (VecMap_iter m)
          (alter_sub (set_is_stopped false) id (alter_sub (set_version v) id
             (if has_list then <[id := s1]> (subs (world s)) else subs (world s)))))) as (m & old & Hm & ->).
  { destruct has_list; simpl in Hreg;
      (apply outcome_bind_Val in Hreg as ([m old] & Hm & [= <-]); exists m, old; split; [done|]);
      unfold l1, s1; rewrite ?app_nil_r; done. }
  pose proof (VecMap_insert_get _ _ _ _ _ _ Hm) as Hget. simpl. split_and!; [done..| |].
  { intros k. apply Hget. }
  intros k. rewrite set_versions_alive.
  - rewrite Hget. unfold alter_sub. destruct (decide (k = id)) as [->|Hne].
    + rewrite !fn_lookup_insert. unfold s1. destruct has_list; rewrite ?fn_lookup_insert; [done|].
      unfold set_is_stopped, set_version. simpl. by rewrite Hnone.
    + rewrite !fn_lookup_insert_ne by done. fold g.
      destruct has_list; [rewrite fn_lookup_insert_ne by done|]; done.
  - intros k' st. rewrite Hget. case_decide; [subst; by intros [= <-]|]. by intros [-> _]%(iv_alive _ HI).
Qed.

Lemma alive_registered s id : Inv s → is_alive (world s) id → id ∈ registered s.
Proof. intros HI [st Hst]. by destruct (iv_alive _ HI _ _ Hst) as (_ & ? & _). Qed.

Lemma inv_register p id has_list s w :
  Inv s → (changes s + 1 < usize_MAX)%Z → may_register s id has_list →
  register_local_executor p id has_list (world s) = Val w →
  Inv (mkSys w ({[id]} ∪ registered s) (changes s + 1)).
Proof.
  intros HI Hc Hid Hreg.
  destruct (register_spec p id has_list s w HI Hc Hid Hreg) as (Hv & Hl & Hget & Hsub).
  destruct (may_register_spec s id has_list HI Hid) as (Hno & _ & Hpr).
  assert (id ∉ lists (global (world s))) as Hnl by by intros [? _]%(iv_lists _ HI).
  pose proof (iv_changes _ HI) as Hch.
  constructor; unfold is_alive; cbn [world changes registered].
  - done.
  - lia.
  - intros k st. rewrite Hget, Hsub. case_decide; [subst k|].
    + intros [= <-]. simpl. split_and!; [done|set_solver|done..].
    + intros Hk. destruct (iv_alive _ HI _ _ Hk) as (-> & Hr & _ & Hs). rewrite Hk. simpl.
      split_and!; [done|set_solver|done..].
  - rewrite Hl. destruct has_list; [|rewrite app_nil_r; apply HI]. apply NoDup_app.
    split_and!; [apply HI| |apply NoDup_singleton]. set_solver.
  - intros k. rewrite Hl, Hget, Hsub, elem_of_app. case_decide; [subst k|].
    + destruct has_list; simpl; [split; [by eauto|set_solver]|].
      split; [intros [?|?]; [done|by apply elem_of_nil in H]|intros [_ [? ?]]; done].
    + pose proof (iv_lists _ HI k) as Hk. unfold is_alive in Hk.
      assert (k ∉ (if has_list then [id] else [])) by (destruct has_list; set_solver).
      destruct (VecMap_get _ k); naive_solver.
  - intros k Hk. rewrite Hsub, decide_False by set_solver.
    destruct (VecMap_get _ k) as [st|] eqn:He; [|apply HI; set_solver].
    destruct (iv_alive _ HI _ _ He) as (_ & ? & _). set_solver.
  - intros k Hk. rewrite Hget, Hsub. case_decide; [intros Hnk; destruct Hnk; by eexists|]. intros Hnk.
    destruct (VecMap_get _ k) as [st|] eqn:He; [destruct Hnk; by eexists|].
    apply (iv_gone _ HI); [set_solver|]. unfold is_alive. by rewrite He.
  - intros k Hk. rewrite Hsub. case_decide; [simpl; split; lia|].
    pose proof (iv_processed _ HI k ltac:(set_solver)). destruct (VecMap_get _ k); simpl; lia.
  - intros k. rewrite Hget, Hsub. case_decide; [subst k; simpl; lia|].
    intros [st Hst]. rewrite Hst. simpl. intros Hp. exfalso. revert Hp.
    apply inv_bump_processed; [done..|]. apply alive_registered; [done|]. by eexists.
Qed.

(** The three outcomes of a check. *)
Inductive checked (w : World) (id : nat) (i : Interactor) : World → Interactor → Prop :=
| checked_current :
    processed_version (subs w id) = current_version (subs w id) → checked w id i w i
| checked_stopped s :
    processed_version (subs w id) ≠ current_version (subs w id) → ¬ is_alive w id →
    s = set_is_stopped true (set_processed (current_version (subs w id)) (subs w id)) →
    checked w id i (mkWorld (global w) (<[id := s]> (subs w))) i
| checked_updated s all :
    processed_version (subs w id) ≠ current_version (subs w id) → is_alive w id →
    current_version s = current_version (subs w id) →
    processed_version s = current_version (subs w id) →
    is_stopped s = is_stopped (subs w id) →
    tasks_lists s = (λ _, neighbours id (lists (global w))) <$> tasks_lists (subs w id) →
    (∀ k, VecMap_get (executors_task_lists s) k =
       task_queue <$> VecMap_get (states_of_alive_executors (global w)) k) →
    (∀ k, VecMap_get all k =
       SharedTaskListForSendTo_new ∘ task_queue <$> VecMap_get (states_of_alive_executors (global w)) k) →
    checked w id i (mkWorld (global w) (<[id := s]> (subs w))) (set_all all i).

Lemma existsb_alive w id :
  existsb (λ x, Nat.eqb x.1 id) (VecMap_iter (states_of_alive_executors (global w))) = true ↔
  is_alive w id.
Proof.
  rewrite existsb_exists. unfold is_alive. split.
  - intros ([k st] & Hin & Hk%Nat.eqb_eq). simpl in Hk. subst k. apply list_elem_of_In, VecMap_get_iter in Hin.
    by eexists.
  - intros [st Hst]. exists (id, st). split; [|apply Nat.eqb_refl]. by apply list_elem_of_In, VecMap_get_iter.
Qed.

Lemma insert_all_alive {V} p (f : StateOfAliveExecutor → V) w m m' :
  insert_all p f (VecMap_iter (states_of_alive_executors (global w))) (VecMap_clear m) = Val m' →
  ∀ k, VecMap_get m' k = f <$> VecMap_get (states_of_alive_executors (global w)) k.
Proof.
  intros Hi k. rewrite (insert_all_spec p f _ _ m' (VecMap_iter_NoDup _) Hi k).
  assert (VecMap_get (VecMap_clear m) k = None) as -> by (by destruct k).
  destruct (VecMap_get (states_of_alive_executors (global w)) k) as [st|] eqn:Hk; simpl.
  - apply VecMap_get_iter in Hk.
    by rewrite (elem_of_list_to_map_1 _ _ _ (VecMap_iter_NoDup _) Hk).
  - destruct (_ !! k) as [st|] eqn:Hst; [|done]. apply elem_of_list_to_map_2, VecMap_get_iter in Hst.
    by rewrite Hst in Hk.
Qed.

(** In an invariant state a check returns, if the ids are near in a debug
    build, and only in the ways of [checked]. *)
Lemma check_spec p s id i :
  Inv s → (changes s < usize_MAX)%Z → id ∈ registered s →
  (p = Debug → ∀ k, is_alive (world s) k → k < 100) →
  ∃ w' i', check_version_and_update_if_needed p id (world s) i = Val (w', i').
Proof.
  intros HI Hc Hid Hnear. unfold check_version_and_update_if_needed.
  destruct (Z.eqb_spec (processed_version (subs (world s) id)) (current_version (subs (world s) id))) as [He|Hne].
  { pose proof (iv_processed _ HI _ Hid). rewrite (proj2 (Z.eqb_neq _ _)) by lia.
    rewrite debug_assert_true. by eexists _, _. }
  pose proof (existsb_alive (world s) id) as Hex. destruct (existsb _ _); simpl; [|by eexists _, _].
  assert (∀ {V} (f : StateOfAliveExecutor → V) m, ∃ m', insert_all p f (VecMap_iter
    (states_of_alive_executors (global (world s)))) m = Val m') as Hins.
  { intros V f m. apply insert_all_near. intros Hp k ([k' st] & -> & Hin)%list_elem_of_fmap.
    apply VecMap_get_iter in Hin. apply (Hnear Hp). by eexists. }
  destruct (Hins _ task_queue (VecMap_clear (executors_task_lists (subs (world s) id)))) as [m1 Hm1].
  destruct (Hins _ (λ state, SharedTaskListForSendTo_new (task_queue state)) (VecMap_clear (all i))) as [m2 Hm2].
  destruct (tasks_lists (subs (world s) id)) as [l|] eqn:Hl.
  - rewrite validate_tasks_lists_spec.
    + simpl. unfold VecMap_clear in *. rewrite Hm1. simpl. rewrite Hm2. simpl. by eexists _, _.
    + apply (iv_lists _ HI). split; [by apply Hex|by rewrite Hl].
  - simpl. unfold VecMap_clear in *. rewrite Hm1. simpl. rewrite Hm2. simpl. by eexists _, _.
Qed.

Lemma check_checked p s id i w' i' :
  Inv s → id ∈ registered s →
  check_version_and_update_if_needed p id (world s) i = Val (w', i') → checked (world s) id i w' i'.
Proof.
  intros HI Hid. unfold check_version_and_update_if_needed.
  destruct (Z.eqb_spec (processed_version (subs (world s) id)) (current_version (subs (world s) id))) as [He|Hne].
  { destruct (debug_assert _ _); simpl; intros ?; simplify_eq. by constructor. }
  pose proof (existsb_alive (world s) id) as Hex. destruct (existsb _ _); simpl.
  2: { intros [= <- <-]. constructor; [done| |done]. intros ?%Hex. done. }
  assert (is_alive (world s) id) as Hal by by apply Hex.
  assert (∀ l, tasks_lists (subs (world s) id) = Some l → id ∈ lists (global (world s))) as Hin.
  { intros l Hl. apply (iv_lists _ HI). split; [done|by rewrite Hl]. }
  intros (inner & H1 & H2)%outcome_bind_Val. apply outcome_bind_Val in H2 as (m & H2 & H3).
  apply outcome_bind_Val in H3 as (al & H3 & [= <- <-]).
  assert (current_version inner = current_version (subs (world s) id) ∧
    processed_version inner = current_version (subs (world s) id) ∧
    is_stopped inner = is_stopped (subs (world s) id) ∧
    tasks_lists inner = (λ _, neighbours id (lists (global (world s)))) <$> tasks_lists (subs (world s) id))
    as (Hi1 & Hi2 & Hi3 & Hi4).
  { destruct (tasks_lists (subs (world s) id)) as [l|] eqn:Hl.
    - rewrite validate_tasks_lists_spec in H1 by by eapply Hin. by injection H1 as <-.
    - injection H1 as <-. simpl. by rewrite Hl. }
  apply checked_updated; [done..| |].
  - exact (insert_all_alive _ _ _ _ _ H2).
  - exact (insert_all_alive _ _ _ _ _ H3).
Qed.

Lemma inv_check s id i w' i' :
  Inv s → id ∈ registered s → is_stopped (subs (world s) id) = false →
  checked (world s) id i w' i' → Inv (mkSys w' (registered s) (changes s)).
Proof.
  intros HI Hid Hst Hck. destruct Hck as [He|x Hne Hna ->|x al Hne Hal Hc Hp Hs Ht Hq Ha].
  - by destruct HI; constructor.
  - destruct HI as [H1 H2 H3 H4 H5 H6 H7 H8 H9]; constructor; unfold is_alive in *;
      cbn [world global subs changes registered]; try done.
    + intros k st Hk. rewrite fn_lookup_insert_ne; [by apply H3|]. intros ->. apply Hna. by eexists.
    + intros k. rewrite H5. destruct (decide (k = id)) as [->|?];
        [rewrite fn_lookup_insert; simpl; tauto|by rewrite fn_lookup_insert_ne].
    + intros k Hk. rewrite fn_lookup_insert_ne by congruence. by apply H6.
    + intros k Hk Hd. destruct (decide (k = id)) as [->|?];
        [rewrite fn_lookup_insert; by left|rewrite fn_lookup_insert_ne by done; by apply H7].
    + intros k Hk. destruct (decide (k = id)) as [->|?];
        [rewrite fn_lookup_insert; simpl|rewrite fn_lookup_insert_ne by done; by apply H8].
      pose proof (H8 id Hk). lia.
    + intros k Hk. rewrite fn_lookup_insert_ne by (intros ->; by apply Hna). intros Hpk.
      destruct (H9 k Hk Hpk) as [Hu1 Hu2]. split; cbn [subs global].
      all: rewrite fn_lookup_insert_ne by (intros ->; by apply Hna); done.
  - destruct HI as [H1 H2 H3 H4 H5 H6 H7 H8 H9]; constructor; unfold is_alive in *;
      cbn [world global subs changes registered]; try done.
    + intros k st Hk. destruct (decide (k = id)) as [->|?];
        [rewrite fn_lookup_insert, Hc, Hs|rewrite fn_lookup_insert_ne by done]; by apply H3.
    + intros k. rewrite H5. destruct (decide (k = id)) as [->|?];
        [rewrite fn_lookup_insert, Ht, fmap_is_Some; done|by rewrite fn_lookup_insert_ne].
    + intros k Hk. rewrite fn_lookup_insert_ne by congruence. by apply H6.
    + intros k Hk Hd. rewrite fn_lookup_insert_ne by (intros ->; by apply Hd). by apply H7.
    + intros k Hk. destruct (decide (k = id)) as [->|?];
        [rewrite fn_lookup_insert, Hc, Hp|rewrite fn_lookup_insert_ne by done; by apply H8].
      pose proof (H8 id Hk). lia.
    + intros k Hk Hpk. destruct (decide (k = id)) as [->|?].
      * split; cbn [subs global]; rewrite fn_lookup_insert; [|done]. intros l. rewrite Ht.
        destruct (tasks_lists (subs (world s) id)); simpl; [by intros [= <-]|done].
      * rewrite fn_lookup_insert_ne in Hpk by done. destruct (H9 k Hk Hpk) as [Hu1 Hu2].
        split; cbn [subs global]; rewrite fn_lookup_insert_ne by done; done.
Qed.

Lemma filter_false {A} (l : list A) : filter (λ _, false = true) l = [].
Proof. induction l as [|x l IH]; [done|]. rewrite filter_cons, decide_False by done. done. Qed.

Lemma gs_inv_step p s s' : Inv s → step p s s' → (changes s' < usize_MAX)%Z → Inv s'.
Proof.
  intros HI Hs Hc. destruct Hs as [s id hl w Hid Hr|s id w Hw|s w Hw|s id i i' w Hid Hst Hck]; simpl in Hc.
  - by eapply inv_register.
  - unfold stop_executor in Hw. rewrite (iv_version _ HI), usize_add_Val in Hw by (unfold usize_MAX in Hc; lia).
    injection Hw as <-. pose proof (inv_retain s (λ k, negb (Nat.eqb k id)) HI Hc) as HR. simpl in HR.
    assert (filter (λ k, negb (Nat.eqb k id) = true) (lists (global (world s))) =
      filter (λ k, k ≠ id) (lists (global (world s)))) as Hf.
    { apply list_filter_iff. intros k. rewrite negb_true_iff, Nat.eqb_neq. done. }
    by rewrite <- Hf.
  - unfold stop_all_executors in Hw. rewrite (iv_version _ HI), usize_add_Val in Hw by (unfold usize_MAX in Hc; lia).
    injection Hw as <-. pose proof (inv_retain s (λ _, false) HI Hc) as HR. simpl in HR.
    assert (filter (λ _, false = true) (lists (global (world s))) = []) as Hf.
    { apply filter_false. }
    by rewrite <- Hf.
  - eapply inv_check; [done..|]. by eapply check_checked.
Qed.

Lemma gs_inv_reachable p s : rtc (step p) init s → (changes s < usize_MAX)%Z → Inv s.
Proof.
  intros Hr. pattern s. revert s Hr. apply rtc_ind_r.
  - intros _. assert (∀ id, ¬ is_alive (world init) id) as Hno by (intros id [st Hst]; by destruct id).
    constructor; try done.
    + constructor.
    + intros id. split; [by intros ?%elem_of_nil|]. intros [Hal _]. by destruct (Hno id).
  - intros s s' _ Hs IH Hc. eapply gs_inv_step; [|done..]. apply IH. destruct Hs; simpl in *; lia.
Qed.

Lemma elem_of_executors_ids g k :
  k ∈ executors_ids g ↔ is_Some (VecMap_get (states_of_alive_executors g) k).
Proof.
  unfold executors_ids. rewrite list_elem_of_fmap. split.
  - intros ([k' st] & -> & Hin%VecMap_get_iter). by eexists.
  - intros [st Hst%VecMap_get_iter]. by exists (k, st).
Qed.

Lemma elem_of_work_sharing s :
  Inv s → ∀ k, k ∈ lists (global (world s)) ↔ k ∈ work_sharing_executors_ids (world s).
Proof.
  intros HI k. rewrite (iv_lists _ HI). unfold work_sharing_executors_ids. rewrite list_elem_of_fmap. split.
  - intros [[st Hst] Ht]. exists (k, st). split; [done|]. apply list_elem_of_filter.
    rewrite (proj1 (iv_alive _ HI _ _ Hst)). split; [done|].
    rewrite <- (proj1 (iv_alive _ HI _ _ Hst)). by apply VecMap_get_iter.
  - intros ([k' st] & -> & [Ht Hst%VecMap_get_iter]%list_elem_of_filter). simpl in *.
    rewrite (proj1 (iv_alive _ HI _ _ Hst)) in Ht. split; [by eexists|done].
Qed.

Lemma alive_queue s :
  Inv s → ∀ k, task_queue <$> VecMap_get (states_of_alive_executors (global (world s))) k =
    if decide (k ∈ executors_ids (global (world s))) then Some k else None.
Proof.
  intros HI k. pose proof (elem_of_executors_ids (global (world s)) k) as Hk.
  destruct (VecMap_get _ k) as [st|] eqn:Hst; simpl.
  - rewrite decide_True by (apply Hk; by eexists). by rewrite (proj1 (iv_alive _ HI _ _ Hst)).
  - rewrite decide_False; [done|]. by intros [? ?]%Hk.
Qed.

(** ** Theorems *)


(** A refresh of the copy replaces the entries an executor sends through by
    empty ones: tasks it has collected for other executors and not yet passed
    on are dropped, whatever they are. *)
Theorem version_change_drops_batches (p : profile) (s : Sys) (id : nat) (i i' : Interactor) (w' : World) :
  rtc (step p) init s → (changes s < usize_MAX)%Z → is_alive (world s) id →
  processed_version (subs (world s) id) ≠ current_version (subs (world s) id) →
  check_version_and_update_if_needed p id (world s) i = Val (w', i') →
  ∀ k, VecMap_get (all i') k =
    if decide (k ∈ executors_ids (global (world s))) then Some (SharedTaskListForSendTo_new k) else None.
Proof.
  intros Hr Hc Hal Hne Hck k. pose proof (gs_inv_reachable p s Hr Hc) as HI.
  pose proof (check_checked _ _ _ _ _ _ HI (alive_registered _ _ HI Hal) Hck) as Hch.
  destruct Hch as [|? ? Hna|x al _ _ _ _ _ _ _ Ha]; [done..|]. simpl.
  rewrite Ha, option_fmap_compose, (alive_queue s HI). by case_decide.
Qed.

(** To the net of interactors ([Interactor.net_step]) the check of an executor
    is no change or the refresh that drops its batches. *)
Theorem check_refreshes_net (p : profile) (s : Sys) (id : nat) (ids : list nat) (n : Net)
    (i' : Interactor) (w' : World) :
  rtc (step p) init s → (changes s < usize_MAX)%Z → id ∈ registered s → id ∈ ids →
  check_version_and_update_if_needed p id (world s) (inter (nodes n id)) = Val (w', i') →
  i' = inter (nodes n id) ∨
  net_step p false ids n (refreshed n id (all i')) ∧ inter (nodes (refreshed n id (all i')) id) = i'.
Proof.
  intros Hr Hc Hid Hids Hck. pose proof (gs_inv_reachable p s Hr Hc) as HI.
  pose proof (check_checked _ _ _ _ _ _ HI Hid Hck) as Hch.
  destruct Hch as [| |x al _ _ _ _ _ _ _ Ha]; [by left..|right]. split.
  - apply net_refresh; [done..|]. intros j e. simpl. rewrite Ha, option_fmap_compose, (alive_queue s HI).
    case_decide; by intros [= <-].
  - unfold refreshed. cbn [nodes]. by rewrite inter_set_inter, decide_True.
Qed.

(** An executor with an id of 100 or more that is left alone panics at its
    next check in a debug build: the map it refills wants every key near the
    previous one. *)
Theorem late_executor_panics :
  ∃ s, rtc (step Debug) init s ∧ is_alive (world s) 100 ∧
    is_stopped (subs (world s) 100) = false ∧
    ∀ i, check_version_and_update_if_needed Debug 100 (world s) i = Panicked.
Proof.
  eexists. split_and!.
  - eapply rtc_l; [eapply (step_register Debug init 0 false); [left; set_solver|reflexivity]|].
    eapply rtc_l; [eapply (step_register Debug _ 100 false); [left; set_solver|reflexivity]|].
    eapply rtc_l; [eapply (step_stop Debug _ 0); reflexivity|]. apply rtc_refl.
  - eexists. reflexivity.
  - reflexivity.
  - intros i. reflexivity.
Qed.

(** ** Witnesses *)

(** Executors 0 and 1 run and share work; 1 came last. *)
Definition ex_two : outcome World :=
  w ← register_local_executor Debug 0 true (world init);
  register_local_executor Debug 1 true w.

Lemma ex_two_reachable :
  ∃ w, ex_two = Val w ∧ rtc (step Debug) init (mkSys w ({[1]} ∪ ({[0]} ∪ ∅)) 2) ∧
    work_sharing_executors_ids w = [0; 1] ∧ is_alive w 0 ∧ is_stopped (subs w 0) = false ∧
    processed_version (subs w 0) ≠ current_version (subs w 0) ∧
    (∀ k, is_alive w k → k < 100).
Proof.
  eexists. split_and!; [reflexivity| | |by eexists|reflexivity|vm_compute; discriminate|].
  - eapply rtc_l; [eapply (step_register Debug init 0 true); [left; set_solver|reflexivity]|].
    eapply rtc_l; [eapply (step_register Debug _ 1 true); [left; set_solver|reflexivity]|]. apply rtc_refl.
  - reflexivity.
  - intros k [st Hst]. destruct (decide (k < 2)); [lia|]. exfalso. revert Hst.
    do 2 (destruct k as [|k]; [lia|]). by destruct k.
Qed.


Lemma version_change_drops_batches_witness :
  let i := (send_task_to_executor (ex_task 7) 1 (ex_interactor 0)).1 in
  batch_of true <$> VecMap_get (all i) 1 = Some [ex_task 7] ∧
  ∃ w w' i', ex_two = Val w ∧
    check_version_and_update_if_needed Debug 0 w i = Val (w', i') ∧
    batch_of true <$> VecMap_get (all i') 1 = Some [].
Proof.
  intros i. split; [reflexivity|].
  destruct ex_two_reachable as (w & Hw & Hr & Hsh & Hal & Hst & Hne & Hnear).
  destruct (check_version_and_update_if_needed Debug 0 w i) as [[w' i']| |] eqn:Hck.
  - exists w, w', i'. split_and!; [done..|].
    rewrite (version_change_drops_batches Debug (mkSys w ({[1]} ∪ ({[0]} ∪ ∅)) 2) 0 i i' w');
      [|done|reflexivity|done..].
    injection Hw as <-. reflexivity.
  - injection Hw as <-. discriminate Hck.
  - injection Hw as <-. discriminate Hck.
Defined.

Lemma check_refreshes_net_witness :
  let n := ex_net_sent in
  ∃ w w' i', ex_two = Val w ∧
    check_version_and_update_if_needed Debug 0 w (inter (nodes n 0)) = Val (w', i') ∧
    (i' = inter (nodes n 0) ∨
     net_step Debug false [0; 1] n (refreshed n 0 (all i')) ∧
     inter (nodes (refreshed n 0 (all i')) 0) = i').
Proof.
  intros n. destruct ex_two_reachable as (w & Hw & Hr & _).
  destruct (check_version_and_update_if_needed Debug 0 w (inter (nodes n 0))) as [[w' i']| |] eqn:Hck.
  - exists w, w', i'. split_and!; [done..|].
    apply (check_refreshes_net Debug (mkSys w ({[1]} ∪ ({[0]} ∪ ∅)) 2) 0 [0; 1] n i' w');
      [done|reflexivity|set_solver|set_solver|done].
  - injection Hw as <-. discriminate Hck.
  - injection Hw as <-. discriminate Hck.
Defined.
