(* ===== verification/ThreadPool.v ===== *)
(** * The thread pool of an executor

    Models [src/src/runtime/local_thread_pool/local_thread_pool.rs] and the
    future of [src/src/runtime/asyncify/asyncify.rs] that uses it. Every worker
    thread has an unbounded channel of jobs (crossbeam's, a FIFO queue whose
    [send] fails when the receiver is gone); finished tasks go to one list
    that the executor empties. The jobs themselves are the caller's code. *)

From Stdlib Require Import ZArith Lia.
From S2P Require Import Prelude Task.

(** A task that waits for its job, the address of a closure. *)
Record ThreadWorkerTask := mkWorkerTask { wt_task : Task; wt_job : Z }.

(** The channels, [None] for a worker whose thread has panicked. *)
Record LocalThreadWorkerPool := mkPool {
  wait : Z;
  workers : list (option (list ThreadWorkerTask));
  result_list : list Task;
}.

Definition LocalThreadWorkerPool_new (number_of_workers : nat) : LocalThreadWorkerPool :=
  mkPool 0 (replicate number_of_workers (Some [])) [].

(** [%] by zero and a failed [send] panic. *)
Definition pool_push (p : profile) (task : Task) (job : Z) (pool : LocalThreadWorkerPool)
    : outcome LocalThreadWorkerPool :=
  rassert (negb (length (workers pool) =? 0)%nat);;
  let k := Z.to_nat (wait pool `mod` Z.of_nat (length (workers pool))) in
  w ← expect (workers pool !! k);
  chan ← expect w;
  wait' ← usize_add p (wait pool) 1;
  Val (mkPool wait' (<[k := Some (push_back chan (mkWorkerTask task job))]> (workers pool))
         (result_list pool)).

(** A turn of [ThreadWorker::run] on worker [k]: it takes a job, runs it and
    hands the task back. When the job panics ([job_panics]) or the push does,
    the thread ends, and the tasks in its channel are dropped with it. *)
Definition worker_turn (p : profile) (job_panics : bool) (k : nat) (pool : LocalThreadWorkerPool)
    : option (LocalThreadWorkerPool * ThreadWorkerTask) :=
  match workers pool !! k with
  | Some (Some (job :: chan)) =>
      let dead := mkPool (wait pool) (<[k := None]> (workers pool)) (result_list pool) in
      if job_panics then Some (dead, job)
      else
        match SyncTaskList_push p (result_list pool) (wt_task job) with
        | Val results => Some (mkPool (wait pool) (<[k := Some chan]> (workers pool)) results, job)
        | _ => Some (dead, job)
        end
  | _ => None
  end.

Definition pool_poll (p : profile) (other_list : list Task) (pool : LocalThreadWorkerPool)
    : outcome (LocalThreadWorkerPool * list Task * bool) :=
  if (wait pool =? 0)%Z then Val (pool, other_list, false)
  else
    let prev_len := length other_list in
    let '(results, other_list) := SyncTaskList_pop_all_in_deque (result_list pool) other_list in
    wait' ← usize_sub p (wait pool) (Z.of_nat (length other_list - prev_len));
    Val (mkPool wait' (workers pool) results, other_list, true).

(** [Asyncify::poll]: the first poll asks for the job to be run, the second
    is made when it is done. Returns the new [was_called] and the call. *)
Definition Asyncify_poll (f : Z) (was_called : bool) : bool * Poll () * option Call :=
  if negb was_called then (true, Pending, Some (PushFnToThreadPool f))
  else (was_called, Ready (), None).

(** ** The pool at work

    [given] are the tasks with their jobs in the order they were pushed,
    [ran] those whose jobs have run, in the order they were handed back, [back]
    the tasks the executor has got back, [lost] those that a worker's thread
    took with it when it ended. *)
Record Sys := mkSys {
  pool : LocalThreadWorkerPool;
  given : list ThreadWorkerTask;
  ran : list ThreadWorkerTask;
  back : list Task;
  lost : list ThreadWorkerTask;
}.

Definition init (n : nat) : Sys := mkSys (LocalThreadWorkerPool_new n) [] [] [] [].

(** What is in the channel of a worker. *)
Definition channel (k : nat) (pool : LocalThreadWorkerPool) : list ThreadWorkerTask :=
  match workers pool !! k with Some (Some chan) => chan | _ => [] end.

Definition worker_alive (k : nat) (pool : LocalThreadWorkerPool) : bool :=
  match workers pool !! k with Some (Some _) => true | _ => false end.

(** With [calm], jobs do not panic, and in a debug build only shared tasks are
    pushed: the condition that the documentation of [Call::PushFnToThreadPool]
    puts on its users. *)
Inductive step (p : profile) (calm : bool) : Sys → Sys → Prop :=
| step_push s t f pool' :
    (calm = true → p = Debug → Task_is_local t = false) → pool_push p t f (pool s) = Val pool' →
    step p calm s (mkSys pool' (given s ++ [mkWorkerTask t f]) (ran s) (back s) (lost s))
| step_worker s job_panics k pool' job :
    (calm = true → job_panics = false) → worker_turn p job_panics k (pool s) = Some (pool', job) →
    step p calm s
      (if worker_alive k pool' then mkSys pool' (given s) (ran s ++ [job]) (back s) (lost s)
       else mkSys pool' (given s) (ran s) (back s) (lost s ++ channel k (pool s)))
| step_poll s pool' back' b :
    pool_poll p (back s) (pool s) = Val (pool', back', b) →
    step p calm s (mkSys pool' (given s) (ran s) back' (lost s)).

Definition queued (pool : LocalThreadWorkerPool) : list ThreadWorkerTask :=
  concat (omap id (workers pool)).

Record Inv (p : profile) (n : nat) (s : Sys) : Prop := {
  iv_workers : length (workers (pool s)) = n;
  iv_wait : wait (pool s) =
    Z.of_nat (length (queued (pool s)) + length (result_list (pool s)) + length (lost s));
  iv_given : given s ≡ₚ ran s ++ queued (pool s) ++ lost s;
  iv_back : wt_task <$> ran s = back s ++ result_list (pool s);
}.

Record Calm (p : profile) (s : Sys) : Prop := {
  cl_alive : Forall is_Some (workers (pool s));
  cl_shared : p = Debug → Forall (λ j, Task_is_local (wt_task j) = false) (queued (pool s));
  cl_lost : lost s = [];
}.

Lemma queued_insert pool k chan :
  workers pool !! k = Some (Some chan) →
  ∃ a b, queued pool = a ++ chan ++ b ∧
    (∀ w x y, queued (mkPool w (<[k := Some x]> (workers pool)) y) = a ++ x ++ b) ∧
    ∀ w y, queued (mkPool w (<[k := None]> (workers pool)) y) = a ++ b.
Proof.
  intros Hk. exists (concat (omap id (take k (workers pool)))), (concat (omap id (drop (S k) (workers pool)))).
  pose proof (lookup_lt_Some _ _ _ Hk) as Hlt. unfold queued. simpl. split_and!.
  - rewrite <- (take_drop_middle _ _ _ Hk) at 1. by rewrite omap_app, concat_app.
  - intros _ x _. rewrite insert_take_drop by done. by rewrite omap_app, concat_app.
  - intros _ _. rewrite insert_take_drop by done. by rewrite omap_app, concat_app.
Qed.

(** The two ends of a turn. *)
Lemma worker_turn_Some p job_panics k pool pool' job :
  worker_turn p job_panics k pool = Some (pool', job) →
  ∃ chan, workers pool !! k = Some (Some (job :: chan)) ∧
    (worker_alive k pool' = true ∧ job_panics = false ∧
       pool' = mkPool (wait pool) (<[k := Some chan]> (workers pool)) (result_list pool ++ [wt_task job]) ∨
     worker_alive k pool' = false ∧
       (job_panics = true ∨ p = Debug ∧ Task_is_local (wt_task job) = true) ∧
       pool' = mkPool (wait pool) (<[k := None]> (workers pool)) (result_list pool)).
Proof.
  unfold worker_turn. destruct (workers pool !! k) as [[[|j chan]|]|] eqn:Hk; try done.
  pose proof (lookup_lt_Some _ _ _ Hk) as Hlt. unfold worker_alive, SyncTaskList_push, push_back.
  destruct job_panics; [|destruct p, (Task_is_local (wt_task j)) eqn:Hj; simpl];
    intros [= <- <-]; exists chan; (split; [done|]); simpl; rewrite list_lookup_insert_eq by done; auto 6.
Qed.

Lemma pop_all_in_deque_eq l other : SyncTaskList_pop_all_in_deque l other = ([], other ++ l).
Proof. unfold SyncTaskList_pop_all_in_deque. by rewrite foldl_push_back. Qed.

Lemma queued_new n : queued (LocalThreadWorkerPool_new n) = [].
Proof. unfold queued, LocalThreadWorkerPool_new. simpl. by induction n. Qed.

Lemma tp_inv_init p n : Inv p n (init n) ∧ Calm p (init n).
Proof.
  pose proof (queued_new n) as Hq.
  split; constructor; cbn [pool init given ran back lost]; rewrite ?Hq; try done.
  - apply length_replicate.
  - simpl. by apply Forall_replicate.
Qed.

(** [pool_push] puts the task at the end of one channel. *)
Lemma pool_push_Val p t f pool pool' :
  pool_push p t f pool = Val pool' →
  ∃ k chan w, workers pool !! k = Some (Some chan) ∧ usize_add p (wait pool) 1 = Val w ∧
    pool' = mkPool w (<[k := Some (chan ++ [mkWorkerTask t f])]> (workers pool)) (result_list pool).
Proof.
  intros Hp. unfold pool_push in Hp. set (k := Z.to_nat _) in Hp. clearbody k. outcome_inv. eauto 8.
Qed.

Lemma tp_inv_step p calm n s s' :
  Inv p n s → step p calm s s' → (Z.of_nat (length (given s')) < usize_modulus)%Z → Inv p n s'.
Proof.
  intros [H1 H2 H3 H4] Hs Hlen.
  destruct Hs as [s t f pool' _ Hp|s jp k pool' job _ Hw|s pool' back' b Hp]; simpl in Hlen.
  - apply pool_push_Val in Hp as (k & chan & w & Hk & Hw & ->).
    destruct (queued_insert _ _ _ Hk) as (a & b & Hq & Hq' & _).
    assert (w = (wait (pool s) + 1)%Z) as ->.
    { rewrite usize_add_Val in Hw; [by simplify_eq|]. rewrite H3, !length_app in Hlen. simpl in Hlen.
      pose proof (f_equal length H4) as Hl. rewrite length_fmap, length_app in Hl. lia. }
    constructor; cbn [pool given ran back lost workers result_list wait].
    + by rewrite length_insert.
    + rewrite H2, Hq, Hq', !length_app. simpl. lia.
    + rewrite H3, Hq, Hq'. solve_Permutation.
    + done.
  - apply worker_turn_Some in Hw as (chan & Hk & [(-> & _ & ->)|(-> & _ & ->)]);
      destruct (queued_insert _ _ _ Hk) as (a & b & Hq & Hq' & Hq0);
      constructor; cbn [pool given ran back lost workers result_list wait]; try by rewrite length_insert.
    + rewrite H2, Hq, Hq', !length_app. simpl. lia.
    + rewrite H3, Hq, Hq'. solve_Permutation.
    + by rewrite fmap_app, H4, app_assoc.
    + unfold channel. rewrite Hk, H2, Hq, Hq0, !length_app. simpl. lia.
    + unfold channel. rewrite Hk, H3, Hq, Hq0. solve_Permutation.
    + done.
  - unfold pool_poll in Hp. rewrite pop_all_in_deque_eq in Hp.
    destruct (Z.eqb_spec (wait (pool s)) 0) as [Hz|Hz]; [by simplify_eq|].
    rewrite length_app, usize_sub_Val in Hp by lia. simpl in Hp. simplify_eq.
    constructor; cbn [pool given ran back lost workers result_list wait]; try done.
    + rewrite H2. unfold queued. simpl. lia.
    + by rewrite app_nil_r.
Qed.

Lemma tp_calm_step p s s' : Calm p s → step p true s s' → Calm p s'.
Proof.
  intros [H1 H2 H3] Hs. destruct Hs as [s t f pool' Hsh Hp|s jp k pool' job Hj Hw|s pool' back' b Hp].
  - apply pool_push_Val in Hp as (k & chan & w & Hk & _ & ->).
    destruct (queued_insert _ _ _ Hk) as (a & b & Hq & Hq' & _).
    constructor; cbn [pool lost workers]; [by apply Forall_insert| |done].
    intros Hd. rewrite Hq'. specialize (H2 Hd). rewrite Hq in H2.
    rewrite !Forall_app in H2. rewrite !Forall_app, Forall_singleton. naive_solver.
  - apply worker_turn_Some in Hw as (chan & Hk & [(-> & _ & ->)|(_ & Hbad & ->)]);
      destruct (queued_insert _ _ _ Hk) as (a & b & Hq & Hq' & _).
    + constructor; cbn [pool lost workers]; [by apply Forall_insert| |done].
      intros Hd. rewrite Hq'. specialize (H2 Hd). rewrite Hq in H2.
      rewrite !Forall_app, Forall_cons in H2. rewrite !Forall_app. tauto.
    + exfalso. destruct Hbad as [->|[Hd Hl]]; [by specialize (Hj eq_refl)|]. specialize (H2 Hd). rewrite Hq in H2.
      rewrite !Forall_app, Forall_cons in H2. destruct H2 as (_ & (Hn & _) & _). congruence.
  - unfold pool_poll in Hp. destruct (wait (pool s) =? 0)%Z; [by simplify_eq|].
    rewrite pop_all_in_deque_eq in Hp. outcome_inv. by constructor.
Qed.

Lemma tp_inv_reachable p calm n s :
  rtc (step p calm) (init n) s → (Z.of_nat (length (given s)) < usize_modulus)%Z →
  Inv p n s ∧ (calm = true → Calm p s).
Proof.
  intros Hr. pattern s. revert s Hr. apply rtc_ind_r; [intros _; split; [apply tp_inv_init|intros _; apply (tp_inv_init p n)]|].
  intros s s' _ Hs IH Hlen. destruct IH as [IH1 IH2].
  { destruct Hs; simpl in *; rewrite ?length_app in *; try case_match; simpl in *; lia. }
  split; [by eapply tp_inv_step|]. intros ->. eapply tp_calm_step; [by apply IH2|done].
Qed.

(** ** Theorems *)

(** C35: whatever is pushed, fewer than [usize::MAX] tasks in all, and whenever
    workers run in between: every task that was given is in one place, that of
    the finished jobs, a channel, or among those lost with a worker whose
    thread ended; the tasks of finished jobs come back once, in the order the
    jobs were finished; the count of waiting tasks is that of the tasks that
    have not come back; polling does not panic. If no job panics and, in a
    debug build, only shared tasks are pushed, no task is lost, pushing to a
    pool that has a worker does not panic, and when no job is queued one poll
    brings all tasks back. *)
Theorem thread_pool_delivery (p : profile) (calm : bool) (n : nat) (s : Sys) :
  rtc (step p calm) (init n) s → (Z.of_nat (length (given s)) + 1 < usize_modulus)%Z →
  given s ≡ₚ ran s ++ queued (pool s) ++ lost s ∧
  wt_task <$> ran s = back s ++ result_list (pool s) ∧
  wait (pool s) = (Z.of_nat (length (given s)) - Z.of_nat (length (back s)))%Z ∧
  (∃ pool' b, pool_poll p (back s) (pool s) = Val (pool', wt_task <$> ran s, b) ∧
     (calm = true → queued (pool s) = [] → wait pool' = 0%Z ∧ wt_task <$> ran s ≡ₚ wt_task <$> given s)) ∧
  (calm = true → lost s = [] ∧ (0 < n → ∀ t f, ∃ pool', pool_push p t f (pool s) = Val pool')).
Proof.
  intros Hr Hlen. destruct (tp_inv_reachable p calm n s Hr ltac:(lia)) as [[H1 H2 H3 H4] Hcalm].
  assert (length (given s) =
    length (back s) + length (result_list (pool s)) + length (queued (pool s)) + length (lost s)) as Hl.
  { pose proof (f_equal length H4) as Hr4. rewrite length_fmap, length_app in Hr4.
    rewrite H3, !length_app. lia. }
  split_and!; [done|done|rewrite H2; lia| |].
  - unfold pool_poll. rewrite pop_all_in_deque_eq, H4. destruct (Z.eqb_spec (wait (pool s)) 0) as [Hz|Hz].
    + assert (result_list (pool s) = []) as Hres by (destruct (result_list (pool s)); simpl in *; [done|lia]).
      rewrite Hres, app_nil_r. eexists _, _. split; [done|]. intros Hc Hq. split; [done|].
      by rewrite H3, Hq, (cl_lost _ _ (Hcalm Hc)), app_nil_r, H4, Hres, app_nil_r.
    + rewrite length_app, usize_sub_Val by lia. eexists _, _. split; [done|]. intros Hc Hq. simpl.
      pose proof (cl_lost _ _ (Hcalm Hc)) as Hlo.
      split; [rewrite H2, Hq, Hlo; simpl; lia|]. by rewrite <- H4, H3, Hq, Hlo, app_nil_r.
  - intros Hc. destruct (Hcalm Hc) as [C1 C2 C3]. split; [done|]. intros Hn t f. unfold pool_push. rewrite H1.
    replace (negb (n =? 0)) with true by (destruct n; [lia|done]). simpl.
    set (k := Z.to_nat _). assert (k < n) as Hk.
    { unfold k. pose proof (Z.mod_pos_bound (wait (pool s)) (Z.of_nat n)). lia. }
    rewrite <- H1 in Hk. apply lookup_lt_is_Some in Hk as [w Hw]. rewrite Hw. simpl.
    destruct (proj1 (Forall_lookup _ _) C1 _ _ Hw) as [chan ->]. simpl.
    rewrite usize_add_Val by lia. by eexists.
Qed.

(** A job that panics takes all tasks of its worker with it, and the next push
    to that worker panics the executor. *)
Theorem panicking_job_loses_tasks (p : profile) (t1 t2 t3 : Task) (f1 f2 f3 : Z) :
  ∃ pool1 pool2 pool3,
    pool_push p t1 f1 (LocalThreadWorkerPool_new 1) = Val pool1 ∧ pool_push p t2 f2 pool1 = Val pool2 ∧
    worker_turn p true 0 pool2 = Some (pool3, mkWorkerTask t1 f1) ∧
    queued pool3 = [] ∧ result_list pool3 = [] ∧ wait pool3 = 2%Z ∧ pool_push p t3 f3 pool3 = Panicked.
Proof. eexists _, _, _. split_and!; reflexivity. Qed.

(** In a debug build a local task that is pushed to the pool is lost: its
    worker runs the job, panics when it hands the task back, and the next
    task for that worker makes the executor panic. *)
Theorem asyncify_local_task_lost (t t' : Task) (f f' : Z) :
  Task_is_local t = true →
  ∃ pool1 pool2,
    pool_push Debug t f (LocalThreadWorkerPool_new 1) = Val pool1 ∧
    worker_turn Debug false 0 pool1 = Some (pool2, mkWorkerTask t f) ∧
    result_list pool2 = [] ∧ queued pool2 = [] ∧ wait pool2 = 1%Z ∧
    (∀ k b, worker_turn Debug b k pool2 = None) ∧ pool_push Debug t' f' pool2 = Panicked.
Proof.
  intros Ht. eexists _, _. split_and!; [reflexivity| | | | | |].
  - unfold worker_turn, SyncTaskList_push. simpl. rewrite Ht. reflexivity.
  - done.
  - done.
  - done.
  - intros [|k] b; [done|]. unfold worker_turn. simpl. by destruct k.
  - reflexivity.
Qed.

(** ** Witnesses *)
Lemma thread_pool_delivery_witness :
  ∃ s, rtc (step Debug true) (init 2) s ∧ given s = [mkWorkerTask (ex_shared_task 1) 7] ∧
    wt_task <$> ran s = back s ++ result_list (pool s) ∧ lost s = [] ∧
    ∃ pool', pool_push Debug (ex_shared_task 2) 8 (pool s) = Val pool'.
Proof.
  assert (∃ s, rtc (step Debug true) (init 2) s ∧ given s = [mkWorkerTask (ex_shared_task 1) 7]) as (s & Hr & Hg).
  { eexists. split.
    - eapply rtc_l; [eapply (step_push Debug true _ (ex_shared_task 1) 7); reflexivity|].
      eapply rtc_l; [eapply (step_worker Debug true _ false 0); reflexivity|]. apply rtc_refl.
    - reflexivity. }
  destruct (thread_pool_delivery Debug true 2 s Hr) as (_ & H1 & _ & _ & H2); [rewrite Hg; reflexivity|].
  destruct (H2 eq_refl) as [H3 H4].
  exists s. split_and!; [exact Hr|exact Hg|exact H1|exact H3|]. apply H4. lia.
Defined.

Lemma asyncify_local_task_lost_witness :
  ∃ pool1 pool2, pool_push Debug (ex_task 1) 0 (LocalThreadWorkerPool_new 1) = Val pool1 ∧
    worker_turn Debug false 0 pool1 = Some (pool2, mkWorkerTask (ex_task 1) 0) ∧ result_list pool2 = [].
Proof.
  destruct (asyncify_local_task_lost (ex_task 1) (ex_task 2) 0 0 eq_refl)
    as (pool1 & pool2 & H1 & H2 & H3 & _). by exists pool1, pool2.
Defined.
