(* ===== verification/Executor.v ===== *)
(** * The executor's operations

    Models [src/src/runtime/executor/executor.rs]: the task queues, how a task
    is spawned or executed, what happens to it when its poll has returned
    ([handle_call]), the work it shares with other executors, its sleeping
    tasks and what it does when a round leaves nothing to do. How these
    operations follow one another, with the code of the tasks in between, is
    the subject of [ExecutorMachine]; this file has the operations themselves.

    Time is in nanoseconds. A [BTreeMap] is its list of entries in key order.
    [locked] says that another thread holds the lock of the executor's list
    of shared tasks. Memory that a [Call] points to is in [Mem]. *)

From Stdlib Require Import ZArith Lia Sorting.Sorted.
From S2P Require Import Prelude BTree Task Utils Config ThreadPool.
Open Scope Z_scope.

Record Executor := mkExecutor {
  ex_id : Z;
  config : Config;
  exec_series : Z;
  current_call : Call;
  start_round_time : Z;
  start_round_time_for_deadlines : Z;
  local_tasks : list Task;
  shared_tasks : list Task;
  shared_tasks_list : option ExecutorSharedTaskList;
  thread_pool : LocalThreadWorkerPool;
  local_sleeping_tasks : list (Z * Task);
  task_pool : TaskPool;
}.

(** What calls point to: lists of waiting tasks, counters and flags. *)
Record Mem := mkMem {
  sync_lists : gmap Z (list Task);
  counters : gmap Z Z;
  flags : gmap Z bool;
}.

Definition set_exec_series (x : Z) (e : Executor) : Executor :=
  mkExecutor (ex_id e) (config e) x (current_call e) (start_round_time e)
    (start_round_time_for_deadlines e) (local_tasks e) (shared_tasks e) (shared_tasks_list e)
    (thread_pool e) (local_sleeping_tasks e) (task_pool e).
Definition set_current_call (x : Call) (e : Executor) : Executor :=
  mkExecutor (ex_id e) (config e) (exec_series e) x (start_round_time e)
    (start_round_time_for_deadlines e) (local_tasks e) (shared_tasks e) (shared_tasks_list e)
    (thread_pool e) (local_sleeping_tasks e) (task_pool e).
Definition set_times (now deadlines : Z) (e : Executor) : Executor :=
  mkExecutor (ex_id e) (config e) (exec_series e) (current_call e) now
    deadlines (local_tasks e) (shared_tasks e) (shared_tasks_list e)
    (thread_pool e) (local_sleeping_tasks e) (task_pool e).
Definition set_local_tasks (x : list Task) (e : Executor) : Executor :=
  mkExecutor (ex_id e) (config e) (exec_series e) (current_call e) (start_round_time e)
    (start_round_time_for_deadlines e) x (shared_tasks e) (shared_tasks_list e)
    (thread_pool e) (local_sleeping_tasks e) (task_pool e).
Definition set_shared_tasks (x : list Task) (e : Executor) : Executor :=
  mkExecutor (ex_id e) (config e) (exec_series e) (current_call e) (start_round_time e)
    (start_round_time_for_deadlines e) (local_tasks e) x (shared_tasks_list e)
    (thread_pool e) (local_sleeping_tasks e) (task_pool e).
Definition set_shared_tasks_list (x : option ExecutorSharedTaskList) (e : Executor) : Executor :=
  mkExecutor (ex_id e) (config e) (exec_series e) (current_call e) (start_round_time e)
    (start_round_time_for_deadlines e) (local_tasks e) (shared_tasks e) x
    (thread_pool e) (local_sleeping_tasks e) (task_pool e).
Definition set_thread_pool (x : LocalThreadWorkerPool) (e : Executor) : Executor :=
  mkExecutor (ex_id e) (config e) (exec_series e) (current_call e) (start_round_time e)
    (start_round_time_for_deadlines e) (local_tasks e) (shared_tasks e) (shared_tasks_list e)
    x (local_sleeping_tasks e) (task_pool e).
Definition set_sleeping (x : list (Z * Task)) (e : Executor) : Executor :=
  mkExecutor (ex_id e) (config e) (exec_series e) (current_call e) (start_round_time e)
    (start_round_time_for_deadlines e) (local_tasks e) (shared_tasks e) (shared_tasks_list e)
    (thread_pool e) x (task_pool e).
Definition set_task_pool (x : TaskPool) (e : Executor) : Executor :=
  mkExecutor (ex_id e) (config e) (exec_series e) (current_call e) (start_round_time e)
    (start_round_time_for_deadlines e) (local_tasks e) (shared_tasks e) (shared_tasks_list e)
    (thread_pool e) (local_sleeping_tasks e) x.

Definition len {A} (l : list A) : Z := Z.of_nat (length l).

(** [assert_hint]: an assertion in a debug build, a promise otherwise. *)
Definition assert_hint (p : profile) (b : bool) : outcome () :=
  if b then Val () else match p with Debug => Panicked | Release => Undefined end.

(** ** Starting *)

(** The part of [init_on_core_with_config] that builds the executor, after
    the configuration was validated. *)
Definition Executor_new (id now : Z) (valid_config : Config) : Executor :=
  mkExecutor id valid_config 0 Call_None now (now + 100000) [] []
    (if is_work_sharing_enabled valid_config then Some (ExecutorSharedTaskList_new id) else None)
    (LocalThreadWorkerPool_new (Z.to_nat (number_of_thread_workers valid_config))) [] (mkTaskPool ∅).

(** ** Queues *)
Definition number_of_spawned_tasks (e : Executor) : Z := len (shared_tasks e) + len (local_tasks e).

Definition add_task_at_the_start_of_lifo_local_queue (p : profile) (t : Task) (e : Executor)
    : outcome Executor :=
  debug_assert p (Task_is_local t);; Val (set_local_tasks (push_front (local_tasks e) t) e).

Definition add_task_at_the_start_of_lifo_shared_queue (p : profile) (t : Task) (e : Executor)
    : outcome Executor :=
  debug_assert p (negb (Task_is_local t));; Val (set_shared_tasks (push_front (shared_tasks e) t) e).

Definition spawn_local_task (p : profile) (t : Task) (e : Executor) : outcome Executor :=
  debug_assert p (Task_is_local t);; Val (set_local_tasks (push_back (local_tasks e) t) e).

(** The inner function of [spawn_shared_task]; [drain] panics past the end. *)
Definition try_flush (locked : bool) (e : Executor) : outcome Executor :=
  list ← unchecked (shared_tasks_list e);
  if locked then Val e
  else
    let number_of_shared := (length (shared_tasks e) / 2 + 1)%nat in
    rassert (number_of_shared <=? length (shared_tasks e))%nat;;
    Val (set_shared_tasks (drop number_of_shared (shared_tasks e))
           (set_shared_tasks_list
              (Some (mkExecutorSharedTaskList (list_executor_id list)
                       (foldl push_back (list_tasks list) (take number_of_shared (shared_tasks e))))) e)).

Definition spawn_shared_task (p : profile) (locked : bool) (t : Task) (e : Executor)
    : outcome Executor :=
  debug_assert p (negb (Task_is_local t));;
  if is_work_sharing_enabled (config e) then
    if len (shared_tasks e) <=? work_sharing_level (config e) then
      Val (set_shared_tasks (push_back (shared_tasks e) t) e)
    else
      e ← try_flush locked e;
      Val (set_shared_tasks (push_back (shared_tasks e) t) e)
  else Val (set_shared_tasks (push_back (shared_tasks e) t) e).

(** [spawn_task], and the wakers of [waker.rs]. *)
Definition spawn_task (p : profile) (locked : bool) (t : Task) (e : Executor) : outcome Executor :=
  if Task_is_local t then spawn_local_task p t e else spawn_shared_task p locked t e.

(** [Yield::poll] of [yield_now.rs], when it has not yielded yet. *)
Definition yield_now (p : profile) (t : Task) (e : Executor) : outcome Executor :=
  if Task_is_local t then add_task_at_the_start_of_lifo_local_queue p t e
  else add_task_at_the_start_of_lifo_shared_queue p t e.

(** ** Executing a task *)
Definition invoke_call (p : profile) (c : Call) (e : Executor) : outcome Executor :=
  debug_assert p (Call_is_none (current_call e));; Val (set_current_call c e).

(** [exec_task] returns the task when it is to be executed now. *)
Definition exec_task (p : profile) (locked : bool) (t : Task) (e : Executor)
    : outcome (Executor * option Task) :=
  if exec_series e <? 63 then Val (e, Some t)
  else
    let e := set_exec_series 0 e in
    e ← (if Task_is_local t then spawn_local_task p t e else spawn_shared_task p locked t e);
    Val (e, None).

(** [exec_task_now] up to the call of [poll]; [executing] says whether a poll
    of the task is under way, in which case another one is undefined. *)
Definition exec_task_now_begin (p : profile) (cfg_test executing : bool) (t : Task) (e : Executor)
    : outcome (Executor * Task) :=
  x ← usize_add p (exec_series e) 1;
  let e := set_exec_series x e in
  match p with
  | Debug => t ← Task_check_safety cfg_test executing (ex_id e) t; Val (e, t)
  | Release => if executing then Undefined else Val (e, t)
  end.

Definition Task_set_locality (l : Locality) (t : Task) : Task :=
  mkTask (TaskData_set_locality (data t) l) (executor_id t) (is_executing t).

(** [handle_call]: what becomes of the task whose poll has returned
    [Pending]. The last result is a task to be executed now. *)
Definition handle_call (p : profile) (locked : bool) (t : Task) (e : Executor) (m : Mem)
    : outcome (Executor * Mem * option Task) :=
  let call := current_call e in
  let e := set_current_call Call_None e in
  match call with
  | Call_None => Val (e, m, None)
  | PushCurrentTaskAtTheStartOfLIFOSharedQueue =>
      Val (set_shared_tasks (push_front (shared_tasks e) t) e, m, None)
  | PushCurrentTaskTo list =>
      inner ← unchecked (sync_lists m !! list);
      inner ← SyncTaskList_push p inner t;
      Val (e, mkMem (<[list := inner]> (sync_lists m)) (counters m) (flags m), None)
  | PushCurrentTaskToAndRemoveItIfCounterIsZero list counter =>
      inner ← unchecked (sync_lists m !! list);
      inner ← SyncTaskList_push p inner t;
      c ← unchecked (counters m !! counter);
      if c =? 0 then
        let '(popped, inner) := SyncTaskList_pop inner in
        let m := mkMem (<[list := inner]> (sync_lists m)) (counters m) (flags m) in
        match popped with
        | Some t => r ← exec_task p locked t e; Val (r.1, m, r.2)
        | None => Val (e, m, None)
        end
      else Val (e, mkMem (<[list := inner]> (sync_lists m)) (counters m) (flags m), None)
  | ReleaseAtomicBool atomic =>
      _ ← unchecked (flags m !! atomic);
      Val (e, mkMem (sync_lists m) (counters m) (<[atomic := false]> (flags m)), None)
  | PushFnToThreadPool f =>
      debug_assert p (negb (number_of_thread_workers (config e) =? 0));;
      pool ← pool_push p t f (thread_pool e);
      Val (set_thread_pool pool e, m, None)
  | ChangeCurrentTaskLocality locality =>
      let t := Task_set_locality locality t in
      rassert (Bool.eqb (Task_is_local t) (Locality_is_local locality));;
      e ← (if Locality_is_local locality then spawn_local_task p t e
           else spawn_shared_task p locked t e);
      Val (e, m, None)
  end.

(** [exec_task_now] after the call of [poll]; [size_of] gives the size of a
    future by its vtable, for the pool of its memory. *)
Definition exec_task_now_end (size_of : Z → Z) (p : profile) (locked : bool) (t : Task)
    (poll_res : Poll ()) (e : Executor) (m : Mem) : outcome (Executor * Mem * option Task) :=
  match poll_res with
  | Ready _ =>
      debug_assert p (Call_is_none (current_call e));;
      Val (set_task_pool (TaskPool_put size_of (task_pool e) t) e, m, None)
  | Pending =>
      if negb (Call_is_none (current_call e)) then handle_call p locked t e m
      else Val (e, m, None)
  end.

(** ** Sleeping tasks *)

(** An [Instant] is a number of nanoseconds; on Linux its seconds are an [i64],
    and adding a [Duration] panics past that. *)
Definition INSTANT_MAX : Z := (2 ^ 63 - 1) * 1000000000 + 999999999.

Definition instant_add (i d : Z) : outcome Z := rassert (i + d <=? INSTANT_MAX);; Val (i + d).

Record Sleep := mkSleep { was_yielded : bool; sleep_until : Z }.

(** [sleep(duration)]: the deadline is fixed when the future is made. *)
Definition sleep (duration : Z) (e : Executor) : outcome Sleep :=
  sleep_until ← instant_add (start_round_time_for_deadlines e) duration;
  Val (mkSleep false sleep_until).

(** The loop of [Sleep::poll], which ends within one turn more than there are
    sleeping tasks ([None]: it has not). *)
Fixpoint sleep_loop (fuel : nat) (sleep_until : Z) (t : Task) (l : list (Z * Task))
    : outcome (option (Z * list (Z * Task))) :=
  match fuel with
  | O => Val None
  | S fuel =>
      match btree_set_insert sleep_until t l with
      | (true, l) => Val (Some (sleep_until, l))
      | (false, _) => u ← instant_add sleep_until 1; sleep_loop fuel u t l
      end
  end.

Definition sleep_poll (this : Sleep) (t : Task) (e : Executor) : outcome (Sleep * Executor * Poll ()) :=
  if was_yielded this then Val (this, e, Ready ())
  else
    o ← sleep_loop (S (length (local_sleeping_tasks e))) (sleep_until this) t (local_sleeping_tasks e);
    x ← unchecked o;
    Val (mkSleep true x.1, set_sleeping x.2 e, Pending).

(** One turn of the loop of [check_sleeping_tasks], at [start_round_time]. *)
Inductive SleepTurn :=
| Woken (e : Executor) (now : option Task)  (** and a task to be executed now *)
| NothingDue (e : Executor) (nearest : option Z).

Definition check_sleeping_turn (p : profile) (locked : bool) (e : Executor) : outcome SleepTurn :=
  match local_sleeping_tasks e with
  | [] => Val (NothingDue e None)
  | (time_to_wake, t) :: rest =>
      let e := set_sleeping rest e in
      if time_to_wake <=? start_round_time e then
        if Task_is_local t then
          r ← exec_task p locked t e; Val (Woken r.1 r.2)
        else
          e ← spawn_shared_task p locked t e; Val (Woken e None)
      else
        Val (NothingDue (set_sleeping (btree_insert time_to_wake t (local_sleeping_tasks e)) e)
               (Some (Z.max 0 (start_round_time e - time_to_wake))))
  end.

(** Its start: the clock is read if any task sleeps. *)
Definition check_sleeping_begin (now : Z) (e : Executor) : Executor :=
  match local_sleeping_tasks e with
  | [] => e
  | _ => set_times now (start_round_time_for_deadlines e) e
  end.

Definition prepare_to_new_round (now : Z) (e : Executor) : Executor :=
  set_times now (now + 100000) (set_exec_series 0 e).

(** The loop of [Sleep::poll] is [insert_first_free] with a bound. *)
Lemma sleep_loop_Val fuel u t l x :
  sleep_loop fuel u t l = Val (Some x) → insert_first_free fuel u t l = Some x.
Proof.
  revert u. induction fuel as [|fuel IH]; intros u; simpl; [done|].
  destruct (btree_set_insert u t l) as [[] l']; [by intros [= <-]|].
  unfold instant_add. destruct (_ <=? _); simpl; [apply IH|done].
Qed.

Lemma sleep_loop_ends fuel u t l x :
  insert_first_free fuel u t l = Some x → x.1 ≤ INSTANT_MAX → sleep_loop fuel u t l = Val (Some x).
Proof.
  revert u. induction fuel as [|fuel IH]; intros u; simpl; [done|].
  destruct (btree_set_insert u t l) as [[] l'] eqn:Hb; [by intros [= <-]|]. intros Hx Hle.
  assert (u + 1 ≤ x.1) as Hu.
  { clear -Hx. revert Hx. generalize (u + 1). induction fuel as [|fuel IH]; intros v; simpl; [done|].
    destruct (btree_set_insert v t l) as [[] l']; [intros [= <-]; simpl; lia|]. intros H%IH. lia. }
  unfold instant_add. rewrite (proj2 (Z.leb_le _ _)) by lia. simpl. by apply IH.
Qed.

Lemma sleep_poll_Val s t e s' e' :
  sleep_poll s t e = Val (s', e', Pending) →
  ∃ k, s' = mkSleep true k ∧ e' = set_sleeping (btree_insert k t (local_sleeping_tasks e)) e ∧
    (k ∉ (local_sleeping_tasks e).*1).
Proof.
  unfold sleep_poll. destruct (was_yielded s); [done|].
  intros (o & Ho & H2)%outcome_bind_Val. destruct o as [[k l]|]; [|done]. injection H2 as <- <-.
  apply sleep_loop_Val in Ho.
  destruct (insert_first_free_spec (sleep_until s) t (local_sleeping_tasks e)) as (k' & Hk & _ & Hn & _).
  rewrite Hk in Ho. injection Ho as <- <-. by exists k'.
Qed.

(** ** [exec_cpu_tasks], turn by turn *)
Definition local_round_turn (p : profile) (locked : bool) (e : Executor)
    : outcome (Executor * option Task) :=
  assert_hint p (negb (len (local_tasks e) =? 0));;
  r ← unchecked (pop_back (local_tasks e));
  exec_task p locked r.1 (set_local_tasks r.2 e).

Definition shared_round_turn (p : profile) (locked : bool) (e : Executor)
    : outcome (option (Executor * option Task)) :=
  match pop_back (shared_tasks e) with
  | Some (t, rest) => r ← exec_task p locked t (set_shared_tasks rest e); Val (Some r)
  | None => Val None
  end.

(** ** What spawning does

    A well-formed executor: it has a list of shared tasks exactly if it shares
    work. *)
Definition list_ok (e : Executor) : Prop :=
  is_work_sharing_enabled (config e) = true → is_Some (shared_tasks_list e).

Definition level_ok (e : Executor) : Prop := 0 ≤ work_sharing_level (config e).

Definition listed (e : Executor) : list Task :=
  match shared_tasks_list e with Some l => list_tasks l | None => [] end.

(** [e'] differs from [e] in its shared tasks only. *)
Definition reshared (e e' : Executor) : Prop :=
  ∃ tasks l, e' = set_shared_tasks tasks (set_shared_tasks_list l e).

Lemma reshared_trans e1 e2 e3 : reshared e1 e2 → reshared e2 e3 → reshared e1 e3.
Proof. intros (s1 & l1 & ->) (s2 & l2 & ->). by exists s2, l2. Qed.

Lemma reshared_refl e : reshared e e.
Proof. exists (shared_tasks e), (shared_tasks_list e). by destruct e. Qed.

Lemma reshared_push l e : reshared e (set_shared_tasks l e).
Proof. exists l, (shared_tasks_list e). by destruct e. Qed.

#[export] Hint Resolve reshared_refl reshared_push reshared_trans : orengine.


Lemma try_flush_Val lk e e' :
  try_flush lk e = Val e' →
  listed e' ++ shared_tasks e' ≡ₚ listed e ++ shared_tasks e ∧ reshared e e' ∧
  (is_Some (shared_tasks_list e) → is_Some (shared_tasks_list e')).
Proof.
  unfold try_flush, listed. intros. outcome_inv. destruct lk; outcome_inv; [by eauto with orengine|].
  rewrite H. simpl. rewrite foldl_push_back, <- app_assoc, take_drop. split_and!; [done|by eexists _, _|by eauto].
Qed.

Lemma try_flush_ok lk e :
  is_Some (shared_tasks_list e) → (0 < length (shared_tasks e))%nat → ∃ e', try_flush lk e = Val e'.
Proof.
  intros [l Hl] Hlen. unfold try_flush. rewrite Hl. cbn -[Nat.div]. destruct lk; [by eexists|].
  replace (_ <=? _)%nat with true; [by eexists|]. symmetry. apply Nat.leb_le.
  pose proof (Nat.div_lt (length (shared_tasks e)) 2 ltac:(lia) ltac:(lia)). lia.
Qed.

Lemma spawn_shared_task_Val p lk t e e' :
  spawn_shared_task p lk t e = Val e' →
  listed e' ++ shared_tasks e' ≡ₚ t :: listed e ++ shared_tasks e ∧ reshared e e' ∧
  (is_Some (shared_tasks_list e) → is_Some (shared_tasks_list e')) ∧
  (p = Debug → Task_is_local t = false).
Proof.
  unfold spawn_shared_task. intros Hs. apply outcome_bind_Val in Hs as ([] & Hd & Hs).
  assert (p = Debug → Task_is_local t = false) as Hloc.
  { intros ->. by destruct (Task_is_local t). }
  assert (∀ e1, listed e1 ++ shared_tasks e1 ≡ₚ listed e ++ shared_tasks e → reshared e e1 →
    (is_Some (shared_tasks_list e) → is_Some (shared_tasks_list e1)) →
    listed (set_shared_tasks (push_back (shared_tasks e1) t) e1) ++
      shared_tasks (set_shared_tasks (push_back (shared_tasks e1) t) e1) ≡ₚ
      t :: listed e ++ shared_tasks e ∧
    reshared e (set_shared_tasks (push_back (shared_tasks e1) t) e1) ∧
    (is_Some (shared_tasks_list e) →
       is_Some (shared_tasks_list (set_shared_tasks (push_back (shared_tasks e1) t) e1))) ∧
    (p = Debug → Task_is_local t = false)) as Hpush.
  { intros e1 Hp Hr Hl. split_and!; [|by eauto with orengine|done|done].
    unfold listed in *. simpl. unfold push_back. by rewrite app_assoc, Hp, Permutation_app_comm. }
  pose proof (reshared_refl e). destruct (is_work_sharing_enabled _); [destruct (_ <=? _)|]; outcome_inv; [by apply Hpush| |by apply Hpush].
  apply try_flush_Val in H0 as (Hp & Hr & Hl). by apply Hpush.
Qed.

Lemma spawn_shared_task_ok p lk t e :
  list_ok e → level_ok e → (p = Debug → Task_is_local t = false) →
  ∃ e', spawn_shared_task p lk t e = Val e'.
Proof.
  intros Hl Hlev Hloc. unfold spawn_shared_task.
  assert (debug_assert p (negb (Task_is_local t)) = Val ()) as -> by (destruct p; [by rewrite Hloc|done]).
  simpl. destruct (is_work_sharing_enabled _) eqn:Hw; [|by eexists].
  destruct (Z.leb_spec (len (shared_tasks e)) (work_sharing_level (config e))); [by eexists|].
  destruct (try_flush_ok lk e) as [e1 ->]; [by apply Hl|unfold level_ok, len in *; lia|]. by eexists.
Qed.
