(* ===== verification/ExecutorLoop.v ===== *)
(** * The parts of the executor's loop

    Models the rest of [src/src/runtime/executor/executor.rs]: taking work from
    other executors, the decision how long to wait at the end of a round, and
    what an executor leaves to the others when it stops; and proves what
    these parts, the sleeping tasks and a round of [exec_cpu_tasks] do when
    nothing interferes with them. *)

From Stdlib Require Import ZArith Lia Sorting.Sorted.
From S2P Require Import Prelude BTree Task Utils Config ThreadPool Executor.
Open Scope Z_scope.

(** ** [take_work_if_needed] *)
Definition MAX_NUMBER_OF_TASKS_TAKEN : Z := 16.

(** [for _ in 0..limit { if let Some(task) = list.pop() { .. } }] *)
Fixpoint pop_many (limit : nat) (tasks shared : list Task) : list Task * list Task :=
  match limit with
  | O => (tasks, shared)
  | S limit =>
      match pop_back tasks with
      | Some (t, tasks) => pop_many limit tasks (push_back shared t)
      | None => pop_many limit tasks shared
      end
  end.

(** The loop over the neighbours' lists; [tries] turns are left. *)
Fixpoint take_from_neighbours (p : profile) (tries : nat) (lists : list (bool * ExecutorSharedTaskList))
    (shared : list Task) : outcome (list (bool * ExecutorSharedTaskList) * list Task) :=
  match tries with
  | O => Val (lists, shared)
  | S tries =>
      x ← expect (head lists);
      limit ← usize_sub p MAX_NUMBER_OF_TASKS_TAKEN (len shared);
      if limit =? 0 then Val (lists, shared)
      else
        r ← take_batch x.1 x.2 shared (Z.to_nat limit);
        q ← take_from_neighbours p tries (tail lists) r.2;
        Val ((x.1, r.1) :: q.1, q.2)
  end.

(** [locked]: somebody holds the lock of the executor's own list; [lists] are
    the neighbours' lists with whether they are locked; [rng] is the random
    number drawn below their number. *)
Definition take_work_if_needed (p : profile) (locked : bool) (rng : nat)
    (tasks_lists : option (list (bool * ExecutorSharedTaskList))) (e : Executor)
    : outcome (Executor * option (list (bool * ExecutorSharedTaskList))) :=
  if work_sharing_level (config e) <=? len (shared_tasks e) then Val (e, tasks_lists)
  else
    match shared_tasks_list e with
    | None => Val (e, tasks_lists)
    | Some list =>
        if negb locked && negb (len (list_tasks list) =? 0) then
          limit ← usize_sub p (work_sharing_level (config e)) (len (shared_tasks e));
          let '(rest, shared) := pop_many (Z.to_nat limit) (list_tasks list) (shared_tasks e) in
          Val (set_shared_tasks shared
                 (set_shared_tasks_list (Some (mkExecutorSharedTaskList (list_executor_id list) rest)) e),
               tasks_lists)
        else
          lists ← unchecked tasks_lists;
          if len lists =? 0 then Val (e, Some lists)
          else
            r ← take_from_neighbours p (rng + 1) lists (shared_tasks e);
            Val (set_shared_tasks r.2 e, Some r.1)
    end.

(** ** The end of a round in [run]

    [worker]: whether there is an IO worker and, if so, whether it has work;
    durations in microseconds; [None] in [PollWorker] is a poll that does not
    wait. Returns the new state of the progressive timeout. *)
Inductive IdleAction :=
| PollWorker (timeout : option Z)
| SleepAtMost (duration : Z)
| Continue.

Definition timeout (pt : Z) : Z * Z := ProgressiveTimeout_timeout 131072 pt.
Definition timeout_with_shift (shift pt : Z) : Z * Z :=
  ProgressiveTimeout_timeout_with_shift 131072 shift pt.
Definition reset (pt : Z) : Z := ProgressiveTimeout_reset 64 pt.

Definition end_of_round (worker : option bool) (has_cpu_work : bool)
    (nearest_timeout_option : option Z) (pt : Z) : IdleAction * Z :=
  match worker with
  | Some true =>
      if negb has_cpu_work then
        let '(pt, max_timeout) := timeout_with_shift 2 pt in
        match nearest_timeout_option with
        | Some nearest_timeout => (PollWorker (Some (Z.min nearest_timeout max_timeout)), pt)
        | None => (PollWorker (Some max_timeout), pt)
        end
      else (PollWorker None, reset pt)
  | Some false =>
      if negb has_cpu_work then
        let '(pt, max_timeout) := timeout pt in
        match nearest_timeout_option with
        | Some nearest_timeout => (SleepAtMost (Z.min nearest_timeout max_timeout), pt)
        | None => (SleepAtMost max_timeout, pt)
        end
      else (Continue, reset pt)
  | None =>
      let '(pt, max_timeout) := timeout pt in
      match nearest_timeout_option with
      | Some nearest_timeout =>
          (if has_cpu_work then Continue else SleepAtMost (Z.min nearest_timeout max_timeout), reset pt)
      | None => if has_cpu_work then (Continue, reset pt) else (SleepAtMost max_timeout, pt)
      end
  end.

(** ** [graceful_stop]

    The loops wait for the locks, so both lists are taken. Returns the first
    neighbour's list. *)
Definition graceful_stop (tasks_lists : option (list ExecutorSharedTaskList)) (e : Executor)
    : outcome (option (list ExecutorSharedTaskList)) :=
  if is_work_sharing_enabled (config e) then
    lists ← unchecked tasks_lists;
    match lists with
    | [] => Val (Some [])
    | first_neighbor :: others =>
        own ← expect (shared_tasks_list e);
        Val (Some (mkExecutorSharedTaskList (list_executor_id first_neighbor)
                     (list_tasks first_neighbor ++ shared_tasks e ++ list_tasks own) :: others))
    end
  else Val tasks_lists.

(** ** Work sharing *)
Lemma pop_many_spec n l shared :
  pop_many n l shared = (take (length l - n) l, shared ++ reverse (drop (length l - n) l)).
Proof.
  revert l shared. induction n as [|n IH]; intros l shared; simpl.
  { by rewrite Nat.sub_0_r, take_ge, drop_ge, app_nil_r by done. }
  destruct (pop_back l) as [[t l']|] eqn:Hp.
  - apply pop_back_Some in Hp as ->. rewrite IH. rewrite length_app. simpl.
    replace (length l' + 1 - S n)%nat with (length l' - n)%nat by lia.
    rewrite take_app_le, drop_app_le by lia. unfold push_back.
    by rewrite reverse_app, <- app_assoc.
  - apply pop_back_None in Hp as ->. by rewrite IH.
Qed.

Definition tasks_of (lists : list (bool * ExecutorSharedTaskList)) : list Task :=
  concat (map (λ x, list_tasks x.2) lists).

Lemma take_from_neighbours_spec p tries lists shared :
  (tries ≤ length lists)%nat → len shared ≤ 16 →
  ∃ lists' taken, take_from_neighbours p tries lists shared = Val (lists', shared ++ taken) ∧
    taken ++ tasks_of lists' ≡ₚ tasks_of lists ∧ len (shared ++ taken) ≤ 16.
Proof.
  revert lists shared. induction tries as [|tries IH]; intros lists shared Ht Hlen; simpl.
  { exists lists, []. by rewrite app_nil_r. }
  destruct lists as [|[lk l] lists]; simpl in *; [lia|].
  unfold MAX_NUMBER_OF_TASKS_TAKEN. rewrite usize_sub_Val by done. simpl.
  destruct (Z.eqb_spec (16 - len shared) 0) as [Hz|Hz].
  { exists ((lk, l) :: lists), []. by rewrite app_nil_r. }
  destruct (take_batch_moves lk l shared (Z.to_nat (16 - len shared))) as (kept & taken & Hl & Hb & Hn).
  rewrite Hb. simpl.
  destruct (IH lists (shared ++ taken)) as (lists' & taken' & Hq & Hperm & Hlen'); [lia| |].
  { unfold len in *. rewrite length_app. destruct lk; lia. }
  rewrite Hq. simpl. eexists _, (taken ++ taken'). rewrite app_assoc. split_and!; [done| |done].
  unfold tasks_of in *. simpl. rewrite Hl, <- !app_assoc.
  rewrite <- Hperm, !app_assoc. f_equiv. rewrite <- !app_assoc, (Permutation_app_comm taken' kept).
  rewrite !app_assoc. f_equiv. apply Permutation_app_comm.
Qed.

(** The same without bounds, for a call that returns. *)
Lemma take_from_neighbours_Val p tries lists shared lists' shared' :
  take_from_neighbours p tries lists shared = Val (lists', shared') →
  ∃ taken, shared' = shared ++ taken ∧ taken ++ tasks_of lists' ≡ₚ tasks_of lists.
Proof.
  revert lists shared lists' shared'. induction tries as [|tries IH]; intros lists shared lists' shared'; simpl.
  { intros [= <- <-]. exists []. by rewrite app_nil_r. }
  destruct lists as [|[lk l] lists]; simpl; [done|].
  destruct (usize_sub p _ _) as [limit| |]; simpl; [|done..].
  destruct (limit =? 0); [intros [= <- <-]; exists []; by rewrite app_nil_r|].
  destruct (take_batch_moves lk l shared (Z.to_nat limit)) as (kept & taken & Hl & Hb & Hn).
  rewrite Hb. simpl. intros ([lists1 shared1] & Hq & [= <- <-])%outcome_bind_Val.
  apply IH in Hq as (taken' & -> & Hperm). exists (taken ++ taken'). rewrite app_assoc. split; [done|].
  unfold tasks_of in *. simpl. rewrite Hl, <- !app_assoc.
  rewrite <- Hperm, !app_assoc. f_equiv. rewrite <- !app_assoc, (Permutation_app_comm taken' kept).
  rewrite !app_assoc. f_equiv. apply Permutation_app_comm.
Qed.

Lemma take_work_Val p locked rng lists e e' lists' :
  take_work_if_needed p locked rng (Some lists) e = Val (e', Some lists') →
  ∃ taken, shared_tasks e' = shared_tasks e ++ taken ∧ reshared e e' ∧
    taken ++ listed e' ++ tasks_of lists' ≡ₚ listed e ++ tasks_of lists ∧
    (is_Some (shared_tasks_list e) → is_Some (shared_tasks_list e')).
Proof.
  unfold take_work_if_needed.
  assert (Val (e, Some lists) = Val (e', Some lists') →
    ∃ taken, shared_tasks e' = shared_tasks e ++ taken ∧ reshared e e' ∧
    taken ++ listed e' ++ tasks_of lists' ≡ₚ listed e ++ tasks_of lists ∧
    (is_Some (shared_tasks_list e) → is_Some (shared_tasks_list e'))) as Hnone.
  { intros [= <- <-]. exists []. rewrite app_nil_r. split_and!; eauto with orengine. }
  destruct (_ <=? _); [done|]. destruct (shared_tasks_list e) as [l|] eqn:Hl; [|done].
  destruct (_ && _).
  - intros (limit & _ & Hp)%outcome_bind_Val. rewrite pop_many_spec in Hp. injection Hp as <- <-.
    set (n := Z.to_nat _). eexists. split_and!; [done|by eexists _, _| |by eexists].
    unfold listed. simpl. rewrite Hl, app_assoc. f_equiv.
    rewrite reverse_Permutation, Permutation_app_comm, take_drop. done.
  - simpl. destruct (_ =? 0); [done|]. intros ([lists1 shared1] & Hq & [= <- <-])%outcome_bind_Val.
    apply take_from_neighbours_Val in Hq as (taken & -> & Hperm). exists taken.
    split_and!; [done|by eauto with orengine| |simpl; by rewrite ?Hl].
    unfold listed. simpl. rewrite Permutation_app_swap_app, Hperm. done.
Qed.

(** Taking work never loses or copies a task: what the executor gets at the
    end of its queue is gone from the list it was in. With a level of at most
    16 it never panics and never holds more than 16 shared tasks because of
    it. *)
Theorem take_work_spec (p : profile) (locked : bool) (rng : nat)
    (lists : list (bool * ExecutorSharedTaskList)) (e : Executor) :
  0 ≤ work_sharing_level (config e) ≤ 16 → (rng < length lists ∨ lists = [])%nat →
  ∃ e' lists' taken,
    take_work_if_needed p locked rng (Some lists) e = Val (e', Some lists') ∧
    shared_tasks e' = shared_tasks e ++ taken ∧ reshared e e' ∧
    taken ++ listed e' ++ tasks_of lists' ≡ₚ listed e ++ tasks_of lists ∧
    (taken = [] ∨ len (shared_tasks e') ≤ 16).
Proof.
  intros Hlev Hrng. unfold take_work_if_needed.
  assert (∃ e' lists' taken, Val (e, Some lists) = Val (e', Some lists') ∧
    shared_tasks e' = shared_tasks e ++ taken ∧ reshared e e' ∧
    taken ++ listed e' ++ tasks_of lists' ≡ₚ listed e ++ tasks_of lists ∧
    (taken = [] ∨ len (shared_tasks e') ≤ 16)) as Hnone.
  { exists e, lists, []. rewrite app_nil_r. split_and!; eauto with orengine. }
  destruct (Z.leb_spec (work_sharing_level (config e)) (len (shared_tasks e))) as [_|Hlt]; [done|].
  destruct (shared_tasks_list e) as [l|] eqn:Hl; [|done].
  destruct (negb locked && negb (len (list_tasks l) =? 0)).
  - rewrite usize_sub_Val by lia. cbn [mbind outcome_bind]. rewrite pop_many_spec.
    set (n := Z.to_nat _). eexists _, lists, _. split_and!; [done|done|by eexists _, _| |].
    + unfold listed. simpl. rewrite Hl, app_assoc. f_equiv.
      rewrite reverse_Permutation, Permutation_app_comm, take_drop. done.
    + right. simpl. unfold len in *. rewrite length_app, length_reverse, length_drop. lia.
  - simpl. destruct (Z.eqb_spec (len lists) 0) as [|Hne]; [done|].
    destruct (take_from_neighbours_spec p (rng + 1) lists (shared_tasks e)) as (lists' & taken & Hq & Hperm & Hlen).
    { destruct Hrng as [?| ->]; [lia|done]. }
    { lia. }
    rewrite Hq. simpl. eexists _, lists', taken. split_and!; [done|done|by eauto with orengine| |by right].
    unfold listed. simpl. rewrite Permutation_app_swap_app, Hperm. done.
Qed.

(** With a level over 16 it can be called with more than 16 shared tasks, and
    the number to take underflows: a panic in a debug build. *)
Theorem take_work_underflow (locked : bool) (rng : nat)
    (lists : list (bool * ExecutorSharedTaskList)) (e : Executor) (l : ExecutorSharedTaskList) :
  16 < len (shared_tasks e) < work_sharing_level (config e) →
  shared_tasks_list e = Some l → locked = true ∨ list_tasks l = [] → lists ≠ [] →
  take_work_if_needed Debug locked rng (Some lists) e = Panicked.
Proof.
  intros Hlen Hl Hlk Hne. unfold take_work_if_needed. rewrite (proj2 (Z.leb_gt _ _)), Hl by lia.
  assert (negb locked && negb (len (list_tasks l) =? 0) = false) as -> by (destruct Hlk as [->| ->]; [done|by destruct locked]).
  destruct lists as [|x lists]; [done|]. simpl. rewrite Nat.add_1_r. simpl.
  by rewrite usize_sub_underflow_Debug by (unfold MAX_NUMBER_OF_TASKS_TAKEN; lia).
Qed.

(** ** The end of a round *)

(** The states of the progressive timeout: 32 microseconds doubled at most
    twelve times. *)
Definition pt_ok (pt : Z) : Prop := ∃ k, 0 ≤ k ≤ 12 ∧ pt = 32 * 2 ^ k.

Lemma pt_ok_reset pt : pt_ok (reset pt).
Proof. by exists 0. Qed.

Lemma pt_ok_double pt :
  pt_ok pt → pt_ok (ProgressiveTimeout_double 131072 pt) ∧ 64 ≤ ProgressiveTimeout_double 131072 pt ≤ 131072.
Proof.
  intros (k & Hk & ->). assert (k = 12 ∨ k < 12) as [->|Hlt] by lia.
  - split; [by exists 12|by vm_compute].
  - assert (1 ≤ 2 ^ k ≤ 2 ^ 11) as Hp.
    { split; [|apply Z.pow_le_mono_r; lia]. pose proof (Z.pow_pos_nonneg 2 k). lia. }
    change (2 ^ 11) with 2048 in Hp. unfold ProgressiveTimeout_double.
    rewrite (proj2 (Z.ltb_lt _ _)) by lia. unfold u64_wrap. rewrite Z.shiftl_mul_pow2, Z.mod_small by lia.
    split; [|lia]. exists (k + 1). split; [lia|]. rewrite Z.pow_add_r by lia. lia.
Qed.

(** The executor never waits while it has tasks to run; otherwise it waits,
    for the IO worker or asleep, at most 131072 microseconds (four times that
    for the IO worker), and not past the nearest deadline it was told. *)
Theorem end_of_round_spec (worker : option bool) (has_cpu_work : bool) (nearest : option Z) (pt : Z) :
  pt_ok pt → (∀ d, nearest = Some d → 0 ≤ d) →
  pt_ok (end_of_round worker has_cpu_work nearest pt).2 ∧
  match (end_of_round worker has_cpu_work nearest pt).1 with
  | Continue => has_cpu_work = true
  | PollWorker None => has_cpu_work = true ∧ worker = Some true
  | PollWorker (Some d) =>
      has_cpu_work = false ∧ worker = Some true ∧ 0 ≤ d ≤ 4 * 131072 ∧
      (∀ d', nearest = Some d' → d ≤ d')
  | SleepAtMost d =>
      has_cpu_work = false ∧ worker ≠ Some true ∧ 0 ≤ d ≤ 131072 ∧ (∀ d', nearest = Some d' → d ≤ d')
  end.
Proof.
  intros Hpt Hnear. destruct (pt_ok_double pt Hpt) as [Hd Hb].
  assert (∀ x, 64 ≤ x ≤ 131072 → u64_wrap (Z.shiftl x 2) = 4 * x) as Hshift.
  { intros x Hx. unfold u64_wrap. rewrite Z.shiftl_mul_pow2, Z.mod_small by lia. lia. }
  unfold end_of_round, timeout, timeout_with_shift, ProgressiveTimeout_timeout,
    ProgressiveTimeout_timeout_with_shift. rewrite (Hshift _ Hb).
  pose proof (pt_ok_reset pt) as Hr.
  destruct worker as [[]|], has_cpu_work, nearest as [d|]; simpl; try (specialize (Hnear d eq_refl));
    split_and!; try done; try lia; intros ? [= <-]; lia.
Qed.

(** ** Sleeping tasks *)
Lemma sleep_loop_full fuel u t l x :
  insert_first_free fuel u t l = Some x → u ≤ INSTANT_MAX → INSTANT_MAX < x.1 →
  sleep_loop fuel u t l = Panicked.
Proof.
  revert u. induction fuel as [|fuel IH]; intros u; simpl; [done|].
  destruct (btree_set_insert u t l) as [[] l'] eqn:Hb; [intros [= <-]; simpl; lia|].
  intros Hx Hu Hlt. unfold instant_add. destruct (Z.leb_spec (u + 1) INSTANT_MAX); simpl; [|done].
  by apply IH.
Qed.

(** C37: [sleep] fixes its deadline when it is called, at
    [start_round_time_for_deadlines] (on Linux the start of the round plus 100
    microseconds) plus the duration, and panics if that is past the last
    [Instant]. The first poll, whenever and by whatever executor state it is
    made, puts the task to sleep without disturbing the others, under the first
    free nanosecond from that deadline on, if there is one up to the last
    [Instant]; it panics if all of these are taken. The second poll is ready. *)
Theorem sleep_spec (duration : Z) (e0 : Executor) (t : Task) (e : Executor) :
  keys_sorted (local_sleeping_tasks e) →
  let u := start_round_time_for_deadlines e0 + duration in
  (INSTANT_MAX < u → sleep duration e0 = Panicked) ∧
  (u ≤ INSTANT_MAX → sleep duration e0 = Val (mkSleep false u) ∧
    ∃ k, u ≤ k ∧ (k ∉ (local_sleeping_tasks e).*1) ∧
      (∀ j, u ≤ j < k → j ∈ (local_sleeping_tasks e).*1) ∧
      let l := btree_insert k t (local_sleeping_tasks e) in
      if k <=? INSTANT_MAX then
        sleep_poll (mkSleep false u) t e = Val (mkSleep true k, set_sleeping l e, Pending) ∧
        keys_sorted l ∧ l ≡ₚ (k, t) :: local_sleeping_tasks e ∧
        ∀ e', sleep_poll (mkSleep true k) t e' = Val (mkSleep true k, e', Ready ())
      else sleep_poll (mkSleep false u) t e = Panicked).
Proof.
  intros Hs u. unfold sleep, instant_add. split; intros Hu; fold u.
  - by rewrite (proj2 (Z.leb_gt _ _)).
  - rewrite (proj2 (Z.leb_le _ _)) by done. split; [done|].
    destruct (insert_first_free_spec u t (local_sleeping_tasks e)) as (k & Hk & Hle & Hn & Hj).
    exists k. split_and!; [done..|]. unfold sleep_poll. cbn [was_yielded sleep_until].
    destruct (Z.leb_spec k INSTANT_MAX) as [Hin|Hout].
    + rewrite (sleep_loop_ends _ _ _ _ _ Hk) by done.
      split_and!; [done|by apply btree_insert_sorted|by apply btree_insert_Permutation|done].
    + rewrite (sleep_loop_full _ _ _ _ _ Hk Hu) by done. done.
Qed.

(** [check_sleeping_tasks] takes the tasks whose time has come in the order of
    their deadlines, one per turn, so it ends unless the tasks it executes
    sleep anew; each is executed or queued. It stops at the first that is not
    due and leaves it and the rest asleep; the duration it then returns is
    not the time to that deadline but always zero. *)
Theorem check_sleeping_spec (p : profile) (locked : bool) (e : Executor) :
  keys_sorted (local_sleeping_tasks e) → list_ok e → level_ok e →
  match local_sleeping_tasks e with
  | [] => check_sleeping_turn p locked e = Val (NothingDue e None)
  | (k, t) :: rest =>
      if k <=? start_round_time e then
        ∃ e' o, check_sleeping_turn p locked e = Val (Woken e' o) ∧ local_sleeping_tasks e' = rest ∧
          (o = Some t ∧ e' = set_sleeping rest e ∨
           o = None ∧ (local_tasks e' = local_tasks e ++ [t] ∨
                       listed e' ++ shared_tasks e' ≡ₚ t :: listed e ++ shared_tasks e))
      else check_sleeping_turn p locked e = Val (NothingDue e (Some 0))
  end.
Proof.
  intros Hs Hl Hlev. unfold check_sleeping_turn.
  destruct (local_sleeping_tasks e) as [|[k t] rest] eqn:Hsl; [done|].
  simpl. destruct (Z.leb_spec k (start_round_time e)) as [Hle|Hgt].
  - destruct (Task_is_local t) eqn:Ht.
    + unfold exec_task. simpl. destruct (exec_series e <? 63).
      * eexists _, _. split_and!; [done|done|by left].
      * rewrite Ht. unfold spawn_local_task. rewrite Ht, debug_assert_true. simpl.
        eexists _, _. split_and!; [done|done|]. right. split; [done|]. by left.
    + destruct (spawn_shared_task_ok p locked t (set_sleeping rest e)) as [e' He']; [done..|].
      rewrite He'. simpl. eexists e', None.
      destruct (spawn_shared_task_Val _ _ _ _ _ He') as (Hp & (tl & l' & ->) & _).
      split_and!; [done|done|]. right. split; [done|]. by right.
  - rewrite btree_insert_first by done. do 3 f_equal; [destruct e; simpl in *; by subst|lia].
Qed.

(** ** A round of tasks that yield

    The first loop of [exec_cpu_tasks] when every task, polled, only yields. *)
Fixpoint yield_round (p : profile) (locked : bool) (n : nat) (e : Executor)
    : outcome (Executor * list Task) :=
  match n with
  | O => Val (e, [])
  | S n =>
      r ← local_round_turn p locked e;
      match r.2 with
      | Some t =>
          x ← exec_task_now_begin p false false t r.1;
          e ← yield_now p x.2 x.1;
          y ← yield_round p locked n e;
          Val (y.1, x.2 :: y.2)
      | None => yield_round p locked n r.1
      end
  end.

Definition at_home (e : Executor) (t : Task) : Prop :=
  Task_is_local t = true ∧ executor_id t = ex_id e.

(** The last task of the queue is executed. *)
Lemma home_turn p locked e l t :
  local_tasks e = l ++ [t] → 0 ≤ exec_series e < 63 → at_home e t →
  local_round_turn p locked e = Val (set_local_tasks l e, Some t) ∧
  exec_task_now_begin p false false t (set_local_tasks l e) =
    Val (set_exec_series (exec_series e + 1) (set_local_tasks l e), t).
Proof.
  intros Hl Hs [Ht Hid]. unfold local_round_turn. rewrite Hl.
  replace (negb (len (l ++ [t]) =? 0)) with true
    by (unfold len; rewrite length_app; simpl; symmetry; apply negb_true_iff, Z.eqb_neq; lia).
  simpl. rewrite pop_back_snoc. simpl. unfold exec_task. simpl.
  rewrite (proj2 (Z.ltb_lt _ _)) by lia. split; [done|].
  unfold exec_task_now_begin. simpl. rewrite usize_add_Val by (unfold usize_modulus; lia). simpl.
  destruct p; [|done]. unfold Task_check_safety. simpl. by rewrite Hid, Z.eqb_refl, andb_false_r.
Qed.

Lemma yield_local p t e :
  Task_is_local t = true → yield_now p t e = Val (set_local_tasks (t :: local_tasks e) e).
Proof. intros Ht. unfold yield_now, add_task_at_the_start_of_lifo_local_queue. by rewrite Ht, debug_assert_true. Qed.

Lemma yield_round_spec p locked n e l q :
  local_tasks e = l ++ q → length q = n → 0 ≤ exec_series e → exec_series e + Z.of_nat n ≤ 63 →
  Forall (at_home e) q →
  yield_round p locked n e =
    Val (set_local_tasks (q ++ l) (set_exec_series (exec_series e + Z.of_nat n) e), reverse q).
Proof.
  revert e l q. induction n as [|n IH]; intros e l q Hl Hq H0 Hs Hf; simpl.
  - destruct q; [|done]. rewrite app_nil_r in Hl. rewrite Z.add_0_r. destruct e; simpl in *. by subst.
  - destruct (decide (q = [])) as [->|Hne]; [done|]. destruct (exists_last Hne) as (q' & t & ->).
    rewrite length_app in Hq. simpl in Hq. apply Forall_app in Hf as [Hf Ht]. rewrite Forall_singleton in Ht.
    destruct (home_turn p locked e (l ++ q') t) as [-> Hx]; [by rewrite Hl, app_assoc|lia|exact Ht|].
    simpl. rewrite Hx. simpl. rewrite yield_local by apply Ht. simpl.
    rewrite (IH _ (t :: l) q'); [|done|lia|simpl; lia|simpl; lia|done]. simpl.
    rewrite reverse_app. unfold set_local_tasks, set_exec_series. simpl. rewrite <- app_assoc.
    do 3 f_equal. lia.
Qed.

(** When the local tasks of a round (at most 63) do nothing but yield, each is
    executed exactly once in the round, the last one first, and the queue ends
    as it began: a task that yields waits for all the others. *)
Theorem local_round_fair (p : profile) (locked : bool) (now : Z) (e : Executor) :
  Forall (at_home e) (local_tasks e) → (length (local_tasks e) ≤ 63)%nat →
  ∃ e', yield_round p locked (length (local_tasks e)) (prepare_to_new_round now e) =
      Val (e', reverse (local_tasks e)) ∧ local_tasks e' = local_tasks e.
Proof.
  intros Hf Hlen. eexists. split; [eapply (yield_round_spec _ _ _ _ [] (local_tasks e)); simpl; try done; lia|].
  simpl. by rewrite app_nil_r.
Qed.

(** ** Stopping *)

(** An executor that stops hands its shared tasks, the queued ones first, to
    its first neighbour, at the end of the neighbour's list; without a
    neighbour they are dropped. *)
Theorem graceful_stop_spec (lists : list ExecutorSharedTaskList) (e : Executor) :
  is_work_sharing_enabled (config e) = true → list_ok e →
  graceful_stop (Some lists) e =
    Val (Some (match lists with
               | [] => []
               | first :: others =>
                   mkExecutorSharedTaskList (list_executor_id first)
                     (list_tasks first ++ shared_tasks e ++ listed e) :: others
               end)).
Proof.
  intros Hw Hl. unfold graceful_stop, listed. rewrite Hw. simpl. destruct lists as [|x l]; [done|].
  destruct (Hl Hw) as [own ->]. done.
Qed.

(** ** Witnesses *)
Definition ex_executor : Executor := Executor_new 1 1000 Config_default.

Lemma take_work_spec_witness :
  ∃ e' lists' taken,
    take_work_if_needed Debug false 0
      (Some [(false, mkExecutorSharedTaskList 1 [ex_shared_task 1; ex_shared_task 2])]) ex_executor
      = Val (e', Some lists') ∧ shared_tasks e' = shared_tasks ex_executor ++ taken.
Proof.
  destruct (take_work_spec Debug false 0
    [(false, mkExecutorSharedTaskList 1 [ex_shared_task 1; ex_shared_task 2])] ex_executor)
    as (e' & lists' & taken & H1 & H2 & _); [vm_compute; by split|left; simpl; lia|].
  by exists e', lists', taken.
Defined.

Lemma take_work_underflow_witness :
  let e := set_shared_tasks (replicate 17 (ex_shared_task 1))
             (Executor_new 0 0 (set_work_sharing_level 20 Config_default)) in
  take_work_if_needed Debug false 0 (Some [(false, ExecutorSharedTaskList_new 1)]) e = Panicked.
Proof.
  intros e. apply (take_work_underflow false 0 _ e (ExecutorSharedTaskList_new 0));
    [vm_compute; by split|reflexivity|by right|done].
Defined.

Lemma end_of_round_spec_witness :
  pt_ok 32 ∧ (end_of_round None false None 32).1 = SleepAtMost 64 ∧
  pt_ok (end_of_round None false None 32).2.
Proof.
  assert (pt_ok 32) as H by by exists 0. split_and!; [done|reflexivity|].
  apply (end_of_round_spec None false None 32 H). done.
Defined.

Lemma sleep_spec_witness :
  let e := set_sleeping [(101000, ex_task 1); (101001, ex_task 2)] ex_executor in
  sleep 0 ex_executor = Val (mkSleep false 101000) ∧
  (∃ k, 101000 ≤ k ∧ ∀ j, 101000 ≤ j < k → j ∈ (local_sleeping_tasks e).*1) ∧
  sleep (2 ^ 64 * 1000000000) ex_executor = Panicked.
Proof.
  intros e. assert (keys_sorted (local_sleeping_tasks e)) as Hk by (simpl; repeat constructor; lia).
  destruct (sleep_spec 0 ex_executor (ex_task 3) e Hk) as (_ & H1).
  destruct (sleep_spec (2 ^ 64 * 1000000000) ex_executor (ex_task 3) e Hk) as (H2 & _).
  destruct H1 as (H1 & k & H3 & _ & H4 & _); [vm_compute; discriminate|].
  split; [exact H1|]. split; [exists k; split; [exact H3|exact H4]|]. apply H2. vm_compute. reflexivity.
Defined.

Lemma check_sleeping_spec_witness :
  let e := set_sleeping [(500, ex_task 1); (2000, ex_task 2)] ex_executor in
  ∃ e' o, check_sleeping_turn Debug false e = Val (Woken e' o) ∧
    local_sleeping_tasks e' = [(2000, ex_task 2)].
Proof.
  intros e. pose proof (check_sleeping_spec Debug false e) as H. simpl in H.
  destruct H as (e' & o & H1 & H2 & _).
  - repeat constructor; lia.
  - by eexists.
  - by vm_compute.
  - by exists e', o.
Defined.

Lemma local_round_fair_witness :
  let e := set_local_tasks [ex_task 1; ex_task 2; ex_task 3] ex_executor in
  ∃ e', yield_round Debug false 3 (prepare_to_new_round 5000 e) =
      Val (e', [ex_task 3; ex_task 2; ex_task 1]) ∧ local_tasks e' = [ex_task 1; ex_task 2; ex_task 3].
Proof.
  intros e. apply (local_round_fair Debug false 5000 e); [|simpl; lia].
  repeat constructor.
Defined.

Lemma graceful_stop_spec_witness :
  let e := set_shared_tasks [ex_shared_task 1] ex_executor in
  graceful_stop (Some [mkExecutorSharedTaskList 1 [ex_shared_task 2]]) e =
    Val (Some [mkExecutorSharedTaskList 1 [ex_shared_task 2; ex_shared_task 1]]).
Proof.
  intros e. apply (graceful_stop_spec [mkExecutorSharedTaskList 1 [ex_shared_task 2]] e);
    [reflexivity|intros _; by eexists].
Defined.
