(* ===== verification/IoExecutor.v ===== *)
(** * IO workers and the executor

    What the actions of a worker do to the executor it belongs to
    ([src/src/runtime/executor/executor.rs]): the workers of [IoUringSystem]
    and [FallbackSystem] composed with the queues of [Executor]. *)

From Stdlib Require Import ZArith Lia Sorting.Sorted.
From S2P Require Import Prelude BTree Task Utils Config ThreadPool Executor ExecutorLoop.
From S2P Require Import IoTypes Fallback.
From S2P Require IoUring IoUringSystem FallbackWorker FallbackSystem.

Local Open Scope Z_scope.

(** The task, if any, that is to be executed at once. *)
Definition run_action (p : profile) (locked : bool) (act : Action) (e : Executor)
    : outcome (Executor * option Task) :=
  match act with
  | ExecTask t => exec_task p locked t e
  | SpawnLocalTask t => e ← spawn_local_task p t e; Val (e, None)
  | SpawnSharedTask t => e ← spawn_shared_task p locked t e; Val (e, None)
  | InvokeCall c => e ← invoke_call p c e; Val (e, None)
  end.

(** Where a task that was handed to an executor is. *)
Definition received (t : Task) (e e' : Executor) (o : option Task) : Prop :=
  o = Some t ∧ e' = e ∨
  o = None ∧ (local_tasks e' = local_tasks e ++ [t] ∨
              listed e' ++ shared_tasks e' ≡ₚ t :: listed e ++ shared_tasks e).

Lemma exec_or_spawn_received p locked t e :
  list_ok e → level_ok e →
  ∃ e' o, run_action p locked (exec_or_spawn t) e = Val (e', o) ∧ received t e e' o.
Proof.
  intros Hl Hlev. unfold exec_or_spawn, received. destruct (Task_is_local t) eqn:Ht; simpl.
  - unfold exec_task. destruct (exec_series e <? 63); [eauto 6|]. simpl. rewrite Ht.
    unfold spawn_local_task. rewrite Ht, debug_assert_true. simpl. eexists _, _. split; [done|]. right.
    split; [done|]. by left.
  - destruct (spawn_shared_task_ok p locked t e) as [e' He']; [done..|]. rewrite He'. simpl.
    apply spawn_shared_task_Val in He' as (Hp & _). eexists _, _. split; [done|]. right. split; [done|]. by right.
Qed.

(** C13: on a ring with two entries or more that starts empty, every completion
    the io_uring worker reads for a request wakes the task that made it: the
    turn of the loop in [must_poll] gives the executor exactly one action,
    which passes its checks in both build profiles and leaves the task to be
    executed now or in one of its queues. The executor has a list of
    shared tasks if its config enables work sharing, and its level of work
    sharing is not negative. *)
Theorem io_uring_completion_wakes {R : Type} `{IoUring.RingLaws R} (p : profile) (r : R)
    (probe : Z → bool) (now : Z) (s : IoUringSystem.Sys) (c : IoUring.Cqe) (cs : list IoUring.Cqe)
    (locked : bool) (e : Executor) :
  IoUringSystem.ring_ok r → IoUringSystem.ring_entries r = [] →
  rtc (IoUringSystem.step p) (IoUringSystem.init r probe now) s →
  IoUringSystem.todo s = c :: cs → IoUring.cqe_user_data c ≠ IoUring.ASYNC_CLOSE_DATA →
  list_ok e → level_ok e →
  ∃ f m' act e' o, IoUringSystem.mem s !! IoUring.cqe_user_data c = Some f ∧
    IoUring.must_poll_turn p c (IoUringSystem.mem s) = Val (m', [act]) ∧
    run_action p locked act e = Val (e', o) ∧ received (task (io_request_data f)) e e' o.
Proof.
  intros Hr He Hs Ht Hc Hl Hlev. apply IoUringSystem.uring_reachable in Hs as HI; [|done..].
  destruct (IoUringSystem.inv_turn p s c cs ∅ HI Ht) as (m' & acts & Heq & _ & [(? & _)|(_ & f & w & Hf & -> & _)]);
    [done|].
  destruct (exec_or_spawn_received p locked (task (io_request_data f)) e Hl Hlev) as (e' & o & Hrun & Hrec).
  eexists f, m', _, e', o. done.
Qed.


(** On a kernel whose ring cannot create sockets, the io_uring worker spawns
    the task that creates one as a local task: a shared task panics in a debug
    build, and in a release build it is put in the queue of local tasks. *)
Theorem io_uring_socket_shared_task (p : profile) (answer : Result Z) (a : Z) (f : Fut)
    (m : IoTypes.Mem) (locked : bool) (e : Executor) :
  m !! a = Some f → Task_is_local (task (io_request_data f)) = false →
  was_executed (io_request_data f) = false →
  ∃ m' act, IoUring.socket_now p answer a m = Val (m', [act]) ∧
    run_action p locked act e = match p with
      | Debug => Panicked
      | Release => Val (set_local_tasks (local_tasks e ++ [task (io_request_data f)]) e, None)
      end.
Proof.
  intros Hf Hsh Hwe. unfold IoUring.socket_now, get_mut, IoRequestData_task. rewrite Hf. simpl.
  destruct p; simpl; rewrite ?Hwe; simpl; eexists _, _; (split; [done|]); simpl; unfold spawn_local_task; simpl.
  - by rewrite Hsh.
  - done.
Qed.

(** ** Witnesses *)

Definition io_ex : Executor := Executor_new 1 0 Config_default.

Lemma io_ex_ok : list_ok io_ex ∧ level_ok io_ex.
Proof. split; [intros _; eexists; reflexivity|unfold level_ok; simpl; lia]. Qed.

Definition io_ex_ring : IoUringSystem.Sim := IoUringSystem.new_ring 2 [] [[7]].

Definition io_ex_done : @IoUringSystem.Sys IoUringSystem.Sim := IoUringSystem.mkSys
  (IoUring.mkWorker (IoUringSystem.mkSim (IoUring.mkView 2 1 [] [] []) [] []) [] (λ _, true) [] 0)
  {[8 := mkFut (IoRequestData_new (IoUringSystem.ex_task 1)) None]} [IoUring.mkCqe 8 7] ∅ ∅ 0.

Lemma io_ex_done_reachable :
  rtc (IoUringSystem.step Debug) (IoUringSystem.init io_ex_ring (λ _, true) 0) io_ex_done.
Proof.
  io_step (IoUringSystem.step_begin Debug _ (Ok 0) 8 (IoUringSystem.ex_task 1) (Net (recv 3 0 9))).
  io_step (IoUringSystem.step_poll Debug _ None).
  apply rtc_refl.
Qed.

Lemma io_uring_completion_wakes_witness :
  ∃ m' act e' o, IoUring.must_poll_turn Debug (IoUring.mkCqe 8 7) (IoUringSystem.mem io_ex_done) = Val (m', [act]) ∧
    run_action Debug false act io_ex = Val (e', o) ∧ received (IoUringSystem.ex_task 1) io_ex e' o.
Proof.
  destruct io_ex_ok as [Hl Hlev].
  destruct (io_uring_completion_wakes Debug io_ex_ring (λ _, true) 0 io_ex_done (IoUring.mkCqe 8 7) [] false io_ex)
    as (f & m' & act & e' & o & Hf & Ht & Hrun & Hrec).
  - split; vm_compute; repeat constructor.
  - reflexivity.
  - exact io_ex_done_reachable.
  - reflexivity.
  - discriminate.
  - exact Hl.
  - exact Hlev.
  - vm_compute in Hf. injection Hf as <-. exists m', act, e', o. done.
Defined.

Definition io_ex_shared (n : Z) : Task := mkTask (TaskData_new (fat_ptr n 1) Locality_shared) 1 n.

Definition io_ex_mem : IoTypes.Mem := {[8 := mkFut (IoRequestData_new (io_ex_shared 1)) None]}.


Lemma io_uring_socket_shared_task_witness :
  ∃ m' act, IoUring.socket_now Debug (Ok 3) 8 io_ex_mem = Val (m', [act]) ∧
    run_action Debug false act io_ex = Panicked.
Proof.
  apply (io_uring_socket_shared_task Debug (Ok 3) 8 (mkFut (IoRequestData_new (io_ex_shared 1)) None) io_ex_mem
    false io_ex); reflexivity.
Defined.
