(* ===== verification/ExecutorApi.v ===== *)
(** * The interface of the executor

    Models what a program calls to get its futures run
    ([src/src/runtime/executor/executor.rs]): the executor of the current
    thread, [spawn_local] and [spawn_shared], [exec_local_future] and
    [exec_shared_future], the functions that send a future to another
    executor, [run_and_block_on_local] and [run_and_block_on_shared] with the
    future they wrap ([end_local_thread_and_write_into_ptr.rs]), and the
    wakers of [src/src/runtime/waker/waker.rs].

    A waker holds the address of the variable [task] of the call of
    [exec_task_now] that polls the task; [Stack] has the variables of the
    calls that have not returned. *)

From Stdlib Require Import ZArith Lia Sorting.Sorted.
From S2P Require Import Prelude BTree Task Utils Config ThreadPool Executor ExecutorLoop.
From S2P Require Interactor GlobalState.
Open Scope Z_scope.

(** ** The executor of the thread *)
Definition local_executor (p : profile) (LOCAL_EXECUTOR : option Executor) : outcome Executor :=
  match p, LOCAL_EXECUTOR with
  | _, Some e => Val e
  | Debug, None => Panicked
  | Release, None => Undefined
  end.

(** [init_on_core_with_config]: [FREE_EXECUTOR_ID] is the next id. Pinning the
    thread to a core and the thread's IO worker and buffer pool are left out. *)
Definition init_on_core_with_config (p : profile) (now : Z) (c : Config)
    (LOCAL_EXECUTOR : option Executor) (FREE_EXECUTOR_ID : Z) : StatsM (Executor * Z) :=
  match LOCAL_EXECUTOR with
  | Some e => stats_ret (e, FREE_EXECUTOR_ID)
  | None =>
      stats_bind (validate p c) (λ valid_config,
      stats_ret (Executor_new FREE_EXECUTOR_ID now valid_config, usize_wrap (FREE_EXECUTOR_ID + 1)))
  end.

(** ** Futures *)
Section futures.
Context (size_of : Z → Z) (p : profile) (cfg_test locked : bool).

(** [Task::from_future] with the pool of the executor: [fresh] and [flag] are
    the addresses of new memory, should the pool have none. *)
Definition from_future (fresh flag future : Z) (l : Locality) (e : Executor) (heap : gmap Z Z)
    : Task * Executor * gmap Z Z :=
  let '(t, pool, heap) :=
    TaskPool_acquire size_of cfg_test (ex_id e) fresh flag (task_pool e) heap future l in
  (t, set_task_pool pool e, heap).

Definition spawn_local (fresh flag future : Z) (e : Executor) (heap : gmap Z Z)
    : outcome (Executor * gmap Z Z) :=
  let '(t, e, heap) := from_future fresh flag future Locality_local e heap in
  e ← spawn_local_task p t e;
  Val (e, heap).

Definition spawn_shared (fresh flag future : Z) (e : Executor) (heap : gmap Z Z)
    : outcome (Executor * gmap Z Z) :=
  let '(t, e, heap) := from_future fresh flag future Locality_shared e heap in
  e ← spawn_shared_task p locked t e;
  Val (e, heap).

(** The last result is a task to be executed now, as for [exec_task]. *)
Definition exec_local_future (fresh flag future : Z) (e : Executor) (heap : gmap Z Z)
    : outcome (Executor * option Task * gmap Z Z) :=
  let '(t, e, heap) := from_future fresh flag future Locality_local e heap in
  r ← exec_task p locked t e;
  Val (r, heap).

Definition exec_shared_future (fresh flag future : Z) (e : Executor) (heap : gmap Z Z)
    : outcome (Executor * option Task * gmap Z Z) :=
  let '(t, e, heap) := from_future fresh flag future Locality_shared e heap in
  r ← exec_task p locked t e;
  Val (r, heap).

(** [send_task_to_executor]: the executor with its interactor. *)
Definition send_task_to_executor (t : Task) (executor_id : nat) (e : Executor)
    (i : Interactor.Interactor)
    : outcome (Executor * Interactor.Interactor * Interactor.SendTaskResult) :=
  if negb (Z.of_nat executor_id =? ex_id e) then
    let '(i, r) := Interactor.send_task_to_executor t executor_id i in Val (e, i, r)
  else
    e ← spawn_task p locked t e;
    Val (e, i, Interactor.SendOk).

Definition send_local_future_to_executor (fresh flag future : Z) (executor_id : nat)
    (e : Executor) (i : Interactor.Interactor) (heap : gmap Z Z)
    : outcome (Executor * Interactor.Interactor * Interactor.SendTaskResult * gmap Z Z) :=
  let '(t, e, heap) := from_future fresh flag future Locality_local e heap in
  r ← send_task_to_executor t executor_id e i;
  Val (r, heap).

Definition send_shared_future_to_executor (fresh flag future : Z) (executor_id : nat)
    (e : Executor) (i : Interactor.Interactor) (heap : gmap Z Z)
    : outcome (Executor * Interactor.Interactor * Interactor.SendTaskResult * gmap Z Z) :=
  let '(t, e, heap) := from_future fresh flag future Locality_shared e heap in
  r ← send_task_to_executor t executor_id e i;
  Val (r, heap).

End futures.

(** ** Wakers *)
Abbreviation Stack := (gmap Z Task).

Record Waker := mkWaker { data_ptr : Z }.

Definition create_waker (task_ptr : Z) : Waker := mkWaker task_ptr.

Definition clone (w : Waker) : Waker := mkWaker (data_ptr w).

(** [generate_wake!], the body of [wake] and [wake_by_ref]; the executor is
    that of the thread that calls it. *)
Definition wake (p : profile) (locked : bool) (w : Waker) (stack : Stack)
    (LOCAL_EXECUTOR : option Executor) : outcome Executor :=
  t ← unchecked (stack !! data_ptr w);
  e ← local_executor p LOCAL_EXECUTOR;
  if Task_is_local t then spawn_local_task p t e else spawn_shared_task p locked t e.

(** [exec_task_now], whose variable [task] is at [task_ptr], with the code of
    the task's future as a parameter. The stack it returns is that of the
    caller afterwards. The task it returns is one that [handle_call] executes
    before that, by another call of this function. *)
Definition exec_task_now (size_of : Z → Z) (p : profile) (cfg_test executing locked : bool)
    (poll : Waker → Stack → Executor → Mem → outcome (Poll () * Executor * Mem))
    (task_ptr : Z) (t : Task) (stack : Stack) (e : Executor) (m : Mem)
    : outcome (Stack * Executor * Mem * option Task) :=
  r ← exec_task_now_begin p cfg_test executing t e;
  let '(e, t) := (r : Executor * Task) in
  let waker := create_waker task_ptr in
  r ← poll waker (<[task_ptr := t]> stack) e m;
  let '(poll_res, e, m) := (r : Poll () * Executor * Mem) in
  r ← exec_task_now_end size_of p locked t poll_res e m;
  let '(e, m, next) := (r : Executor * Mem * option Task) in
  Val (delete task_ptr stack, e, m, next).

(** ** Blocking on a future *)
Section block_on.
Context {R : Type}.

(** The variables [res] of the calls of [run_and_block_on_*]. *)
Abbreviation Results := (gmap Z (option R)).

Record EndLocalThreadAndWriteIntoPtr := mkEnd { res_ptr : Z; end_executor_id : nat }.

Definition EndLocalThreadAndWriteIntoPtr_new (ptr : Z) (local : Executor)
    : EndLocalThreadAndWriteIntoPtr := mkEnd ptr (Z.to_nat (ex_id local)).

(** [inner] is what the poll of the wrapped future returned. *)
Definition EndLocalThreadAndWriteIntoPtr_poll (p : profile) (this : EndLocalThreadAndWriteIntoPtr)
    (inner : Poll R) (results : Results) (w : GlobalState.World)
    : outcome (Poll () * Results * GlobalState.World) :=
  match inner with
  | Pending => Val (Pending, results, w)
  | Ready res =>
      _ ← unchecked (results !! res_ptr this);
      w ← GlobalState.stop_executor p (end_executor_id this) w;
      Val (Ready (), <[res_ptr this := Some res]> results, w)
  end.

(** The polls of the wrapped future, which is not polled again once it is
    ready: [inner] is what they return. *)
Fixpoint end_polls (p : profile) (this : EndLocalThreadAndWriteIntoPtr) (inner : list (Poll R))
    (results : Results) (w : GlobalState.World) : outcome (Results * GlobalState.World) :=
  match inner with
  | [] => Val (results, w)
  | x :: inner =>
      r ← EndLocalThreadAndWriteIntoPtr_poll p this x results w;
      let '(poll_res, results, w) := (r : Poll () * Results * GlobalState.World) in
      match poll_res with
      | Ready _ => Val (results, w)
      | Pending => end_polls p this inner results w
      end
  end.

(** [generate_run_and_block_on_function!]: [spawn] is [spawn_local] or
    [spawn_shared] of the wrapped future; [inner] is what the polls of the
    future return that are made while [run] lasts, by this executor or
    another one. The variable [res] is at [ptr] until the call returns; an
    [Err] of the source is [None]. *)
Definition run_and_block_on (p : profile)
    (spawn : EndLocalThreadAndWriteIntoPtr → Executor → outcome Executor)
    (inner : list (Poll R)) (ptr : Z) (e : Executor) (results : Results) (w : GlobalState.World)
    : outcome (option R * Results * GlobalState.World) :=
  let static_future := EndLocalThreadAndWriteIntoPtr_new ptr e in
  e ← spawn static_future e;
  r ← end_polls p static_future inner (<[ptr := None]> results) w;
  let '(results, w) := (r : Results * GlobalState.World) in
  res ← unchecked (results !! ptr);
  Val (res, delete ptr results, w).

End block_on.

(** ** What becomes of a future

    [t] is queued in [e'] by its locality, and the queues have nothing else
    that they did not have in [e]. *)
Definition queued (t : Task) (e e' : Executor) : Prop :=
  if Task_is_local t
  then local_tasks e' = local_tasks e ++ [t] ∧ shared_tasks e' = shared_tasks e ∧ listed e' = listed e
  else local_tasks e' = local_tasks e ∧ listed e' ++ shared_tasks e' ≡ₚ t :: listed e ++ shared_tasks e.

Lemma spawn_task_queued p locked t e :
  list_ok e → level_ok e → ∃ e', spawn_task p locked t e = Val e' ∧ queued t e e'.
Proof.
  intros Hl Hlev. unfold spawn_task, queued. destruct (Task_is_local t) eqn:Ht.
  - unfold spawn_local_task. rewrite Ht, debug_assert_true. by eexists.
  - destruct (spawn_shared_task_ok p locked t e) as [e' He']; [done..|].
    destruct (spawn_shared_task_Val _ _ _ _ _ He') as (Hp & (ts & l & ->) & _). by eexists.
Qed.

Lemma spawn_local_task_spawn p locked t e :
  Task_is_local t = true → spawn_local_task p t e = spawn_task p locked t e.
Proof. unfold spawn_task. by intros ->. Qed.

Lemma spawn_shared_task_spawn p locked t e :
  Task_is_local t = false → spawn_shared_task p locked t e = spawn_task p locked t e.
Proof. unfold spawn_task. by intros ->. Qed.

(** A task of the future [future], in memory of its own. *)
Record fresh_task (future : Z) (l : Locality) (t : Task) (heap : gmap Z Z) : Prop := {
  ft_local : Task_is_local t = Locality_is_local l;
  ft_vtable : task_vtable t = future;
  ft_heap : heap !! task_addr t = Some future;
}.

Section futures_lemmas.
Context (size_of : Z → Z) (p : profile) (cfg_test locked : bool) (fresh flag future : Z).
Context (e : Executor) (heap : gmap Z Z).
Context (Hfresh : 0 ≤ fresh < 2 ^ 64) (Hfuture : 0 ≤ future < 2 ^ 63).
Context (Hpool : pool_bucket (task_pool e) (size_of future) = []).
Context (Hl : list_ok e) (Hlev : level_ok e).

Lemma from_future_fresh l :
  is_locality l →
  ∃ t pool heap', from_future size_of cfg_test fresh flag future l e heap = (t, set_task_pool pool e, heap') ∧
    fresh_task future l t heap'.
Proof using Hfresh Hfuture Hpool.
  intros Hloc.
  destruct (TaskPool_acquire_fresh size_of cfg_test (ex_id e) flag fresh (task_pool e) heap future l)
    as (t & pool & heap' & Ha & H1 & _ & H2 & H3); [done..|].
  unfold from_future. rewrite Ha. by exists t, pool, heap'.
Qed.

Lemma spawn_future_queued l :
  is_locality l →
  let '(t, e1, heap') := from_future size_of cfg_test fresh flag future l e heap in
  fresh_task future l t heap' ∧
  (∃ e', spawn_task p locked t e1 = Val e' ∧ queued t e e') ∧
  ∃ r, exec_task p locked t e1 = Val r ∧
    if exec_series e <? 63 then r = (e1, Some t) else r.2 = None ∧ queued t e r.1.
Proof using All.
  intros Hloc. destruct (from_future_fresh l Hloc) as (t & pool & heap' & -> & Ht).
  assert (∀ x, list_ok (set_exec_series x (set_task_pool pool e)) ∧
               level_ok (set_exec_series x (set_task_pool pool e))) as Hok by done.
  split; [done|]. split.
  - by destruct (spawn_task_queued p locked t (set_task_pool pool e)) as (e' & -> & Hq); eauto.
  - unfold exec_task. simpl. destruct (exec_series e <? 63); [by eauto|].
    destruct (Hok 0) as [Hl' Hlev'].
    destruct (spawn_task_queued p locked t _ Hl' Hlev') as (e' & He' & Hq).
    unfold spawn_task in He'. rewrite He'. by eexists.
Qed.

End futures_lemmas.

(** C21: when the task pool of the executor has no memory of the future's size
    (no task of that size has finished, or its memory is in use again), the
    memory allocated is at an address of 64 bits, the executor has a list of
    shared tasks if its config enables work sharing, and its level of work
    sharing is not negative: a future given to [spawn_local], [spawn_shared],
    [exec_local_future] or [exec_shared_future] becomes one task, of the
    locality the function names, whose pointer leads to the future and whose vtable is the future's. The
    spawning functions put it into the queue of its locality; the executing
    ones do so only when the series of nested executions has reached its
    limit, and otherwise return it to be executed now. No task is lost or
    queued twice on the way. With memory of that size in the pool this can
    fail: [spawn_shared_after_local] below. *)
Theorem futures_reach_executor (size_of : Z → Z) (p : profile) (cfg_test locked : bool)
    (fresh flag future : Z) (e : Executor) (heap : gmap Z Z) :
  0 ≤ fresh < 2 ^ 64 → 0 ≤ future < 2 ^ 63 →
  pool_bucket (task_pool e) (size_of future) = [] → list_ok e → level_ok e →
  (∃ t e' heap', spawn_local size_of p cfg_test fresh flag future e heap = Val (e', heap') ∧
     fresh_task future Locality_local t heap' ∧ queued t e e') ∧
  (∃ t e' heap', spawn_shared size_of p cfg_test locked fresh flag future e heap = Val (e', heap') ∧
     fresh_task future Locality_shared t heap' ∧ queued t e e') ∧
  (∃ t e' o heap', exec_local_future size_of p cfg_test locked fresh flag future e heap = Val (e', o, heap') ∧
     fresh_task future Locality_local t heap' ∧
     if exec_series e <? 63 then o = Some t else o = None ∧ queued t e e') ∧
  (∃ t e' o heap', exec_shared_future size_of p cfg_test locked fresh flag future e heap = Val (e', o, heap') ∧
     fresh_task future Locality_shared t heap' ∧
     if exec_series e <? 63 then o = Some t else o = None ∧ queued t e e').
Proof.
  intros Hf Hv Hp Hl Hlev.
  pose proof (spawn_future_queued size_of p cfg_test locked fresh flag future e heap Hf Hv Hp Hl Hlev
    Locality_local (or_introl eq_refl)) as Hloc.
  pose proof (spawn_future_queued size_of p cfg_test locked fresh flag future e heap Hf Hv Hp Hl Hlev
    Locality_shared (or_intror eq_refl)) as Hsh.
  unfold spawn_local, spawn_shared, exec_local_future, exec_shared_future.
  destruct (from_future _ _ _ _ _ Locality_local _ _) as [[t1 e1] h1].
  destruct (from_future _ _ _ _ _ Locality_shared _ _) as [[t2 e2] h2].
  destruct Hloc as (F1 & (e1' & S1 & Q1) & ([x1 o1] & -> & E1)).
  destruct Hsh as (F2 & (e2' & S2 & Q2) & ([x2 o2] & -> & E2)).
  rewrite (spawn_local_task_spawn p locked), S1 by apply F1.
  rewrite spawn_shared_task_spawn, S2 by apply F2. simpl.
  split_and!.
  - by exists t1, e1', h1.
  - by exists t2, e2', h2.
  - exists t1, x1, o1, h1. split_and!; [done..|]. destruct (exec_series e <? 63); naive_solver.
  - exists t2, x2, o2, h2. split_and!; [done..|]. destruct (exec_series e <? 63); naive_solver.
Qed.

Definition api_ex : Executor := Executor_new 3 0 Config_default.

Lemma futures_reach_executor_witness :
  ∃ t e' heap', spawn_shared (λ _, 16) Debug false false 128 9 4096 api_ex ∅ = Val (e', heap') ∧
    fresh_task 4096 Locality_shared t heap' ∧ queued t api_ex e'.
Proof.
  destruct (futures_reach_executor (λ _, 16) Debug false false 128 9 4096 api_ex ∅)
    as (_ & H & _); [lia|lia|reflexivity|by intros _; eexists|vm_compute; discriminate|].
  exact H.
Defined.

(** C39: the memory of a finished local task is handed out again for a shared
    future of the same size, and keeps its locality and its vtable. In a debug
    build [spawn_shared] panics. In a release build the task goes to the
    shared queue, from where other executors take it, and is still a local
    task of the type of the future that has finished. *)
Theorem spawn_shared_after_local (size_of : Z → Z) (cfg_test locked : bool) (fresh flag future : Z)
    (pool : TaskPool) (t : Task) (e : Executor) (heap : gmap Z Z) :
  Task_is_local t = true → size_of future = size_of (task_vtable t) →
  task_pool e = TaskPool_put size_of pool t → list_ok e → level_ok e →
  spawn_shared size_of Debug cfg_test locked fresh flag future e heap = Panicked ∧
  ∃ e' heap', spawn_shared size_of Release cfg_test locked fresh flag future e heap = Val (e', heap') ∧
    listed e' ++ shared_tasks e' ≡ₚ t :: listed e ++ shared_tasks e ∧
    heap' !! task_addr t = Some future.
Proof.
  intros Ht Hs Hp Hl Hlev. unfold spawn_shared, from_future. rewrite Hp.
  destruct (TaskPool_acquire_put size_of cfg_test (ex_id e) flag fresh pool heap t future Locality_shared Hs)
    as (pool' & heap' & -> & Hh & _).
  split; [unfold spawn_shared_task; by rewrite Ht|].
  destruct (spawn_shared_task_ok Release locked t (set_task_pool pool' e)) as [e' He']; [done..|].
  rewrite He'. apply spawn_shared_task_Val in He' as (Hq & _). simpl. by eexists _, _.
Qed.

(** Futures of the types 4096 and 8192 have the same size; the first was run
    as a local task. *)
Definition api_done : Task := mkTask (TaskData_new (fat_ptr 64 4096) Locality_local) 3 7.

Lemma spawn_shared_after_local_witness :
  let e := set_task_pool (TaskPool_put (λ _, 16) (mkTaskPool ∅) api_done) api_ex in
  spawn_shared (λ _, 16) Debug false false 128 9 8192 e ∅ = Panicked ∧
  ∃ e' heap', spawn_shared (λ _, 16) Release false false 128 9 8192 e ∅ = Val (e', heap') ∧
    listed e' ++ shared_tasks e' ≡ₚ [api_done].
Proof.
  destruct (spawn_shared_after_local (λ _, 16) false false 128 9 8192 (mkTaskPool ∅) api_done
    (set_task_pool (TaskPool_put (λ _, 16) (mkTaskPool ∅) api_done) api_ex) ∅)
    as (H1 & e' & heap' & H2 & H3 & _);
    [reflexivity|reflexivity|reflexivity|by intros _; eexists|vm_compute; discriminate|].
  split; [exact H1|]. exists e', heap'. split; [exact H2|exact H3].
Defined.

(** ** What becomes of a future sent to an executor

    The batch in which the interactor collects tasks for an executor. *)
Definition batched (t : Task) (executor_id : nat) (i i' : Interactor.Interactor) : Prop :=
  ∃ b, VecMap_get (Interactor.all i) executor_id = Some b ∧
    VecMap_get (Interactor.all i') executor_id = Some (Interactor.push_to_batch t b) ∧
    ∀ k, k ≠ executor_id → VecMap_get (Interactor.all i') k = VecMap_get (Interactor.all i) k.

Lemma interactor_send t id i :
  match VecMap_get (Interactor.all i) id with
  | Some _ => ∃ i', Interactor.send_task_to_executor t id i = (i', Interactor.SendOk) ∧ batched t id i i'
  | None => Interactor.send_task_to_executor t id i = (i, Interactor.ExecutorIsNotRegistered)
  end.
Proof.
  unfold Interactor.send_task_to_executor, batched. destruct (VecMap_get _ id) as [b|] eqn:Hb; [|done].
  eexists. split; [done|]. exists b. split; [done|].
  unfold VecMap_get, VecMap_alter in *. simpl. split.
  - rewrite list_lookup_alter_eq. destruct (vm_inner _ !! id) as [[b'|]|]; naive_solver.
  - intros k Hk. by rewrite list_lookup_alter_ne.
Qed.

(** A task sent to an executor reaches it on one of three ways: sent to the
    executor itself it is queued by its locality; sent to another one that is
    known it is added to the batch of that executor and no other batch
    changes; sent to one that is not known nothing changes but the result,
    which says so. *)
Theorem sent_task_arrives (p : profile) (locked : bool) (t : Task) (executor_id : nat)
    (e : Executor) (i : Interactor.Interactor) :
  list_ok e → level_ok e →
  ∃ e' i' r, send_task_to_executor p locked t executor_id e i = Val (e', i', r) ∧
    match r with
    | Interactor.SendOk =>
        Z.of_nat executor_id = ex_id e ∧ queued t e e' ∧ i' = i ∨
        Z.of_nat executor_id ≠ ex_id e ∧ e' = e ∧ batched t executor_id i i'
    | Interactor.ExecutorIsNotRegistered =>
        Z.of_nat executor_id ≠ ex_id e ∧ e' = e ∧ i' = i ∧
        VecMap_get (Interactor.all i) executor_id = None
    end.
Proof.
  intros Hl Hlev. unfold send_task_to_executor.
  destruct (Z.eqb_spec (Z.of_nat executor_id) (ex_id e)) as [Heq|Hne]; simpl.
  - destruct (spawn_task_queued p locked t e Hl Hlev) as (e' & -> & Hq). simpl.
    eexists _, _, _. split; [done|]. by left.
  - pose proof (interactor_send t executor_id i) as Hi.
    destruct (VecMap_get (Interactor.all i) executor_id) as [b|] eqn:Hb.
    + destruct Hi as (i' & -> & Hi). eexists _, _, _. split; [done|]. by right.
    + rewrite Hi. by eexists _, _, _.
Qed.

Lemma sent_task_arrives_witness :
  ∃ e' i' r, send_task_to_executor Debug false api_done 5 api_ex (Interactor.Interactor_new 3) =
    Val (e', i', r) ∧ r = Interactor.ExecutorIsNotRegistered.
Proof.
  destruct (sent_task_arrives Debug false api_done 5 api_ex (Interactor.Interactor_new 3))
    as (e' & i' & r & H & _); [by intros _; eexists|vm_compute; discriminate|].
  exists e', i', r. split; [exact H|]. vm_compute in H. by injection H.
Defined.

(** ** What a waker does *)

Lemma wake_spawns p locked w stack t e :
  stack !! data_ptr w = Some t → wake p locked w stack (Some e) = spawn_task p locked t e.
Proof. intros Ht. unfold wake. rewrite Ht. by destruct p. Qed.

Section waker.
Context (size_of : Z → Z) (p : profile) (cfg_test executing locked : bool).
Context (poll : Waker → Stack → Executor → Mem → outcome (Poll () * Executor * Mem)).

Lemma exec_task_now_stack task_ptr t stack e m stack' e' m' o :
  exec_task_now size_of p cfg_test executing locked poll task_ptr t stack e m = Val (stack', e', m', o) →
  stack' = delete task_ptr stack.
Proof.
  unfold exec_task_now. intros H. apply outcome_bind_Val in H as ([e1 t1] & _ & H).
  apply outcome_bind_Val in H as ([[r e2] m2] & _ & H).
  apply outcome_bind_Val in H as ([[e3 m3] o3] & _ & H). by simplify_eq.
Qed.

End waker.

(** A waker works while the poll it was made for lasts: it, or any clone of
    it, then queues its task, once for every call, on the executor of the
    calling thread. After [exec_task_now] has returned, the variable it points
    to is gone, and waking the task is a read of dead memory, whatever thread
    does it; once another call of [exec_task_now] has its variable at that
    address the waker queues the task of that call. *)
Theorem waker_outlived (size_of : Z → Z) (p : profile) (cfg_test executing locked : bool)
    (poll : Waker → Stack → Executor → Mem → outcome (Poll () * Executor * Mem))
    (task_ptr : Z) (t t2 : Task) (stack stack' : Stack) (e e1 e' : Executor) (m m' : Mem)
    (o : option Task) :
  list_ok e → level_ok e →
  exec_task_now size_of p cfg_test executing locked poll task_ptr t stack e1 m = Val (stack', e', m', o) →
  let w := clone (create_waker task_ptr) in
  (∃ e2, wake p locked w (<[task_ptr := t]> stack) (Some e) = Val e2 ∧ queued t e e2) ∧
  (∀ local, wake p locked w stack' local = Undefined) ∧
  ∃ e2, wake p locked w (<[task_ptr := t2]> stack') (Some e) = Val e2 ∧ queued t2 e e2.
Proof.
  intros Hl Hlev ->%exec_task_now_stack. simpl. split_and!.
  - rewrite (wake_spawns p locked _ _ t) by apply lookup_insert_eq. by apply spawn_task_queued.
  - intros local. unfold wake. simpl. by rewrite lookup_delete_eq.
  - rewrite (wake_spawns p locked _ _ t2) by apply lookup_insert_eq. by apply spawn_task_queued.
Qed.

Lemma waker_outlived_witness :
  let w := clone (create_waker 8) in
  ∃ stack' e' m' o,
    exec_task_now (λ _, 16) Debug false false false (λ _ _ e m, Val (Pending, e, m)) 8 api_done ∅
      api_ex (mkMem ∅ ∅ ∅) = Val (stack', e', m', o) ∧
    wake Debug false w stack' (Some api_ex) = Undefined.
Proof.
  eexists _, _, _, _. split; [vm_compute; reflexivity|].
  eapply (waker_outlived (λ _, 16) Debug false false false (λ _ _ e m, Val (Pending, e, m)) 8 api_done
    api_done ∅ _ api_ex api_ex _ (mkMem ∅ ∅ ∅) _ None);
    [by intros _; eexists|vm_compute; discriminate|vm_compute; reflexivity].
Defined.

(** ** What blocking on a future returns *)
Section block_on_lemmas.
Context {R : Type} (p : profile) (this : EndLocalThreadAndWriteIntoPtr).

Lemma end_polls_pending n (rest : list (Poll R)) results w :
  end_polls p this (replicate n Pending ++ rest) results w = end_polls p this rest results w.
Proof. induction n as [|n IH]; [done|]. exact IH. Qed.

Lemma end_poll_ready (r : R) results w :
  is_Some (results !! res_ptr this) → 0 ≤ GlobalState.version (GlobalState.global w) < usize_MAX →
  ∃ w', EndLocalThreadAndWriteIntoPtr_poll p this (Ready r) results w =
      Val (Ready (), <[res_ptr this := Some r]> results, w') ∧
    GlobalState.stop_executor p (end_executor_id this) w = Val w'.
Proof.
  intros [x Hx] Hv. unfold EndLocalThreadAndWriteIntoPtr_poll, GlobalState.stop_executor.
  rewrite Hx, usize_add_Val by (unfold usize_MAX in *; lia). simpl. by eexists.
Qed.

End block_on_lemmas.

(** [run_and_block_on_*] returns the value of its future if the future became
    ready while the executor ran, and has then stopped the executor that
    called it; it returns an error if the future did not become ready. In that
    second case a future that another executor polls later, to the end, writes
    its value to a variable that is gone. *)
Theorem block_on_returns {R : Type} (p : profile)
    (spawn : EndLocalThreadAndWriteIntoPtr → Executor → outcome Executor)
    (n : nat) (r : R) (rest : list (Poll R)) (ptr : Z) (e e' : Executor)
    (results : gmap Z (option R)) (w : GlobalState.World) :
  results !! ptr = None → 0 ≤ GlobalState.version (GlobalState.global w) < usize_MAX →
  spawn (mkEnd ptr (Z.to_nat (ex_id e))) e = Val e' →
  (∃ w', run_and_block_on p spawn (replicate n Pending ++ Ready r :: rest) ptr e results w =
      Val (Some r, results, w') ∧ GlobalState.stop_executor p (Z.to_nat (ex_id e)) w = Val w') ∧
  run_and_block_on p spawn (replicate n Pending) ptr e results w = Val (None, results, w) ∧
  EndLocalThreadAndWriteIntoPtr_poll p (mkEnd ptr (Z.to_nat (ex_id e))) (Ready r) results w = Undefined.
Proof.
  intros Hptr Hv He.
  unfold run_and_block_on, EndLocalThreadAndWriteIntoPtr_new. rewrite He. simpl.
  rewrite end_polls_pending. split_and!.
  - destruct (end_poll_ready p (mkEnd ptr (Z.to_nat (ex_id e))) r (<[ptr := None]> results) w)
      as (w' & Hpoll & Hstop); [simpl; rewrite lookup_insert_eq; by eexists|done|].
    cbn [end_polls]. rewrite Hpoll. simpl. rewrite lookup_insert_eq. simpl.
    exists w'. by rewrite insert_insert_eq, delete_insert_id.
  - rewrite <- (app_nil_r (replicate n Pending)), end_polls_pending. simpl.
    rewrite lookup_insert_eq. simpl. by rewrite delete_insert_id.
  - by rewrite Hptr.
Qed.

Lemma block_on_returns_witness :
  ∃ w', run_and_block_on Debug (λ _ e, Val e) [Pending; Ready 42] 8 api_ex ∅
      (GlobalState.world GlobalState.init) = Val (Some 42, ∅, w').
Proof.
  destruct (block_on_returns Debug (λ _ e, Val e) 1 42 [] 8 api_ex api_ex ∅
    (GlobalState.world GlobalState.init)) as ((w' & H & _) & _); [reflexivity|vm_compute; done|reflexivity|].
  exists w'. exact H.
Defined.
