(* ===== verification/ExecutorPool.v ===== *)
(** * The pool of executors for tests

    Models [src/src/test/executor_pool.rs]: a call of [sched_future] takes the
    channel of a free executor, or starts an executor, and sends it a job; the
    executor polls the job until it is finished or has panicked, sends the
    result through the job's own channel, and [join] puts the executor back.

    An executor is the number of its channel, and a channel of results is the
    number of the call that made it. All these channels have capacity 0: a
    value passes when both sides are there. What the user's future does is the
    argument [handle], the value of [catch_unwind]. *)

From Stdlib Require Import ZArith Lia.
From S2P Require Import Prelude Task Config Executor ExecutorLoop ExecutorApi.

(** What a panic carries: a [Box<dyn Any + Send>] around a message or around
    another such box. *)
Inductive Payload :=
| message (m : Z)
| boxed (p : Payload).

(** [thread::Result<()>]. *)
Inductive ThreadResult :=
| TOk
| TErr (err : Payload).

(** The [Result] of the module. *)
Record JobResult := mkJobResult {
  future_result : ThreadResult;
  jr_sender : nat;
}.

Record Job := mkJob {
  job_future : Z;
  job_sender : option nat;
  result_sender : nat;
}.

Definition Job_new (future : Z) (channel result_channel : nat) : Job :=
  mkJob future (Some channel) result_channel.

(** What [catch_unwind] returns. *)
Inductive Handle :=
| Polled (r : Poll ())
| Unwound (err : Payload).

(** [Job::poll]: the result is what is handed to [exec_shared_future] inside
    the future that sends it. *)
Definition Job_poll (handle : Handle) (this : Job) : outcome (Job * Poll () * option JobResult) :=
  let take (r : ThreadResult) :=
    match job_sender this with
    | None => Panicked
    | Some sender =>
        Val (mkJob (job_future this) None (result_sender this), Ready (), Some (mkJobResult r sender))
    end in
  match handle with
  | Polled (Ready _) => take TOk
  | Polled Pending => Val (this, Pending, None)
  | Unwound err => take (TErr (boxed err))
  end.

(** ** The pool with its executors, the calls of [sched_future] and the
    handles

    [sending]: the calls that wait for their executor to take the job.
    [running]: the job each executor awaits; an executor that has none waits
    in [recv]. [reports]: the futures of [Job::poll] that wait for their
    result to be received; they were polled inside [Job::poll].
    [queued_reports]: those that [exec_shared_future] queued, at the end of a
    series of executions; their job is dropped, and a poll of one of them
    reads it ([job_report_dangles] below), so no step takes one out.
    [joined]: the calls of [join] that have returned or have panicked
    ([resume_unwind]). [scheduled] is a history: the future of each call. *)
Record Pool := mkPool {
  senders_to_executors : list nat;
  executors : nat;
  sending : gmap nat (nat * Job);
  running : gmap nat Job;
  handles : gset nat;
  reports : gmap nat JobResult;
  queued_reports : gmap nat JobResult;
  joined : gmap nat ThreadResult;
  scheduled : list Z;
}.

Definition ExecutorPool_new : Pool := mkPool [] 0 ∅ ∅ ∅ ∅ ∅ ∅ [].

(** [pop().unwrap_or_else(Self::new_executor)]. *)
Definition acquire_executor (s : Pool) : nat * list nat * nat :=
  match senders_to_executors s with
  | w :: rest => (w, rest, executors s)
  | [] => (executors s, [], S (executors s))
  end.

(** [sched_future] until it waits in [send]. *)
Definition sched_future_begin (future : Z) (s : Pool) : Pool :=
  let result_channel := length (scheduled s) in
  let '(sender, rest, n) := acquire_executor s in
  mkPool rest n (<[result_channel := (sender, Job_new future sender result_channel)]> (sending s)) (running s)
    (handles s) (reports s) (queued_reports s) (joined s) (scheduled s ++ [future]).

(** The executor [w] receives the job of the call [rc], which returns a
    handle. *)
Definition sched_future_end (rc w : nat) (job : Job) (s : Pool) : Pool :=
  mkPool (senders_to_executors s) (executors s) (delete rc (sending s)) (<[w := job]> (running s))
    ({[rc]} ∪ handles s) (reports s) (queued_reports s) (joined s) (scheduled s).

(** The executor [w] polls the job that it awaits. A job that is finished is
    dropped, and the executor goes back to [recv]. [now]: [exec_shared_future]
    polls the future that sends the result at once; else it queues it. *)
Definition poll_job (now : bool) (w : nat) (r : Job * Poll () * option JobResult) (s : Pool) : Pool :=
  let '(job, res, report) := r in
  mkPool (senders_to_executors s) (executors s) (sending s)
    (match res with Ready _ => delete w (running s) | Pending => <[w := job]> (running s) end) (handles s)
    (match report with
     | Some x => if now then <[result_sender job := x]> (reports s) else reports s
     | None => reports s
     end)
    (match report with
     | Some x => if now then queued_reports s else <[result_sender job := x]> (queued_reports s)
     | None => queued_reports s
     end)
    (joined s) (scheduled s).

(** [ExecutorPoolJoinHandle::join], when the result is received. *)
Definition join (rc : nat) (res : JobResult) (s : Pool) : Pool :=
  mkPool (senders_to_executors s ++ [jr_sender res]) (executors s) (sending s) (running s) (handles s ∖ {[rc]})
    (delete rc (reports s)) (queued_reports s) (<[rc := future_result res]> (joined s)) (scheduled s).

(** The [Drop] of a handle that was not joined: it panics, and the result is
    never received. *)
Definition drop_handle (rc : nat) (s : Pool) : Pool :=
  mkPool (senders_to_executors s) (executors s) (sending s) (running s) (handles s ∖ {[rc]}) (reports s)
    (queued_reports s) (joined s) (scheduled s).

Section pool.

(** How each future ends: it returns, or panics with this payload. *)
Context (final : Z → Handle).

(** A poll of the future [f] either is pending or is its end. *)
Definition polls (f : Z) (h : Handle) : Prop := h = Polled Pending ∨ (h = final f ∧ h ≠ Polled Pending).

Inductive pstep : Pool → Pool → Prop :=
| p_sched f s : pstep s (sched_future_begin f s)
| p_handover rc w job s :
    sending s !! rc = Some (w, job) → running s !! w = None → pstep s (sched_future_end rc w job s)
| p_poll now w job h r s :
    running s !! w = Some job → polls (job_future job) h → Job_poll h job = Val r → pstep s (poll_job now w r s)
| p_join rc res s : rc ∈ handles s → reports s !! rc = Some res → pstep s (join rc res s)
| p_drop rc s : rc ∈ handles s → pstep s (drop_handle rc s).

(** What [join] gets for the end of a future. *)
Definition expected (h : Handle) : ThreadResult :=
  match h with
  | Polled _ => TOk
  | Unwound err => TErr (boxed err)
  end.

(** The executors in use: awaited by a call, running a job, or with a result
    that was not received or is queued. *)
Definition in_use (s : Pool) : list nat :=
  map (λ x, x.2.1) (map_to_list (sending s)) ++ map fst (map_to_list (running s)) ++
  map (λ x, jr_sender x.2) (map_to_list (reports s)) ++
  map (λ x, jr_sender x.2) (map_to_list (queued_reports s)).

(** The calls, in the order of their stages. *)
Definition open_calls (s : Pool) : list nat :=
  map fst (map_to_list (sending s)) ++ map (λ x, result_sender x.2) (map_to_list (running s)) ++
  map fst (map_to_list (reports s)) ++ map fst (map_to_list (joined s)) ++
  map fst (map_to_list (queued_reports s)).

Record pool_ok (s : Pool) : Prop := {
  po_executors : senders_to_executors s ++ in_use s ≡ₚ seq 0 (executors s);
  po_calls : open_calls s ≡ₚ seq 0 (length (scheduled s));
  po_sending rc w job : sending s !! rc = Some (w, job) →
    job_sender job = Some w ∧ result_sender job = rc ∧ scheduled s !! rc = Some (job_future job);
  po_running w job : running s !! w = Some job →
    job_sender job = Some w ∧ scheduled s !! result_sender job = Some (job_future job);
  po_handles rc : rc ∈ handles s →
    (∃ w job, running s !! w = Some job ∧ result_sender job = rc) ∨ is_Some (reports s !! rc) ∨
    is_Some (queued_reports s !! rc);
  po_reports rc res : reports s !! rc = Some res →
    ∃ f, scheduled s !! rc = Some f ∧ future_result res = expected (final f);
  po_joined rc res : joined s !! rc = Some res →
    ∃ f, scheduled s !! rc = Some f ∧ res = expected (final f);
}.

(** ** Preservation *)
Lemma po_call_known s rc : pool_ok s → rc ∈ open_calls s → (rc < length (scheduled s))%nat.
Proof. intros Hs Hin. rewrite (po_calls s Hs) in Hin. apply elem_of_seq in Hin. lia. Qed.

Lemma po_nodup_calls s : pool_ok s → NoDup (open_calls s).
Proof. intros Hs. rewrite (po_calls s Hs). apply NoDup_seq. Qed.

Lemma elem_of_dom_list {A} (m : gmap nat A) i x : m !! i = Some x → i ∈ map fst (map_to_list m).
Proof. intros H. apply list_elem_of_fmap. exists (i, x). by rewrite elem_of_map_to_list. Qed.

Lemma po_sending_fresh s : pool_ok s → sending s !! length (scheduled s) = None.
Proof.
  intros Hs. destruct (sending s !! length (scheduled s)) as [x|] eqn:E; [|done].
  enough (length (scheduled s) < length (scheduled s))%nat by lia.
  apply (po_call_known s _ Hs), elem_of_app. left. by eapply elem_of_dom_list.
Qed.

(** A job that runs has no result yet, and a call whose result waits was not
    joined. *)
Lemma po_report_fresh s w job :
  pool_ok s → running s !! w = Some job →
  reports s !! result_sender job = None ∧ queued_reports s !! result_sender job = None.
Proof.
  intros Hs Hr. pose proof (po_nodup_calls s Hs) as Hn. unfold open_calls in Hn.
  apply NoDup_app in Hn as (_ & _ & Hn). apply NoDup_app in Hn as (_ & Hn & _).
  specialize (Hn (result_sender job)). rewrite !elem_of_app in Hn.
  assert (result_sender job ∈ map (λ x, result_sender x.2) (map_to_list (running s))) as Hin.
  { apply list_elem_of_fmap. exists (w, job). by rewrite elem_of_map_to_list. }
  split; apply eq_None_not_Some; intros [x E%elem_of_dom_list]; apply (Hn Hin); auto.
Qed.

Lemma po_joined_fresh s rc res : pool_ok s → reports s !! rc = Some res → joined s !! rc = None.
Proof.
  intros Hs Hr. destruct (joined s !! rc) as [x|] eqn:E; [|done].
  pose proof (po_nodup_calls s Hs) as Hn. unfold open_calls in Hn.
  apply NoDup_app in Hn as (_ & _ & Hn). apply NoDup_app in Hn as (_ & _ & Hn).
  apply NoDup_app in Hn as (_ & Hn & _).
  destruct (Hn rc); [by eapply elem_of_dom_list|]. apply elem_of_app. left. by eapply elem_of_dom_list.
Qed.

(** An executor that a call waits for runs nothing. *)
Lemma po_awaited_free s rc w job : pool_ok s → sending s !! rc = Some (w, job) → running s !! w = None.
Proof.
  intros Hs He. destruct (running s !! w) as [x|] eqn:E; [|done].
  assert (NoDup (senders_to_executors s ++ in_use s)) as Hn by (rewrite (po_executors s Hs); apply NoDup_seq).
  unfold in_use in Hn. apply NoDup_app in Hn as (_ & _ & Hn). apply NoDup_app in Hn as (_ & Hn & _).
  destruct (Hn w).
  - apply list_elem_of_fmap. exists (rc, (w, job)). by rewrite elem_of_map_to_list.
  - apply elem_of_app. left. by eapply elem_of_dom_list.
Qed.

(** The executor taken was free or is new. *)
Lemma acquire_executor_perm s l w rest n :
  acquire_executor s = (w, rest, n) → senders_to_executors s ++ l ≡ₚ seq 0 (executors s) →
  w :: rest ++ l ≡ₚ seq 0 n.
Proof.
  unfold acquire_executor. destruct (senders_to_executors s); intros [= <- <- <-] Hp; [|done].
  change ([] ++ l) with l in *. rewrite Hp, seq_S. apply Permutation_cons_append.
Qed.

Lemma pool_ok_sched f s : pool_ok s → pool_ok (sched_future_begin f s).
Proof.
  intros Hs. pose proof (po_sending_fresh s Hs) as Hfresh. destruct Hs as [He Hc H1 H2 H3 H4 H5].
  unfold sched_future_begin. destruct (acquire_executor s) as [[w rest] n] eqn:Ha.
  apply (acquire_executor_perm _ _ _ _ _ Ha) in He.
  assert (∀ i x, scheduled s !! i = Some x → (scheduled s ++ [f]) !! i = Some x) as Hmono
    by (intros i x; apply lookup_app_l_Some).
  split; unfold in_use, open_calls in *; simpl in *.
  - rewrite map_to_list_insert, <- He by done. simpl. solve_Permutation.
  - rewrite map_to_list_insert, length_app, seq_app, <- Hc by done. simpl. solve_Permutation.
  - intros rc w' job [[<- [= <- <-]]|[_ Hx]]%lookup_insert_Some.
    + by rewrite list_lookup_middle.
    + destruct (H1 _ _ _ Hx) as (?&?&?). eauto.
  - intros w' job Hx. destruct (H2 _ _ Hx) as [??]. eauto.
  - done.
  - intros rc res Hx. destruct (H4 _ _ Hx) as (? & ? & ?). eauto.
  - intros rc res Hx. destruct (H5 _ _ Hx) as (? & ? & ?). eauto.
Qed.

Lemma pool_ok_handover rc w job s :
  sending s !! rc = Some (w, job) → running s !! w = None → pool_ok s → pool_ok (sched_future_end rc w job s).
Proof.
  intros Hsend Hw [He Hc H1 H2 H3 H4 H5]. destruct (H1 _ _ _ Hsend) as (J1 & J2 & J3).
  pose proof (map_to_list_delete (sending s) rc (w, job) Hsend) as Hd.
  split; unfold in_use, open_calls, sched_future_end in *; simpl in *.
  - rewrite map_to_list_insert, <- He, <- Hd by done. simpl. solve_Permutation.
  - rewrite map_to_list_insert, <- Hc, <- Hd by done. simpl. rewrite J2. solve_Permutation.
  - intros rc' w' job' [_ Hx]%lookup_delete_Some. eauto.
  - intros w' job' [[<- <-]|[_ Hx]]%lookup_insert_Some; [by rewrite J2|eauto].
  - intros rc' [->%elem_of_singleton|Hin]%elem_of_union.
    + left. exists w, job. by rewrite lookup_insert_eq.
    + destruct (H3 _ Hin) as [(w' & job' & Hx & <-)|?]; [|by right]. left. exists w', job'.
      rewrite lookup_insert_ne; [done|congruence].
  - eauto.
  - eauto.
Qed.

Lemma Job_poll_pending h job job' rep : Job_poll h job = Val (job', Pending, rep) → job' = job ∧ rep = None.
Proof. by destruct h as [[]|], job as [f [] rc]; intros [= <- <-]. Qed.

(** A poll that ends the job reports the end of its future, to its own
    channel and with its own executor. *)
Lemma Job_poll_ready h job w u job' rep :
  job_sender job = Some w → polls (job_future job) h → Job_poll h job = Val (job', Ready u, rep) →
  result_sender job' = result_sender job ∧ rep = Some (mkJobResult (expected (final (job_future job))) w).
Proof.
  intros Hw Hp. destruct job as [f js rc]. simpl in *. subst js.
  destruct Hp as [->|[Hf Hn]]; [done|]. rewrite <- Hf.
  by destruct h as [[]|err]; intros [= <- <-].
Qed.

Lemma pool_ok_poll now w job h r s :
  running s !! w = Some job → polls (job_future job) h → Job_poll h job = Val r → pool_ok s →
  pool_ok (poll_job now w r s).
Proof.
  intros Hrun Hp Hj Hs. destruct (po_report_fresh s w job Hs Hrun) as [Hfresh Hfresh'].
  destruct r as [[job' [u|]] rep]; last first.
  { apply Job_poll_pending in Hj as [-> ->]. destruct Hs. simpl. unfold poll_job. rewrite insert_id by done.
    by split. }
  destruct Hs as [He Hc H1 H2 H3 H4 H5]. destruct (H2 _ _ Hrun) as (J1 & J2).
  destruct (Job_poll_ready _ _ _ _ _ _ J1 Hp Hj) as [Hrc ->].
  pose proof (map_to_list_delete (running s) w job Hrun) as Hd.
  split; unfold in_use, open_calls, poll_job in *; simpl in *; rewrite ?Hrc.
  - destruct now; rewrite map_to_list_insert, <- He, <- Hd by done; simpl; solve_Permutation.
  - destruct now; rewrite map_to_list_insert, <- Hc, <- Hd by done; simpl; solve_Permutation.
  - eauto.
  - intros w' job1 [_ Hx]%lookup_delete_Some. eauto.
  - intros rc Hin. destruct (decide (rc = result_sender job)) as [->|Hne].
    { right. destruct now; rewrite lookup_insert_eq; eauto. }
    destruct (H3 _ Hin) as [(w' & job1 & Hx & <-)|Hr].
    { left. exists w', job1. rewrite lookup_delete_ne; [done|congruence]. }
    right. destruct now; rewrite lookup_insert_ne by done; done.
  - destruct now; [|eauto]. intros rc res [[<- <-]|[_ Hx]]%lookup_insert_Some; eauto.
  - eauto.
Qed.

Lemma pool_ok_join rc res s : reports s !! rc = Some res → pool_ok s → pool_ok (join rc res s).
Proof.
  intros Hr Hs. pose proof (po_joined_fresh s rc res Hs Hr) as Hfresh. destruct Hs as [He Hc H1 H2 H3 H4 H5].
  pose proof (map_to_list_delete (reports s) rc res Hr) as Hd.
  split; unfold in_use, open_calls, join in *; simpl in *.
  - rewrite <- He, <- Hd. simpl. solve_Permutation.
  - rewrite map_to_list_insert, <- Hc, <- Hd by done. simpl. solve_Permutation.
  - eauto.
  - eauto.
  - intros rc' [Hin Hne%not_elem_of_singleton]%elem_of_difference.
    rewrite lookup_delete_ne by done. eauto.
  - intros rc' res' [_ Hx]%lookup_delete_Some. eauto.
  - intros rc' res' [[<- <-]|[_ Hx]]%lookup_insert_Some; eauto.
Qed.

Lemma pool_ok_step s s' : pool_ok s → pstep s s' → pool_ok s'.
Proof.
  intros Hs Hstep. destruct Hstep as [f s|rc w job s H1 H2|now w job h r s H1 H2 H3|rc res s H1 H2|rc s H1].
  - by apply pool_ok_sched.
  - by eapply pool_ok_handover.
  - by eapply pool_ok_poll.
  - by apply pool_ok_join.
  - destruct Hs as [He Hc J1 J2 J3 J4 J5]. split; eauto. simpl. set_solver.
Qed.

(** The future that sends a result is queued by the poll that ends its job. *)
Lemma queued_by_poll s s' rc res :
  pool_ok s → pstep s s' → queued_reports s' !! rc = Some res →
  queued_reports s !! rc = Some res ∨
  ∃ w job h r, running s !! w = Some job ∧ running s' !! w = None ∧ Job_poll h job = Val r ∧
    s' = poll_job false w r s ∧ result_sender job = rc.
Proof.
  intros Hs Hstep Hq.
  destruct Hstep as [f s|rc' w job s H1 H2|now w job h r s H1 H2 H3|rc' res' s H1 H2|rc' s H1]; auto.
  { left. revert Hq. unfold sched_future_begin. by destruct (acquire_executor s) as [[??]?]. }
  destruct r as [[job' [u|]] rep]; last first.
  { apply Job_poll_pending in H3 as [-> ->]. by left. }
  destruct (po_running s Hs _ _ H1) as [J1 _].
  destruct (Job_poll_ready _ _ _ _ _ _ J1 H2 H3) as [Hrc ->].
  destruct now; [by left|]. simpl in Hq. rewrite Hrc in Hq.
  apply lookup_insert_Some in Hq as [[Hk _]|[_ Hq]]; [right|by left].
  eexists w, job, h, _. split_and!; [done| |exact H3|done|done]. apply lookup_delete_eq.
Qed.

(** A queued future stays, and its executor is not free again. *)
Lemma queued_stays s s' rc res :
  pool_ok s → pstep s s' → queued_reports s !! rc = Some res →
  queued_reports s' !! rc = Some res ∧ jr_sender res ∉ senders_to_executors s'.
Proof.
  intros Hs Hstep Hq. pose proof (pool_ok_step s s' Hs Hstep) as Hs'.
  assert (queued_reports s' !! rc = Some res) as Hq'.
  { destruct Hstep as [f s|rc' w job s H1 H2|now w job h r s H1 H2 H3|rc' res' s H1 H2|rc' s H1]; auto.
    { unfold sched_future_begin. by destruct (acquire_executor s) as [[??]?]. }
    destruct r as [[job' [u|]] rep]; last first.
    { by apply Job_poll_pending in H3 as [-> ->]. }
    destruct (po_running s Hs _ _ H1) as [J1 _].
    destruct (Job_poll_ready _ _ _ _ _ _ J1 H2 H3) as [Hrc ->].
    destruct now; [done|]. simpl. rewrite Hrc, lookup_insert_ne; [done|].
    intros E. pose proof (proj2 (po_report_fresh s w job Hs H1)) as Hn. congruence. }
  split; [done|]. intros Hin.
  assert (NoDup (senders_to_executors s' ++ in_use s')) as Hn by (rewrite (po_executors s' Hs'); apply NoDup_seq).
  apply NoDup_app in Hn as (_ & Hn & _). destruct (Hn _ Hin). unfold in_use. rewrite !elem_of_app.
  do 3 right. apply list_elem_of_fmap. exists (rc, res). by rewrite elem_of_map_to_list.
Qed.

Lemma pool_ok_new : pool_ok ExecutorPool_new.
Proof. by split; simpl; try (intros; simplify_map_eq). Qed.

End pool.


Definition ex_final (f : Z) : Handle := if (f =? 7)%Z then Unwound (message 5) else Polled (Ready ()).


(** ** The future that sends the result

    [Job::poll] gives the future to [exec_shared_future]; the future keeps
    [this], a reference to the job, and reads [result_sender] through it when
    it is polled first. [jobs] is the memory of the jobs. *)
Definition report_poll (this : Z) (r : JobResult) (jobs : gmap Z Job) : outcome (nat * JobResult) :=
  job ← unchecked (jobs !! this);
  Val (result_sender job, r).

(** The end of a job: its poll calls [exec_shared_future], which polls the
    future at once or queues it; the poll returns [Ready] and [job.await]
    drops the job; a queued future is polled afterwards. The value is the
    channel that the result is sent to. *)
Definition job_end (size_of : Z → Z) (p : profile) (cfg_test locked : bool) (fresh flag future this : Z)
    (r : JobResult) (e : Executor) (heap : gmap Z Z) (jobs : gmap Z Job) : outcome (nat * JobResult) :=
  x ← exec_shared_future size_of p cfg_test locked fresh flag future e heap;
  let '(e, now, heap) := (x : Executor * option Task * gmap Z Z) in
  match now with
  | Some _ => report_poll this r jobs
  | None => report_poll this r (delete this jobs)
  end.

Open Scope Z_scope.

(** The result of a job reaches the channel of its call when the future that
    sends it is polled at once. At the end of a series of executions it is
    queued instead, and reads the job after the job was dropped. *)
Theorem job_report_dangles (size_of : Z → Z) (p : profile) (cfg_test locked : bool)
    (fresh flag future this : Z) (r : JobResult) (job : Job) (e : Executor) (heap : gmap Z Z) (jobs : gmap Z Job) :
  0 ≤ fresh < 2 ^ 64 → 0 ≤ future < 2 ^ 63 →
  pool_bucket (task_pool e) (size_of future) = [] → list_ok e → level_ok e → jobs !! this = Some job →
  job_end size_of p cfg_test locked fresh flag future this r e heap jobs =
    if exec_series e <? 63 then Val (result_sender job, r) else Undefined.
Proof.
  intros Hf Hv Hp Hl Hlev Hj.
  pose proof (spawn_future_queued size_of p cfg_test locked fresh flag future e heap Hf Hv Hp Hl Hlev
    Locality_shared (or_intror eq_refl)) as Hsh.
  unfold job_end, exec_shared_future.
  destruct (from_future _ _ _ _ _ Locality_shared _ _) as [[t e1] h1].
  destruct Hsh as (_ & _ & ([x o] & -> & E)). simpl.
  destruct (exec_series e <? 63).
  - injection E as _ ->. unfold report_poll. by rewrite Hj.
  - destruct E as [E _]. simpl in E. subst o. unfold report_poll. by rewrite lookup_delete_eq.
Qed.

Lemma job_report_dangles_witness :
  job_end (λ _, 16) Release false false 128 9 4096 1 (mkJobResult TOk 0) (set_exec_series 63 api_ex) ∅
    {[1 := Job_new 7 0 0]} = Undefined.
Proof.
  rewrite (job_report_dangles (λ _, 16) Release false false 128 9 4096 1 _ (Job_new 7 0 0)); [reflexivity|lia|lia
    |reflexivity|by intros _; eexists|vm_compute; discriminate|reflexivity].
Defined.
