(* ===== verification/Launch.v ===== *)
(** * Starting executors

    Models [src/src/run.rs] (one executor per core), the choice of a core in
    [src/src/runtime/executor/executors_on_cores_table.rs], the constructors of
    [Executor] that use it, and [src/src/test/runner.rs], which runs every test
    of a thread on one executor.

    The cores of the machine ([core_affinity]) are a list; pinning a thread to
    its core is not modelled, the pair of the core and the executor is. The
    threads of [run.rs] come to initialise their executors in any order, which
    is an argument. *)

From Stdlib Require Import ZArith Lia.
From S2P Require Import Prelude Task Config Executor ExecutorLoop ExecutorApi.

Local Open Scope Z_scope.

(** ** Choosing a core *)
Section cores.
Context {Core : Type}.

(** [get_core_id_for_executor], on the content of [CORES_IDS_LIST]. *)
Definition get_core_id_for_executor (table : list Core) : outcome (Core * list Core) :=
  match table with
  | [] => Panicked
  | core_id :: table => Val (core_id, table ++ [core_id])
  end.

Fixpoint core_ids (n : nat) (table : list Core) : outcome (list Core) :=
  match n with
  | O => Val []
  | S n =>
      r ← get_core_id_for_executor table;
      l ← core_ids n r.2;
      Val (r.1 :: l)
  end.

(** ** Constructors of the executor *)
Definition init_on_core (p : profile) (now : Z) (LOCAL_EXECUTOR : option Executor) (FREE_EXECUTOR_ID : Z)
    : StatsM (Executor * Z) :=
  init_on_core_with_config p now Config_default LOCAL_EXECUTOR FREE_EXECUTOR_ID.

(** [init_with_config]: the core is taken also when there is an executor. *)
Definition init_with_config (p : profile) (now : Z) (c : Config) (LOCAL_EXECUTOR : option Executor)
    (FREE_EXECUTOR_ID : Z) (table : list Core) : StatsM (Core * Executor * Z * list Core) := λ st,
  match get_core_id_for_executor table with
  | Val (core, table) =>
      stats_bind (init_on_core_with_config p now c LOCAL_EXECUTOR FREE_EXECUTOR_ID) (λ r,
      stats_ret (core, r.1, r.2, table)) st
  | Panicked => (st, Panicked)
  | Undefined => (st, Undefined)
  end.

Definition init (p : profile) (now : Z) (LOCAL_EXECUTOR : option Executor) (FREE_EXECUTOR_ID : Z)
    (table : list Core) : StatsM (Core * Executor * Z * list Core) :=
  init_with_config p now Config_default LOCAL_EXECUTOR FREE_EXECUTOR_ID table.

End cores.

(** ** One executor per core *)
Section run.
Context {Core : Type} (size_of : Z → Z) (p : profile) (cfg_test locked : bool).

(** The closure of a thread until [run]: [creator] gives the future of the
    thread, [alloc] the addresses of new memory. *)
Definition start_thread (l : Locality) (now : Z) (creator : Core → Z) (alloc : Core → Z * Z) (core : Core)
    (c : Config) (FREE_EXECUTOR_ID : Z) : StatsM (Executor * gmap Z Z * Z) :=
  stats_bind (init_on_core_with_config p now c None FREE_EXECUTOR_ID) (λ r st,
    let '(e, next_id) := (r : Executor * Z) in
    (st, x ← (if Locality_is_local l
              then spawn_local size_of p cfg_test (alloc core).1 (alloc core).2 (creator core) e ∅
              else spawn_shared size_of p cfg_test locked (alloc core).1 (alloc core).2 (creator core) e ∅);
         Val (x.1, x.2, next_id))).

(** The threads of [run_local_future_on_all_cores_with_config] and
    [run_shared_future_on_all_cores_with_config], each with its core and its
    configuration; [drain(1..)] panics if there is no core. *)
Definition threads_on_all_cores (cores : list Core) (cfg : Config) : outcome (list (Core * Config)) :=
  match cores with
  | [] => Panicked
  | core0 :: rest => Val (map (λ core, (core, cfg)) rest ++ [(core0, Config_default)])
  end.

(** [run_local_future_on_all_cores] and [run_shared_future_on_all_cores]. *)
Definition default_threads_on_all_cores (cores : list Core) : outcome (list (Core * Config)) :=
  threads_on_all_cores cores Config_default.

(** The threads in the order in which they start; none of them has an executor
    yet. *)
Fixpoint start_threads (l : Locality) (now : Z) (creator : Core → Z) (alloc : Core → Z * Z)
    (order : list (Core * Config)) (FREE_EXECUTOR_ID : Z) : StatsM (list (Core * Executor * gmap Z Z)) :=
  match order with
  | [] => stats_ret []
  | (core, c) :: order =>
      stats_bind (start_thread l now creator alloc core c FREE_EXECUTOR_ID) (λ r,
      let '(e, heap, next_id) := (r : Executor * gmap Z Z * Z) in
      stats_bind (start_threads l now creator alloc order next_id) (λ rest,
      stats_ret ((core, e, heap) :: rest)))
  end.

End run.

(** ** Tests *)

(** [get_local_executor] of [runner.rs]. *)
Definition get_local_executor {Core} (p : profile) (now : Z) (LOCAL_EXECUTOR : option Executor)
    (FREE_EXECUTOR_ID : Z) (table : list Core) : StatsM (Executor * Z * list Core) :=
  match LOCAL_EXECUTOR with
  | None =>
      stats_bind (init_with_config p now (disable_work_sharing Config_default) None FREE_EXECUTOR_ID table) (λ r,
      let '(_, e, next_id, table) := (r : Core * Executor * Z * list Core) in
      stats_ret (e, next_id, table))
  | Some e => stats_ret (e, FREE_EXECUTOR_ID, table)
  end.

(** A poll of [upgrade_future] by the task [t] before its future has started:
    it yields, or goes on to the future. *)
Definition upgrade_future_poll (p : profile) (t : Task) (e : Executor) : outcome (Executor * bool) :=
  if 0 <? number_of_spawned_tasks e then
    e ← yield_now p t e;
    Val (e, false)
  else Val (e, true).

(** Turns of a round of local tasks. The task [t] is a test; the others, left
    by earlier tests, finish when they are polled. The result is the executor
    at the first poll of the test's future, with the tasks that were executed
    before. *)
Fixpoint run_test (size_of : Z → Z) (p : profile) (locked : bool) (fuel : nat) (t : Task) (e : Executor) (m : Mem)
    : outcome (option Executor * list Task) :=
  match fuel with
  | O => Val (None, [])
  | S fuel =>
      r ← local_round_turn p locked e;
      match r.2 with
      | None => run_test size_of p locked fuel t r.1 m
      | Some t' =>
          x ← exec_task_now_begin p false false t' r.1;
          if decide (t' = t) then
            y ← upgrade_future_poll p t x.1;
            if (y.2 : bool) then Val (Some y.1, [])
            else
              z ← exec_task_now_end size_of p locked t Pending y.1 m;
              run_test size_of p locked fuel t z.1.1 z.1.2
          else
            z ← exec_task_now_end size_of p locked t' (Ready ()) x.1 m;
            w ← run_test size_of p locked fuel t z.1.1 z.1.2;
            Val (w.1, t' :: w.2)
      end
  end.

(** ** Theorems *)
Section cores_lemmas.
Context {Core : Type}.

(** The table of cores after [k] executors. *)
Definition rotated (k : nat) (cores : list Core) : list Core := drop k cores ++ take k cores.

Lemma get_core_rotated k cores :
  (k < length cores)%nat →
  ∃ c, cores !! k = Some c ∧
    get_core_id_for_executor (rotated k cores) = Val (c, rotated (S k mod length cores) cores).
Proof.
  intros Hk. destruct (lookup_lt_is_Some_2 cores k Hk) as [c Hc]. exists c. split; [done|].
  unfold rotated. rewrite (drop_S cores c k Hc). simpl. do 2 f_equal.
  destruct (decide (S k = length cores)) as [Heq|Hne].
  - rewrite Heq, Nat.Div0.mod_same. simpl. rewrite drop_all, app_nil_r, drop_0. simpl.
    rewrite <- (take_S_r _ _ _ Hc), Heq. apply firstn_all.
  - rewrite Nat.mod_small by lia. by rewrite (take_S_r _ _ _ Hc), app_assoc.
Qed.

Lemma core_ids_rotated n k cores :
  (k < length cores)%nat →
  ∃ l, core_ids n (rotated k cores) = Val l ∧ length l = n ∧
    ∀ i, (i < n)%nat → l !! i = cores !! ((k + i) mod length cores)%nat.
Proof.
  revert k. induction n as [|n IH]; intros k Hk; simpl; [by exists []; split_and!; intros; try lia|].
  destruct (get_core_rotated k cores Hk) as (c & Hc & ->). simpl.
  destruct (IH (S k mod length cores)%nat) as (l & -> & Hlen & Hl).
  { apply Nat.mod_upper_bound. lia. }
  exists (c :: l). split_and!; [done|simpl; lia|]. intros [|i] Hi; simpl.
  - by rewrite Nat.add_0_r, Nat.mod_small.
  - rewrite Hl by lia. rewrite Nat.Div0.add_mod_idemp_l. do 2 f_equal. lia.
Qed.

End cores_lemmas.

(** Executors that are not given a core are spread over the cores in turn:
    the [i]-th gets core [i] modulo the number of cores. *)
Theorem executors_spread_over_cores {Core} (n : nat) (cores : list Core) :
  cores ≠ [] →
  ∃ l, core_ids n cores = Val l ∧ length l = n ∧
    ∀ i, (i < n)%nat → l !! i = cores !! (i mod length cores)%nat.
Proof.
  intros Hne. destruct (core_ids_rotated n 0 cores) as (l & Hl & H); [by destruct cores; simpl; [|lia]|].
  exists l. unfold rotated in Hl. rewrite drop_0, app_nil_r in Hl. done.
Qed.

Lemma executors_spread_over_cores_witness :
  ∃ l, core_ids 5 [10; 11] = Val l ∧ l !! 4%nat = Some 10.
Proof.
  destruct (executors_spread_over_cores 5 [10; 11]) as (l & H1 & _ & H2); [discriminate|].
  exists l. split; [exact H1|]. rewrite H2 by lia. reflexivity.
Defined.

(** *** All cores *)
Section run_lemmas.
Context {Core : Type} (size_of : Z → Z) (p : profile) (cfg_test locked : bool).
Context (l : Locality) (Hl : l = Locality_local ∨ l = Locality_shared) (now : Z).
Context (creator : Core → Z) (alloc : Core → Z * Z).
Context (Hcreator : ∀ core, 0 ≤ creator core < 2 ^ 63) (Halloc : ∀ core, 0 ≤ (alloc core).1 < 2 ^ 64).

(** The executor [e], with the number [id] and the configuration [c], has the
    future of its core as its only task, in the queue of the future's kind. *)
Record started (id : Z) (c : Config) (core : Core) (e : Executor) (heap : gmap Z Z) : Prop := {
  st_id : ex_id e = id;
  st_config : config e = c;
  st_task : ∃ t, fresh_task (creator core) l t heap ∧
    if Locality_is_local l then local_tasks e = [t] ∧ listed e ++ shared_tasks e = []
    else local_tasks e = [] ∧ listed e ++ shared_tasks e = [t];
}.

Lemma validate_same c st st' c' : validate p c st = (st', Val c') → c' = c.
Proof.
  unfold validate, stats_bind, stats_ret. destruct (negb _); [|by intros [= _ ->]].
  destruct (validate_io p c st) as [? []]; [|done..].
  destruct (validate_pool p c _) as [? []]; [by intros [= _ ->]|done..].
Qed.

Lemma spawn_task_keeps t e e' :
  spawn_task p locked t e = Val e' → ex_id e' = ex_id e ∧ config e' = config e.
Proof.
  unfold spawn_task. destruct (Task_is_local t) eqn:Ht.
  - unfold spawn_local_task. rewrite Ht, debug_assert_true. by intros [= <-].
  - by intros (_ & (ts & tl & ->) & _)%spawn_shared_task_Val.
Qed.

Lemma from_future_keeps fresh flag future e heap t e1 h :
  from_future size_of cfg_test fresh flag future l e heap = (t, e1, h) →
  ex_id e1 = ex_id e ∧ config e1 = config e.
Proof. unfold from_future. destruct (TaskPool_acquire _ _ _ _ _ _ _ _ _) as [[]]. by intros [= _ <- _]. Qed.

Lemma new_executor_ok id c : 0 ≤ work_sharing_level c →
  list_ok (Executor_new id now c) ∧ level_ok (Executor_new id now c) ∧
  local_tasks (Executor_new id now c) = [] ∧
  listed (Executor_new id now c) ++ shared_tasks (Executor_new id now c) = [] ∧
  pool_bucket (task_pool (Executor_new id now c)) = λ _, [].
Proof.
  intros Hc. unfold list_ok, level_ok, listed, Executor_new. simpl.
  destruct (is_work_sharing_enabled c); simpl; split_and!; try done; by eexists.
Qed.

(** A thread whose configuration is accepted starts. *)
Lemma start_thread_started core c id st st' c' :
  0 ≤ work_sharing_level c → validate p c st = (st', Val c') →
  ∃ e heap, start_thread size_of p cfg_test locked l now creator alloc core c id st =
      (st', Val (e, heap, usize_wrap (id + 1))) ∧
    started id c core e heap.
Proof using Hl Hcreator Halloc.
  intros Hc Hv. pose proof (validate_same _ _ _ _ Hv) as ->.
  destruct (new_executor_ok id c Hc) as (N1 & N2 & N3 & N4 & N5).
  unfold start_thread, init_on_core_with_config, stats_bind, stats_ret. rewrite Hv.
  pose proof (spawn_future_queued size_of p cfg_test locked (alloc core).1 (alloc core).2 (creator core)
    (Executor_new id now c) ∅ (Halloc core) (Hcreator core)) as Hq.
  rewrite N5 in Hq. specialize (Hq eq_refl N1 N2 l Hl).
  destruct (from_future _ _ _ _ _ _ _ _) as [[t e1] h1] eqn:Ef.
  destruct Hq as (Ht & (e' & Hs & Hq) & _). pose proof (ft_local _ _ _ _ Ht) as Htl.
  destruct (from_future_keeps _ _ _ _ _ _ _ _ Ef) as [K1 K2].
  destruct (spawn_task_keeps _ _ _ Hs) as [K3 K4].
  exists e', h1. split.
  - unfold spawn_local, spawn_shared. destruct Hl as [-> | ->]; simpl in *; rewrite Ef.
    + by rewrite (spawn_local_task_spawn p locked), Hs.
    + by rewrite spawn_shared_task_spawn, Hs.
  - split; [by rewrite K3, K1|by rewrite K4, K2|]. exists t. split; [done|]. revert Hq. unfold queued. rewrite Htl, N3, N4.
    destruct (Locality_is_local l).
    + intros (-> & -> & ->). done.
    + intros (-> & Hp). by apply Permutation_singleton_r in Hp.
Qed.

Lemma start_threads_started order id st st' :
  Forall (λ x, 0 ≤ work_sharing_level x.2) order → 0 ≤ id → id + Z.of_nat (length order) ≤ usize_MAX →
  validate_all p (map snd order) st = (st', Val ()) →
  ∃ res, start_threads size_of p cfg_test locked l now creator alloc order id st = (st', Val res) ∧
    map (λ x, x.1.1) res = map fst order ∧
    ∀ i core c, order !! i = Some (core, c) →
      ∃ e heap, res !! i = Some (core, e, heap) ∧ started (id + Z.of_nat i) c core e heap.
Proof using Hl Hcreator Halloc.
  revert id st. induction order as [|[core c] order IH]; intros id st Hf Hid Hmax Hv; simpl in *.
  - injection Hv as ->. by exists [].
  - apply Forall_cons in Hf as [Hc Hf]. unfold stats_bind in *.
    destruct (validate p c st) as [st1 [c'| |]] eqn:Ev; [|done..].
    destruct (start_thread_started core c id st st1 c' Hc Ev) as (e & heap & -> & Hst).
    rewrite usize_wrap_small by (unfold usize_MAX, usize_modulus in *; lia).
    destruct (IH (id + 1) st1 Hf ltac:(lia) ltac:(lia) Hv) as (res & -> & Hm & Hres).
    exists ((core, e, heap) :: res). split_and!; [done|simpl; by rewrite Hm|].
    intros [|i] core' c1; simpl.
    + intros [= <- <-]. rewrite Z.add_0_r. eauto.
    + intros Hi. destruct (Hres _ _ _ Hi) as (e1 & h1 & H1 & H2). exists e1, h1. split; [done|].
      by replace (id + Z.of_nat (S i)) with (id + 1 + Z.of_nat i) by lia.
Qed.

End run_lemmas.

(** C30: the functions of [run.rs] start one executor on every core, whatever the
    order in which the threads come to it, when the configurations pass the
    checks of [validate] in that order and nothing else has made an executor:
    the executors are numbered in the order in which they start, and each has
    the future made for it as its only task, in the local or the shared queue
    as the function's name says. The executor of the first core has the default
    configuration, whatever was asked for; those of the other cores have the
    configuration that was asked for. *)
Theorem all_cores_start {Core} (size_of : Z → Z) (p : profile) (cfg_test locked : bool) (l : Locality)
    (now : Z) (creator : Core → Z) (alloc : Core → Z * Z) (core0 : Core) (cores : list Core) (cfg : Config)
    (order threads : list (Core * Config)) (st : ConfigStats) :
  l = Locality_local ∨ l = Locality_shared →
  (∀ core, 0 ≤ creator core < 2 ^ 63) → (∀ core, 0 ≤ (alloc core).1 < 2 ^ 64) →
  0 ≤ work_sharing_level cfg → Z.of_nat (S (length cores)) ≤ usize_MAX →
  threads_on_all_cores (core0 :: cores) cfg = Val threads → order ≡ₚ threads →
  validate_all p (map snd order) ConfigStats_new = (st, Val ()) →
  ∃ res, start_threads size_of p cfg_test locked l now creator alloc order 0 ConfigStats_new = (st, Val res) ∧
    map (λ x, x.1.1) res ≡ₚ core0 :: cores ∧
    (∃ i e heap, res !! i = Some (core0, e, heap) ∧
       started l creator (Z.of_nat i) Config_default core0 e heap) ∧
    (∀ core, core ∈ cores → ∃ i e heap, res !! i = Some (core, e, heap) ∧
       started l creator (Z.of_nat i) cfg core e heap) ∧
    ∀ i core c, order !! i = Some (core, c) →
      ∃ e heap, res !! i = Some (core, e, heap) ∧ started l creator (Z.of_nat i) c core e heap.
Proof.
  intros Hl Hc Ha Hw Hn [= <-] Hp Hv.
  destruct (start_threads_started size_of p cfg_test locked l Hl now creator alloc Hc Ha order 0
    ConfigStats_new st) as (res & H1 & H2 & H3); [|lia| |done|].
  - rewrite Hp. apply Forall_app. split; [|by repeat constructor].
    apply Forall_forall. intros x (core & -> & _)%list_elem_of_fmap. done.
  - rewrite Hp, length_app, length_map. simpl. unfold usize_MAX in *. lia.
  - assert (∀ core c, (core, c) ∈ order →
      ∃ i e heap, res !! i = Some (core, e, heap) ∧ started l creator (Z.of_nat i) c core e heap) as Hin.
    { intros core c [i Hi]%list_elem_of_lookup. exists i. by apply H3. }
    exists res. split_and!; [done| | | |done].
    + rewrite H2, Hp, map_app, map_map, map_id. simpl. by rewrite Permutation_app_comm.
    + apply Hin. rewrite Hp. set_solver.
    + intros core Hcore. apply Hin. rewrite Hp. apply elem_of_app. left.
      apply list_elem_of_fmap. by exists core.
Qed.

Lemma all_cores_start_witness :
  ∃ st res, start_threads (λ _, 16) Debug false false Locality_local 0 (λ core, 4096 * core) (λ core, (128 * core, 9))
      [(2, Config_default); (1, Config_default)] 0 ConfigStats_new = (st, Val res) ∧
    map (λ x, x.1.1) res ≡ₚ [1; 2].
Proof.
  destruct (all_cores_start (λ _, 16) Debug false false Locality_local 0
    (λ core, (4096 * core) `mod` 2 ^ 63) (λ core, ((128 * core) `mod` 2 ^ 64, 9)) 1 [2] Config_default
    [(2, Config_default); (1, Config_default)] [(2, Config_default); (1, Config_default)]
    (mkConfigStats 2 2 0 0)) as (res & H1 & H2 & _); [by left|..].
  - intros core. apply Z.mod_pos_bound. lia.
  - intros core. apply Z.mod_pos_bound. lia.
  - vm_compute. discriminate.
  - vm_compute. discriminate.
  - reflexivity.
  - reflexivity.
  - reflexivity.
  - exists (mkConfigStats 2 2 0 0), res. split; [exact H1|exact H2].
Defined.

(** Any number of default configurations can stand beside each other. *)
Lemma validate_defaults p n k :
  0 ≤ k → k + Z.of_nat n < usize_MAX →
  validate_all p (replicate n Config_default) (mkConfigStats k k 0 0) =
    (mkConfigStats (k + Z.of_nat n) (k + Z.of_nat n) 0 0, Val ()).
Proof.
  revert k. induction n as [|n IH]; intros k Hk Hn.
  - simpl. rewrite Z.add_0_r. done.
  - assert (validate p Config_default (mkConfigStats k k 0 0) =
      (mkConfigStats (k + 1) (k + 1) 0 0, Val Config_default)) as Hv.
    { unfold validate, validate_io, validate_pool, stats_bind, stats_update, stats_panic_if, stats_ret. simpl.
      rewrite usize_add_Val by (unfold usize_MAX in *; lia). simpl.
      by rewrite usize_add_Val by (unfold usize_MAX in *; lia). }
    simpl. unfold stats_bind. rewrite Hv, IH by lia. do 2 f_equal; lia.
Qed.

(** Without a configuration the executors always start, one on every core. *)
Theorem all_cores_start_default {Core} (size_of : Z → Z) (p : profile) (cfg_test locked : bool) (l : Locality)
    (now : Z) (creator : Core → Z) (alloc : Core → Z * Z) (core0 : Core) (cores : list Core)
    (order threads : list (Core * Config)) :
  l = Locality_local ∨ l = Locality_shared →
  (∀ core, 0 ≤ creator core < 2 ^ 63) → (∀ core, 0 ≤ (alloc core).1 < 2 ^ 64) →
  Z.of_nat (S (length cores)) < usize_MAX →
  default_threads_on_all_cores (core0 :: cores) = Val threads → order ≡ₚ threads →
  ∃ st res, start_threads size_of p cfg_test locked l now creator alloc order 0 ConfigStats_new = (st, Val res) ∧
    map (λ x, x.1.1) res ≡ₚ core0 :: cores ∧
    ∀ i core c, order !! i = Some (core, c) →
      ∃ e heap, res !! i = Some (core, e, heap) ∧ started l creator (Z.of_nat i) Config_default core e heap.
Proof.
  intros Hl Hc Ha Hn [= <-] Hp.
  assert (Forall (λ x, x.2 = Config_default) order) as Hall.
  { rewrite Hp. apply Forall_app. split; [|by repeat constructor].
    apply Forall_forall. intros x (core & -> & _)%list_elem_of_fmap. done. }
  assert (length order = S (length cores)) as Hlen.
  { rewrite Hp, length_app, length_map. simpl. lia. }
  assert (map snd order = replicate (length order) Config_default) as Hm.
  { clear -Hall. induction Hall as [|x o Hx _ IH]; [done|]. simpl. by rewrite Hx, IH. }
  pose proof (validate_defaults p (length order) 0 ltac:(lia) ltac:(lia)) as Hv. rewrite <- Hm in Hv.
  match type of Hv with _ = (?st, _) =>
    destruct (start_threads_started size_of p cfg_test locked l Hl now creator alloc Hc Ha order 0
      ConfigStats_new st) as (res & H1 & H2 & H3) end; [|lia|lia|exact Hv|].
  - apply (Forall_impl _ _ _ Hall). intros x ->. done.
  - eexists _, res. split; [exact H1|]. split.
    + rewrite H2, Hp, map_app, map_map, map_id. simpl. by rewrite Permutation_app_comm.
    + intros i core c Hi. rewrite Forall_lookup in Hall. specialize (Hall _ _ Hi). simpl in Hall. subst c. auto.
Qed.

(** *** Tests *)

(** The tasks of earlier tests are executed until only the test is left. *)
Lemma run_test_others size_of p locked t others e m :
  local_tasks e = t :: others → shared_tasks e = [] → t ∉ others → Forall (at_home e) (t :: others) →
  0 ≤ exec_series e → exec_series e + Z.of_nat (S (length others)) ≤ 63 → current_call e = Call_None →
  ∃ e', run_test size_of p locked (S (length others)) t e m = Val (Some e', reverse others) ∧
    local_tasks e' = [] ∧ shared_tasks e' = [].
Proof.
  revert e. induction others as [|t' others IH] using rev_ind; intros e Hl Hsh Hnin Hf H0 Hs Hc.
  - apply Forall_cons in Hf as [Ht _]. destruct (home_turn p locked e [] t) as [H1 H2]; [done|simpl in *; lia|done|].
    simpl. rewrite H1. simpl. rewrite H2. simpl. rewrite decide_True by done.
    unfold upgrade_future_poll, number_of_spawned_tasks. simpl. rewrite Hsh. simpl. by eexists.
  - rewrite length_app, Nat.add_1_r in *.
    assert (at_home e t') as Ht' by (rewrite Forall_forall in Hf; apply Hf; set_solver).
    destruct (home_turn p locked e (t :: others) t') as [H1 H2]; [by rewrite Hl|lia|done|].
    remember (S (length others)) as n eqn:Hn. simpl. rewrite H1. simpl. rewrite H2. simpl.
    rewrite decide_False by set_solver. rewrite Hc. simpl. rewrite debug_assert_true. simpl.
    match goal with |- context [run_test _ _ _ _ _ ?x _] => destruct (IH x) as (e' & He' & Hd) end;
      simpl; [done|done|set_solver| |lia|lia|done|].
    { rewrite Forall_cons, Forall_app in Hf. destruct Hf as (? & ? & _). by constructor. }
    subst n. rewrite He'. simpl. exists e'. by rewrite reverse_snoc.
Qed.

(** A test starts on an executor that has nothing else to run: whatever
    local tasks earlier tests of the thread have left (up to 61, each
    finishing when it is polled), all of them are executed, once, before the
    first poll of the test's future, and the queues are empty then. *)
Theorem test_runs_alone (size_of : Z → Z) (p : profile) (locked : bool) (t : Task) (others : list Task)
    (e : Executor) (m : Mem) :
  local_tasks e = others ++ [t] → shared_tasks e = [] → t ∉ others → Forall (at_home e) (others ++ [t]) →
  exec_series e = 0 → (length others ≤ 61)%nat → current_call e = Call_None →
  ∃ e', run_test size_of p locked (S (S (length others))) t e m = Val (Some e', reverse others) ∧
    number_of_spawned_tasks e' = 0.
Proof.
  intros Hl Hsh Hnin Hf Hs Hlen Hc.
  assert (at_home e t) as Ht by (rewrite Forall_forall in Hf; apply Hf; set_solver).
  destruct (home_turn p locked e others t) as [H1 H2]; [done|lia|done|].
  remember (S (length others)) as n eqn:Hn. simpl. rewrite H1. simpl. rewrite H2. simpl.
  rewrite decide_True by done. unfold upgrade_future_poll, number_of_spawned_tasks. simpl. rewrite Hsh. simpl.
  destruct others as [|t' others].
  - simpl. eexists. split; [done|]. simpl. by rewrite Hsh.
  - rewrite (proj2 (Z.ltb_lt _ _)) by (unfold len; simpl; lia). rewrite yield_local by apply Ht. simpl.
    rewrite Hc. simpl.
    match goal with |- context [run_test _ _ _ _ _ ?x _] =>
      destruct (run_test_others size_of p locked t (t' :: others) x m) as (e' & He' & Hd1 & Hd2) end;
      simpl; [done|done|done| |lia|simpl in *; lia|done|].
    { rewrite Forall_app in Hf. destruct Hf as (? & _). by constructor. }
    subst n. rewrite He'. exists e'. split; [done|]. by rewrite Hd1, Hd2.
Qed.

Lemma test_runs_alone_witness :
  let e := set_local_tasks [ex_task 1; ex_task 2; ex_task 3] ex_executor in
  ∃ e', run_test (λ _, 16) Debug false 4 (ex_task 3) e (mkMem ∅ ∅ ∅) = Val (Some e', [ex_task 2; ex_task 1]) ∧
    number_of_spawned_tasks e' = 0.
Proof.
  intros e. apply (test_runs_alone (λ _, 16) Debug false (ex_task 3) [ex_task 1; ex_task 2] e);
    [reflexivity|reflexivity| |repeat constructor|reflexivity|simpl; lia|reflexivity].
  intros Hin. repeat (apply elem_of_cons in Hin as [Hin|Hin]; [discriminate|]). by apply elem_of_nil in Hin.
Defined.
