(* ===== verification/WithBuffer.v ===== *)
(** * Buffers for shared tasks

    Models [src/src/io/buf/with_buffer.rs], with which a shared task uses a
    buffer of the pool of its thread: the task is made local for as long as
    the future that has the buffer runs, and shared again after it. Composes
    the pool of [Buffer] with the change of locality, which is
    [update_current_task_locality] of [src/src/runtime/task/task.rs] and
    [handle_call] of [Executor]. *)

From Stdlib Require Import ZArith Lia Sorting.Sorted.
From S2P Require Import Prelude BTree Task Utils Config ThreadPool Executor ExecutorLoop.
From S2P Require Buffer.
Open Scope Z_scope.

(** ** [update_current_task_locality] *)
Definition UpdateCurrentTaskLocality_poll (p : profile) (l : Locality) (was_called : bool) (e : Executor)
    : outcome (Poll () * Executor) :=
  if negb was_called then
    e ← invoke_call p (ChangeCurrentTaskLocality l) e;
    Val (Pending, e)
  else Val (Ready (), e).

(** ** [with_buffer.rs]

    The state of the [async] function between two polls: at the first change
    of locality, at the future, at the second change. [parent] is
    [parent_executor_id], of the debug build. *)
Inductive Stage {F Ret : Type} :=
| Start
| ToLocal (parent : Z) (future : F)
| Inside (parent : Z) (future : F)
| ToShared (parent : Z) (ret : Ret)
| Finished.
Arguments Stage : clear implicits.

Section with_buffer.
Context {F Ret : Type} (p : profile).
Context (fut_poll : F → Executor → Buffer.St → outcome (Poll Ret * F * Executor * Buffer.St)).

(** [future.await], and what follows it when it is ready. *)
Definition await_future (parent : Z) (future : F) (e : Executor) (s : Buffer.St)
    : outcome (Poll Ret * Stage F Ret * Executor * Buffer.St) :=
  r ← fut_poll future e s;
  let '(poll_res, future, e, s) := (r : Poll Ret * F * Executor * Buffer.St) in
  match poll_res with
  | Pending => Val (Pending, Inside parent future, e, s)
  | Ready ret =>
      r ← UpdateCurrentTaskLocality_poll p Locality_shared false e;
      Val (Pending, ToShared parent ret, (r : Poll () * Executor).2, s)
  end.

(** A poll on the thread of the executor [e], whose buffers are [s]; [f] makes
    the future. *)
Definition with_any_len_buffer_poll (f : Buffer.Buffer → F) (stage : Stage F Ret) (e : Executor) (s : Buffer.St)
    : outcome (Poll Ret * Stage F Ret * Executor * Buffer.St) :=
  match stage with
  | Start =>
      '(buffer, s) ← Buffer.get_buffer_with_any_len p s;
      let parent_executor_id := ex_id e in
      let future := f buffer in
      r ← UpdateCurrentTaskLocality_poll p Locality_local false e;
      Val (Pending, ToLocal parent_executor_id future, (r : Poll () * Executor).2, s)
  | ToLocal parent future =>
      r ← UpdateCurrentTaskLocality_poll p Locality_local true e;
      await_future parent future (r : Poll () * Executor).2 s
  | Inside parent future => await_future parent future e s
  | ToShared parent ret =>
      r ← UpdateCurrentTaskLocality_poll p Locality_shared true e;
      let e := (r : Poll () * Executor).2 in
      match p with
      | Debug => rassert (parent =? ex_id e)
      | Release => Val ()
      end;;
      Val (Ready ret, Finished, e, s)
  | Finished => Panicked
  end.

End with_buffer.

(** *** Buffers of a given length

    The future that [with_buffer] and [with_full_buffer] give to
    [with_any_len_buffer] sets the length when it is polled first. *)
Inductive Sized {F : Type} := NotSized (buffer : Buffer.Buffer) | Running (future : F).
Arguments Sized : clear implicits.

Section sized.
Context {F Ret : Type} (p : profile) (f : Buffer.Buffer → F).
Context (fut_poll : F → Executor → Buffer.St → outcome (Poll Ret * F * Executor * Buffer.St)).

Definition sized_poll (set_size : Buffer.Buffer → outcome Buffer.Buffer) (this : Sized F) (e : Executor)
    (s : Buffer.St) : outcome (Poll Ret * Sized F * Executor * Buffer.St) :=
  future ←
    match this with
    | NotSized buffer => buffer ← set_size buffer; Val (f buffer)
    | Running future => Val future
    end;
  r ← fut_poll future e s;
  let '(poll_res, future, e, s) := (r : Poll Ret * F * Executor * Buffer.St) in
  Val (poll_res, Running future, e, s).

Definition with_buffer_poll : Stage (Sized F) Ret → Executor → Buffer.St →
    outcome (Poll Ret * Stage (Sized F) Ret * Executor * Buffer.St) :=
  with_any_len_buffer_poll p (sized_poll (Buffer.set_len_unchecked 0)) NotSized.

Definition with_full_buffer_poll : Stage (Sized F) Ret → Executor → Buffer.St →
    outcome (Poll Ret * Stage (Sized F) Ret * Executor * Buffer.St) :=
  with_any_len_buffer_poll p (sized_poll Buffer.set_len_to_capacity) NotSized.

End sized.

(** ** The task between the polls

    What [handle_call] does with a task that has asked for a change of its
    locality. *)
Lemma handle_local p locked t e m :
  current_call e = ChangeCurrentTaskLocality Locality_local →
  ∃ t', handle_call p locked t e m =
      Val (set_local_tasks (local_tasks e ++ [t']) (set_current_call Call_None e), m, None) ∧
    Task_is_local t' = true ∧ executor_id t' = executor_id t ∧ Task_future_ptr t' = Task_future_ptr t.
Proof.
  intros Hc. destruct (TaskData_set_locality_spec (data t) Locality_local (or_introl eq_refl)) as [Hf Hl].
  exists (Task_set_locality Locality_local t). split; [|done].
  unfold handle_call, spawn_local_task, Task_set_locality, Task_is_local in *. rewrite Hc. simpl in *.
  rewrite Hl. simpl. by rewrite debug_assert_true.
Qed.

Lemma handle_shared p locked t e m :
  list_ok e → level_ok e → current_call e = ChangeCurrentTaskLocality Locality_shared →
  ∃ e' t', handle_call p locked t e m = Val (e', m, None) ∧
    Task_is_local t' = false ∧ Task_future_ptr t' = Task_future_ptr t ∧ local_tasks e' = local_tasks e ∧
    listed e' ++ shared_tasks e' ≡ₚ t' :: listed e ++ shared_tasks e.
Proof.
  intros Hl Hlev Hc. destruct (TaskData_set_locality_spec (data t) Locality_shared (or_intror eq_refl)) as [Hf Hloc].
  pose (t' := Task_set_locality Locality_shared t).
  destruct (spawn_shared_task_ok p locked t' (set_current_call Call_None e)) as [e' He']; [done..|].
  exists e', t'. destruct (spawn_shared_task_Val _ _ _ _ _ He') as (Hq & (ts & l & ->) & _).
  split_and!; [|done..]. unfold handle_call. rewrite Hc.
  change (Task_set_locality Locality_shared t) with t'.
  assert (Task_is_local t' = false) as -> by done. simpl. by rewrite He'.
Qed.

(** ** Running it to the end *)
Definition idle (e : Executor) : Executor := set_current_call Call_None e.

(** [k] polls, between which the executor has taken the call the last one
    left. *)
Fixpoint run_polls {S Ret : Type}
    (poll : S → Executor → Buffer.St → outcome (Poll Ret * S * Executor * Buffer.St))
    (k : nat) (stage : S) (e : Executor) (s : Buffer.St) : outcome (option Ret * S * Executor * Buffer.St) :=
  match k with
  | O => Val (None, stage, e, s)
  | S k =>
      r ← poll stage e s;
      let '(poll_res, stage, e, s) := (r : Poll Ret * S * Executor * Buffer.St) in
      match poll_res with
      | Ready ret => Val (Some ret, stage, e, s)
      | Pending => run_polls poll k stage (idle e) s
      end
  end.

(** The future returns [ret] from the poll after [n] others, and asks nothing
    of the executor in that poll. *)
Inductive ready_after {F Ret : Type}
    (fut_poll : F → Executor → Buffer.St → outcome (Poll Ret * F * Executor * Buffer.St))
    : nat → F → Executor → Buffer.St → Ret → Executor → Buffer.St → Prop :=
| ready_now future e s ret future' e' s' :
    fut_poll future e s = Val (Ready ret, future', e', s') → current_call e' = Call_None →
    ready_after fut_poll 0 future e s ret e' s'
| ready_later n future e s future1 e1 s1 ret e' s' :
    fut_poll future e s = Val (Pending, future1, e1, s1) →
    ready_after fut_poll n future1 (idle e1) s1 ret e' s' →
    ready_after fut_poll (S n) future e s ret e' s'.

Lemma change_locality p l e :
  current_call e = Call_None →
  UpdateCurrentTaskLocality_poll p l false e = Val (Pending, set_current_call (ChangeCurrentTaskLocality l) e).
Proof. intros Hc. unfold UpdateCurrentTaskLocality_poll, invoke_call. rewrite Hc. simpl. by rewrite debug_assert_true. Qed.

Lemma run_polls_pending {S Ret : Type}
    (poll : S → Executor → Buffer.St → outcome (Poll Ret * S * Executor * Buffer.St)) k stage e s stage' e' s' :
  poll stage e s = Val (Pending, stage', e', s') →
  run_polls poll (Datatypes.S k) stage e s = run_polls poll k stage' (idle e') s'.
Proof. cbn [run_polls]. by intros ->. Qed.

Section run.
Context {F Ret : Type} (p : profile).

Section polls.
Context (fut_poll : F → Executor → Buffer.St → outcome (Poll Ret * F * Executor * Buffer.St)).
Context (f : Buffer.Buffer → F).

Lemma await_runs n parent future e s ret e' s' :
  ready_after fut_poll n future e s ret e' s' → ex_id e' = parent →
  ∃ e'', (∀ stage, (∀ e s, with_any_len_buffer_poll p fut_poll f stage e s =
                           await_future p fut_poll parent future e s) →
    run_polls (with_any_len_buffer_poll p fut_poll f) (S (S n)) stage e s = Val (Some ret, Finished, e'', s')) ∧
    ex_id e'' = parent.
Proof.
  intros Hr Hid. induction Hr as [future e s ret future' e' s' Hp Hc|n future e s future1 e1 s1 ret e' s' Hp Hr IH].
  - exists (idle (set_current_call (ChangeCurrentTaskLocality Locality_shared) e')). split; [|done].
    intros stage Hst. cbn [run_polls]. rewrite Hst. unfold await_future. rewrite Hp. cbn [mbind outcome_bind].
    rewrite change_locality by done. simpl.
    assert (match p with Debug => rassert (parent =? ex_id e') | Release => Val () end = Val ()) as ->.
    { destruct p; [|done]. by rewrite Hid, Z.eqb_refl. }
    done.
  - destruct (IH Hid) as (e'' & Hrun & He''). exists e''. split; [|done]. intros stage Hst.
    rewrite <- (Hrun (Inside parent future1)) by done. apply run_polls_pending.
    rewrite Hst. unfold await_future. by rewrite Hp.
Qed.

(** The function in full: the first poll takes the buffer. *)
Lemma any_len_runs n b e s s1 ret e' s' :
  current_call e = Call_None → Buffer.get_buffer_with_any_len p s = Val (b, s1) →
  ready_after fut_poll n (f b) (idle e) s1 ret e' s' → ex_id e' = ex_id e →
  ∃ e'', run_polls (with_any_len_buffer_poll p fut_poll f) (3 + n) Start e s = Val (Some ret, Finished, e'', s').
Proof.
  intros Hc Hget Hr Hid.
  destruct (await_runs n (ex_id e) (f b) (idle e) s1 ret e' s' Hr Hid) as (e'' & Hrun & _).
  exists e''. rewrite <- (Hrun (ToLocal (ex_id e) (f b))) by done.
  rewrite (run_polls_pending _ (S (S n)) Start e s (ToLocal (ex_id e) (f b))
    (set_current_call (ChangeCurrentTaskLocality Locality_local) e) s1); [done|].
  unfold with_any_len_buffer_poll. rewrite Hget. cbn [mbind outcome_bind]. by rewrite change_locality.
Qed.

End polls.

(** A future whose buffer gets its length first. *)
Lemma sized_ready_after fut_poll (f : Buffer.Buffer → F) set_size n future e s (ret : Ret) e' s' this :
  ready_after fut_poll n future e s ret e' s' →
  this = Running future ∨ (∃ b b', this = NotSized b ∧ set_size b = Val b' ∧ future = f b') →
  ready_after (sized_poll f fut_poll set_size) n this e s ret e' s'.
Proof.
  intros Hr. revert this. induction Hr as [future e s ret future' e' s' Hp Hc|n future e s future1 e1 s1 ret e' s' Hp Hr IH];
    intros this Hthis.
  - apply (ready_now _ _ _ _ _ (Running future')); [|done].
    unfold sized_poll. destruct Hthis as [->|(b & b' & -> & -> & ->)]; simpl; by rewrite Hp.
  - apply (ready_later _ _ _ _ _ (Running future1) e1 s1).
    + unfold sized_poll. destruct Hthis as [->|(b & b' & -> & -> & ->)]; simpl; by rewrite Hp.
    + apply IH. by left.
Qed.

End run.

(** [with_buffer] and [with_full_buffer], on an executor that they do not leave:
    the future gets a buffer of the thread's pool that nobody else has, of
    length 0 and of its full length; if the future returns [ret] from its poll
    number [n + 1], the function returns [ret] from its own poll number
    [n + 3], and the buffers are then as the future has left them. *)
Theorem with_buffer_returns {F Ret : Type} (p : profile) (f : Buffer.Buffer → F)
    (fut_poll : F → Executor → Buffer.St → outcome (Poll Ret * F * Executor * Buffer.St))
    (e : Executor) (s : Buffer.St) (live : list Buffer.Buffer) :
  Buffer.Inv s live → current_call e = Call_None →
  ∃ empty full s1,
    Buffer.Inv s1 (empty :: live) ∧ Buffer.len_u32 empty = 0 ∧
    Buffer.Inv s1 (full :: live) ∧ Buffer.len_u32 full = Buffer.default_buffer_cap (Buffer.pool s) ∧
    ∀ n ret e' s', ex_id e' = ex_id e →
      (ready_after fut_poll n (f empty) (idle e) s1 ret e' s' →
       ∃ e'', run_polls (with_buffer_poll p f fut_poll) (3 + n) Start e s = Val (Some ret, Finished, e'', s')) ∧
      (ready_after fut_poll n (f full) (idle e) s1 ret e' s' →
       ∃ e'', run_polls (with_full_buffer_poll p f fut_poll) (3 + n) Start e s = Val (Some ret, Finished, e'', s')).
Proof.
  intros HI Hc. destruct (Buffer.get_any_ok p s live HI) as (b & s1 & Hget & HI1 & _ & Hcap).
  assert (0 ≤ Buffer.capacity b) as Hb by (pose proof (Buffer.inv_cap _ _ HI); lia).
  destruct (Buffer.relen_ok s1 b live 0 HI1) as (b0 & H0 & HI0 & _ & _ & Hl0 & _); [lia|].
  destruct (Buffer.relen_ok s1 b live (Buffer.capacity b) HI1) as (b1 & H1 & HI1' & _ & _ & Hl1 & _); [lia|].
  exists b0, b1, s1. split_and!; [done..|by rewrite Hl1|]. intros n ret e' s' Hid. split; intros Hr.
  - apply (any_len_runs p _ NotSized n b e s s1 ret e' s'); [done..| |done].
    apply (sized_ready_after _ _ _ _ _ _ _ _ _ _ _ Hr). right. by exists b, b0.
  - apply (any_len_runs p _ NotSized n b e s s1 ret e' s'); [done..| |done].
    apply (sized_ready_after _ _ _ _ _ _ _ _ _ _ _ Hr). right. by exists b, b1.
Qed.

(** A future that is ready at once with the length of its buffer, which it
    then returns to the pool. *)
Definition ex_len_poll (b : Buffer.Buffer) (e : Executor) (s : Buffer.St)
    : outcome (Poll Z * Buffer.Buffer * Executor * Buffer.St) :=
  s ← Buffer.put b s; Val (Ready (Buffer.len_u32 b), b, e, s).

Definition wb_ex : Executor := Executor_new 3 0 Config_default.

Lemma with_buffer_returns_witness :
  ∃ e'' s', run_polls (with_buffer_poll Debug id ex_len_poll) 3 Start wb_ex (Buffer.BufPool_new 1 4 ∅) =
    Val (Some 0, Finished, e'', s').
Proof.
  destruct (with_buffer_returns Debug id ex_len_poll wb_ex (Buffer.BufPool_new 1 4 ∅) [])
    as (b0 & b1 & s1 & HI & Hlen & _ & _ & H).
  - apply Buffer.buf_inv_init. done.
  - reflexivity.
  - assert (∃ s', ready_after ex_len_poll 0 (id b0) (idle wb_ex) s1 0 (idle wb_ex) s') as (s' & Hr).
    { destruct (Buffer.put_ok s1 b0 [] HI) as (s' & Hput & _). exists s'.
      apply (ready_now _ _ _ _ _ b0); [|reflexivity]. unfold ex_len_poll, id. by rewrite Hput, <- Hlen. }
    destruct (H 0%nat 0 (idle wb_ex) s' eq_refl) as [Hrun _]. destruct (Hrun Hr) as [e'' He''].
    exists e'', s'. exact He''.
Defined.

(** A debug build panics at the end of [with_any_len_buffer] although the
    future with the buffer never left its thread: when the future is ready the
    task becomes shared and is put where other executors take tasks from, and
    whichever of them goes on with it compares its own id with that of the
    executor that took the buffer. A release build returns the result. *)
Theorem with_buffer_false_alarm {F Ret : Type} (f : Buffer.Buffer → F)
    (fut_poll : F → Executor → Buffer.St → outcome (Poll Ret * F * Executor * Buffer.St)) (p : profile)
    (locked : bool) (future future' : F) (ret : Ret) (t : Task) (e e' other : Executor) (m : Mem)
    (s s' other_s : Buffer.St) :
  fut_poll future e s = Val (Ready ret, future', e', s') → current_call e' = Call_None →
  list_ok e' → level_ok e' → ex_id other ≠ ex_id e →
  ∃ stage e1 e2 t',
    with_any_len_buffer_poll p fut_poll f (Inside (ex_id e) future) e s = Val (Pending, stage, e1, s') ∧
    handle_call p locked t e1 m = Val (e2, m, None) ∧ Task_is_local t' = false ∧
    Task_future_ptr t' = Task_future_ptr t ∧
    listed e2 ++ shared_tasks e2 ≡ₚ t' :: listed e' ++ shared_tasks e' ∧
    with_any_len_buffer_poll Debug fut_poll f stage other other_s = Panicked ∧
    with_any_len_buffer_poll Release fut_poll f stage other other_s = Val (Ready ret, Finished, other, other_s).
Proof.
  intros Hp Hc Hl Hlev Hne.
  pose (e1 := set_current_call (ChangeCurrentTaskLocality Locality_shared) e').
  destruct (handle_shared p locked t e1 m) as (e2 & t' & Hh & Ht' & Hptr & _ & Hq); [done..|].
  exists (ToShared (ex_id e) ret), e1, e2, t'. split_and!; [|done..| |done].
  - simpl. unfold await_future. rewrite Hp. cbn [mbind outcome_bind]. by rewrite change_locality.
  - simpl. by rewrite (proj2 (Z.eqb_neq _ _)) by congruence.
Qed.

Lemma with_buffer_false_alarm_witness :
  ∃ (stage : Stage Buffer.Buffer Z) e1,
    with_any_len_buffer_poll Debug ex_len_poll id (Inside 3 Buffer.ex_held) wb_ex Buffer.ex_one.1 =
      Val (Pending, stage, e1, Buffer.BufPool_new 1 4 ∅) ∧
    with_any_len_buffer_poll Debug ex_len_poll id stage (Executor_new 4 0 Config_default)
      (Buffer.BufPool_new 1 4 ∅) = Panicked.
Proof.
  destruct (with_buffer_false_alarm id ex_len_poll Debug false Buffer.ex_held Buffer.ex_held 0 (ex_shared_task 1)
    wb_ex wb_ex (Executor_new 4 0 Config_default) (mkMem ∅ ∅ ∅) Buffer.ex_one.1 (Buffer.BufPool_new 1 4 ∅)
    (Buffer.BufPool_new 1 4 ∅)) as (stage & e1 & e2 & t' & H1 & _ & _ & _ & _ & H2 & _);
    [vm_compute; reflexivity|reflexivity|by intros _; eexists|vm_compute; discriminate|discriminate|].
  exists stage, e1. split; [exact H1|exact H2].
Defined.

(** The first poll takes the buffer and the task becomes local where it is: it
    is queued as a local task of that executor, with the buffer of its thread,
    and in a debug build no other executor would execute it. *)
Theorem with_buffer_becomes_local {F Ret : Type} (p : profile) (f : Buffer.Buffer → F)
    (fut_poll : F → Executor → Buffer.St → outcome (Poll Ret * F * Executor * Buffer.St))
    (locked : bool) (t : Task) (e : Executor) (m : Mem) (s : Buffer.St) (live : list Buffer.Buffer) :
  Buffer.Inv s live → current_call e = Call_None → executor_id t = ex_id e → 0 ≤ exec_series e ≤ 63 →
  ∃ b s1 e1 e2 t',
    with_any_len_buffer_poll p fut_poll f Start e s = Val (Pending, ToLocal (ex_id e) (f b), e1, s1) ∧
    Buffer.Inv s1 (b :: live) ∧
    handle_call p locked t e1 m = Val (e2, m, None) ∧
    local_tasks e2 = local_tasks e ++ [t'] ∧ Task_future_ptr t' = Task_future_ptr t ∧ Task_is_local t' = true ∧
    ∀ other, exec_series other = exec_series e →
      (∃ r, exec_task_now_begin Debug false false t' other = Val r) ↔ ex_id other = ex_id e.
Proof.
  intros HI Hc Hid Hser. destruct (Buffer.get_any_ok p s live HI) as (b & s1 & Hget & HI1 & _).
  pose (e1 := set_current_call (ChangeCurrentTaskLocality Locality_local) e).
  destruct (handle_local p locked t e1 m) as (t' & Hh & Ht' & Hid' & Hptr); [done|].
  eexists b, s1, e1, _, t'. split_and!; [|done..|].
  - simpl. rewrite Hget. cbn [mbind outcome_bind]. by rewrite change_locality.
  - intros other Hs. unfold exec_task_now_begin, Task_check_safety.
    rewrite usize_add_Val by (unfold usize_modulus; lia). simpl. rewrite Ht', Hid', Hid. simpl.
    destruct (Z.eqb_spec (ex_id e) (ex_id other)); simpl; split; try done; [by eexists|by intros []].
Qed.
