(* ===== verification/ExecutorMachine.v ===== *)
(** * The executor at work

    The operations of [Executor] and [ExecutorLoop] composed the way [run]
    composes them, with the code of the tasks in between. A task's poll may do
    anything its user wants, in particular execute other tasks, whose polls
    are then nested in it; so the state has a stack of polls. The steps are
    those of the loop when no poll is under way, of the innermost poll
    otherwise, and of other threads at any time.

    What tasks may do is what the documentation of [Task], [Call] and the
    waker asks of them: a task has one owner, it is executed or spawned by who
    owns it; a poll that has invoked a call returns [Pending] at once; calls
    other than a change of locality are for shared tasks; a poll that returns
    [Pending] without a call has given its task to somebody; a job given to
    the thread pool does not panic. *)

From Stdlib Require Import ZArith Lia Sorting.Sorted.
From stdpp Require Import gmultiset.
From S2P Require Import Prelude BTree Task Utils Config ThreadPool Executor ExecutorLoop.
Open Scope Z_scope.

(** A poll under way; [fr_given]: it has given its task away. *)
Record Frame := mkFrame { fr_task : Task; fr_given : bool }.

(** [Stopped]: no [run] is under way. *)
Inductive Phase :=
| Stopped
| RoundStart
| LocalRound (left : nat)
| SharedRound (left : nat)
| Background
| Sleepers
| RoundEnd.

(** [parked]: tasks owned by the data structures of tasks. [born]: all tasks
    created here or received from others; [gone]: those that ended, that others
    took or that were sent to others. *)
Record Machine := mkMachine {
  ex : Executor;
  mem : Mem;
  stack : list Frame;
  phase : Phase;
  parked : list Task;
  born : list Task;
  gone : list Task;
}.

Definition fut (t : Task) : Z := Task_future_ptr t.

Definition executing (t : Task) (fs : list Frame) : bool := existsb (λ f, fut (fr_task f) =? fut t) fs.

(** What [exec_task] leaves to do: nothing, or to begin a poll. *)
Definition start (p : profile) (r : Executor * option Task) (m : Machine) : outcome Machine :=
  match r.2 with
  | None => Val (mkMachine r.1 (mem m) (stack m) (phase m) (parked m) (born m) (gone m))
  | Some t =>
      x ← exec_task_now_begin p false (executing t (stack m)) t r.1;
      Val (mkMachine x.1 (mem m) (mkFrame x.2 false :: stack m) (phase m) (parked m) (born m) (gone m))
  end.

Definition with_ex (e : Executor) (m : Machine) : Machine :=
  mkMachine e (mem m) (stack m) (phase m) (parked m) (born m) (gone m).
Definition with_mem (x : Mem) (m : Machine) : Machine :=
  mkMachine (ex m) x (stack m) (phase m) (parked m) (born m) (gone m).
Definition with_stack (x : list Frame) (m : Machine) : Machine :=
  mkMachine (ex m) (mem m) x (phase m) (parked m) (born m) (gone m).
Definition with_phase (x : Phase) (m : Machine) : Machine :=
  mkMachine (ex m) (mem m) (stack m) x (parked m) (born m) (gone m).
Definition with_parked (x : list Task) (m : Machine) : Machine :=
  mkMachine (ex m) (mem m) (stack m) (phase m) x (born m) (gone m).
Definition with_born (x : list Task) (m : Machine) : Machine :=
  mkMachine (ex m) (mem m) (stack m) (phase m) (parked m) x (gone m).
Definition with_gone (x : list Task) (m : Machine) : Machine :=
  mkMachine (ex m) (mem m) (stack m) (phase m) (parked m) (born m) x.

Definition set_list (a : Z) (l : list Task) (x : Mem) : Mem :=
  mkMem (<[a := l]> (sync_lists x)) (counters x) (flags x).

Definition shared (l : list Task) : Prop := Forall (λ t, Task_is_local t = false) l.

(** The calls a poll of [t] may invoke. *)
Definition call_allowed (c : Call) (t : Task) : Prop :=
  match c with
  | Call_None => False
  | ChangeCurrentTaskLocality l => is_locality l
  | _ => Task_is_local t = false
  end.

(** Whether the task must have been given away when its poll returns. *)
Definition given_before (c : Call) : bool :=
  match c with Call_None | ReleaseAtomicBool _ => true | _ => false end.

Section machine.
Context (size_of : Z → Z) (p : profile).

(** Code of tasks runs in a poll that has invoked no call, or when the IO
    worker hands tasks back at the end of a round; other code when no [run] is
    under way. *)
Definition user_code (m : Machine) : Prop :=
  (stack m ≠ [] ∨ phase m = RoundEnd ∨ phase m = Stopped) ∧ current_call (ex m) = Call_None.

Inductive step : Machine → Machine → Prop :=
| user_create m t :
    user_code m → step m (with_parked (t :: parked m) (with_born (t :: born m) m))
| user_spawn m a t b lk e :
    user_code m → parked m = a ++ t :: b → spawn_task p lk t (ex m) = Val e →
    step m (with_parked (a ++ b) (with_ex e m))
| user_exec m a t b lk r m' :
    user_code m → parked m = a ++ t :: b → exec_task p lk t (ex m) = Val r →
    start p r (with_parked (a ++ b) m) = Val m' → step m m'
| user_exec_now m a t b m' :  (** [exec_task_now], which does not look at the count *)
    user_code m → parked m = a ++ t :: b →
    start p (ex m, Some t) (with_parked (a ++ b) m) = Val m' → step m m'
| user_send m a t b :  (** to the batch for another executor *)
    user_code m → parked m = a ++ t :: b →
    step m (with_parked (a ++ b) (with_gone (t :: gone m) m))
| user_park m t fs :
    user_code m → stack m = mkFrame t false :: fs →
    step m (with_stack (mkFrame t true :: fs) (with_parked (t :: parked m) m))
| user_yield m t fs e :
    user_code m → stack m = mkFrame t false :: fs → yield_now p t (ex m) = Val e →
    step m (with_stack (mkFrame t true :: fs) (with_ex e m))
| user_sleep m t fs s s' e :
    user_code m → stack m = mkFrame t false :: fs → sleep_poll s t (ex m) = Val (s', e, Pending) →
    step m (with_stack (mkFrame t true :: fs) (with_ex e m))
| user_new_list m a :
    user_code m → sync_lists (mem m) !! a = None → step m (with_mem (set_list a [] (mem m)) m)
| user_list_pop m a l t l' :
    user_code m → sync_lists (mem m) !! a = Some l → SyncTaskList_pop l = (Some t, l') →
    step m (with_mem (set_list a l' (mem m)) (with_parked (t :: parked m) m))
| user_invoke m t g fs c e :
    user_code m → stack m = mkFrame t g :: fs → call_allowed c t → g = given_before c →
    invoke_call p c (ex m) = Val e → step m (with_ex e m)
| user_ready m t fs lk e x :
    stack m = mkFrame t false :: fs → current_call (ex m) = Call_None →
    exec_task_now_end size_of p lk t (Ready ()) (ex m) (mem m) = Val (e, x, None) →
    step m (with_stack fs (with_gone (t :: gone m) (with_mem x (with_ex e m))))
| user_pending m t g fs lk e x o m' :
    stack m = mkFrame t g :: fs → g = given_before (current_call (ex m)) →
    exec_task_now_end size_of p lk t Pending (ex m) (mem m) = Val (e, x, o) →
    start p (e, o) (with_stack fs (with_mem x m)) = Val m' → step m m'
| loop_run m :  (** [run] is called *)
    stack m = [] → phase m = Stopped → step m (with_phase RoundStart m)
| loop_stop m :  (** the check of the version has found that the executor is stopped *)
    stack m = [] → phase m = RoundStart → step m (with_phase Stopped m)
| loop_round m now l s e :  (** [l] and [s] are what the interactor has taken *)
    stack m = [] → phase m = RoundStart → Forall (λ t, Task_is_local t = true) l → shared s →
    e = prepare_to_new_round now (ex m) →
    step m (with_phase (LocalRound (length (local_tasks e ++ l)))
      (with_born (l ++ s ++ born m)
        (with_ex (set_local_tasks (local_tasks e ++ l) (set_shared_tasks (shared_tasks e ++ s) e)) m)))
| loop_local m k lk r m' :
    stack m = [] → phase m = LocalRound (S k) → local_round_turn p lk (ex m) = Val r →
    start p r (with_phase (LocalRound k) m) = Val m' → step m m'
| loop_local_done m :
    stack m = [] → phase m = LocalRound 0 →
    step m (with_phase (SharedRound (length (shared_tasks (ex m)))) m)
| loop_shared m k lk r m' :
    stack m = [] → phase m = SharedRound (S k) → shared_round_turn p lk (ex m) = Val (Some r) →
    start p r (with_phase (SharedRound k) m) = Val m' → step m m'
| loop_shared_done m k lk :
    stack m = [] → phase m = SharedRound k → k = O ∨ shared_round_turn p lk (ex m) = Val None →
    step m (with_phase Background m)
| loop_background m lk rng lists e lists' got pool l b now :
    stack m = [] → phase m = Background → shared (tasks_of lists) →
    take_work_if_needed p lk rng (Some lists) (ex m) = Val (e, Some lists') →
    tasks_of lists ≡ₚ got ++ tasks_of lists' →
    pool_poll p (local_tasks e) (thread_pool e) = Val (pool, l, b) →
    step m (with_phase Sleepers (with_born (got ++ born m)
      (with_ex (check_sleeping_begin now (set_local_tasks l (set_thread_pool pool e))) m)))
| loop_wake m lk e o m' :
    stack m = [] → phase m = Sleepers → check_sleeping_turn p lk (ex m) = Val (Woken e o) →
    start p (e, o) m = Val m' → step m m'
| loop_awake m lk e n :
    stack m = [] → phase m = Sleepers → check_sleeping_turn p lk (ex m) = Val (NothingDue e n) →
    step m (with_phase RoundEnd (with_ex e m))
| loop_end m :
    stack m = [] → phase m = RoundEnd → step m (with_phase RoundStart m)
| other_takes m l a t b :
    shared_tasks_list (ex m) = Some l → list_tasks l = a ++ t :: b →
    step m (with_gone (t :: gone m)
      (with_ex (set_shared_tasks_list (Some (mkExecutorSharedTaskList (list_executor_id l) (a ++ b))) (ex m)) m))
| other_gives m l ts :
    shared_tasks_list (ex m) = Some l → shared ts →
    step m (with_born (ts ++ born m)
      (with_ex (set_shared_tasks_list
        (Some (mkExecutorSharedTaskList (list_executor_id l) (list_tasks l ++ ts))) (ex m)) m))
| other_list_push m a l t :
    sync_lists (mem m) !! a = Some l → Task_is_local t = false →
    step m (with_mem (set_list a (push_back l t) (mem m)) (with_born (t :: born m) m))
| other_list_pop m a l t l' :
    sync_lists (mem m) !! a = Some l → SyncTaskList_pop l = (Some t, l') →
    step m (with_mem (set_list a l' (mem m)) (with_gone (t :: gone m) m))
| other_memory m c f :
    step m (with_mem (mkMem (sync_lists (mem m)) c f) m)
| other_worker m k pool job :
    worker_turn p false k (thread_pool (ex m)) = Some (pool, job) →
    step m (with_ex (set_thread_pool pool (ex m)) m).
End machine.

Definition init (id now : Z) (cfg : Config) : Machine :=
  mkMachine (Executor_new id now cfg) (mkMem ∅ ∅ ∅) [] Stopped [] [] [].

(** ** Where tasks are, as multisets of futures *)
Definition mset (l : list Task) : gmultiset Z := list_to_set_disj (fut <$> l).

Definition pool_tasks (pool : LocalThreadWorkerPool) : list Task :=
  (wt_task <$> queued pool) ++ result_list pool.

Definition held (e : Executor) : gmultiset Z :=
  mset (local_tasks e) ⊎ mset (shared_tasks e) ⊎ mset (listed e) ⊎
  mset (local_sleeping_tasks e).*2 ⊎ mset (pool_tasks (thread_pool e)).

Definition waiting (x : Mem) : gmultiset Z := mset (concat (map_to_list (sync_lists x)).*2).

(** Tasks that the polls under way own. *)
Definition frame_tasks (fs : list Frame) : list Task :=
  omap (λ f, if fr_given f then None else Some (fr_task f)) fs.

Definition owned (m : Machine) : gmultiset Z :=
  held (ex m) ⊎ waiting (mem m) ⊎ mset (frame_tasks (stack m)) ⊎ mset (parked m).

Lemma mset_nil : mset [] = ∅.
Proof. done. Qed.
Lemma mset_cons t l : mset (t :: l) = mset [t] ⊎ mset l.
Proof. unfold mset. simpl. multiset_solver. Qed.
Lemma mset_app l k : mset (l ++ k) = mset l ⊎ mset k.
Proof. unfold mset. by rewrite fmap_app, list_to_set_disj_app. Qed.
Lemma mset_perm l k : l ≡ₚ k → mset l = mset k.
Proof. intros H. unfold mset. by rewrite H. Qed.
#[export] Instance mset_Permutation : Proper ((≡ₚ) ==> (=)) mset.
Proof. intros l k. apply mset_perm. Qed.
Lemma mset_fut t t' : fut t = fut t' → mset [t] = mset [t'].
Proof. unfold mset. simpl. by intros ->. Qed.

Lemma mset_NoDup l x : NoDup (fut <$> l) → (multiplicity x (mset l) ≤ 1)%nat.
Proof.
  unfold mset. induction l as [|t l IH]; [intros _; simpl; rewrite multiplicity_empty; lia|].
  rewrite fmap_cons, list_to_set_disj_cons, multiplicity_disj_union. intros [Hn Hnd]%NoDup_cons.
  specialize (IH Hnd). rewrite multiplicity_singleton. case_decide as Hx; [|lia].
  assert (x ∉ (list_to_set_disj (fut <$> l) : gmultiset Z)) as Hz%not_elem_of_multiplicity
    by (rewrite elem_of_list_to_set_disj; by subst). lia.
Qed.

(** Split the multisets of concrete lists and solve. *)
Ltac mset_step :=
  match goal with
  | |- context [mset (?l ++ ?k)] => rewrite (mset_app l k)
  | H : context [mset (?l ++ ?k)] |- _ => rewrite (mset_app l k) in H
  | |- context [mset (?t :: ?l)] => lazymatch l with [] => fail | _ => rewrite (mset_cons t l) end
  | H : context [mset (?t :: ?l)] |- _ => lazymatch l with [] => fail | _ => rewrite (mset_cons t l) in H end
  end.
Ltac mset_solve :=
  unfold push_back, push_front in *; repeat mset_step; rewrite ?mset_nil in *; multiset_solver.

(** ** The invariant of an executor *)
Record Good (e : Executor) : Prop := {
  g_list : list_ok e;
  g_level : level_ok e;
  g_series : in_usize (exec_series e);
  g_shared : shared (listed e ++ shared_tasks e);
  g_workers : Forall is_Some (workers (thread_pool e));
  g_jobs : shared (wt_task <$> queued (thread_pool e));
  g_keys : keys_sorted (local_sleeping_tasks e);
}.

(** An operation that adds tasks to what the executor holds. *)
Record moved (added : gmultiset Z) (e e' : Executor) : Prop := {
  mv_good : Good e → Good e';
  mv_held : held e' = added ⊎ held e;
  mv_local : (length (local_tasks e) ≤ length (local_tasks e'))%nat;
  mv_call : current_call e' = current_call e;
}.

Lemma moved_refl e : moved ∅ e e.
Proof. constructor; [done|multiset_solver|done|done]. Qed.

Lemma moved_trans a b e1 e2 e3 : moved a e1 e2 → moved b e2 e3 → moved (b ⊎ a) e1 e3.
Proof.
  intros [H1 H2 H3 H4] [H5 H6 H7 H8]. constructor; [by auto| |lia|congruence].
  rewrite H6, H2. multiset_solver.
Qed.

(** Changes that do not concern tasks. *)
Lemma moved_series x e : in_usize x → moved ∅ e (set_exec_series x e).
Proof. intros Hx. constructor; [by intros []; constructor| |done|done]. unfold held, listed. simpl. multiset_solver. Qed.

Lemma moved_times a b e : moved ∅ e (set_times a b e).
Proof. constructor; [by intros []; constructor| |done|done]. unfold held, listed. simpl. multiset_solver. Qed.

Lemma moved_local_back t e :
  moved (mset [t]) e (set_local_tasks (push_back (local_tasks e) t) e).
Proof.
  constructor; [by intros []; constructor| | |done].
  - unfold held, listed. simpl. mset_solve.
  - simpl. unfold push_back. rewrite length_app. lia.
Qed.

Lemma moved_local_front t e :
  moved (mset [t]) e (set_local_tasks (push_front (local_tasks e) t) e).
Proof.
  constructor; [by intros []; constructor| | |done].
  - unfold held, listed. simpl. mset_solve.
  - simpl. lia.
Qed.

Lemma moved_shared_front t e :
  Task_is_local t = false → moved (mset [t]) e (set_shared_tasks (push_front (shared_tasks e) t) e).
Proof.
  intros Ht. constructor; [|unfold held, listed; simpl; mset_solve|done|done].
  intros [H1 H2 H3 H4 H5 H6 H7]. constructor; try done. simpl. unfold shared, listed in *. simpl.
  rewrite Forall_app in *. destruct H4. split; [done|]. by constructor.
Qed.

Lemma moved_reshared added e e' :
  reshared e e' → (is_Some (shared_tasks_list e) → is_Some (shared_tasks_list e')) →
  (shared (listed e ++ shared_tasks e) → shared (listed e' ++ shared_tasks e')) →
  mset (listed e') ⊎ mset (shared_tasks e') = added ⊎ mset (listed e) ⊎ mset (shared_tasks e) →
  moved added e e'.
Proof.
  intros (tl & l & ->) Hl Hs Hm. constructor; [|unfold held; simpl in *; multiset_solver|done|done].
  intros [H1 H2 H3 H4 H5 H6 H7]. constructor; try done; [|by apply Hs]. intros Hw. by apply Hl, H1.
Qed.

(** ** The operations move tasks *)
Lemma moved_spawn_shared p lk t e e' :
  Task_is_local t = false → spawn_shared_task p lk t e = Val e' → moved (mset [t]) e e'.
Proof.
  intros Ht (Hp & Hr & Hl & _)%spawn_shared_task_Val. apply moved_reshared; [done..| |].
  - unfold shared. rewrite Hp. intros Hs. by constructor.
  - apply mset_perm in Hp. mset_solve.
Qed.

Lemma moved_spawn_local p t e e' : spawn_local_task p t e = Val e' → moved (mset [t]) e e'.
Proof. unfold spawn_local_task. intros. outcome_inv. apply moved_local_back. Qed.

Lemma moved_spawn p lk t e e' : spawn_task p lk t e = Val e' → moved (mset [t]) e e'.
Proof.
  unfold spawn_task. destruct (Task_is_local t) eqn:Ht; [apply moved_spawn_local|by apply moved_spawn_shared].
Qed.

Lemma moved_yield p t e e' : yield_now p t e = Val e' → moved (mset [t]) e e'.
Proof.
  unfold yield_now, add_task_at_the_start_of_lifo_local_queue, add_task_at_the_start_of_lifo_shared_queue.
  destruct (Task_is_local t) eqn:Ht; intros; outcome_inv; [apply moved_local_front|by apply moved_shared_front].
Qed.

Lemma moved_exec p lk t e e' o :
  exec_task p lk t e = Val (e', o) →
  (o = Some t ∧ e' = e) ∨ (o = None ∧ moved (mset [t]) e e').
Proof.
  unfold exec_task. destruct (Z.ltb_spec (exec_series e) 63); [intros [= <- <-]; by left|].
  intros (e1 & Hs & [= <- <-])%outcome_bind_Val. right. split; [done|].
  replace (mset [t]) with (mset [t] ⊎ ∅) by multiset_solver.
  eapply moved_trans; [by apply (moved_series 0)|].
  destruct (Task_is_local t) eqn:Ht; [by eapply moved_spawn_local|by eapply moved_spawn_shared].
Qed.

Lemma moved_sleep s t e s' e' :
  keys_sorted (local_sleeping_tasks e) → sleep_poll s t e = Val (s', e', Pending) → moved (mset [t]) e e'.
Proof.
  intros Hk (k & _ & -> & Hnk)%sleep_poll_Val. constructor; [| |done|done].
  - intros [H1 H2 H3 H4 H5 H6 H7]. constructor; try done. simpl. by apply btree_insert_sorted.
  - unfold held, listed. simpl.
    pose proof (mset_perm _ _ (fmap_Permutation snd _ _ (btree_insert_Permutation k t _ Hnk))) as Hp.
    simpl in Hp. mset_solve.
Qed.

Lemma queued_push pool k chan w x results :
  workers pool !! k = Some (Some chan) →
  queued (mkPool w (<[k := Some (chan ++ [x])]> (workers pool)) results) ≡ₚ x :: queued pool.
Proof.
  intros Hk. destruct (queued_insert pool k chan Hk) as (a & b & -> & Hq & _). rewrite Hq.
  rewrite <- app_assoc. simpl. rewrite (app_assoc a), <- Permutation_middle. by rewrite <- app_assoc.
Qed.

Lemma moved_pool_push p t f e pool :
  Task_is_local t = false → pool_push p t f (thread_pool e) = Val pool →
  moved (mset [t]) e (set_thread_pool pool e).
Proof.
  intros Ht. unfold pool_push. intros. outcome_inv. unfold push_back.
  pose proof (queued_push _ _ _ x2 (mkWorkerTask t f) (result_list (thread_pool e)) H0) as Hq.
  constructor; [| |done|done].
  - intros [G1 G2 G3 G4 G5 G6 G7]. constructor; try done; simpl; [by apply Forall_insert|].
    unfold shared. rewrite Hq. simpl. by constructor.
  - unfold held, listed, pool_tasks. simpl.
    pose proof (mset_perm _ _ (fmap_Permutation wt_task _ _ Hq)) as Hp. simpl in Hp. mset_solve.
Qed.

(** *** Lists of waiting tasks *)
Lemma waiting_insert x a l :
  sync_lists x !! a = Some l →
  ∃ r, waiting x = mset l ⊎ r ∧ ∀ l' c f, waiting (mkMem (<[a := l']> (sync_lists x)) c f) = mset l' ⊎ r.
Proof.
  intros Ha. exists (mset (concat (map_to_list (delete a (sync_lists x))).*2)). unfold waiting. split.
  - rewrite <- (insert_delete_id _ _ _ Ha) at 1. rewrite map_to_list_insert by apply lookup_delete_eq.
    simpl. by rewrite mset_app.
  - intros l' c f. simpl. rewrite <- insert_delete_eq, map_to_list_insert by apply lookup_delete_eq.
    simpl. by rewrite mset_app.
Qed.

Lemma SyncTaskList_pop_Some l t l' : SyncTaskList_pop l = (Some t, l') → l = l' ++ [t].
Proof.
  unfold SyncTaskList_pop. destruct (pop_back l) as [[t' k]|] eqn:Hp; [|done].
  intros [= -> ->]. by apply pop_back_Some.
Qed.

Definition lists_shared (x : Mem) : Prop := map_Forall (λ _ l, shared l) (sync_lists x).

Lemma fut_set_locality l t : is_locality l → fut (Task_set_locality l t) = fut t.
Proof. intros Hl. apply (TaskData_set_locality_spec (data t) l Hl). Qed.

Lemma moved_call c e : Good e → Good (set_current_call c e).
Proof. by intros []; constructor. Qed.

Lemma held_call c e : held (set_current_call c e) = held e.
Proof. done. Qed.

(** What [handle_call] does with the task of the poll that has returned. *)
Record handled (t : Task) (e : Executor) (x : Mem) (e' : Executor) (x' : Mem) (o : option Task) : Prop := {
  hd_good : Good e → Good e';
  hd_local : (length (local_tasks e) ≤ length (local_tasks e'))%nat;
  hd_call : current_call e' = Call_None;
  hd_lists : lists_shared x → lists_shared x';
  hd_held : held e' ⊎ waiting x' ⊎ mset (option_list o) =
    held e ⊎ waiting x ⊎ mset (if given_before (current_call e) then [] else [t]);
}.

Lemma handled_moved t e x e' :
  given_before (current_call e) = false → moved (mset [t]) (set_current_call Call_None e) e' →
  handled t e x e' x None.
Proof.
  intros Hg [H1 H2 H3 H4]. constructor; try done.
  - intros HG. by apply H1, moved_call.
  - rewrite Hg, H2, held_call. simpl. mset_solve.
Qed.

Lemma handled_push t e x a l c f :
  given_before (current_call e) = false → Task_is_local t = false → sync_lists x !! a = Some l →
  handled t e x (set_current_call Call_None e) (mkMem (<[a := push_back l t]> (sync_lists x)) c f) None.
Proof.
  intros Hg Ht Ha. destruct (waiting_insert x a l Ha) as (r & Hw & Hw'). constructor; try done.
  - apply moved_call.
  - intros Hs. apply map_Forall_insert_2; [|done]. unfold shared, push_back.
    apply Forall_app. split; [by apply (Hs a l)|by constructor].
  - rewrite Hg, held_call, Hw, Hw'. simpl. mset_solve.
Qed.

Lemma handle_call_handled p lk t e x e' x' o :
  call_allowed (current_call e) t → handle_call p lk t e x = Val (e', x', o) → handled t e x e' x' o.
Proof.
  intros Hc Hh. unfold handle_call in Hh. destruct (current_call e) as [| |a|a b|a|f|l] eqn:Hcall; simpl in Hc.
  - done.
  - outcome_inv. apply handled_moved; [by rewrite Hcall|].
    exact (moved_shared_front t (set_current_call Call_None e) Hc).
  - outcome_inv. unfold SyncTaskList_push in H0. outcome_inv.
    apply handled_push; [by rewrite Hcall|done..].
  - apply outcome_bind_Val in Hh as (l & Hl & Hh). apply unchecked_Val in Hl.
    apply outcome_bind_Val in Hh as (l1 & Hl1 & Hh). unfold SyncTaskList_push in Hl1.
    apply outcome_bind_Val in Hl1 as (? & _ & [= <-]). apply outcome_bind_Val in Hh as (c & _ & Hh).
    destruct (c =? 0).
    + unfold SyncTaskList_pop, push_back in Hh. rewrite pop_back_snoc in Hh.
      apply outcome_bind_Val in Hh as ([e1 o1] & He & [= <- <- <-]). simpl.
      destruct (waiting_insert x a l Hl) as (r & Hw & Hw').
      destruct (moved_exec _ _ _ _ _ _ He) as [(-> & ->)|(-> & [M1 M2 M3 M4])]; constructor; try done.
      * apply moved_call.
      * intros Hsh. apply map_Forall_insert_2; [by apply (Hsh a l)|done].
      * rewrite Hcall, held_call, Hw, Hw'. simpl. mset_solve.
      * intros HG. by apply M1, moved_call.
      * intros Hsh. apply map_Forall_insert_2; [by apply (Hsh a l)|done].
      * rewrite Hcall, M2, held_call, Hw, Hw'. simpl. mset_solve.
    + outcome_inv. apply handled_push; [by rewrite Hcall|done..].
  - outcome_inv. constructor; try done; [apply moved_call|].
    rewrite Hcall, held_call. unfold waiting. simpl. mset_solve.
  - outcome_inv. apply handled_moved; [by rewrite Hcall|].
    by eapply (moved_pool_push p t f (set_current_call Call_None e)).
  - outcome_inv. apply handled_moved; [by rewrite Hcall|].
    rewrite (mset_fut t (Task_set_locality l t)) by (symmetry; by apply fut_set_locality).
    apply Bool.eqb_prop in H. destruct (Locality_is_local l).
    + by eapply moved_spawn_local.
    + by eapply moved_spawn_shared.
Qed.

(** ** The invariant of the machine *)
Definition round_ok (ph : Phase) (e : Executor) : Prop :=
  match ph with LocalRound k => (k ≤ length (local_tasks e))%nat | _ => True end.

Record Inv (m : Machine) : Prop := {
  mi_good : Good (ex m);
  mi_lists : lists_shared (mem m);
  mi_round : round_ok (phase m) (ex m);
  mi_call : current_call (ex m) ≠ Call_None →
    ∃ t g fs, stack m = mkFrame t g :: fs ∧ call_allowed (current_call (ex m)) t ∧
      g = given_before (current_call (ex m));
  mi_tasks : owned m ⊎ mset (gone m) = mset (born m);
}.

Lemma round_ok_le ph e e' :
  (length (local_tasks e) ≤ length (local_tasks e'))%nat → round_ok ph e → round_ok ph e'.
Proof. destruct ph; simpl; try done. lia. Qed.

Lemma exec_task_now_begin_Val p b t e e' t' :
  exec_task_now_begin p false b t e = Val (e', t') → in_usize (exec_series e) →
  ∃ x, in_usize x ∧ t' = t ∧ e' = set_exec_series x e ∧ b = false.
Proof.
  unfold exec_task_now_begin. intros (x & Hx & Hb)%outcome_bind_Val Hs.
  exists x. split; [eapply usize_add_in_usize; [exact Hs| |exact Hx]; unfold in_usize, usize_modulus; lia|].
  destruct p.
  - unfold Task_check_safety in Hb. destruct b; [done|]. simpl in Hb.
    destruct (Task_is_local t && _); simpl in Hb; by simplify_eq.
  - destruct b; by simplify_eq.
Qed.

(** After an operation that may have a task executed. *)
Lemma start_inv p e o m m' :
  Good e → lists_shared (mem m) → round_ok (phase m) e → current_call e = Call_None →
  held e ⊎ waiting (mem m) ⊎ mset (frame_tasks (stack m)) ⊎ mset (parked m) ⊎ mset (option_list o)
    ⊎ mset (gone m) = mset (born m) →
  start p (e, o) m = Val m' → Inv m'.
Proof.
  intros HG HL HR HC HT. unfold start. simpl. destruct o as [t|].
  - intros ([e' t'] & Hb & [= <-])%outcome_bind_Val.
    apply exec_task_now_begin_Val in Hb as (x & Hx & -> & -> & _); [|apply HG]. simpl.
    destruct (moved_series x e Hx) as [M1 M2 M3 M4].
    constructor; simpl; [by apply M1|done|by eapply round_ok_le|by rewrite HC|].
    unfold owned. simpl. rewrite M2. simpl in HT. mset_solve.
  - intros [= <-]. constructor; simpl; [done..|by rewrite HC|]. unfold owned. simpl in *. mset_solve.
Qed.

Lemma start_moved p lk t e r m m' :
  Good e → lists_shared (mem m) → round_ok (phase m) e → current_call e = Call_None →
  held e ⊎ waiting (mem m) ⊎ mset (frame_tasks (stack m)) ⊎ mset (parked m) ⊎ mset [t]
    ⊎ mset (gone m) = mset (born m) →
  exec_task p lk t e = Val r → start p r m = Val m' → Inv m'.
Proof.
  intros HG HL HR HC HT He Hs. destruct r as [e' o].
  destruct (moved_exec _ _ _ _ _ _ He) as [(-> & ->)|(-> & [M1 M2 M3 M4])].
  - by apply (start_inv p e (Some t) m m').
  - eapply start_inv; [..|exact Hs]; [by apply M1|done|by eapply round_ok_le|by rewrite M4|].
    rewrite M2. simpl. mset_solve.
Qed.

(** An operation of the executor alone. *)
Lemma moved_inv added e' m m' :
  Inv m → moved added (ex m) e' → ex m' = e' → lists_shared (mem m') →
  round_ok (phase m') e' → current_call e' = Call_None →
  added ⊎ held (ex m) ⊎ waiting (mem m') ⊎ mset (frame_tasks (stack m')) ⊎ mset (parked m')
    ⊎ mset (gone m') = mset (born m') → Inv m'.
Proof.
  intros HI [M1 M2 M3 M4] <- HL HR HC HT. constructor; [by apply M1, HI|done|done|by rewrite HC|].
  unfold owned. rewrite M2. multiset_solver.
Qed.

(** *** Steps of the loop *)
Lemma inv_loop_round m now l s e :
  Inv m → stack m = [] → Forall (λ t, Task_is_local t = true) l → shared s →
  e = prepare_to_new_round now (ex m) →
  Inv (with_phase (LocalRound (length (local_tasks e ++ l)))
      (with_born (l ++ s ++ born m)
        (with_ex (set_local_tasks (local_tasks e ++ l) (set_shared_tasks (shared_tasks e ++ s) e)) m))).
Proof.
  intros HI Hst Hl Hs ->. destruct (mi_good _ HI) as [H1 H2 H3 H4 H5 H6 H7].
  pose proof (mi_tasks _ HI) as HT. constructor; simpl.
  - constructor; simpl; try done. unfold shared, listed in *. simpl. rewrite !Forall_app in *. tauto.
  - apply HI.
  - done.
  - apply HI.
  - unfold owned, held, listed in *. simpl in *. mset_solve.
Qed.

Lemma call_none m : Inv m → stack m = [] → current_call (ex m) = Call_None.
Proof.
  intros HI Hst. destruct (decide (Call_is_none (current_call (ex m)) = true)) as [Hc|Hc].
  - by destruct (current_call (ex m)).
  - destruct (mi_call _ HI) as (t & g & fs & Hs & _); [intros He; by rewrite He in Hc|]. by rewrite Hst in Hs.
Qed.

Lemma inv_loop_local p m k lk r m' :
  Inv m → stack m = [] → phase m = LocalRound (S k) → local_round_turn p lk (ex m) = Val r →
  start p r (with_phase (LocalRound k) m) = Val m' → Inv m'.
Proof.
  intros HI Hst Hph Hl Hs. pose proof (call_none m HI Hst) as Hc.
  pose proof (mi_round _ HI) as HR. rewrite Hph in HR. simpl in HR.
  unfold local_round_turn in Hl. apply outcome_bind_Val in Hl as (? & _ & Hl).
  apply outcome_bind_Val in Hl as ([t rest] & Hp & Hl). apply unchecked_Val, pop_back_Some in Hp. simpl in Hl.
  rewrite Hp, length_app in HR. simpl in HR. pose proof (mi_tasks _ HI) as HT.
  eapply start_moved; [..|exact Hl|exact Hs]; simpl.
  - destruct (mi_good _ HI); by constructor.
  - apply HI.
  - lia.
  - done.
  - unfold owned, held, listed in *. simpl. rewrite Hp in HT. mset_solve.
Qed.

Lemma inv_loop_shared p m k lk r m' :
  Inv m → stack m = [] → phase m = SharedRound (S k) → shared_round_turn p lk (ex m) = Val (Some r) →
  start p r (with_phase (SharedRound k) m) = Val m' → Inv m'.
Proof.
  intros HI Hst Hph Hl Hs. pose proof (call_none m HI Hst) as Hc.
  unfold shared_round_turn in Hl. destruct (pop_back (shared_tasks (ex m))) as [[t rest]|] eqn:Hp; [|done].
  apply outcome_bind_Val in Hl as (r' & Hl & [= ->]). apply pop_back_Some in Hp.
  pose proof (mi_tasks _ HI) as HT. destruct (mi_good _ HI) as [H1 H2 H3 H4 H5 H6 H7].
  eapply start_moved; [..|exact Hl|exact Hs]; simpl.
  - constructor; simpl; try done. unfold shared, listed in *. simpl. rewrite Hp, !Forall_app in *. tauto.
  - apply HI.
  - done.
  - done.
  - unfold owned, held, listed in *. simpl. rewrite Hp in HT. mset_solve.
Qed.

Lemma moved_pool_poll p e pool l b :
  pool_poll p (local_tasks e) (thread_pool e) = Val (pool, l, b) →
  moved ∅ e (set_local_tasks l (set_thread_pool pool e)).
Proof.
  unfold pool_poll. destruct (_ =? 0); [intros [= <- <- <-]; destruct e; apply moved_refl|].
  rewrite pop_all_in_deque_eq. intros (w & _ & [= <- <- <-])%outcome_bind_Val. constructor.
  - intros [H1 H2 H3 H4 H5 H6 H7]. by constructor.
  - unfold held, listed, pool_tasks, queued. simpl. mset_solve.
  - simpl. rewrite length_app. lia.
  - done.
Qed.

Lemma moved_take_work p lk rng lists e e' lists' got :
  shared (tasks_of lists) → take_work_if_needed p lk rng (Some lists) e = Val (e', Some lists') →
  tasks_of lists ≡ₚ got ++ tasks_of lists' → moved (mset got) e e'.
Proof.
  intros Hsh (taken & Ht & Hr & Hp & Hl)%take_work_Val Hgot.
  assert (taken ++ listed e' ≡ₚ listed e ++ got) as Hq.
  { apply (Permutation_app_inv_r (tasks_of lists')). by rewrite <- !app_assoc, Hp, Hgot. }
  assert (listed e' ++ shared_tasks e' ≡ₚ got ++ listed e ++ shared_tasks e) as Hall.
  { rewrite Ht, (Permutation_app_comm (shared_tasks e)), app_assoc, (Permutation_app_comm (listed e')).
    rewrite Hq, (Permutation_app_comm (listed e)). by rewrite app_assoc. }
  apply moved_reshared; [done|done| |].
  - unfold shared. rewrite Hall. intros Hs. apply Forall_app. split; [|done].
    unfold shared in Hsh. rewrite Hgot in Hsh. by apply Forall_app in Hsh as [? _].
  - apply mset_perm in Hall. mset_solve.
Qed.

Lemma inv_loop_background p m lk rng lists e lists' got pool l b now :
  Inv m → stack m = [] → shared (tasks_of lists) →
  take_work_if_needed p lk rng (Some lists) (ex m) = Val (e, Some lists') →
  tasks_of lists ≡ₚ got ++ tasks_of lists' →
  pool_poll p (local_tasks e) (thread_pool e) = Val (pool, l, b) →
  Inv (with_phase Sleepers (with_born (got ++ born m)
      (with_ex (check_sleeping_begin now (set_local_tasks l (set_thread_pool pool e))) m))).
Proof.
  intros HI Hst Hsh Htw Hgot Hpoll. pose proof (call_none m HI Hst) as Hc.
  pose proof (moved_take_work _ _ _ _ _ _ _ _ Hsh Htw Hgot) as M1.
  pose proof (moved_pool_poll _ _ _ _ _ Hpoll) as M2.
  set (e2 := set_local_tasks l (set_thread_pool pool e)) in *.
  assert (moved ∅ e2 (check_sleeping_begin now e2)) as M3.
  { unfold check_sleeping_begin. destruct (local_sleeping_tasks e2); [apply moved_refl|apply moved_times]. }
  pose proof (moved_trans _ _ _ _ _ (moved_trans _ _ _ _ _ M1 M2) M3) as M.
  pose proof (mi_tasks _ HI) as HT.
  eapply (moved_inv _ _ m); [done|exact M|done|apply HI|done| |].
  - by rewrite (mv_call _ _ _ M).
  - simpl. unfold owned in HT. mset_solve.
Qed.

Lemma inv_loop_wake p m lk e o m' :
  Inv m → stack m = [] → phase m = Sleepers → check_sleeping_turn p lk (ex m) = Val (Woken e o) →
  start p (e, o) m = Val m' → Inv m'.
Proof.
  intros HI Hst Hph Hck Hs. pose proof (call_none m HI Hst) as Hc. pose proof (mi_tasks _ HI) as HT.
  unfold check_sleeping_turn in Hck. destruct (local_sleeping_tasks (ex m)) as [|[k t] rest] eqn:Hsl; [done|].
  simpl in Hck. destruct (k <=? _); [|done].
  assert (Good (set_sleeping rest (ex m))) as HG.
  { destruct (mi_good _ HI) as [H1 H2 H3 H4 H5 H6 H7]. constructor; try done. simpl.
    rewrite Hsl in H7. unfold keys_sorted in *. simpl in H7. by apply StronglySorted_inv in H7 as [? _]. }
  assert (held (ex m) = mset [t] ⊎ held (set_sleeping rest (ex m))) as Hh.
  { unfold held, listed. simpl. rewrite Hsl. simpl. mset_solve. }
  unfold owned in HT. rewrite Hh in HT. destruct (Task_is_local t) eqn:Ht.
  - apply outcome_bind_Val in Hck as ([e1 o1] & He & [= <- <-]). simpl in Hs.
    eapply start_moved; [exact HG|apply HI|by rewrite Hph|done| |exact He|exact Hs]. mset_solve.
  - apply outcome_bind_Val in Hck as (e1 & He & [= <- <-]).
    apply moved_spawn_shared in He as [M1 M2 M3 M4]; [|done].
    apply (start_inv p e1 None m m'); [by apply M1|apply HI|by rewrite Hph|by rewrite M4| |exact Hs].
    rewrite M2. simpl. mset_solve.
Qed.

(** *** Steps of tasks *)
Lemma inv_pending size_of p m t g fs lk e x o m' :
  Inv m → stack m = mkFrame t g :: fs → g = given_before (current_call (ex m)) →
  exec_task_now_end size_of p lk t Pending (ex m) (mem m) = Val (e, x, o) →
  start p (e, o) (with_stack fs (with_mem x m)) = Val m' → Inv m'.
Proof.
  intros HI Hst Hg Hend Hs. pose proof (mi_tasks _ HI) as HT. unfold owned in HT. rewrite Hst in HT.
  unfold exec_task_now_end in Hend. destruct (negb (Call_is_none (current_call (ex m)))) eqn:Hn.
  - destruct (mi_call _ HI) as (t' & g' & fs' & Hst' & Hall & _); [intros He; by rewrite He in Hn|].
    rewrite Hst in Hst'. injection Hst' as <- <- <-.
    destruct (handle_call_handled _ _ _ _ _ _ _ _ Hall Hend) as [D1 D2 D3 D4 D5].
    eapply start_inv; [..|exact Hs]; simpl; [by apply D1, HI|by apply D4, HI| |done|].
    + eapply round_ok_le; [done|apply HI].
    + subst g. simpl in HT. destruct (given_before (current_call (ex m))); simpl in *; mset_solve.
  - injection Hend as <- <- <-. apply negb_false_iff in Hn.
    assert (current_call (ex m) = Call_None) as Hc by by destruct (current_call (ex m)).
    rewrite Hc in Hg. subst g. simpl in HT.
    apply (start_inv p (ex m) None (with_stack fs (with_mem (mem m) m)) m'); simpl; try done; try apply HI.
    mset_solve.
Qed.

Lemma waiting_pop x a l t l' c f :
  sync_lists x !! a = Some l → SyncTaskList_pop l = (Some t, l') →
  waiting x = mset [t] ⊎ waiting (mkMem (<[a := l']> (sync_lists x)) c f) ∧
  (lists_shared x → lists_shared (mkMem (<[a := l']> (sync_lists x)) c f)).
Proof.
  intros Ha ->%SyncTaskList_pop_Some. destruct (waiting_insert x a _ Ha) as (r & -> & Hw). rewrite Hw.
  split; [mset_solve|]. intros Hs. apply map_Forall_insert_2; [|done].
  specialize (Hs _ _ Ha). by apply Forall_app in Hs as [? _].
Qed.

Lemma waiting_new x a : sync_lists x !! a = None → waiting (set_list a [] x) = waiting x.
Proof. intros Ha. unfold waiting. simpl. by rewrite map_to_list_insert. Qed.

(** A step that leaves the executor as it is. *)
Lemma same_ex_inv m m' :
  Inv m → ex m' = ex m → phase m' = phase m → lists_shared (mem m') →
  (current_call (ex m) = Call_None ∨ stack m' = stack m) →
  held (ex m) ⊎ waiting (mem m') ⊎ mset (frame_tasks (stack m')) ⊎ mset (parked m')
    ⊎ mset (gone m') = mset (born m') → Inv m'.
Proof.
  intros HI He Hp HL HC HT. constructor.
  - rewrite He. apply HI.
  - done.
  - rewrite He, Hp. apply HI.
  - rewrite He. destruct HC as [HC|HC]; [by rewrite HC|rewrite HC; apply HI].
  - unfold owned. rewrite He. multiset_solver.
Qed.

Lemma inv_worker p m k pool job :
  Inv m → worker_turn p false k (thread_pool (ex m)) = Some (pool, job) →
  Inv (with_ex (set_thread_pool pool (ex m)) m).
Proof.
  intros HI Hw. destruct (mi_good _ HI) as [H1 H2 H3 H4 H5 H6 H7]. pose proof (mi_tasks _ HI) as HT.
  unfold worker_turn in Hw.
  destruct (workers (thread_pool (ex m)) !! k) as [[[|j chan]|]|] eqn:Hk; try done.
  destruct (queued_insert _ _ _ Hk) as (a & b & Hq & Hq' & _).
  assert (Task_is_local (wt_task j) = false) as Hj.
  { rewrite Hq in H6. unfold shared in H6. rewrite !fmap_app, fmap_cons, !Forall_app, Forall_cons in H6. tauto. }
  unfold SyncTaskList_push in Hw. rewrite Hj, debug_assert_true in Hw. simpl in Hw. injection Hw as <- <-.
  constructor; simpl.
  - constructor; simpl; try done; [by apply Forall_insert|]. rewrite Hq'. rewrite Hq in H6. unfold shared in *.
    rewrite !fmap_app, fmap_cons, !Forall_app, Forall_cons in H6. rewrite !fmap_app, !Forall_app. tauto.
  - apply HI.
  - apply HI.
  - apply HI.
  - unfold owned, held, pool_tasks, listed in *. simpl. rewrite Hq'. rewrite Hq in HT.
    rewrite !fmap_app, fmap_cons in HT. rewrite !fmap_app. mset_solve.
Qed.

Lemma inv_other_list m l l' g b :
  Inv m → shared_tasks_list (ex m) = Some l →
  (shared (list_tasks l ++ shared_tasks (ex m)) → shared (list_tasks l' ++ shared_tasks (ex m))) →
  mset (list_tasks l') ⊎ mset g ⊎ mset (born m) = mset (list_tasks l) ⊎ mset (gone m) ⊎ mset b →
  Inv (with_gone g (with_born b (with_ex (set_shared_tasks_list (Some l') (ex m)) m))).
Proof.
  intros HI Hl Hs Hm. destruct (mi_good _ HI) as [H1 H2 H3 H4 H5 H6 H7]. pose proof (mi_tasks _ HI) as HT.
  constructor; simpl.
  - constructor; simpl; try done; [by intros _|]. apply Hs. unfold listed in H4. by rewrite Hl in H4.
  - apply HI.
  - apply HI.
  - apply HI.
  - unfold owned, held, listed in *. simpl. rewrite Hl in HT. multiset_solver.
Qed.

Lemma check_sleeping_awake p lk e e' n :
  keys_sorted (local_sleeping_tasks e) → check_sleeping_turn p lk e = Val (NothingDue e' n) → e' = e.
Proof.
  intros Hk. unfold check_sleeping_turn. destruct (local_sleeping_tasks e) as [|[k t] rest] eqn:Hsl.
  { by intros [= <- <-]. }
  simpl. destruct (k <=? _).
  { destruct (Task_is_local t); by intros (? & _ & ?)%outcome_bind_Val. }
  rewrite btree_insert_first by done. intros [= <- <-]. destruct e; simpl in *. by subst.
Qed.

Lemma inv_user_exec p m a t b lk r m' :
  Inv m → current_call (ex m) = Call_None → parked m = a ++ t :: b → exec_task p lk t (ex m) = Val r →
  start p r (with_parked (a ++ b) m) = Val m' → Inv m'.
Proof.
  intros HI Hc Hp He Hs. pose proof (mi_tasks _ HI) as HT. unfold owned in HT. rewrite Hp in HT.
  eapply start_moved; [..|exact He|exact Hs]; simpl; [apply HI..|done|]. mset_solve.
Qed.

(** The current poll gives its task to the executor. *)
Lemma inv_user_give added t fs m e :
  Inv m → stack m = mkFrame t false :: fs → current_call (ex m) = Call_None →
  added = mset [t] → moved added (ex m) e → Inv (with_stack (mkFrame t true :: fs) (with_ex e m)).
Proof.
  intros HI Hst Hc -> HM. pose proof (mi_tasks _ HI) as HT. unfold owned in HT. rewrite Hst in HT.
  eapply (moved_inv _ e m); [done|exact HM|done|apply HI|eapply round_ok_le; [apply HM|apply HI]| |].
  - by rewrite (mv_call _ _ _ HM).
  - simpl in *. mset_solve.
Qed.

Lemma inv_user_spawn p m a t b lk e :
  Inv m → parked m = a ++ t :: b → current_call (ex m) = Call_None → spawn_task p lk t (ex m) = Val e →
  Inv (with_parked (a ++ b) (with_ex e m)).
Proof.
  intros HI Hp Hc He. pose proof (mi_tasks _ HI) as HT. apply moved_spawn in He as HM.
  unfold owned in HT. rewrite Hp in HT.
  eapply (moved_inv _ e m); [done|exact HM|done|apply HI|eapply round_ok_le; [apply HM|apply HI]| |].
  - by rewrite (mv_call _ _ _ HM).
  - simpl. mset_solve.
Qed.

Lemma inv_user_ready size_of p m t fs lk e x :
  Inv m → stack m = mkFrame t false :: fs → current_call (ex m) = Call_None →
  exec_task_now_end size_of p lk t (Ready ()) (ex m) (mem m) = Val (e, x, None) →
  Inv (with_stack fs (with_gone (t :: gone m) (with_mem x (with_ex e m)))).
Proof.
  intros HI Hst Hc Hend. pose proof (mi_tasks _ HI) as HT. unfold exec_task_now_end in Hend.
  outcome_inv. unfold owned in HT. rewrite Hst in HT.
  constructor; simpl; [|apply HI|apply HI|by rewrite Hc|].
  - destruct (mi_good _ HI). by constructor.
  - unfold owned, held, listed in *. simpl in *. mset_solve.
Qed.

Lemma inv_other_list_push m a l t :
  Inv m → sync_lists (mem m) !! a = Some l → Task_is_local t = false →
  Inv (with_mem (set_list a (push_back l t) (mem m)) (with_born (t :: born m) m)).
Proof.
  intros HI Ha Ht. pose proof (mi_tasks _ HI) as HT. destruct (waiting_insert _ _ _ Ha) as (r & Hw & Hw').
  apply (same_ex_inv m); simpl; [done..| |by right|].
  - apply map_Forall_insert_2; [|apply HI]. apply Forall_app. split; [by apply (mi_lists _ HI a l)|by constructor].
  - unfold owned, set_list in *. rewrite Hw'. rewrite Hw in HT. mset_solve.
Qed.

Lemma em_inv_step size_of p m m' : Inv m → step size_of p m m' → Inv m'.
Proof.
  intros HI Hs. pose proof (mi_tasks _ HI) as HT.
  destruct Hs as [m t [_ Hc]|m a t b lk e [_ Hc] Hp He|m a t b lk r m' [_ Hc] Hp He Hst
    |m a t b m' [_ Hc] Hp Hst|m a t b [_ Hc] Hp
    |m t fs [_ Hc] Hst|m t fs e [_ Hc] Hst Hy|m t fs s s' e [_ Hc] Hst Hsl|m a [_ Hc] Ha
    |m a l t l' [_ Hc] Ha Hpop|m t g fs c e [_ Hc] Hst Hall Hg Hi|m t fs lk e x Hst Hc Hend
    |m t g fs lk e x o m' Hst Hg Hend Hstart|m Hst Hph|m Hst Hph|m now l s e Hst Hph Hl Hsh He|m k lk r m' Hst Hph Hl Hstart
    |m Hst Hph|m k lk r m' Hst Hph Hl Hstart|m k lk Hst Hph Hk
    |m lk rng lists e lists' got pool l b now Hst Hph Hsh Htw Hgot Hpoll|m lk e o m' Hst Hph Hck Hstart
    |m lk e n Hst Hph Hck|m Hst Hph|m l a t b Hl Hlt|m l ts Hl Hts|m a l t Ha Ht|m a l t l' Ha Hpop|m c f
    |m k pool job Hw].
  - apply (same_ex_inv m); simpl; [done..|apply HI|by left|]. unfold owned in HT. mset_solve.
  - by eapply inv_user_spawn.
  - by eapply inv_user_exec.
  - unfold owned in HT. rewrite Hp in HT. eapply start_inv; [..|exact Hst]; simpl; [apply HI..|done|]. mset_solve.
  - apply (same_ex_inv m); simpl; [done..|apply HI|by left|]. unfold owned in HT. rewrite Hp in HT. mset_solve.
  - apply (same_ex_inv m); simpl; [done..|apply HI|by left|]. unfold owned in HT. rewrite Hst in HT.
    simpl in HT. mset_solve.
  - eapply inv_user_give; [done..|by eapply moved_yield].
  - eapply inv_user_give; [done..|eapply moved_sleep; [apply HI|done]].
  - apply (same_ex_inv m); simpl; [done..| |by left|].
    + apply map_Forall_insert_2; [constructor|apply HI].
    + rewrite waiting_new by done. unfold owned in HT. multiset_solver.
  - destruct (waiting_pop _ _ _ _ _ (counters (mem m)) (flags (mem m)) Ha Hpop) as [Hw Hsh].
    apply (same_ex_inv m); simpl; [done..|apply Hsh, HI|by left|]. unfold owned, set_list in *. mset_solve.
  - unfold invoke_call in Hi. outcome_inv. constructor; simpl; [apply moved_call, HI|apply HI..| |done].
    intros _. by exists t, (given_before c), fs.
  - by eapply inv_user_ready.
  - by eapply inv_pending.
  - constructor; simpl; try apply HI; done.
  - constructor; simpl; try apply HI; done.
  - by eapply inv_loop_round.
  - by eapply inv_loop_local.
  - constructor; simpl; try apply HI; done.
  - by eapply inv_loop_shared.
  - constructor; simpl; try apply HI; done.
  - by eapply inv_loop_background.
  - by eapply inv_loop_wake.
  - apply check_sleeping_awake in Hck as ->; [|apply HI]. constructor; simpl; try apply HI; done.
  - constructor; simpl; try apply HI; done.
  - apply (inv_other_list m l _ _ (born m)); [done..| |simpl; rewrite Hlt; mset_solve].
    unfold shared. rewrite Hlt. simpl. rewrite !Forall_app, Forall_cons. tauto.
  - apply (inv_other_list m l _ (gone m) (ts ++ born m)); [done..| |simpl; mset_solve].
    unfold shared. simpl. rewrite !Forall_app. tauto.
  - by apply inv_other_list_push.
  - destruct (waiting_pop _ _ _ _ _ (counters (mem m)) (flags (mem m)) Ha Hpop) as [Hw Hsh].
    apply (same_ex_inv m); simpl; [done..|apply Hsh, HI|by right|]. unfold owned, set_list in *. mset_solve.
  - apply (same_ex_inv m); simpl; [done..|apply HI|by right|]. unfold owned, waiting in *. simpl. multiset_solver.
  - by eapply inv_worker.
Qed.

Lemma em_inv_init id now cfg : 0 ≤ work_sharing_level cfg → Inv (init id now cfg).
Proof.
  intros Hlev. unfold init, Executor_new. constructor; simpl; try done.
  - constructor; simpl; try done.
    + intros Hw. simpl in *. rewrite Hw. by eexists.
    + unfold listed. simpl. destruct (is_work_sharing_enabled cfg); constructor.
    + by apply Forall_replicate.
    + unfold shared. rewrite queued_new. constructor.
    + constructor.
  - unfold owned, held, waiting, listed, pool_tasks. simpl. rewrite queued_new.
    destruct (is_work_sharing_enabled cfg); simpl; rewrite map_to_list_empty; simpl; mset_solve.
Qed.

Lemma em_inv_reachable size_of p id now cfg m :
  0 ≤ work_sharing_level cfg → rtc (step size_of p) (init id now cfg) m → Inv m.
Proof.
  intros Hlev. apply (rtc_invariant (step size_of p) Inv); [intros; by eapply em_inv_step|].
  by apply em_inv_init.
Qed.

(** ** Theorems *)

Lemma exec_task_ok p lk t e :
  Good e → ∃ r, exec_task p lk t e = Val r.
Proof.
  intros [H1 H2 H3 H4 H5 H6 H7]. unfold exec_task. destruct (_ <? 63); [by eexists|].
  destruct (Task_is_local t) eqn:Ht.
  - unfold spawn_local_task. rewrite Ht, debug_assert_true. by eexists.
  - destruct (spawn_shared_task_ok p lk t (set_exec_series 0 e)) as [e' ->]; [done..|]. by eexists.
Qed.



(** Changing a shared task to a local one keeps the id of the executor that
    created it: in a debug build, if the task has moved since, executing it
    then panics. *)
Theorem locality_change_after_move_panics (locked : bool) (t : Task) (e : Executor) (x : Mem) :
  current_call e = ChangeCurrentTaskLocality Locality_local → executor_id t ≠ ex_id e →
  ∃ e' t',
    handle_call Debug locked t e x = Val (e', x, None) ∧
    local_tasks e' = local_tasks e ++ [t'] ∧ fut t' = fut t ∧
    ∀ e2 b, ex_id e2 = ex_id e → 0 ≤ exec_series e2 ≤ 63 →
      exec_task_now_begin Debug false b t' e2 = Panicked.
Proof.
  intros Hc Hid. unfold handle_call. rewrite Hc. set (t' := Task_set_locality Locality_local t).
  assert (is_locality Locality_local) as Hloc by by left.
  assert (Task_is_local t' = true) as Ht' by apply (TaskData_set_locality_spec (data t) Locality_local Hloc).
  exists (set_local_tasks (push_back (local_tasks e) t') (set_current_call Call_None e)), t'. split_and!.
  - rewrite Ht'. simpl. unfold spawn_local_task. rewrite Ht'. done.
  - done.
  - by apply fut_set_locality.
  - intros e2 b He2 Hs. unfold exec_task_now_begin. rewrite usize_add_Val by (unfold usize_modulus; lia). simpl.
    unfold Task_check_safety. destruct b; [done|]. rewrite Ht'. simpl. rewrite (proj2 (Z.eqb_neq _ _)); [done|].
    simpl. congruence.
Qed.

(** *** Nested polls *)
Lemma ex_task_fut (k : nat) :
  Z.of_nat k < 2 ^ 50 →
  fut (ex_task (Z.of_nat k)) = 64 * Z.of_nat k ∧ Task_is_local (ex_task (Z.of_nat k)) = true.
Proof.
  intros Hk. destruct (fat_ptr_small (64 * Z.of_nat k) 0) as [Hf Hu]; [lia..|].
  unfold fut, Task_future_ptr, TaskData_future_ptr, Task_is_local, TaskData_is_local, ex_task, TaskData_new.
  cbn [data future_tagged_ptr]. split.
  - rewrite (tag_future_ptr _ Locality_local Hu) by by left. lia.
  - by apply (tag_is_local _ Locality_local Hu); left.
Qed.

Section deep.
Context (size_of : Z → Z) (p : profile) (cfg : Config) (Hcfg : 0 ≤ work_sharing_level cfg).

(** [depth] polls are nested; their tasks are among the first [c] examples. *)
Record deep (depth c : nat) (m : Machine) : Prop := {
  dp_reach : rtc (step size_of p) (init 1 0 cfg) m;
  dp_depth : length (stack m) = depth;
  dp_tasks : Forall (λ f, ∃ k : nat, (k < c)%nat ∧ fr_task f = ex_task (Z.of_nat k)) (stack m);
  dp_user : user_code m;
  dp_id : ex_id (ex m) = 1;
}.

Lemma deep_new depth c m : deep depth c m →
  deep depth (S c) (with_parked (ex_task (Z.of_nat c) :: parked m)
    (with_born (ex_task (Z.of_nat c) :: born m) m)).
Proof.
  intros [H1 H2 H3 H4 H5]. constructor; try done.
  - eapply rtc_r; [done|]. by apply user_create.
  - eapply Forall_impl; [done|]. intros f (k & Hk & He). exists k. split; [lia|done].
Qed.

Lemma deep_push depth c m :
  deep depth c m → Z.of_nat c < 2 ^ 50 → exec_series (ex m) < 63 → ∃ m', deep (S depth) (S c) m'.
Proof.
  intros Hd Hc Hs. pose proof (em_inv_reachable _ _ _ _ _ _ Hcfg (dp_reach _ _ _ Hd)) as HI.
  pose proof (g_series _ (mi_good _ HI)) as Hse. destruct (ex_task_fut c Hc) as [Hfc Hlc].
  destruct (deep_new _ _ _ Hd) as [H1 H2 H3 H4 H5]. set (t := ex_task (Z.of_nat c)) in *.
  set (m1 := with_parked (t :: parked m) _) in *.
  assert (executing t (stack m) = false) as Hex.
  { unfold executing. apply not_true_iff_false. rewrite existsb_exists. intros (f & Hin & Heq%Z.eqb_eq).
    apply list_elem_of_In in Hin. destruct (proj1 (Forall_forall _ _) (dp_tasks _ _ _ Hd) f Hin) as (k & Hk & He).
    rewrite He, Hfc, (proj1 (ex_task_fut k ltac:(lia))) in Heq. lia. }
  assert (exec_task_now_begin p false false t (ex m) =
    Val (set_exec_series (exec_series (ex m) + 1) (ex m), t)) as Hb.
  { unfold exec_task_now_begin. unfold in_usize in Hse. rewrite usize_add_Val by (unfold usize_modulus; lia). simpl.
    destruct p; [|done]. unfold Task_check_safety. simpl. by rewrite (dp_id _ _ _ Hd), andb_false_r. }
  eexists (mkMachine (set_exec_series (exec_series (ex m) + 1) (ex m)) (mem m)
    (mkFrame t false :: stack m) (phase m) (parked m) (t :: born m) (gone m)).
  constructor; simpl.
  - eapply rtc_r; [exact H1|]. apply (user_exec size_of p m1 [] t (parked m) false (ex m, Some t)); [done|done| |].
    + unfold exec_task. simpl. by rewrite (proj2 (Z.ltb_lt _ _)).
    + unfold start. simpl. rewrite Hex, Hb. done.
  - f_equal. apply Hd.
  - constructor; [exists c; split; [lia|done]|done].
  - split; [by left|]. apply Hd.
  - apply Hd.
Qed.

Lemma deep_reset depth c m :
  deep depth c m → Z.of_nat c < 2 ^ 50 → 63 ≤ exec_series (ex m) →
  ∃ m', deep depth (S c) m' ∧ exec_series (ex m') = 0.
Proof.
  intros Hd Hc Hs. destruct (ex_task_fut c Hc) as [Hfc Hlc].
  destruct (deep_new _ _ _ Hd) as [H1 H2 H3 H4 H5]. set (t := ex_task (Z.of_nat c)) in *.
  set (m1 := with_parked (t :: parked m) _) in *.
  set (e := set_local_tasks (push_back (local_tasks (ex m)) t) (set_exec_series 0 (ex m))).
  exists (with_ex e (with_parked (parked m) m1)). split; [|done]. constructor; try done.
  eapply rtc_r; [exact H1|]. apply (user_exec size_of p m1 [] t (parked m) false (e, None)); [done|done| |done].
  unfold exec_task. simpl. rewrite (proj2 (Z.ltb_ge _ _)), Hlc by lia. unfold spawn_local_task.
  rewrite Hlc, debug_assert_true. done.
Qed.

Lemma deep_any (depth : nat) : Z.of_nat depth < 2 ^ 48 → ∃ c m, (c ≤ 2 * depth)%nat ∧ deep depth c m.
Proof.
  induction depth as [|d IH]; intros Hd.
  - exists O, (init 1 0 cfg). split; [done|]. constructor; try done. split; [by right; right|done].
  - destruct IH as (c & m & Hc & Hm); [lia|].
    destruct (Z.lt_ge_cases (exec_series (ex m)) 63) as [Hlt|Hge].
    + destruct (deep_push _ _ _ Hm ltac:(lia) Hlt) as [m' Hm']. exists (S c), m'. split; [lia|done].
    + destruct (deep_reset _ _ _ Hm ltac:(lia) Hge) as (m1 & Hm1 & H0).
      destruct (deep_push _ _ _ Hm1 ltac:(lia) ltac:(lia)) as [m' Hm']. exists (S (S c)), m'. split; [lia|done].
Qed.

End deep.

(** The count of executions does not bound how deep polls are nested: when it
    reaches 63 the next task is queued and the count starts again from zero
    although all the polls are still under way, so any depth is reached. *)
Theorem exec_series_not_depth (size_of : Z → Z) (p : profile) (cfg : Config) (depth : nat) :
  0 ≤ work_sharing_level cfg → Z.of_nat depth < 2 ^ 48 →
  ∃ m, rtc (step size_of p) (init 1 0 cfg) m ∧ length (stack m) = depth.
Proof.
  intros Hcfg Hd. destruct (deep_any size_of p cfg Hcfg depth Hd) as (c & m & _ & Hm).
  exists m. split; apply Hm.
Qed.

(** ** Witnesses *)

(** An executor that has been given a local task and has begun a round. *)
Definition ex_machine : Machine :=
  let t := ex_task 1 in
  let e := prepare_to_new_round 5 (set_local_tasks [t] (Executor_new 1 0 Config_default)) in
  mkMachine e (mkMem ∅ ∅ ∅) [] (LocalRound 1) [] [t] [].

Lemma ex_machine_reachable size_of p : rtc (step size_of p) (init 1 0 Config_default) ex_machine.
Proof.
  eapply rtc_l; [apply (user_create _ _ _ (ex_task 1)); split; [by right; right|done]|].
  eapply rtc_l; [eapply (user_spawn _ _ _ [] (ex_task 1) [] false);
    [split; [by right; right|done]|done|destruct p; reflexivity]|].
  eapply rtc_l; [by apply loop_run|].
  eapply rtc_l; [by apply (loop_round _ _ _ 5 [] []); [done|done|constructor|constructor|]|]. apply rtc_refl.
Qed.



Lemma locality_change_after_move_panics_witness :
  let e := set_current_call (ChangeCurrentTaskLocality Locality_local) (Executor_new 2 0 Config_default) in
  ∃ e' t', handle_call Debug false (ex_shared_task 1) e (mkMem ∅ ∅ ∅) = Val (e', mkMem ∅ ∅ ∅, None) ∧
    exec_task_now_begin Debug false false t' e = Panicked.
Proof.
  intros e. destruct (locality_change_after_move_panics false (ex_shared_task 1) e (mkMem ∅ ∅ ∅))
    as (e' & t' & H1 & _ & _ & H4); [reflexivity|discriminate|].
  exists e', t'. split; [exact H1|]. apply H4; [reflexivity|split; discriminate].
Defined.

Lemma exec_series_not_depth_witness :
  ∃ m, rtc (step (λ _, 8) Release) (init 1 0 Config_default) m ∧ length (stack m) = 100%nat.
Proof. apply (exec_series_not_depth (λ _, 8) Release Config_default 100); [discriminate|reflexivity]. Defined.
