(* ===== verification/LocalChannel.v ===== *)
(** * The local channel

    Models [src/src/sync/channels/local.rs]: the futures [WaitLocalSend] and
    [WaitLocalRecv], [try_send], [try_recv_in_ptr], [close], and the
    constructors of [LocalChannel].

    Every operation but [close] touches the channel only before its last
    action, which hands one task to the executor; whether the executor runs
    that task at once or later, the operation is one step of the channel.
    [close] hands over many tasks in two loops, and a task it wakes may run
    and use the channel before the loop goes on; it is therefore modelled as
    a sequence of steps between which anything may happen. The loops run over
    [VecDeque::drain(..)], whose iterator reads the entries from the deque's
    buffer one by one; a [close] called by a task that the loop has woken
    moves the place it reads from. *)

From Stdlib Require Import ZArith Lia.
From S2P Require Import Prelude Task ChannelTypes.

(** ** [VecDeque::drain(..)]

    A deque is a ring buffer; [None] are places that were never written.
    [drain(..)] sets the length to 0 at once and leaves the rest to its
    iterator: it reads the next entry at [head + idx], and when it is dropped
    it sets [head] to 0, as the deque is empty. *)
Section ring.
Context {A : Type}.

Record Ring := mkRing { ring_buf : list (option A); ring_head : nat; ring_len : nat }.
Record Drain := mkDrain { drain_idx : nat; drain_remaining : nat }.

Definition ring_new (capacity : nat) : Ring := mkRing (replicate capacity None) 0 0.

Definition ring_pos (r : Ring) (i : nat) : nat := (ring_head r + i) mod length (ring_buf r).
Definition ring_at (r : Ring) (i : nat) : option A := mjoin (ring_buf r !! ring_pos r i).
Definition ring_list (r : Ring) : list A := omap (ring_at r) (seq 0 (ring_len r)).

(** [push_back], when there is room, and [pop_front]. *)
Definition ring_push_back (x : A) (r : Ring) : Ring :=
  mkRing (<[ring_pos r (ring_len r) := Some x]> (ring_buf r)) (ring_head r) (S (ring_len r)).
Definition ring_pop_front (r : Ring) : Ring :=
  mkRing (ring_buf r) (ring_pos r 1) (ring_len r - 1).

Definition drain (r : Ring) : Ring * Drain :=
  (mkRing (ring_buf r) (ring_head r) 0, mkDrain 0 (ring_len r)).

Definition drain_next (d : Drain) (r : Ring) : option (option A * Drain) :=
  match drain_remaining d with
  | O => None
  | S n => Some (ring_at r (drain_idx d), mkDrain (S (drain_idx d)) n)
  end.

Definition drain_drop (r : Ring) : Ring := mkRing (ring_buf r) 0 0.

(** What the iterator will read if nothing happens to the deque. *)
Definition drain_rest (d : Drain) (r : Ring) : list A :=
  omap (ring_at r) (seq (drain_idx d) (drain_remaining d)).

Lemma drain_rest_all r : drain_rest (drain r).2 (drain r).1 = ring_list r.
Proof. reflexivity. Qed.

Lemma drain_rest_next d r x d' :
  drain_next d r = Some (Some x, d') → drain_rest d r = x :: drain_rest d' r.
Proof.
  unfold drain_next, drain_rest. destruct (drain_remaining d) as [|n] eqn:Hn; [done|].
  intros [= Hx <-]. simpl. by rewrite Hx.
Qed.

(** An inner [drain(..)] of the same deque, made and dropped while an outer
    iterator has entries left: the outer one goes on at [idx] from the start
    of the buffer instead of from the old head. *)
Lemma nested_drain d r i x :
  drain_remaining d ≠ 0 → drain_idx d = i → ring_buf r !! i = Some (Some x) →
  drain_next d (drain_drop (drain r).1) = Some (Some x, mkDrain (S i) (drain_remaining d - 1)).
Proof.
  intros Hn Hi Hx. unfold drain_next. destruct (drain_remaining d) as [|n]; [done|].
  unfold ring_at, ring_pos. simpl. rewrite Hi.
  rewrite Nat.mod_small by by eapply lookup_lt_Some. rewrite Hx. by rewrite Nat.sub_0_r.
Qed.

End ring.
Arguments Ring A : clear implicits.

Section local_channel.
Context {T : Type}.
Implicit Types (c : Chan T) (m : Mem T).

(** ** Constructors *)
Definition LocalChannel_bounded (capacity : Z) (d : Deques) : Inner T :=
  mkInner [] false capacity d.

Definition LocalChannel_unbounded (d : Deques) : Inner T :=
  mkInner [] false usize_MAX d.

(** [storage.len() >= capacity] *)
Definition is_full (i : Inner T) : bool :=
  (capacity i <=? Z.of_nat (length (storage i)))%Z.

(** ** [WaitLocalSend] *)
Definition WaitLocalSend_new (value : T) : WaitSend T := mkWaitSend Send_FirstCall (Some value).

Definition WaitLocalSend_poll (cx : Task) (this : loc) (c : Chan T)
    : outcome (Chan T * Poll (SendResult T)) :=
  f ← unchecked (sends (mem c) !! this);
  match ws_call_state f with
  | Send_FirstCall =>
      if is_closed (inner c) then
        '(v, m) ← take_value (mem c) this;
        Val (set_mem m c, Ready (Send_Closed v))
      else if negb (bool_decide (chan_receivers c = [])) then
        '((task, call_state, slot), rest) ← unchecked (pop_front (chan_receivers c));
        let c := set_inner (set_receivers rest) c in
        '(v, m) ← take_value (mem c) this;
        m ← write_slot m slot v;
        m ← write_recv_state m call_state Recv_WokenToReturnReady;
        Val (wake task (set_mem m c), Ready Send_Ok)
      else if is_full (inner c) then
        Val (set_inner (set_senders (push_back (chan_senders c) (cx, this, this))) c, Pending)
      else
        '(v, m) ← take_value (mem c) this;
        Val (set_inner (λ i, set_storage (push_back (storage i) v) i) (set_mem m c),
             Ready Send_Ok)
  | Send_WokenToReturnReady => Val (c, Ready Send_Ok)
  | Send_WokenByClose =>
      '(v, m) ← take_value (mem c) this;
      Val (set_mem m c, Ready (Send_Closed v))
  end.

(** ** [WaitLocalRecv] *)
Definition WaitLocalRecv_new (slot : loc) : WaitRecv := mkWaitRecv Recv_FirstCall slot.

(** The end of a reception from the storage: the first waiting sender, if
    any, puts its value into the room that was made. *)
Definition refill_storage (c : Chan T) : outcome (Chan T) :=
  match pop_front (chan_senders c) with
  | Some ((task, call_state, value), rest) =>
      let c := set_inner (set_senders rest) c in
      m ← write_send_state (mem c) call_state Send_WokenToReturnReady;
      '(v, m) ← take_value m value;
      Val (wake task (set_inner (λ i, set_storage (push_back (storage i) v) i) (set_mem m c)))
  | None => Val c
  end.

Definition WaitLocalRecv_poll (cx : Task) (this : loc) (c : Chan T)
    : outcome (Chan T * Poll RecvInResult) :=
  f ← unchecked (recvs (mem c) !! this);
  match wr_call_state f with
  | Recv_FirstCall =>
      if is_closed (inner c) then Val (c, Ready RecvIn_Closed)
      else if (length (storage (inner c)) =? 0)%nat then
        match pop_front (chan_senders c) with
        | Some ((task, call_state, value_ptr), rest) =>
            let c := set_inner (set_senders rest) c in
            m ← write_send_state (mem c) call_state Send_WokenToReturnReady;
            '(v, m) ← take_value m value_ptr;
            m ← write_slot m (wr_slot f) v;
            Val (wake task (set_mem m c), Ready RecvIn_Ok)
        | None =>
            Val (set_inner (set_receivers
                   (push_back (chan_receivers c) (cx, this, wr_slot f))) c, Pending)
        end
      else
        '(v, rest) ← unchecked (pop_front (storage (inner c)));
        let c := set_inner (set_storage rest) c in
        m ← write_slot (mem c) (wr_slot f) v;
        c ← refill_storage (set_mem m c);
        Val (c, Ready RecvIn_Ok)
  | Recv_WokenToReturnReady => Val (c, Ready RecvIn_Ok)
  | Recv_WokenByClose => Val (c, Ready RecvIn_Closed)
  end.

(** ** The non-blocking operations *)
Definition try_send (value : T) (c : Chan T) : outcome (Chan T * TrySendResult T) :=
  if is_closed (inner c) then Val (c, TrySend_Closed value)
  else match pop_front (chan_receivers c) with
  | Some ((task, call_state, slot), rest) =>
      let c := set_inner (set_receivers rest) c in
      m ← write_slot (mem c) slot value;
      m ← write_recv_state m call_state Recv_WokenToReturnReady;
      Val (wake task (set_mem m c), TrySend_Ok)
  | None =>
      if is_full (inner c) then Val (c, TrySend_Full value)
      else Val (set_inner (λ i, set_storage (push_back (storage i) value) i) c, TrySend_Ok)
  end.

Definition try_recv_in_ptr (slot : loc) (c : Chan T) : outcome (Chan T * TryRecvInResult) :=
  if is_closed (inner c) then Val (c, TryRecvIn_Closed)
  else if (length (storage (inner c)) =? 0)%nat then
    match pop_front (chan_senders c) with
    | Some ((task, call_state, value_ptr), rest) =>
        let c := set_inner (set_senders rest) c in
        m ← write_send_state (mem c) call_state Send_WokenToReturnReady;
        '(v, m) ← take_value m value_ptr;
        m ← write_slot m slot v;
        Val (wake task (set_mem m c), TryRecvIn_Ok)
    | None => Val (c, TryRecvIn_Empty)
    end
  else
    '(v, rest) ← unchecked (pop_front (storage (inner c)));
    let c := set_inner (set_storage rest) c in
    m ← write_slot (mem c) slot v;
    c ← refill_storage (set_mem m c);
    Val (c, TryRecvIn_Ok).

(** [AsyncReceiver::try_recv_in] and [try_recv], on this channel. *)
Definition try_recv_in (slot : loc) (c : Chan T) : outcome (Chan T * TryRecvInResult) :=
  m ← drop_slot (mem c) slot;
  try_recv_in_ptr slot (set_mem m c).

Definition try_recv (slot : loc) (c : Chan T) : outcome (Chan T * TryRecvResult T) :=
  '(c, r) ← try_recv_in_ptr slot c;
  '(r, m) ← try_recv_finish r (mem c) slot;
  Val (set_mem m c, r).

(** ** [close]

    [drain(..)] empties a queue before its loop runs. [DrainSenders l] and
    [DrainReceivers l] are the two loops with the entries left to wake, what
    [drain_rest] gives. [StaleSenders l] and [StaleReceivers l] are these loops
    after the head of their deque was reset under them: [l] are the entries
    they will read, which need not be entries left to wake. *)
Inductive CloseLoop :=
| DrainSenders (l : list SendEntry)
| DrainReceivers (l : list RecvEntry)
| StaleSenders (l : list SendEntry)
| StaleReceivers (l : list RecvEntry).

Definition close_begin (c : Chan T) : Chan T * CloseLoop :=
  let c := set_inner (set_is_closed true) c in
  (set_inner (set_senders []) c, DrainSenders (chan_senders c)).

(** One turn of the loop at hand; [None] when [close] has returned. *)
Definition close_resume (k : CloseLoop) (c : Chan T) : outcome (Chan T * option CloseLoop) :=
  match k with
  | DrainSenders ((task, state_ptr, _) :: l) =>
      m ← write_send_state (mem c) state_ptr Send_WokenByClose;
      Val (wake task (set_mem m c), Some (DrainSenders l))
  | DrainSenders [] =>
      Val (set_inner (set_receivers []) c, Some (DrainReceivers (chan_receivers c)))
  | DrainReceivers ((task, state_ptr, _) :: l) =>
      m ← write_recv_state (mem c) state_ptr Recv_WokenByClose;
      Val (wake task (set_mem m c), Some (DrainReceivers l))
  | DrainReceivers [] => Val (c, None)
  | StaleSenders ((task, state_ptr, _) :: l) =>
      m ← write_send_state (mem c) state_ptr Send_WokenByClose;
      Val (wake task (set_mem m c), Some (StaleSenders l))
  | StaleSenders [] =>
      Val (set_inner (set_receivers []) c, Some (DrainReceivers (chan_receivers c)))
  | StaleReceivers ((task, state_ptr, _) :: l) =>
      m ← write_recv_state (mem c) state_ptr Recv_WokenByClose;
      Val (wake task (set_mem m c), Some (StaleReceivers l))
  | StaleReceivers [] => Val (c, None)
  end.

(** The loop has read all entries of the deque it is working on. *)
Definition loop_done (k : CloseLoop) : bool :=
  match k with
  | DrainSenders [] | DrainReceivers [] | StaleSenders [] | StaleReceivers [] => true
  | _ => false
  end.

(** What a [close] does to the loops of those that it is called from: it
    resets the head of both deques. What the places hold that a loop with
    entries left will then read depends on all that was ever in the deque; a
    place that was never written is read with undefined behaviour. *)
Inductive reread : CloseLoop → CloseLoop → Prop :=
| reread_done k : loop_done k = true → reread k k
| reread_senders l l' : l ≠ [] → length l' ≤ length l → reread (DrainSenders l) (StaleSenders l')
| reread_receivers l l' : l ≠ [] → length l' ≤ length l → reread (DrainReceivers l) (StaleReceivers l')
| reread_stale_senders l : reread (StaleSenders l) (StaleSenders l)
| reread_stale_receivers l : reread (StaleReceivers l) (StaleReceivers l).

(** [close] with an executor that runs no task in between: the loops run to
    their end. Each turn shortens the entries left, so [close_fuel] turns
    are enough. *)
Fixpoint close_run (fuel : nat) (k : CloseLoop) (c : Chan T) : outcome (option (Chan T)) :=
  match fuel with
  | O => Val None
  | S fuel =>
      '(c, ok) ← close_resume k c;
      match ok with Some k => close_run fuel k c | None => Val (Some c) end
  end.

Definition close_fuel (c : Chan T) : nat :=
  length (chan_senders c) + length (chan_receivers c) + 3.

Definition close (c : Chan T) : outcome (option (Chan T)) :=
  let '(c', k) := close_begin c in close_run (close_fuel c) k c'.

(** ** The channel and its users

    Sending and receiving tasks create futures, poll them, and drop them when
    they are ready. A parked future (one whose pointer is in a queue or in a
    loop of [close]) is not polled: the executor only polls a task that was
    woken. [closing] are the calls of [close] under way, the innermost first. *)
Record Sys := mkSys { ch : Chan T; closing : list CloseLoop }.

Definition drained_senders (k : CloseLoop) : list SendEntry :=
  match k with DrainSenders l => l | _ => [] end.
Definition drained_receivers (k : CloseLoop) : list RecvEntry :=
  match k with DrainReceivers l => l | _ => [] end.

Definition parked_senders (s : Sys) : list SendEntry :=
  chan_senders (ch s) ++ (closing s ≫= drained_senders).
Definition parked_receivers (s : Sys) : list RecvEntry :=
  chan_receivers (ch s) ++ (closing s ≫= drained_receivers).

(** The address of the call state in an entry identifies its future. *)
Definition entry_ptr (e : Task * loc * loc) : loc := e.1.2.

Definition sender_parked (s : Sys) (a : loc) : Prop := a ∈ entry_ptr <$> parked_senders s.
Definition receiver_parked (s : Sys) (a : loc) : Prop := a ∈ entry_ptr <$> parked_receivers s.

(** A future that returned [Ready] is dropped by its task. *)
Definition drop_send {A} (a : loc) (r : Poll A) (c : Chan T) : Chan T :=
  match r with
  | Ready _ => set_mem (set_sends (delete a) (mem c)) c
  | Pending => c
  end.

(** [recv().await]: when [recv_in_ptr] is ready, [recv] reads its slot and
    both go out of scope. *)
Definition recv_return (a slot : loc) (r : Poll RecvInResult) (c : Chan T)
    : outcome (Chan T * Poll (RecvResult T)) :=
  match r with
  | Pending => Val (c, Pending)
  | Ready r =>
      '(res, m) ← recv_finish r (mem c) slot;
      Val (set_mem (set_slots (delete slot) (set_recvs (delete a) m)) c, Ready res)
  end.

Definition recv_poll (cx : Task) (a : loc) (c : Chan T)
    : outcome (Chan T * Poll (RecvResult T)) :=
  f ← unchecked (recvs (mem c) !! a);
  '(c, r) ← WaitLocalRecv_poll cx a c;
  recv_return a (wr_slot f) r c.

(** What an observer of the values sees: a value is offered when its sender
    first gets to an open channel, and delivered when it is in a slot. *)
Inductive event := Offered (v : T) | Delivered (v : T).

Definition offers (tr : list event) : list T :=
  omap (λ e, match e with Offered v => Some v | Delivered _ => None end) tr.
Definition delivers (tr : list event) : list T :=
  omap (λ e, match e with Delivered v => Some v | Offered _ => None end) tr.

(** The value that slot [slot] holds in [c], as a delivery. *)
Definition slot_events (slot : loc) (c : Chan T) : list event :=
  match slots (mem c) !! slot with Some (Some v) => [Delivered v] | _ => [] end.

(** The delivery to the first waiting receiver of [c], read off the memory
    [c'] after the operation. *)
Definition handover_events (c c' : Chan T) : list event :=
  match chan_receivers c with
  | (_, _, slot) :: _ => slot_events slot c'
  | [] => []
  end.

Definition send_events (a : loc) (c c' : Chan T) : list event :=
  match sends (mem c) !! a with
  | Some (mkWaitSend Send_FirstCall (Some v)) =>
      if is_closed (inner c) then [] else Offered v :: handover_events c c'
  | _ => []
  end.

Definition try_send_events (v : T) (r : TrySendResult T) (c c' : Chan T) : list event :=
  match r with TrySend_Ok => Offered v :: handover_events c c' | _ => [] end.

(** The reception of a future that was polled for the first time. *)
Definition recv_events (a : loc) (c c' : Chan T) : list event :=
  match recvs (mem c) !! a with
  | Some (mkWaitRecv Recv_FirstCall slot) => if is_closed (inner c) then [] else slot_events slot c'
  | _ => []
  end.

Definition try_recv_events (r : TryRecvResult T) : list event :=
  match r with TryRecv_Ok v => [Delivered v] | _ => [] end.

(** With [nested], a task that a [close] has woken may call [close] itself
    while the outer one has entries left in the deque it is working on. *)
Inductive step (nested : bool) : Sys → list event → Sys → Prop :=
| step_new_send s a v :
    sends (mem (ch s)) !! a = None →
    step nested s [] (mkSys (set_mem (set_sends <[a := WaitLocalSend_new v]> (mem (ch s))) (ch s))
                 (closing s))
| step_poll_send s a t c' r :
    ¬ sender_parked s a →
    WaitLocalSend_poll t a (ch s) = Val (c', r) →
    step nested s (send_events a (ch s) c') (mkSys (drop_send a r c') (closing s))
| step_new_recv s a slot :
    recvs (mem (ch s)) !! a = None → slots (mem (ch s)) !! slot = None →
    step nested s [] (mkSys (set_mem (set_slots <[slot := None]>
                 (set_recvs <[a := WaitLocalRecv_new slot]> (mem (ch s)))) (ch s)) (closing s))
| step_poll_recv s a t c1 r1 c' r :
    ¬ receiver_parked s a →
    WaitLocalRecv_poll t a (ch s) = Val (c1, r1) →
    recv_poll t a (ch s) = Val (c', r) →
    step nested s (recv_events a (ch s) c1) (mkSys c' (closing s))
| step_try_send s v c' r :
    try_send v (ch s) = Val (c', r) →
    step nested s (try_send_events v r (ch s) c') (mkSys c' (closing s))
| step_try_recv s slot c' r :
    slots (mem (ch s)) !! slot = None →
    try_recv slot (set_mem (set_slots <[slot := None]> (mem (ch s))) (ch s)) = Val (c', r) →
    step nested s (try_recv_events r)
      (mkSys (set_mem (set_slots (delete slot) (mem c')) c') (closing s))
| step_close_begin s ks :
    nested = true ∨ forallb loop_done (closing s) = true → Forall2 reread (closing s) ks →
    step nested s [] (mkSys (close_begin (ch s)).1 ((close_begin (ch s)).2 :: ks))
| step_close_resume s k ks c' ok :
    closing s = k :: ks →
    close_resume k (ch s) = Val (c', ok) →
    step nested s [] (mkSys c' (from_option (λ k', k' :: ks) ks ok)).

(** Runs, with the events they show. *)
Inductive steps (nested : bool) : Sys → list event → Sys → Prop :=
| steps_refl s : steps nested s [] s
| steps_cons s1 tr1 s2 tr2 s3 :
    steps nested s1 tr1 s2 → step nested s2 tr2 s3 → steps nested s1 (tr1 ++ tr2) s3.

Definition init (cap : Z) : Sys :=
  mkSys (mkChan (LocalChannel_bounded cap Deques_new) (mkMem ∅ ∅ ∅) []) [].

(** ** The abstract channel: a first-in first-out queue of the values that
    were offered and not yet delivered, buffered or held by a parked sender. *)
Definition sender_value (m : Mem T) (e : SendEntry) : option T :=
  sends m !! e.2 ≫= ws_value.

Definition queue_of (c : Chan T) : list T :=
  storage (inner c) ++ omap (sender_value (mem c)) (chan_senders c).

(** ** The invariant *)
Definition send_ok (f : WaitSend T) : Prop :=
  match ws_call_state f with
  | Send_FirstCall | Send_WokenByClose => is_Some (ws_value f)
  | Send_WokenToReturnReady => ws_value f = None
  end.

Definition recv_ok (s : RecvCallState) (o : option T) : Prop :=
  match s with
  | Recv_FirstCall | Recv_WokenByClose => o = None
  | Recv_WokenToReturnReady => is_Some o
  end.

Definition sender_entry_ok (m : Mem T) (e : SendEntry) : Prop :=
  ∃ t a v, e = (t, a, a) ∧ sends m !! a = Some (mkWaitSend Send_FirstCall (Some v)).

Definition receiver_entry_ok (m : Mem T) (e : RecvEntry) : Prop :=
  recvs m !! entry_ptr e = Some (mkWaitRecv Recv_FirstCall e.2).

Record mem_ok (m : Mem T) : Prop := {
  mem_sends : ∀ a f, sends m !! a = Some f → send_ok f;
  mem_recvs : ∀ a f, recvs m !! a = Some f →
    ∃ o, slots m !! wr_slot f = Some o ∧ recv_ok (wr_call_state f) o;
  mem_slots : ∀ a b f g, recvs m !! a = Some f → recvs m !! b = Some g →
    wr_slot f = wr_slot g → a = b;
}.

(** Parked senders imply a full buffer, parked receivers an empty channel. *)
Record inner_ok (i : Inner T) : Prop := {
  inner_len : (Z.of_nat (length (storage i)) ≤ capacity i)%Z;
  inner_full : senders (deques i) ≠ [] → is_full i = true;
  inner_idle : receivers (deques i) ≠ [] → storage i = [] ∧ senders (deques i) = [];
}.

(** The queues point to live futures that wait, each at most once. *)
Record parked_ok (m : Mem T) (ls : list SendEntry) (lr : list RecvEntry) : Prop := {
  parked_senders_ok : Forall (sender_entry_ok m) ls;
  parked_senders_nodup : NoDup (entry_ptr <$> ls);
  parked_receivers_ok : Forall (receiver_entry_ok m) lr;
  parked_receivers_nodup : NoDup (entry_ptr <$> lr);
}.

Record Inv (s : Sys) : Prop := {
  inv_mem : mem_ok (mem (ch s));
  inv_inner : inner_ok (inner (ch s));
  inv_parked : parked_ok (mem (ch s)) (parked_senders s) (parked_receivers s);
  inv_closed : if is_closed (inner (ch s)) then chan_senders (ch s) = [] else closing s = [];
}.

(** No loop of [close] was disturbed. *)
Definition undisturbed (k : CloseLoop) : Prop :=
  match k with DrainSenders _ | DrainReceivers _ => True | StaleSenders _ | StaleReceivers _ => False end.

(** What a step of an open channel does to the abstract queue; a closed
    channel moves no value and stays closed. *)
Definition flow (c : Chan T) (ev : list event) (c' : Chan T) : Prop :=
  is_closed (inner c') = is_closed (inner c) ∧
  if is_closed (inner c) then ev = [] ∧ storage (inner c') = storage (inner c)
  else queue_of c ++ offers ev = delivers ev ++ queue_of c'.

(** ** Memory lemmas *)
Lemma mem_ok_send m a f : mem_ok m → send_ok f → mem_ok (set_sends <[a := f]> m).
Proof.
  intros [Hs Hr Hi] Hf. split; [|exact Hr|exact Hi].
  intros b g. simpl. rewrite lookup_insert_Some. naive_solver.
Qed.

Lemma mem_ok_send_delete m a : mem_ok m → mem_ok (set_sends (delete a) m).
Proof.
  intros [Hs Hr Hi]. split; [|exact Hr|exact Hi].
  intros b g. simpl. rewrite lookup_delete_Some. naive_solver.
Qed.

(** A receiver that waits gets its value. *)
Lemma mem_ok_deliver m a slot v :
  mem_ok m → recvs m !! a = Some (mkWaitRecv Recv_FirstCall slot) →
  mem_ok (set_recvs <[a := mkWaitRecv Recv_WokenToReturnReady slot]>
            (set_slots <[slot := Some v]> m)).
Proof.
  intros [Hs Hr Hi] Ha. split; [exact Hs| |]; simpl.
  - intros b g [[<- <-]|[Hne Hb]]%lookup_insert_Some; simpl.
    { exists (Some v). by rewrite lookup_insert_eq. }
    destruct (Hr b g Hb) as (o & Ho & Hok). exists o. split; [|done].
    rewrite lookup_insert_ne; [done|]. intros Heq. by apply Hne, (Hi a b _ g Ha Hb).
  - intros b d f g [[<- <-]|[? Hb]]%lookup_insert_Some [[<- <-]|[? Hd]]%lookup_insert_Some;
      simpl; intros; eauto.
Qed.

Lemma mem_ok_recv_closed m a slot :
  mem_ok m → recvs m !! a = Some (mkWaitRecv Recv_FirstCall slot) →
  mem_ok (set_recvs <[a := mkWaitRecv Recv_WokenByClose slot]> m).
Proof.
  intros [Hs Hr Hi] Ha. split; [exact Hs| |]; simpl.
  - intros b g [[<- <-]|[Hne Hb]]%lookup_insert_Some; simpl; [|by apply (Hr b)].
    by apply (Hr a _ Ha).
  - intros b d f g [[<- <-]|[? Hb]]%lookup_insert_Some [[<- <-]|[? Hd]]%lookup_insert_Some;
      simpl; intros; eauto.
Qed.

Lemma mem_ok_recv_delete m a f :
  mem_ok m → recvs m !! a = Some f →
  mem_ok (set_slots (delete (wr_slot f)) (set_recvs (delete a) m)).
Proof.
  intros [Hs Hr Hi] Ha. split; [exact Hs| |]; simpl.
  - intros b g [Hne Hb]%lookup_delete_Some.
    destruct (Hr b g Hb) as (o & Ho & Hok). exists o. split; [|done].
    rewrite lookup_delete_ne; [done|]. intros Heq. by apply Hne, (Hi a b f g Ha Hb).
  - intros b d g g' [? Hb]%lookup_delete_Some [? Hd]%lookup_delete_Some. eauto.
Qed.

Lemma mem_ok_recv_new m a slot :
  mem_ok m → recvs m !! a = None → slots m !! slot = None →
  mem_ok (set_slots <[slot := None]> (set_recvs <[a := WaitLocalRecv_new slot]> m)).
Proof.
  intros [Hs Hr Hi] Ha Hslot.
  assert (∀ b g, recvs m !! b = Some g → slot ≠ wr_slot g) as Hfresh.
  { intros b g Hb ->. destruct (Hr b g Hb) as (o & Ho & _). congruence. }
  split; [exact Hs| |]; simpl.
  - intros b g [[<- <-]|[Hne Hb]]%lookup_insert_Some; simpl.
    { exists None. by rewrite lookup_insert_eq. }
    destruct (Hr b g Hb) as (o & Ho & Hok). exists o.
    rewrite lookup_insert_ne; eauto.
  - intros b d f g [[<- <-]|[? Hb]]%lookup_insert_Some [[<- <-]|[? Hd]]%lookup_insert_Some;
      simpl; intros; eauto; exfalso; eapply Hfresh; eauto.
Qed.

(** ** Queue lemmas: [parked_ok] only looks at the futures in the queues. *)
Lemma parked_ok_ext m m' ls lr :
  (∀ b, b ∈ entry_ptr <$> ls → sends m' !! b = sends m !! b) →
  (∀ b, b ∈ entry_ptr <$> lr → recvs m' !! b = recvs m !! b) →
  parked_ok m ls lr → parked_ok m' ls lr.
Proof.
  intros HS HR [H1 H2 H3 H4]. split; [| done | | done].
  - rewrite !Forall_forall in H1 |- *. intros e He.
    destruct (H1 e He) as (t & a & v & -> & Ha). exists t, a, v. split; [done|].
    rewrite HS; [done|]. by apply (list_elem_of_fmap_2 entry_ptr _ (t, a, a)).
  - rewrite !Forall_forall in H3 |- *. intros e He. unfold receiver_entry_ok.
    rewrite HR; [by apply H3|]. by apply list_elem_of_fmap_2.
Qed.

Lemma parked_ok_sender m e ls lr :
  parked_ok m (e :: ls) lr →
  ∃ t a v, e = (t, a, a) ∧ sends m !! a = Some (mkWaitSend Send_FirstCall (Some v)) ∧
    (a ∉ entry_ptr <$> ls) ∧ parked_ok m ls lr.
Proof.
  intros [H1 H2 H3 H4]. apply Forall_cons in H1 as [(t & a & v & -> & Ha) H1].
  apply NoDup_cons in H2 as [Hn H2]. exists t, a, v. by repeat split.
Qed.

Lemma parked_ok_receiver m e ls lr :
  parked_ok m ls (e :: lr) →
  recvs m !! entry_ptr e = Some (mkWaitRecv Recv_FirstCall e.2) ∧
    (entry_ptr e ∉ entry_ptr <$> lr) ∧ parked_ok m ls lr.
Proof.
  intros [H1 H2 H3 H4]. apply Forall_cons in H3 as [Ha H3].
  apply NoDup_cons in H4 as [Hn H4]. by repeat split.
Qed.

Lemma parked_ok_push_sender m ls lr t a v :
  parked_ok m ls lr → (a ∉ entry_ptr <$> ls) →
  sends m !! a = Some (mkWaitSend Send_FirstCall (Some v)) →
  parked_ok m (ls ++ [(t, a, a)]) lr.
Proof.
  intros [H1 H2 H3 H4] Hn Ha. split; [|rewrite fmap_app|done|done].
  - apply Forall_app. split; [done|]. apply Forall_singleton. by exists t, a, v.
  - apply NoDup_app. split; [done|]. split; [|apply NoDup_singleton]. set_solver.
Qed.

Lemma parked_ok_push_receiver m ls lr t a slot :
  parked_ok m ls lr → (a ∉ entry_ptr <$> lr) →
  recvs m !! a = Some (mkWaitRecv Recv_FirstCall slot) →
  parked_ok m ls (lr ++ [(t, a, slot)]).
Proof.
  intros [H1 H2 H3 H4] Hn Ha. split; [done|done| |rewrite fmap_app].
  - apply Forall_app. split; [done|]. by apply Forall_singleton.
  - apply NoDup_app. split; [done|]. split; [|apply NoDup_singleton]. set_solver.
Qed.

Lemma queue_values_ext m m' ls lr :
  parked_ok m ls lr →
  (∀ b, b ∈ entry_ptr <$> ls → sends m' !! b = sends m !! b) →
  omap (sender_value m') ls = omap (sender_value m) ls.
Proof.
  intros [H1 _ _ _] HS. induction H1 as [|e ls (t & a & v & -> & Ha) _ IH]; [done|].
  csimpl. rewrite IH; [|set_solver]. unfold sender_value at 1 3. simpl.
  by rewrite HS; [|set_solver].
Qed.

(** ** The moves the operations are made of *)

(** The first waiting receiver gets [v]. *)
Definition hand_over (t : Task) (a slot : loc) (rest : list RecvEntry) (v : T) (c : Chan T)
    : Chan T :=
  wake t (set_mem (set_recvs <[a := mkWaitRecv Recv_WokenToReturnReady slot]>
                     (set_slots <[slot := Some v]> (mem c)))
            (set_inner (set_receivers rest) c)).

(** The value of the first waiting sender is taken. *)
Definition pull (t : Task) (a : loc) (rest : list SendEntry) (c : Chan T) : Chan T :=
  wake t (set_mem (set_sends <[a := mkWaitSend Send_WokenToReturnReady None]> (mem c))
            (set_inner (set_senders rest) c)).

Definition buffer (v : T) (c : Chan T) : Chan T :=
  set_inner (λ i, set_storage (push_back (storage i) v) i) c.

Definition forget_send (a : loc) (c : Chan T) : Chan T :=
  set_mem (set_sends (delete a) (mem c)) c.

Definition forget_recv (a slot : loc) (c : Chan T) : Chan T :=
  set_mem (set_slots (delete slot) (set_recvs (delete a) (mem c))) c.

Lemma flow_app c1 c2 c3 ev1 ev2 : flow c1 ev1 c2 → flow c2 ev2 c3 → flow c1 (ev1 ++ ev2) c3.
Proof.
  unfold flow. intros [Hc H12] [Hc' H23]. rewrite Hc in *. split; [done|].
  destruct (is_closed (inner c1)); simpl in *.
  - destruct H12 as [-> <-], H23 as [-> <-]. done.
  - unfold offers, delivers in *. rewrite !omap_app, app_assoc, H12, <-!app_assoc. by f_equal.
Qed.

Lemma flow_trans c1 c2 c3 ev : flow c1 [] c2 → flow c2 ev c3 → flow c1 ev c3.
Proof. apply flow_app. Qed.

Lemma flow_trans_r c1 c2 c3 ev : flow c1 ev c2 → flow c2 [] c3 → flow c1 ev c3.
Proof. intros H1 H2. rewrite <-(app_nil_r ev). by eapply flow_app. Qed.

Lemma forget_send_ok c ks a :
  Inv (mkSys c ks) → ¬ sender_parked (mkSys c ks) a →
  Inv (mkSys (forget_send a c) ks) ∧ flow c [] (forget_send a c).
Proof.
  intros [Hm Hi Hp Hc] Hn. assert (parked_ok (set_sends (delete a) (mem c))
    (parked_senders (mkSys c ks)) (parked_receivers (mkSys c ks))).
  { eapply parked_ok_ext, Hp; [|done]. intros b Hb. simpl.
    apply lookup_delete_ne. intros ->. by apply Hn. }
  split; [split; simpl; try done; by apply mem_ok_send_delete|].
  split; [done|]. simpl. destruct (is_closed (inner c)) eqn:E; [done|].
  simpl. rewrite app_nil_r. unfold queue_of. f_equal. symmetry.
  simpl in Hc. rewrite E in Hc. subst ks. unfold parked_senders in Hp. simpl in Hp. rewrite app_nil_r in Hp.
  eapply queue_values_ext; [apply Hp|]. intros b Hb.
  apply lookup_delete_ne. intros ->. apply Hn. unfold sender_parked, parked_senders. simpl.
  by rewrite app_nil_r.
Qed.

Lemma forget_recv_ok c ks a f :
  Inv (mkSys c ks) → ¬ receiver_parked (mkSys c ks) a → recvs (mem c) !! a = Some f →
  Inv (mkSys (forget_recv a (wr_slot f) c) ks) ∧ flow c [] (forget_recv a (wr_slot f) c).
Proof.
  intros [Hm Hi Hp Hc] Hn Ha. split.
  - split; simpl; try done; [by apply mem_ok_recv_delete|].
    eapply parked_ok_ext, Hp; [done|]. intros b Hb. simpl.
    apply lookup_delete_ne. intros ->. by apply Hn.
  - split; [done|]. destruct (is_closed _); [done|]. simpl. by rewrite app_nil_r.
Qed.

Lemma hand_over_ok c ks t a slot rest v :
  Inv (mkSys c ks) → is_closed (inner c) = false → chan_receivers c = (t, a, slot) :: rest →
  Inv (mkSys (hand_over t a slot rest v c) ks) ∧
  flow c [Offered v; Delivered v] (hand_over t a slot rest v c).
Proof.
  intros [Hm Hi Hp Hc] Ho Hr. simpl in *. rewrite Ho in Hc. subst ks.
  unfold parked_senders, parked_receivers in Hp. simpl in Hp.
  rewrite Hr, !app_nil_r in Hp. apply parked_ok_receiver in Hp as (Ha & Hn & Hp).
  destruct (inner_idle _ Hi) as [Hst Hs].
  { unfold chan_receivers in Hr. by rewrite Hr. }
  split; [split; simpl; try done|].
  - by apply mem_ok_deliver.
  - destruct Hi as [Hl Hf _]. by split.
  - unfold parked_senders, parked_receivers. simpl. rewrite !app_nil_r.
    eapply parked_ok_ext, Hp; [done|]. intros b Hb. simpl.
    apply lookup_insert_ne. by intros ->.
  - by rewrite Ho.
  - split; [done|]. rewrite Ho. unfold queue_of, chan_senders. simpl. by rewrite Hst, Hs.
Qed.

Lemma pull_parked c ks t a p rest :
  Inv (mkSys c ks) → is_closed (inner c) = false → chan_senders c = (t, a, p) :: rest →
  ∃ v, p = a ∧ sends (mem c) !! a = Some (mkWaitSend Send_FirstCall (Some v)) ∧
    ks = [] ∧ is_full (inner c) = true ∧ chan_receivers c = [] ∧
    mem_ok (mem (pull t a rest c)) ∧
    parked_ok (mem (pull t a rest c)) rest [] ∧
    omap (sender_value (mem c)) (chan_senders c) =
      v :: omap (sender_value (mem (pull t a rest c))) rest.
Proof.
  intros [Hm Hi Hp Hc] Ho Hs. simpl in *. rewrite Ho in Hc. subst ks.
  assert (chan_receivers c = []) as Hr.
  { destruct (chan_receivers c) eqn:E; [done|]. destruct (inner_idle _ Hi) as [_ Hs'].
    - unfold chan_receivers in E. by rewrite E.
    - unfold chan_senders in Hs. congruence. }
  unfold parked_senders, parked_receivers in Hp. simpl in Hp.
  rewrite Hs, Hr, !app_nil_r in Hp.
  apply parked_ok_sender in Hp as (? & ? & v & [= <- <- ->] & Ha & Hn & Hp).
  assert (∀ b, b ∈ (entry_ptr <$> rest) →
    sends (mem (pull t a rest c)) !! b = sends (mem c) !! b) as Hext.
  { intros b Hb. apply lookup_insert_ne. by intros ->. }
  exists v. split_and!; try done.
  - apply (inner_full _ Hi). unfold chan_senders in Hs. by rewrite Hs.
  - by apply mem_ok_send.
  - by eapply parked_ok_ext, Hp.
  - rewrite Hs. csimpl. unfold sender_value at 1. simpl. rewrite Ha. simpl. f_equal.
    symmetry. by eapply queue_values_ext.
Qed.

(** The two writes of a reception from a waiting sender, as one. *)
Lemma pull_sender_eq {B} m a v (k : T * Mem T → outcome B) :
  sends m !! a = Some (mkWaitSend Send_FirstCall (Some v)) →
  (m1 ← write_send_state m a Send_WokenToReturnReady; (take_value m1 a ≫= k)) =
    k (v, set_sends <[a := mkWaitSend Send_WokenToReturnReady None]> m).
Proof.
  intros Ha. unfold write_send_state, take_value. rewrite Ha. simpl.
  rewrite lookup_insert_eq. simpl. unfold set_sends. simpl. by rewrite insert_insert_eq.
Qed.

(** The two writes of a delivery to a waiting receiver, as one. *)
Lemma hand_over_eq {B} m a slot o v (k : Mem T → outcome B) :
  slots m !! slot = Some o → recvs m !! a = Some (mkWaitRecv Recv_FirstCall slot) →
  (m1 ← write_slot m slot v; (write_recv_state m1 a Recv_WokenToReturnReady ≫= k)) =
    k (set_recvs <[a := mkWaitRecv Recv_WokenToReturnReady slot]>
         (set_slots <[slot := Some v]> m)).
Proof. intros Hs Ha. unfold write_slot, write_recv_state. rewrite Hs. simpl. by rewrite Ha. Qed.

(** The first waiting sender of [c], if any, has been served in [c']. *)
Definition sender_served (c c' : Chan T) : Prop :=
  match chan_senders c with
  | (t, a, _) :: rest => woken c' = woken c ++ [t] ∧ chan_senders c' = rest ∧
      sends (mem c') !! a = Some (mkWaitSend Send_WokenToReturnReady None)
  | [] => woken c' = woken c ∧ chan_senders c' = []
  end.

Lemma pull_served c t a p rest :
  chan_senders c = (t, a, p) :: rest → sender_served c (pull t a rest c).
Proof. intros Hs. unfold sender_served. rewrite Hs. simpl. by rewrite lookup_insert_eq. Qed.

(** Reading from an empty buffer takes the value of the first sender. *)
Lemma pull_ok c ks t a p rest :
  Inv (mkSys c ks) → is_closed (inner c) = false → storage (inner c) = [] →
  chan_senders c = (t, a, p) :: rest →
  ∃ v, p = a ∧ sends (mem c) !! a = Some (mkWaitSend Send_FirstCall (Some v)) ∧
    Inv (mkSys (pull t a rest c) ks) ∧ flow c [Delivered v] (pull t a rest c).
Proof.
  intros HI Ho Hst Hs.
  destruct (pull_parked _ _ _ _ _ _ HI Ho Hs) as (v & -> & Ha & -> & Hf & Hr & Hm & Hp & Hq).
  exists v. split_and!; try done.
  - destruct HI as [_ Hi _ _]. split; try done; simpl.
    + destruct Hi as [Hl _ Hid]. by split.
    + unfold parked_senders, parked_receivers. simpl.
      unfold chan_receivers in Hr |- *. simpl. by rewrite Hr, !app_nil_r.
    + by rewrite Ho.
  - split; [done|]. rewrite Ho. unfold queue_of. rewrite Hst. csimpl.
    rewrite app_nil_r. unfold chan_senders at 1 in Hq. by rewrite Hst.
Qed.

(** Reading from a buffer that holds a value. *)
Lemma refill_ok c ks v st :
  Inv (mkSys c ks) → is_closed (inner c) = false → storage (inner c) = v :: st →
  ∃ c', refill_storage (set_inner (set_storage st) c) = Val c' ∧
    recvs (mem c') = recvs (mem c) ∧ slots (mem c') = slots (mem c) ∧
    parked_receivers (mkSys c' ks) = parked_receivers (mkSys c ks) ∧
    Inv (mkSys c' ks) ∧ flow c [Delivered v] c' ∧ sender_served c c'.
Proof.
  intros HI Ho Hst. unfold refill_storage. simpl.
  destruct (pop_front (chan_senders c)) as [[[[t a] p] rest]|] eqn:Hs; unfold chan_senders in *; simpl; rewrite Hs.
  - apply pop_front_Some in Hs.
    destruct (pull_parked _ _ _ _ _ _ HI Ho Hs) as (w & -> & Ha & -> & Hf & Hr & Hm & Hp & Hq).
    rewrite (pull_sender_eq _ _ w) by done.
    eexists. split; [done|]. split_and!; try done.
    + destruct HI as [_ [Hl _ _] _ _]. simpl in Hl. rewrite Hst in Hl. simpl in Hl.
      unfold is_full in Hf. rewrite Hst in Hf. simpl in Hf. apply Z.leb_le in Hf.
      split; simpl; try done.
      * split; simpl; try done.
        -- unfold push_back. rewrite length_app. simpl. lia.
        -- intros _. unfold is_full. simpl. apply Z.leb_le.
           unfold push_back. rewrite length_app. simpl. lia.
      * unfold parked_senders, parked_receivers, chan_senders, chan_receivers in *. simpl.
        by rewrite Hr, !app_nil_r.
      * by rewrite Ho.
    + split; [done|]. rewrite Ho. unfold queue_of, chan_senders. simpl.
      rewrite Hst, app_nil_r. unfold chan_senders in Hq. rewrite Hq.
      unfold push_back. by rewrite <-app_assoc.
    + unfold sender_served, chan_senders. rewrite Hs. simpl. by rewrite lookup_insert_eq.
  - apply pop_front_None in Hs. eexists. split; [done|]. split_and!; try done.
    + destruct HI as [Hm [Hl Hf Hid] Hp Hc]. simpl in *. rewrite Hst in Hl. simpl in Hl.
      split; try done; simpl. split; simpl; [lia| |].
      * by rewrite Hs.
      * intros Hr. destruct (Hid Hr) as [Hst' _]. congruence.
    + split; [done|]. rewrite Ho. unfold queue_of, chan_senders. simpl.
      by rewrite Hst, Hs, !app_nil_r.
    + unfold sender_served, chan_senders. simpl. by rewrite Hs.
Qed.

Lemma buffer_ok c ks v :
  Inv (mkSys c ks) → is_closed (inner c) = false → chan_receivers c = [] →
  is_full (inner c) = false →
  Inv (mkSys (buffer v c) ks) ∧ flow c [Offered v] (buffer v c).
Proof.
  intros [Hm [Hl Hs Hid] Hp Hc] Ho Hr Hf. simpl in *.
  assert (senders (deques (inner c)) = []) as Hs'.
  { destruct (senders _); [done|]. rewrite Hs in Hf; done. }
  unfold is_full in Hf. apply Z.leb_gt in Hf. split.
  - split; simpl; try done. split; simpl.
    + unfold push_back. rewrite length_app. simpl. lia.
    + by rewrite Hs'.
    + unfold chan_receivers in Hr. by rewrite Hr.
  - split; [done|]. rewrite Ho. unfold queue_of, chan_senders. simpl. by rewrite Hs', !app_nil_r.
Qed.

(** ** What each operation does from a state with the invariant *)

Lemma forget_send_taken {A} c a g (r : A) :
  drop_send a (Ready r) (set_mem (set_sends <[a := g]> (mem c)) c) = forget_send a c.
Proof.
  unfold drop_send, forget_send, set_mem, set_sends. simpl. by rewrite delete_insert_eq.
Qed.

Lemma take_value_eq {B} m a f v (k : T * Mem T → outcome B) :
  sends m !! a = Some f → ws_value f = Some v →
  (take_value m a ≫= k) = k (v, set_sends <[a := mkWaitSend (ws_call_state f) None]> m).
Proof. intros Ha Hv. unfold take_value. rewrite Ha. simpl. by rewrite Hv. Qed.

Lemma park_send_ok c ks t a v :
  Inv (mkSys c ks) → is_closed (inner c) = false → chan_receivers c = [] →
  is_full (inner c) = true → ¬ sender_parked (mkSys c ks) a →
  sends (mem c) !! a = Some (mkWaitSend Send_FirstCall (Some v)) →
  let c' := set_inner (set_senders (push_back (chan_senders c) (t, a, a))) c in
  Inv (mkSys c' ks) ∧ flow c [Offered v] c'.
Proof.
  intros [Hm [Hl Hs Hid] Hp Hc] Ho Hr Hf Hn Ha. simpl in *. rewrite Ho in Hc. subst ks.
  unfold sender_parked, parked_senders, parked_receivers in *. simpl in *.
  rewrite !app_nil_r in *. unfold push_back. split.
  - split; simpl; try done.
    + unfold parked_senders, parked_receivers, chan_senders. simpl. rewrite !app_nil_r.
      by eapply parked_ok_push_sender.
    + by rewrite Ho.
  - split; [done|]. rewrite Ho. unfold queue_of, chan_senders. simpl.
    rewrite omap_app, <-app_assoc. do 2 f_equal. csimpl.
    unfold sender_value. simpl. by rewrite Ha.
Qed.

Lemma park_recv_ok c ks t a slot :
  Inv (mkSys c ks) → is_closed (inner c) = false → storage (inner c) = [] →
  chan_senders c = [] → ¬ receiver_parked (mkSys c ks) a →
  recvs (mem c) !! a = Some (mkWaitRecv Recv_FirstCall slot) →
  let c' := set_inner (set_receivers (push_back (chan_receivers c) (t, a, slot))) c in
  Inv (mkSys c' ks) ∧ flow c [] c'.
Proof.
  intros [Hm [Hl Hs Hid] Hp Hc] Ho Hst Hsn Hn Ha. simpl in *. rewrite Ho in Hc. subst ks.
  unfold receiver_parked, parked_senders, parked_receivers in *. simpl in *.
  rewrite !app_nil_r in *. unfold push_back. split.
  - split; simpl; try done.
    + unfold parked_senders, parked_receivers, chan_receivers. simpl. rewrite !app_nil_r.
      by eapply parked_ok_push_receiver.
    + by rewrite Ho.
  - split; [done|]. rewrite Ho. by rewrite app_nil_r.
Qed.

Ltac chan_eq :=
  unfold drop_send, forget_send, forget_recv, hand_over, pull, buffer, wake,
    set_mem, set_inner, set_sends, set_recvs, set_slots; simpl;
  rewrite ?delete_insert_eq, ?insert_insert_eq; done.

Lemma waiting_receiver c ks t a slot rest :
  Inv (mkSys c ks) → chan_receivers c = (t, a, slot) :: rest →
  recvs (mem c) !! a = Some (mkWaitRecv Recv_FirstCall slot) ∧ slots (mem c) !! slot = Some None.
Proof.
  intros HI Hr. pose proof (inv_parked _ HI) as Hp. unfold parked_receivers in Hp.
  simpl in Hp. rewrite Hr in Hp. apply parked_ok_receiver in Hp as (Ha & _ & _). split; [done|].
  destruct (mem_recvs _ (inv_mem _ HI) _ _ Ha) as (o & Ho & Hok). simpl in *. by subst.
Qed.

(** A woken or first-time sender is answered, whatever the channel holds. *)
Lemma send_poll_spec c ks t a f :
  Inv (mkSys c ks) → sends (mem c) !! a = Some f → ¬ sender_parked (mkSys c ks) a →
  ∃ c' r, WaitLocalSend_poll t a c = Val (c', r) ∧
    Inv (mkSys (drop_send a r c') ks) ∧ flow c (send_events a c c') (drop_send a r c').
Proof.
  intros HI Ha Hn. destruct (forget_send_ok _ _ _ HI Hn) as [HF Hflow].
  pose proof (mem_sends _ (inv_mem _ HI) a f Ha) as Hf.
  unfold WaitLocalSend_poll, send_events. simpl. rewrite Ha. simpl.
  destruct f as [st o]. destruct st; unfold send_ok in Hf; simpl in *.
  - destruct Hf as [v ->]. destruct (is_closed (inner c)) eqn:Ho.
    { erewrite take_value_eq by done. do 2 eexists. split; [done|].
      rewrite forget_send_taken. by split. }
    destruct (chan_receivers c) as [|[[t' b] slot] rest] eqn:Hr; simpl.
    + unfold handover_events. rewrite Hr. destruct (is_full (inner c)) eqn:Hfull.
      * do 2 eexists. split; [done|]. by apply park_send_ok.
      * erewrite take_value_eq by done. do 2 eexists. split; [done|].
        match goal with |- Inv (mkSys ?x _) ∧ _ =>
          replace x with (buffer v (forget_send a c)) by chan_eq end.
        destruct (buffer_ok _ _ v HF) as [HI' Hflow']; try done.
        split; [exact HI'|]. by eapply flow_trans.
    + destruct (waiting_receiver _ _ _ _ _ _ HI Hr) as [Hb Hslot].
      erewrite take_value_eq by done. erewrite hand_over_eq by done.
      do 2 eexists. split; [done|]. unfold handover_events, slot_events. rewrite Hr. simpl.
      rewrite lookup_insert_eq.
      match goal with |- Inv (mkSys ?x _) ∧ _ =>
        replace x with (hand_over t' b slot rest v (forget_send a c)) by chan_eq end.
      destruct (hand_over_ok _ _ t' b slot rest v HF) as [HI' Hflow']; try done.
      split; [exact HI'|]. by eapply flow_trans.
  - do 2 eexists. split; [done|]. by split.
  - destruct Hf as [v ->]. erewrite take_value_eq by done. do 2 eexists. split; [done|].
    rewrite forget_send_taken. by split.
Qed.

(** A change of the slots commutes with taking values from the channel. *)
Definition with_slot (slot : loc) (o : option T) (c : Chan T) : Chan T :=
  set_mem (set_slots <[slot := o]> (mem c)) c.

Lemma refill_with_slot slot o c c' :
  refill_storage c = Val c' → refill_storage (with_slot slot o c) = Val (with_slot slot o c').
Proof.
  unfold refill_storage, chan_senders. simpl.
  destruct (pop_front _) as [[[[t a] p] rest]|]; [|by intros [= <-]].
  unfold write_send_state, take_value. simpl.
  destruct (sends (mem c) !! a) as [f|]; [|done]. simpl.
  destruct (<[a:=_]> _ !! p) as [g|]; [|done]. simpl.
  destruct (ws_value g); [|done]. simpl. by intros [= <-].
Qed.

(** The head of the abstract queue is received, by either operation. *)
Lemma take_ok c ks slot o :
  Inv (mkSys c ks) → is_closed (inner c) = false → slots (mem c) !! slot = Some o →
  ¬ (storage (inner c) = [] ∧ chan_senders c = []) →
  ∃ c2 v,
    recvs (mem c2) = recvs (mem c) ∧ slots (mem c2) = slots (mem c) ∧
    parked_receivers (mkSys c2 ks) = parked_receivers (mkSys c ks) ∧
    Inv (mkSys c2 ks) ∧ flow c [Delivered v] c2 ∧ sender_served c c2 ∧
    (∀ t a, recvs (mem c) !! a = Some (mkWaitRecv Recv_FirstCall slot) →
      WaitLocalRecv_poll t a c = Val (with_slot slot (Some v) c2, Ready RecvIn_Ok)) ∧
    try_recv_in_ptr slot c = Val (with_slot slot (Some v) c2, TryRecvIn_Ok).
Proof.
  intros HI Ho Hslot Hne. unfold WaitLocalRecv_poll, try_recv_in_ptr. rewrite Ho.
  destruct (storage (inner c)) as [|v st] eqn:Hst; simpl.
  - destruct (chan_senders c) as [|[[t a] p] rest] eqn:Hs; [naive_solver|]. simpl.
    destruct (pull_ok _ _ _ _ _ _ HI Ho Hst Hs) as (v & -> & Ha & HI' & Hflow).
    assert (write_slot (mem (pull t a rest c)) slot v =
      Val (set_slots <[slot := Some v]> (mem (pull t a rest c)))) as Hw.
    { unfold write_slot. simpl. by rewrite Hslot. }
    exists (pull t a rest c), v. split_and!; try done; [by eapply pull_served|..].
    + intros t' b Hb. rewrite Hb. simpl. rewrite (pull_sender_eq _ _ v) by done.
      simpl in Hw |- *. by rewrite Hw.
    + rewrite (pull_sender_eq _ _ v) by done. simpl in Hw |- *. by rewrite Hw.
  - destruct (refill_ok _ _ _ _ HI Ho Hst) as (c2 & Hc2 & Hr & Hsl & Hp & HI' & Hflow & Hserved).
    apply (refill_with_slot slot (Some v)) in Hc2.
    assert (write_slot (mem c) slot v = Val (set_slots <[slot := Some v]> (mem c))) as Hw.
    { unfold write_slot. by rewrite Hslot. }
    exists c2, v. split_and!; try done.
    + intros t' b Hb. rewrite Hb. simpl. rewrite Hw. simpl. by setoid_rewrite Hc2.
    + rewrite Hw. simpl. by setoid_rewrite Hc2.
Qed.

Lemma recv_return_ok a slot v c :
  recv_return a slot (Ready RecvIn_Ok) (with_slot slot (Some v) c) =
    Val (forget_recv a slot c, Ready (Recv_Ok v)).
Proof.
  unfold recv_return, recv_finish, take_slot. simpl. rewrite lookup_insert_eq. simpl.
  unfold set_mem, forget_recv, set_mem. simpl.
  unfold set_slots, set_recvs. simpl. by rewrite !delete_insert_eq.
Qed.

Lemma recv_poll_spec c ks t a f :
  Inv (mkSys c ks) → recvs (mem c) !! a = Some f → ¬ receiver_parked (mkSys c ks) a →
  ∃ c1 r1 c' r, WaitLocalRecv_poll t a c = Val (c1, r1) ∧ recv_poll t a c = Val (c', r) ∧
    Inv (mkSys c' ks) ∧ flow c (recv_events a c c1) c'.
Proof.
  intros HI Ha Hn. destruct (forget_recv_ok _ _ _ _ HI Hn Ha) as [HF Hflow].
  destruct (mem_recvs _ (inv_mem _ HI) _ _ Ha) as (o & Hslot & Hok).
  destruct f as [st slot]. simpl in *. unfold recv_poll, recv_events. rewrite Ha. simpl.
  destruct st; simpl in Hok.
  - subst o. destruct (is_closed (inner c)) eqn:Ho.
    { unfold WaitLocalRecv_poll. rewrite Ha, Ho. simpl. do 4 eexists.
      split; [done|]. by split. }
    destruct (decide (storage (inner c) = [] ∧ chan_senders c = [])) as [[Hst Hs]|Hne].
    + unfold WaitLocalRecv_poll. rewrite Ha, Ho, Hst, Hs. simpl. do 4 eexists.
      split; [done|]. split; [done|]. unfold slot_events. simpl. rewrite Hslot.
      by apply park_recv_ok.
    + destruct (take_ok _ _ _ _ HI Ho Hslot Hne)
        as (c2 & v & Hr2 & Hsl2 & Hp2 & HI2 & Hf2 & _ & Hpoll & _).
      rewrite (Hpoll t a Ha). do 4 eexists.
      split; [done|]. split; [apply recv_return_ok|]. unfold slot_events. simpl. rewrite lookup_insert_eq.
      destruct (forget_recv_ok c2 ks a (mkWaitRecv Recv_FirstCall slot) HI2) as [HI3 Hf3].
      { unfold receiver_parked. by rewrite Hp2. }
      { by rewrite Hr2. }
      split; [done|]. by eapply flow_trans_r.
  - unfold WaitLocalRecv_poll. rewrite Ha. simpl. unfold take_slot. destruct Hok as [v ->].
    rewrite Hslot. simpl. do 4 eexists. split; [done|]. split; [done|].
    match goal with |- Inv (mkSys ?x _) ∧ _ =>
      replace x with (forget_recv a slot c) by chan_eq end.
    by split.
  - unfold WaitLocalRecv_poll. rewrite Ha. simpl. by do 4 eexists.
Qed.

Lemma try_send_spec c ks v :
  Inv (mkSys c ks) →
  ∃ c' r, try_send v c = Val (c', r) ∧ Inv (mkSys c' ks) ∧ flow c (try_send_events v r c c') c'.
Proof.
  intros HI. unfold try_send. destruct (is_closed (inner c)) eqn:Ho.
  { do 2 eexists. split; [done|]. split; [done|]. unfold flow. by rewrite Ho. }
  unfold try_send_events, handover_events.
  destruct (chan_receivers c) as [|[[t a] slot] rest] eqn:Hr; simpl.
  - destruct (is_full (inner c)) eqn:Hf; do 2 eexists; (split; [done|]).
    + split; [done|]. unfold flow. rewrite Ho. simpl. by rewrite app_nil_r.
    + by apply buffer_ok.
  - destruct (waiting_receiver _ _ _ _ _ _ HI Hr) as [Ha Hslot].
    erewrite hand_over_eq by done. do 2 eexists. split; [done|].
    unfold slot_events. simpl. rewrite lookup_insert_eq. by apply hand_over_ok.
Qed.

(** A slot that no future owns comes and goes. *)
Lemma with_slot_ok c ks slot o :
  Inv (mkSys c ks) → slots (mem c) !! slot = None →
  Inv (mkSys (with_slot slot o c) ks) ∧ flow c [] (with_slot slot o c).
Proof.
  intros [[Hs Hr Hi] Hin Hp Hc] Hslot. split.
  - split; [|exact Hin| |exact Hc]; [|by eapply parked_ok_ext, Hp].
    split; [exact Hs| |exact Hi]. simpl. intros b g Hb.
    destruct (Hr b g Hb) as (o' & Ho' & Hok). exists o'. split; [|done].
    rewrite lookup_insert_ne; [done|]. simpl in *. congruence.
  - split; [done|]. destruct (is_closed _); [done|]. simpl. by rewrite app_nil_r.
Qed.

Lemma without_slot_ok c ks slot :
  Inv (mkSys c ks) → (∀ b g, recvs (mem c) !! b = Some g → wr_slot g ≠ slot) →
  let c' := set_mem (set_slots (delete slot) (mem c)) c in
  Inv (mkSys c' ks) ∧ flow c [] c'.
Proof.
  intros [[Hs Hr Hi] Hin Hp Hc] Hslot c'. split.
  - split; [|exact Hin| |exact Hc]; [|by eapply parked_ok_ext, Hp].
    split; [exact Hs| |exact Hi]. simpl. intros b g Hb.
    destruct (Hr b g Hb) as (o' & Ho' & Hok). exists o'. split; [|done].
    rewrite lookup_delete_ne; [done|]. intros ->. by eapply Hslot.
  - split; [done|]. destruct (is_closed _); [done|]. simpl. by rewrite app_nil_r.
Qed.

Lemma try_recv_spec c ks slot :
  Inv (mkSys c ks) → slots (mem c) !! slot = None →
  ∃ c1 r, try_recv slot (with_slot slot None c) = Val (c1, r) ∧
    let c' := set_mem (set_slots (delete slot) (mem c1)) c1 in
    Inv (mkSys c' ks) ∧ flow c (try_recv_events r) c'.
Proof.
  intros HI Hslot. destruct (with_slot_ok _ _ _ None HI Hslot) as [HI0 Hf0].
  assert (∀ b g, recvs (mem c) !! b = Some g → wr_slot g ≠ slot) as Hfree.
  { intros b g Hb <-. destruct (mem_recvs _ (inv_mem _ HI) _ _ Hb) as (o & Ho & _).
    simpl in *. congruence. }
  destruct (without_slot_ok _ _ slot HI0 Hfree) as [HI1 Hf1].
  pose proof (flow_trans _ _ _ _ Hf0 Hf1) as Hf. unfold try_recv.
  destruct (is_closed (inner c)) eqn:Ho.
  { unfold try_recv_in_ptr. simpl. rewrite Ho. by do 2 eexists. }
  destruct (decide (storage (inner c) = [] ∧ chan_senders c = [])) as [[Hst Hs]|Hne].
  { unfold try_recv_in_ptr. unfold chan_senders in *. simpl. rewrite Ho, Hst, Hs. by do 2 eexists. }
  destruct (take_ok _ _ slot None HI0) as (c2 & v & Hr2 & Hsl2 & Hp2 & HI2 & Hf2 & _ & _ & Htry);
    [done|by apply lookup_insert_eq|done|].
  rewrite Htry. simpl. unfold take_slot. simpl. rewrite lookup_insert_eq. simpl.
  do 2 eexists. split; [done|].
  match goal with |- Inv (mkSys ?x _) ∧ _ =>
    replace x with (set_mem (set_slots (delete slot) (mem c2)) c2) by chan_eq end.
  destruct (without_slot_ok _ _ slot HI2) as [HI3 Hf3]; [by rewrite Hr2|].
  split; [exact HI3|]. eapply flow_trans, flow_trans_r; done.
Qed.

Lemma new_send_ok c ks a v :
  Inv (mkSys c ks) → sends (mem c) !! a = None →
  let c' := set_mem (set_sends <[a := WaitLocalSend_new v]> (mem c)) c in
  Inv (mkSys c' ks) ∧ flow c [] c'.
Proof.
  intros HI Ha c'. pose proof HI as [Hm Hi Hp Hc].
  assert (∀ b, b ∈ entry_ptr <$> parked_senders (mkSys c ks) →
    sends (mem c') !! b = sends (mem c) !! b) as Hext.
  { intros b (e & -> & He)%list_elem_of_fmap. apply lookup_insert_ne. intros ->.
    pose proof (parked_senders_ok _ _ _ Hp) as Hf. rewrite Forall_forall in Hf.
    destruct (Hf e He) as (t & d & w & -> & Hd). unfold entry_ptr in *. simpl in *. congruence. }
  split.
  - split; [|exact Hi|by eapply parked_ok_ext, Hp|exact Hc].
    apply mem_ok_send; [done|]. by exists v.
  - split; [done|]. simpl. destruct (is_closed (inner c)) eqn:Ho; [done|].
    simpl in Hc. rewrite Ho in Hc. subst ks. simpl. rewrite app_nil_r.
    unfold queue_of. f_equal. symmetry. unfold parked_senders in *. simpl in *.
    rewrite app_nil_r in Hp, Hext. by eapply queue_values_ext.
Qed.

Lemma new_recv_ok c ks a slot :
  Inv (mkSys c ks) → recvs (mem c) !! a = None → slots (mem c) !! slot = None →
  let c' := set_mem (set_slots <[slot := None]>
              (set_recvs <[a := WaitLocalRecv_new slot]> (mem c))) c in
  Inv (mkSys c' ks) ∧ flow c [] c'.
Proof.
  intros [Hm Hi Hp Hc] Ha Hslot c'. split.
  - split; [by apply mem_ok_recv_new|exact Hi| |exact Hc].
    eapply parked_ok_ext, Hp; [done|].
    intros b (e & -> & He)%list_elem_of_fmap. apply lookup_insert_ne. intros ->.
    pose proof (parked_receivers_ok _ _ _ Hp) as Hf. rewrite Forall_forall in Hf.
    pose proof (Hf e He) as Hd. unfold receiver_entry_ok in Hd. simpl in *. congruence.
  - split; [done|]. destruct (is_closed _); [done|]. simpl. by rewrite app_nil_r.
Qed.

Global Instance parked_ok_Permutation m :
  Proper ((≡ₚ) ==> (≡ₚ) ==> iff) (parked_ok m).
Proof.
  intros ls ls' Hs lr lr' Hr. split; intros [H1 H2 H3 H4]; split;
    first [rewrite <-Hs | rewrite <-Hr | rewrite Hs | rewrite Hr]; done.
Qed.

Lemma close_begin_ok c ks :
  Inv (mkSys c ks) → Inv (mkSys (close_begin c).1 ((close_begin c).2 :: ks)).
Proof. intros [Hm [Hl Hf Hid] Hp Hc]. split; try done. split; try done. naive_solver. Qed.

(** A turn of a loop of [close] writes to a future that is still there. *)
Lemma close_resume_spec c k ks :
  Inv (mkSys c (k :: ks)) → undisturbed k →
  ∃ c' ok, close_resume k c = Val (c', ok) ∧
    (Inv (mkSys c' (from_option (λ k', k' :: ks) ks ok)) ∧ flow c [] c') ∧
    from_option undisturbed True ok.
Proof.
  intros [Hm Hi Hp Hc] Hk. simpl in *. destruct (is_closed (inner c)) eqn:Ho; [|done].
  assert (∀ c', inner c' = inner c → flow c [] c') as Hflow.
  { intros c' Hc'. unfold flow. by rewrite Hc', Ho. }
  destruct k as [[|[[t a] p] l]|[|[[t a] slot] l]| |]; try done; simpl.
  - do 2 eexists. split; [done|]. split; [|done]. split; [|split; [done|]; by rewrite Ho].
    destruct Hi as [Hl Hf Hid]. split; [done|by split|done|]. simpl. by rewrite Ho.
  - unfold parked_senders, parked_receivers in Hp. simpl in Hp. rewrite Hc in Hp. simpl in Hp.
    apply parked_ok_sender in Hp as (? & ? & v & [= <- <- ->] & Ha & Hn & Hp).
    unfold write_send_state. rewrite Ha. simpl. do 2 eexists. split; [done|].
    split; [|done]. split; [|by apply Hflow]. split; simpl; [|done| |by rewrite Ho].
    + apply mem_ok_send; [done|]. by exists v.
    + unfold parked_senders, parked_receivers. simpl. unfold chan_senders in *. simpl.
      rewrite Hc. simpl. eapply parked_ok_ext, Hp; [|done].
      intros b Hb. apply lookup_insert_ne. by intros ->.
  - do 2 eexists. split; [done|]. split; [|done]. split; [|by apply Hflow].
    split; try done. simpl. by rewrite Ho.
  - unfold parked_senders, parked_receivers in Hp. simpl in Hp.
    rewrite <-Permutation_middle in Hp.
    apply parked_ok_receiver in Hp as (Ha & Hn & Hp). unfold entry_ptr in Ha. simpl in Ha.
    unfold write_recv_state. rewrite Ha. simpl. do 2 eexists. split; [done|].
    split; [|done]. split; [|by apply Hflow]. split; simpl; [|done| |by rewrite Ho].
    + by apply mem_ok_recv_closed.
    + eapply parked_ok_ext, Hp; [done|].
      intros b Hb. apply lookup_insert_ne. by intros ->.
Qed.

(** ** Runs *)
Lemma init_inv cap : (0 ≤ cap)%Z → Inv (init cap).
Proof. intros Hcap. split; [| |by split; constructor|done]; by split. Qed.

(** What has been delivered and what is buffered is an initial part of what
    was offered, in order; with the values of the waiting senders it is
    all of it, while the channel is open. *)
Definition history_ok (tr : list event) (c : Chan T) : Prop :=
  if is_closed (inner c) then delivers tr ++ storage (inner c) `prefix_of` offers tr
  else offers tr = delivers tr ++ queue_of c.

Lemma history_flow tr ev c c' : history_ok tr c → flow c ev c' → history_ok (tr ++ ev) c'.
Proof.
  unfold history_ok, flow. intros H [-> Hf]. unfold offers, delivers in *.
  destruct (is_closed (inner c)); rewrite !omap_app.
  - destruct Hf as [-> ->]. by rewrite !app_nil_r.
  - rewrite H, <-!app_assoc. by f_equal.
Qed.

Lemma history_close tr c : history_ok tr c → history_ok tr (close_begin c).1.
Proof.
  unfold history_ok. simpl. destruct (is_closed (inner c)); [done|]. intros ->.
  unfold queue_of. rewrite app_assoc. by apply prefix_app_r.
Qed.

(** A closed channel moves no value, whatever the loops of [close] write. *)
Lemma closed_flow c ev c' :
  is_closed (inner c) = true → ev = [] → is_closed (inner c') = true →
  storage (inner c') = storage (inner c) → flow c ev c'.
Proof. intros Ho He Ho' Hs. unfold flow. by rewrite Ho, Ho'. Qed.

Lemma closed_send_poll c t a c' r :
  is_closed (inner c) = true → WaitLocalSend_poll t a c = Val (c', r) →
  inner c' = inner c ∧ send_events a c c' = [].
Proof.
  intros Ho Hp. split.
  - unfold WaitLocalSend_poll in Hp. rewrite Ho in Hp. outcome_inv.
    destruct (ws_call_state x); outcome_inv; try done; by destruct x0; outcome_inv.
  - unfold send_events. rewrite Ho. destruct (sends (mem c) !! a) as [[[] []]|]; done.
Qed.

Lemma closed_recv_poll c t a c' r :
  is_closed (inner c) = true → recv_poll t a c = Val (c', r) → inner c' = inner c.
Proof.
  intros Ho Hp. unfold recv_poll in Hp. outcome_inv. destruct x0 as [c1 r1].
  assert (inner c1 = inner c) as <-.
  { unfold WaitLocalRecv_poll in *. rewrite Ho in *. outcome_inv. destruct (wr_call_state _); by outcome_inv. }
  unfold recv_return in *. destruct r1; outcome_inv; [|done].
  match goal with x : RecvResult T * Mem T |- _ => destruct x end. by outcome_inv.
Qed.

Lemma closed_try_recv c slot c' r :
  is_closed (inner c) = true → try_recv slot c = Val (c', r) →
  inner c' = inner c ∧ try_recv_events r = [].
Proof.
  intros Ho Hp. unfold try_recv, try_recv_in_ptr in Hp. rewrite Ho in Hp. simpl in Hp. by outcome_inv.
Qed.

Lemma closed_resume c k c' ok :
  close_resume k c = Val (c', ok) →
  is_closed (inner c') = is_closed (inner c) ∧ storage (inner c') = storage (inner c).
Proof.
  destruct k as [[|[[? ?] ?] l]|[|[[? ?] ?] l]|[|[[? ?] ?] l]|[|[[? ?] ?] l]]; simpl; intros Hr;
    by outcome_inv.
Qed.

Lemma closed_step nested s ev s' :
  step nested s ev s' → is_closed (inner (ch s)) = true → flow (ch s) ev (ch s').
Proof.
  intros Hstep Ho.
  destruct Hstep as [s a v Ha|s a t c' r Hn Hp|s a slot Ha Hs|s a t c1 r1 c' r Hn Hp Hq|s v c' r Hp
    |s slot c' r Hs Hp|s ks Hn Hf|s k ks c' ok Hk Hp]; simpl; try (by apply closed_flow).
  - destruct (closed_send_poll _ _ _ _ _ Ho Hp) as [Hi He].
    apply closed_flow; [done..| |]; destruct r; simpl; by rewrite Hi.
  - pose proof (closed_recv_poll _ _ _ _ _ Ho Hq) as Hi.
    apply closed_flow; [done| |by rewrite Hi..]. unfold recv_events. rewrite Ho.
    by destruct (recvs _ !! a) as [[[] ?]|].
  - unfold try_send in Hp. rewrite Ho in Hp. simplify_eq. by apply closed_flow.
  - destruct (λ H, closed_try_recv _ _ _ _ H Hp) as [Hi He]; [done|]. simpl in Hi.
    apply closed_flow; [done|done|simpl; by rewrite Hi..].
  - destruct (closed_resume _ _ _ _ Hp) as [Hc Hs]. apply closed_flow; [done..| |done]. by rewrite Hc.
Qed.

(** What holds in all runs: the invariant and undisturbed loops, or, with
    nested calls of [close], a closed channel. *)
Definition good (nested : bool) (s : Sys) : Prop :=
  Inv s ∧ Forall undisturbed (closing s) ∨ nested = true ∧ is_closed (inner (ch s)) = true.

Lemma reread_idle ks ks' : forallb loop_done ks = true → Forall2 reread ks ks' → ks' = ks.
Proof.
  intros Hd. induction 1 as [|k k' ks ks' Hk _ IH]; [done|]. simpl in Hd.
  apply andb_prop in Hd as [Hdk Hd]. rewrite (IH Hd). destruct Hk as [| | |[]|[]]; try done; by destruct l.
Qed.

Lemma step_ok nested s ev s' tr :
  step nested s ev s' → Inv s → Forall undisturbed (closing s) → history_ok tr (ch s) →
  good nested s' ∧ history_ok (tr ++ ev) (ch s').
Proof.
  intros Hstep. revert tr.
  assert (∀ tr, Inv s' ∧ flow (ch s) ev (ch s') → Forall undisturbed (closing s') →
    history_ok tr (ch s) → good nested s' ∧ history_ok (tr ++ ev) (ch s')) as Hgo.
  { intros tr [HI Hf] Hu Hh. split; [by left|]. by eapply history_flow. }
  destruct Hstep as [[c ks] a v Ha|[c ks] a t c' r Hn Hp|[c ks] a slot Ha Hs
    |[c ks] a t c1 r1 c' r Hn Hp Hq|[c ks] v c' r Hp|[c ks] slot c' r Hs Hp
    |[c ks] ks' Hn Hf|[c ks'] k ks c' ok Hk Hp]; intros tr HI Hu Hh; simpl in *.
  - apply Hgo; [|done..]. by apply new_send_ok.
  - apply Hgo; [|done..]. destruct (sends (mem c) !! a) as [f|] eqn:Ha.
    + destruct (send_poll_spec c ks t a f HI Ha Hn) as (c2 & r2 & Hp2 & ?).
      rewrite Hp in Hp2. by simplify_eq.
    + unfold WaitLocalSend_poll in Hp. by rewrite Ha in Hp.
  - apply Hgo; [|done..]. by apply new_recv_ok.
  - apply Hgo; [|done..]. destruct (recvs (mem c) !! a) as [f|] eqn:Ha.
    + destruct (recv_poll_spec c ks t a f HI Ha Hn) as (c2 & r2 & c3 & r3 & Hp2 & Hp3 & ?).
      rewrite Hp in Hp2. rewrite Hq in Hp3. by simplify_eq.
    + unfold WaitLocalRecv_poll in Hp. by rewrite Ha in Hp.
  - apply Hgo; [|done..]. destruct (try_send_spec c ks v HI) as (c2 & r2 & Hp2 & ?).
      rewrite Hp in Hp2. by simplify_eq.
  - apply Hgo; [|done..]. destruct (try_recv_spec c ks slot HI Hs) as (c2 & r2 & Hp2 & ?).
    unfold with_slot in Hp2. rewrite Hp in Hp2. by simplify_eq.
  - rewrite app_nil_r. split; [|by apply history_close]. destruct nested; [by right|left].
    destruct Hn as [|Hd]; [done|]. rewrite (reread_idle ks ks' Hd Hf).
    split; [by apply close_begin_ok|]. by constructor.
  - subst ks'. apply Forall_cons in Hu as [Huk Hu].
    destruct (close_resume_spec c k ks HI Huk) as (c2 & r2 & Hp2 & HI' & Hur).
    rewrite Hp in Hp2. simplify_eq. apply Hgo; [done| |done]. destruct r2; simpl; [by constructor|done].
Qed.

Lemma good_step nested s ev s' tr :
  step nested s ev s' → good nested s → history_ok tr (ch s) →
  good nested s' ∧ history_ok (tr ++ ev) (ch s').
Proof.
  intros Hs [[HI Hu]|[Hn Ho]] Hh; [by eapply step_ok|].
  pose proof (closed_step _ _ _ _ Hs Ho) as Hf. split; [right|by eapply history_flow].
  split; [done|]. by rewrite (proj1 Hf).
Qed.

(** *** Runs by evaluation: a script of commands is a run. *)
Inductive cmd :=
| NewSend (a : loc) (v : T)
| PollSend (t : Task) (a : loc)
| NewRecv (a slot : loc)
| PollRecv (t : Task) (a : loc)
| TrySend (v : T)
| TryRecv (slot : loc)
| Close
| CloseTurn.

Definition exec1 (k : cmd) (s : Sys) : outcome (list event * Sys) :=
  let c := ch s in
  match k with
  | NewSend a v =>
      if decide (sends (mem c) !! a = None)
      then Val ([], mkSys (set_mem (set_sends <[a := WaitLocalSend_new v]> (mem c)) c) (closing s))
      else Undefined
  | PollSend t a =>
      if decide (a ∈ entry_ptr <$> parked_senders s) then Undefined else
      '(c', r) ← WaitLocalSend_poll t a c;
      Val (send_events a c c', mkSys (drop_send a r c') (closing s))
  | NewRecv a slot =>
      if decide (recvs (mem c) !! a = None ∧ slots (mem c) !! slot = None)
      then Val ([], mkSys (set_mem (set_slots <[slot := None]>
                  (set_recvs <[a := WaitLocalRecv_new slot]> (mem c))) c) (closing s))
      else Undefined
  | PollRecv t a =>
      if decide (a ∈ entry_ptr <$> parked_receivers s) then Undefined else
      '(c1, _) ← WaitLocalRecv_poll t a c;
      '(c', r) ← recv_poll t a c;
      Val (recv_events a c c1, mkSys c' (closing s))
  | TrySend v =>
      '(c', r) ← try_send v c; Val (try_send_events v r c c', mkSys c' (closing s))
  | TryRecv slot =>
      if decide (slots (mem c) !! slot = None) then
        '(c', r) ← try_recv slot (set_mem (set_slots <[slot := None]> (mem c)) c);
        Val (try_recv_events r, mkSys (set_mem (set_slots (delete slot) (mem c')) c') (closing s))
      else Undefined
  | Close =>
      if forallb loop_done (closing s)
      then Val ([], mkSys (close_begin c).1 ((close_begin c).2 :: closing s))
      else Undefined
  | CloseTurn =>
      match closing s with
      | k :: ks =>
          '(c', ok) ← close_resume k c;
          Val ([], mkSys c' (from_option (λ k', k' :: ks) ks ok))
      | [] => Undefined
      end
  end.

Fixpoint exec (l : list cmd) (s : Sys) : outcome (list event * Sys) :=
  match l with
  | [] => Val ([], s)
  | k :: l =>
      '(ev, s) ← exec1 k s;
      '(tr, s) ← exec l s;
      Val (ev ++ tr, s)
  end.

Lemma reread_refl ks : forallb loop_done ks = true → Forall2 reread ks ks.
Proof.
  induction ks as [|k ks IH]; [by constructor|]. simpl. intros [Hk Hks]%andb_prop.
  constructor; [by constructor|by apply IH].
Qed.

Lemma exec1_step nested k s ev s' : exec1 k s = Val (ev, s') → step nested s ev s'.
Proof.
  intros He. destruct k; simpl in He; repeat case_decide; try done.
  - outcome_inv. by constructor.
  - outcome_inv. destruct x as [c' r]. outcome_inv. by econstructor.
  - outcome_inv. constructor; naive_solver.
  - outcome_inv. destruct x as [c1 r1]. outcome_inv. destruct x as [c' r]. outcome_inv.
    by econstructor.
  - outcome_inv. destruct x as [c' r]. outcome_inv. by econstructor.
  - outcome_inv. destruct x as [c' r]. outcome_inv. by constructor.
  - destruct (forallb loop_done (closing s)) eqn:Hd; [|done]. outcome_inv.
    constructor; [by right|by apply reread_refl].
  - destruct (closing s) as [|k ks] eqn:Hk; [done|]. outcome_inv. destruct x as [c' r].
    outcome_inv. by econstructor.
Qed.

Lemma steps_app nested s1 tr1 s2 tr2 s3 :
  steps nested s1 tr1 s2 → steps nested s2 tr2 s3 → steps nested s1 (tr1 ++ tr2) s3.
Proof.
  intros H12. induction 1 as [|s2 tr2 s3 tr3 s4 H23 IH H34]; [by rewrite app_nil_r|].
  rewrite app_assoc. econstructor; eauto.
Qed.

Lemma exec_steps nested l s tr s' : exec l s = Val (tr, s') → steps nested s tr s'.
Proof.
  revert s tr. induction l as [|k l IH]; intros s tr He; simpl in He.
  - outcome_inv. constructor.
  - outcome_inv. destruct x as [ev s1]. outcome_inv. destruct x as [tr2 s2]. outcome_inv.
    eapply steps_app; [|by eapply IH].
    apply (steps_cons _ _ [] s ev); [constructor|]. by eapply exec1_step.
Qed.

Lemma steps_good nested cap tr s :
  (0 ≤ cap)%Z → steps nested (init cap) tr s → good nested s ∧ history_ok tr (ch s).
Proof.
  intros Hcap Hs. remember (init cap) as s0. induction Hs as [s|s1 tr1 s2 tr2 s3 H12 IH Hst].
  - subst. split; [left; split; [by apply init_inv|constructor]|done].
  - destruct (IH Heqs0) as [HI Hh]. by eapply good_step.
Qed.

Lemma steps_ok cap tr s :
  (0 ≤ cap)%Z → steps false (init cap) tr s → Inv s ∧ Forall undisturbed (closing s).
Proof. intros Hcap Hs. by destruct (steps_good _ _ _ _ Hcap Hs) as [[?|[? _]] _]. Qed.

(** The run of a script from the start, cut to nothing if it does not fit. *)
Definition run (cap : Z) (l : list cmd) : list event * Sys :=
  match exec l (init cap) with Val x => x | _ => ([], init cap) end.

Lemma run_steps nested cap l : steps nested (init cap) (run cap l).1 (run cap l).2.
Proof.
  unfold run. destruct (exec l (init cap)) as [[tr s]| |] eqn:He; [|constructor..].
  by eapply exec_steps.
Qed.

(** *** [close] when no woken task runs in between *)
Definition alter_all {A} (f : A → A) (l : list (Task * loc * loc)) (g : gmap loc A) : gmap loc A :=
  foldl (λ g e, alter f (entry_ptr e) g) g l.

Lemma alter_all_out {A} (f : A → A) l (g : gmap loc A) a :
  (a ∉ entry_ptr <$> l) → alter_all f l g !! a = g !! a.
Proof.
  revert g. induction l as [|e l IH]; intros g Hn; [done|].
  rewrite fmap_cons, not_elem_of_cons in Hn. destruct Hn as [Hne Hn].
  change (alter_all f l (alter f (entry_ptr e) g) !! a = g !! a). rewrite IH by done. by apply lookup_alter_ne.
Qed.

Lemma alter_all_in {A} (f : A → A) l (g : gmap loc A) a :
  NoDup (entry_ptr <$> l) → a ∈ (entry_ptr <$> l) → alter_all f l g !! a = f <$> g !! a.
Proof.
  revert g. induction l as [|e l IH]; intros g Hd Ha; [by apply elem_of_nil in Ha|].
  rewrite fmap_cons in *. apply NoDup_cons in Hd as [Hn Hd].
  change (alter_all f l (alter f (entry_ptr e) g) !! a = f <$> g !! a).
  apply elem_of_cons in Ha as [->|Ha].
  - rewrite alter_all_out by done. apply lookup_alter_eq.
  - rewrite IH by done. rewrite lookup_alter_ne; [done|]. by intros <-.
Qed.

Definition close_send (f : WaitSend T) : WaitSend T := mkWaitSend Send_WokenByClose (ws_value f).
Definition close_recv (f : WaitRecv) : WaitRecv := mkWaitRecv Recv_WokenByClose (wr_slot f).

Lemma parked_ok_senders_fold m e ls lr :
  parked_ok m (e :: ls) lr → parked_ok (set_sends (alter close_send (entry_ptr e)) m) ls lr.
Proof.
  intros Hp. apply parked_ok_sender in Hp as (t & a & v & -> & _ & Hn & Hp).
  eapply parked_ok_ext, Hp; [|done]. intros b Hb. apply lookup_alter_ne. by intros <-.
Qed.

Lemma parked_ok_receivers_fold m e ls lr :
  parked_ok m ls (e :: lr) → parked_ok (set_recvs (alter close_recv (entry_ptr e)) m) ls lr.
Proof.
  intros Hp. apply parked_ok_receiver in Hp as (_ & Hn & Hp).
  eapply parked_ok_ext, Hp; [done|]. intros b Hb. apply lookup_alter_ne. by intros <-.
Qed.

Lemma drain_senders_run l lr fuel c :
  parked_ok (mem c) l lr →
  close_run (length l + fuel) (DrainSenders l) c =
    close_run fuel (DrainSenders [])
      (mkChan (inner c) (set_sends (alter_all close_send l) (mem c))
         (woken c ++ (fst ∘ fst <$> l))).
Proof.
  revert c. induction l as [|e l IH]; intros c Hp.
  { simpl. rewrite app_nil_r. by destruct c as [? []]. }
  pose proof (parked_ok_senders_fold _ _ _ _ Hp) as Hp'.
  apply parked_ok_sender in Hp as (t & a & v & -> & Ha & _ & _). simpl.
  unfold write_send_state. rewrite Ha. simpl.
  assert (<[a:=mkWaitSend Send_WokenByClose (Some v)]> (sends (mem c)) =
    alter close_send a (sends (mem c))) as Halter.
  { unfold alter, map_alter. apply map_eq. intros b.
    destruct (decide (a = b)) as [->|]; [|by rewrite lookup_insert_ne, lookup_partial_alter_ne].
    by rewrite lookup_insert_eq, lookup_partial_alter_eq, Ha. }
  unfold set_sends at 1. rewrite Halter. rewrite IH by exact Hp'. simpl.
  by rewrite <-app_assoc.
Qed.

Lemma drain_receivers_run ls l fuel c :
  parked_ok (mem c) ls l →
  close_run (length l + S fuel) (DrainReceivers l) c =
    Val (Some (mkChan (inner c) (set_recvs (alter_all close_recv l) (mem c))
         (woken c ++ (fst ∘ fst <$> l)))).
Proof.
  revert c. induction l as [|[[t a] slot] l IH]; intros c Hp.
  { simpl. rewrite app_nil_r. by destruct c as [? []]. }
  pose proof (parked_ok_receivers_fold _ _ _ _ Hp) as Hp'.
  apply parked_ok_receiver in Hp as (Ha & _ & _). unfold entry_ptr in *. simpl in *.
  unfold write_recv_state. rewrite Ha. simpl.
  assert (<[a:=mkWaitRecv Recv_WokenByClose slot]> (recvs (mem c)) =
    alter close_recv a (recvs (mem c))) as Halter.
  { apply map_eq. intros b. destruct (decide (a = b)) as [->|].
    - by rewrite lookup_insert_eq, lookup_alter_eq, Ha.
    - by rewrite lookup_insert_ne, lookup_alter_ne. }
  unfold set_recvs at 1. rewrite Halter. rewrite IH by exact Hp'. simpl.
  by rewrite <-app_assoc.
Qed.

Lemma close_run_ok c :
  parked_ok (mem c) (chan_senders c) (chan_receivers c) →
  close c = Val (Some (mkChan
    (mkInner (storage (inner c)) true (capacity (inner c)) Deques_new)
    (mkMem (alter_all close_send (chan_senders c) (sends (mem c)))
           (alter_all close_recv (chan_receivers c) (recvs (mem c))) (slots (mem c)))
    (woken c ++ (fst ∘ fst <$> chan_senders c) ++ (fst ∘ fst <$> chan_receivers c)))).
Proof.
  intros Hp. unfold close, close_fuel. simpl.
  replace (length (chan_senders c) + length (chan_receivers c) + 3)
    with (length (chan_senders c) + (S (length (chan_receivers c) + 2))) by lia.
  unfold chan_senders at 2. simpl. fold (chan_senders c).
  rewrite (drain_senders_run _ (chan_receivers c)) by done. simpl.
  rewrite (drain_receivers_run []).
  - simpl. by rewrite <-app_assoc.
  - destruct Hp as [_ _ H3 H4]. split; try done; constructor.
Qed.

(** ** Theorems *)

(** C2: the channel is first-in first-out. In every run, whatever is sent,
    received, polled or closed in whatever order, the values put into
    receivers' slots followed by the buffered values are, in order, an initial
    part of the values offered; while the channel is open, adding the values
    of the waiting senders gives all of them: none is lost, duplicated or
    reordered. *)
Theorem local_channel_fifo (nested : bool) (cap : Z) (tr : list event) (s : Sys) :
  (0 ≤ cap)%Z → steps nested (init cap) tr s →
  delivers tr ++ storage (inner (ch s)) `prefix_of` offers tr ∧
  (is_closed (inner (ch s)) = false → offers tr = delivers tr ++ queue_of (ch s)).
Proof.
  intros Hcap Hs. destruct (steps_good _ _ _ _ Hcap Hs) as [_ Hh]. unfold history_ok in Hh.
  destruct (is_closed _); [done|]. split; [|done]. rewrite Hh. unfold queue_of.
  rewrite app_assoc. by apply prefix_app_r.
Qed.

(** C15: in runs of [send], [recv], [try_send], [try_recv] and [close] in which
    no [close] is called while another one has entries left in the deque it is
    working on, and futures are dropped only when they are ready: polling any
    future that is not parked, [try_send], [try_recv] and each turn of each
    [close] under way return, without undefined behaviour or panic. The raw
    pointers in the queues are live whenever they are used, each value is moved
    out once, and a slot is read only after it was written, also when tasks
    woken by [close] run between its turns. ([recv_in] and [try_recv_in] are
    not among the operations: see [local_channel_try_recv_in_leaves_slot].) *)
Theorem local_channel_safe (cap : Z) (tr : list event) (s : Sys) :
  (0 ≤ cap)%Z → steps false (init cap) tr s →
  (∀ t a f, sends (mem (ch s)) !! a = Some f → ¬ sender_parked s a →
    ∃ x, WaitLocalSend_poll t a (ch s) = Val x) ∧
  (∀ t a f, recvs (mem (ch s)) !! a = Some f → ¬ receiver_parked s a →
    ∃ x, recv_poll t a (ch s) = Val x) ∧
  (∀ v, ∃ x, try_send v (ch s) = Val x) ∧
  (∀ slot, slots (mem (ch s)) !! slot = None →
    ∃ x, try_recv slot (with_slot slot None (ch s)) = Val x) ∧
  (∀ k ks, closing s = k :: ks → ∃ x, close_resume k (ch s) = Val x).
Proof.
  intros Hcap Hs. destruct (steps_ok _ _ _ Hcap Hs) as [HI Hu]. destruct s as [c ks]. simpl.
  split_and!.
  - intros t a f Ha Hn. destruct (send_poll_spec c ks t a f) as (? & ? & ? & _); eauto.
  - intros t a f Ha Hn. destruct (recv_poll_spec c ks t a f) as (? & ? & ? & ? & ? & ? & _); eauto.
  - intros v. destruct (try_send_spec c ks v) as (? & ? & ? & _); eauto.
  - intros slot Hn. destruct (try_recv_spec c ks slot) as (? & ? & ? & _); eauto.
  - intros k ks' ->. apply Forall_cons in Hu as [Hk _].
    destruct (close_resume_spec c k ks' HI Hk) as (? & ? & ? & _); eauto.
Qed.

(** The buffer never holds more than [capacity] values; a sender waits
    only while the buffer is full, a receiver only while there is nothing to
    receive, buffered or offered by a waiting sender; and no sender waits in
    the queue of a closed channel. *)
Theorem local_channel_bounds (cap : Z) (tr : list event) (s : Sys) :
  (0 ≤ cap)%Z → steps false (init cap) tr s →
  (Z.of_nat (length (storage (inner (ch s)))) ≤ capacity (inner (ch s)))%Z ∧
  (chan_senders (ch s) ≠ [] →
    Z.of_nat (length (storage (inner (ch s)))) = capacity (inner (ch s)) ∧
    is_closed (inner (ch s)) = false) ∧
  (chan_receivers (ch s) ≠ [] → queue_of (ch s) = []).
Proof.
  intros Hcap Hs. destruct (steps_ok _ _ _ Hcap Hs) as [[_ [Hl Hf Hid] _ Hc] _].
  split_and!; [done| |].
  - intros Hn. specialize (Hf Hn). apply Z.leb_le in Hf. split; [lia|].
    by destruct (is_closed _).
  - intros Hn. destruct (Hid Hn) as [Hst Hsn]. unfold queue_of, chan_senders.
    by rewrite Hst, Hsn.
Qed.

(** A value that is received makes room for the first waiting sender: it
    is the oldest value of the channel, the sender's task is handed to the
    executor, and when it polls its [send] it is told that the value was
    sent. *)
Theorem local_channel_recv_unblocks (cap : Z) (tr : list event) (s : Sys) t a p rest slot :
  (0 ≤ cap)%Z → steps false (init cap) tr s → chan_senders (ch s) = (t, a, p) :: rest →
  slots (mem (ch s)) !! slot = None →
  ∃ c' v, try_recv slot (with_slot slot None (ch s)) = Val (c', TryRecv_Ok v) ∧
    queue_of (ch s) = v :: queue_of c' ∧ woken c' = woken (ch s) ++ [t] ∧
    chan_senders c' = rest ∧
    ∀ cx, WaitLocalSend_poll cx a c' = Val (c', Ready Send_Ok).
Proof.
  intros Hcap Hs Hsn Hslot. destruct (steps_ok _ _ _ Hcap Hs) as [HI _].
  destruct s as [c ks]. simpl in *.
  assert (is_closed (inner c) = false) as Ho.
  { pose proof (inv_closed _ HI) as Hc. simpl in Hc. destruct (is_closed _); [congruence|done]. }
  destruct (with_slot_ok _ _ _ None HI Hslot) as [HI0 _].
  destruct (take_ok _ _ slot None HI0)
    as (c2 & v & _ & _ & _ & _ & [_ Hf2] & Hserved & _ & Htry);
    [done|by apply lookup_insert_eq| |].
  { intros [_ Hnil]. unfold chan_senders in *. simpl in Hnil. congruence. }
  unfold sender_served in Hserved. unfold chan_senders in Hsn, Hserved. simpl in *.
  rewrite Hsn in Hserved. destruct Hserved as (Hw & Hrest & Hsent). rewrite Ho in Hf2.
  rewrite app_nil_r in Hf2. unfold try_recv. rewrite Htry. simpl. unfold take_slot. simpl.
  rewrite lookup_insert_eq. simpl. do 2 eexists. split; [done|]. split_and!; try done.
  intros cx. unfold WaitLocalSend_poll. simpl. by rewrite Hsent.
Qed.

(** A value sent while a receiver waits goes to the first one: its task is
    handed to the executor and its [recv] returns that value. *)
Theorem local_channel_send_unblocks (cap : Z) (tr : list event) (s : Sys) t a slot rest v :
  (0 ≤ cap)%Z → steps false (init cap) tr s → is_closed (inner (ch s)) = false →
  chan_receivers (ch s) = (t, a, slot) :: rest →
  ∃ c', try_send v (ch s) = Val (c', TrySend_Ok) ∧ woken c' = woken (ch s) ++ [t] ∧
    chan_receivers c' = rest ∧
    ∀ cx, ∃ c'', recv_poll cx a c' = Val (c'', Ready (Recv_Ok v)).
Proof.
  intros Hcap Hs Ho Hr. destruct (steps_ok _ _ _ Hcap Hs) as [HI _].
  destruct s as [c ks]. simpl in *.
  destruct (waiting_receiver _ _ _ _ _ _ HI Hr) as [Ha Hslot].
  unfold try_send. rewrite Ho, Hr. simpl. erewrite hand_over_eq by done.
  eexists. split; [done|]. split_and!; try done. intros cx.
  unfold recv_poll, WaitLocalRecv_poll. simpl. rewrite lookup_insert_eq. simpl.
  unfold take_slot. simpl. rewrite lookup_insert_eq. simpl. by eexists.
Qed.

(** [close] returns after [close_fuel] turns of its loops at most. It wakes
    every waiting task, senders first, each in the order they came; a
    waiting sender gets its own value back with [Closed], a waiting receiver
    gets [Closed], and the buffered values stay where they are. *)
Theorem local_channel_close (cap : Z) (tr : list event) (s : Sys) :
  (0 ≤ cap)%Z → steps false (init cap) tr s → closing s = [] →
  ∃ c', close (ch s) = Val (Some c') ∧
    is_closed (inner c') = true ∧ storage (inner c') = storage (inner (ch s)) ∧
    chan_senders c' = [] ∧ chan_receivers c' = [] ∧
    woken c' = woken (ch s) ++ (fst ∘ fst <$> chan_senders (ch s)) ++
                 (fst ∘ fst <$> chan_receivers (ch s)) ∧
    (∀ t a p, (t, a, p) ∈ chan_senders (ch s) → ∃ v,
      sender_value (mem (ch s)) (t, a, p) = Some v ∧
      ∀ cx, ∃ c'', WaitLocalSend_poll cx a c' = Val (c'', Ready (Send_Closed v))) ∧
    (∀ t a slot, (t, a, slot) ∈ chan_receivers (ch s) →
      ∀ cx, ∃ c'', recv_poll cx a c' = Val (c'', Ready Recv_Closed)).
Proof.
  intros Hcap Hs Hk. destruct (steps_ok _ _ _ Hcap Hs) as [[_ _ Hp _] _].
  destruct s as [c ks]. simpl in *. subst ks. unfold parked_senders, parked_receivers in Hp.
  simpl in Hp. rewrite !app_nil_r in Hp. eexists. split; [by apply close_run_ok|].
  destruct Hp as [H1 H2 H3 H4]. rewrite Forall_forall in H1, H3. split_and!; try done.
  - intros t a p He. destruct (H1 _ He) as (? & ? & v & [= <- <- ->] & Ha). exists v.
    unfold sender_value. simpl. rewrite Ha. split; [done|]. intros cx.
    unfold WaitLocalSend_poll, take_value. simpl.
    rewrite alter_all_in by (done || by apply (list_elem_of_fmap_2 entry_ptr _ _ He)).
    rewrite Ha. simpl. by eexists.
  - intros t a slot He cx. pose proof (H3 _ He) as Ha. unfold receiver_entry_ok, entry_ptr in Ha.
    simpl in Ha. unfold recv_poll, WaitLocalRecv_poll. simpl.
    rewrite alter_all_in by (done || by apply (list_elem_of_fmap_2 entry_ptr _ _ He)).
    rewrite Ha. simpl. by eexists.
Qed.

(** [try_recv_in] drops the value in the caller's slot before it knows
    that there is a new one. When the channel is empty or closed, the slot
    stays without a value, and the caller, who still owns it, drops it a
    second time. *)
Theorem local_channel_try_recv_in_leaves_slot (c : Chan T) slot v r c' :
  slots (mem c) !! slot = Some (Some v) → try_recv_in slot c = Val (c', r) →
  r ≠ TryRecvIn_Ok →
  slots (mem c') !! slot = Some None ∧ drop_slot (mem c') slot = Undefined.
Proof.
  intros Hslot Htry Hr.
  assert (slots (mem c') !! slot = Some None) as Hn.
  { unfold try_recv_in, drop_slot, take_slot in Htry. rewrite Hslot in Htry. simpl in Htry.
    unfold try_recv_in_ptr in Htry. destruct (is_closed _).
    { simplify_eq. simpl. apply lookup_insert_eq. }
    destruct (length _ =? 0)%nat.
    - destruct (pop_front _) as [[[[t a] p] rest]|].
      + outcome_inv. destruct x0. outcome_inv.
      + simplify_eq. simpl. apply lookup_insert_eq.
    - outcome_inv. destruct x. outcome_inv. }
  split; [done|]. unfold drop_slot, take_slot. by rewrite Hn.
Qed.

End local_channel.

(** A [close] that is called by a task woken by another one: three senders
    wait behind a full buffer, one is served; [close] wakes the second, which
    returns and calls [close] itself. The inner call resets the head of the
    deque, so the outer loop reads the entry of the second sender again and
    writes through its pointer, which is dead; the third sender is never woken. *)
Section nested_close.
Local Open Scope positive_scope.

Definition nested_prefix : list (cmd (T:=Z)) :=
  [NewSend 1 5%Z; PollSend (ex_task 1) 1; NewSend 2 6%Z; PollSend (ex_task 2) 2;
   NewSend 3 7%Z; PollSend (ex_task 3) 3; NewSend 4 8%Z; PollSend (ex_task 4) 4; TryRecv 9].

Definition nested_entry (n : positive) : SendEntry := (ex_task (Z.pos n), n, n).

(** The deque after the three entries were pushed and one was popped. *)
Definition nested_ring : Ring SendEntry :=
  ring_pop_front (ring_push_back (nested_entry 4) (ring_push_back (nested_entry 3)
    (ring_push_back (nested_entry 2) (ring_new 4)))).

Theorem local_channel_nested_close_dangles :
  ring_list nested_ring = chan_senders (ch (run 1 nested_prefix).2) ∧
  (∃ d, drain_next (drain nested_ring).2 (drain nested_ring).1 = Some (Some (nested_entry 3), d) ∧
        drain_rest d (drain nested_ring).1 = [nested_entry 4] ∧
        drain_rest d (drain_drop (drain (drain nested_ring).1).1) = [nested_entry 3]) ∧
  ∃ tr (s : Sys (T:=Z)), steps true (init 1) tr s ∧ closing s = [StaleSenders [nested_entry 3]] ∧
    close_resume (StaleSenders [nested_entry 3]) (ch s) = Undefined ∧
    (nested_entry 4 ∉ chan_senders (ch s)) ∧ (ex_task 4 ∉ woken (ch s)).
Proof.
  split; [vm_compute; reflexivity|]. split; [by eexists; vm_compute|].
  set (s0 := (run 1 (nested_prefix ++ [Close; CloseTurn; PollSend (ex_task 3) 3])).2).
  destruct (exec [CloseTurn; CloseTurn]
    (mkSys (close_begin (ch s0)).1 [(close_begin (ch s0)).2; StaleSenders [nested_entry 3]]))
    as [[tr s]| |] eqn:He; [|vm_compute in He; discriminate..].
  do 2 eexists. split_and!.
  - eapply steps_app; [apply (run_steps true 1)|].
    eapply (steps_app true _ [] _ tr s); [|by eapply exec_steps].
    eapply (steps_cons _ _ [] _ []); [constructor|]. apply step_close_begin; [by left|].
    vm_compute. repeat constructor; done.
  - vm_compute in He. by simplify_eq.
  - vm_compute in He. by simplify_eq.
  - vm_compute in He. simplify_eq. simpl. set_solver.
  - vm_compute in He. simplify_eq. simpl. set_solver.
Qed.

End nested_close.

(** ** Witnesses: a channel of capacity 1 with two senders, then a receiver. *)
Section local_channel_examples.
Local Open Scope Z_scope.

(** The first value is buffered, the second sender waits. *)
Definition ex_full : list (cmd (T:=Z)) :=
  [NewSend 1%positive 5; PollSend (ex_task 1) 1%positive;
   NewSend 2%positive 6; PollSend (ex_task 2) 2%positive].

(** Two receptions, and a closed channel with a sender that got its value back. *)
Definition ex_drained : list (cmd (T:=Z)) :=
  ex_full ++ [TryRecv 9%positive; PollSend (ex_task 2) 2%positive;
    NewRecv 3%positive 9%positive; PollRecv (ex_task 3) 3%positive].

Definition ex_waiting_receiver : list (cmd (T:=Z)) :=
  [NewRecv 1%positive 7%positive; PollRecv (ex_task 1) 1%positive].

Definition ex_closing : list (cmd (T:=Z)) := ex_full ++ [Close; TrySend 8; CloseTurn].

Lemma local_channel_fifo_witness :
  delivers (run 1 ex_drained).1 = [5; 6] ∧
  (delivers (run 1 ex_drained).1 ++ storage (inner (ch (run 1 ex_drained).2))
     `prefix_of` offers (run 1 ex_drained).1 ∧
   (is_closed (inner (ch (run 1 ex_drained).2)) = false →
     offers (run 1 ex_drained).1 =
       delivers (run 1 ex_drained).1 ++ queue_of (ch (run 1 ex_drained).2))).
Proof.
  split; [vm_compute; reflexivity|].
  apply (local_channel_fifo true 1); [lia|apply run_steps].
Defined.

Lemma local_channel_safe_witness :
  (∃ l, closing (run 1 ex_closing).2 = [DrainSenders l]) ∧
  (∃ x, try_send 9 (ch (run 1 ex_closing).2) = Val x) ∧
  (∃ x, close_resume (DrainSenders []) (ch (run 1 ex_closing).2) = Val x).
Proof.
  split; [eexists; vm_compute; reflexivity|].
  destruct (local_channel_safe 1 _ _ ltac:(lia) (run_steps _ 1 ex_closing))
    as (_ & _ & Hsend & _ & Hclose).
  split; [apply Hsend|]. eapply Hclose. vm_compute. reflexivity.
Defined.

Lemma local_channel_bounds_witness :
  chan_senders (ch (run 1 ex_full).2) ≠ [] ∧
  (Z.of_nat (length (storage (inner (ch (run 1 ex_full).2)))) =
     capacity (inner (ch (run 1 ex_full).2)) ∧
   is_closed (inner (ch (run 1 ex_full).2)) = false).
Proof.
  assert (chan_senders (ch (run 1 ex_full).2) ≠ []) as Hn by (vm_compute; discriminate).
  split; [exact Hn|].
  destruct (local_channel_bounds 1 _ _ ltac:(lia) (run_steps _ 1 ex_full)) as (_ & Hf & _).
  apply Hf, Hn.
Defined.

Lemma local_channel_recv_unblocks_witness :
  ∃ c' v, try_recv 9%positive (with_slot 9%positive None (ch (run 1 ex_full).2)) =
      Val (c', TryRecv_Ok v) ∧
    woken c' = [ex_task 2].
Proof.
  destruct (local_channel_recv_unblocks 1 _ _ (ex_task 2) 2%positive 2%positive [] 9%positive
    ltac:(lia) (run_steps _ 1 ex_full)) as (c' & v & Htry & _ & Hw & _);
    [vm_compute; reflexivity..|].
  exists c', v. split; [exact Htry|]. rewrite Hw. vm_compute. reflexivity.
Defined.

Lemma local_channel_send_unblocks_witness :
  ∃ c', try_send 4 (ch (run 1 ex_waiting_receiver).2) = Val (c', TrySend_Ok) ∧
    ∃ c'', recv_poll (ex_task 1) 1%positive c' = Val (c'', Ready (Recv_Ok 4)).
Proof.
  destruct (local_channel_send_unblocks 1 _ _ (ex_task 1) 1%positive 7%positive [] 4
    ltac:(lia) (run_steps _ 1 ex_waiting_receiver)) as (c' & Htry & _ & _ & Hrecv);
    [vm_compute; reflexivity..|].
  exists c'. split; [exact Htry|apply Hrecv].
Defined.

Lemma local_channel_close_witness :
  ∃ c', close (ch (run 1 ex_full).2) = Val (Some c') ∧ woken c' = [ex_task 2] ∧
    ∃ c'', WaitLocalSend_poll (ex_task 2) 2%positive c' = Val (c'', Ready (Send_Closed 6)).
Proof.
  destruct (local_channel_close 1 _ _ ltac:(lia) (run_steps _ 1 ex_full))
    as (c' & Hclose & _ & _ & _ & _ & Hw & Hsend & _); [vm_compute; reflexivity|].
  exists c'. split; [exact Hclose|]. split; [rewrite Hw; vm_compute; reflexivity|].
  destruct (Hsend (ex_task 2) 2%positive 2%positive) as (v & Hv & Hpoll).
  - assert (chan_senders (ch (run 1 ex_full).2) = [(ex_task 2, 2%positive, 2%positive)]) as ->
      by (vm_compute; reflexivity).
    apply list_elem_of_singleton. reflexivity.
  - assert (v = 6) as -> by (vm_compute in Hv; congruence). apply Hpoll.
Defined.

Lemma local_channel_try_recv_in_leaves_slot_witness :
  let c := with_slot 7%positive (Some 3) (ch (init 1)) in
  ∃ c', try_recv_in 7%positive c = Val (c', TryRecvIn_Empty) ∧
    drop_slot (mem c') 7%positive = Undefined.
Proof.
  eexists. split; [vm_compute; reflexivity|].
  eapply (local_channel_try_recv_in_leaves_slot (with_slot 7%positive (Some 3) (ch (init 1))) 7%positive 3);
    [vm_compute; reflexivity..|discriminate].
Defined.

End local_channel_examples.
