(* ===== verification/SharedChannel.v ===== *)
(** * The shared channel

    Models [src/src/sync/channels/shared.rs]. The channel is the local
    channel's [Inner] behind a [NaiveMutex]; an operation gives up when the
    mutex is taken, and finishes a hand-over after it has released it. A
    future that parks keeps the mutex until its task is off the stack: the
    executor releases it ([Call::ReleaseAtomicBool]).

    [weak] is the spurious failure of the exchange in [try_lock], and
    [lock_addr] the address of the mutex's flag. *)

From Stdlib Require Import ZArith Lia.
From S2P Require Import Prelude Task ChannelTypes FlagLock LocalChannel.

Section shared_channel.
Context {T : Type} (lock_addr : Z).

Record SChan := mkSChan {
  s_mutex : NaiveMutex (Inner T);
  s_mem : Mem T;
  s_woken : list Task;
}.

Definition Channel_bounded (capacity : Z) (d : Deques) : NaiveMutex (Inner T) :=
  NaiveMutex_new (mkInner [] false capacity d).

Definition Channel_unbounded (d : Deques) : NaiveMutex (Inner T) :=
  NaiveMutex_new (mkInner [] false usize_MAX d).

(** [NaiveMutexGuard::leak_to_atomic]: the mutex stays locked. *)
Definition leak_to_atomic (p : profile) (mu : NaiveMutex (Inner T)) : outcome () :=
  debug_assert p (nm_is_locked mu).

(** ** [WaitSend] *)
Definition WaitSend_poll (p : profile) (weak : bool) (cx : Task) (this : loc) (s : SChan)
    : outcome (SChan * Poll (SendResult T) * Call) :=
  panic_if_local_in_future p cx;;
  f ← unchecked (sends (s_mem s) !! this);
  match ws_call_state f with
  | Send_FirstCall =>
      let '(mu, guard) := NaiveMutex_try_lock weak (s_mutex s) in
      match guard with
      | None => Val (s, Pending, PushCurrentTaskAtTheStartOfLIFOSharedQueue)
      | Some _ =>
          let inner_lock := nm_value mu in
          if is_closed inner_lock then
            '(v, m) ← take_value (s_mem s) this;
            mu ← NaiveMutex_unlock p mu;
            Val (mkSChan mu m (s_woken s), Ready (Send_Closed v), Call_None)
          else match pop_front (receivers (deques inner_lock)) with
          | Some ((task, call_state, slot), rest) =>
              mu ← NaiveMutex_unlock p (NaiveMutex_write mu (set_receivers rest inner_lock));
              '(v, m) ← take_value (s_mem s) this;
              m ← write_slot m slot v;
              m ← write_recv_state m call_state Recv_WokenToReturnReady;
              Val (mkSChan mu m (s_woken s ++ [task]), Ready Send_Ok, Call_None)
          | None =>
              if is_full inner_lock then
                let q := push_back (senders (deques inner_lock)) (cx, this, this) in
                let mu := NaiveMutex_write mu (set_senders q inner_lock) in
                leak_to_atomic p mu;;
                Val (mkSChan mu (s_mem s) (s_woken s), Pending, ReleaseAtomicBool lock_addr)
              else
                '(v, m) ← take_value (s_mem s) this;
                let i := set_storage (push_back (storage inner_lock) v) inner_lock in
                mu ← NaiveMutex_unlock p (NaiveMutex_write mu i);
                Val (mkSChan mu m (s_woken s), Ready Send_Ok, Call_None)
          end
      end
  | Send_WokenToReturnReady => Val (s, Ready Send_Ok, Call_None)
  | Send_WokenByClose =>
      '(v, m) ← take_value (s_mem s) this;
      Val (mkSChan (s_mutex s) m (s_woken s), Ready (Send_Closed v), Call_None)
  end.

(** ** The receptions

    [recv_from_sender]: the buffer is empty and a sender waits; [inner_lock]
    is the channel without that sender. [recv_from_storage]: the buffer
    holds a value. Both return after the mutex was released. *)
Definition recv_from_sender (p : profile) (mu : NaiveMutex (Inner T)) (inner_lock : Inner T)
    (e : SendEntry) (slot : loc) (s : SChan) : outcome SChan :=
  let '(task, call_state, value) := e in
  mu ← NaiveMutex_unlock p (NaiveMutex_write mu inner_lock);
  '(v, m) ← take_value (s_mem s) value;
  m ← write_slot m slot v;
  m ← write_send_state m call_state Send_WokenToReturnReady;
  Val (mkSChan mu m (s_woken s ++ [task])).

Definition recv_from_storage (p : profile) (mu : NaiveMutex (Inner T)) (slot : loc) (s : SChan)
    : outcome SChan :=
  let inner_lock := nm_value mu in
  '(v, rest) ← unchecked (pop_front (storage inner_lock));
  let inner_lock := set_storage rest inner_lock in
  m ← write_slot (s_mem s) slot v;
  match pop_front (senders (deques inner_lock)) with
  | Some ((task, call_state, value), q) =>
      let inner_lock := set_senders q inner_lock in
      '(v, m) ← take_value m value;
      let inner_lock := set_storage (push_back (storage inner_lock) v) inner_lock in
      mu ← NaiveMutex_unlock p (NaiveMutex_write mu inner_lock);
      m ← write_send_state m call_state Send_WokenToReturnReady;
      Val (mkSChan mu m (s_woken s ++ [task]))
  | None =>
      mu ← NaiveMutex_unlock p (NaiveMutex_write mu inner_lock);
      Val (mkSChan mu m (s_woken s))
  end.

(** ** [WaitRecv] *)
Definition WaitRecv_poll (p : profile) (weak : bool) (cx : Task) (this : loc) (s : SChan)
    : outcome (SChan * Poll RecvInResult * Call) :=
  panic_if_local_in_future p cx;;
  f ← unchecked (recvs (s_mem s) !! this);
  match wr_call_state f with
  | Recv_FirstCall =>
      let '(mu, guard) := NaiveMutex_try_lock weak (s_mutex s) in
      match guard with
      | None => Val (s, Pending, PushCurrentTaskAtTheStartOfLIFOSharedQueue)
      | Some _ =>
          let inner_lock := nm_value mu in
          if is_closed inner_lock then
            mu ← NaiveMutex_unlock p mu;
            Val (mkSChan mu (s_mem s) (s_woken s), Ready RecvIn_Closed, Call_None)
          else if (length (storage inner_lock) =? 0)%nat then
            match pop_front (senders (deques inner_lock)) with
            | Some (e, rest) =>
                s ← recv_from_sender p mu (set_senders rest inner_lock) e (wr_slot f) s;
                Val (s, Ready RecvIn_Ok, Call_None)
            | None =>
                let q := push_back (receivers (deques inner_lock)) (cx, this, wr_slot f) in
                let mu := NaiveMutex_write mu (set_receivers q inner_lock) in
                leak_to_atomic p mu;;
                Val (mkSChan mu (s_mem s) (s_woken s), Pending, ReleaseAtomicBool lock_addr)
            end
          else
            s ← recv_from_storage p mu (wr_slot f) s;
            Val (s, Ready RecvIn_Ok, Call_None)
      end
  | Recv_WokenToReturnReady => Val (s, Ready RecvIn_Ok, Call_None)
  | Recv_WokenByClose => Val (s, Ready RecvIn_Closed, Call_None)
  end.

(** ** The non-blocking operations *)
Definition try_send (p : profile) (weak : bool) (value : T) (s : SChan)
    : outcome (SChan * TrySendResult T) :=
  let '(mu, guard) := NaiveMutex_try_lock weak (s_mutex s) in
  match guard with
  | None => Val (s, TrySend_Locked value)
  | Some _ =>
      let inner_lock := nm_value mu in
      if is_closed inner_lock then
        mu ← NaiveMutex_unlock p mu;
        Val (mkSChan mu (s_mem s) (s_woken s), TrySend_Closed value)
      else match pop_front (receivers (deques inner_lock)) with
      | Some ((task, call_state, slot), rest) =>
          mu ← NaiveMutex_unlock p (NaiveMutex_write mu (set_receivers rest inner_lock));
          m ← write_slot (s_mem s) slot value;
          m ← write_recv_state m call_state Recv_WokenToReturnReady;
          Val (mkSChan mu m (s_woken s ++ [task]), TrySend_Ok)
      | None =>
          if is_full inner_lock then
            mu ← NaiveMutex_unlock p mu;
            Val (mkSChan mu (s_mem s) (s_woken s), TrySend_Full value)
          else
            let i := set_storage (push_back (storage inner_lock) value) inner_lock in
            mu ← NaiveMutex_unlock p (NaiveMutex_write mu i);
            Val (mkSChan mu (s_mem s) (s_woken s), TrySend_Ok)
      end
  end.

Definition try_recv_in_ptr (p : profile) (weak : bool) (slot : loc) (s : SChan)
    : outcome (SChan * TryRecvInResult) :=
  let '(mu, guard) := NaiveMutex_try_lock weak (s_mutex s) in
  match guard with
  | None => Val (s, TryRecvIn_Locked)
  | Some _ =>
      let inner_lock := nm_value mu in
      if is_closed inner_lock then
        mu ← NaiveMutex_unlock p mu;
        Val (mkSChan mu (s_mem s) (s_woken s), TryRecvIn_Closed)
      else if (length (storage inner_lock) =? 0)%nat then
        match pop_front (senders (deques inner_lock)) with
        | Some (e, rest) =>
            s ← recv_from_sender p mu (set_senders rest inner_lock) e slot s;
            Val (s, TryRecvIn_Ok)
        | None =>
            mu ← NaiveMutex_unlock p mu;
            Val (mkSChan mu (s_mem s) (s_woken s), TryRecvIn_Empty)
        end
      else
        s ← recv_from_storage p mu slot s;
        Val (s, TryRecvIn_Ok)
  end.

(** ** [close], from the moment its [lock().await] returned the guard. The
    tasks are spawned, not run: [close] holds the mutex to its end. *)
Fixpoint close_senders (l : list SendEntry) (m : Mem T) (w : list Task)
    : outcome (Mem T * list Task) :=
  match l with
  | [] => Val (m, w)
  | (task, call_state, _) :: l =>
      m ← write_send_state m call_state Send_WokenByClose;
      close_senders l m (w ++ [task])
  end.

Fixpoint close_receivers (l : list RecvEntry) (m : Mem T) (w : list Task)
    : outcome (Mem T * list Task) :=
  match l with
  | [] => Val (m, w)
  | (task, call_state, _) :: l =>
      m ← write_recv_state m call_state Recv_WokenByClose;
      close_receivers l m (w ++ [task])
  end.

Definition close (p : profile) (s : SChan) : outcome SChan :=
  let mu := s_mutex s in
  let inner_lock := set_is_closed true (nm_value mu) in
  '(m, w) ← close_senders (senders (deques inner_lock)) (s_mem s) (s_woken s);
  let inner_lock := set_senders [] inner_lock in
  '(m, w) ← close_receivers (receivers (deques inner_lock)) m w;
  let inner_lock := set_receivers [] inner_lock in
  mu ← NaiveMutex_unlock p (NaiveMutex_write mu inner_lock);
  Val (mkSChan mu m w).

(** [handle_call] on what the futures above ask for. *)
Definition release (c : Call) (s : SChan) : SChan :=
  match c with
  | ReleaseAtomicBool _ => mkSChan (mkNaiveMutex false (nm_value (s_mutex s))) (s_mem s) (s_woken s)
  | _ => s
  end.

(** ** The local channel behind a free mutex *)
Definition free (c : Chan T) : SChan := mkSChan (mkNaiveMutex false (inner c)) (mem c) (woken c).
Definition held (c : Chan T) : SChan := mkSChan (mkNaiveMutex true (inner c)) (mem c) (woken c).

(** The value of a sender is read and its state written in either order. *)
Lemma take_then_state {B} m vp cs st (k : T → Mem T → outcome B) :
  ('(v, m1) ← take_value m vp; m2 ← write_send_state m1 cs st; k v m2) =
  (m1 ← write_send_state m cs st; '(v, m2) ← take_value m1 vp; k v m2).
Proof.
  unfold take_value, write_send_state. destruct (decide (vp = cs)) as [->|Hne].
  - destruct (sends m !! cs) as [[s [v|]]|] eqn:Hcs; simpl; rewrite ?lookup_insert_eq; try done.
    simpl. unfold set_sends. simpl. by rewrite !insert_insert_eq.
  - destruct (sends m !! vp) as [[s [v|]]|] eqn:Hvp, (sends m !! cs) as [[s' v']|] eqn:Hcs; simpl;
      rewrite ?lookup_insert_ne by done; rewrite ?Hcs, ?Hvp; simpl;
      rewrite ?lookup_insert_ne by done; rewrite ?Hcs, ?Hvp; simpl; try done.
    unfold set_sends. simpl. by rewrite insert_insert_ne.
Qed.

Lemma slot_then_state {B} m slot v cs st (k : Mem T → outcome B) :
  (m1 ← write_slot m slot v; m2 ← write_send_state m1 cs st; k m2) =
  (m1 ← write_send_state m cs st; m2 ← write_slot m1 slot v; k m2).
Proof.
  unfold write_slot, write_send_state. simpl.
  destruct (slots m !! slot) eqn:Hs, (sends m !! cs) eqn:Hc; simpl; by rewrite ?Hs, ?Hc.
Qed.

Lemma unlock_held p (i : Inner T) :
  NaiveMutex_unlock p (mkNaiveMutex true i) = Val (mkNaiveMutex false i).
Proof. by destruct p. Qed.

(** Receptions, as the local channel has them. *)
Definition local_recv_from_sender (c : Chan T) (e : SendEntry) (slot : loc) : outcome (Chan T) :=
  let '(task, call_state, value) := e in
  m ← write_send_state (mem c) call_state Send_WokenToReturnReady;
  '(v, m) ← take_value m value;
  m ← write_slot m slot v;
  Val (wake task (set_mem m c)).

Lemma recv_from_sender_local p c i e slot :
  recv_from_sender p (mkNaiveMutex true (inner c)) i e slot (free c) =
  (c' ← local_recv_from_sender (set_inner (λ _, i) c) e slot; Val (free c')).
Proof.
  destruct e as [[task cs] vp]. unfold recv_from_sender, NaiveMutex_write. simpl.
  rewrite unlock_held. simpl.
  transitivity ('(v, m1) ← take_value (mem c) vp;
    m2 ← write_send_state m1 cs Send_WokenToReturnReady; m3 ← write_slot m2 slot v;
    Val (mkSChan (mkNaiveMutex false i) m3 (woken c ++ [task]))).
  { destruct (take_value (mem c) vp) as [[v m]| |]; [|done..]. simpl. apply slot_then_state. }
  rewrite (take_then_state _ _ _ _ (λ v m2, m3 ← write_slot m2 slot v;
    Val (mkSChan (mkNaiveMutex false i) m3 (woken c ++ [task])))).
  destruct (write_send_state _ _ _) as [m1| |]; [|done..]. simpl.
  destruct (take_value m1 vp) as [[v m2]| |]; [|done..]. simpl.
  by destruct (write_slot m2 slot v).
Qed.

Lemma recv_from_storage_local p c slot :
  recv_from_storage p (mkNaiveMutex true (inner c)) slot (free c) =
  ('(v, rest) ← unchecked (pop_front (storage (inner c)));
   m ← write_slot (mem c) slot v;
   c' ← refill_storage (set_mem m (set_inner (set_storage rest) c)); Val (free c')).
Proof.
  unfold recv_from_storage, refill_storage, chan_senders, NaiveMutex_write. simpl.
  destruct (pop_front (storage (inner c))) as [[v rest]|]; [|done]. simpl.
  destruct (write_slot (mem c) slot v) as [m| |]; [|done..]. simpl.
  destruct (pop_front (senders (deques (inner c)))) as [[[[task cs] vp] q]|]; simpl.
  - transitivity ('(v, m1) ← take_value m vp; m2 ← write_send_state m1 cs Send_WokenToReturnReady;
      Val (mkSChan (mkNaiveMutex false (set_storage (push_back rest v)
        (set_senders q (set_storage rest (inner c))))) m2 (woken c ++ [task]))).
    { destruct (take_value m vp) as [[v' m1]| |]; [|done..]. simpl. by rewrite unlock_held. }
    rewrite (take_then_state _ _ _ _ (λ v m2, Val (mkSChan (mkNaiveMutex false
      (set_storage (push_back rest v) (set_senders q (set_storage rest (inner c)))))
      m2 (woken c ++ [task])))).
    destruct (write_send_state _ _ _) as [m1| |]; [|done..]. simpl.
    by destruct (take_value m1 vp) as [[v' m2]| |].
  - by rewrite unlock_held.
Qed.

(** A poll, with what the executor does after it. *)
Definition settle {R} (x : SChan * R * Call) : SChan * R := (release x.2 x.1.1, x.1.2).

Lemma WaitSend_poll_local p cx this c :
  panic_if_local_in_future p cx = Val () →
  (x ← WaitSend_poll p false cx this (free c); Val (settle x)) =
  ('(c', r) ← WaitLocalSend_poll cx this c; Val (free c', r)).
Proof.
  intros Hcx. unfold WaitSend_poll, WaitLocalSend_poll, chan_receivers. rewrite Hcx. simpl.
  destruct (sends (mem c) !! this) as [f|]; [|done]. simpl.
  destruct (ws_call_state f); simpl; [|done|by destruct (take_value _ _) as [[]| |]].
  destruct (is_closed (inner c)).
  { destruct (take_value _ _) as [[v m]| |]; [|done..]. simpl. by rewrite unlock_held. }
  destruct (receivers (deques (inner c))) as [|[[task cs] slot] rest]; simpl.
  - destruct (is_full (inner c)); simpl.
    + unfold leak_to_atomic. simpl. by rewrite debug_assert_true.
    + destruct (take_value _ _) as [[v m]| |]; [|done..]. simpl.
      unfold NaiveMutex_write. simpl. by rewrite unlock_held.
  - unfold NaiveMutex_write. simpl. rewrite unlock_held. simpl.
    destruct (take_value _ _) as [[v m]| |]; [|done..]. simpl.
    destruct (write_slot _ _ _) as [m1| |]; [|done..]. simpl.
    by destruct (write_recv_state _ _ _).
Qed.

Lemma WaitRecv_poll_local p cx this c :
  panic_if_local_in_future p cx = Val () →
  (x ← WaitRecv_poll p false cx this (free c); Val (settle x)) =
  ('(c', r) ← WaitLocalRecv_poll cx this c; Val (free c', r)).
Proof.
  intros Hcx. unfold WaitRecv_poll, WaitLocalRecv_poll, chan_senders, chan_receivers.
  rewrite Hcx. simpl. destruct (recvs (mem c) !! this) as [f|]; [|done]. simpl.
  destruct (wr_call_state f); simpl; [|done..].
  destruct (is_closed (inner c)); simpl; [by rewrite unlock_held|].
  destruct (length (storage (inner c)) =? 0)%nat.
  - destruct (pop_front (senders _)) as [[e rest]|]; simpl.
    + rewrite recv_from_sender_local. destruct e as [[task cs] vp]. simpl.
      destruct (write_send_state _ _ _) as [m1| |]; [|done..]. simpl.
      destruct (take_value m1 vp) as [[v m2]| |]; [|done..]. simpl.
      by destruct (write_slot m2 _ v).
    + unfold leak_to_atomic. simpl. by rewrite debug_assert_true.
  - rewrite recv_from_storage_local.
    destruct (pop_front (storage (inner c))) as [[v rest]|]; [|done]. simpl.
    destruct (write_slot _ _ _) as [m| |]; [|done..]. simpl. by destruct (refill_storage _).
Qed.

Lemma try_send_local p v c :
  try_send p false v (free c) = ('(c', r) ← LocalChannel.try_send v c; Val (free c', r)).
Proof.
  unfold try_send, LocalChannel.try_send, chan_receivers. simpl.
  destruct (is_closed (inner c)); simpl; [by rewrite unlock_held|].
  destruct (receivers (deques (inner c))) as [|[[task cs] slot] rest]; simpl.
  - unfold NaiveMutex_write. destruct (is_full (inner c)); simpl; by rewrite unlock_held.
  - unfold NaiveMutex_write. simpl. rewrite unlock_held. simpl.
    destruct (write_slot _ _ _) as [m1| |]; [|done..]. simpl.
    by destruct (write_recv_state _ _ _).
Qed.

Lemma try_recv_in_ptr_local p slot c :
  try_recv_in_ptr p false slot (free c) =
  ('(c', r) ← LocalChannel.try_recv_in_ptr slot c; Val (free c', r)).
Proof.
  unfold try_recv_in_ptr, LocalChannel.try_recv_in_ptr, chan_senders. simpl.
  destruct (is_closed (inner c)); simpl; [by rewrite unlock_held|].
  destruct (length (storage (inner c)) =? 0)%nat.
  - destruct (pop_front (senders _)) as [[e rest]|]; simpl; [|by rewrite unlock_held].
    rewrite recv_from_sender_local. destruct e as [[task cs] vp]. simpl.
    destruct (write_send_state _ _ _) as [m1| |]; [|done..]. simpl.
    destruct (take_value m1 vp) as [[v m2]| |]; [|done..]. simpl.
    by destruct (write_slot m2 _ v).
  - rewrite recv_from_storage_local.
    destruct (pop_front (storage (inner c))) as [[v rest]|]; [|done]. simpl.
    destruct (write_slot _ _ _) as [m| |]; [|done..]. simpl. by destruct (refill_storage _).
Qed.

Lemma close_senders_run l fuel c :
  close_run (length l + fuel) (DrainSenders l) c =
  ('(m, w) ← close_senders l (mem c) (woken c);
   close_run fuel (DrainSenders []) (mkChan (inner c) m w)).
Proof.
  revert c. induction l as [|[[t cs] x] l IH]; intros c; simpl; [by destruct c|].
  destruct (write_send_state _ _ _) as [m| |]; [|done..]. simpl. apply IH.
Qed.

Lemma close_receivers_run l fuel c :
  close_run (length l + S fuel) (DrainReceivers l) c =
  ('(m, w) ← close_receivers l (mem c) (woken c); Val (Some (mkChan (inner c) m w))).
Proof.
  revert c. induction l as [|[[t cs] x] l IH]; intros c; simpl; [by destruct c|].
  destruct (write_recv_state _ _ _) as [m| |]; [|done..]. simpl. apply IH.
Qed.

Lemma close_local p c :
  close p (held c) = (o ← LocalChannel.close c; c' ← unchecked o; Val (free c')).
Proof.
  unfold close, LocalChannel.close, close_fuel. simpl.
  replace (length (chan_senders c) + length (chan_receivers c) + 3)
    with (length (chan_senders c) + (S (length (chan_receivers c) + 2))) by lia.
  unfold chan_senders at 2. simpl. fold (chan_senders c). rewrite close_senders_run. simpl.
  destruct (close_senders _ _ _) as [[m w]| |]; [|done..]. simpl.
  unfold chan_receivers at 2. simpl. fold (chan_receivers c).
  rewrite (close_receivers_run (chan_receivers c) 1). simpl.
  unfold chan_receivers. destruct (close_receivers _ _ _) as [[m2 w2]| |]; [|done..]. simpl.
  unfold NaiveMutex_write. simpl. by rewrite unlock_held.
Qed.

(** ** Theorems *)

(** C5: an operation of the shared channel that gets the mutex does exactly what
    the operation of the local channel does, undefined behaviour included,
    and leaves the mutex free; a future that parks leaves it free once the
    executor has handled its call. So everything shown of the local channel
    holds of operations that do not overlap. *)
Theorem shared_channel_refines_local (p : profile) (cx : Task) (c : Chan T) :
  panic_if_local_in_future p cx = Val () →
  (∀ this, (x ← WaitSend_poll p false cx this (free c); Val (settle x)) =
    ('(c', r) ← WaitLocalSend_poll cx this c; Val (free c', r))) ∧
  (∀ this, (x ← WaitRecv_poll p false cx this (free c); Val (settle x)) =
    ('(c', r) ← WaitLocalRecv_poll cx this c; Val (free c', r))) ∧
  (∀ v, try_send p false v (free c) = ('(c', r) ← LocalChannel.try_send v c; Val (free c', r))) ∧
  (∀ slot, try_recv_in_ptr p false slot (free c) =
    ('(c', r) ← LocalChannel.try_recv_in_ptr slot c; Val (free c', r))) ∧
  close p (held c) = (o ← LocalChannel.close c; c' ← unchecked o; Val (free c')).
Proof.
  intros Hcx. split_and!; intros.
  - by apply WaitSend_poll_local.
  - by apply WaitRecv_poll_local.
  - apply try_send_local.
  - apply try_recv_in_ptr_local.
  - apply close_local.
Qed.

(** An operation that does not get the mutex changes nothing: a future asks to
    be polled again, and the non-blocking operations say so and give the
    value back. *)
Theorem shared_channel_contended (p : profile) (weak : bool) (cx : Task) (s : SChan) :
  panic_if_local_in_future p cx = Val () → nm_is_locked (s_mutex s) || weak = true →
  (∀ this v, sends (s_mem s) !! this = Some (mkWaitSend Send_FirstCall v) →
    WaitSend_poll p weak cx this s =
      Val (s, Pending, PushCurrentTaskAtTheStartOfLIFOSharedQueue)) ∧
  (∀ this slot, recvs (s_mem s) !! this = Some (mkWaitRecv Recv_FirstCall slot) →
    WaitRecv_poll p weak cx this s =
      Val (s, Pending, PushCurrentTaskAtTheStartOfLIFOSharedQueue)) ∧
  (∀ v, try_send p weak v s = Val (s, TrySend_Locked v)) ∧
  (∀ slot, try_recv_in_ptr p weak slot s = Val (s, TryRecvIn_Locked)).
Proof.
  intros Hcx Hl. unfold WaitSend_poll, WaitRecv_poll, try_send, try_recv_in_ptr, NaiveMutex_try_lock.
  rewrite Hcx, Hl. simpl. split_and!; try done.
  - intros this v ->. done.
  - intros this slot ->. done.
Qed.

End shared_channel.

(** ** Witnesses *)
Definition ex_open : Chan Z :=
  mkChan (mkInner [5%Z] false 1 Deques_new)
    (mkMem (<[1%positive := mkWaitSend Send_FirstCall (Some 6%Z)]> ∅) ∅ ∅) [].

Lemma shared_channel_refines_local_witness :
  panic_if_local_in_future Debug (ex_shared_task 1) = Val () ∧
  ∃ s, (x ← WaitSend_poll 0 Debug false (ex_shared_task 1) 1%positive (free ex_open);
        Val (settle x)) = Val (s, Pending) ∧ nm_is_locked (s_mutex s) = false.
Proof.
  assert (panic_if_local_in_future Debug (ex_shared_task 1) = Val ()) as Hp by reflexivity.
  split; [exact Hp|].
  destruct (shared_channel_refines_local 0 Debug (ex_shared_task 1) ex_open Hp) as [Hs _].
  eexists. split; [rewrite Hs; vm_compute; reflexivity|reflexivity].
Defined.

Lemma shared_channel_contended_witness :
  try_send Debug false 7%Z (held ex_open) = Val (held ex_open, TrySend_Locked 7%Z).
Proof.
  apply (shared_channel_contended 0 Debug false (ex_shared_task 1) (held ex_open));
    reflexivity.
Defined.
