(* ===== verification/Cancellation.v ===== *)
(** * Futures that are dropped before they are ready

    A future may be dropped at any time, for instance by one that polls two
    others and returns when the first is ready. This file adds such drops to
    the models of the local channel ([src/src/sync/channels/local.rs]), the
    local mutex ([src/src/sync/mutexes/local.rs]) and the ring of IO requests
    ([src/src/io/sys/linux/io_uring.rs]): which ones are harmless, and what
    the others leave behind. *)

From Stdlib Require Import ZArith Lia.
From S2P Require Import Prelude Task ChannelTypes LocalChannel.
From S2P Require LocalMutex IoTypes IoUring.

(** ** The local channel *)
Section channel.
Context {T : Type}.
Implicit Types (c : Chan T) (s : Sys (T:=T)).

(** Dropping a [WaitLocalSend]. In a debug build its [Drop] asserts
    [was_awaited], that it was polled; its value is not dropped with it. *)
Definition drop_wait_send (p : profile) (was_awaited : bool) (a : loc) (c : Chan T) : outcome (Chan T) :=
  debug_assert p was_awaited;;
  Val (set_mem (set_sends (delete a) (mem c)) c).

(** Dropping the future of [recv], with the slot it has; [WaitLocalRecv] has
    no [Drop]. *)
Definition drop_wait_recv (a : loc) (c : Chan T) : outcome (Chan T) :=
  f ← unchecked (recvs (mem c) !! a);
  Val (set_mem (set_slots (delete (wr_slot f)) (set_recvs (delete a) (mem c))) c).

(** Runs in which futures that are not parked may be dropped, too. No [close]
    is called while another one has entries left in the deque it is working
    on. *)
Inductive dstep (p : profile) : Sys (T:=T) → Sys (T:=T) → Prop :=
| d_step s ev s' : step false s ev s' → dstep p s s'
| d_drop_send s b a f c' :
    sends (mem (ch s)) !! a = Some f → ¬ sender_parked s a →
    drop_wait_send p b a (ch s) = Val c' → dstep p s (mkSys c' (closing s))
| d_drop_recv s a c' :
    ¬ receiver_parked s a → drop_wait_recv a (ch s) = Val c' → dstep p s (mkSys c' (closing s)).

Lemma history_exists c : ∃ tr, history_ok tr c.
Proof.
  assert (∀ l : list T, offers (map Offered l) = l ∧ delivers (map Offered l) = []) as Hl.
  { induction l as [|v l [IH1 IH2]]; [done|]. split; [|done].
    change (v :: offers (map Offered l) = v :: l). by rewrite IH1. }
  exists (map Offered (queue_of c)). destruct (Hl (queue_of c)) as [H1 H2].
  unfold history_ok. rewrite H1, H2. destruct (is_closed _); [|done].
  unfold queue_of. by apply prefix_app_r.
Qed.

Definition dgood s : Prop := Inv s ∧ Forall undisturbed (closing s).

Lemma inv_dstep p s s' : dgood s → dstep p s s' → dgood s'.
Proof.
  intros [HI Hu] Hs. destruct Hs as [s ev s' Hs|s b a f c' Ha Hn Hd|s a c' Hn Hd].
  - destruct (history_exists (ch s)) as [tr Htr].
    destruct (step_ok _ _ _ _ _ Hs HI Hu Htr) as [[?|[? _]] _]; done.
  - unfold drop_wait_send in Hd. outcome_inv. destruct HI as [H1 H2 H3 H4]. split; [|done]. split; simpl.
    + by apply mem_ok_send_delete.
    + done.
    + eapply parked_ok_ext, H3; [|done]. intros z Hz. apply lookup_delete_ne. intros ->. by apply Hn.
    + done.
  - unfold drop_wait_recv in Hd. destruct (recvs (mem (ch s)) !! a) as [f|] eqn:Ha; [|done]. simpl in Hd.
    simplify_eq. destruct HI as [H1 H2 H3 H4]. split; [|done]. split; simpl.
    + by apply mem_ok_recv_delete.
    + done.
    + eapply parked_ok_ext, H3; [done|]. intros z Hz. apply lookup_delete_ne. intros ->. by apply Hn.
    + done.
Qed.

Lemma inv_dreachable p cap s : (0 ≤ cap)%Z → rtc (dstep p) (init cap) s → dgood s.
Proof.
  intros Hcap. apply (rtc_invariant (dstep p) dgood); [intros a b; apply inv_dstep|].
  split; [by apply init_inv|constructor].
Qed.

(** The first waiting receiver is dropped. *)
Lemma dropped_receiver c ks t a slot rest :
  Inv (mkSys c ks) → is_closed (inner c) = false → chan_receivers c = (t, a, slot) :: rest →
  ∃ c', drop_wait_recv a c = Val c' ∧ (∀ v, try_send v c' = Undefined) ∧
    ∀ t' b v, sends (mem c') !! b = Some (WaitLocalSend_new v) → WaitLocalSend_poll t' b c' = Undefined.
Proof.
  intros HI Ho Hr. destruct (inv_parked _ HI) as [_ _ Hp _].
  assert (receiver_entry_ok (mem c) (t, a, slot)) as Hf.
  { rewrite Forall_forall in Hp. apply Hp. unfold parked_receivers. simpl. rewrite Hr. left. }
  unfold receiver_entry_ok, entry_ptr in Hf. simpl in Hf. unfold drop_wait_recv. rewrite Hf. simpl.
  eexists. split; [done|]. split.
  - intros v. unfold try_send. simpl. rewrite Ho. unfold chan_receivers in Hr |- *. simpl. rewrite Hr. simpl.
    unfold write_slot. simpl. by rewrite lookup_delete_eq.
  - intros t' b v Hb. unfold WaitLocalSend_poll. simpl in Hb |- *. rewrite Hb. simpl. rewrite Ho.
    unfold chan_receivers in Hr |- *. simpl. rewrite Hr. simpl. unfold take_value. simpl. rewrite Hb. simpl.
    unfold write_slot. simpl. by rewrite lookup_delete_eq.
Qed.

(** The first waiting sender is dropped. *)
Lemma dropped_sender p c ks t a v rest :
  Inv (mkSys c ks) → is_closed (inner c) = false → chan_senders c = (t, a, v) :: rest →
  ∃ c', drop_wait_send p true a c = Val c' ∧
    ∀ slot, is_Some (slots (mem c') !! slot) → try_recv slot c' = Undefined.
Proof.
  intros HI Ho Hr. unfold drop_wait_send. rewrite debug_assert_true. simpl.
  eexists. split; [done|]. intros slot [o Hslot]. unfold chan_senders in Hr.
  unfold try_recv, try_recv_in_ptr. simpl. rewrite Ho.
  destruct (storage (inner c)) as [|v0 l] eqn:Est; simpl.
  - unfold chan_senders. simpl. rewrite Hr. simpl. unfold write_send_state. simpl. by rewrite lookup_delete_eq.
  - unfold write_slot. simpl in *. rewrite Hslot. simpl. unfold refill_storage, chan_senders. simpl. rewrite Hr. simpl.
    unfold write_send_state. simpl. by rewrite lookup_delete_eq.
Qed.

(** C29: futures of [send] and [recv] may be dropped whenever they are not
    parked: before their first poll (a sending one only in a release build), or
    after they were woken. In runs of [send], [recv], [try_send], [try_recv]
    and [close] with such drops, in which no [close] is called while another
    one has entries left in the deque it is working on, polls of futures that
    are not parked, their drops, [try_send], [try_recv] and the turns of
    [close] have no undefined behaviour and do not panic. But a parked future
    leaves its pointers in the queue of the open channel: when the first
    waiting receiver was dropped, the next value sent is written through them,
    and when the first waiting sender was dropped, the next reception reads
    through them. *)
Theorem channel_futures_dropped (p : profile) (cap : Z) (s : Sys) :
  (0 ≤ cap)%Z → rtc (dstep p) (init cap) s →
  ((∀ t a f, sends (mem (ch s)) !! a = Some f → ¬ sender_parked s a →
      (∃ x, WaitLocalSend_poll t a (ch s) = Val x) ∧ ∃ x, drop_wait_send p true a (ch s) = Val x) ∧
   (∀ t a f, recvs (mem (ch s)) !! a = Some f → ¬ receiver_parked s a →
      (∃ x, recv_poll t a (ch s) = Val x) ∧ ∃ x, drop_wait_recv a (ch s) = Val x) ∧
   (∀ v, ∃ x, try_send v (ch s) = Val x) ∧
   (∀ slot, slots (mem (ch s)) !! slot = None →
      ∃ x, try_recv slot (with_slot slot None (ch s)) = Val x) ∧
   ∀ k ks, closing s = k :: ks → ∃ x, close_resume k (ch s) = Val x) ∧
  (is_closed (inner (ch s)) = false →
   (∀ t a slot rest, chan_receivers (ch s) = (t, a, slot) :: rest →
      ∃ c, drop_wait_recv a (ch s) = Val c ∧ (∀ v, try_send v c = Undefined) ∧
        ∀ t' b v, sends (mem c) !! b = Some (WaitLocalSend_new v) → WaitLocalSend_poll t' b c = Undefined) ∧
   ∀ t a v rest, chan_senders (ch s) = (t, a, v) :: rest →
     ∃ c, drop_wait_send p true a (ch s) = Val c ∧
       ∀ slot, is_Some (slots (mem c) !! slot) → try_recv slot c = Undefined).
Proof.
  intros Hcap Hs. pose proof (inv_dreachable p cap s Hcap Hs) as [HI Hu]. destruct s as [c ks].
  split; [split_and!|intros Ho; split].
  - intros t a f Ha Hn. split; [|unfold drop_wait_send; rewrite debug_assert_true; by eexists].
    destruct (send_poll_spec c ks t a f) as (? & ? & ? & _); eauto.
  - intros t a f Ha Hn. split; [|unfold drop_wait_recv; simpl in *; rewrite Ha; by eexists].
    destruct (recv_poll_spec c ks t a f) as (? & ? & ? & ? & ? & ? & _); eauto.
  - intros v. destruct (try_send_spec c ks v) as (? & ? & ? & _); eauto.
  - intros slot Hn. destruct (try_recv_spec c ks slot) as (? & ? & ? & _); eauto.
  - simpl. intros k ks' ->. apply Forall_cons in Hu as [Hk _].
    destruct (close_resume_spec c k ks' HI Hk) as (? & ? & ? & _); eauto.
  - intros t a slot rest Hr. by eapply dropped_receiver.
  - intros t a v rest Hr. by eapply dropped_sender.
Qed.

End channel.

(** Witness: a receiver waits, a sending future was dropped unpolled. *)
Definition ex_waits : Sys (T:=Z) := (run 1 ex_waiting_receiver).2.

Lemma channel_futures_dropped_witness :
  ∃ s, rtc (dstep Release) (init 1) s ∧
    ∃ c, drop_wait_recv 1%positive (ch s) = Val c ∧ try_send 4%Z c = Undefined.
Proof.
  pose (c0 := set_mem (set_sends <[9%positive := WaitLocalSend_new 3%Z]> (mem (ch ex_waits))) (ch ex_waits)).
  assert (rtc (dstep Release) (init 1) (mkSys (set_mem (set_sends (delete 9%positive) (mem c0)) c0) [])) as Hr.
  { transitivity ex_waits.
    - assert (∀ s tr s', steps (T:=Z) false s tr s' → rtc (dstep Release) s s') as Hall.
      { intros s tr s' Hs. induction Hs as [s|s1 tr1 s2 tr2 s3 _ IH Hst]; [apply rtc_refl|].
        eapply rtc_r; [exact IH|]. by eapply d_step. }
      eapply Hall, run_steps.
    - eapply rtc_l; [apply (d_step _ _ []), (step_new_send false ex_waits 9%positive 3%Z); reflexivity|].
      eapply rtc_l; [|apply rtc_refl]. eapply (d_drop_send _ (mkSys c0 []) false 9%positive); [reflexivity| |reflexivity].
      intros Hin. vm_compute in Hin. by apply elem_of_nil in Hin. }
  destruct (channel_futures_dropped Release 1 _ ltac:(lia) Hr) as (_ & H). destruct (H eq_refl) as [H1 _].
  destruct (H1 (ex_task 1) 1%positive 7%positive [] eq_refl) as (c & Hc & Hv & _).
  eexists. split; [exact Hr|]. exists c. split; [exact Hc|]. apply Hv.
Defined.

(** ** The local mutex

    A task that waits in [lock] drops its [LocalMutexWait] and goes on. The
    wait queue keeps the task, and when [unlock] wakes it there is no future
    that would take the mutex. *)
Inductive mutex_drop : LocalMutex.Sys → LocalMutex.Sys → Prop :=
| md_drop s t l1 l2 :
    LocalMutex.woken s = l1 ++ t :: l2 →
    mutex_drop s (LocalMutex.mkSys (LocalMutex.mutex s) (LocalMutex.guards s) (l1 ++ l2)).

(** Nobody has the mutex, and it is locked. *)
Definition abandoned (s : LocalMutex.Sys) : Prop :=
  LocalMutex.is_locked (LocalMutex.mutex s) = true ∧ LocalMutex.guards s = 0 ∧ LocalMutex.woken s = [].

Lemma abandoned_step p s s' : abandoned s → LocalMutex.step p s s' → abandoned s'.
Proof.
  intros (Hl & Hg & Hw) Hs.
  destruct Hs as [s m' Hk|s t m1 m2 b Hk Hp|s t m' b Hk Hp|s t l1 l2 m' b Ht Hp
    |s t l1 l2 m' b Ht Hp|s m' r Hk|s n m' r Hn Hu].
  - unfold LocalMutex.LocalMutex_lock in Hk. by rewrite Hl in Hk.
  - unfold LocalMutex.LocalMutex_lock in Hk. rewrite Hl in Hk. simplify_eq.
    unfold LocalMutex.LocalMutexWait_poll in Hp. by simplify_eq/=.
  - unfold LocalMutex.WaitLockOfSubscribableMutex_poll in Hp. by simplify_eq/=.
  - rewrite Hw in Ht. by destruct l1.
  - rewrite Hw in Ht. by destruct l1.
  - unfold LocalMutex.LocalMutex_try_lock in Hk. rewrite Hl in Hk. by simplify_eq/=.
  - congruence.
Qed.

(** When the task that [unlock] has woken dropped its future while it waited,
    the mutex is locked for ever: whatever follows, no task gets it. *)
Theorem mutex_wait_dropped (p : profile) (s s1 s2 : LocalMutex.Sys) :
  rtc (LocalMutex.step p) LocalMutex.init s → mutex_drop s s1 → rtc (LocalMutex.step p) s1 s2 →
  LocalMutex.is_locked (LocalMutex.mutex s2) = true ∧ LocalMutex.guards s2 = 0 ∧
  (∀ m, LocalMutex.LocalMutex_lock (LocalMutex.mutex s2) ≠ (m, true)) ∧
  ∀ m, LocalMutex.LocalMutex_try_lock (LocalMutex.mutex s2) ≠ (m, Some ()).
Proof.
  intros Hr Hd H2. assert (abandoned s1) as H1.
  { destruct Hd as [s t l1 l2 Hw]. destruct (LocalMutex.lm_inv_reachable p s Hr) as [Ho _].
    rewrite Hw, length_app in Ho. simpl in Ho. unfold abandoned. simpl.
    destruct (LocalMutex.is_locked (LocalMutex.mutex s)); [|lia].
    split_and!; [done|lia|]. destruct l1, l2; simpl in *; done || lia. }
  destruct (rtc_invariant (LocalMutex.step p) abandoned s1 s2) as (Hl & Hg & _);
    [intros a b; apply abandoned_step|done|done|].
  split_and!; [done|done| |].
  - intros m. unfold LocalMutex.LocalMutex_lock. by rewrite Hl.
  - intros m. unfold LocalMutex.LocalMutex_try_lock. by rewrite Hl.
Qed.

Lemma mutex_wait_dropped_witness :
  ∃ s s1, rtc (LocalMutex.step Debug) LocalMutex.init s ∧ mutex_drop s s1 ∧
    ∀ m, LocalMutex.LocalMutex_lock (LocalMutex.mutex s1) ≠ (m, true).
Proof.
  pose (s := LocalMutex.mkSys (LocalMutex.mkLocalMutex true [ex_task 1]) 0 [ex_task 2]).
  pose (s1 := LocalMutex.mkSys (LocalMutex.mkLocalMutex true [ex_task 1]) 0 []).
  assert (rtc (LocalMutex.step Debug) LocalMutex.init s) as Hr.
  { eapply rtc_r; [apply (LocalMutex.ex_contended_reachable Debug)|].
    exact (LocalMutex.step_unlock Debug LocalMutex.ex_contended 0 _ (Some (ex_task 2)) eq_refl eq_refl). }
  assert (mutex_drop s s1) as Hd by exact (md_drop s (ex_task 2) [] [] eq_refl).
  exists s, s1. split; [exact Hr|]. split; [exact Hd|].
  apply (mutex_wait_dropped Debug s s1 s1 Hr Hd (rtc_refl _ _)).
Defined.

(** ** Requests in the ring

    An IO future has its [IoRequestData] in itself, and the entry in the ring
    has the address. *)
Definition drop_io_future (a : Z) (m : IoTypes.Mem) : IoTypes.Mem := delete a m.

(** A future that is dropped while its request is in the ring is written to
    when the request completes, with whatever result. Cancelling the request
    does not help: its completion comes with the same address. *)
Theorem io_future_dropped (p : profile) (cqe : IoUring.Cqe) (m : IoTypes.Mem) :
  IoUring.cqe_user_data cqe ≠ IoUring.ASYNC_CLOSE_DATA →
  IoUring.must_poll_turn p cqe (drop_io_future (IoUring.cqe_user_data cqe) m) = Undefined.
Proof.
  intros Hne. unfold IoUring.must_poll_turn. rewrite (proj2 (Z.eqb_neq _ _) Hne).
  unfold IoTypes.complete_request, IoTypes.get_mut, drop_io_future. by rewrite lookup_delete_eq.
Qed.
